(* ===== verification/_CoqProject ===== *)
-Q . S2P
Prelude.v
Changeset.v
Overlay.v
Allocator.v
ForkTree.v
ForkTreeAncestry.v
BagsList.v
Weights.v
MessageLanes.v
MessagesPallet.v
Bridge.v
StateDbBase.v
NonCanonical.v
NonCanonicalFacts.v
NonCanonicalInv.v
Canonicalize.v
NonCanonicalRestore.v
Pruning.v
PruningFacts.v
StateDb.v
StateDbInv.v
StateDbSystem.v
PruningStall.v
StateDbProps.v
BigUint.v
BigUintFacts.v
BigUintDiv.v
Helpers128.v
Rational.v
PerThing.v
Normalize.v
MessageQueue.v
MessageQueuePage.v
MessageQueueSpec.v
MessageQueueRing.v
MessageQueueInv.v
MessageQueueService.v
MessageQueueDemand.v
MessageQueueHistory.v
MessageQueueProgress.v
MessageQueueProps.v
MessageQueueCheck.v
MessageQueueHarm.v
MessageQueueExamples.v
