(* ===== verification/Prelude.v ===== *)
(** * A verified model of core components of the Polkadot SDK

    The repository holds the Substrate client and runtime framework, the Polkadot
    node and runtime, Cumulus (parachains) and the bridges between chains.  This
    library models components whose logic is self-contained and matters for the
    safety of a chain, as executable functions translated from the Rust code, and
    proves what each of them promises.

    ** How the parts fit together

    A runtime (a Wasm program) runs on a node.  It allocates memory from the
    node's allocator and reads and writes the state through the node's storage
    overlay, which keeps the changes of a block with nested transactions until the
    block is finished.  The nodes of the state tries that a block adds and gives up go
    to the state database, which keeps the states of competing blocks and of the last
    final ones.  The node keeps blocks that are not final on a tree of forks.
    The runtime is made of pallets; three are modelled, with the weights that meter
    their work and the arithmetic they compute with: the list of accounts sorted into bags
    by score, which staking uses to find the best voters, the messages pallet of a bridge
    to another chain, and the queue in which messages from other chains wait until there
    is weight to process them.

    ** Files

    - [Prelude]: outcomes of Rust functions ([res], with panics), stateful functions
      ([ST]) and three ways to reason about them ([keeps] for what an operation leaves
      alone, [wlp] for what holds if it returns [Ok], [total] if it does return), loops
      ([st_loop]), machine integers, and the tactics and hint database ([frame]) the other
      files share.
    - [Changeset]: [substrate/primitives/state-machine/src/overlayed_changes/changeset.rs].
      A map with nested transactions, kept as a stack of values per key and a set of
      dirty keys per transaction.  It refines a stack of plain maps ([Spec]).
    - [Overlay]: [overlayed_changes/mod.rs] and [offchain.rs].  The top storage, the
      child storages and the offchain changes, each a changeset, opened and closed in
      lockstep, the roots with their cache, and the drains.  The class [TxLayer] states what
      a layer promises; changesets implement it.  The class [Backend] is the state below,
      which computes roots for a state version.
    - [Allocator]: [substrate/client/allocator/src/freeing_bump.rs].  The heap of the
      runtime: headers written into the linear memory, free lists, bump allocation
      and page growth.  The class [Memory] is the linear memory with its laws, the class
      [Build] the build: with overflow checks and debug assertions, or with wrapping
      arithmetic.
    - [ForkTree], [ForkTreeAncestry]: [substrate/utils/fork-tree/src/lib.rs].  The tree
      of forks with every operation, as the loops the code has; the second file adds
      an ancestry relation (class [Ancestry]) that the client's closure decides, and
      what the operations mean for it.
    - [StateDbBase], [NonCanonical], [Pruning], [StateDb]: [lib.rs], [noncanonical.rs] and
      [pruning.rs] of [substrate/client/state-db/src].  The states of blocks: the overlay
      of blocks that are not canonical yet, with pins, the window of canonical blocks
      with both queues of death rows, the journals of both, and [StateDbSync].
      [NonCanonicalFacts], [NonCanonicalInv], [Canonicalize], [NonCanonicalRestore],
      [PruningFacts] and [StateDbInv] hold the invariants and the lemmas on each
      operation; [StateDbSystem] is a step relation: calls, writing what they returned
      to a database ([apply_state_commit] of [client/db/src/lib.rs]) and restarts;
      [PruningStall] follows a reference-counting database through a restart that stops
      pruning; [StateDbProps] has the theorems and runs a small chain.
    - [BagsList]: [substrate/frame/bags-list/src/list/mod.rs] and [lib.rs].  Doubly linked
      bags in two storage maps, refining sequences of accounts; migration between
      lists of thresholds.
    - [Weights]: [substrate/primitives/weights/src].  Two-dimensional weights, their
      arithmetic in three flavours, and the weight meter.
    - [MessageLanes]: [bridges/primitives/messages/src/lib.rs] and [inbound_lane.rs],
      [outbound_lane.rs] of [bridges/modules/messages/src].  The two ends of a message
      lane against the storage traits, which are classes with laws.
    - [MessagesPallet]: [bridges/modules/messages/src/lib.rs].  The pallet: storage,
      dispatchables, sending, pruning; it implements the storage traits of the lanes.
    - [Bridge]: two chains with the pallet, as a step relation.
    - [BigUint], [BigUintFacts], [BigUintDiv]: [biguint.rs] of
      [substrate/primitives/arithmetic/src].  Numbers as limbs of 32 bits, the schoolbook
      operations and Knuth's long division; the second file relates limbs to the number
      they stand for, the third has the proof of the division.
    - [Helpers128], [Rational]: [helpers_128bit.rs] and [rational.rs].  The binary gcd, the
      256-bit product and quotient, the square root, fractions of 128-bit numbers and of
      big integers, and the multiplication by a fraction for every width.
    - [PerThing]: [per_things.rs].  The fractions of one, parametric in the arguments of
      the macro that implements them.
    - [Normalize]: [normalize] and [tcmp] of [lib.rs].
    - [MessageQueue]: [substrate/frame/message-queue/src/lib.rs].  The pages and books of the
      queues, the ready ring, servicing, executing overweight messages, reaping, sweeping.
      [MessageQueuePage] relates the bytes of a page to a list of items, [MessageQueueSpec]
      a book with its pages to a queue of messages, [MessageQueueRing] the links of the
      books to a ring; [MessageQueueInv] has the invariant, [MessageQueueService] and
      [MessageQueueDemand] what the operations do to it, [MessageQueueProgress] when a
      message is served, [MessageQueueHistory] what a trace says, [MessageQueueProps] the
      runs of the pallet with the theorems, [MessageQueueCheck] the self-checks of the
      code, [MessageQueueHarm] what executing a message on demand can break, and
      [MessageQueueExamples] a runtime and its runs.

    In each file the definitions come first and keep the names of the code; the
    examples at the end evaluate them and show that the hypotheses of the theorems
    can hold.

    ** What the theorems show

    - Storage: every history of overlay operations gives the answers of a stack of
      maps; rolling back restores, committing preserves, what is read; the order in
      which a hash set is iterated does not matter.  No lockstep assertion fails if the
      overlay is drained only between transactions, and its offchain changes alone only
      outside the runtime; it does fail otherwise.  The storage root is the root of the
      visible changes if it is always asked for with the same backend and state version (the
      cache is keyed by neither) and the runtime closes its transactions.
    - Memory: regions handed out never overlap and are not written to by the
      allocator; double frees are detected; which requests fail, and why; a failed
      call poisons the allocator.  This is so in a build with overflow checks, and in a
      release build if the memory is limited to fewer than 65536 pages and the heap base is
      below [2 ^ 32 - 7]; an example shows the wrapped bumper otherwise.
    - Forks: importing adds one block in the right place; searches find the deepest
      match; the finalization functions and pruning keep exactly the descendants
      they should; the level-order [map] and [drain_filter] are the recursive ones.
    - States: for a database without reference counts, in every state that calls,
      writes and restarts lead to, a block reported as not pruned has all its nodes, unless
      it lost against the canonical chain and is kept for a pin, in which case it has them
      as long as the canonical block it branches off from is not pruned;
      the database holds no others; no call panics; canonicalization keeps exactly
      the descendants of a block; the window is cut to its size except before a pinned
      block; what is written is read back on a restart.  Callers give each block once,
      with the nodes its state adds to and removes from the state of its parent, pin
      only what they may ([StateDbSystem.allowed] spells this out), and write commits
      in order.  Four examples show what happens outside these rules, and are the reason for
      them: an error that drops a level, and pins that do not hold a fork's shared nodes or
      are released too early.  A database with reference counts that is restarted before its
      first block is canonical is never pruned, whatever happens afterwards.
    - Bags: the linked structure implements the sequences for every history of
      calls; iteration visits every account once, by decreasing bag; migration moves
      exactly the accounts that are affected.
    - Weights: the flavours of the arithmetic agree where the result fits; the meter
      grants what fits under the limit.
    - Messages: whatever relayers do, the target chain dispatches the messages of a
      lane in order, each once; nothing undelivered is pruned; genuine delivery
      proofs are accepted and a lane never gets stuck; rewards count deliveries.
    - Queues: no message is lost or processed twice, a queue is served in order, and the
      counters are exact; the ring has exactly the queues that are ready; servicing ends
      within its weight and serves the first message of the queue at the head if there is
      weight for one; no assertion fails but the one on a weight limit that is too low; the
      answers of [execute_overweight] and [reap_page] have the reasons they claim, and stale
      pages are bounded if they are reaped; the self-check of the code accepts the storage.
      All this is after any calls with two conditions on them
      ([MessageQueueProps.admissible]): page numbers do not run out, also not by what the
      processor enqueues ([pages_last]), and a message executed on demand is harmless
      ([MessageQueueDemand.harmless]).  The code does not enforce the second one: a message
      that is dealt with must not be the last one of the page that is next to be serviced,
      and the processor must leave its queue alone.  Two theorems state the harm
      otherwise: the queue loses messages, or all queues halt for good.
    - Arithmetic: the operations on limbs are those of the numbers, with no overflow in
      any intermediate word, the long division with its estimates and corrections
      included; a product with a fraction is the exact one, rounded as asked, or refused
      because it does not fit; comparisons of fractions are exact; powers of fractions
      never exceed the exact ones; the gcd, the square root and [normalize] end, the
      last with the sum asked for.

    ** Conventions

    Integers of [w] bits are [Z] with their range as a hypothesis where it matters;
    the operators of Rust panic on overflow ([add_u] and its like answer [Panic]), the
    saturating and checked functions are written out.  [expect], [unwrap],
    [debug_assert!], [defensive!] and indexing out of bounds are [Panic] as well, so
    that a theorem which excludes [Panic] covers debug and release builds.  In the message
    queue [debug_assert!] and [defensive!] can be reached, and are noted in the trace.  In
    the allocator overflows can be reached, and the arithmetic depends on the build.

    Loops that are not structural take fuel: the number of nodes of a tree ([ForkTree]),
    of stored nodes ([BagsList.successors]), of open transactions ([Changeset]), of
    nonces that may be pruned ([MessageLanes]), of blocks in the window
    ([StateDb.Sdb.prune_fuel]) or of pins ([NonCanonical.pin_counts]).  In the arithmetic
    it bounds bits: 257 rounds for [gcd], each of which halves the product of two 128-bit
    numbers, 131 for the quotient of a 256-bit number, 65 for [sqrt] and [pow], 3 for the
    correction of an estimated limb.  A loop of the message queue runs for at most [2 ^ k]
    rounds ([st_loop]): [k] is 32 where an offset or a page number grows, 65 where weight is
    consumed, the number of books where the ring is walked.  The loops that read
    the journals take it as an argument and answer [None] without enough of it:
    [restart_restores] gives an amount that is enough.  The lemmas on these functions show
    that the fuel is enough; no theorem depends on running out of it.

    Hash maps and sets are [gmap] and [gset]; where the iteration order of the code is
    unspecified the theorems hold for every order or say which enumeration is used.
    Code outside the repository, and traits that a runtime configures, are parameters
    with their documented behaviour as laws or hypotheses.

    ** Not modelled, and the plan

    Networking, consensus protocols, RPC, the keystore and the assembly of services
    are I/O on external crates; tries and cryptography are external crates; the macros
    of FRAME are covered only by the meaning they give to the pallets.  Of the modelled
    components, encodings, logging, metrics and benchmarks are left out.  The operations
    of the state database are modelled for databases with and without reference counts,
    but the contents of one with counts are not: the theorems on what is readable are
    about the other.  Of the message queue, the output of
    [debug_info] is left out.  Processors that call [sweep_queue] are not modelled.

    The statement table and the tree of chain selection of the Polkadot node, the
    unincluded segment of parachain-system, the holding register of the XCM executor, the
    fixed-point numbers and the graph of the transaction pool have logic of the same kind
    and are not modelled: each is a development of its own size, which was not made. *)
From stdpp Require Import base gmap list sorting.
From Stdlib Require Import ZArith Lia.
Set Warnings "-clear-no-such-hyp".

(** ** Outcomes of Rust functions

    [Ok] and [Err] are the two constructors of Rust's [Result]; [Panic] is an
    unwinding panic: a failed [expect] or [unwrap], an index out of bounds, a
    violated [assert], or an arithmetic overflow in a build with overflow
    checks (the workspace's dev and testnet profiles).  A theorem that
    excludes [Panic] therefore also says that the wrapping release build
    computes the same number. *)
Inductive res (E A : Type) : Type :=
| Ok (a : A)
| Err (e : E)
| Panic.
Arguments Ok {E A} _.
Arguments Err {E A} _.
Arguments Panic {E A}.

#[export] Instance res_ret E : MRet (res E) := fun A a => Ok a.
#[export] Instance res_bind E : MBind (res E) := fun A B f m =>
  match m with Ok a => f a | Err e => Err e | Panic => Panic end.
#[export] Instance res_fmap E : FMap (res E) := fun A B f m =>
  match m with Ok a => Ok (f a) | Err e => Err e | Panic => Panic end.

(** [opt.ok_or(e)] *)
Definition ok_or {E A} (e : E) (o : option A) : res E A :=
  match o with Some a => Ok a | None => Err e end.

(** [opt.expect(..)] *)
Definition expect {E A} (o : option A) : res E A :=
  match o with Some a => Ok a | None => Panic end.

(** A [for] loop whose body may return early with an error or panic. *)
Fixpoint for_each {E A B} (f : A -> B -> res E A) (l : list B) (a : A) : res E A :=
  match l with
  | [] => Ok a
  | b :: l' => match f a b with Ok a' => for_each f l' a' | Err e => Err e | Panic => Panic end
  end.

Lemma for_each_app {E A B} (f : A -> B -> res E A) l1 l2 a :
  for_each f (l1 ++ l2) a = (a' ← for_each f l1 a; for_each f l2 a').
Proof.
  revert a; induction l1 as [|b l1 IH]; intros a; simpl; [done|].
  destruct (f a b); simpl; auto.
Qed.

(** A loop invariant indexed by the elements already treated carries through
    a [for] loop, which then returns normally. *)
Lemma for_each_inv {E A B} (f : A -> B -> res E A) (P : list B -> A -> Prop) l a :
  P [] a ->
  (forall done b todo a, l = done ++ b :: todo -> P done a ->
     exists a', f a b = Ok a' /\ P (done ++ [b]) a') ->
  exists a', for_each f l a = Ok a' /\ P l a'.
Proof.
  intros H0 Hstep.
  assert (forall todo dn a, l = dn ++ todo -> P dn a ->
    exists a', for_each f todo a = Ok a' /\ P l a') as Hgen.
  { induction todo as [|b todo IH]; intros dn a0 -> HP; simpl.
    - rewrite app_nil_r in *. eauto.
    - destruct (Hstep dn b todo a0 eq_refl HP) as (a1 & -> & HP1).
      apply (IH (dn ++ [b])); [by rewrite <- app_assoc|done]. }
  by apply (Hgen l []).
Qed.

(** [r.expect(..)] on a [Result]. *)
Definition expect_ok {E A} (r : res E A) : res E A :=
  match r with Ok a => Ok a | _ => Panic end.

Definition res_option {E A} (r : res E A) : option A :=
  match r with Ok a => Some a | _ => None end.

(** A loop over the values of a map that replaces every value; [f] may panic. *)
Definition map_res {E A B} `{Countable K} (f : A -> res E B) (m : gmap K A) : res E (gmap K B) :=
  for_each (fun acc '(k, a) => b ← f a; Ok (<[k := b]> acc)) (map_to_list m) ∅.

Lemma map_res_ok {E A B} `{Countable K} (f : A -> res E B) (m : gmap K A) :
  map_Forall (fun _ a => exists b, f a = Ok b) m ->
  map_res f m = Ok (omap (fun a => res_option (f a)) m).
Proof.
  intros Hf. unfold map_res.
  pose proof (NoDup_fst_map_to_list m) as Hnd.
  edestruct (for_each_inv (fun acc '(k, a) => b ← f a; Ok (<[k := b]> acc))
    (fun dn (acc : gmap K B) => forall k, acc !! k =
       if decide (k ∈ dn.*1) then m !! k ≫= (fun a => res_option (f a)) else None)
    (map_to_list m) ∅) as (out & -> & Hout).
  - intros k. by rewrite lookup_empty, decide_False by apply not_elem_of_nil.
  - intros dn [k a] todo acc Heq Hacc.
    assert (m !! k = Some a) as Hk.
    { apply elem_of_map_to_list. rewrite Heq. apply elem_of_app. right. constructor. }
    destruct (Hf _ _ Hk) as [b Hb]. rewrite Hb. simpl. eexists; split; [done|].
    intros j. rewrite lookup_insert, fmap_app. simpl. destruct (decide (k = j)) as [<-|Hne].
    + rewrite decide_True by (apply elem_of_app; right; constructor). by rewrite Hk; simpl; rewrite Hb.
    + rewrite Hacc. destruct (decide (j ∈ dn.*1)).
      * by rewrite decide_True by (apply elem_of_app; by left).
      * rewrite decide_False; [done|]. rewrite elem_of_app, list_elem_of_singleton. naive_solver.
  - f_equal. apply map_eq. intros k. rewrite Hout, lookup_omap. case_decide as Hk; [done|].
    destruct (m !! k) as [a|] eqn:Hm; [|done]. destruct Hk.
    apply list_elem_of_fmap. exists (k, a). split; [done|]. by apply elem_of_map_to_list.
Qed.

(** ** Stateful functions

    A method that takes [&mut self] and returns a [Result] keeps the changes it
    made before it returned an error. *)
Definition ST (S E A : Type) : Type := S -> S * res E A.

#[export] Instance st_ret S E : MRet (ST S E) := fun A a s => (s, Ok a).
#[export] Instance st_bind S E : MBind (ST S E) := fun A B f m s =>
  match m s with
  | (s', Ok a) => f a s'
  | (s', Err e) => (s', Err e)
  | (s', Panic) => (s', Panic)
  end.

Definition st_get {S E} : ST S E S := fun s => (s, Ok s).
Definition st_modify {S E} (f : S -> S) : ST S E unit := fun s => (f s, Ok tt).
(** A computation that does not touch the state: [expr?]. *)
Definition st_lift {S E A} (r : res E A) : ST S E A := fun s => (s, r).

(** A [for] loop in a stateful function, with its local variables [a]. *)
Fixpoint st_for {S E A B} (f : A -> B -> ST S E A) (a : A) (l : list B) : ST S E A :=
  match l with [] => mret a | x :: l' => a' ← f a x; st_for f a' l' end.

(** [op.map_err(f)] *)
Definition st_map_err {S E E' A} (f : E -> E') (op : ST S E A) : ST S E' A := fun s =>
  match op s with (s', Ok a) => (s', Ok a) | (s', Err e) => (s', Err (f e)) | (s', Panic) => (s', Panic) end.

Lemma st_bind_ok {S E A B} (m : ST S E A) (f : A -> ST S E B) s s' a :
  m s = (s', Ok a) -> (x ← m; f x) s = f a s'.
Proof. unfold mbind, st_bind. by intros ->. Qed.

Lemma st_lift_ok {S E A B} (r : res E A) (f : A -> ST S E B) s a :
  r = Ok a -> (x ← st_lift r; f x) s = f a s.
Proof. by intros ->. Qed.

Lemma st_bind_err {S E A B} (m : ST S E A) (f : A -> ST S E B) s s' e :
  m s = (s', Err e) -> (x ← m; f x) s = (s', Err e).
Proof. unfold mbind, st_bind. by intros ->. Qed.

Lemma st_get_bind {S E B} (f : S -> ST S E B) s : (x ← st_get; f x) s = f s s.
Proof. done. Qed.

Lemma st_modify_bind {S E B} g (f : unit -> ST S E B) s : (x ← st_modify g; f x) s = f tt (g s).
Proof. done. Qed.

Lemma st_for_one {S E A B} (f : A -> B -> ST S E A) a b s : st_for f a [b] s = f a b s.
Proof. cbn. unfold mbind, st_bind. by destruct (f a b s) as [s' []]. Qed.

Lemma st_for_app {S E A B} (f : A -> B -> ST S E A) a l1 l2 s :
  st_for f a (l1 ++ l2) s = (x ← st_for f a l1; st_for f x l2) s.
Proof.
  revert a s. induction l1 as [|b l1 IH]; intros a s; [done|]. cbn. unfold mbind, st_bind in *.
  destruct (f a b s) as [s' []]; [apply IH|done..].
Qed.

(** What a stateful function leaves alone: a part [f] of the state. *)
Definition keeps {S E A X} (f : S -> X) (op : ST S E A) : Prop := forall s, f (op s).1 = f s.

Section keeps.
Context {S E X : Type} (f : S -> X).

Lemma keeps_ret {A} (a : A) : keeps (E := E) f (mret a).
Proof. by intros s. Qed.
Lemma keeps_lift {A} (r : res E A) : keeps f (st_lift r).
Proof. by intros s. Qed.
Lemma keeps_get : keeps (E := E) f st_get.
Proof. by intros s. Qed.
Lemma keeps_modify g : (forall s, f (g s) = f s) -> keeps (E := E) f (st_modify g).
Proof. intros Hg s. apply Hg. Qed.
Lemma keeps_bind {A B} (m : ST S E A) (k : A -> ST S E B) :
  keeps f m -> (forall a, keeps f (k a)) -> keeps f (x ← m; k x).
Proof.
  intros Hm Hk s. specialize (Hm s). unfold mbind, st_bind. destruct (m s) as [s' [a|e|]]; simpl in *; [|done..].
  by rewrite <- Hm, Hk.
Qed.
Lemma keeps_for {A B} (g : A -> B -> ST S E A) a l : (forall a b, keeps f (g a b)) -> keeps f (st_for g a l).
Proof.
  intros Hg. revert a. induction l as [|b l IH]; intros a; [apply keeps_ret|]. simpl. apply keeps_bind; [apply Hg|apply IH].
Qed.
Lemma keeps_map_err {E' A} (h : E -> E') (op : ST S E A) : keeps f op -> keeps f (st_map_err h op).
Proof. intros Hop s. specialize (Hop s). unfold st_map_err. by destruct (op s) as [s' [a|e|]]. Qed.
End keeps.

(** Lemmas that say what a named operation leaves alone. *)
Create HintDb frame.
#[export] Hint Resolve keeps_ret keeps_lift keeps_get : frame.

(** Walks through the body of a function and its branches. *)
Ltac solve_keeps :=
  repeat match goal with
  | |- keeps _ (mbind _ _) => apply keeps_bind; [|intros ?]
  | |- keeps _ (st_for _ _ _) => apply keeps_for; intros ? ?
  | |- keeps _ (st_map_err _ _) => apply keeps_map_err
  | |- keeps _ (let '(_, _) := ?x in _) => destruct x
  | |- keeps _ (match ?x with _ => _ end) => destruct x
  | |- keeps _ (let _ := _ in _) => cbv zeta
  | |- keeps _ _ => solve [auto with frame | by apply keeps_modify]
  end.

(** What holds if a stateful function returns [Ok]. *)
Definition wlp {S E A} (op : ST S E A) (Q : A -> S -> Prop) (s : S) : Prop :=
  match op s with (s', Ok a) => Q a s' | _ => True end.

Section wlp.
Context {S E : Type}.

Lemma wlp_ok {A} (op : ST S E A) Q s s' a : wlp op Q s -> op s = (s', Ok a) -> Q a s'.
Proof. unfold wlp. intros H Heq. by rewrite Heq in H. Qed.
Lemma wlp_bind {A B} (m : ST S E A) (k : A -> ST S E B) Q s : wlp m (fun a => wlp (k a) Q) s -> wlp (x ← m; k x) Q s.
Proof. unfold wlp, mbind, st_bind. by destruct (m s) as [s' [a|e|]]. Qed.
Lemma wlp_mono {A} (op : ST S E A) (P Q : A -> S -> Prop) s : wlp op P s -> (forall a s', P a s' -> Q a s') -> wlp op Q s.
Proof. unfold wlp. intros H HPQ. destruct (op s) as [s' [a|e|]]; auto. Qed.
Lemma wlp_lift {A} (r : res E A) (Q : A -> S -> Prop) s : (forall a, r = Ok a -> Q a s) -> wlp (st_lift r) Q s.
Proof. unfold wlp, st_lift. intros HQ. destruct r; auto. Qed.
Lemma wlp_get (Q : S -> S -> Prop) s : Q s s -> wlp (E := E) st_get Q s.
Proof. done. Qed.
Lemma wlp_modify g (Q : unit -> S -> Prop) s : Q tt (g s) -> wlp (E := E) (st_modify g) Q s.
Proof. done. Qed.
Lemma wlp_unit {A} (op : ST S E A) (Q : S -> Prop) s : wlp op (fun _ => Q) s -> wlp (_ ← op; mret tt) (fun _ => Q) s.
Proof. intros Hop. apply wlp_bind. by eapply wlp_mono. Qed.
Lemma wlp_map_err {E' A} (h : E -> E') (op : ST S E A) (Q : A -> S -> Prop) s : wlp op Q s -> wlp (st_map_err h op) Q s.
Proof. unfold wlp, st_map_err. by destruct (op s) as [s' [a|e|]]. Qed.
Lemma wlp_for {A B} (f : A -> B -> ST S E A) (P : A -> S -> Prop) a l s :
  P a s -> (forall b a s, b ∈ l -> P a s -> wlp (f a b) P s) -> wlp (st_for f a l) P s.
Proof.
  revert a s. induction l as [|b l IH]; intros a s HP Hf; [done|]. simpl. apply wlp_bind.
  eapply wlp_mono; [apply Hf; [constructor|done]|]. intros a' s' HP'. apply IH; [done|].
  intros b' a0 s0 Hb'. apply Hf. by constructor.
Qed.
Lemma wlp_keeps {A X} (f : S -> X) (op : ST S E A) s : keeps f op -> wlp op (fun _ s' => f s' = f s) s.
Proof. intros Hk. specialize (Hk s). unfold wlp. by destruct (op s) as [s' [a|e|]]. Qed.
Lemma wlp_and {A} (op : ST S E A) (P Q : A -> S -> Prop) s : wlp op P s -> wlp op Q s -> wlp op (fun a s' => P a s' /\ Q a s') s.
Proof. unfold wlp. intros. destruct (op s) as [s' [a|e|]]; auto. Qed.
End wlp.

(** A stateful function returns [Ok], with a result and a state of which [Q] holds. *)
Definition total {S E A} (op : ST S E A) (Q : A -> S -> Prop) (s : S) : Prop :=
  match op s with (s', Ok a) => Q a s' | _ => False end.

Section total.
Context {S E : Type}.

Lemma total_ok {A} (op : ST S E A) Q s : total op Q s <-> exists s' a, op s = (s', Ok a) /\ Q a s'.
Proof.
  unfold total. split; [|by intros (s' & a & -> & HQ)].
  destruct (op s) as [s' [a|e|]]; [|done..]. intros HQ. by exists s', a.
Qed.
Lemma total_bind {A B} (m : ST S E A) (k : A -> ST S E B) Q s : total m (fun a => total (k a) Q) s -> total (x ← m; k x) Q s.
Proof. unfold total, mbind, st_bind. by destruct (m s) as [s' [a|e|]]. Qed.
Lemma total_mono {A} (op : ST S E A) (P Q : A -> S -> Prop) s : total op P s -> (forall a s', P a s' -> Q a s') -> total op Q s.
Proof. unfold total. intros H HPQ. destruct (op s) as [s' [a|e|]]; auto. Qed.
Lemma total_lift {A} (r : res E A) a (Q : A -> S -> Prop) s : r = Ok a -> Q a s -> total (st_lift r) Q s.
Proof. by intros ->. Qed.
Lemma total_for {A B} (f : A -> B -> ST S E A) (P : list B -> A -> S -> Prop) a l s :
  P [] a s -> (forall done b todo a s, l = done ++ b :: todo -> P done a s -> total (f a b) (P (done ++ [b])) s) ->
  total (st_for f a l) (P l) s.
Proof.
  intros H0 Hf. assert (forall todo done a s, l = done ++ todo -> P done a s -> total (st_for f a todo) (P l) s) as Hgen; [|by apply (Hgen l [])].
  clear a s H0. induction todo as [|b todo IH]; intros done a s -> HP; [by rewrite app_nil_r|]. simpl. apply total_bind.
  eapply total_mono; [by apply (Hf done b todo)|]. intros a' s' HP'. apply (IH (done ++ [b])); [by rewrite <- app_assoc|done].
Qed.
End total.

(** ** Loops

    A loop whose body goes on ([inl]) or is left with a result ([inr]), for at most [2 ^ k]
    rounds; a loop that is still going on after them is a [Panic]. *)
Section loop.
Context {S E A R : Type} (body : A -> ST S E (A + R)).

Fixpoint rounds (k : nat) (a : A) : ST S E (A + R) :=
  match k with
  | O => body a
  | Datatypes.S k' => x ← rounds k' a; match x with inl a' => rounds k' a' | inr r => mret (inr r) end
  end.

Definition st_loop (k : nat) (a : A) : ST S E R :=
  x ← rounds k a; match x with inr r => mret r | inl _ => st_lift Panic end.

(** A bound [n] on the rounds that are left goes down in each of them. *)
Lemma total_loop (I : Z -> A -> S -> Prop) (Q : R -> S -> Prop) k n a s :
  (0 <= n < 2 ^ Z.of_nat k)%Z -> I n a s ->
  (forall n a s, (0 <= n)%Z -> I n a s ->
     total (body a) (fun x s' => match x with inl a' => exists n', (0 <= n' < n)%Z /\ I n' a' s' | inr r => Q r s' end) s) ->
  total (st_loop k a) Q s.
Proof.
  intros Hn HI Hbody. unfold st_loop. apply total_bind. eapply total_mono with (P := fun x s' => match x with
    | inl a' => exists n', (0 <= n' <= n - 2 ^ Z.of_nat k)%Z /\ I n' a' s' | inr r => Q r s' end).
  2:{ intros [a'|r] s'; [intros (n' & Hn' & _); lia|done]. }
  destruct Hn as [Hn _]. clear - HI Hbody Hn. revert n a s Hn HI. induction k as [|k IH]; intros n a s Hn HI.
  { eapply total_mono; [by apply (Hbody n)|]. intros [a'|r] s'; [|done]. intros (n' & ? & ?). exists n'. split; [lia|done]. }
  simpl rounds. apply total_bind. eapply total_mono; [by apply IH|]. intros [a'|r] s'; [|done]. intros (n' & Hn' & HI').
  eapply total_mono; [by apply (IH n'); [lia|]|]. intros [a2|r] s2; [|done]. intros (n2 & Hn2 & HI2). exists n2. split; [|done].
  rewrite Nat2Z.inj_succ, Z.pow_succ_r by lia. lia.
Qed.
End loop.

(** ** Machine integers

    A [w]-bit unsigned integer is a [Z] in [[0, 2^w)]. *)
Definition in_u (w x : Z) : Prop := (0 <= x < 2 ^ w)%Z.

Definition checked_add (w a b : Z) : option Z :=
  if (a + b <? 2 ^ w)%Z then Some (a + b)%Z else None.
Definition checked_sub (a b : Z) : option Z :=
  if (b <=? a)%Z then Some (a - b)%Z else None.
Definition saturating_add (w a b : Z) : Z := Z.min (a + b) (2 ^ w - 1).
Definition saturating_sub (a b : Z) : Z := Z.max 0 (a - b).
Definition checked_mul (w a b : Z) : option Z :=
  if (a * b <? 2 ^ w)%Z then Some (a * b)%Z else None.
Definition saturating_mul (w a b : Z) : Z := Z.min (a * b) (2 ^ w - 1).
Definition saturating_pow (w a n : Z) : Z := Z.min (a ^ n) (2 ^ w - 1).
Definition checked_pow (w a n : Z) : option Z := if (a ^ n <? 2 ^ w)%Z then Some (a ^ n)%Z else None.
Definition checked_div (a b : Z) : option Z := if (b =? 0)%Z then None else Some (a / b)%Z.

(** The operators [+] and [-] of Rust, which panic on overflow. *)
Definition add_u {E} (w a b : Z) : res E Z := expect (checked_add w a b).
Definition sub_u {E} (a b : Z) : res E Z := expect (checked_sub a b).
Definition mul_u {E} (w a b : Z) : res E Z := expect (checked_mul w a b).
(** The operator [/] of Rust, which panics on a division by zero. *)
Definition div_u {E} (a b : Z) : res E Z := expect (checked_div a b).
Definition rem_u {E} (a b : Z) : res E Z := if (b =? 0)%Z then Panic else Ok (a mod b)%Z.

Lemma add_u_ok {E} w a b : (a + b < 2 ^ w)%Z -> @add_u E w a b = Ok (a + b)%Z.
Proof. intros H. unfold add_u, checked_add. by rewrite (proj2 (Z.ltb_lt _ _) H). Qed.

Lemma sub_u_ok {E} a b : (b <= a)%Z -> @sub_u E a b = Ok (a - b)%Z.
Proof. intros H. unfold sub_u, checked_sub. by rewrite (proj2 (Z.leb_le _ _) H). Qed.

Lemma mul_u_ok {E} w a b : (a * b < 2 ^ w)%Z -> @mul_u E w a b = Ok (a * b)%Z.
Proof. intros H. unfold mul_u, checked_mul. by rewrite (proj2 (Z.ltb_lt _ _) H). Qed.

Lemma div_u_ok {E} a b : b <> 0%Z -> @div_u E a b = Ok (a / b)%Z.
Proof. intros H. unfold div_u, checked_div. by rewrite (proj2 (Z.eqb_neq _ _) H). Qed.

Lemma rem_u_ok {E} a b : b <> 0%Z -> @rem_u E a b = Ok (a mod b)%Z.
Proof. intros H. unfold rem_u. by rewrite (proj2 (Z.eqb_neq _ _) H). Qed.

(** ** Sums over lists *)
Definition sum_Z (l : list Z) : Z := foldr Z.add 0%Z l.

Lemma sum_Z_cons x l : sum_Z (x :: l) = (x + sum_Z l)%Z.
Proof. done. Qed.

Lemma sum_Z_app l1 l2 : sum_Z (l1 ++ l2) = (sum_Z l1 + sum_Z l2)%Z.
Proof. induction l1 as [|x l1 IH]; simpl; [done|]. rewrite IH. apply Z.add_assoc. Qed.

Lemma sum_Z_snoc l x : sum_Z (l ++ [x]) = (sum_Z l + x)%Z.
Proof. rewrite sum_Z_app. simpl. by rewrite Z.add_0_r. Qed.

Lemma sum_Z_perm l1 l2 : l1 ≡ₚ l2 -> sum_Z l1 = sum_Z l2.
Proof. induction 1; simpl; lia. Qed.

Lemma sum_Z_nonneg {A} (f : A -> Z) l : (forall a, a ∈ l -> 0 <= f a)%Z -> (0 <= sum_Z (f <$> l))%Z.
Proof.
  induction l as [|a l IH]; intros Hf; [done|]. rewrite fmap_cons, sum_Z_cons.
  specialize (Hf a ltac:(constructor)) as Ha. specialize (IH ltac:(intros; apply Hf; by constructor)). lia.
Qed.

(** The number of times an element occurs in a list. *)
Fixpoint occ {A} `{EqDecision A} (x : A) (l : list A) : Z :=
  match l with [] => 0 | y :: l' => (if decide (y = x) then 1 else 0) + occ x l' end.

Lemma occ_nonneg {A} `{EqDecision A} (x : A) l : (0 <= occ x l)%Z.
Proof. induction l; simpl; [lia|]. case_decide; lia. Qed.

Lemma occ_app {A} `{EqDecision A} (x : A) l1 l2 : occ x (l1 ++ l2) = (occ x l1 + occ x l2)%Z.
Proof. induction l1; simpl; lia. Qed.

Lemma occ_pos {A} `{EqDecision A} (x : A) l : (0 < occ x l)%Z <-> x ∈ l.
Proof.
  induction l as [|y l IH]; simpl; [rewrite elem_of_nil; lia|]. rewrite elem_of_cons. pose proof (occ_nonneg x l).
  case_decide; [split; [auto|lia]|]. rewrite <- IH. split; [lia|intros [->|?]; [done|lia]].
Qed.

Lemma occ_perm {A} `{EqDecision A} (l1 l2 : list A) : l1 ≡ₚ l2 <-> (forall x, occ x l1 = occ x l2).
Proof.
  split; [intros Hp z; induction Hp; simpl; lia|].
  revert l2. induction l1 as [|y l1 IH]; intros l2 Hocc.
  - destruct l2 as [|z l2]; [done|]. specialize (Hocc z). simpl in Hocc. pose proof (occ_nonneg z l2).
    rewrite decide_True in Hocc by done. lia.
  - assert (y ∈ l2) as (k1 & k2 & ->)%list_elem_of_split.
    { apply occ_pos. rewrite <- Hocc. simpl. rewrite decide_True by done. pose proof (occ_nonneg y l1). lia. }
    rewrite <- Permutation_middle. apply perm_skip, IH. intros x. specialize (Hocc x). revert Hocc.
    rewrite !occ_app. simpl. lia.
Qed.

(** Permutations of concatenations, from the permutations among the hypotheses. *)
Ltac solve_perm :=
  apply occ_perm; let x := fresh "x" in intros x;
  repeat match goal with
  | H : _ ≡ₚ _ |- _ => apply occ_perm with (x := x) in H
  end;
  repeat match goal with
  | H : context [occ x (_ ++ _)] |- _ => rewrite occ_app in H
  | H : context [occ x (_ :: _)] |- _ => progress cbn [occ] in H
  | |- context [occ x (_ ++ _)] => rewrite occ_app
  | |- context [occ x (_ :: _)] => progress cbn [occ]
  end; lia.

Lemma NoDup_fmap_eq {A B} (f : A -> B) (l : list A) x y : NoDup (f <$> l) -> x ∈ l -> y ∈ l -> f x = f y -> x = y.
Proof.
  intros Hnd [i Hi]%list_elem_of_lookup [j Hj]%list_elem_of_lookup Heq.
  assert (i = j) as <-; [|congruence].
  apply (NoDup_lookup _ _ _ (f x) Hnd); rewrite list_lookup_fmap; [by rewrite Hi|by rewrite Hj, Heq].
Qed.

(** Sums over the entries of a map. *)
Definition map_sum {A} `{Countable K} (f : K -> A -> Z) (m : gmap K A) : Z :=
  sum_Z ((fun '(k, a) => f k a) <$> map_to_list m).

Lemma map_sum_empty {A} `{Countable K} (f : K -> A -> Z) : map_sum f (∅ : gmap K A) = 0%Z.
Proof. unfold map_sum. by rewrite map_to_list_empty. Qed.

Lemma map_sum_insert {A} `{Countable K} (f : K -> A -> Z) (m : gmap K A) k a :
  m !! k = None -> map_sum f (<[k := a]> m) = (f k a + map_sum f m)%Z.
Proof. intros Hk. unfold map_sum. by rewrite (sum_Z_perm _ _ (fmap_Permutation _ _ _ (map_to_list_insert m k a Hk))). Qed.

Lemma map_sum_delete {A} `{Countable K} (f : K -> A -> Z) (m : gmap K A) k a :
  m !! k = Some a -> map_sum f m = (f k a + map_sum f (delete k m))%Z.
Proof. intros Hk. rewrite <- (insert_delete_id m k a Hk) at 1. apply map_sum_insert. by rewrite lookup_delete_eq. Qed.

Lemma map_sum_update {A} `{Countable K} (f : K -> A -> Z) (m : gmap K A) k a b :
  m !! k = Some a -> map_sum f (<[k := b]> m) = (map_sum f m - f k a + f k b)%Z.
Proof.
  intros Hk. rewrite (map_sum_delete f m k a Hk), <- insert_delete_eq, map_sum_insert by (by rewrite lookup_delete_eq). lia.
Qed.

Lemma map_sum_ext {A} `{Countable K} (f g : K -> A -> Z) (m : gmap K A) :
  (forall k a, m !! k = Some a -> f k a = g k a) -> map_sum f m = map_sum g m.
Proof.
  intros Hfg. unfold map_sum. f_equal. apply list_fmap_ext. intros i [k a] Hi. apply Hfg.
  apply elem_of_map_to_list. by eapply list_elem_of_lookup_2.
Qed.

Lemma map_sum_zero {A} `{Countable K} (f : K -> A -> Z) (m : gmap K A) :
  (forall k a, m !! k = Some a -> f k a = 0%Z) -> map_sum f m = 0%Z.
Proof.
  intros Hf. rewrite (map_sum_ext f (fun _ _ => 0%Z) m Hf). unfold map_sum.
  induction (map_to_list m) as [|[k a] l IH]; [done|]. by rewrite fmap_cons, sum_Z_cons, IH.
Qed.

Lemma map_sum_nonneg {A} `{Countable K} (f : K -> A -> Z) (m : gmap K A) :
  (forall k a, m !! k = Some a -> 0 <= f k a)%Z -> (0 <= map_sum f m)%Z.
Proof. intros Hf. apply sum_Z_nonneg. intros [k a]. rewrite elem_of_map_to_list. apply Hf. Qed.

(** A map that differs from [m] by the entries at the keys [l]. *)
Lemma map_sum_extend {A} `{Countable K} (f : K -> A -> Z) (m m' : gmap K A) l :
  NoDup l -> (forall k, k ∈ l -> m !! k = None) -> (forall k, k ∉ l -> m' !! k = m !! k) ->
  map_sum f m' = (sum_Z ((fun k => match m' !! k with Some a => f k a | None => 0%Z end) <$> l) + map_sum f m)%Z.
Proof.
  intros Hnd. revert m'. induction Hnd as [|k l Hk Hnd IH]; intros m' Hnone Hother.
  { replace m' with m; [done|]. apply map_eq. intros k. symmetry. apply Hother, not_elem_of_nil. }
  rewrite fmap_cons, sum_Z_cons. assert (map_sum f m' = match m' !! k with Some a => f k a | None => 0 end + map_sum f (delete k m'))%Z as ->.
  { destruct (m' !! k) as [a|] eqn:Ha; [by apply map_sum_delete|]. by rewrite delete_id. }
  rewrite (IH (delete k m')), Z.add_assoc.
  - do 2 f_equal. f_equal. apply list_fmap_ext. intros i k' Hk'%list_elem_of_lookup_2.
    by rewrite lookup_delete_ne by congruence.
  - intros k' Hk'. apply Hnone. by constructor.
  - intros k' Hk'. destruct (decide (k = k')) as [<-|Hne]; [|rewrite lookup_delete_ne by done; apply Hother; set_solver].
    rewrite lookup_delete_eq. symmetry. apply Hnone. constructor.
Qed.

(** ** Automation *)

(** Splits the boolean comparisons of integers and naturals that block a
    computation, with their arithmetic meaning in the context. *)
Ltac case_cmp :=
  match goal with
  | |- context [(?a <? ?b)%Z] => destruct (Z.ltb_spec a b)
  | |- context [(?a <=? ?b)%Z] => destruct (Z.leb_spec a b)
  | |- context [(?a =? ?b)%Z] => destruct (Z.eqb_spec a b)
  | |- context [(?a <? ?b)%nat] => destruct (Nat.ltb_spec a b)
  | |- context [(?a <=? ?b)%nat] => destruct (Nat.leb_spec a b)
  | |- context [(?a =? ?b)%nat] => destruct (Nat.eqb_spec a b)
  | H : context [(?a <? ?b)%Z] |- _ => destruct (Z.ltb_spec a b)
  | H : context [(?a <=? ?b)%Z] |- _ => destruct (Z.leb_spec a b)
  | H : context [(?a =? ?b)%Z] |- _ => destruct (Z.eqb_spec a b)
  | H : context [(?a <? ?b)%nat] |- _ => destruct (Nat.ltb_spec a b)
  | H : context [(?a <=? ?b)%nat] |- _ => destruct (Nat.leb_spec a b)
  | H : context [(?a =? ?b)%nat] |- _ => destruct (Nat.eqb_spec a b)
  end.

(** ** Sorted lists *)
Lemma StronglySorted_weaken {A} (P Q : A -> A -> Prop) (l : list A) :
  (forall a b, P a b -> Q a b) -> StronglySorted P l -> StronglySorted Q l.
Proof.
  intros HPQ. induction 1 as [|a l _ IH Ha]; constructor; [done|]. eapply Forall_impl; [exact Ha|]. intros b. apply HPQ.
Qed.
