(* ===== verification/Changeset.v ===== *)
(** * Nested storage transactions: [overlayed_changes/changeset.rs]

    [OverlayedMap] keeps, for every key, the stack of versions written by the
    open transactions, and, for every open transaction, the set of keys it
    wrote.  The module [Spec] gives the intended meaning, a stack of ordinary
    finite maps, and the refinement theorems below say that every operation of
    the overlay implements the corresponding stack operation and that none of
    its [expect]s can fail.

    The two Rust vectors that are used as stacks, [transactions] and
    [dirty_keys], are lists with the last element of the vector first. *)
From stdpp Require Import base gmap list.
From Stdlib Require Import ZArith Lia.
From S2P Require Import Prelude.
Set Warnings "-clear-no-such-hyp".

(** ** [Extrinsics(Vec<u32>)] of [overlayed_changes/mod.rs] *)
Module Extrinsics.
Definition t := list Z.
Definition empty : t := [].

Definition insert (ext : Z) (e : t) : t :=
  if decide (last e = Some ext) then e else e ++ [ext].

Definition extend (e other : t) : t := e ++ other.

Definition copy_extrinsics_into (e : t) (dest : gset Z) : gset Z :=
  list_to_set e ∪ dest.
End Extrinsics.

Inductive TxError :=
| NoOpenTransaction
| AlreadyInRuntime
| NotInRuntime.

Inductive ExecutionMode := Client | Runtime.

#[export] Instance ExecutionMode_eq_dec : EqDecision ExecutionMode.
Proof. solve_decision. Defined.

Record InnerValue (V : Type) := mkInnerValue {
  iv_value : V;
  iv_extrinsics : Extrinsics.t;
}.
Arguments mkInnerValue {V} _ _.
Arguments iv_value {V} _.
Arguments iv_extrinsics {V} _.

(** ** [OverlayedEntry]: all versions of one value *)
Module OverlayedEntry.
Section entry.
Context {V : Type}.

Definition t := list (InnerValue V).

Definition value_ref (e : t) : res TxError V :=
  match e with [] => Panic | tx :: _ => Ok (iv_value tx) end.

Definition extrinsics (e : t) : gset Z :=
  fold_right (fun tx set => Extrinsics.copy_extrinsics_into (iv_extrinsics tx) set) ∅ e.

(** Assignment through [value_mut()]. *)
Definition value_mut (v : V) (e : t) : res TxError t :=
  match e with
  | [] => Panic
  | tx :: rest => Ok (mkInnerValue v (iv_extrinsics tx) :: rest)
  end.

Definition pop_transaction (e : t) : res TxError (InnerValue V * t) :=
  match e with [] => Panic | tx :: rest => Ok (tx, rest) end.

(** Update through [transaction_extrinsics_mut()]. *)
Definition transaction_extrinsics_mut (f : Extrinsics.t -> Extrinsics.t) (e : t)
    : res TxError t :=
  match e with
  | [] => Panic
  | tx :: rest => Ok (mkInnerValue (iv_value tx) (f (iv_extrinsics tx)) :: rest)
  end.

Definition set (e : t) (value : V) (first_write_in_tx : bool) (at_extrinsic : option Z)
    : res TxError t :=
  e1 ← (if first_write_in_tx || bool_decide (e = [])
        then Ok (mkInnerValue value Extrinsics.empty :: e)
        else value_mut value e);
  match at_extrinsic with
  | Some extrinsic => transaction_extrinsics_mut (Extrinsics.insert extrinsic) e1
  | None => Ok e1
  end.
End entry.
Arguments t V : clear implicits.
End OverlayedEntry.

(** ** [OverlayedMap]: the versions of all keys *)
Record OverlayedMap (K V : Type) `{Countable K} := mkOverlayedMap {
  changes : gmap K (OverlayedEntry.t V);
  dirty_keys : list (gset K);
  num_client_transactions : nat;
  execution_mode : ExecutionMode;
}.
Arguments mkOverlayedMap {K V _ _} _ _ _ _.
Arguments changes {K V _ _} _.
Arguments dirty_keys {K V _ _} _.
Arguments num_client_transactions {K V _ _} _.
Arguments execution_mode {K V _ _} _.

Module OverlayedMap.
Section overlay.
Context {K V : Type} `{Countable K}.
Implicit Types (m : OverlayedMap K V) (k : K) (v : V).

(** [Default::default()] *)
Definition new : OverlayedMap K V := mkOverlayedMap ∅ [] 0 Client.

Definition with_changes m (c : gmap K (OverlayedEntry.t V)) : OverlayedMap K V :=
  mkOverlayedMap c (dirty_keys m) (num_client_transactions m) (execution_mode m).
Definition with_dirty m (d : list (gset K)) : OverlayedMap K V :=
  mkOverlayedMap (changes m) d (num_client_transactions m) (execution_mode m).

(** The updated stack of dirty sets, and whether this is the first write to
    the key in the open transaction. *)
Definition insert_dirty (set : list (gset K)) k : list (gset K) * bool :=
  match set with
  | [] => ([], false)
  | dk :: rest => (({[k]} ∪ dk) :: rest, bool_decide (k ∉ dk))
  end.

Definition transaction_depth m : nat := length (dirty_keys m).

Definition spawn_child m : OverlayedMap K V :=
  mkOverlayedMap ∅ (replicate (transaction_depth m) ∅)
    (num_client_transactions m) (execution_mode m).

Definition is_empty m : bool := bool_decide (changes m = ∅).

Definition get m k : option (OverlayedEntry.t V) := changes m !! k.

Definition set m k v (at_extrinsic : option Z) : res TxError (OverlayedMap K V) :=
  let overlayed := default [] (changes m !! k) in
  let '(dirty, first_write) := insert_dirty (dirty_keys m) k in
  overlayed' ← OverlayedEntry.set overlayed v first_write at_extrinsic;
  Ok (with_changes (with_dirty m dirty) (<[k := overlayed']> (changes m))).

(** The committed changes, by key; the [assert!] panics while a transaction
    is open. *)
Definition drain_committed m : res TxError (gmap K V) :=
  if bool_decide (transaction_depth m = 0)
  then for_each (fun acc '(k, e) => '(tx, _) ← OverlayedEntry.pop_transaction e;
                                    Ok (<[k := iv_value tx]> acc))
         (map_to_list (changes m)) ∅
  else Panic.

Definition has_open_runtime_transactions m : bool :=
  (num_client_transactions m <? transaction_depth m)%nat.

Definition enter_runtime m : res TxError (OverlayedMap K V) :=
  match execution_mode m with
  | Runtime => Err AlreadyInRuntime
  | Client => Ok (mkOverlayedMap (changes m) (dirty_keys m) (transaction_depth m) Runtime)
  end.

Definition start_transaction m : OverlayedMap K V := with_dirty m (∅ :: dirty_keys m).

(** The body of the loop of [close_transaction] over the keys of the popped
    dirty set. *)
Definition close_key (rollback : bool) m k : res TxError (OverlayedMap K V) :=
  match changes m !! k with
  | None => Panic
  | Some overlayed =>
      if rollback then
        '(_, rest) ← OverlayedEntry.pop_transaction overlayed;
        Ok (with_changes m
              (if bool_decide (rest = []) then delete k (changes m)
               else <[k := rest]> (changes m)))
      else
        let '(dirty, has_predecessor) :=
          match dirty_keys m with
          | dk :: rest => (({[k]} ∪ dk) :: rest, bool_decide (k ∈ dk))
          | [] => ([], (1 <? length overlayed)%nat)
          end in
        let m' := with_dirty m dirty in
        if has_predecessor : bool then
          '(dropped_tx, rest) ← OverlayedEntry.pop_transaction overlayed;
          rest1 ← OverlayedEntry.value_mut (iv_value dropped_tx) rest;
          rest2 ← OverlayedEntry.transaction_extrinsics_mut
                    (fun e => Extrinsics.extend e (iv_extrinsics dropped_tx)) rest1;
          Ok (with_changes m' (<[k := rest2]> (changes m)))
        else Ok m'
  end.

(** [keys] is an enumeration of the popped dirty set: the iteration order of
    the [HashSet] is unspecified. *)
Definition close_with (rollback : bool) m (rest : list (gset K)) (keys : list K)
    : res TxError (OverlayedMap K V) :=
  for_each (close_key rollback) keys (with_dirty m rest).

Definition close_transaction (rollback : bool) m : res TxError (OverlayedMap K V) :=
  if bool_decide (execution_mode m = Runtime) && negb (has_open_runtime_transactions m)
  then Err NoOpenTransaction
  else match dirty_keys m with
       | [] => Err NoOpenTransaction
       | dk :: rest => close_with rollback m rest (elements dk)
       end.

Definition rollback_transaction m := close_transaction true m.
Definition commit_transaction m := close_transaction false m.

(** [while self.has_open_runtime_transactions() { rollback().expect(..) }] *)
Fixpoint rollback_open (fuel : nat) m : res TxError (OverlayedMap K V) :=
  if has_open_runtime_transactions m then
    match fuel with
    | 0 => Panic
    | S fuel' =>
        match rollback_transaction m with
        | Ok m' => rollback_open fuel' m'
        | _ => Panic
        end
    end
  else Ok m.

Definition exit_runtime m : res TxError (OverlayedMap K V) :=
  match execution_mode m with
  | Client => Err NotInRuntime
  | Runtime =>
      rollback_open (transaction_depth m)
        (mkOverlayedMap (changes m) (dirty_keys m) (num_client_transactions m) Client)
  end.
End overlay.

(** The operations of [OverlayedChangeSet], whose values are optional. *)
Section changeset.
Context {K V : Type} `{Countable K}.
Implicit Types (m : OverlayedMap K (option V)) (k : K).

(** [modify] registers the write and returns a mutable reference to the
    current version; [f] is what the caller does with the reference. *)
Definition modify m k (init : V) (at_extrinsic : option Z) (f : option V -> option V)
    : res TxError (OverlayedMap K (option V)) :=
  let overlayed := default [] (changes m !! k) in
  let '(dirty, first_write) := insert_dirty (dirty_keys m) k in
  let clone_into_new_tx :=
    match overlayed with
    | tx :: _ => if first_write : bool then Some (iv_value tx) else None
    | [] => Some (Some init)
    end in
  overlayed1 ← match clone_into_new_tx with
               | Some cloned => OverlayedEntry.set overlayed cloned first_write at_extrinsic
               | None => Ok overlayed
               end;
  cur ← OverlayedEntry.value_ref overlayed1;
  overlayed2 ← OverlayedEntry.value_mut (f cur) overlayed1;
  Ok (with_changes (with_dirty m dirty) (<[k := overlayed2]> (changes m))).

(** The body of the loop of [clear_where]. *)
Definition clear_key (at_extrinsic : option Z) (acc : OverlayedMap K (option V) * Z)
    (kv : K * OverlayedEntry.t (option V)) : res TxError (OverlayedMap K (option V) * Z) :=
  let '(m, count) := acc in
  let '(k, val) := kv in
  cur ← OverlayedEntry.value_ref val;
  let '(dirty, first_write) := insert_dirty (dirty_keys m) k in
  val' ← OverlayedEntry.set val None first_write at_extrinsic;
  Ok (with_changes (with_dirty m dirty) (<[k := val']> (changes m)),
      if bool_decide (is_Some cur) then (count + 1)%Z else count).

Definition clear_where m (predicate : K -> OverlayedEntry.t (option V) -> bool)
    (at_extrinsic : option Z) : res TxError (OverlayedMap K (option V) * Z) :=
  for_each (clear_key at_extrinsic)
    (map_to_list (filter (fun kv => predicate kv.1 kv.2 = true) (changes m))) (m, 0%Z).
End changeset.
End OverlayedMap.

(** ** Specification: a stack of finite maps *)
Module Spec.
Section spec.
Context {K V : Type} `{Countable K}.

(** What one transaction wrote: the last value of every key, with the
    extrinsics that wrote it. *)
Abbreviation layer := (gmap K (InnerValue V)).

Record t := mk {
  open : list layer;        (** the open transactions, innermost first *)
  committed : layer;        (** what was written outside of any transaction *)
  client : nat;             (** how many of them the client opened *)
  mode : ExecutionMode;
}.
Implicit Types s : t.

Definition new : t := mk [] ∅ 0 Client.

Definition layers s : list layer := open s ++ [committed s].

Definition map_top (f : layer -> layer) s : t :=
  match open s with
  | [] => mk [] (f (committed s)) (client s) (mode s)
  | l :: ls => mk (f l :: ls) (committed s) (client s) (mode s)
  end.

(** The value a reader sees: the innermost layer that has one. *)
Fixpoint visible (ls : list layer) (k : K) : option V :=
  match ls with
  | [] => None
  | l :: ls' => match l !! k with Some iv => Some (iv_value iv) | None => visible ls' k end
  end.
Definition read s (k : K) : option V := visible (layers s) k.

Definition record (at_extrinsic : option Z) (e : Extrinsics.t) : Extrinsics.t :=
  match at_extrinsic with Some x => Extrinsics.insert x e | None => e end.

Definition write_layer (k : K) (v : V) (at_extrinsic : option Z) (l : layer) : layer :=
  <[k := mkInnerValue v (record at_extrinsic (default [] (iv_extrinsics <$> l !! k)))]> l.
Definition write s (k : K) (v : V) (at_extrinsic : option Z) : t :=
  map_top (write_layer k v at_extrinsic) s.

Definition start s : t := mk (∅ :: open s) (committed s) (client s) (mode s).

(** Merging an inner transaction into the one below: the inner value wins and
    the extrinsics accumulate. *)
Definition merge_version (inner outer : InnerValue V) : InnerValue V :=
  mkInnerValue (iv_value inner) (Extrinsics.extend (iv_extrinsics outer) (iv_extrinsics inner)).
Definition merge_layer (inner outer : layer) : layer :=
  union_with (fun i o => Some (merge_version i o)) inner outer.

Definition may_close s : bool :=
  bool_decide (0 < length (open s)) &&
  (bool_decide (mode s = Client) || (client s <? length (open s))%nat).

Definition rollback s : res TxError t :=
  if may_close s
  then Ok (mk (tail (open s)) (committed s) (client s) (mode s))
  else Err NoOpenTransaction.

Definition commit s : res TxError t :=
  if may_close s then
    match open s with
    | l :: ls => Ok (map_top (merge_layer l) (mk ls (committed s) (client s) (mode s)))
    | [] => Err NoOpenTransaction
    end
  else Err NoOpenTransaction.

Definition enter s : res TxError t :=
  match mode s with
  | Runtime => Err AlreadyInRuntime
  | Client => Ok (mk (open s) (committed s) (length (open s)) Runtime)
  end.

(** Leaving the runtime drops what it left open. *)
Definition exit s : res TxError t :=
  match mode s with
  | Client => Err NotInRuntime
  | Runtime => Ok (mk (drop (length (open s) - client s) (open s)) (committed s) (client s) Client)
  end.

Definition child s : t := mk (replicate (length (open s)) ∅) ∅ (client s) (mode s).
End spec.
Arguments t K V {_ _}.
End Spec.

(** ** Refinement *)
Section refinement.
Context {K V : Type} `{Countable K}.
Implicit Types (m : OverlayedMap K V) (s : Spec.t K V) (k : K) (v : V).
Implicit Types (ls : list (gmap K (InnerValue V))).

(** The versions of [k], innermost first. *)
Definition versions ls k : list (InnerValue V) := omap (fun l => l !! k) ls.
Arguments versions : simpl never.

Definition entry_of (l : list (InnerValue V)) : option (OverlayedEntry.t V) :=
  match l with [] => None | _ => Some l end.

(** The overlay [m] represents the stack [s]. *)
Record repr m s : Prop := mk_repr {
  repr_changes k : changes m !! k = entry_of (versions (Spec.layers s) k);
  repr_dirty : dirty_keys m = dom <$> Spec.open s;
  repr_client : num_client_transactions m = Spec.client s;
  repr_mode : execution_mode m = Spec.mode s;
}.

Lemma repr_depth m s : repr m s -> OverlayedMap.transaction_depth m = length (Spec.open s).
Proof. intros R. unfold OverlayedMap.transaction_depth. by rewrite (repr_dirty _ _ R), length_fmap. Qed.

(** A stack has exactly one representation. *)
Lemma repr_unique m1 m2 s : repr m1 s -> repr m2 s -> m1 = m2.
Proof.
  intros [C1 D1 N1 M1] [C2 D2 N2 M2]. destruct m1, m2; simpl in *. f_equal; try congruence.
  apply map_eq. intros k. by rewrite C1, C2.
Qed.

Lemma repr_new : repr OverlayedMap.new Spec.new.
Proof. split; try done. Qed.

Lemma versions_cons l ls k :
  versions (l :: ls) k = match l !! k with Some iv => iv :: versions ls k | None => versions ls k end.
Proof. unfold versions; simpl. by destruct (l !! k). Qed.

Lemma versions_nil k : versions [] k = [].
Proof. done. Qed.

(** The stack seen as its innermost layer and the rest. *)
Definition top_layer s : gmap K (InnerValue V) := default (Spec.committed s) (head (Spec.open s)).
Definition below s : list (gmap K (InnerValue V)) := tail (Spec.layers s).

Lemma layers_top s : Spec.layers s = top_layer s :: below s.
Proof. unfold Spec.layers, top_layer, below, Spec.layers. by destruct (Spec.open s). Qed.

Lemma layers_map_top f s : Spec.layers (Spec.map_top f s) = f (top_layer s) :: below s.
Proof. unfold Spec.layers, Spec.map_top, top_layer, below, Spec.layers. by destruct (Spec.open s). Qed.

Lemma map_top_fields f s :
  Spec.client (Spec.map_top f s) = Spec.client s /\ Spec.mode (Spec.map_top f s) = Spec.mode s /\
  length (Spec.open (Spec.map_top f s)) = length (Spec.open s).
Proof. unfold Spec.map_top. by destruct (Spec.open s). Qed.

Lemma repr_overlayed m s k :
  repr m s -> default [] (changes m !! k) = versions (Spec.layers s) k.
Proof. intros R. rewrite (repr_changes _ _ R). by destruct (versions _ _). Qed.

(** Overwriting the innermost version of [k] and marking [k] dirty. *)
Lemma repr_update m s k iv :
  repr m s ->
  repr (OverlayedMap.with_changes
          (OverlayedMap.with_dirty m (OverlayedMap.insert_dirty (dirty_keys m) k).1)
          (<[k := iv :: versions (below s) k]> (changes m)))
       (Spec.map_top (insert k iv) s).
Proof.
  intros [C D N M]. destruct (map_top_fields (insert k iv) s) as (Hc & Hm & _).
  split; simpl; [| |congruence..].
  - intros j. rewrite layers_map_top, versions_cons. destruct (decide (k = j)) as [<-|Hne].
    + by rewrite !lookup_insert_eq.
    + rewrite !lookup_insert_ne by done. by rewrite C, layers_top, versions_cons.
  - rewrite D. unfold Spec.map_top. destruct (Spec.open s) as [|l ls]; simpl; [done|].
    by rewrite dom_insert_L.
Qed.

(** Whether [insert_dirty] reports a first write. *)
Lemma insert_dirty_first m s k :
  repr m s ->
  (OverlayedMap.insert_dirty (dirty_keys m) k).2 = true -> top_layer s !! k = None.
Proof.
  intros R. rewrite (repr_dirty _ _ R). unfold top_layer.
  destruct (Spec.open s) as [|l ls]; simpl; [done|].
  intros Hd%bool_decide_eq_true_1. by apply not_elem_of_dom.
Qed.

Lemma insert_dirty_again m s k :
  repr m s -> (OverlayedMap.insert_dirty (dirty_keys m) k).2 = false ->
  versions (Spec.layers s) k = [] \/
  exists iv, top_layer s !! k = Some iv /\ versions (Spec.layers s) k = iv :: versions (below s) k.
Proof.
  intros R. rewrite (repr_dirty _ _ R). unfold top_layer, below, Spec.layers.
  destruct (Spec.open s) as [|l ls]; simpl.
  - intros _. rewrite versions_cons. destruct (Spec.committed s !! k); eauto.
  - intros Hd%bool_decide_eq_false_1. rewrite not_elem_of_dom in Hd.
    rewrite versions_cons. destruct (l !! k); [eauto|done].
Qed.

(** [OverlayedEntry.set] writes the innermost version. *)
Lemma entry_set_spec m s k v at_extrinsic :
  repr m s ->
  OverlayedEntry.set (versions (Spec.layers s) k) v
    (OverlayedMap.insert_dirty (dirty_keys m) k).2 at_extrinsic
  = Ok (mkInnerValue v (Spec.record at_extrinsic
          (default [] (iv_extrinsics <$> top_layer s !! k))) :: versions (below s) k).
Proof.
  intros R. unfold OverlayedEntry.set.
  destruct (OverlayedMap.insert_dirty (dirty_keys m) k).2 eqn:Hfw; simpl.
  - apply (insert_dirty_first _ _ _ R) in Hfw as Htop.
    rewrite layers_top, versions_cons, Htop. by destruct at_extrinsic.
  - destruct (insert_dirty_again _ _ _ R Hfw) as [Hnil|(iv & Htop & Hv)].
    + rewrite layers_top, versions_cons in Hnil.
      destruct (top_layer s !! k) eqn:Htop; [done|].
      rewrite layers_top, versions_cons, Htop, Hnil. by destruct at_extrinsic.
    + rewrite Hv, Htop. by destruct at_extrinsic.
Qed.

Lemma set_refines m s k v at_extrinsic :
  repr m s ->
  exists m', OverlayedMap.set m k v at_extrinsic = Ok m' /\ repr m' (Spec.write s k v at_extrinsic).
Proof.
  intros R. unfold OverlayedMap.set. rewrite (repr_overlayed _ _ _ R).
  pose proof (entry_set_spec _ _ k v at_extrinsic R) as Hset.
  pose proof (repr_update m s k (mkInnerValue v (Spec.record at_extrinsic
          (default [] (iv_extrinsics <$> top_layer s !! k)))) R) as Hup.
  destruct (OverlayedMap.insert_dirty (dirty_keys m) k) as [d fw]; simpl in *.
  rewrite Hset. simpl. eexists; split; [done|].
  replace (Spec.write s k v at_extrinsic) with (Spec.map_top (insert k
    (mkInnerValue v (Spec.record at_extrinsic
          (default [] (iv_extrinsics <$> top_layer s !! k))))) s); [done|].
  unfold Spec.write, Spec.write_layer, Spec.map_top, top_layer. by destruct (Spec.open s).
Qed.

Lemma start_refines m s : repr m s -> repr (OverlayedMap.start_transaction m) (Spec.start s).
Proof.
  intros [C D N M]. split; simpl; [|by rewrite D, dom_empty_L|done..].
  intros k. rewrite C. unfold Spec.layers; simpl.
  by rewrite versions_cons, lookup_empty.
Qed.

Lemma spawn_child_refines m s : repr m s -> repr (OverlayedMap.spawn_child m) (Spec.child s).
Proof.
  intros R. pose proof (repr_depth _ _ R) as Hd. destruct R as [C D N M].
  split; simpl; [| |done..].
  - intros k. rewrite lookup_empty. unfold Spec.layers; simpl. clear Hd.
    induction (length (Spec.open s)) as [|n IH]; [done|].
    simpl. by rewrite versions_cons, lookup_empty.
  - rewrite Hd, fmap_replicate, dom_empty_L. done.
Qed.

Lemma enter_refines m s :
  repr m s ->
  match OverlayedMap.enter_runtime m, Spec.enter s with
  | Ok m', Ok s' => repr m' s' | Err e, Err e' => e = e' | _, _ => False
  end.
Proof.
  intros R. pose proof (repr_depth _ _ R) as Hd. destruct R as [C D N M].
  unfold OverlayedMap.enter_runtime, Spec.enter. rewrite M.
  destruct (Spec.mode s); [|done]. by split.
Qed.

(** *** Closing a transaction *)

(** What remains of [s] once its innermost transaction is taken off, and
    the stack that closing leaves behind. *)
Definition popped s : Spec.t K V :=
  Spec.mk (tail (Spec.open s)) (Spec.committed s) (Spec.client s) (Spec.mode s).
Definition closed (rollback : bool) s : Spec.t K V :=
  if rollback then popped s else Spec.map_top (Spec.merge_layer (top_layer s)) (popped s).

Lemma below_open s l ls : Spec.open s = l :: ls -> below s = Spec.layers (popped s).
Proof. intros Ho. unfold below, popped, Spec.layers. by rewrite Ho. Qed.

Lemma top_open s l ls : Spec.open s = l :: ls -> top_layer s = l.
Proof. intros Ho. unfold top_layer. by rewrite Ho. Qed.

Lemma lookup_merge_layer (inner outer : gmap K (InnerValue V)) k :
  Spec.merge_layer inner outer !! k =
  match inner !! k, outer !! k with
  | Some i, Some o => Some (Spec.merge_version i o)
  | Some i, None => Some i
  | None, o => o
  end.
Proof.
  unfold Spec.merge_layer. rewrite lookup_union_with.
  by destruct (inner !! k), (outer !! k).
Qed.

(** The versions left for a key the closed transaction wrote ... *)
Lemma versions_closed_written rollback s k iv :
  top_layer s !! k = Some iv ->
  versions (Spec.layers (closed rollback s)) k =
  if rollback then versions (Spec.layers (popped s)) k
  else match top_layer (popped s) !! k with
       | Some o => Spec.merge_version iv o :: versions (below (popped s)) k
       | None => iv :: versions (below (popped s)) k
       end.
Proof.
  intros Hk. destruct rollback; simpl; [done|].
  rewrite layers_map_top, versions_cons, lookup_merge_layer, Hk.
  by destruct (top_layer (popped s) !! k).
Qed.

(** ... and for one it did not write. *)
Lemma versions_closed_other rollback s k l ls :
  Spec.open s = l :: ls -> l !! k = None ->
  versions (Spec.layers (closed rollback s)) k = versions (Spec.layers s) k.
Proof.
  intros Ho Hk.
  assert (versions (Spec.layers s) k = versions (Spec.layers (popped s)) k) as ->.
  { by rewrite layers_top, versions_cons, (top_open _ _ _ Ho), Hk, (below_open _ _ _ Ho). }
  destruct rollback; simpl; [done|].
  by rewrite layers_map_top, layers_top, !versions_cons, lookup_merge_layer,
    (top_open _ _ _ Ho), Hk.
Qed.

(** The dirty sets while the keys [done] of a transaction are closed. *)
Definition marked (rollback : bool) (dn : list K) (ds : list (gset K)) : list (gset K) :=
  if rollback then ds
  else match ds with [] => [] | d :: ds' => (list_to_set dn ∪ d) :: ds' end.

Record closing (rollback : bool) s (dn : list K) m : Prop := mk_closing {
  closing_changes k : changes m !! k =
    entry_of (versions (Spec.layers (if decide (k ∈ dn) then closed rollback s else s)) k);
  closing_dirty : dirty_keys m = marked rollback dn (dom <$> tail (Spec.open s));
  closing_client : num_client_transactions m = Spec.client s;
  closing_mode : execution_mode m = Spec.mode s;
}.

(** Replacing the entry of one more key advances the invariant. *)
Lemma closing_step rollback s dn m k m' :
  closing rollback s dn m ->
  changes m' = partial_alter (fun _ => entry_of (versions (Spec.layers (closed rollback s)) k))
                 k (changes m) ->
  dirty_keys m' = marked rollback [k] (dirty_keys m) ->
  num_client_transactions m' = num_client_transactions m ->
  execution_mode m' = execution_mode m ->
  closing rollback s (dn ++ [k]) m'.
Proof.
  intros [C D N M] HC HD HN HM. split; [| |congruence..].
  - intros j. rewrite HC. destruct (decide (j = k)) as [->|Hne].
    + rewrite lookup_partial_alter_eq.
      by rewrite decide_True by (apply elem_of_app; right; constructor).
    + rewrite lookup_partial_alter_ne by done. rewrite C.
      repeat case_decide; try done; set_solver.
  - rewrite HD, D. unfold marked. destruct rollback, (dom <$> tail (Spec.open s)); [done..|].
    f_equal. rewrite list_to_set_app_L. clear. set_solver.
Qed.

Lemma entry_of_cons (iv : InnerValue V) l : entry_of (iv :: l) = Some (iv :: l).
Proof. done. Qed.

Lemma close_key_rollback s dn m k iv l ls :
  Spec.open s = l :: ls -> l !! k = Some iv -> k ∉ dn -> closing true s dn m ->
  exists m', OverlayedMap.close_key true m k = Ok m' /\ closing true s (dn ++ [k]) m'.
Proof.
  intros Ho Hk Hdn Hcl. unfold OverlayedMap.close_key.
  rewrite (closing_changes _ _ _ _ Hcl), decide_False by done.
  rewrite layers_top, versions_cons, (top_open _ _ _ Ho), Hk, (below_open _ _ _ Ho).
  simpl. eexists; split; [done|].
  eapply closing_step; [done| |by destruct m..].
  simpl. destruct (versions (Spec.layers (popped s)) k) as [|o r]; by simpl.
Qed.

Lemma close_key_commit s dn m k iv l ls :
  Spec.open s = l :: ls -> l !! k = Some iv -> k ∉ dn -> closing false s dn m ->
  exists m', OverlayedMap.close_key false m k = Ok m' /\ closing false s (dn ++ [k]) m'.
Proof.
  intros Ho Hk Hdn Hcl. unfold OverlayedMap.close_key.
  assert (Hiv : top_layer s !! k = Some iv) by by rewrite (top_open _ _ _ Ho).
  pose proof (closing_changes _ _ _ _ Hcl k) as Hc.
  rewrite decide_False in Hc by done.
  rewrite layers_top, versions_cons, Hiv, (below_open _ _ _ Ho), entry_of_cons in Hc.
  rewrite Hc, (closing_dirty _ _ _ _ Hcl), Ho; simpl.
  pose proof (closing_step false s dn m k) as Hstep.
  rewrite (versions_closed_written false s k iv Hiv), (closing_dirty _ _ _ _ Hcl), Ho in Hstep.
  simpl in Hstep.
  rewrite layers_top, versions_cons in *.
  unfold top_layer, below, Spec.layers, popped in *; rewrite Ho in *; simpl in *.
  destruct ls as [|l' ls']; simpl in *.
  - destruct (Spec.committed s !! k) as [o|] eqn:Hcom; simpl.
    + eexists; split; [done|]. by apply Hstep.
    + eexists; split; [done|]. apply Hstep; [done| |by simpl..].
      symmetry. exact (insert_id (changes m) k _ Hc).
  - destruct (l' !! k) as [o|] eqn:Hl'; simpl.
    + rewrite bool_decide_true by (apply elem_of_union_r, elem_of_dom; eauto). simpl.
      eexists; split; [done|]. apply Hstep; [done..| |done|done].
      simpl. f_equal. set_solver.
    + rewrite bool_decide_eq_false_2.
      2:{ intros [Hin%elem_of_list_to_set|[? Hin]%elem_of_dom]%elem_of_union; congruence. }
      eexists; split; [done|]. apply Hstep; [done| | |done|done].
      * symmetry. exact (insert_id (changes m) k _ Hc).
      * simpl. f_equal. set_solver.
Qed.

Lemma closing_start rollback m s l ls :
  repr m s -> Spec.open s = l :: ls ->
  closing rollback s [] (OverlayedMap.with_dirty m (dom <$> ls)).
Proof.
  intros [C D N M] Ho. split; simpl; [| |done..].
  - intros k. by rewrite C.
  - rewrite Ho. unfold marked; simpl. destruct rollback; [done|].
    destruct ls; simpl; [done|]. by rewrite union_empty_l_L.
Qed.

Lemma closing_end rollback s l ls keys m :
  Spec.open s = l :: ls -> (forall k, k ∈ keys <-> k ∈ dom l) ->
  closing rollback s keys m -> repr m (closed rollback s).
Proof.
  intros Ho Hkeys [C D N M].
  destruct (map_top_fields (Spec.merge_layer (top_layer s)) (popped s)) as (Hc & Hm & _).
  split; [| |rewrite N; by destruct rollback|rewrite M; by destruct rollback].
  - intros k. rewrite C. case_decide as Hk; [done|].
    rewrite Hkeys, not_elem_of_dom in Hk. by rewrite (versions_closed_other _ _ _ _ _ Ho Hk).
  - rewrite D, Ho; simpl. destruct rollback; simpl; [by rewrite Ho|].
    unfold Spec.map_top, popped; simpl. rewrite Ho, (top_open _ _ _ Ho); simpl.
    destruct ls as [|l' ls']; simpl; [done|]. f_equal.
    apply set_eq. intros k.
    rewrite elem_of_union, elem_of_list_to_set, Hkeys, !elem_of_dom, lookup_merge_layer.
    destruct (l !! k), (l' !! k); naive_solver.
Qed.

(** Whatever the order in which the dirty keys are enumerated, closing a
    transaction does not panic and leaves the closed stack. *)
Lemma close_with_refines rollback m s l ls keys :
  repr m s -> Spec.open s = l :: ls -> NoDup keys -> (forall k, k ∈ keys <-> k ∈ dom l) ->
  exists m', OverlayedMap.close_with rollback m (dom <$> ls) keys = Ok m' /\
             repr m' (closed rollback s).
Proof.
  intros R Ho Hnd Hkeys. unfold OverlayedMap.close_with.
  edestruct (for_each_inv (OverlayedMap.close_key rollback) (closing rollback s) keys)
    as (m' & Hm' & Hcl); [by eapply closing_start| |].
  - intros dn k todo m1 -> Hcl.
    assert (k ∉ dn) as Hdn.
    { apply NoDup_app in Hnd as (_ & Hnd & _). intros Hk. apply (Hnd k Hk). constructor. }
    assert (is_Some (l !! k)) as [iv Hiv].
    { apply elem_of_dom, Hkeys. apply elem_of_app. right. constructor. }
    destruct rollback; [by eapply close_key_rollback|by eapply close_key_commit].
  - eexists; split; [done|]. by eapply closing_end.
Qed.

(** The outcomes of an operation and of its specification agree. *)
Definition agrees (r : res TxError (OverlayedMap K V)) (r' : res TxError (Spec.t K V)) : Prop :=
  match r, r' with
  | Ok m, Ok s => repr m s
  | Err e, Err e' => e = e'
  | _, _ => False
  end.

Definition spec_close (rollback : bool) s : res TxError (Spec.t K V) :=
  if rollback then Spec.rollback s else Spec.commit s.

Lemma spec_close_closed rollback s :
  spec_close rollback s =
  if Spec.may_close s then Ok (closed rollback s) else Err NoOpenTransaction.
Proof.
  unfold spec_close, Spec.rollback, Spec.commit, closed, popped, Spec.may_close.
  destruct rollback; [done|]. unfold top_layer.
  destruct (Spec.open s) as [|l ls]; simpl; [done|]. by destruct (_ || _).
Qed.

Lemma close_refines rollback m s :
  repr m s -> agrees (OverlayedMap.close_transaction rollback m) (spec_close rollback s).
Proof.
  intros R. rewrite spec_close_closed. unfold OverlayedMap.close_transaction.
  assert (OverlayedMap.has_open_runtime_transactions m =
          (Spec.client s <? length (Spec.open s))%nat) as ->.
  { unfold OverlayedMap.has_open_runtime_transactions.
    by rewrite (repr_depth _ _ R), (repr_client _ _ R). }
  rewrite (repr_mode _ _ R), (repr_dirty _ _ R). unfold Spec.may_close.
  destruct (Spec.open s) as [|l ls] eqn:Ho.
  { simpl. by destruct (bool_decide _ && _). }
  rewrite fmap_cons.
  destruct (close_with_refines rollback m s l ls (elements (dom l)) R Ho
              (NoDup_elements _) (fun k => elem_of_elements _ _)) as (m' & Hm' & R').
  rewrite Hm'. simpl. by destruct (Spec.mode s), (Spec.client s <? S (length ls))%nat.
Qed.

Lemma rollback_open_refines fuel m s :
  repr m s -> Spec.mode s = Client -> (length (Spec.open s) - Spec.client s <= fuel)%nat ->
  exists m', OverlayedMap.rollback_open fuel m = Ok m' /\
    repr m' (Spec.mk (drop (length (Spec.open s) - Spec.client s) (Spec.open s))
               (Spec.committed s) (Spec.client s) Client).
Proof.
  revert m s. induction fuel as [|fuel IH]; intros m s R Hmode Hfuel; simpl;
    unfold OverlayedMap.has_open_runtime_transactions;
    rewrite (repr_depth _ _ R), (repr_client _ _ R); case_cmp; try lia.
  1,3: eexists; split; [done|];
    replace (length (Spec.open s) - Spec.client s)%nat with 0%nat by lia;
    rewrite drop_0, <- Hmode; by destruct s.
  unfold OverlayedMap.rollback_transaction.
  pose proof (close_refines true m s R) as Hcl. rewrite spec_close_closed in Hcl.
  assert (Spec.may_close s = true) as Hmay.
  { unfold Spec.may_close. rewrite Hmode. by rewrite !bool_decide_true by lia. }
  rewrite Hmay in Hcl. destruct (OverlayedMap.close_transaction true m) as [m1| |]; [|done..].
  simpl in Hcl. unfold popped in Hcl.
  destruct (Spec.open s) as [|l ls] eqn:Ho; simpl in *; [lia|].
  destruct (IH m1 _ Hcl Hmode) as (m' & Hm' & R'); simpl in *; [lia|].
  rewrite Hm'. eexists; split; [done|].
  by replace (S (length ls) - Spec.client s)%nat with (S (length ls - Spec.client s))%nat by lia.
Qed.

Lemma exit_refines m s : repr m s -> agrees (OverlayedMap.exit_runtime m) (Spec.exit s).
Proof.
  intros R. unfold OverlayedMap.exit_runtime, Spec.exit. rewrite (repr_mode _ _ R).
  destruct (Spec.mode s) eqn:Hmode; [done|].
  edestruct (rollback_open_refines (OverlayedMap.transaction_depth m)
    (mkOverlayedMap (changes m) (dirty_keys m) (num_client_transactions m) Client)
    (Spec.mk (Spec.open s) (Spec.committed s) (Spec.client s) Client)) as (m' & Hm' & R').
  - destruct R. by split.
  - done.
  - simpl. rewrite (repr_depth _ _ R). lia.
  - by rewrite Hm'.
Qed.
End refinement.
Arguments versions : simpl never.

(** ** Histories of operations *)
Section histories.
Context {K V : Type} `{Countable K}.
Implicit Types (m : OverlayedMap K V) (s : Spec.t K V) (k : K) (v : V).

Inductive op :=
| OpSet (k : K) (v : V) (at_extrinsic : option Z)
| OpStart
| OpCommit
| OpRollback
| OpEnter
| OpExit.

Definition impl_step m (o : op) : res TxError (OverlayedMap K V) :=
  match o with
  | OpSet k v x => OverlayedMap.set m k v x
  | OpStart => Ok (OverlayedMap.start_transaction m)
  | OpCommit => OverlayedMap.commit_transaction m
  | OpRollback => OverlayedMap.rollback_transaction m
  | OpEnter => OverlayedMap.enter_runtime m
  | OpExit => OverlayedMap.exit_runtime m
  end.

Definition spec_step s (o : op) : res TxError (Spec.t K V) :=
  match o with
  | OpSet k v x => Ok (Spec.write s k v x)
  | OpStart => Ok (Spec.start s)
  | OpCommit => Spec.commit s
  | OpRollback => Spec.rollback s
  | OpEnter => Spec.enter s
  | OpExit => Spec.exit s
  end.

(** Runs a history; an operation that returns an error leaves the state as
    it is, and the log records every error. *)
Fixpoint run {St} (step : St -> op -> res TxError St) (st : St) (ops : list op)
    : res TxError (St * list (option TxError)) :=
  match ops with
  | [] => Ok (st, [])
  | o :: ops' =>
      match step st o with
      | Ok st' => '(st'', log) ← run step st' ops'; Ok (st'', None :: log)
      | Err e => '(st'', log) ← run step st ops'; Ok (st'', Some e :: log)
      | Panic => Panic
      end
  end.

Lemma step_refines m s o : repr m s -> agrees (impl_step m o) (spec_step s o).
Proof.
  intros R. destruct o; simpl.
  - by destruct (set_refines m s k v at_extrinsic R) as (m' & -> & R').
  - by apply start_refines.
  - exact (close_refines false m s R).
  - exact (close_refines true m s R).
  - by apply enter_refines.
  - by apply exit_refines.
Qed.

Lemma run_refines m s ops :
  repr m s ->
  exists m' s' log, run impl_step m ops = Ok (m', log) /\
                    run spec_step s ops = Ok (s', log) /\ repr m' s'.
Proof.
  revert m s. induction ops as [|o ops IH]; intros m s R; simpl; [by exists m, s, []|].
  pose proof (step_refines m s o R) as Hag.
  destruct (impl_step m o) as [m1|e|], (spec_step s o) as [s1|e'|]; try done; simpl in Hag.
  - destruct (IH m1 s1 Hag) as (m' & s' & log & -> & -> & R'). simpl. by do 3 eexists.
  - destruct (IH m s R) as (m' & s' & log & -> & -> & R'). simpl. subst. by do 3 eexists.
Qed.

(** While the runtime executes, what the client opened is still open. *)
Definition client_protected s : Prop :=
  Spec.mode s = Runtime -> (Spec.client s <= length (Spec.open s))%nat.

(** The overlays that occur. *)
Definition wf m : Prop := exists s, repr m s /\ client_protected s.

Lemma closed_fields rollback s :
  Spec.client (closed rollback s) = Spec.client s /\ Spec.mode (closed rollback s) = Spec.mode s /\
  length (Spec.open (closed rollback s)) = pred (length (Spec.open s)).
Proof.
  destruct (map_top_fields (Spec.merge_layer (top_layer s)) (popped s)) as (Hc & Hm & Hl).
  destruct rollback; simpl; [by destruct (Spec.open s)|].
  rewrite Hc, Hm, Hl. simpl. by destruct (Spec.open s).
Qed.

Lemma spec_step_protected s o s' :
  client_protected s -> spec_step s o = Ok s' -> client_protected s'.
Proof.
  assert (forall rb, client_protected s -> spec_close rb s = Ok s' -> client_protected s') as Hclose.
  { intros rb Hp. rewrite spec_close_closed. unfold Spec.may_close.
    destruct (_ && _) eqn:Hmay; [intros [= <-]|done].
    destruct (closed_fields rb s) as (Hc & Hm & Hl). unfold client_protected.
    rewrite Hc, Hm, Hl. intros Hrt. rewrite Hrt in Hmay.
    apply andb_prop in Hmay as [_ Hmay]. simpl in Hmay. apply Nat.ltb_lt in Hmay. lia. }
  destruct o; simpl; intros Hp.
  - intros [= <-]. unfold client_protected, Spec.write.
    destruct (map_top_fields (Spec.write_layer k v at_extrinsic) s) as (-> & -> & ->). done.
  - intros [= <-]. unfold client_protected in *; simpl. intros Hm. specialize (Hp Hm). lia.
  - by apply (Hclose false).
  - by apply (Hclose true).
  - unfold Spec.enter. destruct (Spec.mode s); [|done]. intros [= <-]. unfold client_protected; simpl. lia.
  - unfold Spec.exit. destruct (Spec.mode s) eqn:Hm; [done|]. by intros [= <-].
Qed.

(** The value [get(k)] gives to a reader. *)
Definition value_of m k : option V :=
  match OverlayedMap.get m k with
  | Some e => match OverlayedEntry.value_ref e with Ok v => Some v | _ => None end
  | None => None
  end.

Lemma visible_versions (ls : list (gmap K (InnerValue V))) k : Spec.visible ls k = iv_value <$> head (versions ls k).
Proof.
  induction ls as [|l ls IH]; simpl; [done|].
  rewrite versions_cons. by destruct (l !! k).
Qed.

Lemma value_of_read m s k : repr m s -> value_of m k = Spec.read s k.
Proof.
  intros R. unfold value_of, OverlayedMap.get, Spec.read. rewrite (repr_changes _ _ R).
  rewrite visible_versions. by destruct (versions (Spec.layers s) k).
Qed.

(** A history that opens and closes its own transactions only. *)
Fixpoint balanced (depth : nat) (ops : list op) : bool :=
  match ops with
  | [] => bool_decide (depth = 0)
  | OpSet _ _ _ :: ops' => balanced depth ops'
  | OpStart :: ops' => balanced (S depth) ops'
  | OpCommit :: ops' | OpRollback :: ops' =>
      match depth with 0 => false | S d => balanced d ops' end
  | OpEnter :: _ | OpExit :: _ => false
  end.

(** Inside an open transaction, a balanced history leaves everything below
    it alone. *)
Lemma balanced_below ops depth s inner outer :
  Spec.open s = inner ++ outer -> length inner = S depth ->
  (Spec.mode s = Runtime -> Spec.client s <= length outer)%nat ->
  balanced depth ops = true ->
  exists s' l log, run spec_step s ops = Ok (s', log) /\
    s' = Spec.mk (l :: outer) (Spec.committed s) (Spec.client s) (Spec.mode s).
Proof.
  revert depth s inner. induction ops as [|o ops IH]; intros depth s inner Ho Hlen Hcl Hbal.
  { simpl in *. apply bool_decide_eq_true_1 in Hbal as ->.
    destruct inner as [|l [|? ?]]; simplify_eq/=. do 3 eexists; split; [done|].
    destruct s; simpl in *. by rewrite Ho. }
  assert (Hmay : forall l l' inner', inner = l :: l' :: inner' -> Spec.may_close s = true).
  { intros l l' inner' ->. unfold Spec.may_close.
    assert (length (Spec.open s) = S (S (length inner' + length outer))) as Hlo
      by by rewrite Ho, length_app.
    rewrite bool_decide_true by lia. destruct (Spec.mode s); [done|].
    by rewrite (proj2 (Nat.ltb_lt _ _)) by (specialize (Hcl eq_refl); lia). }
  destruct inner as [|l inner]; [done|].
  destruct o; simpl in Hbal; try done; simpl.
  - edestruct (IH depth (Spec.write s k v at_extrinsic)) as (s' & l' & log & Hrun & ->);
      [..|done|]; unfold Spec.write, Spec.map_top in *; rewrite ?Ho in *; simpl in *;
      [by rewrite app_comm_cons|done|done|].
    rewrite Hrun. simpl. by do 3 eexists.
  - edestruct (IH (S depth) (Spec.start s) (∅ :: l :: inner)) as (s' & l' & log & Hrun & ->);
      [by simpl; rewrite Ho|by simpl in *; lia|done|done|].
    rewrite Hrun. simpl. by do 3 eexists.
  - destruct depth as [|d], inner as [|l2 inner]; simplify_eq/=.
    unfold Spec.commit. rewrite (Hmay _ _ _ eq_refl), Ho; simpl.
    edestruct (IH (length inner) (Spec.map_top (Spec.merge_layer l)
      (Spec.mk (l2 :: inner ++ outer) (Spec.committed s) (Spec.client s) (Spec.mode s))))
      as (s' & l' & log & Hrun & ->); [by simpl; rewrite app_comm_cons|done|done|done|].
    rewrite Hrun. simpl. by do 3 eexists.
  - destruct depth as [|d], inner as [|l2 inner]; simplify_eq/=.
    unfold Spec.rollback. rewrite (Hmay _ _ _ eq_refl), Ho; simpl.
    edestruct (IH (length inner) (Spec.mk (l2 :: inner ++ outer) (Spec.committed s) (Spec.client s) (Spec.mode s)))
      as (s' & l' & log & Hrun & ->); [by simpl; rewrite app_comm_cons|done|done|done|].
    rewrite Hrun. simpl. by do 3 eexists.
Qed.
End histories.
Arguments op K V : clear implicits.

(** ** Modification in place and bulk removal *)
Section changeset.
Context {K V : Type} `{Countable K}.
Implicit Types (m : OverlayedMap K (option V)) (s : Spec.t K (option V)) (k : K).

(** [modify] works on a copy of the visible value in the innermost layer.  A
    version that the layer already has is changed in place, without
    recording the extrinsic. *)
Definition spec_modify s k (init : V) (at_extrinsic : option Z) (f : option V -> option V)
    : Spec.t K (option V) :=
  let iv :=
    match top_layer s !! k with
    | Some iv => mkInnerValue (f (iv_value iv)) (iv_extrinsics iv)
    | None => mkInnerValue (f (default (Some init) (Spec.read s k))) (Spec.record at_extrinsic [])
    end in
  Spec.map_top (insert k iv) s.

Lemma modify_refines m s k init at_extrinsic f :
  repr m s ->
  exists m', OverlayedMap.modify m k init at_extrinsic f = Ok m' /\
             repr m' (spec_modify s k init at_extrinsic f).
Proof.
  intros R. unfold OverlayedMap.modify, spec_modify. rewrite (repr_overlayed _ _ _ R).
  pose proof (insert_dirty_first _ _ k R) as Hfirst.
  pose proof (insert_dirty_again _ _ k R) as Hagain.
  pose proof (fun v => entry_set_spec _ _ k v at_extrinsic R) as Hset.
  pose proof (fun iv => repr_update m s k iv R) as Hup.
  destruct (OverlayedMap.insert_dirty (dirty_keys m) k) as [d fw]; simpl in *.
  assert (Hnew : forall v, top_layer s !! k = None ->
    mbind (fun o1 => cur ← OverlayedEntry.value_ref o1;
           o2 ← OverlayedEntry.value_mut (f cur) o1;
           Ok (OverlayedMap.with_changes (OverlayedMap.with_dirty m d) (<[k:=o2]> (changes m))))
      (OverlayedEntry.set (versions (Spec.layers s) k) v fw at_extrinsic) =
    Ok (OverlayedMap.with_changes (OverlayedMap.with_dirty m d)
          (<[k := mkInnerValue (f v) (Spec.record at_extrinsic []) :: versions (below s) k]>
             (changes m)))).
  { intros v Htop. by rewrite Hset, Htop. }
  assert (Hread : top_layer s !! k = None ->
    Spec.read s k = iv_value <$> head (versions (Spec.layers s) k)).
  { intros _. apply visible_versions. }
  destruct fw.
  - rewrite Hread by auto. rewrite (Hfirst eq_refl).
    destruct (versions (Spec.layers s) k) as [|tx rest] eqn:Hv;
      (rewrite Hnew by auto); eexists; (split; [done|]); apply Hup.
  - destruct (Hagain eq_refl) as [Hnil|(iv & Htop & Hv)].
    + assert (top_layer s !! k = None) as Htop.
      { rewrite layers_top, versions_cons in Hnil. by destruct (top_layer s !! k). }
      rewrite Hread, Htop by done. rewrite Hnil in *. rewrite Hnew by done.
      eexists; (split; [done|]); apply Hup.
    + rewrite Hv, Htop. simpl. eexists; split; [done|]. apply Hup.
Qed.

(** Removing the values of [keys], one after the other. *)
Definition spec_clear (at_extrinsic : option Z) s (keys : list K) : Spec.t K (option V) :=
  foldl (fun s k => Spec.write s k None at_extrinsic) s keys.

Lemma write_layers_other s k v at_extrinsic j :
  j <> k ->
  top_layer (Spec.write s k v at_extrinsic) !! j = top_layer s !! j /\
  versions (Spec.layers (Spec.write s k v at_extrinsic)) j = versions (Spec.layers s) j.
Proof.
  intros Hne. unfold Spec.write. rewrite layers_map_top, (layers_top s), !versions_cons.
  assert (top_layer (Spec.map_top (Spec.write_layer k v at_extrinsic) s) =
          Spec.write_layer k v at_extrinsic (top_layer s)) as ->.
  { unfold Spec.map_top, top_layer. by destruct (Spec.open s). }
  unfold Spec.write_layer. by rewrite lookup_insert_ne.
Qed.

Lemma spec_clear_other at_extrinsic s keys j :
  j ∉ keys -> versions (Spec.layers (spec_clear at_extrinsic s keys)) j = versions (Spec.layers s) j.
Proof.
  revert s. induction keys as [|k keys IH]; intros s; simpl; [done|].
  rewrite not_elem_of_cons. intros [Hne Hj]. unfold spec_clear in *; simpl.
  rewrite IH by done. by apply write_layers_other.
Qed.

Definition removed (kv : K * OverlayedEntry.t (option V)) : Z :=
  match kv.2 with tx :: _ => if iv_value tx is Some _ then 1%Z else 0%Z | [] => 0%Z end.

Lemma clear_key_refines m s at_extrinsic k count :
  repr m s -> versions (Spec.layers s) k <> [] ->
  exists m', OverlayedMap.clear_key at_extrinsic (m, count) (k, versions (Spec.layers s) k) =
    Ok (m', (count + removed (k, versions (Spec.layers s) k))%Z) /\
    repr m' (Spec.write s k None at_extrinsic).
Proof.
  intros R Hv. destruct (set_refines m s k None at_extrinsic R) as (m' & Hm' & R').
  exists m'. split; [|done]. unfold OverlayedMap.clear_key, OverlayedMap.set in *.
  rewrite (repr_overlayed _ _ _ R) in Hm'.
  destruct (versions (Spec.layers s) k) as [|tx rest] eqn:Hvs; [done|]. simpl.
  destruct (OverlayedMap.insert_dirty (dirty_keys m) k) as [d fw].
  destruct (OverlayedEntry.set (tx :: rest) None fw at_extrinsic); simplify_eq/=.
  unfold removed; simpl. destruct (iv_value tx); simpl; by rewrite ?Z.add_0_r.
Qed.

(** [clear_where] removes exactly the matching keys and counts those that
    still had a value. *)
Lemma clear_where_refines m s predicate at_extrinsic :
  repr m s ->
  let matching := map_to_list (filter (fun kv => predicate kv.1 kv.2 = true) (changes m)) in
  exists m', OverlayedMap.clear_where m predicate at_extrinsic =
    Ok (m', sum_Z (removed <$> matching)) /\
    repr m' (spec_clear at_extrinsic s matching.*1).
Proof.
  intros R matching. unfold OverlayedMap.clear_where. fold matching.
  assert (Hnd : NoDup matching.*1) by apply NoDup_fst_map_to_list.
  assert (Hin : forall k e, (k, e) ∈ matching -> e = versions (Spec.layers s) k /\ e <> []).
  { intros k e [He _]%elem_of_map_to_list%map_lookup_filter_Some.
    rewrite (repr_changes _ _ R) in He. by destruct (versions (Spec.layers s) k); simplify_eq/=. }
  edestruct (for_each_inv (OverlayedMap.clear_key at_extrinsic)
    (fun dn acc => repr acc.1 (spec_clear at_extrinsic s dn.*1) /\
                   acc.2 = sum_Z (removed <$> dn)) matching (m, 0%Z))
    as ([m' c] & -> & R' & Hc); [done| |simpl in *; subst; by eexists].
  intros dn [k e] todo [m1 c1] Heq [R1 Hc1]; simpl in R1, Hc1.
  rewrite Heq in Hin, Hnd. rewrite fmap_app in Hnd.
  apply NoDup_app in Hnd as (_ & Hnd & _).
  assert (k ∉ dn.*1) as Hk by (intros Hk; apply (Hnd k Hk); constructor).
  destruct (Hin k e) as [He Hne]; [apply elem_of_app; right; constructor|].
  rewrite <- (spec_clear_other at_extrinsic s dn.*1 k Hk) in He. subst e.
  destruct (clear_key_refines m1 _ at_extrinsic k c1 R1 Hne) as (m2 & Hm2 & R2).
  eexists; split; [exact Hm2|]; simpl. rewrite !fmap_app. split.
  - unfold spec_clear in *. by rewrite foldl_app.
  - rewrite Hc1. symmetry. apply sum_Z_snoc.
Qed.
End changeset.

(** ** Correctness of the overlay *)
Section correctness.
Context {K V : Type} `{Countable K}.
Implicit Types (m : OverlayedMap K V) (s : Spec.t K V) (k : K) (v : V).

Lemma wf_new : wf (OverlayedMap.new : OverlayedMap K V).
Proof. exists Spec.new. split; [apply repr_new|done]. Qed.

Lemma wf_step m o m' : wf m -> impl_step m o = Ok m' -> wf m'.
Proof.
  intros (s & R & Hp) Hstep. pose proof (step_refines m s o R) as Hag. rewrite Hstep in Hag.
  destruct (spec_step s o) as [s'| |] eqn:Hs; try done. exists s'.
  eauto using spec_step_protected.
Qed.

Lemma wf_run m ops m' log : wf m -> run impl_step m ops = Ok (m', log) -> wf m'.
Proof.
  revert m log. induction ops as [|o ops IH]; intros m log Hwf; simpl; [by intros [= <- _]|].
  destruct (impl_step m o) as [m1|e|] eqn:Ho; [| |done];
    (destruct (run impl_step _ ops) as [[m2 log']| |] eqn:Hrun; simpl; [|done..]); intros [= -> _];
    eauto using wf_step.
Qed.

(** C4: started from the empty overlay, every history of writes, nested
    transactions and runtime entries runs without a panic, returns exactly
    the errors that the stack of maps prescribes, and ends in an overlay that
    represents that stack and shows its values. *)
Theorem overlay_refines_stack (ops : list (op K V)) :
  exists m s log,
    run impl_step OverlayedMap.new ops = Ok (m, log) /\
    run spec_step Spec.new ops = Ok (s, log) /\
    repr m s /\ forall k, value_of m k = Spec.read s k.
Proof.
  destruct (run_refines OverlayedMap.new Spec.new ops repr_new) as (m & s & log & Hm & Hs & R).
  exists m, s, log. repeat split; try done; [apply R..|].
  intros k. by apply value_of_read.
Qed.

(** C19: opening a transaction, running any history that closes what it opens,
    and rolling the transaction back restores the overlay exactly: the values,
    the extrinsics, the dirty sets and the execution mode. *)
Theorem rollback_restores m ops :
  wf m -> balanced 0 ops = true ->
  exists m' log, run impl_step (OverlayedMap.start_transaction m) ops = Ok (m', log) /\
                 OverlayedMap.rollback_transaction m' = Ok m.
Proof.
  intros (s & R & Hp) Hbal.
  destruct (run_refines _ _ ops (start_refines m s R)) as (m' & s' & log & Hm & Hs & R').
  destruct (balanced_below ops 0 (Spec.start s) [∅] (Spec.open s))
    as (s2 & l & log2 & Hs2 & ->); [done..|].
  rewrite Hs in Hs2. simplify_eq/=. exists m', log2. split; [done|].
  pose proof (close_refines true _ _ R') as Hcl. rewrite spec_close_closed in Hcl.
  unfold OverlayedMap.rollback_transaction.
  replace (Spec.may_close _) with true in Hcl.
  2:{ symmetry. apply andb_true_iff; split; [done|]. apply orb_true_iff.
      unfold client_protected in Hp. simpl Spec.mode.
      destruct (Spec.mode s); [by left|right]. apply Nat.ltb_lt.
      specialize (Hp eq_refl). simpl. lia. }
  destruct (OverlayedMap.close_transaction true m') as [m2| |]; [|done..].
  f_equal. eapply repr_unique; [exact Hcl|]. unfold closed, popped; simpl. by destruct s.
Qed.

Lemma read_closed s k : Spec.may_close s = true -> Spec.read (closed false s) k = Spec.read s k.
Proof.
  intros Hmay. unfold Spec.read. rewrite !visible_versions. unfold Spec.may_close in Hmay.
  destruct (Spec.open s) as [|l ls] eqn:Ho; [done|]. clear Hmay.
  destruct (l !! k) as [iv|] eqn:Hk.
  - rewrite (versions_closed_written false s k iv) by by rewrite (top_open _ _ _ Ho).
    rewrite layers_top, versions_cons, (top_open _ _ _ Ho), Hk.
    by destruct (top_layer (popped s) !! k).
  - by rewrite (versions_closed_other _ _ _ _ _ Ho Hk).
Qed.

(** Committing keeps the values of a represented stack. *)
Lemma commit_value_of m s m' k :
  repr m s -> OverlayedMap.commit_transaction m = Ok m' -> value_of m' k = value_of m k.
Proof.
  intros R Hc. pose proof (close_refines false _ _ R) as Hcl.
  unfold OverlayedMap.commit_transaction in Hc. rewrite Hc, spec_close_closed in Hcl.
  destruct (Spec.may_close s) eqn:Hmay; [|done].
  rewrite (value_of_read _ _ _ R), (value_of_read _ _ _ Hcl). by apply read_closed.
Qed.

(** Committing the innermost transaction does not change what any reader
    sees. *)
Theorem commit_preserves_reads m m' k :
  wf m -> OverlayedMap.commit_transaction m = Ok m' -> value_of m' k = value_of m k.
Proof. intros (s & R & _) Hc. by eapply commit_value_of. Qed.

(** the unspecified iteration order of the hash set of dirty keys is
    unobservable: any enumeration of the keys closes the transaction without a
    panic and leaves the same overlay. *)
Theorem close_order_irrelevant rollback m dk rest keys :
  wf m -> dirty_keys m = dk :: rest -> NoDup keys -> (forall k, k ∈ keys <-> k ∈ dk) ->
  exists m', OverlayedMap.close_with rollback m rest keys = Ok m' /\
             OverlayedMap.close_with rollback m rest (elements dk) = Ok m'.
Proof.
  intros (s & R & _) Hd Hnd Hkeys. pose proof (repr_dirty _ _ R) as Hdirty. rewrite Hd in Hdirty.
  destruct (Spec.open s) as [|l ls] eqn:Ho; [done|]. rewrite fmap_cons in Hdirty. simplify_eq.
  destruct (close_with_refines rollback m s l ls keys) as (m1 & Hm1 & R1); [done..|].
  destruct (close_with_refines rollback m s l ls (elements (dom l))) as (m2 & Hm2 & R2);
    [done|done|apply NoDup_elements|intros k; apply elem_of_elements|].
  exists m1. split; [done|]. by rewrite (repr_unique _ _ _ R1 R2).
Qed.

(** Once every transaction is closed, draining the overlay does not panic
    and yields exactly the visible values. *)
Theorem drain_committed_reads m :
  wf m -> OverlayedMap.transaction_depth m = 0 ->
  exists out, OverlayedMap.drain_committed m = Ok out /\ forall k, out !! k = value_of m k.
Proof.
  intros (s & R & _) Hd. unfold OverlayedMap.drain_committed. rewrite bool_decide_true by done.
  pose proof (NoDup_fst_map_to_list (changes m)) as Hnd.
  edestruct (for_each_inv (fun (acc : gmap K V) '(k, e) =>
      '(tx, _) ← OverlayedEntry.pop_transaction e; Ok (<[k := iv_value tx]> acc))
    (fun dn acc => forall k, acc !! k = if decide (k ∈ dn.*1) then value_of m k else None)
    (map_to_list (changes m)) ∅) as (out & -> & Hout).
  - intros k. by rewrite lookup_empty, decide_False by apply not_elem_of_nil.
  - intros dn [k e] todo acc Heq Hacc.
    assert (changes m !! k = Some e) as Hk.
    { apply elem_of_map_to_list. rewrite Heq. apply elem_of_app. right. constructor. }
    assert (exists tx r, e = tx :: r) as (tx & r & ->).
    { rewrite (repr_changes _ _ R) in Hk. destruct (versions _ _); simplify_eq/=. eauto. }
    simpl. eexists; split; [done|]. intros j. rewrite lookup_insert.
    rewrite fmap_app. case_decide as Hj.
    + subst j. rewrite decide_True by (apply elem_of_app; right; constructor).
      unfold value_of, OverlayedMap.get. by rewrite Hk.
    + rewrite Hacc. simpl. repeat case_decide; try done; set_solver.
  - exists out. split; [done|]. intros k. rewrite Hout. case_decide as Hk; [done|].
    unfold value_of, OverlayedMap.get.
    destruct (changes m !! k) as [e|] eqn:He; [|done]. destruct Hk.
    apply list_elem_of_fmap. exists (k, e). split; [done|]. by apply elem_of_map_to_list.
Qed.
End correctness.

Section changeset_correctness.
Context {K V : Type} `{Countable K}.
Implicit Types (m : OverlayedMap K (option V)) (s : Spec.t K (option V)) (k : K).

Lemma read_map_top_insert s k (iv : InnerValue (option V)) j :
  Spec.read (Spec.map_top (insert k iv) s) j =
  if decide (j = k) then Some (iv_value iv) else Spec.read s j.
Proof.
  unfold Spec.read. rewrite !visible_versions, layers_map_top, (layers_top s), !versions_cons.
  case_decide as Hj; [subst; by rewrite lookup_insert_eq|by rewrite lookup_insert_ne].
Qed.

Lemma protected_map_top f s : client_protected s -> client_protected (Spec.map_top f s).
Proof.
  unfold client_protected. by destruct (map_top_fields f s) as (-> & -> & ->).
Qed.

(** [modify] hands out the visible value, or the initial value when the
    key is unknown to the overlay, and the caller's change to it is the only
    visible effect. *)
Theorem modify_updates_visible m k init at_extrinsic f :
  wf m ->
  exists m', OverlayedMap.modify m k init at_extrinsic f = Ok m' /\ wf m' /\
    forall j, value_of m' j =
      if decide (j = k) then Some (f (default (Some init) (value_of m k))) else value_of m j.
Proof.
  intros (s & R & Hp). destruct (modify_refines m s k init at_extrinsic f R) as (m' & Hm' & R').
  exists m'. repeat split; [done|eexists; split; [done|by apply protected_map_top]|].
  intros j. rewrite !(value_of_read _ _ _ R), !(value_of_read _ _ _ R').
  unfold spec_modify. rewrite read_map_top_insert. case_decide; [|done].
  destruct (top_layer s !! k) as [iv|] eqn:Htop; [|done].
  unfold Spec.read. by rewrite visible_versions, layers_top, versions_cons, Htop.
Qed.

Lemma read_write s k v at_extrinsic j :
  Spec.read (Spec.write s k v at_extrinsic) j = if decide (j = k) then Some v else Spec.read s j.
Proof.
  unfold Spec.read. rewrite !visible_versions. case_decide as Hj.
  - subst. unfold Spec.write. rewrite layers_map_top, versions_cons.
    unfold Spec.write_layer. by rewrite lookup_insert_eq.
  - by rewrite (proj2 (write_layers_other s k v at_extrinsic j Hj)).
Qed.

Lemma read_spec_clear at_extrinsic s keys j :
  Spec.read (spec_clear at_extrinsic s keys) j =
  if decide (j ∈ keys) then Some None else Spec.read s j.
Proof.
  revert s. induction keys as [|k keys IH]; intros s.
  { by rewrite decide_False by apply not_elem_of_nil. }
  unfold spec_clear in *. simpl. rewrite IH, read_write.
  repeat case_decide; set_solver.
Qed.

Lemma protected_spec_clear at_extrinsic s keys :
  client_protected s -> client_protected (spec_clear at_extrinsic s keys).
Proof.
  revert s. induction keys as [|k keys IH]; intros s Hp; [done|]. unfold spec_clear in *; simpl.
  apply IH. by apply protected_map_top.
Qed.

Definition has_value m k : bool :=
  match value_of m k with Some (Some _) => true | _ => false end.

Lemma sum_removed m (l : list (K * OverlayedEntry.t (option V))) :
  (forall k e, (k, e) ∈ l -> changes m !! k = Some e) ->
  sum_Z (removed <$> l) = Z.of_nat (length (filter (fun kv => has_value m kv.1 = true) l)).
Proof.
  induction l as [|[k e] l IH]; intros Hl; [done|].
  rewrite fmap_cons, filter_cons. simpl. rewrite IH by set_solver.
  assert (removed (k, e) = if has_value m k then 1%Z else 0%Z) as ->.
  { unfold has_value, value_of, OverlayedMap.get, removed.
    rewrite (Hl k e) by constructor. destruct e as [|tx r]; simpl; [done|].
    by destruct (iv_value tx). }
  destruct (has_value m k); simpl; lia.
Qed.

(** [clear_where] deletes the visible value of exactly the keys of the
    overlay that match, and returns how many of them still had one. *)
Theorem clear_where_removes_matching m predicate at_extrinsic :
  wf m ->
  let matching := map_to_list (filter (fun kv => predicate kv.1 kv.2 = true) (changes m)) in
  exists m', OverlayedMap.clear_where m predicate at_extrinsic =
      Ok (m', Z.of_nat (length (filter (fun kv => has_value m kv.1 = true) matching))) /\
    wf m' /\
    forall k, value_of m' k =
      match changes m !! k with
      | Some e => if predicate k e then Some None else value_of m k
      | None => None
      end.
Proof.
  intros (s & R & Hp) matching.
  destruct (clear_where_refines m s predicate at_extrinsic R) as (m' & Hm' & R').
  fold matching in Hm', R'. exists m'.
  assert (Hin : forall k e, (k, e) ∈ matching <-> changes m !! k = Some e /\ predicate k e = true).
  { intros k e. unfold matching. by rewrite elem_of_map_to_list, map_lookup_filter_Some. }
  rewrite Hm', (sum_removed m) by (intros k e; naive_solver).
  split; [done|]. split; [eexists; split; [done|by apply protected_spec_clear]|].
  intros k. rewrite (value_of_read _ _ _ R'), read_spec_clear, <- (value_of_read _ _ _ R).
  assert (Hk : k ∈ matching.*1 <-> exists e, changes m !! k = Some e /\ predicate k e = true).
  { rewrite list_elem_of_fmap. split.
    - intros ([k' e] & -> & ?%Hin). eauto.
    - intros (e & ?%Hin). by exists (k, e). }
  unfold value_of, OverlayedMap.get in *.
  destruct (changes m !! k) as [e|] eqn:He.
  - destruct (predicate k e) eqn:Hpe; [rewrite decide_True by (apply Hk; eauto)|
      rewrite decide_False by (rewrite Hk; intros (? & ? & ?); congruence)]; done.
  - by rewrite decide_False by (rewrite Hk; intros (? & ? & ?); congruence).
Qed.
End changeset_correctness.

(** ** Instances *)
Module Examples.
Definition history : list (op nat (option Z)) :=
  [OpSet 1 (Some 10%Z) (Some 0%Z); OpStart; OpSet 1 (Some 20%Z) (Some 1%Z);
   OpEnter; OpStart; OpSet 2 None (Some 1%Z); OpCommit; OpCommit].
Definition overlay : OverlayedMap nat (option Z) :=
  match run impl_step OverlayedMap.new history with Ok (m, _) => m | _ => OverlayedMap.new end.

Lemma overlay_wf : wf overlay.
Proof.
  apply (wf_run OverlayedMap.new history overlay [None; None; None; None; None; None; None; Some NoOpenTransaction]).
  - apply wf_new.
  - vm_compute. reflexivity.
Defined.

Lemma rollback_restores_witness :
  exists m' log,
    run impl_step (OverlayedMap.start_transaction overlay)
      [OpSet 1 None None; OpStart; OpSet 3 (Some 5%Z) None; OpCommit] = Ok (m', log) /\
    OverlayedMap.rollback_transaction m' = Ok overlay.
Proof. apply rollback_restores; [apply overlay_wf|reflexivity]. Defined.

Definition committed : OverlayedMap nat (option Z) :=
  match OverlayedMap.exit_runtime overlay with
  | Ok m => match OverlayedMap.commit_transaction m with Ok m' => m' | _ => m end
  | _ => overlay
  end.
Definition outside : OverlayedMap nat (option Z) :=
  match OverlayedMap.exit_runtime overlay with Ok m => m | _ => overlay end.

Lemma outside_wf : wf outside.
Proof. apply (wf_step overlay OpExit outside); [apply overlay_wf|vm_compute; reflexivity]. Defined.

Lemma committed_wf : wf committed.
Proof. apply (wf_step outside OpCommit committed); [apply outside_wf|vm_compute; reflexivity]. Defined.

Lemma commit_preserves_reads_witness : value_of committed 1 = value_of outside 1.
Proof. apply commit_preserves_reads; [apply outside_wf|vm_compute; reflexivity]. Defined.

Lemma close_order_irrelevant_witness :
  exists m', OverlayedMap.close_with false outside [] [2; 1] = Ok m' /\
             OverlayedMap.close_with false outside [] (elements ({[1; 2]} : gset nat)) = Ok m'.
Proof.
  apply close_order_irrelevant; [apply outside_wf|vm_compute; reflexivity| |].
  - repeat constructor; set_solver.
  - set_solver.
Defined.

Lemma drain_committed_reads_witness :
  exists out, OverlayedMap.drain_committed committed = Ok out /\
              forall k, out !! k = value_of committed k.
Proof. apply drain_committed_reads; [apply committed_wf|reflexivity]. Defined.

Lemma modify_updates_visible_witness :
  exists m', OverlayedMap.modify overlay 1 7%Z (Some 3%Z) (fun _ => Some 8%Z) = Ok m' /\ wf m' /\
    forall j, value_of m' j = if decide (j = 1) then Some (Some 8%Z) else value_of overlay j.
Proof.
  apply (modify_updates_visible overlay 1 7%Z (Some 3%Z) (fun _ => Some 8%Z)). apply overlay_wf.
Defined.

Lemma clear_where_removes_matching_witness :
  exists m', OverlayedMap.clear_where overlay (fun k _ => Nat.eqb k 1) (Some 4%Z) = Ok (m', 1%Z) /\
    wf m' /\ value_of m' 1 = Some None.
Proof.
  destruct (clear_where_removes_matching overlay (fun k _ => Nat.eqb k 1) (Some 4%Z) overlay_wf)
    as (m' & Hm' & Hwf & Hv).
  exists m'. split; [exact Hm'|]. split; [exact Hwf|]. rewrite Hv. vm_compute. reflexivity.
Defined.

(** A write through [modify] to a key that the open transaction already wrote
    is not attributed to the extrinsic that made it. *)
Lemma modify_forgets_extrinsic :
  exists m m',
    OverlayedMap.set OverlayedMap.new 1 (Some 10%Z) (Some 0%Z) = Ok m /\
    OverlayedMap.modify m 1 7%Z (Some 1%Z) (fun _ => Some 11%Z) = Ok m' /\
    value_of m' 1 = Some (Some 11%Z) /\
    (OverlayedEntry.extrinsics <$> OverlayedMap.get m' 1) = Some {[0%Z]}.
Proof. do 2 eexists. repeat split; vm_compute; reflexivity. Qed.
End Examples.
