(* ===== verification/Overlay.v ===== *)
(** * The storage overlay: [overlayed_changes/mod.rs] and [offchain.rs]

    [OverlayedChanges] keeps one changeset for the top trie, one per child trie
    and one for the offchain index, and runs their transactions in lockstep; it
    also caches the storage transaction that [storage_root] computed.

    The theorems are proved against the interface [TxLayer], which says what a
    transactional layer promises about its nesting; [Changeset] provides the
    instance.  They show that the [expect]s on the children and on the offchain
    layer never fail as long as the overlay is drained only between
    transactions, what goes wrong otherwise, and which operations keep the cached
    storage transaction equal to the one the backend would compute from the
    visible changes. *)
From stdpp Require Import base gmap list.
From Stdlib Require Import ZArith Lia.
From S2P Require Import Prelude.
From S2P Require Import Changeset.
Set Warnings "-clear-no-such-hyp".

(** ** What a transactional layer promises *)

(** How deep a layer is nested, and what protects it: the number of the client's
    transactions counts only inside the runtime. *)
Record shape := mkShape { depth : nat; client : nat; mode : ExecutionMode }.

Definition shape_start (sh : shape) : shape := mkShape (S (depth sh)) (client sh) (mode sh).

Definition shape_close (sh : shape) : res TxError shape :=
  if bool_decide (0 < depth sh) &&
     (bool_decide (mode sh = Client) || (client sh <? depth sh)%nat)
  then Ok (mkShape (pred (depth sh)) (client sh) (mode sh))
  else Err NoOpenTransaction.

Definition shape_enter (sh : shape) : res TxError shape :=
  match mode sh with
  | Runtime => Err AlreadyInRuntime
  | Client => Ok (mkShape (depth sh) (depth sh) Runtime)
  end.

Definition shape_exit (sh : shape) : res TxError shape :=
  match mode sh with
  | Client => Err NotInRuntime
  | Runtime => Ok (mkShape (Nat.min (depth sh) (client sh)) 0 Client)
  end.

Class TxLayer (M : Type) := {
  layer_shape : M -> shape;
  layer_wf : M -> Prop;
  layer_start : M -> M;
  layer_commit : M -> res TxError M;
  layer_rollback : M -> res TxError M;
  layer_enter : M -> res TxError M;
  layer_exit : M -> res TxError M;
}.

Definition protected (m : ExecutionMode) (n : nat) : nat := match m with Client => 0 | Runtime => n end.

(** The outcome of an operation is the one its shape determines. *)
Definition follows `{TxLayer M} (r : res TxError M) (r' : res TxError shape) : Prop :=
  match r, r' with
  | Ok m, Ok sh => layer_wf m /\ layer_shape m = sh
  | Err e, Err e' => e = e'
  | _, _ => False
  end.

Class TxLayerLaws (M : Type) `{TxLayer M} : Prop := {
  law_start m : layer_wf m ->
    layer_wf (layer_start m) /\ layer_shape (layer_start m) = shape_start (layer_shape m);
  law_commit m : layer_wf m -> follows (layer_commit m) (shape_close (layer_shape m));
  law_rollback m : layer_wf m -> follows (layer_rollback m) (shape_close (layer_shape m));
  law_enter m : layer_wf m -> follows (layer_enter m) (shape_enter (layer_shape m));
  law_exit m : layer_wf m -> follows (layer_exit m) (shape_exit (layer_shape m));
}.

(** [OverlayedMap] is such a layer. *)
#[export] Instance overlay_layer {K V} `{Countable K} : TxLayer (OverlayedMap K V) := {
  layer_shape m := mkShape (OverlayedMap.transaction_depth m)
                     (protected (execution_mode m) (num_client_transactions m)) (execution_mode m);
  layer_wf := wf;
  layer_start := OverlayedMap.start_transaction;
  layer_commit := OverlayedMap.commit_transaction;
  layer_rollback := OverlayedMap.rollback_transaction;
  layer_enter := OverlayedMap.enter_runtime;
  layer_exit := OverlayedMap.exit_runtime;
}.

Section instance.
Context {K V : Type} `{Countable K}.
Implicit Types (m : OverlayedMap K V) (s : Spec.t K V).

Definition spec_shape s : shape :=
  mkShape (length (Spec.open s)) (protected (Spec.mode s) (Spec.client s)) (Spec.mode s).

Lemma repr_shape m s : repr m s -> layer_shape m = spec_shape s.
Proof.
  intros R. simpl. unfold spec_shape.
  by rewrite (repr_depth _ _ R), (repr_client _ _ R), (repr_mode _ _ R).
Qed.

(** A specification step that agrees with an operation fixes its shape. *)
Lemma agrees_follows m s (o : op K V) (r : res TxError shape) :
  repr m s -> client_protected s ->
  match spec_step s o, r with
  | Ok s', Ok sh => spec_shape s' = sh | Err e, Err e' => e = e' | _, _ => False
  end ->
  follows (impl_step m o) r.
Proof.
  intros R Hp Hr. pose proof (step_refines m s o R) as Hag.
  destruct (spec_step s o) as [s'|e|] eqn:Hs, r as [sh|e'|]; try done;
    destruct (impl_step m o) as [m'|e2|]; try done; simpl in *; [|congruence].
  split; [exists s'; eauto using spec_step_protected|].
  by rewrite <- Hr, <- (repr_shape _ _ Hag).
Qed.

Lemma spec_close_shape rollback s :
  match spec_close rollback s, shape_close (spec_shape s) with
  | Ok s', Ok sh => spec_shape s' = sh | Err e, Err e' => e = e' | _, _ => False
  end.
Proof.
  rewrite spec_close_closed. unfold shape_close, Spec.may_close; simpl.
  assert (bool_decide (Spec.mode s = Client) || (protected (Spec.mode s) (Spec.client s) <? length (Spec.open s))%nat
    = (bool_decide (Spec.mode s = Client) || (Spec.client s <? length (Spec.open s))%nat)) as ->
    by by destruct (Spec.mode s).
  destruct (_ && _); [|done]. unfold spec_shape.
  by destruct (closed_fields rollback s) as (-> & -> & ->).
Qed.

#[export] Instance overlay_layer_laws : TxLayerLaws (OverlayedMap K V).
Proof.
  split; intros m (s & R & Hp); rewrite ?(repr_shape _ _ R).
  - split; [eexists; split; [by apply start_refines|by apply (spec_step_protected s OpStart)]|].
    exact (repr_shape _ _ (start_refines _ _ R)).
  - apply (agrees_follows m s OpCommit); [done..|]. apply (spec_close_shape false).
  - apply (agrees_follows m s OpRollback); [done..|]. apply (spec_close_shape true).
  - apply (agrees_follows m s OpEnter); [done..|]. simpl. unfold Spec.enter, shape_enter; simpl.
    by destruct (Spec.mode s).
  - apply (agrees_follows m s OpExit); [done..|]. simpl. unfold Spec.exit, shape_exit; simpl.
    destruct (Spec.mode s) eqn:Hm; [done|]. unfold spec_shape; simpl. f_equal.
    rewrite length_drop. lia.
Qed.

(** Writes do not change the nesting. *)
Lemma set_layer m k v at_extrinsic :
  layer_wf m -> exists m', OverlayedMap.set m k v at_extrinsic = Ok m' /\
    layer_wf m' /\ layer_shape m' = layer_shape m.
Proof.
  intros (s & R & Hp). destruct (set_refines m s k v at_extrinsic R) as (m' & Hm' & R').
  exists m'. split; [done|]. rewrite (repr_shape _ _ R), (repr_shape _ _ R'). split.
  - exists (Spec.write s k v at_extrinsic). split; [done|].
    by apply (spec_step_protected s (OpSet k v at_extrinsic)).
  - unfold spec_shape, Spec.write.
    by destruct (map_top_fields (Spec.write_layer k v at_extrinsic) s) as (-> & -> & ->).
Qed.

Lemma spawn_child_layer m :
  layer_wf m -> layer_wf (OverlayedMap.spawn_child m) /\
  layer_shape (OverlayedMap.spawn_child m) = layer_shape m.
Proof.
  intros (s & R & Hp). pose proof (spawn_child_refines m s R) as R'.
  rewrite (repr_shape _ _ R), (repr_shape _ _ R'). split.
  - exists (Spec.child s). split; [done|]. unfold client_protected in *; simpl.
    by rewrite length_replicate.
  - unfold spec_shape; simpl. by rewrite length_replicate.
Qed.
End instance.

Section changeset_instance.
Context {K V : Type} `{Countable K}.
Implicit Types (m : OverlayedMap K (option V)) (s : Spec.t K (option V)).

Lemma spec_clear_shape at_extrinsic s keys : spec_shape (spec_clear at_extrinsic s keys) = spec_shape s.
Proof.
  revert s. induction keys as [|k keys IH]; intros s; [done|]. unfold spec_clear in *; simpl.
  rewrite IH. unfold spec_shape, Spec.write.
  by destruct (map_top_fields (Spec.write_layer k (None : option V) at_extrinsic) s) as (-> & -> & ->).
Qed.

Lemma modify_layer m k init at_extrinsic f :
  layer_wf m -> exists m', OverlayedMap.modify m k init at_extrinsic f = Ok m' /\
    layer_wf m' /\ layer_shape m' = layer_shape m.
Proof.
  intros (s & R & Hp). destruct (modify_refines m s k init at_extrinsic f R) as (m' & Hm' & R').
  exists m'. split; [done|]. rewrite (repr_shape _ _ R), (repr_shape _ _ R'). split.
  - eexists; split; [done|]. by apply protected_map_top.
  - unfold spec_shape, spec_modify.
    match goal with |- context [Spec.map_top ?f s] => destruct (map_top_fields f s) as (-> & -> & ->) end.
    done.
Qed.

Lemma clear_where_layer m predicate at_extrinsic :
  layer_wf m -> exists m' n, OverlayedMap.clear_where m predicate at_extrinsic = Ok (m', n) /\
    layer_wf m' /\ layer_shape m' = layer_shape m.
Proof.
  intros (s & R & Hp). destruct (clear_where_refines m s predicate at_extrinsic R) as (m' & Hm' & R').
  do 2 eexists. split; [done|]. rewrite (repr_shape _ _ R), (repr_shape _ _ R'). split.
  - eexists; split; [done|]. by apply protected_spec_clear.
  - apply spec_clear_shape.
Qed.
End changeset_instance.

(** ** The overlay *)
Abbreviation bytes := (list Z).

(** [ChildInfo::ParentKeyId(ChildTrieParentKeyId)] of [sp-storage]. *)
Record ChildInfo := ParentKeyId { storage_key : bytes }.

#[export] Instance ChildInfo_eq_dec : EqDecision ChildInfo.
Proof. solve_decision. Defined.

Definition try_update (self other : ChildInfo) : bool :=
  bool_decide (storage_key self = storage_key other).

(** [OffchainOverlayedChange] of [sp-core]. *)
Inductive OffchainOverlayedChange := Remove | SetValue (value : bytes).

Inductive IndexOperation :=
| IndexInsert (extrinsic : Z) (hash : bytes) (size : Z)
| IndexRenew (extrinsic : Z) (hash : bytes).

Abbreviation OverlayedChangeSet := (OverlayedMap bytes (option bytes)).
Abbreviation OffchainChanges := (OverlayedMap (bytes * bytes) OffchainOverlayedChange).

Record OverlayedChanges (Root Tx : Type) := mkOverlayedChanges {
  top : OverlayedChangeSet;
  children : gmap bytes (OverlayedChangeSet * ChildInfo);
  offchain : OffchainChanges;
  transaction_index_ops : list IndexOperation;
  collect_extrinsics : bool;
  storage_transaction_cache : option (Tx * Root);
}.
Arguments mkOverlayedChanges {Root Tx} _ _ _ _ _ _.
Arguments top {Root Tx} _.
Arguments children {Root Tx} _.
Arguments offchain {Root Tx} _.
Arguments transaction_index_ops {Root Tx} _.
Arguments collect_extrinsics {Root Tx} _.
Arguments storage_transaction_cache {Root Tx} _.

(** [b":extrinsic_index"] *)
Definition EXTRINSIC_INDEX : bytes :=
  [58; 101; 120; 116; 114; 105; 110; 115; 105; 99; 95; 105; 110; 100; 101; 120]%Z.
Definition NO_EXTRINSIC_INDEX : Z := 4294967295%Z.

(** [sp_core::offchain::STORAGE_PREFIX], [b"storage"] *)
Definition STORAGE_PREFIX : bytes := [115; 116; 111; 114; 97; 103; 101]%Z.

(** [key.starts_with(prefix)] *)
Fixpoint starts_with (key prefix : bytes) : bool :=
  match prefix, key with
  | [], _ => true
  | p :: prefix', b :: key' => Z.eqb p b && starts_with key' prefix'
  | _ :: _, [] => false
  end.

(** [b":child_storage:default:"] *)
Definition DEFAULT_CHILD_STORAGE_KEY_PREFIX : bytes :=
  [58; 99; 104; 105; 108; 100; 95; 115; 116; 111; 114; 97; 103; 101; 58; 100; 101; 102; 97; 117; 108; 116; 58]%Z.

Definition prefixed_storage_key (info : ChildInfo) : bytes :=
  DEFAULT_CHILD_STORAGE_KEY_PREFIX ++ storage_key info.

(** The current value of an entry, [x.value()]; [None] also when the entry
    breaks its invariant, where the code panics. *)
Definition current {V} (e : OverlayedEntry.t V) : option V := res_option (OverlayedEntry.value_ref e).

(** What the overlay asks of a state backend and of the codec of its roots: the
    root and the transaction of the changes on top of the backend's state, the
    root of one child trie and whether that is empty, a value (or an error) of
    the state. *)
Class Backend (B Ver Root Tx BErr : Type) := {
  full_storage_root : B -> Ver -> gmap bytes (option bytes) ->
    gmap bytes (gmap bytes (option bytes) * ChildInfo) -> Root * Tx;
  backend_child_storage_root : B -> Ver -> ChildInfo -> gmap bytes (option bytes) -> Root * bool * Tx;
  backend_storage : B -> bytes -> BErr + option bytes;
  encode_root : Root -> bytes;
  decode_root : bytes -> option Root;
  empty_child_trie_root : Root;
}.

Module Overlay.
Section overlay.
(** The backend, and the decoder of a little-endian [u32]. *)
Context {B Ver Root Tx BErr : Type} `{!Backend B Ver Root Tx BErr}.
Variable decode_u32 : bytes -> option Z.

Abbreviation State := (OverlayedChanges Root Tx).
Implicit Types o : State.

Definition new : State :=
  mkOverlayedChanges OverlayedMap.new ∅ OverlayedMap.new [] false None.

Definition with_top o (t : OverlayedChangeSet) : State :=
  mkOverlayedChanges t (children o) (offchain o) (transaction_index_ops o) (collect_extrinsics o)
    (storage_transaction_cache o).
Definition with_children o (c : gmap bytes (OverlayedChangeSet * ChildInfo)) : State :=
  mkOverlayedChanges (top o) c (offchain o) (transaction_index_ops o) (collect_extrinsics o)
    (storage_transaction_cache o).
Definition with_offchain o (f : OffchainChanges) : State :=
  mkOverlayedChanges (top o) (children o) f (transaction_index_ops o) (collect_extrinsics o)
    (storage_transaction_cache o).
Definition with_cache o (c : option (Tx * Root)) : State :=
  mkOverlayedChanges (top o) (children o) (offchain o) (transaction_index_ops o)
    (collect_extrinsics o) c.

Definition is_empty o : bool := OverlayedMap.is_empty (top o) && bool_decide (children o = ∅).

Definition set_collect_extrinsics o (b : bool) : State :=
  mkOverlayedChanges (top o) (children o) (offchain o) (transaction_index_ops o) b
    (storage_transaction_cache o).

(** [None]: ask the backend; [Some None]: deleted. *)
Definition storage o (key : bytes) : option (option bytes) :=
  e ← OverlayedMap.get (top o) key; current e.

Definition child_storage o (info : ChildInfo) (key : bytes) : option (option bytes) :=
  c ← children o !! storage_key info; e ← OverlayedMap.get c.1 key; current e.

Definition mark_dirty o : State := with_cache o None.

Definition extrinsic_index o : option Z :=
  if collect_extrinsics o
  then Some (default NO_EXTRINSIC_INDEX (idx ← storage o EXTRINSIC_INDEX; idx ≫= decode_u32))
  else None.

(** [f] is what the caller does to the value behind the returned reference. *)
Definition value_mut_or_insert_with o (key : bytes) (init : bytes) (f : bytes -> bytes)
    : res TxError State :=
  let o := mark_dirty o in
  t ← OverlayedMap.modify (top o) key init (extrinsic_index o)
        (fun value => Some (f (default [] value)));
  Ok (with_top o t).

Definition set_storage o (key : bytes) (val : option bytes) : res TxError State :=
  let o := mark_dirty o in
  t ← OverlayedMap.set (top o) key val (extrinsic_index o);
  Ok (with_top o t).

(** [children.entry(storage_key).or_insert_with(..)] with the debug assertion
    that the child informations agree. *)
Definition child_entry o (info : ChildInfo) : res TxError (OverlayedChangeSet * ChildInfo) :=
  let '(changeset, info') :=
    default (OverlayedMap.spawn_child (top o), info) (children o !! storage_key info) in
  if try_update info' info then Ok (changeset, info') else Panic.

Definition set_child_storage o (info : ChildInfo) (key : bytes) (val : option bytes)
    : res TxError State :=
  let o := mark_dirty o in
  '(changeset, info') ← child_entry o info;
  changeset' ← OverlayedMap.set changeset key val (extrinsic_index o);
  Ok (with_children o (<[storage_key info := (changeset', info')]> (children o))).

Definition clear_child_where o (info : ChildInfo) (predicate : bytes -> bool)
    : res TxError (State * Z) :=
  let o := mark_dirty o in
  '(changeset, info') ← child_entry o info;
  '(changeset', n) ← OverlayedMap.clear_where changeset (fun key _ => predicate key) (extrinsic_index o);
  Ok (with_children o (<[storage_key info := (changeset', info')]> (children o)), n).

Definition clear_child_storage o (info : ChildInfo) : res TxError (State * Z) :=
  clear_child_where o info (fun _ => true).

Definition clear_prefix o (prefix : bytes) : res TxError (State * Z) :=
  let o := mark_dirty o in
  '(t, n) ← OverlayedMap.clear_where (top o) (fun key _ => starts_with key prefix) (extrinsic_index o);
  Ok (with_top o t, n).

Definition clear_child_prefix o (info : ChildInfo) (prefix : bytes) : res TxError (State * Z) :=
  clear_child_where o info (fun key => starts_with key prefix).

Definition transaction_depth o : nat := OverlayedMap.transaction_depth (top o).

Definition start_transaction o : State :=
  mkOverlayedChanges (OverlayedMap.start_transaction (top o))
    ((fun c => (OverlayedMap.start_transaction c.1, c.2)) <$> children o)
    (OverlayedMap.start_transaction (offchain o))
    (transaction_index_ops o) (collect_extrinsics o) (storage_transaction_cache o).

(** The children and the offchain layer after an operation that the top layer
    has completed; here an error is a failed [expect]. *)
Definition on_children (f : OverlayedChangeSet -> res TxError OverlayedChangeSet) o
    : res TxError (gmap bytes (OverlayedChangeSet * ChildInfo)) :=
  map_res (fun c => cs ← expect_ok (f c.1); Ok (cs, c.2)) (children o).

(** These operations return an error after part of the state may have changed,
    so the state is returned with the result. *)
Definition lockstep_op
    (f : forall (K V : Type) (E : EqDecision K) (C : Countable K),
       OverlayedMap K V -> res TxError (OverlayedMap K V))
    (retain : OverlayedChangeSet * ChildInfo -> bool) o : State * res TxError unit :=
  match f _ _ _ _ (top o) with
  | Ok t =>
      match on_children (f _ _ _ _) o, f _ _ _ _ (offchain o) with
      | Ok c, Ok x =>
          (mkOverlayedChanges t (filter (fun kc => retain kc.2 = true) c) x
             (transaction_index_ops o) (collect_extrinsics o) (storage_transaction_cache o), Ok tt)
      | _, _ => (o, Panic)
      end
  | Err e => (o, Err e)
  | Panic => (o, Panic)
  end.

Definition rollback_transaction o : State * res TxError unit :=
  lockstep_op (fun _ _ _ _ => OverlayedMap.rollback_transaction)
    (fun c => negb (OverlayedMap.is_empty c.1)) (mark_dirty o).

Definition commit_transaction o : State * res TxError unit :=
  lockstep_op (fun _ _ _ _ => OverlayedMap.commit_transaction) (fun _ => true) o.

Definition enter_runtime o : State * res TxError unit :=
  lockstep_op (fun _ _ _ _ => OverlayedMap.enter_runtime) (fun _ => true) o.

Definition exit_runtime o : State * res TxError unit :=
  lockstep_op (fun _ _ _ _ => OverlayedMap.exit_runtime) (fun _ => true) o.

(** [OffchainOverlayedChanges::set] and [remove] *)
Definition set_offchain_storage o (key : bytes) (value : option bytes) : res TxError State :=
  f ← OverlayedMap.set (offchain o) (STORAGE_PREFIX, key)
        (match value with Some v => SetValue v | None => Remove end) None;
  Ok (with_offchain o f).

Definition add_transaction_index o (op : IndexOperation) : State :=
  mkOverlayedChanges (top o) (children o) (offchain o) (transaction_index_ops o ++ [op])
    (collect_extrinsics o) (storage_transaction_cache o).

(** What the backend is asked to compute the root of. *)
Definition delta (m : OverlayedChangeSet) : gmap bytes (option bytes) := omap current (changes m).
Definition child_delta o : gmap bytes (gmap bytes (option bytes) * ChildInfo) :=
  (fun c => (delta c.1, c.2)) <$> children o.

Definition storage_root o (backend : B) (state_version : Ver) : State * (Root * bool) :=
  match storage_transaction_cache o with
  | Some (_, root) => (o, (root, true))
  | None =>
      let '(root, transaction) := full_storage_root backend state_version (delta (top o)) (child_delta o) in
      (with_cache o (Some (transaction, root)), (root, false))
  end.

(** The root of a child trie; an error of the backend leaves the overlay alone.
    Without a cached transaction the root of a changed child trie is written
    into the top trie. *)
Definition child_storage_root o (info : ChildInfo) (backend : B) (state_version : Ver)
    : res TxError (State * (BErr + Root * bool)) :=
  let key := prefixed_storage_key info in
  let decoded (value : option bytes) : Root := default empty_child_trie_root (value ≫= decode_root) in
  let of_backend (cached : bool) : BErr + Root * bool :=
    match backend_storage backend key with
    | inl e => inl e
    | inr value => inr (decoded value, cached)
    end in
  match storage_transaction_cache o with
  | Some _ =>
      Ok (o, match storage o key with Some value => inr (decoded value, true) | None => of_backend true end)
  | None =>
      match children o !! storage_key info with
      | Some (changeset, info') =>
          let '(root, is_empty, _) := backend_child_storage_root backend state_version info' (delta changeset) in
          o ← set_storage o key (if is_empty : bool then None else Some (encode_root root));
          Ok (mark_dirty o, inr (root, false))
      | None => Ok (o, of_backend false)
      end
  end.

(** [OffchainOverlayedChanges::drain]: whatever transactions are open. *)
Definition offchain_drain_committed o : State * gmap (bytes * bytes) OffchainOverlayedChange :=
  (with_offchain o OverlayedMap.new, omap current (changes (offchain o))).

Record StorageChanges := mkStorageChanges {
  main_storage_changes : gmap bytes (option bytes);
  child_storage_changes : gmap bytes (gmap bytes (option bytes));
  offchain_storage_changes : gmap (bytes * bytes) OffchainOverlayedChange;
  transaction : Tx;
  transaction_storage_root : Root;
  transaction_index_changes : list IndexOperation;
}.

(** Leaves an empty overlay in place; panics while a transaction is open. *)
Definition drain_storage_changes o (backend : B) (state_version : Ver)
    : res TxError (State * StorageChanges) :=
  let o := (storage_root o backend state_version).1 in
  match storage_transaction_cache o with
  | None => Panic
  | Some (tx, root) =>
      main ← OverlayedMap.drain_committed (top o);
      child ← map_res (fun c => OverlayedMap.drain_committed c.1) (children o);
      let '(o', offchain_changes) := offchain_drain_committed o in
      Ok (mkOverlayedChanges OverlayedMap.new ∅ (offchain o') [] (collect_extrinsics o) None,
          mkStorageChanges main child offchain_changes tx root (transaction_index_ops o))
  end.
End overlay.
End Overlay.

(** ** Calls made by the executor and by the runtime *)
Inductive call (B Ver : Type) :=
| SetStorage (key : bytes) (val : option bytes)
| ValueMut (key init : bytes) (f : bytes -> bytes)
| SetChildStorage (info : ChildInfo) (key : bytes) (val : option bytes)
| ClearChildStorage (info : ChildInfo)
| ClearPrefix (prefix : bytes)
| ClearChildPrefix (info : ChildInfo) (prefix : bytes)
| StartTransaction
| CommitTransaction
| RollbackTransaction
| EnterRuntime
| ExitRuntime
| SetOffchainStorage (key : bytes) (value : option bytes)
| AddTransactionIndex (op : IndexOperation)
| SetCollectExtrinsics (b : bool)
| StorageRoot (backend : B) (state_version : Ver)
| ChildStorageRoot (info : ChildInfo) (backend : B) (state_version : Ver)
| OffchainDrainCommitted
| DrainStorageChanges (backend : B) (state_version : Ver).
Arguments SetStorage {B Ver} _ _.
Arguments ValueMut {B Ver} _ _ _.
Arguments SetChildStorage {B Ver} _ _ _.
Arguments ClearChildStorage {B Ver} _.
Arguments ClearPrefix {B Ver} _.
Arguments ClearChildPrefix {B Ver} _ _.
Arguments StartTransaction {B Ver}.
Arguments CommitTransaction {B Ver}.
Arguments RollbackTransaction {B Ver}.
Arguments EnterRuntime {B Ver}.
Arguments ExitRuntime {B Ver}.
Arguments SetOffchainStorage {B Ver} _ _.
Arguments AddTransactionIndex {B Ver} _.
Arguments SetCollectExtrinsics {B Ver} _.
Arguments StorageRoot {B Ver} _ _.
Arguments ChildStorageRoot {B Ver} _ _ _.
Arguments OffchainDrainCommitted {B Ver}.
Arguments DrainStorageChanges {B Ver} _ _.

Section calls.
Context {B Ver Root Tx BErr : Type} `{!Backend B Ver Root Tx BErr}.
Variable decode_u32 : bytes -> option Z.
Abbreviation call := (call B Ver).
Abbreviation State := (OverlayedChanges Root Tx).
Implicit Types (o : State) (info : ChildInfo).

(** A call that cannot return an error. *)
Definition total o (r : res TxError State) : State * res TxError unit :=
  match r with Ok o' => (o', Ok tt) | Err e => (o, Err e) | Panic => (o, Panic) end.
Definition total_n {A} o (r : res TxError (State * A)) : State * res TxError unit :=
  total o (fst <$> r).

Definition step o (c : call) : State * res TxError unit :=
  match c with
  | SetStorage k v => total o (Overlay.set_storage decode_u32 o k v)
  | ValueMut k i f => total o (Overlay.value_mut_or_insert_with decode_u32 o k i f)
  | SetChildStorage i k v => total o (Overlay.set_child_storage decode_u32 o i k v)
  | ClearChildStorage i => total_n o (Overlay.clear_child_storage decode_u32 o i)
  | ClearPrefix p => total_n o (Overlay.clear_prefix decode_u32 o p)
  | ClearChildPrefix i p => total_n o (Overlay.clear_child_prefix decode_u32 o i p)
  | StartTransaction => (Overlay.start_transaction o, Ok tt)
  | CommitTransaction => Overlay.commit_transaction o
  | RollbackTransaction => Overlay.rollback_transaction o
  | EnterRuntime => Overlay.enter_runtime o
  | ExitRuntime => Overlay.exit_runtime o
  | SetOffchainStorage k v => total o (Overlay.set_offchain_storage o k v)
  | AddTransactionIndex op => (Overlay.add_transaction_index o op, Ok tt)
  | SetCollectExtrinsics b => (Overlay.set_collect_extrinsics o b, Ok tt)
  | StorageRoot b v => ((Overlay.storage_root o b v).1, Ok tt)
  | ChildStorageRoot i b v => total_n o (Overlay.child_storage_root decode_u32 o i b v)
  | OffchainDrainCommitted => ((Overlay.offchain_drain_committed o).1, Ok tt)
  | DrainStorageChanges b v => total_n o (Overlay.drain_storage_changes o b v)
  end.

(** Errors are returned to the caller, who goes on. *)
Fixpoint exec o (calls : list call) : res TxError State :=
  match calls with
  | [] => Ok o
  | c :: calls' =>
      match step o c with
      | (_, Panic) => Panic
      | (o', _) => exec o' calls'
      end
  end.

(** A condition on every call of a history and the state it is made in. *)
Fixpoint all_along (P : State -> call -> bool) o (calls : list call) : bool :=
  match calls with
  | [] => true
  | c :: calls' => P o c && all_along P (step o c).1 calls'
  end.

(** The overlay is drained only when no transaction is open, as
    [drain_storage_changes] and [offchain_drain_committed] ask for; the offchain
    changes alone moreover only outside the runtime. *)
Definition orderly o (c : call) : bool :=
  match c with
  | OffchainDrainCommitted =>
      bool_decide (Overlay.transaction_depth o = 0) && bool_decide (execution_mode (top o) = Client)
  | DrainStorageChanges _ _ => bool_decide (Overlay.transaction_depth o = 0)
  | _ => true
  end.

(** All layers are nested alike, and every child is filed under its own key. *)
Record lockstep o : Prop := mk_lockstep {
  lockstep_top : layer_wf (top o);
  lockstep_offchain : layer_wf (offchain o) /\ layer_shape (offchain o) = layer_shape (top o);
  lockstep_children : map_Forall (fun k c =>
    layer_wf c.1 /\ layer_shape c.1 = layer_shape (top o) /\ storage_key c.2 = k) (children o);
}.

Lemma lockstep_new : lockstep Overlay.new.
Proof. split; [apply wf_new|split; [apply wf_new|done]|apply map_Forall_empty]. Qed.

(** The cache and the bookkeeping fields play no role in it. *)
Lemma lockstep_ext o o' :
  top o' = top o -> children o' = children o -> offchain o' = offchain o -> lockstep o -> lockstep o'.
Proof. intros Ht Hc Ho [HT HO HC]. split; by rewrite ?Ht, ?Hc, ?Ho. Qed.

Lemma lockstep_with_top o (t : OverlayedChangeSet) :
  lockstep o -> layer_wf t -> layer_shape t = layer_shape (top o) -> lockstep (Overlay.with_top o t).
Proof.
  intros [HT HO HC] Hwf Hsh. split; unfold Overlay.with_top; simpl top; simpl offchain; simpl children;
    rewrite ?Hsh; done.
Qed.

Lemma lockstep_insert_child o info (cs : OverlayedChangeSet) info' :
  lockstep o -> layer_wf cs -> layer_shape cs = layer_shape (top o) ->
  storage_key info' = storage_key info ->
  lockstep (Overlay.with_children o (<[storage_key info := (cs, info')]> (children o))).
Proof. intros [HT HO HC] Hwf Hsh Hk. split; simpl; [done..|]. by apply map_Forall_insert_2. Qed.

Lemma child_entry_ok o info :
  lockstep o ->
  exists (cs : OverlayedChangeSet) info', Overlay.child_entry o info = Ok (cs, info') /\ layer_wf cs /\
    layer_shape cs = layer_shape (top o) /\ storage_key info' = storage_key info.
Proof.
  intros [HT HO HC]. unfold Overlay.child_entry, try_update.
  destruct (children o !! storage_key info) as [[cs info']|] eqn:Hc; simpl.
  - destruct (HC _ _ Hc) as (Hwf & Hsh & Hk); simpl in *. rewrite bool_decide_true by done. eauto 6.
  - rewrite bool_decide_true by done. destruct (spawn_child_layer (top o) HT). eauto 6.
Qed.

(** An operation on every layer that follows the function [g] of the shape. *)
Section lockstep_op.
Context (f : forall (K V : Type) (E : EqDecision K) (C : Countable K),
  OverlayedMap K V -> res TxError (OverlayedMap K V)).
Context (g : shape -> res TxError shape).
Hypothesis Hfollows : forall K V (E : EqDecision K) (C : Countable K) (m : OverlayedMap K V),
  layer_wf m -> follows (f K V E C m) (g (layer_shape m)).

Lemma follows_ok K V (E : EqDecision K) (C : Countable K) (m : OverlayedMap K V) sh :
  layer_wf m -> g (layer_shape m) = Ok sh ->
  exists m', f K V E C m = Ok m' /\ layer_wf m' /\ layer_shape m' = sh.
Proof.
  intros Hwf Hg. pose proof (Hfollows _ _ _ _ m Hwf) as Hf. rewrite Hg in Hf.
  destruct (f K V E C m); [|done..]. simpl in Hf. eauto.
Qed.

Lemma on_children_ok o sh :
  lockstep o -> g (layer_shape (top o)) = Ok sh ->
  exists c, Overlay.on_children (f _ _ _ _) o = Ok c /\
    (forall k, c !! k = children o !! k ≫= fun x => (fun cs => (cs, x.2)) <$> res_option (f _ _ _ _ x.1)) /\
    map_Forall (fun k x => layer_wf x.1 /\ layer_shape x.1 = sh /\ storage_key x.2 = k) c.
Proof.
  intros [HT HO HC] Hg. unfold Overlay.on_children.
  assert (Hf : forall k x, children o !! k = Some x ->
    exists cs, f _ _ _ _ x.1 = Ok cs /\ layer_wf cs /\ layer_shape cs = sh /\ storage_key x.2 = k).
  { intros k x Hx. destruct (HC _ _ Hx) as (Hwf & Hsh & Hk). rewrite <- Hsh in Hg.
    destruct (follows_ok _ _ _ _ _ _ Hwf Hg) as (cs & ? & ? & ?). eauto 6. }
  rewrite map_res_ok.
  2:{ intros k x Hx. destruct (Hf _ _ Hx) as (cs & -> & _). simpl. eauto. }
  eexists; split; [done|]. split.
  - intros k. rewrite lookup_omap. destruct (children o !! k) as [x|] eqn:Hx; [|done]. simpl.
    by destruct (Hf _ _ Hx) as (cs & -> & _).
  - intros k y. rewrite lookup_omap. destruct (children o !! k) as [x|] eqn:Hx; [|done]. simpl.
    destruct (Hf _ _ Hx) as (cs & -> & Hwf & Hsh & Hk). simpl. intros [= <-]. done.
Qed.

(** Whether an operation succeeds is decided by the top layer; then it succeeds
    on every other layer as well. *)
Lemma lockstep_op_spec retain o :
  lockstep o ->
  match g (layer_shape (top o)) with
  | Ok sh => exists t c x,
      f _ _ _ _ (top o) = Ok t /\ f _ _ _ _ (offchain o) = Ok x /\
      (forall k, c !! k = children o !! k ≫= fun y => (fun cs => (cs, y.2)) <$> res_option (f _ _ _ _ y.1)) /\
      Overlay.lockstep_op f retain o =
        (mkOverlayedChanges t (filter (fun kc => retain kc.2 = true) c) x
           (transaction_index_ops o) (collect_extrinsics o) (storage_transaction_cache o), Ok tt) /\
      lockstep (Overlay.lockstep_op f retain o).1
  | Err e => Overlay.lockstep_op f retain o = (o, Err e)
  | Panic => False
  end.
Proof.
  intros L. pose proof L as [HT [HO HOs] HC]. unfold Overlay.lockstep_op.
  pose proof (Hfollows _ _ _ _ (top o) HT) as Hf.
  destruct (g (layer_shape (top o))) as [sh|e|] eqn:Hg;
    destruct (f _ _ _ _ (top o)) as [t|e'|] eqn:Ht; try done; [|by simpl in Hf; subst].
  destruct Hf as [Htwf Htsh].
  destruct (follows_ok _ _ _ _ (offchain o) sh HO) as (x & -> & Hxwf & Hxsh); [by rewrite HOs|].
  destruct (on_children_ok o sh L Hg) as (c & -> & Hc & Hcall).
  exists t, c, x. do 4 (split; [done|]). split; [done| |].
  - split; [done|]. etransitivity; [exact Hxsh|by symmetry].
  - intros k y Hy. simpl children in Hy. apply map_lookup_filter_Some in Hy as [Hy _].
    destruct (Hcall _ _ Hy) as (Hwf & Hsh & Hk). split; [done|]. split; [|done].
    etransitivity; [exact Hsh|by symmetry].
Qed.
End lockstep_op.

Lemma lockstep_op_safe
    (f : forall (K V : Type) (E : EqDecision K) (C : Countable K),
       OverlayedMap K V -> res TxError (OverlayedMap K V)) g retain o :
  (forall (K V : Type) (E : EqDecision K) (C : Countable K) (m : OverlayedMap K V),
    layer_wf m -> follows (f K V E C m) (g (layer_shape m))) ->
  lockstep o ->
  lockstep (Overlay.lockstep_op f retain o).1 /\ (Overlay.lockstep_op f retain o).2 <> Panic.
Proof.
  intros Hf L. pose proof (lockstep_op_spec f g Hf retain o L) as Hs.
  destruct (g (layer_shape (top o))) as [sh|e|]; [|by rewrite Hs|done].
  destruct Hs as (t & c & x & _ & _ & _ & Heq & HL). split; [done|]. by rewrite Heq.
Qed.

Lemma lockstep_mark_dirty o : lockstep o -> lockstep (Overlay.mark_dirty o).
Proof. by apply lockstep_ext. Qed.

Lemma lockstep_start o : lockstep o -> lockstep (Overlay.start_transaction o).
Proof.
  intros [HT [HO HOs] HC]. destruct (law_start (top o) HT) as [Htwf Htsh].
  destruct (law_start (offchain o) HO) as [Howf Hosh]. split; [done| |].
  - split; [done|]. etransitivity; [exact Hosh|]. rewrite HOs. by symmetry.
  - intros k c. unfold Overlay.start_transaction; simpl children. rewrite lookup_fmap.
    destruct (children o !! k) as [x|] eqn:Hx; [|done]. simpl. intros [= <-].
    destruct (HC _ _ Hx) as (Hwf & Hsh & Hk). destruct (law_start x.1 Hwf) as [Hcwf Hcsh].
    split; [done|]. split; [|done]. etransitivity; [exact Hcsh|]. rewrite Hsh. by symmetry.
Qed.

Lemma clear_child_safe o info predicate :
  lockstep o ->
  exists o' n, Overlay.clear_child_where decode_u32 o info predicate = Ok (o', n) /\ lockstep o'.
Proof.
  intros L%lockstep_mark_dirty. unfold Overlay.clear_child_where.
  destruct (child_entry_ok _ info L) as (cs & info' & -> & Hwf & Hsh & Hk). simpl.
  destruct (clear_where_layer cs (fun key _ => predicate key)
    (Overlay.extrinsic_index decode_u32 (Overlay.mark_dirty o)) Hwf) as (cs' & n & -> & Hwf' & Hsh').
  simpl. do 2 eexists; split; [done|].
  apply (lockstep_insert_child (Overlay.mark_dirty o)); [done|done| |done]. by rewrite Hsh'.
Qed.

Lemma set_storage_safe o key val :
  lockstep o -> exists o', Overlay.set_storage decode_u32 o key val = Ok o' /\ lockstep o'.
Proof.
  intros Ld%lockstep_mark_dirty. unfold Overlay.set_storage.
  edestruct (set_layer (top (Overlay.mark_dirty o)) key val) as (t & -> & Hwf & Hsh); [apply Ld|].
  eexists; split; [done|]. by apply lockstep_with_top.
Qed.

Lemma lockstep_storage_root o b v : lockstep o -> lockstep (Overlay.storage_root o b v).1.
Proof.
  intros L. unfold Overlay.storage_root. destruct (storage_transaction_cache o) as [[]|]; [done|].
  destruct (full_storage_root _ _ _ _). by apply (lockstep_ext o).
Qed.

Lemma child_storage_root_safe o info b v :
  lockstep o -> exists o' r, Overlay.child_storage_root decode_u32 o info b v = Ok (o', r) /\ lockstep o'.
Proof.
  intros L. unfold Overlay.child_storage_root. destruct (storage_transaction_cache o); [eauto|].
  destruct (children o !! storage_key info) as [[cs i]|]; [|eauto].
  destruct (backend_child_storage_root _ _ _ _) as [[root is_empty] ?].
  destruct (set_storage_safe o (prefixed_storage_key info)
    (if is_empty then None else Some (encode_root root)) L) as (o' & -> & L').
  simpl. do 2 eexists; split; [done|]. by apply lockstep_mark_dirty.
Qed.

(** An unnested layer outside the runtime is nested like a new one. *)
Lemma new_layer {K V} `{Countable K} (m : OverlayedMap K V) :
  OverlayedMap.transaction_depth m = 0 -> execution_mode m = Client ->
  layer_shape (OverlayedMap.new : OverlayedMap K V) = layer_shape m.
Proof. intros Hd Hm. simpl. by rewrite Hd, Hm. Qed.

Lemma lockstep_depth o k c :
  lockstep o -> children o !! k = Some c ->
  OverlayedMap.transaction_depth c.1 = Overlay.transaction_depth o.
Proof. intros L Hc. destruct (lockstep_children o L _ _ Hc) as (_ & Hsh & _). by injection Hsh. Qed.

(** Between transactions the drain returns what is visible and leaves an
    empty overlay. *)
Lemma drain_storage_changes_ok o b v :
  lockstep o -> Overlay.transaction_depth o = 0 ->
  exists o' changes tx root, Overlay.drain_storage_changes o b v = Ok (o', changes) /\ lockstep o' /\
    storage_transaction_cache o' = None /\
    storage_transaction_cache (Overlay.storage_root o b v).1 = Some (tx, root) /\
    Overlay.transaction changes = tx /\ Overlay.transaction_storage_root changes = root.
Proof.
  intros L Hd. unfold Overlay.drain_storage_changes.
  assert (exists tx root, storage_transaction_cache (Overlay.storage_root o b v).1 = Some (tx, root) /\
    top (Overlay.storage_root o b v).1 = top o /\ children (Overlay.storage_root o b v).1 = children o)
    as (tx & root & Hcache & Ht & Hc).
  { unfold Overlay.storage_root. destruct (storage_transaction_cache o) as [[]|] eqn:Hc; [by eauto 6|].
    destruct (full_storage_root _ _ _ _). simpl. eauto 6. }
  rewrite Hcache, Ht, Hc. destruct (drain_committed_reads (top o)) as (out & -> & _); [apply L|done|]. simpl.
  rewrite map_res_ok.
  2:{ intros k c Hk. destruct (drain_committed_reads c.1) as (out' & -> & _); [by apply (lockstep_children o L k)| |eauto].
      rewrite (lockstep_depth o k c) by done. done. }
  simpl. do 4 eexists; split; [done|]. split; [|done].
  split; [apply wf_new|split; [apply wf_new|done]|apply map_Forall_empty].
Qed.

Lemma step_safe o c :
  lockstep o -> orderly o c = true -> lockstep (step o c).1 /\ (step o c).2 <> Panic.
Proof.
  intros L Hord. pose proof (lockstep_mark_dirty o L) as Ld. destruct c; simpl.
  - by destruct (set_storage_safe o key val L) as (o' & -> & L').
  - unfold Overlay.value_mut_or_insert_with.
    edestruct (modify_layer (top (Overlay.mark_dirty o)) key init) as (t & -> & Hwf & Hsh); [apply Ld|].
    simpl. split; [|done]. by apply lockstep_with_top.
  - unfold Overlay.set_child_storage.
    destruct (child_entry_ok _ info Ld) as (cs & info' & -> & Hwf & Hsh & Hk). simpl.
    edestruct (set_layer cs key val) as (cs' & -> & Hwf' & Hsh'); [done|]. simpl. split; [|done].
    apply (lockstep_insert_child (Overlay.mark_dirty o)); [done|done| |done]. by rewrite Hsh'.
  - unfold Overlay.clear_child_storage, total_n.
    destruct (clear_child_safe o info (fun _ => true) L) as (o' & n & -> & L'). done.
  - unfold Overlay.clear_prefix, total_n.
    edestruct (clear_where_layer (top (Overlay.mark_dirty o))) as (t & n & -> & Hwf & Hsh); [apply Ld|].
    simpl. split; [|done]. by apply lockstep_with_top.
  - unfold Overlay.clear_child_prefix, total_n.
    destruct (clear_child_safe o info (fun key => starts_with key prefix0) L) as (o' & n & -> & L'). done.
  - split; [by apply lockstep_start|done].
  - apply (lockstep_op_safe _ shape_close); [|done]. intros K V E C m Hwf; exact (law_commit m Hwf).
  - apply (lockstep_op_safe _ shape_close); [|done]. intros K V E C m Hwf; exact (law_rollback m Hwf).
  - apply (lockstep_op_safe _ shape_enter); [|done]. intros K V E C m Hwf; exact (law_enter m Hwf).
  - apply (lockstep_op_safe _ shape_exit); [|done]. intros K V E C m Hwf; exact (law_exit m Hwf).
  - unfold Overlay.set_offchain_storage.
    edestruct (set_layer (offchain o)) as (x & -> & Hwf & Hsh); [apply L|]. simpl. split; [|done].
    destruct L as [HT [HO HOs] HC]. split; simpl; [done| |done]. split; [done|].
    etransitivity; [exact Hsh|exact HOs].
  - split; [by apply (lockstep_ext o)|done].
  - split; [by apply (lockstep_ext o)|done].
  - split; [by apply lockstep_storage_root|done].
  - unfold total_n.
    by destruct (child_storage_root_safe o info backend state_version L) as (o' & r & -> & L').
  - apply andb_true_iff in Hord as [Hd%bool_decide_eq_true Hm%bool_decide_eq_true]. split; [|done].
    destruct L as [HT [HO HOs] HC]. split; [done| |done]. split; [apply wf_new|].
    simpl top. simpl offchain. rewrite <- HOs. apply new_layer.
    + injection HOs as -> _ _. done.
    + injection HOs as _ _ ->. done.
  - apply bool_decide_eq_true in Hord. unfold total_n.
    destruct (drain_storage_changes_ok o backend state_version L Hord) as (o' & ch & tx & root & -> & L' & _).
    done.
Qed.

Lemma exec_safe o calls :
  lockstep o -> all_along orderly o calls = true -> exists o', exec o calls = Ok o' /\ lockstep o'.
Proof.
  revert o. induction calls as [|c calls IH]; intros o L Hord; simpl; [eauto|].
  simpl in Hord. apply andb_true_iff in Hord as [Hord Hords].
  destruct (step_safe o c L Hord) as [L' Hp]. destruct (step o c) as [o' [[]|e|]]; simpl in *; auto; done.
Qed.

(** *** The cached storage transaction *)

(** The cache is not keyed by the backend and the state version, so these have
    to be the same whenever the root is asked for. *)
Definition roots_with (backend : B) (state_version : Ver) (c : call) : Prop :=
  match c with
  | StorageRoot b v => b = backend /\ v = state_version
  | _ => True
  end.

Section coherence.
Variable backend : B.
Variable state_version : Ver.

(** A cached transaction is the one the backend computes from what is visible. *)
Definition coherent o : Prop :=
  forall tx root, storage_transaction_cache o = Some (tx, root) ->
    full_storage_root backend state_version (Overlay.delta (top o)) (Overlay.child_delta o) = (root, tx).

Lemma delta_lookup (m : OverlayedChangeSet) k : Overlay.delta m !! k = value_of m k.
Proof.
  unfold Overlay.delta, value_of, OverlayedMap.get. rewrite lookup_omap.
  by destruct (changes m !! k).
Qed.

Lemma delta_changes (m m' : OverlayedChangeSet) :
  changes m' = changes m -> Overlay.delta m' = Overlay.delta m.
Proof. unfold Overlay.delta. by intros ->. Qed.

Lemma coherent_ext o o' :
  storage_transaction_cache o' = storage_transaction_cache o ->
  Overlay.delta (top o') = Overlay.delta (top o) -> Overlay.child_delta o' = Overlay.child_delta o ->
  coherent o -> coherent o'.
Proof. unfold coherent. by intros -> -> ->. Qed.

Lemma coherent_no_cache o : storage_transaction_cache o = None -> coherent o.
Proof. unfold coherent. by intros ->. Qed.

(** A lockstep operation that keeps the visible values keeps coherence. *)
Lemma coherent_lockstep_op
    (f : forall (K V : Type) (E : EqDecision K) (C : Countable K),
       OverlayedMap K V -> res TxError (OverlayedMap K V)) g o :
  (forall (K V : Type) (E : EqDecision K) (C : Countable K) (m : OverlayedMap K V),
    layer_wf m -> follows (f K V E C m) (g (layer_shape m))) ->
  (forall m m' : OverlayedChangeSet, layer_wf m -> layer_shape m = layer_shape (top o) ->
    f _ _ _ _ m = Ok m' -> Overlay.delta m' = Overlay.delta m) ->
  lockstep o -> coherent o -> coherent (Overlay.lockstep_op f (fun _ => true) o).1.
Proof.
  intros Hf Hd L Hc. pose proof (lockstep_op_spec f g Hf (fun _ => true) o L) as Hs.
  destruct (g (layer_shape (top o))) as [sh|e|] eqn:Hg; [|by rewrite Hs|done].
  destruct Hs as (t & c & x & Ht & _ & Hcs & Heq & _). rewrite Heq.
  apply (coherent_ext o); simpl; [done|by apply Hd; [apply L|..]| |done].
  unfold Overlay.child_delta; simpl. apply map_eq. intros k.
  rewrite !lookup_fmap, map_lookup_filter, Hcs.
  destruct (children o !! k) as [y|] eqn:Hy; [|done]. simpl.
  destruct (lockstep_children o L _ _ Hy) as (Hwf & Hsh & _).
  rewrite <- Hsh in Hg. destruct (follows_ok f g Hf _ _ _ _ _ _ Hwf Hg) as (cs & Hcseq & _).
  rewrite Hcseq. simpl. by rewrite (Hd _ _ Hwf Hsh Hcseq).
Qed.

(** The guard under which leaving the runtime is harmless for the cache. *)
Definition clean_exit o (c : call) : bool :=
  orderly o c &&
  match c with
  | ExitRuntime => negb (OverlayedMap.has_open_runtime_transactions (top o))
  | _ => true
  end.

Lemma clear_child_cache o info predicate o' n :
  Overlay.clear_child_where decode_u32 o info predicate = Ok (o', n) ->
  storage_transaction_cache o' = None.
Proof.
  unfold Overlay.clear_child_where. destruct (Overlay.child_entry _ _) as [[cs i]| |]; [|done..]. simpl.
  destruct (OverlayedMap.clear_where _ _ _) as [[cs' k]| |]; [|done..]. simpl. by intros [= <- _].
Qed.

(** A call that marks the overlay dirty either drops the cache or panics. *)
Lemma coherent_total o (r : res TxError State) :
  (forall o', r = Ok o' -> storage_transaction_cache o' = None) -> coherent o -> coherent (total o r).1.
Proof. intros Hr Hc. destruct r; simpl; [|done..]. by apply coherent_no_cache, Hr. Qed.

Lemma rollback_cache o : storage_transaction_cache (Overlay.rollback_transaction o).1 = None.
Proof.
  unfold Overlay.rollback_transaction, Overlay.lockstep_op; simpl.
  destruct (OverlayedMap.rollback_transaction (top o)); simpl; [|done..].
  destruct (Overlay.on_children _ _); simpl; [|done..].
  by destruct (OverlayedMap.rollback_transaction (offchain o)).
Qed.

Lemma commit_delta (m m' : OverlayedChangeSet) :
  layer_wf m -> OverlayedMap.commit_transaction m = Ok m' -> Overlay.delta m' = Overlay.delta m.
Proof.
  intros (s & R & Hp) Hc. apply map_eq. intros k. rewrite !delta_lookup.
  by eapply commit_value_of.
Qed.

Lemma enter_delta (m m' : OverlayedChangeSet) :
  OverlayedMap.enter_runtime m = Ok m' -> Overlay.delta m' = Overlay.delta m.
Proof. unfold OverlayedMap.enter_runtime. destruct (execution_mode m); [|done]. by intros [= <-]. Qed.

Lemma exit_delta (m m' : OverlayedChangeSet) :
  OverlayedMap.has_open_runtime_transactions m = false ->
  OverlayedMap.exit_runtime m = Ok m' -> Overlay.delta m' = Overlay.delta m.
Proof.
  intros Ho. unfold OverlayedMap.exit_runtime. destruct (execution_mode m); [done|].
  assert (forall fuel, OverlayedMap.rollback_open fuel
    (mkOverlayedMap (changes m) (dirty_keys m) (num_client_transactions m) Client) =
    Ok (mkOverlayedMap (changes m) (dirty_keys m) (num_client_transactions m) Client)) as ->.
  { unfold OverlayedMap.has_open_runtime_transactions in Ho.
    intros []; simpl; unfold OverlayedMap.has_open_runtime_transactions; simpl;
      unfold OverlayedMap.transaction_depth in *; simpl; by rewrite Ho. }
  by intros [= <-].
Qed.

Lemma coherent_storage_root o :
  coherent o -> coherent (Overlay.storage_root o backend state_version).1.
Proof.
  intros Hc. unfold Overlay.storage_root. destruct (storage_transaction_cache o) as [[]|] eqn:Hcache; [done|].
  destruct (full_storage_root _ _ _ _) as [root tx] eqn:Hroot. intros tx' root' [= <- <-]. done.
Qed.

Lemma coherent_child_root o info b v o' r :
  coherent o -> Overlay.child_storage_root decode_u32 o info b v = Ok (o', r) -> coherent o'.
Proof.
  intros Hc. unfold Overlay.child_storage_root.
  destruct (storage_transaction_cache o) eqn:Hcache; [by intros [= <- _]|].
  destruct (children o !! _) as [[cs i]|]; [|by intros [= <- _]].
  destruct (backend_child_storage_root _ _ _ _) as [[root is_empty] ?].
  destruct (Overlay.set_storage _ _ _ _); [|done..]. intros [= <- _]. by apply coherent_no_cache.
Qed.

Lemma coherent_step o c :
  lockstep o -> coherent o -> clean_exit o c = true -> roots_with backend state_version c ->
  coherent (step o c).1.
Proof.
  intros L Hc Hclean Hrw. apply andb_true_iff in Hclean as [Hord Hclean]. destruct c; simpl.
  1-6: apply coherent_total; [intros o'|done].
  - unfold Overlay.set_storage. by destruct (OverlayedMap.set _ _ _ _); intros [= <-].
  - unfold Overlay.value_mut_or_insert_with.
    by destruct (OverlayedMap.modify _ _ _ _ _); intros [= <-].
  - unfold Overlay.set_child_storage.
    destruct (Overlay.child_entry _ _) as [[cs i]| |]; [|done..]; simpl.
    by destruct (OverlayedMap.set _ _ _ _); intros [= <-].
  - destruct (Overlay.clear_child_storage _ _ _) as [[o1 n]| |] eqn:Hcl; intros [= <-].
    by eapply clear_child_cache.
  - unfold Overlay.clear_prefix.
    by destruct (OverlayedMap.clear_where _ _ _) as [[t n]| |]; intros [= <-].
  - destruct (Overlay.clear_child_prefix _ _ _ _) as [[o1 n]| |] eqn:Hcl; intros [= <-].
    by eapply clear_child_cache.
  - apply (coherent_ext o); [done|by apply delta_changes| |done].
    unfold Overlay.child_delta; simpl. apply map_eq. intros k. rewrite !lookup_fmap.
    by destruct (children o !! k).
  - apply (coherent_lockstep_op _ shape_close); [|by intros; eapply commit_delta|done..].
    intros K V E C m Hwf; exact (law_commit m Hwf).
  - apply coherent_no_cache, rollback_cache.
  - apply (coherent_lockstep_op _ shape_enter); [|by intros; eapply enter_delta|done..].
    intros K V E C m Hwf; exact (law_enter m Hwf).
  - apply (coherent_lockstep_op _ shape_exit); [| |done..].
    + intros K V E C m Hwf; exact (law_exit m Hwf).
    + intros m m' Hwf Hsh Hex. revert Hex. injection Hsh as Hd Hcl Hm. apply negb_true_iff in Hclean.
      unfold OverlayedMap.has_open_runtime_transactions in Hclean.
      destruct (execution_mode m) eqn:Hmode; [by unfold OverlayedMap.exit_runtime; rewrite Hmode|].
      apply exit_delta. unfold OverlayedMap.has_open_runtime_transactions.
      rewrite <- Hm in Hcl. simpl in Hcl. by rewrite Hd, Hcl.
  - unfold Overlay.set_offchain_storage. destruct (OverlayedMap.set _ _ _ _); simpl; [|done..].
    by apply (coherent_ext o).
  - by apply (coherent_ext o).
  - by apply (coherent_ext o).
  - destruct Hrw as [-> ->]. by apply coherent_storage_root.
  - destruct (Overlay.child_storage_root _ _ _ _ _) as [[o' r]| |] eqn:Hr; [|done..].
    by apply (coherent_child_root o _ _ _ _ _ Hc Hr).
  - by apply (coherent_ext o).
  - apply bool_decide_eq_true in Hord. unfold total_n.
    destruct (drain_storage_changes_ok o backend0 state_version0 L Hord)
      as (o' & ch & tx & root & -> & _ & Hno & _). by apply coherent_no_cache.
Qed.

Lemma exec_coherent o calls :
  lockstep o -> coherent o -> all_along clean_exit o calls = true ->
  Forall (roots_with backend state_version) calls ->
  exists o', exec o calls = Ok o' /\ lockstep o' /\ coherent o'.
Proof.
  intros L Hc Hcl Hrw. revert o L Hc Hcl.
  induction Hrw as [|c calls Hr Hrw IH]; intros o L Hc Hcl; simpl; [eauto|].
  simpl in Hcl. apply andb_true_iff in Hcl as [Hcl Hcls].
  pose proof Hcl as [Hord _]%andb_true_iff.
  destruct (step_safe o c L Hord) as [L' Hp]. pose proof (coherent_step o c L Hc Hcl Hr) as Hc'.
  destruct (step o c) as [o' [[]|e|]]; simpl in *; auto; done.
Qed.

End coherence.

(** An operation that succeeds on the top layer but not on the reset offchain
    layer fails its [expect]. *)
Lemma drained_op_panics
    (f : forall (K V : Type) (E : EqDecision K) (C : Countable K),
       OverlayedMap K V -> res TxError (OverlayedMap K V)) retain o :
  (forall (K V : Type) (E : EqDecision K) (C : Countable K), exists e, f K V E C OverlayedMap.new = Err e) ->
  (Overlay.lockstep_op f retain o).2 = Ok tt ->
  (Overlay.lockstep_op f retain (Overlay.offchain_drain_committed o).1).2 = Panic.
Proof.
  intros Hf. unfold Overlay.lockstep_op. simpl.
  destruct (f _ _ _ _ (top o)); simpl; [|done..]. intros _.
  destruct (Hf _ _ _ _ : exists e, f _ _ _ _ (OverlayedMap.new : OffchainChanges) = Err e) as [e ->].
  by destruct (Overlay.on_children _ _).
Qed.

(** C21: whatever sequence of storage calls, transactions, runtime entries and
    exits, root computations and drains the overlay sees, as long as it is drained
    only while no transaction is open and the offchain changes alone only outside
    the runtime, nothing panics: none of the lockstep [expect]s on the child and
    offchain changesets fails, no debug assertion on child informations is
    violated and every drain finds its transactions closed; afterwards all layers
    are nested alike. *)
Theorem overlay_calls_never_panic calls :
  all_along orderly Overlay.new calls = true ->
  exists o, exec Overlay.new calls = Ok o /\ lockstep o.
Proof. apply exec_safe, lockstep_new. Qed.

(** C20: as long as every exit from the runtime finds the runtime's transactions
    closed, drains are orderly, and the root is always asked for with the same
    backend and state version, [storage_root] returns the root that backend
    computes from the currently visible changes, whether or not it comes from the
    cache, and between transactions [drain_storage_changes] returns that root
    with its transaction. *)
Theorem storage_root_is_current backend state_version calls :
  all_along clean_exit Overlay.new calls = true ->
  Forall (roots_with backend state_version) calls ->
  exists o, exec Overlay.new calls = Ok o /\
    let now := full_storage_root backend state_version (Overlay.delta (top o)) (Overlay.child_delta o) in
    (Overlay.storage_root o backend state_version).2.1 = now.1 /\
    (Overlay.transaction_depth o = 0 -> exists o' drained,
      Overlay.drain_storage_changes o backend state_version = Ok (o', drained) /\
      (Overlay.transaction_storage_root drained, Overlay.transaction drained) = now).
Proof.
  intros Hcl Hrw. destruct (exec_coherent backend state_version Overlay.new calls lockstep_new)
    as (o & Ho & L & Hc); [done..|].
  exists o. split; [done|]. pose proof (coherent_storage_root _ _ o Hc) as Hcur. split.
  - unfold Overlay.storage_root in *. destruct (storage_transaction_cache o) as [[tx root]|] eqn:Hcache.
    + by rewrite (Hc _ _ Hcache).
    + by destruct (full_storage_root _ _ _ _).
  - intros Hd. destruct (drain_storage_changes_ok o backend state_version L Hd)
      as (o' & drained & tx & root & Heq & _ & _ & Hcache & <- & <-).
    exists o', drained. split; [done|]. rewrite <- (Hcur _ _ Hcache). unfold Overlay.storage_root.
    destruct (storage_transaction_cache o) as [[]|]; [done|].
    by destruct (full_storage_root _ _ (Overlay.delta (top o)) (Overlay.child_delta o)) eqn:Hnow.
Qed.

(** [offchain_drain_committed] resets the offchain layer alone and checks nothing:
    if it is called while a transaction is open or inside the runtime, it
    succeeds, and the commit, rollback or exit from the runtime that would have
    closed the layers afterwards panics. *)
Theorem offchain_drain_breaks_lockstep o :
  let o' := (Overlay.offchain_drain_committed o).1 in
  ((Overlay.commit_transaction o).2 = Ok tt -> (Overlay.commit_transaction o').2 = Panic) /\
  ((Overlay.rollback_transaction o).2 = Ok tt -> (Overlay.rollback_transaction o').2 = Panic) /\
  ((Overlay.exit_runtime o).2 = Ok tt -> (Overlay.exit_runtime o').2 = Panic).
Proof.
  intros o'. split; [|split].
  - apply drained_op_panics. by eexists.
  - apply (drained_op_panics _ _ (Overlay.mark_dirty o)). by eexists.
  - apply drained_op_panics. by eexists.
Qed.
End calls.

(** ** Instances *)
Module OverlayExamples.
(** A backend whose root is the number of changed keys of the top trie plus the
    number of the backend. *)
#[local] Instance count_backend : Backend nat unit nat unit unit := {|
  full_storage_root b _ d _ := (b + size d, tt);
  backend_child_storage_root b _ _ d := (b + size d, false, tt);
  backend_storage _ _ := inr None;
  encode_root r := [Z.of_nat r];
  decode_root l := Z.to_nat <$> head l;
  empty_child_trie_root := 0;
|}.
Definition no_decode (_ : bytes) : option Z := None.

Definition clean_calls : list (call nat unit) :=
  [SetOffchainStorage [1%Z] None; OffchainDrainCommitted; EnterRuntime; StartTransaction;
   SetStorage [1%Z] (Some [2%Z]); SetChildStorage (ParentKeyId [9%Z]) [1%Z] None;
   ChildStorageRoot (ParentKeyId [9%Z]) 3 tt; StorageRoot 3 tt; CommitTransaction; ExitRuntime].

Lemma overlay_calls_never_panic_witness :
  exists o, exec no_decode Overlay.new (clean_calls ++ [DrainStorageChanges 3 tt]) = Ok o /\ lockstep o.
Proof. apply overlay_calls_never_panic. vm_compute. reflexivity. Defined.

Lemma storage_root_is_current_witness :
  exists o, exec no_decode Overlay.new clean_calls = Ok o /\
    (Overlay.storage_root o 3 tt).2.1 = 3 + size (Overlay.delta (top o)).
Proof.
  destruct (storage_root_is_current no_decode 3 tt clean_calls) as (o & Ho & Hr & _).
  - vm_compute. reflexivity.
  - repeat constructor.
  - exists o. split; [exact Ho|exact Hr].
Defined.

(** The offchain changes are drained inside the runtime and inside its
    transaction. *)
Lemma offchain_drain_breaks_lockstep_witness :
  exists o, exec no_decode (Overlay.new : OverlayedChanges nat unit) [EnterRuntime; StartTransaction] = Ok o /\
    (Overlay.commit_transaction (Overlay.offchain_drain_committed o).1).2 = Panic.
Proof.
  eexists. split; [vm_compute; reflexivity|].
  apply (proj1 (offchain_drain_breaks_lockstep _)). vm_compute. reflexivity.
Defined.

(** The runtime asks for the root inside a transaction and returns without
    closing it. *)
Definition dangling_calls : list (call nat unit) :=
  [EnterRuntime; StartTransaction; SetStorage [1%Z] (Some [2%Z]); StorageRoot 0 tt; ExitRuntime].

(** [exit_runtime] rolls back the transactions the runtime left open but
    keeps the cached storage transaction, so afterwards [storage_root] returns a
    root that still contains the dropped writes. *)
Theorem exit_runtime_keeps_stale_root :
  exists o, exec no_decode Overlay.new dangling_calls = Ok o /\
    Overlay.storage o [1%Z] = None /\
    (Overlay.storage_root o 0 tt).2 = (1, true) /\
    (full_storage_root 0 tt (Overlay.delta (top o)) (Overlay.child_delta o)).1 = 0.
Proof. eexists. repeat split; vm_compute; reflexivity. Qed.
End OverlayExamples.
