(* ===== verification/Allocator.v ===== *)
(** * The freeing-bump heap allocator: [sc-allocator], [freeing_bump.rs]

    The allocator manages the linear memory of a wasm instance: blocks of
    power-of-two sizes are cut from a bump region, and freed blocks are kept in
    one intrusive linked list per order whose links live in the memory itself,
    next to the data of the guest.

    Arithmetic is that of the build, [Build]: overflow panics in a debug build and
    wraps around in a release build, which also leaves the debug assertions out.

    The memory is an interface, [Memory], with the documented behaviour of a
    wasm linear memory as its laws; [SparseMemory] is an instance.  The theorems
    show that the blocks handed out never overlap, that freeing and reusing them
    keeps the free lists intact whatever the guest writes into its blocks, and
    that any error poisons the allocator for good. *)
From stdpp Require Import base gmap list.
From Stdlib Require Import ZArith Lia.
From S2P Require Import Prelude.
Set Warnings "-clear-no-such-hyp".

#[local] Open Scope Z_scope.

(** ** Builds *)
Class Build := { debug : bool }.

Section build.
Context `{Build} {E : Type}.

Definition add_w (w a b : Z) : res E Z := if debug then add_u w a b else Ok ((a + b) mod 2 ^ w).
Definition sub_w (w a b : Z) : res E Z := if debug then sub_u a b else Ok ((a - b) mod 2 ^ w).
Definition mul_w (w a b : Z) : res E Z := if debug then mul_u w a b else Ok ((a * b) mod 2 ^ w).
Definition debug_assert (c : bool) : res E unit := if debug && negb c then Panic else Ok tt.

Lemma add_w_ok w a b : 0 <= a + b < 2 ^ w -> add_w w a b = Ok (a + b).
Proof. intros Hab. unfold add_w. destruct debug; [apply add_u_ok; lia|]. by rewrite Z.mod_small. Qed.
Lemma sub_w_ok w a b : 0 <= a - b < 2 ^ w -> sub_w w a b = Ok (a - b).
Proof. intros Hab. unfold sub_w. destruct debug; [apply sub_u_ok; lia|]. by rewrite Z.mod_small. Qed.
Lemma mul_w_ok w a b : 0 <= a * b < 2 ^ w -> mul_w w a b = Ok (a * b).
Proof. intros Hab. unfold mul_w. destruct debug; [apply mul_u_ok; lia|]. by rewrite Z.mod_small. Qed.
Lemma debug_assert_ok c : c = true -> debug_assert c = Ok tt.
Proof. intros ->. unfold debug_assert. by rewrite andb_false_r. Qed.
End build.

(** ** Little-endian integers *)
Fixpoint to_le_bytes (n : nat) (x : Z) : list Z :=
  match n with O => [] | S n' => x mod 256 :: to_le_bytes n' (x / 256) end.

Fixpoint from_le_bytes (bs : list Z) : Z :=
  match bs with [] => 0 | b :: bs' => b + 256 * from_le_bytes bs' end.

Lemma length_to_le_bytes n x : length (to_le_bytes n x) = n.
Proof. revert x; induction n as [|n IH]; intros x; simpl; [done|by rewrite IH]. Qed.

Lemma from_to_le_bytes n x : 0 <= x < 256 ^ Z.of_nat n -> from_le_bytes (to_le_bytes n x) = x.
Proof.
  revert x; induction n as [|n IH]; intros x Hx; simpl; [lia|].
  rewrite Nat2Z.inj_succ, Z.pow_succ_r in Hx by lia.
  rewrite IH; [pose proof (Z.div_mod x 256); lia|].
  split; [apply Z.div_pos; lia|apply Z.div_lt_upper_bound; lia].
Qed.

(** ** Errors, pages and the memory interface *)
Inductive Error :=
| RequestedAllocationTooLarge
| AllocatorOutOfSpace
| MemoryShrinked
| InvalidOrder               (** [Other("invalid order")] *)
| Poisoned                   (** [Other("the allocator has been poisoned")] *)
| InvalidHeaderPointer       (** [Other("Invalid header pointer detected")] *)
| FreeListPointsToOccupied   (** [Other("free list points to a occupied header")] *)
| InvalidPointer             (** [Other("Invalid pointer for deallocation")] *)
| EmptyHeader                (** [Other("the allocation points to an empty header")] *)
| BytesUnderflow             (** [Other("underflow of the currently allocated bytes count")] *)
| ReadOutOfBounds            (** [Other("read out of heap bounds")] *)
| WriteOutOfBounds.          (** [Other("write out of heap bounds")] *)

Definition PAGE_SIZE : Z := 65536.
Definition MAX_WASM_PAGES : Z := 65536.

(** The trait [Memory]: [with_access] gives the slice of [mem_len] bytes
    [mem_byte], [mem_write] is [copy_from_slice] through [with_access_mut]. *)
Class Memory (M : Type) := {
  mem_byte : M -> Z -> Z;
  mem_len : M -> Z;
  mem_write : M -> Z -> list Z -> M;
  mem_grow : M -> Z -> option M;
  mem_pages : M -> Z;
  mem_max_pages : M -> option Z;
  mem_ok : M -> Prop;
}.

(** [memory.max_pages().unwrap_or(MAX_WASM_PAGES)] *)
Definition page_limit `{Memory M} (m : M) : Z := default MAX_WASM_PAGES (mem_max_pages m).

(** What the documentation of the trait requires of a linear memory. *)
Class MemoryLaws (M : Type) `{Memory M} : Prop := {
  law_len m : mem_ok m -> mem_len m = mem_pages m * PAGE_SIZE;
  law_pages m : mem_ok m -> 0 <= mem_pages m <= page_limit m;
  law_limit m : mem_ok m -> page_limit m <= MAX_WASM_PAGES;
  law_byte m i : mem_ok m -> 0 <= i < mem_len m -> 0 <= mem_byte m i < 256;
  law_write_ok m p bs : mem_ok m -> 0 <= p -> p + Z.of_nat (length bs) <= mem_len m ->
    Forall (fun b => 0 <= b < 256) bs ->
    mem_ok (mem_write m p bs) /\ mem_pages (mem_write m p bs) = mem_pages m /\
    mem_max_pages (mem_write m p bs) = mem_max_pages m;
  law_write m p bs i : mem_ok m -> 0 <= p -> p + Z.of_nat (length bs) <= mem_len m ->
    Forall (fun b => 0 <= b < 256) bs -> 0 <= i < mem_len m ->
    mem_byte (mem_write m p bs) i =
      if bool_decide (p <= i < p + Z.of_nat (length bs))
      then default 0 (bs !! Z.to_nat (i - p)) else mem_byte m i;
  law_grow m n m' : mem_ok m -> 0 <= n -> mem_grow m n = Some m' ->
    mem_ok m' /\ mem_pages m' = mem_pages m + n /\ mem_max_pages m' = mem_max_pages m /\
    forall i, 0 <= i < mem_len m -> mem_byte m' i = mem_byte m i;
}.

(** ** [MemoryExt] *)
Definition mem_size `{Memory M} (m : M) : Z := mem_pages m * PAGE_SIZE.

(** The start of the range, when it lies in the heap. *)
Definition heap_range (offset length heap_len : Z) : option Z :=
  e ← checked_add 32 offset length;
  if e <=? heap_len then Some offset else None.

Definition read_le_u64 `{Memory M} (m : M) (ptr : Z) : res Error Z :=
  start ← ok_or ReadOutOfBounds (heap_range ptr 8 (mem_len m));
  Ok (from_le_bytes ((fun i => mem_byte m (start + i)) <$> [0; 1; 2; 3; 4; 5; 6; 7])).

Definition write_le_u64 `{Memory M} (m : M) (ptr val : Z) : res Error M :=
  start ← ok_or WriteOutOfBounds (heap_range ptr 8 (mem_len m));
  Ok (mem_write m start (to_le_bytes 8 val)).

(** ** [Order] *)
Definition ALIGNMENT : Z := 8.
Definition HEADER_SIZE : Z := 8.
Definition N_ORDERS : Z := 23.
Definition MIN_POSSIBLE_ALLOCATION : Z := 8.
Definition MAX_POSSIBLE_ALLOCATION : Z := 33554432.

(** [u32::next_power_of_two] *)
Definition next_power_of_two (x : Z) : Z := 2 ^ Z.log2_up x.

(** [u32::trailing_zeros] *)
Fixpoint count_trailing_zeros (fuel : nat) (x : Z) : Z :=
  match fuel with
  | O => 0
  | S fuel' => if Z.odd x then 0 else 1 + count_trailing_zeros fuel' (x / 2)
  end.
Definition trailing_zeros (x : Z) : Z := count_trailing_zeros 32 x.

Module Order.
Definition from_raw (order : Z) : res Error Z :=
  if order <? N_ORDERS then Ok order else Err InvalidOrder.

Definition from_size (size : Z) : res Error Z :=
  if MAX_POSSIBLE_ALLOCATION <? size then Err RequestedAllocationTooLarge
  else
    let clamped_size := if size <? MIN_POSSIBLE_ALLOCATION then MIN_POSSIBLE_ALLOCATION else size in
    let power_of_two_size := next_power_of_two clamped_size in
    sub_u (trailing_zeros power_of_two_size) (trailing_zeros MIN_POSSIBLE_ALLOCATION).

(** [MIN_POSSIBLE_ALLOCATION << self.0], in 32 bits *)
Definition size (order : Z) : Z := Z.shiftl MIN_POSSIBLE_ALLOCATION order mod 2 ^ 32.
End Order.

(** ** Links, headers and free lists *)
Definition NIL_MARKER : Z := 2 ^ 32 - 1.

Inductive Link := Nil | Ptr (ptr : Z).

Module Link.
Definition from_raw (raw : Z) : Link := if negb (raw =? NIL_MARKER) then Ptr raw else Nil.
Definition into_raw (l : Link) : Z := match l with Nil => NIL_MARKER | Ptr p => p end.
End Link.

Inductive Header := Free (l : Link) | Occupied (order : Z).

Module Header.
(** [0x00000001_00000000] *)
Definition occupied_bit : Z := 4294967296.

Definition read_from `{Memory M} (m : M) (header_ptr : Z) : res Error Header :=
  raw_header ← read_le_u64 m header_ptr;
  let occupied := negb (Z.land raw_header occupied_bit =? 0) in
  let header_data := raw_header mod 2 ^ 32 in
  if occupied : bool
  then order ← Order.from_raw header_data; Ok (Occupied order)
  else Ok (Free (Link.from_raw header_data)).

Definition write_into `{Memory M} (h : Header) (m : M) (header_ptr : Z) : res Error M :=
  let '(header_data, occupied_mask) :=
    match h with
    | Occupied order => (order, occupied_bit)
    | Free link => (Link.into_raw link, 0)
    end in
  write_le_u64 m header_ptr (Z.lor header_data occupied_mask).

Definition into_occupied (h : Header) : option Z :=
  match h with Occupied order => Some order | _ => None end.
Definition into_free (h : Header) : option Link :=
  match h with Free link => Some link | _ => None end.
End Header.

(** [FreeLists { heads: [Link; N_ORDERS] }]; indexing out of bounds panics. *)
Abbreviation FreeLists := (list Link).

Module FreeLists.
Definition new : FreeLists := replicate 23 Nil.
Definition index (f : FreeLists) (order : Z) : res Error Link := expect (f !! Z.to_nat order).
Definition index_mut (f : FreeLists) (order : Z) (l : Link) : res Error FreeLists :=
  if bool_decide (Z.to_nat order < length f)%nat then Ok (<[Z.to_nat order := l]> f) else Panic.
Definition replace (f : FreeLists) (order : Z) (new : Link) : res Error (FreeLists * Link) :=
  prev ← index f order;
  f' ← index_mut f order new;
  Ok (f', prev).
End FreeLists.

Record AllocationStats := mkStats {
  bytes_allocated : Z;
  bytes_allocated_peak : Z;
  bytes_allocated_sum : Z;
  address_space_used : Z;
}.

(** ** The allocator *)
Record Allocator := mkAllocator {
  original_heap_base : Z;
  bumper : Z;
  free_lists : FreeLists;
  poisoned : bool;
  last_observed_memory_size : Z;
  stats : AllocationStats;
}.

Definition pages_from_size (size : Z) : option Z :=
  let p := (size + PAGE_SIZE - 1) / PAGE_SIZE in
  if p <? 2 ^ 32 then Some p else None.

Module FreeingBump.
Section allocator.
Context `{Build} `{Memory M}.

(** The allocator and the memory it is handed. *)
Abbreviation State := (Allocator * M)%type.
Abbreviation Op := (ST (Allocator * M) Error).

Definition new (heap_base : Z) : res Error Allocator :=
  s ← add_w 32 heap_base (ALIGNMENT - 1);
  let aligned_heap_base := s / ALIGNMENT * ALIGNMENT in
  Ok (mkAllocator aligned_heap_base aligned_heap_base FreeLists.new false 0 (mkStats 0 0 0 0)).

Definition set_bumper (b : Z) (a : Allocator) : Allocator :=
  mkAllocator (original_heap_base a) b (free_lists a) (poisoned a) (last_observed_memory_size a) (stats a).
Definition set_free_lists (f : FreeLists) (a : Allocator) : Allocator :=
  mkAllocator (original_heap_base a) (bumper a) f (poisoned a) (last_observed_memory_size a) (stats a).
Definition set_observed (s : Z) (a : Allocator) : Allocator :=
  mkAllocator (original_heap_base a) (bumper a) (free_lists a) (poisoned a) s (stats a).
Definition set_stats (s : AllocationStats) (a : Allocator) : Allocator :=
  mkAllocator (original_heap_base a) (bumper a) (free_lists a) (poisoned a)
    (last_observed_memory_size a) s.
Definition poison (a : Allocator) : Allocator :=
  mkAllocator (original_heap_base a) (bumper a) (free_lists a) true
    (last_observed_memory_size a) (stats a).

Definition observe_memory_size : Op unit :=
  '(a, m) ← st_get;
  if mem_size m <? last_observed_memory_size a then st_lift (Err MemoryShrinked)
  else st_modify (fun s => (set_observed (mem_size m) s.1, s.2)).

(** The part of [bump] that makes room for [required_size] bytes. *)
Definition grow_for (required_size : Z) : Op unit :=
  '(a, m) ← st_get;
  if mem_size m <? required_size then
    required_pages ← st_lift (ok_or AllocatorOutOfSpace (pages_from_size required_size));
    let current_pages := mem_pages m in
    let max_pages := page_limit m in
    _ ← st_lift (debug_assert (current_pages <? required_pages));
    if max_pages <=? current_pages then st_lift (Err AllocatorOutOfSpace)
    else if max_pages <? required_pages then st_lift (Err AllocatorOutOfSpace)
    else
      doubled ← st_lift (mul_w 32 current_pages 2);
      let next_pages := Z.max (Z.min doubled max_pages) required_pages in
      additional ← st_lift (sub_w 32 next_pages current_pages);
      match mem_grow m additional with
      | None => st_lift (Err AllocatorOutOfSpace)
      | Some m' =>
          _ ← st_lift (debug_assert (mem_pages m' =? next_pages));
          st_modify (fun s => (s.1, m'))
      end
  else mret tt.

Definition bump (size : Z) : Op Z :=
  '(a, _) ← st_get;
  _ ← grow_for (bumper a + size);
  bumper' ← st_lift (add_w 32 (bumper a) size);
  _ ← st_modify (fun s => (set_bumper bumper' s.1, s.2));
  mret (bumper a).

(** The [match] on the head of the free list in [allocate]. *)
Definition take_block (order : Z) : Op Z :=
  '(a, m) ← st_get;
  head ← st_lift (FreeLists.index (free_lists a) order);
  match head with
  | Ptr header_ptr =>
      if mem_size m <? header_ptr + Order.size order + HEADER_SIZE
      then st_lift (Err InvalidHeaderPointer)
      else
        h ← st_lift (Header.read_from m header_ptr);
        next_free ← st_lift (ok_or FreeListPointsToOccupied (Header.into_free h));
        f ← st_lift (FreeLists.index_mut (free_lists a) order next_free);
        _ ← st_modify (fun s => (set_free_lists f s.1, s.2));
        mret header_ptr
  | Nil =>
      size ← st_lift (add_w 32 (Order.size order) HEADER_SIZE);
      bump size
  end.

Definition write_header (h : Header) (header_ptr : Z) : Op unit :=
  '(_, m) ← st_get;
  m' ← st_lift (Header.write_into h m header_ptr);
  st_modify (fun s => (s.1, m')).

Definition note_allocation (order : Z) : Op unit :=
  '(a, _) ← st_get;
  size ← st_lift (add_w 32 (Order.size order) HEADER_SIZE);
  allocated ← st_lift (add_w 32 (bytes_allocated (stats a)) size);
  sum ← st_lift (add_w 128 (bytes_allocated_sum (stats a)) size);
  used ← st_lift (sub_w 32 (bumper a) (original_heap_base a));
  st_modify (fun s => (set_stats
    (mkStats allocated (Z.max (bytes_allocated_peak (stats a)) allocated) sum used) s.1, s.2)).

Definition allocate_body (size : Z) : Op Z :=
  _ ← observe_memory_size;
  order ← st_lift (Order.from_size size);
  header_ptr ← take_block order;
  _ ← write_header (Occupied order) header_ptr;
  _ ← note_allocation order;
  st_lift (add_w 32 header_ptr HEADER_SIZE).

Definition deallocate_body (ptr : Z) : Op unit :=
  _ ← observe_memory_size;
  header_ptr ← st_lift (ok_or InvalidPointer (checked_sub ptr HEADER_SIZE));
  '(a, m) ← st_get;
  h ← st_lift (Header.read_from m header_ptr);
  order ← st_lift (ok_or EmptyHeader (Header.into_occupied h));
  '(f, prev_head) ← st_lift (FreeLists.replace (free_lists a) order (Ptr header_ptr));
  _ ← st_modify (fun s => (set_free_lists f s.1, s.2));
  _ ← write_header (Free prev_head) header_ptr;
  '(a, _) ← st_get;
  size ← st_lift (add_w 32 (Order.size order) HEADER_SIZE);
  allocated ← st_lift (ok_or BytesUnderflow (checked_sub (bytes_allocated (stats a)) size));
  st_modify (fun s => (set_stats
    (mkStats allocated (bytes_allocated_peak (stats a)) (bytes_allocated_sum (stats a))
       (address_space_used (stats a))) s.1, s.2)).

(** The [PoisonBomb]: it goes off unless the body returns normally. *)
Definition guarded {A} (body : Op A) : Op A := fun s =>
  if poisoned s.1 then (s, Err Poisoned)
  else match body s with
       | (s', Ok x) => (s', Ok x)
       | (s', r) => ((poison s'.1, s'.2), r)
       end.

Definition allocate (size : Z) : Op Z := guarded (allocate_body size).
Definition deallocate (ptr : Z) : Op unit := guarded (deallocate_body ptr).
End allocator.
End FreeingBump.

(** ** Arithmetic of orders and headers *)
Lemma order_size_pow o : 0 <= o < 23 -> Order.size o = 8 * 2 ^ o.
Proof.
  intros Ho. unfold Order.size. rewrite Z.shiftl_mul_pow2 by lia.
  change MIN_POSSIBLE_ALLOCATION with 8. rewrite Z.mod_small; [done|].
  pose proof (Z.pow_lt_mono_r 2 o 23). pose proof (Z.pow_pos_nonneg 2 o). lia.
Qed.

(** Header and payload of a block. *)
Definition block_size (o : Z) : Z := 8 * 2 ^ o + 8.

Lemma block_size_bounds o : 0 <= o < 23 -> 16 <= block_size o <= 33554440 /\ (8 | block_size o).
Proof.
  intros Ho. unfold block_size. split; [|exists (2 ^ o + 1); lia].
  pose proof (Z.pow_le_mono_r 2 o 22). pose proof (Z.pow_le_mono_r 2 0 o). lia.
Qed.

Lemma order_size_add `{Build} o : 0 <= o < 23 -> add_w (E := Error) 32 (Order.size o) HEADER_SIZE = Ok (block_size o).
Proof.
  intros Ho. rewrite order_size_pow by done. pose proof (block_size_bounds o Ho) as [? _].
  unfold block_size in *. rewrite add_w_ok; unfold HEADER_SIZE in *; [done|lia].
Qed.

Lemma count_trailing_zeros_pow fuel k :
  0 <= k < Z.of_nat fuel -> count_trailing_zeros fuel (2 ^ k) = k.
Proof.
  revert k; induction fuel as [|fuel IH]; intros k Hk; [lia|]. simpl.
  destruct (decide (k = 0)) as [->|Hk0]; [done|].
  replace (2 ^ k) with (2 * 2 ^ (k - 1)).
  2:{ rewrite <- Z.pow_succ_r by lia. f_equal. lia. }
  rewrite Z.odd_mul. simpl. rewrite Z.mul_comm, Z.div_mul by lia. rewrite IH by lia. lia.
Qed.

Lemma from_size_spec size :
  0 <= size <= MAX_POSSIBLE_ALLOCATION ->
  exists o, Order.from_size size = Ok o /\ 0 <= o < 23 /\ size <= 8 * 2 ^ o /\
            (o = 0 \/ 8 * 2 ^ (o - 1) < size).
Proof.
  unfold Order.from_size, MAX_POSSIBLE_ALLOCATION, next_power_of_two, trailing_zeros,
    MIN_POSSIBLE_ALLOCATION. intros Hs.
  case_cmp; [lia|].
  set (c := if size <? 8 then 8 else size). assert (Hc : 8 <= c <= 33554432) by (subst c; case_cmp; lia).
  assert (H3 : 3 <= Z.log2_up c) by (change 3 with (Z.log2_up 8); apply Z.log2_up_le_mono; lia).
  assert (H25 : Z.log2_up c <= 25)
    by (change 25 with (Z.log2_up 33554432); apply Z.log2_up_le_mono; lia).
  rewrite count_trailing_zeros_pow by lia.
  change (count_trailing_zeros 32 8) with 3. rewrite sub_u_ok by lia.
  exists (Z.log2_up c - 3). split; [done|]. split; [lia|].
  destruct (Z.log2_up_spec c) as [Hlo Hhi]; [lia|].
  assert (Hpow : 8 * 2 ^ (Z.log2_up c - 3) = 2 ^ Z.log2_up c).
  { change 8 with (2 ^ 3). rewrite <- Z.pow_add_r by lia. f_equal. lia. }
  split; [rewrite Hpow; subst c; case_cmp; lia|].
  destruct (decide (Z.log2_up c = 3)) as [He|He]; [left; lia|right].
  change 8 with (2 ^ 3). rewrite <- Z.pow_add_r by lia.
  replace (3 + (Z.log2_up c - 3 - 1)) with (Z.pred (Z.log2_up c)) by lia.
  subst c. case_cmp; [|done]. done.
Qed.

Lemma from_size_too_large size :
  MAX_POSSIBLE_ALLOCATION < size -> Order.from_size size = Err RequestedAllocationTooLarge.
Proof. intros Hs. unfold Order.from_size. by rewrite (proj2 (Z.ltb_lt _ _)). Qed.

(** The raw header of a block is below [2^33]. *)
Lemma header_bits d : 0 <= d < 2 ^ 32 -> Z.lor d Header.occupied_bit = d + 2 ^ 32.
Proof.
  intros Hd. change Header.occupied_bit with (2 ^ 32).
  assert (Z.land d (2 ^ 32) = 0) as Hl.
  { apply Z.bits_inj'. intros n Hn. rewrite Z.land_spec, Z.pow2_bits_eqb, Z.bits_0 by lia.
    destruct (Z.eqb_spec 32 n) as [<-|]; [|by rewrite andb_false_r].
    rewrite Z.testbit_eqb by lia. by rewrite Z.div_small by lia. }
  rewrite <- Z.lxor_lor by done. symmetry. by apply Z.add_nocarry_lxor.
Qed.

Lemma land_occupied x : 0 <= x -> (Z.land x Header.occupied_bit =? 0) = negb (Z.odd (x / 2 ^ 32)).
Proof.
  intros Hx. change Header.occupied_bit with (2 ^ 32).
  assert (Z.land x (2 ^ 32) = if Z.odd (x / 2 ^ 32) then 2 ^ 32 else 0) as ->.
  { apply Z.bits_inj'. intros n Hn. rewrite Z.land_spec, Z.pow2_bits_eqb by lia.
    destruct (Z.eqb_spec 32 n) as [<-|Hne].
    - rewrite andb_true_r, <- Z.shiftr_div_pow2, <- Z.bit0_odd, Z.shiftr_spec, Z.add_0_l by lia.
      destruct (Z.testbit x 32); [by rewrite Z.pow2_bits_true by lia|by rewrite Z.bits_0].
    - rewrite andb_false_r. destruct (Z.odd _); [by rewrite Z.pow2_bits_false|by rewrite Z.bits_0]. }
  by destruct (Z.odd _).
Qed.

(** The headers that can be stored. *)
Definition header_valid (h : Header) : Prop :=
  match h with
  | Occupied o => 0 <= o < 23
  | Free Nil => True
  | Free (Ptr p) => 0 <= p < NIL_MARKER
  end.

Definition raw_header (h : Header) : Z :=
  match h with
  | Occupied order => Z.lor order Header.occupied_bit
  | Free link => Z.lor (Link.into_raw link) 0
  end.

Lemma raw_header_range h : header_valid h -> 0 <= raw_header h < 256 ^ Z.of_nat 8.
Proof.
  unfold raw_header, header_valid, Link.into_raw, NIL_MARKER.
  destruct h as [[|p]|o]; intros Hv; rewrite ?Z.lor_0_r; [done|lia|rewrite header_bits; lia].
Qed.

Lemma decode_raw_header h :
  header_valid h ->
  (if negb (Z.land (raw_header h) Header.occupied_bit =? 0)
   then order ← Order.from_raw (raw_header h mod 2 ^ 32); Ok (Occupied order)
   else Ok (Free (Link.from_raw (raw_header h mod 2 ^ 32)))) = Ok h.
Proof.
  intros Hv. pose proof (raw_header_range h Hv). rewrite land_occupied by lia. rewrite negb_involutive.
  unfold raw_header, header_valid, Link.into_raw, NIL_MARKER, Link.from_raw, Order.from_raw, N_ORDERS in *.
  destruct h as [[|p]|o]; rewrite ?Z.lor_0_r.
  - done.
  - rewrite Z.div_small, Z.mod_small by lia. simpl. case_cmp; [unfold NIL_MARKER in *; lia|done].
  - rewrite header_bits by lia.
    replace ((o + 2 ^ 32) / 2 ^ 32) with 1 by (apply (Z.div_unique _ _ _ o); lia).
    replace ((o + 2 ^ 32) mod 2 ^ 32) with o by (apply (Z.mod_unique _ _ 1); lia).
    simpl. case_cmp; [done|lia].
Qed.

(** ** Headers in memory *)
Section headers.
Context `{MemoryLaws M}.
Implicit Types m : M.

Lemma mem_len_size m : mem_ok m -> mem_len m = mem_size m.
Proof. intros Hm. unfold mem_size. by apply law_len. Qed.

Lemma mem_size_limit m : mem_ok m -> 0 <= mem_size m <= page_limit m * PAGE_SIZE.
Proof. intros Hm. pose proof (law_pages m Hm). unfold mem_size, PAGE_SIZE. lia. Qed.

(** The bytes of [m] in [[lo, hi)] are those of [m']. *)
Definition same_bytes m m' (lo hi : Z) : Prop := forall i, lo <= i < hi -> mem_byte m' i = mem_byte m i.

Lemma heap_range_in m p :
  mem_ok m -> 0 <= p -> p + 8 <= mem_size m -> p + 8 < 2 ^ 32 -> heap_range p 8 (mem_len m) = Some p.
Proof.
  intros Hm Hp Hlen H32. unfold heap_range, checked_add. rewrite mem_len_size by done.
  rewrite (proj2 (Z.ltb_lt _ _)) by lia. simpl. by rewrite (proj2 (Z.leb_le _ _)) by lia.
Qed.

Lemma read_header_same m m' p :
  mem_ok m -> mem_ok m' -> 0 <= p -> p + 8 <= mem_size m -> p + 8 <= mem_size m' -> p + 8 < 2 ^ 32 ->
  same_bytes m m' p (p + 8) -> Header.read_from m' p = Header.read_from m p.
Proof.
  intros Hm Hm' Hp Hl Hl' H32 Hb. unfold Header.read_from, read_le_u64.
  rewrite !heap_range_in by done. simpl. by rewrite !Hb by lia.
Qed.

Lemma to_le_bytes_range n x : 0 <= x -> Forall (fun b => 0 <= b < 256) (to_le_bytes n x).
Proof.
  revert x; induction n as [|n IH]; intros x Hx; simpl; constructor.
  - apply Z.mod_pos_bound. lia.
  - apply IH, Z.div_pos; lia.
Qed.

(** Writing a header: it can be read back, and no other byte changes. *)
Lemma write_header_spec m h p :
  mem_ok m -> header_valid h -> 0 <= p -> p + 8 <= mem_size m -> p + 8 < 2 ^ 32 ->
  exists m', Header.write_into h m p = Ok m' /\ mem_ok m' /\
    mem_pages m' = mem_pages m /\ mem_max_pages m' = mem_max_pages m /\
    Header.read_from m' p = Ok h /\
    (forall lo hi, 0 <= lo -> hi <= mem_size m -> hi <= p \/ p + 8 <= lo -> same_bytes m m' lo hi).
Proof.
  intros Hm Hv Hp Hl H32. pose proof (raw_header_range h Hv) as Hr.
  assert (Header.write_into h m p = Ok (mem_write m p (to_le_bytes 8 (raw_header h)))) as ->.
  { unfold Header.write_into, write_le_u64. rewrite heap_range_in by done. by destruct h. }
  assert (Hlen : p + Z.of_nat (length (to_le_bytes 8 (raw_header h))) <= mem_len m)
    by (rewrite length_to_le_bytes, mem_len_size by done; lia).
  assert (Hbs := to_le_bytes_range 8 (raw_header h) ltac:(lia)).
  destruct (law_write_ok m p _ Hm Hp Hlen Hbs) as (Hm' & Hpg & Hmx).
  eexists; split; [done|]. do 3 (split; [done|]). split.
  - unfold Header.read_from, read_le_u64. rewrite heap_range_in; [|done..|unfold mem_size in *; lia|done].
    simpl ok_or. cbn [mbind res_bind].
    assert ((fun i => mem_byte (mem_write m p (to_le_bytes 8 (raw_header h))) (p + i))
              <$> [0; 1; 2; 3; 4; 5; 6; 7] = to_le_bytes 8 (raw_header h)) as ->.
    { assert (Hb : forall i, 0 <= i < 8 ->
        mem_byte (mem_write m p (to_le_bytes 8 (raw_header h))) (p + i) =
        default 0 (to_le_bytes 8 (raw_header h) !! Z.to_nat i)).
      { intros i Hi. rewrite law_write by (try done; rewrite mem_len_size by done; lia).
        rewrite bool_decide_true by (rewrite length_to_le_bytes; lia). do 2 f_equal. lia. }
      unfold fmap, list_fmap. by rewrite !Hb by lia. }
    rewrite from_to_le_bytes by done. by apply decode_raw_header.
  - intros lo hi Hlo Hhi Hdis i Hi. rewrite law_write by (try done; rewrite mem_len_size by done; lia).
    rewrite bool_decide_false; [done|]. rewrite length_to_le_bytes. lia.
Qed.

(** A free list: the blocks [l] linked from [link] through their headers. *)
Fixpoint chain m (link : Link) (l : list Z) : Prop :=
  match l with
  | [] => link = Nil
  | p :: l' => link = Ptr p /\ exists next, Header.read_from m p = Ok (Free next) /\ chain m next l'
  end.

Lemma chain_same m m' link l :
  (forall p, p ∈ l -> Header.read_from m' p = Header.read_from m p) -> chain m link l -> chain m' link l.
Proof.
  revert link. induction l as [|p l IH]; intros link Hs; simpl; [done|].
  intros [-> (next & Hr & Hc)]. split; [done|]. exists next. split.
  - by rewrite Hs by constructor.
  - apply IH; [|done]. intros q Hq. apply Hs. by constructor.
Qed.
End headers.

(** ** The heap invariant *)
Section invariant.
Context `{MemoryLaws M}.
Implicit Types (m : M) (a : Allocator) (live : gmap Z Z) (frees : Z -> list Z).

(** The blocks cut from the bump region: [live] gives the order of every block
    in use by the address of its header, [frees] the free blocks of every order
    in the order of their list. *)
Definition block live frees (p o : Z) : Prop := live !! p = Some o \/ p ∈ frees o.

Definition live_bytes live : Z := map_fold (fun _ o s => block_size o + s) 0 live.
Definition free_bytes frees : Z :=
  sum_Z ((fun o => block_size o * Z.of_nat (length (frees o))) <$> seqZ 0 23).

Record heap a m live frees : Prop := mk_heap {
  heap_mem : mem_ok m;
  heap_observed : last_observed_memory_size a <= mem_size m;
  heap_base : 0 <= original_heap_base a <= bumper a /\ (8 | original_heap_base a) /\ (8 | bumper a);
  heap_bumper : bumper a < 2 ^ 32;
  heap_lists : length (free_lists a) = 23%nat;
  heap_block p o : block live frees p o ->
    0 <= o < 23 /\ original_heap_base a <= p /\ p + block_size o <= bumper a /\
    p + block_size o <= mem_size m /\ (8 | p);
  heap_disjoint p o q o' : block live frees p o -> block live frees q o' -> p <> q ->
    p + block_size o <= q \/ q + block_size o' <= p;
  heap_order p o o' : block live frees p o -> block live frees p o' -> o = o';
  heap_used p o : live !! p = Some o -> p ∉ frees o;
  heap_nodup o : NoDup (frees o);
  heap_chain o : 0 <= o < 23 -> exists head, free_lists a !! Z.to_nat o = Some head /\
    chain m head (frees o);
  heap_live p o : live !! p = Some o -> Header.read_from m p = Ok (Occupied o);
  heap_stats : bytes_allocated (stats a) = live_bytes live;
  heap_bytes : live_bytes live + free_bytes frees = bumper a - original_heap_base a;
}.

(** Only the headers of the blocks matter to the invariant. *)
Lemma heap_memory a m m' live frees :
  heap a m live frees -> mem_ok m' -> mem_size m <= mem_size m' ->
  (forall p o, block live frees p o -> same_bytes m m' p (p + 8)) -> heap a m' live frees.
Proof.
  intros Hh Hm' Hsz Hb. pose proof (heap_bumper _ _ _ _ Hh) as Hbump.
  assert (Hr : forall p o, block live frees p o -> Header.read_from m' p = Header.read_from m p).
  { intros p o Hp. destruct (heap_block _ _ _ _ Hh p o Hp) as (Ho & Hlo & Hhi & Hmem & _).
    pose proof (heap_base _ _ _ _ Hh). pose proof (block_size_bounds o Ho).
    apply read_header_same; [by apply Hh|done|lia|lia|lia|lia|by eapply Hb]. }
  destruct Hh. split; try done.
  - lia.
  - intros p o Hp. specialize (heap_block0 p o Hp). intuition lia.
  - intros o Ho. destruct (heap_chain0 o Ho) as (head & Hhead & Hc). exists head. split; [done|].
    apply (chain_same m); [|done]. intros p Hp. apply (Hr p o). by right.
  - intros p o Hp. rewrite (Hr p o) by by left. auto.
Qed.

(** Fields of the allocator that the invariant does not constrain. *)
Lemma heap_ext a a' m live frees :
  heap a m live frees ->
  original_heap_base a' = original_heap_base a -> bumper a' = bumper a -> free_lists a' = free_lists a ->
  bytes_allocated (stats a') = bytes_allocated (stats a) ->
  last_observed_memory_size a' <= mem_size m -> heap a' m live frees.
Proof. intros [] Hb Hbu Hf Hs Ho. split; rewrite ?Hb, ?Hbu, ?Hf, ?Hs; done. Qed.

Lemma live_bytes_insert live p o :
  live !! p = None -> live_bytes (<[p := o]> live) = block_size o + live_bytes live.
Proof. intros Hp. unfold live_bytes. by rewrite map_fold_insert_L by (done || intros; lia). Qed.

Lemma live_bytes_delete live p o :
  live !! p = Some o -> live_bytes live = block_size o + live_bytes (delete p live).
Proof. intros Hp. unfold live_bytes. by rewrite (map_fold_delete_L _ _ p o) by (done || intros; lia). Qed.

Definition upd frees (o : Z) (l : list Z) : Z -> list Z := fun x => if decide (x = o) then l else frees x.

Lemma free_bytes_upd frees o l :
  0 <= o < 23 ->
  free_bytes (upd frees o l) =
  free_bytes frees + block_size o * (Z.of_nat (length l) - Z.of_nat (length (frees o))).
Proof.
  intros Ho. unfold free_bytes.
  assert (forall os, NoDup os ->
    sum_Z ((fun x => block_size x * Z.of_nat (length (upd frees o l x))) <$> os) =
    sum_Z ((fun x => block_size x * Z.of_nat (length (frees x))) <$> os) +
    (if decide (o ∈ os) then block_size o * (Z.of_nat (length l) - Z.of_nat (length (frees o))) else 0))
    as Hsum.
  { induction os as [|x os IH]; intros Hnd.
    - by rewrite decide_False by apply not_elem_of_nil.
    - apply NoDup_cons in Hnd as [Hx Hnd]. rewrite !fmap_cons. simpl. rewrite IH by done.
      unfold upd at 1. destruct (decide (x = o)) as [->|Hne].
      + rewrite decide_False by done. rewrite decide_True by constructor. lia.
      + destruct (decide (o ∈ os)).
        * rewrite decide_True by (by constructor). lia.
        * rewrite decide_False; [lia|]. rewrite elem_of_cons. naive_solver. }
  rewrite Hsum by apply NoDup_seqZ. rewrite decide_True; [done|]. apply elem_of_seqZ. lia.
Qed.

Lemma block_upd live frees o l p o' :
  block live (upd frees o l) p o' <-> live !! p = Some o' \/ (if decide (o' = o) then p ∈ l else p ∈ frees o').
Proof. unfold block, upd. by destruct (decide (o' = o)). Qed.
End invariant.

(** ** The steps of the operations *)
Section steps.
Context `{Build} `{MemoryLaws M}.
Implicit Types (m : M) (a : Allocator) (live : gmap Z Z) (frees : Z -> list Z).
Import FreeingBump.

(** No 32-bit addition of the allocator wraps around: either overflow is
    checked, or the heap base can be aligned and the memory is limited to fewer
    than the 65536 pages that fill the address space. *)
Definition no_wrap (heap_base limit : Z) : Prop :=
  debug = true \/ (heap_base + (ALIGNMENT - 1) < 2 ^ 32 /\ limit < MAX_WASM_PAGES).

Lemma heap_new hb limit m a :
  mem_ok m -> 0 <= hb -> no_wrap hb limit -> new hb = Ok a ->
  heap a m ∅ (fun _ => []) /\ poisoned a = false /\ hb <= original_heap_base a.
Proof.
  intros Hm Hhb Hnw. unfold new.
  assert (Hsum : add_w (E := Error) 32 hb (ALIGNMENT - 1) = Panic \/
    (hb + 7 < 2 ^ 32 /\ add_w (E := Error) 32 hb (ALIGNMENT - 1) = Ok (hb + 7))).
  { unfold no_wrap, ALIGNMENT in *. destruct (decide (hb + 7 < 2 ^ 32)).
    - right. split; [done|]. apply add_w_ok. lia.
    - left. destruct Hnw as [Hd|[? _]]; [|lia]. unfold add_w, add_u, checked_add. rewrite Hd.
      by rewrite (proj2 (Z.ltb_ge _ _)) by lia. }
  destruct Hsum as [->|[Hs ->]]; [done|]. unfold ALIGNMENT. simpl.
  intros [= <-]. simpl.
  assert (0 <= (hb + 7) / 8 * 8 < 2 ^ 32) as Hb.
  { pose proof (Z.mul_div_le (hb + 7) 8). pose proof (Z.div_pos (hb + 7) 8). lia. }
  assert (hb <= (hb + 7) / 8 * 8) as Hle.
  { pose proof (Z.div_mod (hb + 7) 8). pose proof (Z.mod_pos_bound (hb + 7) 8). lia. }
  split; [|done].
  assert (forall p o, ~ block ∅ (fun _ : Z => []) p o) as Hno.
  { intros p o [?|?%not_elem_of_nil]; [set_solver|done]. }
  assert ((8 | (hb + 7) / 8 * 8)) as Hd by apply Z.divide_factor_r.
  split; simpl; try done; try (intros; exfalso; by eapply Hno); try lia.
  - pose proof (mem_size_limit m Hm). lia.
  - split; [lia|done].
  - intros o. constructor.
  - intros o Ho. exists Nil. split; [|done]. apply (lookup_replicate_2 23 Nil). lia.
  - rewrite Z.sub_diag. done.
Qed.

Lemma observe_ok a m live frees :
  heap a m live frees ->
  observe_memory_size (a, m) = ((set_observed (mem_size m) a, m), Ok tt) /\
  heap (set_observed (mem_size m) a) m live frees.
Proof.
  intros Hh. pose proof (heap_observed _ _ _ _ Hh).
  unfold observe_memory_size, st_get, st_modify, mbind, st_bind. simpl.
  rewrite (proj2 (Z.ltb_ge _ _)) by lia. split; [done|].
  apply (heap_ext a); [done..|simpl; lia].
Qed.

(** Why a request for [r] bytes of address space is refused: they do not fit
    under the page limit, or the host declines to grow the memory. *)
Definition no_room m (r : Z) : Prop :=
  page_limit m * PAGE_SIZE < r \/
  exists n, 0 < n /\ mem_pages m + n <= page_limit m /\ mem_grow m n = None.

(** Making room either succeeds, and then only grows the memory, or reports
    that there is no space; it never panics. *)
Lemma grow_for_spec a m r :
  mem_ok m -> 0 <= r ->
  (exists m', grow_for r (a, m) = ((a, m'), Ok tt) /\ mem_ok m' /\ r <= mem_size m' /\
     mem_size m <= mem_size m' /\ mem_max_pages m' = mem_max_pages m /\
     same_bytes m m' 0 (mem_size m)) \/
  (grow_for r (a, m) = ((a, m), Err AllocatorOutOfSpace) /\ no_room m r).
Proof.
  intros Hm Hr. pose proof (law_pages m Hm) as Hp. pose proof (law_limit m Hm) as Hl.
  unfold grow_for, st_get, st_lift, st_modify, mbind, st_bind, mret, st_ret. simpl.
  destruct (Z.ltb_spec (mem_size m) r) as [Hlt|Hge].
  2:{ left. exists m. repeat split; try done; lia. }
  unfold pages_from_size. set (rp := (r + PAGE_SIZE - 1) / PAGE_SIZE).
  assert (Hrp : (rp - 1) * PAGE_SIZE < r <= rp * PAGE_SIZE /\ mem_pages m < rp).
  { unfold mem_size, PAGE_SIZE in *. subst rp.
    pose proof (Z.div_mod (r + 65536 - 1) 65536). pose proof (Z.mod_pos_bound (r + 65536 - 1) 65536). lia. }
  unfold no_room, mem_size, MAX_WASM_PAGES, PAGE_SIZE in *.
  destruct (Z.ltb_spec rp (2 ^ 32)); simpl; [|right; split; [done|left; lia]].
  rewrite (debug_assert_ok (_ <? _)) by lia.
  destruct (Z.leb_spec (page_limit m) (mem_pages m)); [right; split; [done|left; lia]|].
  destruct (Z.ltb_spec (page_limit m) rp); [right; split; [done|left; lia]|].
  rewrite mul_w_ok, sub_w_ok by lia.
  destruct (mem_grow m _) as [m'|] eqn:Hg.
  2:{ right. split; [done|]. right. eexists. split; [|split; [|exact Hg]]; lia. }
  apply law_grow in Hg as (Hm' & Hpg & Hmx & Hby); [|done|lia].
  rewrite (debug_assert_ok (_ =? _)) by lia. left. exists m'. repeat split; try done.
  - lia.
  - lia.
  - intros i Hi. apply Hby. by rewrite mem_len_size.
Qed.

Lemma bump_spec a m o :
  mem_ok m -> 0 <= bumper a -> 0 <= o < 23 ->
  (exists m', bump (block_size o) (a, m) = ((set_bumper (bumper a + block_size o) a, m'), Ok (bumper a)) /\
     mem_ok m' /\ bumper a + block_size o <= mem_size m' /\ bumper a + block_size o < 2 ^ 32 /\
     mem_size m <= mem_size m' /\ mem_max_pages m' = mem_max_pages m /\
     same_bytes m m' 0 (mem_size m)) \/
  (bump (block_size o) (a, m) = ((a, m), Err AllocatorOutOfSpace) /\ no_room m (bumper a + block_size o)) \/
  (page_limit m = MAX_WASM_PAGES /\ bumper a + block_size o = 2 ^ 32 /\
   exists m', mem_ok m' /\ mem_size m' = 2 ^ 32 /\ mem_max_pages m' = mem_max_pages m /\
     bump (block_size o) (a, m) =
     if debug then ((a, m'), Panic) else ((set_bumper 0 a, m'), Ok (bumper a))).
Proof.
  intros Hm Hb Ho. destruct (block_size_bounds o Ho) as [Hbs _].
  destruct (grow_for_spec a m (bumper a + block_size o) Hm ltac:(lia))
    as [(m' & Hg & Hm' & Hr & Hsz & Hmx & Hby)|[Hg Hno]];
    unfold bump, st_get, st_lift, st_modify, mbind, st_bind, mret, st_ret; simpl; rewrite Hg; simpl;
    [|by auto].
  assert (page_limit m' = page_limit m) as Hpl by (unfold page_limit; by rewrite Hmx).
  pose proof (mem_size_limit m' Hm'). pose proof (law_limit m' Hm'). rewrite Hpl in *.
  unfold MAX_WASM_PAGES, PAGE_SIZE in *.
  destruct (decide (bumper a + block_size o < 2 ^ 32)) as [Hlt|Hge].
  - left. exists m'. rewrite add_w_ok by lia. done.
  - right; right. split; [lia|]. assert (bumper a + block_size o = 2 ^ 32) as Heq by lia. split; [done|].
    exists m'. split; [done|]. split; [lia|]. split; [done|]. unfold add_w, add_u, checked_add. rewrite Heq.
    by destruct debug.
Qed.

(** [m'] is [m] with the header at [p] overwritten. *)
Record header_written m m' (p : Z) (h : Header) : Prop := mk_header_written {
  hw_ok : mem_ok m';
  hw_size : mem_size m' = mem_size m;
  hw_max : mem_max_pages m' = mem_max_pages m;
  hw_read : Header.read_from m' p = Ok h;
  hw_other lo hi : 0 <= lo -> hi <= mem_size m -> hi <= p \/ p + 8 <= lo -> same_bytes m m' lo hi;
}.

Lemma write_header_op a m h p :
  mem_ok m -> header_valid h -> 0 <= p -> p + 8 <= mem_size m -> p + 8 < 2 ^ 32 ->
  exists m', write_header h p (a, m) = ((a, m'), Ok tt) /\ header_written m m' p h.
Proof.
  intros Hm Hv Hp Hs H32. destruct (write_header_spec m h p) as (m' & Hw & Hm' & Hpg & Hmx & Hr & Hby); [done..|].
  exists m'. unfold write_header, st_get, st_lift, st_modify, mbind, st_bind. simpl. rewrite Hw.
  split; [done|]. split; try done. unfold mem_size. by rewrite Hpg.
Qed.

(** Where a block lies. *)
Lemma block_range a m live frees p o :
  heap a m live frees -> block live frees p o ->
  0 <= o < 23 /\ 0 <= p /\ p + 16 <= p + block_size o <= mem_size m /\ p + block_size o < 2 ^ 32 /\
  p <> NIL_MARKER /\ p < bumper a.
Proof.
  intros Hh Hp. destruct (heap_block _ _ _ _ Hh p o Hp) as (Ho & Hlo & Hhi & Hmem & [z Hz]).
  pose proof (block_size_bounds o Ho) as [Hbs _]. pose proof (heap_base _ _ _ _ Hh) as (Hb & _).
  pose proof (heap_bumper _ _ _ _ Hh). unfold NIL_MARKER. repeat split; lia.
Qed.

Lemma headers_other a m m' live frees p o h q o' :
  heap a m live frees -> block live frees p o -> header_written m m' p h ->
  block live frees q o' -> q <> p -> Header.read_from m' q = Header.read_from m q.
Proof.
  intros Hh Hp Hw Hq Hne. destruct (block_range _ _ _ _ _ _ Hh Hp) as (Ho & Hp0 & Hps & Hp32 & _).
  destruct (block_range _ _ _ _ _ _ Hh Hq) as (Ho' & Hq0 & Hqs & Hq32 & _).
  pose proof (heap_disjoint _ _ _ _ Hh p o q o' Hp Hq ltac:(done)) as Hd.
  apply read_header_same; [by apply Hh|apply Hw|lia|lia|rewrite (hw_size _ _ _ _ Hw); lia|lia|].
  apply (hw_other _ _ _ _ Hw); lia.
Qed.

(** The head of a free list is not live, and listed nowhere else. *)
Lemma free_head a m live frees o p l :
  heap a m live frees -> frees o = p :: l ->
  block live frees p o /\ (p ∉ l) /\ NoDup l /\ live !! p = None /\
  (forall o', o' <> o -> p ∉ frees o').
Proof.
  intros Hh Hf. assert (Hp : block live frees p o) by (right; rewrite Hf; constructor).
  pose proof (heap_nodup _ _ _ _ Hh o) as Hnd. rewrite Hf in Hnd. apply NoDup_cons in Hnd as [Hpl Hnd].
  repeat split; [done..| |].
  - destruct (live !! p) as [o2|] eqn:E; [|done]. exfalso.
    assert (o2 = o) as -> by (eapply (heap_order _ _ _ _ Hh); [by left|done]).
    apply (heap_used _ _ _ _ Hh _ _ E). rewrite Hf. constructor.
  - intros o' Hne Hin. apply Hne. eapply (heap_order _ _ _ _ Hh); [by right|done].
Qed.

(** Taking it off its list does not change the set of blocks. *)
Lemma block_take a m live frees o p l q o' :
  heap a m live frees -> frees o = p :: l ->
  block (<[p := o]> live) (upd frees o l) q o' <-> block live frees q o'.
Proof.
  intros Hh Hf. destruct (free_head _ _ _ _ _ _ _ Hh Hf) as (Hp & _).
  rewrite block_upd. unfold block. rewrite lookup_insert.
  destruct (decide (p = q)) as [<-|Hne], (decide (o' = o)) as [->|Hne'].
  - split; [by intros _|]. by left.
  - split; [intros [[= ->]|?]; [done|by right]|]. intros Hb.
    exfalso. apply Hne'. by eapply (heap_order _ _ _ _ Hh).
  - rewrite Hf, elem_of_cons. naive_solver.
  - done.
Qed.

(** A free block of order [o] becomes live. *)
Lemma heap_take a m m' live frees o p l next st :
  heap a m live frees -> 0 <= o < 23 -> frees o = p :: l -> chain m next l ->
  header_written m m' p (Occupied o) -> bytes_allocated st = bytes_allocated (stats a) + block_size o ->
  heap (set_stats st (set_free_lists (<[Z.to_nat o := next]> (free_lists a)) a)) m'
       (<[p := o]> live) (upd frees o l).
Proof.
  intros Hh Ho Hf Hc Hw Hst.
  destruct (free_head _ _ _ _ _ _ _ Hh Hf) as (Hp & Hpl & Hnd & Hnone & Hnotin).
  assert (Hblk := fun q o' => proj1 (block_take _ _ _ _ _ _ _ q o' Hh Hf)).
  pose proof (fun q o' => headers_other _ _ _ _ _ _ _ _ q o' Hh Hp Hw) as Hoth.
  split; simpl.
  - apply Hw.
  - rewrite (hw_size _ _ _ _ Hw). apply Hh.
  - apply Hh.
  - apply Hh.
  - rewrite length_insert. apply Hh.
  - intros q o' Hq%Hblk. rewrite (hw_size _ _ _ _ Hw). by apply (heap_block _ _ _ _ Hh).
  - intros q o' r o'' Hq%Hblk Hr%Hblk. by apply (heap_disjoint _ _ _ _ Hh).
  - intros q o' o'' Hq%Hblk Hr%Hblk. by eapply (heap_order _ _ _ _ Hh).
  - intros q o'. rewrite lookup_insert. unfold upd. destruct (decide (p = q)) as [<-|Hne].
    + intros [= <-]. by rewrite decide_True.
    + intros Hq. pose proof (heap_used _ _ _ _ Hh q o' Hq) as Hu.
      destruct (decide (o' = o)) as [->|]; [|done]. rewrite Hf in Hu. set_solver.
  - intros o'. unfold upd. destruct (decide (o' = o)); [done|apply Hh].
  - intros o' Ho'. unfold upd. pose proof (heap_lists _ _ _ _ Hh) as Hlen.
    destruct (decide (o' = o)) as [->|Hne].
    + exists next. split; [by rewrite list_lookup_insert_eq by lia|].
      apply (chain_same m); [|done]. intros q Hq. apply (Hoth q o); [|set_solver].
      right. rewrite Hf. by constructor.
    + destruct (heap_chain _ _ _ _ Hh o' Ho') as (head & Hhead & Hch). exists head. split.
      * rewrite list_lookup_insert_ne by lia. done.
      * apply (chain_same m); [|done]. intros q Hq. apply (Hoth q o'); [by right|].
        intros ->. by apply (Hnotin o').
  - intros q o'. rewrite lookup_insert. destruct (decide (p = q)) as [<-|Hne].
    + intros [= <-]. apply Hw.
    + intros Hq. rewrite (Hoth q o') by (by left || done). by apply (heap_live _ _ _ _ Hh).
  - rewrite Hst, live_bytes_insert, (heap_stats _ _ _ _ Hh) by done. lia.
  - rewrite live_bytes_insert, free_bytes_upd, Hf by done. simpl length.
    pose proof (heap_bytes _ _ _ _ Hh). lia.
Qed.

(** A new block is cut from the bump region. *)
Lemma heap_extend a m m1 m' live frees o st :
  heap a m live frees -> 0 <= o < 23 ->
  mem_ok m1 -> mem_size m <= mem_size m1 -> same_bytes m m1 0 (mem_size m) ->
  bumper a + block_size o <= mem_size m1 -> bumper a + block_size o < 2 ^ 32 ->
  header_written m1 m' (bumper a) (Occupied o) ->
  bytes_allocated st = bytes_allocated (stats a) + block_size o ->
  heap (set_stats st (set_bumper (bumper a + block_size o) a)) m' (<[bumper a := o]> live) frees /\
  live !! bumper a = None.
Proof.
  intros Hh0 Ho Hm1 Hsz Hby Hroom H32 Hw Hst.
  assert (Hh : heap a m1 live frees).
  { apply (heap_memory a m); [done..|]. intros p o' Hp i Hi. apply Hby.
    pose proof (block_range _ _ _ _ _ _ Hh0 Hp). lia. }
  assert (Hold : forall q o', block live frees q o' -> q < bumper a /\ q + block_size o' <= bumper a).
  { intros q o' Hq. pose proof (block_range _ _ _ _ _ _ Hh Hq).
    pose proof (heap_block _ _ _ _ Hh q o' Hq). lia. }
  assert (Hnone : live !! bumper a = None).
  { destruct (live !! bumper a) as [o'|] eqn:E; [|done].
    destruct (Hold (bumper a) o'); [by left|lia]. }
  assert (Hblk : forall q o', block (<[bumper a := o]> live) frees q o' ->
    (q = bumper a /\ o' = o) \/ block live frees q o').
  { intros q o'. unfold block. rewrite lookup_insert. case_decide; naive_solver. }
  assert (Hread : forall q o', block live frees q o' -> Header.read_from m' q = Header.read_from m1 q).
  { intros q o' Hq. destruct (block_range _ _ _ _ _ _ Hh Hq) as (Ho' & Hq0 & Hqs & Hq32 & _).
    destruct (Hold q o' Hq). apply read_header_same; [done|apply Hw|lia|lia| |lia|].
    - rewrite (hw_size _ _ _ _ Hw). lia.
    - apply (hw_other _ _ _ _ Hw); lia. }
  destruct (block_size_bounds o Ho) as [Hbs Hdiv]. destruct (heap_base _ _ _ _ Hh) as (Hb & Hb8 & Hbu8).
  split; [|done]. split; simpl.
  - apply Hw.
  - rewrite (hw_size _ _ _ _ Hw). apply Hh.
  - repeat split; [lia..|done|by apply Z.divide_add_r].
  - done.
  - apply Hh.
  - rewrite (hw_size _ _ _ _ Hw). intros q o' [[-> ->]|Hq]%Hblk; [repeat split; try lia; done|].
    pose proof (heap_block _ _ _ _ Hh q o' Hq). intuition lia.
  - intros q o' r o'' [[-> ->]|Hq]%Hblk [[-> ->]|Hr]%Hblk Hne; [done|..].
    + right. apply Hold, Hr.
    + left. apply Hold, Hq.
    + by apply (heap_disjoint _ _ _ _ Hh).
  - intros q o' o'' [[-> ->]|Hq]%Hblk [[Heq ->]|Hr]%Hblk; [done|..].
    + destruct (Hold _ _ Hr). lia.
    + destruct (Hold _ _ Hq). lia.
    + by eapply (heap_order _ _ _ _ Hh).
  - intros q o'. rewrite lookup_insert. case_decide as Hq; [|apply (heap_used _ _ _ _ Hh)].
    intros _ Hin. destruct (Hold q o'); [by right|lia].
  - apply Hh.
  - intros o' Ho'. destruct (heap_chain _ _ _ _ Hh o' Ho') as (head & Hhead & Hch). exists head.
    split; [done|]. apply (chain_same m1); [|done]. intros q Hq. apply (Hread q o'). by right.
  - intros q o'. rewrite lookup_insert. case_decide as Hq.
    + intros [= <-]. subst. apply Hw.
    + intros Hlq. rewrite (Hread q o') by by left. by apply (heap_live _ _ _ _ Hh).
  - rewrite Hst, live_bytes_insert, (heap_stats _ _ _ _ Hh) by done. lia.
  - rewrite live_bytes_insert by done. pose proof (heap_bytes _ _ _ _ Hh). lia.
Qed.

(** A live block becomes the head of its free list. *)
Lemma heap_release a m m' live frees o p prev st :
  heap a m live frees -> live !! p = Some o -> free_lists a !! Z.to_nat o = Some prev ->
  header_written m m' p (Free prev) -> bytes_allocated st = bytes_allocated (stats a) - block_size o ->
  heap (set_stats st (set_free_lists (<[Z.to_nat o := Ptr p]> (free_lists a)) a)) m'
       (delete p live) (upd frees o (p :: frees o)).
Proof.
  intros Hh Hp Hprev Hw Hst. assert (Hpb : block live frees p o) by by left.
  destruct (block_range _ _ _ _ _ _ Hh Hpb) as (Ho & _).
  assert (Hnotin : forall o', p ∉ frees o').
  { intros o' Hin. assert (o' = o) as -> by (eapply (heap_order _ _ _ _ Hh); [by right|done]).
    by apply (heap_used _ _ _ _ Hh _ _ Hp). }
  assert (Hblk : forall q o', block (delete p live) (upd frees o (p :: frees o)) q o' -> block live frees q o').
  { intros q o'. rewrite block_upd. unfold block. rewrite lookup_delete.
    destruct (decide (p = q)) as [<-|Hne], (decide (o' = o)) as [->|Hne']; try rewrite elem_of_cons;
      naive_solver. }
  pose proof (fun q o' => headers_other _ _ _ _ _ _ _ _ q o' Hh Hpb Hw) as Hoth.
  split; simpl.
  - apply Hw.
  - rewrite (hw_size _ _ _ _ Hw). apply Hh.
  - apply Hh.
  - apply Hh.
  - rewrite length_insert. apply Hh.
  - intros q o' Hq%Hblk. rewrite (hw_size _ _ _ _ Hw). by apply (heap_block _ _ _ _ Hh).
  - intros q o' r o'' Hq%Hblk Hr%Hblk. by apply (heap_disjoint _ _ _ _ Hh).
  - intros q o' o'' Hq%Hblk Hr%Hblk. by eapply (heap_order _ _ _ _ Hh).
  - intros q o'. rewrite lookup_delete. unfold upd. case_decide; [done|]. intros Hq.
    pose proof (heap_used _ _ _ _ Hh q o' Hq) as Hu.
    destruct (decide (o' = o)) as [->|]; [|done]. rewrite elem_of_cons. naive_solver.
  - intros o'. unfold upd. destruct (decide (o' = o)); [|apply Hh].
    constructor; [apply Hnotin|apply Hh].
  - intros o' Ho'. unfold upd. pose proof (heap_lists _ _ _ _ Hh) as Hlen.
    destruct (heap_chain _ _ _ _ Hh o' Ho') as (head & Hhead & Hch).
    assert (chain m' head (frees o')) as Hch'.
    { apply (chain_same m); [|done]. intros q Hq. apply (Hoth q o'); [by right|].
      intros ->. by apply (Hnotin o'). }
    destruct (decide (o' = o)) as [->|Hne].
    + exists (Ptr p). split; [by rewrite list_lookup_insert_eq by lia|]. simpl.
      split; [done|]. exists prev. split; [apply Hw|]. by simplify_eq.
    + exists head. split; [|done]. by rewrite list_lookup_insert_ne by lia.
  - intros q o'. rewrite lookup_delete. case_decide; [done|]. intros Hq.
    rewrite (Hoth q o') by (by left || done). by apply (heap_live _ _ _ _ Hh).
  - pose proof (live_bytes_delete live p o Hp). pose proof (heap_stats _ _ _ _ Hh). lia.
  - pose proof (live_bytes_delete live p o Hp). rewrite free_bytes_upd by done. simpl length.
    pose proof (heap_bytes _ _ _ _ Hh). lia.
Qed.

Lemma free_bytes_nonneg frees : 0 <= free_bytes frees.
Proof.
  unfold free_bytes. assert (Hos : Forall (fun o => 0 <= o < 23) (seqZ 0 23)).
  { apply Forall_forall. intros o Ho%elem_of_seqZ. lia. }
  induction Hos as [|o os Ho _ IH]; [done|]. rewrite fmap_cons. simpl.
  pose proof (block_size_bounds o Ho) as [? _]. lia.
Qed.

Lemma live_bytes_nonneg live : (forall p o, live !! p = Some o -> 0 <= o < 23) -> 0 <= live_bytes live.
Proof.
  induction live as [|p o live Hp Hfirst IH] using map_first_key_ind; intros Hl; [done|].
  rewrite live_bytes_insert by done.
  assert (0 <= live_bytes live).
  { apply IH. intros q o' Hq. apply (Hl q). rewrite lookup_insert_ne; [done|]. congruence. }
  destruct (block_size_bounds o) as [? _]; [apply (Hl p); by rewrite lookup_insert_eq|]. lia.
Qed.

(** Recording the allocation in the statistics; only the 128-bit running total
    can overflow. *)
Lemma note_allocation_spec a m o :
  0 <= o < 23 -> 0 <= bytes_allocated (stats a) -> bytes_allocated (stats a) + block_size o < 2 ^ 32 ->
  original_heap_base a <= bumper a ->
  (exists st, note_allocation o (a, m) = ((set_stats st a, m), Ok tt) /\
     bytes_allocated st = bytes_allocated (stats a) + block_size o) \/
  (debug = true /\ 2 ^ 128 <= bytes_allocated_sum (stats a) + block_size o /\
   exists s, note_allocation o (a, m) = (s, Panic)).
Proof.
  intros Ho Hb Hs Hbase. unfold note_allocation, st_get, st_lift, st_modify, mbind, st_bind. simpl.
  pose proof (block_size_bounds o Ho) as [Hbs _].
  rewrite order_size_add, add_w_ok by (done || lia). unfold add_w, sub_w. destruct debug.
  - rewrite sub_u_ok by done. destruct (decide (bytes_allocated_sum (stats a) + block_size o < 2 ^ 128)) as [Hsum|Hsum].
    + left. rewrite add_u_ok by done. eexists; split; [done|done].
    + right. split; [done|]. split; [lia|]. unfold add_u, checked_add.
      rewrite (proj2 (Z.ltb_ge _ _)) by lia. simpl. eauto.
  - left. eexists; split; [done|done].
Qed.

(** In a release build the statistics wrap around. *)
Lemma note_allocation_wraps a m o :
  debug = false -> 0 <= o < 23 -> exists st, note_allocation o (a, m) = ((set_stats st a, m), Ok tt).
Proof.
  intros Hd Ho. unfold note_allocation, st_get, st_lift, st_modify, mbind, st_bind. simpl.
  rewrite order_size_add by done. unfold add_w, sub_w. rewrite Hd. eauto.
Qed.

(** ** Outcomes of a request *)
Inductive allocated (size : Z) a m live frees : (Allocator * M) * res Error Z -> Prop :=
| allocated_ok a' m' p o frees' :
    Order.from_size size = Ok o -> 0 <= o < 23 ->
    heap a' m' (<[p := o]> live) frees' -> live !! p = None ->
    frees' = (match frees o with [] => frees | _ :: l => upd frees o l end) ->
    (match frees o with [] => p = bumper a | q :: _ => p = q end) ->
    poisoned a' = poisoned a -> original_heap_base a' = original_heap_base a ->
    mem_size m <= mem_size m' -> mem_max_pages m' = mem_max_pages m ->
    (forall lo hi, 0 <= lo -> hi <= mem_size m -> hi <= p \/ p + 8 <= lo -> same_bytes m m' lo hi) ->
    allocated size a m live frees ((a', m'), Ok (p + 8))
| allocated_too_large a' :
    MAX_POSSIBLE_ALLOCATION < size -> allocated size a m live frees ((a', m), Err RequestedAllocationTooLarge)
| allocated_no_space a' o :
    Order.from_size size = Ok o -> frees o = [] -> no_room m (bumper a + block_size o) ->
    allocated size a m live frees ((a', m), Err AllocatorOutOfSpace)
| allocated_wrapped a' m' o :
    debug = false -> Order.from_size size = Ok o -> frees o = [] -> page_limit m = MAX_WASM_PAGES ->
    bumper a + block_size o = 2 ^ 32 -> bumper a' = 0 ->
    allocated size a m live frees ((a', m'), Ok (bumper a + 8))
| allocated_overflow s :
    debug = true -> page_limit m = MAX_WASM_PAGES \/
    2 ^ 128 <= bytes_allocated_sum (stats a) + MAX_POSSIBLE_ALLOCATION + HEADER_SIZE ->
    allocated size a m live frees (s, Panic).

(** The last part of [allocate], once a block has been found. *)
Definition finish_allocation (order header_ptr : Z) : ST (Allocator * M) Error Z :=
  _ ← write_header (Occupied order) header_ptr;
  _ ← note_allocation order;
  st_lift (add_w 32 header_ptr HEADER_SIZE).

Lemma finish_spec a m o p :
  mem_ok m -> 0 <= o < 23 -> 0 <= p -> p + 8 <= mem_size m -> p + 8 < 2 ^ 32 ->
  0 <= bytes_allocated (stats a) -> bytes_allocated (stats a) + block_size o < 2 ^ 32 ->
  original_heap_base a <= bumper a ->
  (exists m' st, finish_allocation o p (a, m) = ((set_stats st a, m'), Ok (p + 8)) /\
     header_written m m' p (Occupied o) /\
     bytes_allocated st = bytes_allocated (stats a) + block_size o) \/
  (debug = true /\ 2 ^ 128 <= bytes_allocated_sum (stats a) + block_size o /\
   exists s, finish_allocation o p (a, m) = (s, Panic)).
Proof.
  intros Hm Ho Hp Hs H32 Hb0 Hb Hbase. unfold finish_allocation.
  destruct (write_header_op a m (Occupied o) p) as (m' & Hw & Hhw); [done..|].
  rewrite (st_bind_ok _ _ _ _ _ Hw).
  destruct (note_allocation_spec a m' o Ho Hb0 Hb Hbase) as [(st & Hn & Hst)|(Hd & Hov & s & Hn)].
  - left. rewrite (st_bind_ok _ _ _ _ _ Hn). exists m', st.
    unfold st_lift. rewrite add_w_ok by (unfold HEADER_SIZE; lia). done.
  - right. do 2 (split; [done|]). exists s. unfold mbind, st_bind. by rewrite Hn.
Qed.

Lemma finish_wraps a m o p :
  debug = false -> mem_ok m -> 0 <= o < 23 -> 0 <= p -> p + 8 <= mem_size m -> p + 8 < 2 ^ 32 ->
  exists a' m', finish_allocation o p (a, m) = ((a', m'), Ok (p + 8)) /\ bumper a' = bumper a.
Proof.
  intros Hd Hm Ho Hp Hs H32. unfold finish_allocation.
  destruct (write_header_op a m (Occupied o) p) as (m' & Hw & _); [done..|].
  rewrite (st_bind_ok _ _ _ _ _ Hw). destruct (note_allocation_wraps a m' o Hd Ho) as [st Hn].
  rewrite (st_bind_ok _ _ _ _ _ Hn). exists (set_stats st a), m'.
  unfold st_lift. by rewrite add_w_ok by (unfold HEADER_SIZE; lia).
Qed.

(** Taking a block off its free list. *)
Lemma take_block_free a m live frees o p l :
  heap a m live frees -> 0 <= o < 23 -> frees o = p :: l ->
  exists next, chain m next l /\
    take_block o (a, m) =
      ((set_free_lists (<[Z.to_nat o := next]> (free_lists a)) a, m), Ok p).
Proof.
  intros Hh Ho Hf. destruct (heap_chain _ _ _ _ Hh o Ho) as (head & Hhead & Hch).
  rewrite Hf in Hch. destruct Hch as [-> (next & Hr & Hch)]. exists next. split; [done|].
  destruct (free_head _ _ _ _ _ _ _ Hh Hf) as (Hp & _).
  destruct (block_range _ _ _ _ _ _ Hh Hp) as (_ & Hp0 & Hps & Hp32 & _).
  unfold take_block, FreeLists.index, FreeLists.index_mut, st_get, st_lift, st_modify, mbind, st_bind.
  simpl. rewrite Hhead. simpl. rewrite order_size_pow by done. unfold block_size, HEADER_SIZE in *.
  rewrite (proj2 (Z.ltb_ge _ _)) by lia. rewrite Hr. simpl.
  rewrite bool_decide_true by (rewrite (heap_lists _ _ _ _ Hh); lia). done.
Qed.

Lemma take_block_bump a m live frees o :
  heap a m live frees -> 0 <= o < 23 -> frees o = [] ->
  take_block o (a, m) = bump (block_size o) (a, m).
Proof.
  intros Hh Ho Hf. destruct (heap_chain _ _ _ _ Hh o Ho) as (head & Hhead & Hch).
  rewrite Hf in Hch. simpl in Hch. subst head.
  unfold take_block, FreeLists.index, st_get, st_lift, mbind at 1 2 3, st_bind at 1 2 3.
  simpl. rewrite Hhead. simpl. unfold mbind, st_bind. by rewrite order_size_add.
Qed.

(** The statistics of a heap do not overflow when a block is handed out. *)
Lemma stats_room a m live frees :
  heap a m live frees ->
  0 <= bytes_allocated (stats a) /\ original_heap_base a <= bumper a /\
  bytes_allocated (stats a) + free_bytes frees <= bumper a < 2 ^ 32.
Proof.
  intros Hh. pose proof (heap_stats _ _ _ _ Hh) as Hs. pose proof (heap_bytes _ _ _ _ Hh).
  pose proof (heap_base _ _ _ _ Hh) as (? & _). pose proof (heap_bumper _ _ _ _ Hh).
  assert (0 <= live_bytes live).
  { apply live_bytes_nonneg. intros p o Hp. apply (heap_block _ _ _ _ Hh p o). by left. }
  lia.
Qed.

Lemma free_bytes_head frees o p l :
  0 <= o < 23 -> frees o = p :: l -> block_size o <= free_bytes frees.
Proof.
  intros Ho Hf. pose proof (free_bytes_upd frees o l Ho) as Hu. rewrite Hf in Hu. simpl length in Hu.
  pose proof (free_bytes_nonneg (upd frees o l)). lia.
Qed.

Lemma sum_overflow x o :
  0 <= o < 23 -> 2 ^ 128 <= x + block_size o -> 2 ^ 128 <= x + MAX_POSSIBLE_ALLOCATION + HEADER_SIZE.
Proof.
  intros Ho. pose proof (block_size_bounds o Ho) as [? _]. unfold MAX_POSSIBLE_ALLOCATION, HEADER_SIZE. lia.
Qed.

Lemma allocate_reused a m live frees size o p l :
  heap a m live frees -> Order.from_size size = Ok o -> 0 <= o < 23 -> frees o = p :: l ->
  allocated size a m live frees ((header_ptr ← take_block o; finish_allocation o header_ptr) (a, m)).
Proof.
  intros Hh Hfs Ho Hf. destruct (take_block_free _ _ _ _ _ _ _ Hh Ho Hf) as (next & Hc & Htake).
  rewrite (st_bind_ok _ _ _ _ _ Htake).
  destruct (free_head _ _ _ _ _ _ _ Hh Hf) as (Hp & _ & _ & Hnone & _).
  destruct (block_range _ _ _ _ _ _ Hh Hp) as (_ & Hp0 & Hps & Hp32 & _).
  pose proof (stats_room _ _ _ _ Hh) as (Hs0 & Hbase & Hs). pose proof (free_bytes_head _ _ _ _ Ho Hf).
  destruct (finish_spec (set_free_lists (<[Z.to_nat o := next]> (free_lists a)) a) m o p)
    as [(m' & st & Hfin & Hw & Hst)|(Hd & Hov & s & Hfin)]; simpl; try done; try lia; [by apply Hh|..].
  - rewrite Hfin. apply (allocated_ok _ _ _ _ _ _ _ _ o (upd frees o l)); rewrite ?Hf; try done.
    + by apply (heap_take _ m).
    + rewrite (hw_size _ _ _ _ Hw). lia.
    + apply Hw.
    + apply Hw.
  - rewrite Hfin. apply allocated_overflow; [done|]. right. by apply (sum_overflow _ o).
Qed.

Lemma allocate_bumped a m live frees size o :
  heap a m live frees -> Order.from_size size = Ok o -> 0 <= o < 23 -> frees o = [] ->
  allocated size a m live frees ((header_ptr ← take_block o; finish_allocation o header_ptr) (a, m)).
Proof.
  intros Hh Hfs Ho Hf. unfold mbind, st_bind. rewrite (take_block_bump _ _ _ _ _ Hh Ho Hf).
  pose proof (stats_room _ _ _ _ Hh) as (Hs0 & Hbase & Hs). pose proof (free_bytes_nonneg frees).
  pose proof (heap_base _ _ _ _ Hh) as (Hb0 & _). destruct (block_size_bounds o Ho) as [Hbs _].
  destruct (bump_spec a m o) as [(m1 & Hb & Hm1 & Hr & H32 & Hsz & Hmx & Hby)|[[Hb Hno]|(Hpl & Heq & m1 & Hm1 & Hsz & _ & Hb)]];
    [by apply Hh|lia|done| | |]; rewrite Hb.
  2:{ by apply (allocated_no_space _ _ _ _ _ _ o). }
  2:{ destruct debug eqn:Hd; [apply allocated_overflow; [done|by left]|].
      destruct (finish_wraps (set_bumper 0 a) m1 o (bumper a)) as (a' & m' & -> & Hb'); try done; try lia.
      by apply (allocated_wrapped _ _ _ _ _ _ _ o). }
  destruct (finish_spec (set_bumper (bumper a + block_size o) a) m1 o (bumper a))
    as [(m' & st & Hfin & Hw & Hst)|(Hd & Hov & s & Hfin)]; simpl; try done; try lia.
  - rewrite Hfin. destruct (heap_extend a m m1 m' live frees o st) as [Hh' Hnone]; try done.
    apply (allocated_ok _ _ _ _ _ _ _ _ o frees); rewrite ?Hf; try done.
    + rewrite (hw_size _ _ _ _ Hw). lia.
    + by rewrite (hw_max _ _ _ _ Hw).
    + intros lo hi Hlo Hhi Hd i Hi. rewrite (hw_other _ _ _ _ Hw lo hi) by lia. apply Hby. lia.
  - rewrite Hfin. apply allocated_overflow; [done|]. right. by apply (sum_overflow _ o).
Qed.

Lemma allocated_observed size n a m live frees out :
  allocated size (set_observed n a) m live frees out -> allocated size a m live frees out.
Proof.
  destruct 1; [by eapply allocated_ok|by eapply allocated_too_large|by eapply allocated_no_space|
    by eapply (allocated_wrapped _ a)|by eapply allocated_overflow].
Qed.

Lemma allocate_body_spec a m live frees size :
  heap a m live frees -> 0 <= size -> allocated size a m live frees (allocate_body size (a, m)).
Proof.
  intros Hh Hsz. unfold allocate_body. destruct (observe_ok a m live frees Hh) as [Hobs Hh1].
  rewrite (st_bind_ok _ _ _ _ _ Hobs). clear Hobs.
  destruct (decide (size <= MAX_POSSIBLE_ALLOCATION)) as [Hmax|Hmax].
  2:{ unfold st_lift, mbind, st_bind. rewrite from_size_too_large by lia.
      apply allocated_too_large. lia. }
  destruct (from_size_spec size) as (o & Hfs & Ho & _); [lia|].
  rewrite (st_lift_ok _ _ _ _ Hfs). apply (allocated_observed _ (mem_size m)).
  destruct (frees o) as [|p l] eqn:Hf; [by apply allocate_bumped|by apply (allocate_reused _ _ _ _ _ _ p l)].
Qed.

Lemma head_valid a m live frees o head :
  heap a m live frees -> chain m head (frees o) -> header_valid (Free head).
Proof.
  intros Hh Hc. destruct (frees o) as [|q l] eqn:Hf; [by rewrite Hc|]. destruct Hc as [-> _].
  destruct (free_head _ _ _ _ _ _ _ Hh Hf) as (Hq & _).
  pose proof (block_range _ _ _ _ _ _ Hh Hq). unfold header_valid, NIL_MARKER in *. lia.
Qed.

Lemma live_bytes_lookup a m live frees p o :
  heap a m live frees -> live !! p = Some o -> block_size o <= bytes_allocated (stats a).
Proof.
  intros Hh Hp. rewrite (heap_stats _ _ _ _ Hh), (live_bytes_delete _ _ _ Hp).
  assert (0 <= live_bytes (delete p live)); [|lia]. apply live_bytes_nonneg.
  intros q o' [_ Hq]%lookup_delete_Some. apply (heap_block _ _ _ _ Hh q o'). by left.
Qed.

Lemma deallocate_body_spec a m live frees p o :
  heap a m live frees -> live !! p = Some o ->
  exists a' m', deallocate_body (p + 8) (a, m) = ((a', m'), Ok tt) /\
    heap a' m' (delete p live) (upd frees o (p :: frees o)) /\ poisoned a' = poisoned a /\
    original_heap_base a' = original_heap_base a /\ mem_size m' = mem_size m /\ mem_max_pages m' = mem_max_pages m /\
    bytes_allocated_sum (stats a') = bytes_allocated_sum (stats a) /\
    (forall lo hi, 0 <= lo -> hi <= mem_size m -> hi <= p \/ p + 8 <= lo -> same_bytes m m' lo hi).
Proof.
  intros Hh0 Hp. unfold deallocate_body. destruct (observe_ok a m live frees Hh0) as [Hobs Hh].
  rewrite (st_bind_ok _ _ _ _ _ Hobs). clear Hobs Hh0. set (a1 := set_observed (mem_size m) a) in *.
  destruct (block_range _ _ _ _ p o Hh) as (Ho & Hp0 & Hps & Hp32 & Hnil & _); [by left|].
  destruct (heap_chain _ _ _ _ Hh o Ho) as (prev & Hprev & Hch).
  destruct (write_header_op (set_free_lists (<[Z.to_nat o := Ptr p]> (free_lists a1)) a1) m (Free prev) p)
    as (m' & Hw & Hhw); [by apply Hh| |lia..|].
  { by apply (head_valid _ _ _ _ _ _ Hh Hch). }
  change (free_lists a !! Z.to_nat o = Some prev) in Hprev.
  unfold HEADER_SIZE, checked_sub. rewrite (proj2 (Z.leb_le _ _)) by lia.
  rewrite (st_lift_ok _ _ _ (p + 8 - 8)) by done. replace (p + 8 - 8) with p by lia.
  erewrite st_bind_ok by done. simpl.
  rewrite (st_lift_ok _ _ _ (Occupied o)) by by apply (heap_live _ _ _ _ Hh).
  rewrite (st_lift_ok _ _ _ o) by done.
  rewrite (st_lift_ok _ _ _ (<[Z.to_nat o := Ptr p]> (free_lists a1), prev)).
  2:{ unfold FreeLists.replace, FreeLists.index, FreeLists.index_mut. rewrite Hprev. simpl.
      rewrite bool_decide_true; [done|]. pose proof (heap_lists _ _ _ _ Hh) as Hl. simpl in Hl. lia. }
  erewrite st_bind_ok by done. erewrite st_bind_ok by exact Hw.
  erewrite st_bind_ok by done. simpl.
  rewrite (st_lift_ok _ _ _ (block_size o)) by by apply order_size_add.
  rewrite (st_lift_ok _ _ _ (bytes_allocated (stats a) - block_size o)).
  2:{ unfold checked_sub. rewrite (proj2 (Z.leb_le _ _)); [done|].
      by apply (live_bytes_lookup _ _ _ _ p o Hh). }
  do 2 eexists; split; [done|]. split; [by refine (heap_release a1 m m' live frees o p prev _ Hh Hp Hprev Hhw _)|].
  repeat split; try apply Hhw.
Qed.
End steps.

(** ** Clients

    A runtime starts from a fresh allocator above [hb] in a memory limited to
    [limit] pages, asks for memory, gives blocks back and writes into the
    regions it owns (or below the heap).  [regions] maps a pointer that was
    handed out to the size that was asked for. *)
Section clients.
Context `{Build} `{MemoryLaws M}.
Implicit Types (m : M) (a : Allocator) (live regions : gmap Z Z) (frees : Z -> list Z).
Import FreeingBump.

Definition owned regions (i : Z) : Prop :=
  exists ptr size, regions !! ptr = Some size /\ ptr <= i < ptr + size.

Inductive exec (hb limit : Z) : Allocator -> M -> gmap Z Z -> Prop :=
| exec_new m a :
    mem_ok m -> page_limit m = limit -> 0 <= hb -> new hb = Ok a -> exec hb limit a m ∅
| exec_alloc a m regions size a' m' ptr :
    exec hb limit a m regions -> 0 <= size -> allocate size (a, m) = ((a', m'), Ok ptr) ->
    exec hb limit a' m' (<[ptr := size]> regions)
| exec_free a m regions ptr size a' m' :
    exec hb limit a m regions -> regions !! ptr = Some size ->
    deallocate ptr (a, m) = ((a', m'), Ok tt) -> exec hb limit a' m' (delete ptr regions)
| exec_write a m regions m' :
    exec hb limit a m regions -> mem_ok m' -> mem_size m <= mem_size m' -> mem_max_pages m' = mem_max_pages m ->
    (forall i, 0 <= i < mem_size m -> mem_byte m' i <> mem_byte m i ->
       owned regions i \/ i < original_heap_base a) ->
    exec hb limit a m' regions.

(** The blocks behind the regions. *)
Definition backed live regions : Prop := forall ptr size, regions !! ptr = Some size ->
  0 <= size /\ exists o, Order.from_size size = Ok o /\ live !! (ptr - 8) = Some o.

Lemma from_size_fits size o : 0 <= size -> Order.from_size size = Ok o -> 0 <= o < 23 /\ size <= 8 * 2 ^ o.
Proof.
  intros Hs Ho. destruct (decide (size <= MAX_POSSIBLE_ALLOCATION)).
  - destruct (from_size_spec size) as (o' & Ho' & ? & ? & _); [lia|]. rewrite Ho in Ho'. by simplify_eq.
  - rewrite from_size_too_large in Ho by lia. done.
Qed.

(** A region lies in the payload of its block. *)
Lemma region_block a m live frees regions ptr size :
  heap a m live frees -> backed live regions -> regions !! ptr = Some size ->
  exists o, live !! (ptr - 8) = Some o /\ Order.from_size size = Ok o /\ 0 <= o < 23 /\ 0 <= size /\
    ptr + size <= ptr - 8 + block_size o.
Proof.
  intros Hh Hb Hr. destruct (Hb ptr size Hr) as (Hs & o & Hfs & Hl). exists o.
  destruct (from_size_fits _ _ Hs Hfs). unfold block_size. repeat split; try done; lia.
Qed.

Lemma backed_insert live regions p o size :
  backed live regions -> live !! p = None -> 0 <= size -> Order.from_size size = Ok o ->
  backed (<[p := o]> live) (<[p + 8 := size]> regions).
Proof.
  intros Hb Hp Hs Hfs ptr sz. rewrite lookup_insert. destruct (decide (p + 8 = ptr)) as [<-|Hne].
  - intros [= <-]. split; [done|]. exists o. replace (p + 8 - 8) with p by lia. by rewrite lookup_insert_eq.
  - intros Hr. destruct (Hb ptr sz Hr) as (Hsz & o' & Ho' & Hl). split; [done|]. exists o'.
    rewrite lookup_insert_ne; [done|lia].
Qed.

Lemma backed_delete live regions ptr :
  backed live regions -> backed (delete (ptr - 8) live) (delete ptr regions).
Proof.
  intros Hb q sz [Hne Hr]%lookup_delete_Some. destruct (Hb q sz Hr) as (Hsz & o' & Ho' & Hl).
  split; [done|]. exists o'. rewrite lookup_delete_ne; [done|lia].
Qed.

(** Writes of the client do not touch a header. *)
Lemma heap_client_write a m m' live frees regions :
  heap a m live frees -> backed live regions -> mem_ok m' -> mem_size m <= mem_size m' ->
  (forall i, 0 <= i < mem_size m -> mem_byte m' i <> mem_byte m i ->
       owned regions i \/ i < original_heap_base a) ->
  heap a m' live frees.
Proof.
  intros Hh Hb Hm' Hsz Hw. apply (heap_memory a m); [done..|]. intros p o Hp i Hi.
  destruct (block_range _ _ _ _ _ _ Hh Hp) as (Ho & Hp0 & Hps & _).
  destruct (heap_block _ _ _ _ Hh _ _ Hp) as (_ & Hbase & _).
  destruct (decide (mem_byte m' i = mem_byte m i)) as [|Hne]; [done|]. exfalso.
  destruct (Hw i) as [(ptr & size & Hr & Hin)|Hlow]; [lia|done| |lia].
  destruct (region_block _ _ _ _ _ _ _ Hh Hb Hr) as (o' & Hl & _ & Ho' & Hs & Hfit).
  destruct (decide (p = ptr - 8)) as [->|Hpq]; [lia|].
  assert (Hq : block live frees (ptr - 8) o') by by left.
  pose proof (heap_disjoint _ _ _ _ Hh _ _ _ _ Hp Hq Hpq). lia.
Qed.

Lemma guarded_ok {A} (body : ST (Allocator * M) Error A) s s' x :
  guarded body s = (s', Ok x) -> poisoned s.1 = false /\ body s = (s', Ok x).
Proof.
  unfold guarded. destruct (poisoned s.1); [done|]. destruct (body s) as [s1 [| |]]; by intros [= -> ->].
Qed.

(** What a successful request gives. *)
Lemma allocate_ok_inv hb a m live frees size a' m' ptr :
  heap a m live frees -> no_wrap hb (page_limit m) -> 0 <= size -> allocate size (a, m) = ((a', m'), Ok ptr) ->
  exists p o frees', ptr = p + 8 /\ Order.from_size size = Ok o /\ 0 <= o < 23 /\
    heap a' m' (<[p := o]> live) frees' /\ live !! p = None /\ poisoned a' = poisoned a /\
    mem_size m <= mem_size m' /\ page_limit m' = page_limit m /\ original_heap_base a' = original_heap_base a /\
    (forall lo hi, 0 <= lo -> hi <= mem_size m -> hi <= p \/ p + 8 <= lo -> same_bytes m m' lo hi) /\
    (match frees o with [] => p = bumper a | q :: _ => p = q end).
Proof.
  intros Hh Hnw Hs [_ Hal]%guarded_ok. pose proof (allocate_body_spec _ _ _ _ size Hh Hs) as Hspec.
  rewrite Hal in Hspec. inversion Hspec as [a2 m2 p o frees' ? ? ? ? ? ? ? ? ? Hmx| | |? ? ? Hd ? ? Hpl|]; subst.
  - exists p, o. eexists. split; [done|]. unfold page_limit. rewrite Hmx. do 2 (split; [done|]). split; [eassumption|].
    by do 6 (split; [done|]).
  - unfold no_wrap in Hnw. destruct Hnw as [?|[_ ?]]; [congruence|lia].
Qed.

(** Giving a live block back always works. *)
Lemma deallocate_live a m live frees p o :
  heap a m live frees -> poisoned a = false -> live !! p = Some o ->
  exists a' m', deallocate (p + 8) (a, m) = ((a', m'), Ok tt) /\
    heap a' m' (delete p live) (upd frees o (p :: frees o)) /\ poisoned a' = false /\
    original_heap_base a' = original_heap_base a /\ mem_size m' = mem_size m /\ page_limit m' = page_limit m /\
    (forall lo hi, 0 <= lo -> hi <= mem_size m -> hi <= p \/ p + 8 <= lo -> same_bytes m m' lo hi).
Proof.
  intros Hh Hp Hl. destruct (deallocate_body_spec _ _ _ _ _ _ Hh Hl) as (a' & m' & Hd & Hh' & Hpo & Hob & Hsz & Hmx & _ & Hby).
  exists a', m'. unfold deallocate, guarded, page_limit. simpl. rewrite Hp, Hd, Hpo, Hmx. done.
Qed.

Lemma region_live live regions ptr size :
  backed live regions -> regions !! ptr = Some size -> exists p o, ptr = p + 8 /\ live !! p = Some o.
Proof. intros Hb Hr. destruct (Hb ptr size Hr) as (_ & o & _ & Hl). exists (ptr - 8), o. split; [lia|done]. Qed.

Lemma exec_heap hb limit a m regions :
  exec hb limit a m regions -> no_wrap hb limit -> exists live frees,
    heap a m live frees /\ backed live regions /\ poisoned a = false /\
    hb <= original_heap_base a /\ page_limit m = limit.
Proof.
  intros Hex Hnw. induction Hex as [m a Hm Hpl Hhb Hn|
    a m regions size a' m' ptr _ (live & frees & Hh & Hb & Hp & Hhb & Hpl) Hs Hal|
    a m regions ptr size a' m' _ (live & frees & Hh & Hb & Hp & Hhb & Hpl) Hr Hde|
    a m regions m' _ (live & frees & Hh & Hb & Hp & Hhb & Hpl) Hm' Hsz Hmx Hw].
  - destruct (heap_new _ _ _ _ Hm Hhb Hnw Hn) as (Hh & ? & ?). exists ∅, (fun _ => []).
    split; [done|]. split; [|done]. by intros ptr size ?%lookup_empty_Some.
  - rewrite <- Hpl in Hnw. destruct (allocate_ok_inv _ _ _ _ _ _ _ _ _ Hh Hnw Hs Hal)
      as (p & o & frees' & -> & Hfs & Ho & Hh' & Hnone & Hpo & _ & Hpl' & Hob & _).
    exists (<[p := o]> live), frees'. split; [done|]. split; [by apply backed_insert|].
    split; [congruence|]. split; [lia|congruence].
  - destruct (region_live _ _ _ _ Hb Hr) as (p & o & -> & Hl).
    destruct (deallocate_live _ _ _ _ _ _ Hh Hp Hl) as (a2 & m2 & Hd & Hh' & Hpo & Hob & _ & Hpl' & _).
    rewrite Hde in Hd. simplify_eq. eexists _, _. split; [exact Hh'|]. split.
    + replace p with (p + 8 - 8) at 1 by lia. by apply backed_delete.
    + split; [done|]. split; [lia|done].
  - exists live, frees. split; [by eapply heap_client_write|]. split; [done|]. split; [done|].
    split; [done|]. unfold page_limit in *. by rewrite Hmx.
Qed.

(** C13: memory safety of the heap.  In a build with overflow checks, or when the
    memory is limited to fewer than 65536 pages and the heap base is below
    [2 ^ 32 - 7], whatever a client does with the allocator, the regions it holds
    are aligned to 8 bytes, lie above the heap base and inside the memory, and
    no two of them overlap. *)
Theorem regions_disjoint hb limit a m regions :
  exec hb limit a m regions -> no_wrap hb limit ->
  hb <= original_heap_base a /\
  (forall ptr size, regions !! ptr = Some size ->
     (8 | ptr) /\ original_heap_base a + 8 <= ptr /\ 0 <= size /\ ptr + size <= bumper a /\
     ptr + size <= mem_size m) /\
  (forall ptr size ptr' size', regions !! ptr = Some size -> regions !! ptr' = Some size' -> ptr <> ptr' ->
     ptr + size + 8 <= ptr' \/ ptr' + size' + 8 <= ptr).
Proof.
  intros Hex Hnw. destruct (exec_heap _ _ _ _ _ Hex Hnw) as (live & frees & Hh & Hb & _ & Hhb & _).
  split; [done|]. split.
  - intros ptr size Hr. destruct (region_block _ _ _ _ _ _ _ Hh Hb Hr) as (o & Hl & _ & _ & Hs & Hfit).
    destruct (heap_block _ _ _ _ Hh (ptr - 8) o) as (_ & Hlo & Hhi & Hmem & Hdiv); [by left|].
    split; [|repeat split; lia]. replace ptr with (ptr - 8 + 8) by lia.
    apply Z.divide_add_r; [done|by exists 1].
  - intros ptr size ptr' size' Hr Hr' Hne.
    destruct (region_block _ _ _ _ _ _ _ Hh Hb Hr) as (o & Hl & _ & _ & Hs & Hfit).
    destruct (region_block _ _ _ _ _ _ _ Hh Hb Hr') as (o' & Hl' & _ & _ & Hs' & Hfit').
    assert (Hd := heap_disjoint _ _ _ _ Hh (ptr - 8) o (ptr' - 8) o'). unfold block in Hd.
    destruct Hd; [by left|by left|lia..].
Qed.

(** The bytes of a region survive a write to the header of another block or to
    the header of its own block. *)
Lemma region_kept a m m' live frees regions p o ptr size :
  heap a m live frees -> backed live regions -> block live frees p o \/ bumper a <= p ->
  (forall lo hi, 0 <= lo -> hi <= mem_size m -> hi <= p \/ p + 8 <= lo -> same_bytes m m' lo hi) ->
  regions !! ptr = Some size -> same_bytes m m' ptr (ptr + size).
Proof.
  intros Hh Hb Hp Hby Hr. destruct (region_block _ _ _ _ _ _ _ Hh Hb Hr) as (o' & Hl & _ & Ho' & Hs & Hfit).
  assert (Hq : block live frees (ptr - 8) o') by by left.
  destruct (block_range _ _ _ _ _ _ Hh Hq) as (_ & Hq0 & Hqs & _).
  pose proof (heap_block _ _ _ _ Hh _ _ Hq) as (_ & _ & Hqb & _).
  destruct (decide (ptr - 8 = p)) as [Heq|Hne]; [apply Hby; lia|].
  destruct Hp as [Hp|Hp]; [|apply Hby; lia].
  pose proof (heap_disjoint _ _ _ _ Hh _ _ _ _ Hq Hp Hne) as Hd.
  destruct (block_range _ _ _ _ _ _ Hh Hp) as (_ & Hp0 & Hps & _). apply Hby; lia.
Qed.

(** C27: in a build with overflow checks, or when the memory is limited to fewer
    than 65536 pages and the heap base is below [2 ^ 32 - 7], the allocator never
    writes into memory a client holds: a successful
    [allocate] or [deallocate] leaves every byte of every held region as it was
    (the region being given back included), and the region handed out is new. *)
Theorem held_memory_untouched hb limit a m regions a' m' :
  exec hb limit a m regions -> no_wrap hb limit ->
  (forall size ptr, 0 <= size -> allocate size (a, m) = ((a', m'), Ok ptr) ->
     regions !! ptr = None /\
     forall q n, regions !! q = Some n -> same_bytes m m' q (q + n)) /\
  (forall ptr size, regions !! ptr = Some size -> deallocate ptr (a, m) = ((a', m'), Ok tt) ->
     forall q n, regions !! q = Some n -> same_bytes m m' q (q + n)).
Proof.
  intros Hex Hnw. destruct (exec_heap _ _ _ _ _ Hex Hnw) as (live & frees & Hh & Hb & Hp & _ & Hpl). split.
  - intros size ptr Hs Hal. rewrite <- Hpl in Hnw.
    destruct (allocate_ok_inv _ _ _ _ _ _ _ _ _ Hh Hnw Hs Hal)
      as (p & o & frees' & -> & _ & _ & _ & Hnone & _ & _ & _ & _ & Hby & Hfr).
    split.
    + destruct (regions !! (p + 8)) as [n|] eqn:Hr; [|done].
      destruct (region_live _ _ _ _ Hb Hr) as (p' & o' & Heq & Hl).
      assert (p' = p) as -> by lia. congruence.
    + intros q n Hq. apply (region_kept _ _ _ _ _ _ p o _ _ Hh Hb); [|done..].
      destruct (frees o) as [|p' l] eqn:Hf; [right; lia|left]. subst p'. right. rewrite Hf. constructor.
  - intros ptr size Hr Hde q n Hq. destruct (region_live _ _ _ _ Hb Hr) as (p & o & -> & Hl).
    destruct (deallocate_live _ _ _ _ _ _ Hh Hp Hl) as (a2 & m2 & Hd & _ & _ & _ & _ & _ & Hby).
    rewrite Hde in Hd. simplify_eq. apply (region_kept _ _ _ _ _ _ p o _ _ Hh Hb); [|done..]. by left; left.
Qed.

(** A block on a free list is not accepted for deallocation. *)
Lemma deallocate_free_block a m live frees p o l :
  heap a m live frees -> poisoned a = false -> 0 <= o < 23 -> frees o = p :: l ->
  exists a', deallocate (p + 8) (a, m) = ((a', m), Err EmptyHeader) /\ poisoned a' = true.
Proof.
  intros Hh Hp Ho Hf. destruct (observe_ok a m live frees Hh) as [Hobs _].
  destruct (free_head _ _ _ _ _ _ _ Hh Hf) as (Hb & _).
  destruct (block_range _ _ _ _ _ _ Hh Hb) as (_ & Hp0 & _).
  destruct (heap_chain _ _ _ _ Hh o Ho) as (head & _ & Hc). rewrite Hf in Hc.
  destruct Hc as (_ & next & Hr & _). exists (poison (set_observed (mem_size m) a)).
  assert (deallocate_body (p + 8) (a, m) = ((set_observed (mem_size m) a, m), Err EmptyHeader)) as Hd.
  { unfold deallocate_body. rewrite (st_bind_ok _ _ _ _ _ Hobs).
    unfold HEADER_SIZE, checked_sub. rewrite (proj2 (Z.leb_le _ _)) by lia.
    rewrite (st_lift_ok _ _ _ (p + 8 - 8)) by done. replace (p + 8 - 8) with p by lia.
    erewrite st_bind_ok by done. simpl. by rewrite (st_lift_ok _ _ _ (Free next)). }
  unfold deallocate, guarded. simpl. by rewrite Hp, Hd.
Qed.

(** Giving back a held region always succeeds and the result is again a
    state of the allocator; giving it back a second time is detected, reported
    as [EmptyHeader] and poisons the allocator. *)
Theorem deallocate_once hb limit a m regions ptr size :
  exec hb limit a m regions -> no_wrap hb limit -> regions !! ptr = Some size ->
  exists a' m', deallocate ptr (a, m) = ((a', m'), Ok tt) /\ exec hb limit a' m' (delete ptr regions) /\
    exists a'', deallocate ptr (a', m') = ((a'', m'), Err EmptyHeader) /\ poisoned a'' = true.
Proof.
  intros Hex Hnw Hr. destruct (exec_heap _ _ _ _ _ Hex Hnw) as (live & frees & Hh & Hb & Hp & _).
  destruct (region_live _ _ _ _ Hb Hr) as (p & o & -> & Hl).
  destruct (block_range _ _ _ _ p o Hh) as (Ho & _); [by left|].
  destruct (deallocate_live _ _ _ _ _ _ Hh Hp Hl) as (a' & m' & Hd & Hh' & Hp' & _).
  exists a', m'. split; [done|]. split; [by apply (exec_free _ _ a m regions _ size)|].
  apply (deallocate_free_block _ _ _ _ _ o (frees o) Hh' Hp' Ho). unfold upd. by rewrite decide_True.
Qed.

(** Freed memory is reused, last freed first: after giving back a region, a
    request that needs a block of the same order gets the very same pointer
    (unless the 128-bit total of the statistics is exhausted). *)
Theorem freed_block_is_reused hb limit a m regions ptr size size' a' m' :
  exec hb limit a m regions -> no_wrap hb limit -> regions !! ptr = Some size -> 0 <= size' ->
  Order.from_size size' = Order.from_size size -> deallocate ptr (a, m) = ((a', m'), Ok tt) ->
  bytes_allocated_sum (stats a') + MAX_POSSIBLE_ALLOCATION + HEADER_SIZE < 2 ^ 128 ->
  page_limit m' < MAX_WASM_PAGES ->
  exists a'' m'', allocate size' (a', m') = ((a'', m''), Ok ptr).
Proof.
  intros Hex Hnw Hr Hs' Hsame Hde Hsum Hpl.
  destruct (exec_heap _ _ _ _ _ Hex Hnw) as (live & frees & Hh & Hb & Hp & _).
  destruct (region_block _ _ _ _ _ _ _ Hh Hb Hr) as (o & Hl & Hfs & Ho & Hs & _).
  destruct (deallocate_live _ _ _ _ _ _ Hh Hp Hl) as (a2 & m2 & Hd & Hh' & Hp' & _).
  replace (ptr - 8 + 8) with ptr in Hd by lia. rewrite Hde in Hd. simplify_eq.
  rewrite Hfs in Hsame. pose proof (from_size_fits _ _ Hs' Hsame) as [_ Hfit].
  assert (size' <= MAX_POSSIBLE_ALLOCATION) as Hmax.
  { destruct (decide (size' <= MAX_POSSIBLE_ALLOCATION)); [done|].
    rewrite from_size_too_large in Hsame by lia. done. }
  pose proof (allocate_body_spec _ _ _ _ size' Hh' Hs') as Hspec.
  unfold allocate, guarded. simpl. rewrite Hp'.
  assert (Hhd : upd frees o (ptr - 8 :: frees o) o = ptr - 8 :: frees o)
    by (unfold upd; by rewrite decide_True).
  inversion Hspec as [a3 m3 p o3 frees' Hfs3 _ _ _ _ Hpeq _ _ _ _ _ Heq| |? o3 Hfs3 Hnil|? ? o3 _ Hfs3 Hnil|s _ Hov]; subst.
  - rewrite Hsame in Hfs3. simplify_eq. rewrite Hhd in Hpeq. subst p.
    exists a3, m3. by replace (ptr - 8 + 8) with ptr by lia.
  - lia.
  - rewrite Hsame in Hfs3. simplify_eq. by rewrite Hhd in Hnil.
  - rewrite Hsame in Hfs3. simplify_eq. by rewrite Hhd in Hnil.
  - lia.
Qed.

(** what [allocate] can answer.  A request succeeds only up to the maximal
    size; it is refused as too large exactly beyond it; [AllocatorOutOfSpace]
    means that the page limit leaves no room or the host refused to grow the
    memory; no other error occurs; and it panics only in a build with overflow
    checks, in a memory that may have the full 65536 pages or once the 128-bit
    total of the statistics is exhausted. *)
Theorem allocate_outcomes hb limit a m regions size :
  exec hb limit a m regions -> no_wrap hb limit -> 0 <= size ->
  match (allocate size (a, m)).2 with
  | Ok ptr => size <= MAX_POSSIBLE_ALLOCATION
  | Err RequestedAllocationTooLarge => MAX_POSSIBLE_ALLOCATION < size
  | Err AllocatorOutOfSpace =>
      exists o, Order.from_size size = Ok o /\ no_room m (bumper a + block_size o)
  | Err _ => False
  | Panic => debug = true /\ (page_limit m = MAX_WASM_PAGES \/
             2 ^ 128 <= bytes_allocated_sum (stats a) + MAX_POSSIBLE_ALLOCATION + HEADER_SIZE)
  end.
Proof.
  intros Hex Hnw Hs. destruct (exec_heap _ _ _ _ _ Hex Hnw) as (live & frees & Hh & Hb & Hp & _).
  pose proof (allocate_body_spec _ _ _ _ size Hh Hs) as Hspec.
  unfold allocate, guarded. simpl. rewrite Hp.
  inversion Hspec as [a3 m3 p o3 frees' Hfs3| |? o3 Hfs3 Hnil|? ? o3 Hd Hfs3|s Hov]; simpl; eauto;
    (destruct (decide (size <= MAX_POSSIBLE_ALLOCATION)); [done|]);
    rewrite from_size_too_large in Hfs3 by lia; done.
Qed.

(** The calls the host makes, and a sequence of them. *)
Inductive host_call := CallAllocate (size : Z) | CallDeallocate (ptr : Z).

Definition host_step (c : host_call) (s : Allocator * M) : (Allocator * M) * res Error Z :=
  match c with
  | CallAllocate size => allocate size s
  | CallDeallocate ptr => (_ ← deallocate ptr; mret 0) s
  end.

Fixpoint host_run (cs : list host_call) (s : Allocator * M) : (Allocator * M) * list (res Error Z) :=
  match cs with
  | [] => (s, [])
  | c :: cs' =>
      let '(s1, r) := host_step c s in
      let '(s2, rs) := host_run cs' s1 in (s2, r :: rs)
  end.

Lemma guarded_failure {A} (body : ST (Allocator * M) Error A) s s' r :
  guarded body s = (s', r) -> (forall x, r <> Ok x) -> poisoned s'.1 = true.
Proof.
  unfold guarded. destruct (poisoned s.1) eqn:Hp; [by intros [= <- <-]|].
  destruct (body s) as [s1 [x| |]]; intros [= <- <-] Hno; [by destruct (Hno x)|done..].
Qed.

(** Fail-stop.  Once an operation has failed or panicked, every later
    operation answers [Poisoned] and touches neither the allocator nor the
    memory. *)
Theorem failure_poisons c s s' r cs :
  host_step c s = (s', r) -> (forall x, r <> Ok x) ->
  host_run cs s' = (s', replicate (length cs) (Err Poisoned)).
Proof.
  intros Hc Hno. assert (Hp : poisoned s'.1 = true).
  { destruct c as [size|ptr]; simpl in Hc; [by eapply guarded_failure|].
    unfold mbind, st_bind, mret, st_ret in Hc. destruct (deallocate ptr s) as [s1 r1] eqn:Hd.
    apply (guarded_failure (deallocate_body ptr) s s' r1).
    - change (deallocate ptr s = (s', r1)). rewrite Hd. destruct r1; by simplify_eq.
    - intros x ->. simplify_eq. by destruct (Hno 0). }
  induction cs as [|c' cs IH]; [done|]. simpl.
  assert (host_step c' s' = (s', Err Poisoned)) as ->; [|by rewrite IH].
  destruct c'; simpl; unfold allocate, deallocate, guarded, mbind, st_bind; by rewrite Hp.
Qed.
End clients.

(** ** A memory

    A linear memory of zero-initialised pages, of which only the bytes that
    were written are stored; its growth is bounded by [sm_max] alone. *)
Record SparseMemory := mkSparse { sm_bytes : gmap Z Z; sm_pages : Z; sm_max : option Z }.

Fixpoint store_bytes (b : gmap Z Z) (p : Z) (bs : list Z) : gmap Z Z :=
  match bs with [] => b | x :: bs' => <[p := x]> (store_bytes b (p + 1) bs') end.

#[export] Instance sparse_memory : Memory SparseMemory := {|
  mem_byte m i := default 0 (sm_bytes m !! i);
  mem_len m := sm_pages m * PAGE_SIZE;
  mem_write m p bs := mkSparse (store_bytes (sm_bytes m) p bs) (sm_pages m) (sm_max m);
  mem_grow m n :=
    if sm_pages m + n <=? default MAX_WASM_PAGES (sm_max m)
    then Some (mkSparse (sm_bytes m) (sm_pages m + n) (sm_max m)) else None;
  mem_pages := sm_pages;
  mem_max_pages := sm_max;
  mem_ok m :=
    0 <= sm_pages m <= default MAX_WASM_PAGES (sm_max m) /\
    default MAX_WASM_PAGES (sm_max m) <= MAX_WASM_PAGES /\
    map_Forall (fun _ b => 0 <= b < 256) (sm_bytes m);
|}.

Lemma store_bytes_lookup b p bs i :
  store_bytes b p bs !! i =
  if bool_decide (p <= i < p + Z.of_nat (length bs)) then bs !! Z.to_nat (i - p) else b !! i.
Proof.
  revert p. induction bs as [|x bs IH]; intros p; simpl.
  - by rewrite bool_decide_false by lia.
  - rewrite lookup_insert. destruct (decide (p = i)) as [->|Hne].
    + rewrite bool_decide_true by lia. by rewrite Z.sub_diag.
    + rewrite IH. case_bool_decide.
      * rewrite bool_decide_true by lia.
        replace (Z.to_nat (i - p)) with (S (Z.to_nat (i - (p + 1)))) by lia. done.
      * by rewrite bool_decide_false by lia.
Qed.

#[export] Instance sparse_memory_laws : MemoryLaws SparseMemory.
Proof.
  split; unfold page_limit; simpl.
  - done.
  - by intros m (? & _).
  - by intros m (_ & ? & _).
  - intros m i (_ & _ & Hb) _. destruct (sm_bytes m !! i) as [b|] eqn:Hi; simpl; [by apply (Hb i)|lia].
  - intros m p bs (Hp & Hl & Hb) _ _ Hbs. split_and!; try done; try lia.
    intros j x. simpl. rewrite store_bytes_lookup. case_bool_decide; [|apply Hb].
    intros Hx. by eapply Forall_lookup_1 in Hbs.
  - intros m p bs i _ _ _ _ _. rewrite store_bytes_lookup. by case_bool_decide.
  - intros m n m' (Hp & Hl & Hb) Hn. case_cmp; [|done]. intros [= <-]. simpl. split_and!; try done; lia.
Qed.

Module AllocatorExamples.
Import FreeingBump.

(** The builds. *)
Definition debug_build : Build := {| debug := true |}.
Definition release_build : Build := {| debug := false |}.
#[local] Existing Instance release_build.

Definition mem0 : SparseMemory := mkSparse ∅ 1 (Some 16).
Definition fresh (heap_base : Z) : Allocator := mkAllocator heap_base heap_base FreeLists.new false 0 (mkStats 0 0 0 0).

Lemma mem0_ok : mem_ok mem0.
Proof. split; [done|]. split; [done|]. apply map_Forall_empty. Qed.

(** Two blocks, the first of which is held for 10 bytes and the second for 100. *)
Definition two : Allocator * SparseMemory := (host_run [CallAllocate 10; CallAllocate 100] (fresh 16, mem0)).1.

Lemma two_results : (host_run [CallAllocate 10; CallAllocate 100] (fresh 16, mem0)).2 = [Ok 24; Ok 48].
Proof. by vm_compute. Qed.

Lemma two_exec : exec 16 16 two.1 two.2 (<[48 := 100]> (<[24 := 10]> ∅)).
Proof.
  apply (exec_alloc _ _ (allocate 10 (fresh 16, mem0)).1.1 (allocate 10 (fresh 16, mem0)).1.2); [|done|by vm_compute].
  apply (exec_alloc _ _ (fresh 16) mem0); [|done|by vm_compute].
  by apply exec_new; [apply mem0_ok|..].
Qed.

Lemma two_no_wrap : no_wrap 16 16.
Proof. by right. Qed.

Lemma regions_disjoint_witness : 24 + 10 + 8 <= 48 \/ 48 + 100 + 8 <= 24.
Proof. by apply (proj2 (proj2 (regions_disjoint _ _ _ _ _ two_exec two_no_wrap)) 24 10 48 100). Defined.

Lemma held_memory_untouched_witness :
  same_bytes two.2 (deallocate 48 two).1.2 24 (24 + 10).
Proof.
  apply (proj2 (held_memory_untouched _ _ two.1 two.2 _ (deallocate 48 two).1.1 (deallocate 48 two).1.2 two_exec two_no_wrap) 48 100);
    by vm_compute.
Defined.

Lemma deallocate_once_witness : exists a' m', deallocate 24 (two.1, two.2) = ((a', m'), Ok tt).
Proof.
  destruct (deallocate_once _ _ two.1 two.2 _ 24 10 two_exec two_no_wrap) as (a' & m' & H & _); [by vm_compute|].
  by exists a', m'.
Defined.

Lemma freed_block_is_reused_witness :
  exists a'' m'', allocate 16 ((deallocate 24 two).1.1, (deallocate 24 two).1.2) = ((a'', m''), Ok 24).
Proof.
  apply (freed_block_is_reused _ _ two.1 two.2 _ 24 10 16 (deallocate 24 two).1.1 (deallocate 24 two).1.2 two_exec two_no_wrap);
    by vm_compute.
Defined.

Lemma allocate_outcomes_witness : (allocate 33554433 (two.1, two.2)).2 = Err RequestedAllocationTooLarge /\
  MAX_POSSIBLE_ALLOCATION < 33554433.
Proof.
  pose proof (allocate_outcomes _ _ two.1 two.2 _ 33554433 two_exec two_no_wrap ltac:(done)) as H.
  assert (Heq : (allocate 33554433 (two.1, two.2)).2 = Err RequestedAllocationTooLarge) by by vm_compute.
  split; [exact Heq|]. rewrite Heq in H. exact H.
Defined.

Lemma failure_poisons_witness :
  host_run [CallAllocate 8; CallDeallocate 48] (host_step (CallAllocate 33554433) two).1 =
  ((host_step (CallAllocate 33554433) two).1, [Err Poisoned; Err Poisoned]).
Proof.
  apply (failure_poisons (CallAllocate 33554433) two (host_step (CallAllocate 33554433) two).1
    (Err RequestedAllocationTooLarge) [CallAllocate 8; CallDeallocate 48]); [by vm_compute|done].
Defined.

(** in a memory of the full 65536 pages a block may end exactly at the end
    of the 32-bit address space; the room check accepts it, because it is made
    on 64 bits, and the 32-bit [bumper] then overflows.  A build with overflow
    checks panics; a release build hands the block out, wraps the bumper to 0
    and cuts the next block from address 0, below the heap base. *)
Theorem bumper_overflows :
  let m := mkSparse ∅ 65536 None in
  mem_ok m /\ new 4294967280 = Ok (fresh 4294967280) /\
  (allocate (H := debug_build) 8 (fresh 4294967280, m)).2 = Panic /\
  (host_run (H := release_build) [CallAllocate 8; CallAllocate 8] (fresh 4294967280, m)).2 =
    [Ok 4294967288; Ok 8].
Proof.
  split; [split; [done|split; [done|apply map_Forall_empty]]|]. repeat split; by vm_compute.
Qed.
End AllocatorExamples.
