(* ===== verification/ForkTree.v ===== *)
(** * Fork trees: [fork-tree], [src/lib.rs]

    A fork tree holds the blocks of the branches that are not finalized yet.
    This file has the data, every operation of the library as it is written
    (worklists, index paths, in-place updates and all), and the equivalence of
    each worklist loop with a recursive definition on trees; the ancestry
    theorems built on these are in [ForkTreeAncestry].

    The block hash type [H], the payload [V] and the error [E] of the client are
    arbitrary; block numbers are integers, of which only the order is used.
    [is_descendent_of] is the client's closure and may fail. *)
From stdpp Require Import base list sorting.
From Stdlib Require Import ZArith Lia.
From S2P Require Import Prelude.
Set Warnings "-register-all,-clear-no-such-hyp".

Inductive Error (E : Type) := Duplicate | UnfinalizedAncestor | Revert | Client (e : E).
Arguments Duplicate {E}.
Arguments UnfinalizedAncestor {E}.
Arguments Revert {E}.
Arguments Client {E} e.

Inductive FinalizationResult (V : Type) := Changed (v : option V) | Unchanged.
Arguments Changed {V} v.
Arguments Unchanged {V}.

Inductive FilterAction := Remove | KeepNode | KeepTree.

Inductive Node (H V : Type) := mkNode (h : H) (n : Z) (d : V) (cs : list (Node H V)).
Arguments mkNode {H V} h n d cs.

Record ForkTree (H V : Type) := mkTree {
  roots : list (Node H V);
  best_finalized_number : option Z;
}.
Arguments mkTree {H V} roots best_finalized_number.
Arguments roots {H V} f.
Arguments best_finalized_number {H V} f.

(** A node in a flattened tree, with the index of its parent. *)
Abbreviation Entry H V := (option nat * Node H V)%type.

(** ** Vectors *)
Section vectors.
Context {A E : Type}.

(** [Vec::remove]; [None] is the panic of an index out of range. *)
Definition vec_remove (i : nat) (l : list A) : option (A * list A) :=
  x ← l !! i; Some (x, take i l ++ drop (S i) l).

(** [Vec::swap_remove]: the last element takes the place of the removed one. *)
Definition swap_remove (i : nat) (l : list A) : option (A * list A) :=
  x ← l !! i;
  y ← last l;
  Some (x, take (length l - 1) (<[i := y]> l)).

(** [for (i, x) in l.iter().enumerate() { if f(x)? { found = Some(i); break } }] *)
Fixpoint position_res (f : A -> res E bool) (l : list A) : res E (option nat) :=
  match l with
  | [] => Ok None
  | x :: l' =>
      b ← f x;
      if (b : bool) then Ok (Some 0) else o ← position_res f l'; Ok (option_map S o)
  end.

(** [for x in l { if f(x)? { kept.push(x) } else { dropped.push(x) } }]: when
    [f] fails, the elements not looked at yet are lost. *)
Fixpoint partition_res (f : A -> res E bool) (l : list A) : (list A * list A) * res E unit :=
  match l with
  | [] => (([], []), Ok tt)
  | x :: l' =>
      match f x with
      | Ok b =>
          let '((kept, dropped), r) := partition_res f l' in
          (if (b : bool) then (x :: kept, dropped) else (kept, x :: dropped), r)
      | Err e => (([], []), Err e)
      | Panic => (([], []), Panic)
      end
  end.

(** [a && b?] and [a || b?] *)
Definition and_then (a : bool) (b : res E bool) : res E bool := if a then b else Ok false.
Definition or_else (a : bool) (b : res E bool) : res E bool := if a then Ok true else b.

(** [l.sort_by_key(|x| Reverse(key(x)))]: a stable sort, largest key first. *)
Fixpoint insert_by (key : A -> nat) (x : A) (l : list A) : list A :=
  match l with
  | [] => [x]
  | y :: l' => if key y <=? key x then x :: y :: l' else y :: insert_by key x l'
  end.
Definition sort_by_key (key : A -> nat) (l : list A) : list A := foldr (insert_by key) [] l.
End vectors.

Module ForkTree.
Section fork_tree.
Context {H V E : Type} `{EqDecision H}.
Abbreviation NodeT := (Node H V).
Abbreviation Tree := (ForkTree H V).
Implicit Types (t : ForkTree H V) (n c : Node H V).

Definition hash (n : NodeT) : H := let 'mkNode h _ _ _ := n in h.
Definition number (n : NodeT) : Z := let 'mkNode _ k _ _ := n in k.
Definition data (n : NodeT) : V := let 'mkNode _ _ d _ := n in d.
Definition children (n : NodeT) : list NodeT := let 'mkNode _ _ _ cs := n in cs.
Definition set_children (n : NodeT) (cs : list NodeT) : NodeT := let 'mkNode h k d _ := n in mkNode h k d cs.

(** Number of nodes; the fuel of the worklist loops. *)
Fixpoint size (n : NodeT) : nat :=
  let 'mkNode _ _ _ cs := n in S (sum_list_with size cs).
Definition sizes (l : list NodeT) : nat := sum_list_with size l.

(** ** [Node::max_depth]

    A stack is a list with its top first; [stack.push] for each child in order
    leaves the last child on top. *)
Fixpoint max_depth_loop (fuel : nat) (stack : list (NodeT * nat)) (mx : nat) : nat :=
  match fuel, stack with
  | S fuel', (node, height) :: stack' =>
      max_depth_loop fuel' (reverse ((fun c => (c, height + 1)) <$> children node) ++ stack')
        (if mx <? height then height else mx)
  | _, _ => mx
  end.
Definition max_depth (n : NodeT) : nat := max_depth_loop (size n) [(n, 0)] 0.

(** ** [ForkTree::rebalance]

    Sorting the children of a node does not change any depth, so the order in
    which the loop visits the nodes does not matter: every level is sorted by
    the depths the nodes had. *)
Fixpoint rebalance_node (n : NodeT) : NodeT :=
  let 'mkNode h k d cs := n in
  mkNode h k d (sort_by_key (fun p => max_depth p.1) ((fun c => (c, rebalance_node c)) <$> cs)).*2.

Definition rebalance_roots (l : list NodeT) : list NodeT := rebalance_node <$> sort_by_key max_depth l.
Definition rebalance (t : Tree) : Tree := mkTree (rebalance_roots (roots t)) (best_finalized_number t).

Definition new : Tree := mkTree [] None.

(** ** The iterators *)
Definition iter_next (stack : list NodeT) : option (NodeT * list NodeT) :=
  match stack with
  | [] => None
  | node :: stack' => Some (node, children node ++ stack')
  end.

Fixpoint iter_collect (fuel : nat) (stack : list NodeT) : list NodeT :=
  match fuel with
  | O => []
  | S fuel' => match iter_next stack with
               | Some (node, stack') => node :: iter_collect fuel' stack'
               | None => []
               end
  end.

(** [node_iter]: the roots are put on the stack in reverse, so the first is on top. *)
Definition node_iter (t : Tree) : list NodeT := iter_collect (sizes (roots t)) (roots t).

(** [RemovedIterator]: here the vector is the stack as it is, its last element on top. *)
Definition removed_iter (removed : list NodeT) : list (H * Z * V) :=
  (fun n => (hash n, number n, data n)) <$> iter_collect (sizes removed) (reverse removed).

(** ** Paths *)
Fixpoint node_at (l : list NodeT) (path : list nat) : option NodeT :=
  match path with
  | [] => None
  | [i] => l !! i
  | i :: path' => n ← l !! i; node_at (children n) path'
  end.

Fixpoint modify_at (f : NodeT -> NodeT) (l : list NodeT) (path : list nat) : list NodeT :=
  match path with
  | [] => l
  | [i] => alter f i l
  | i :: path' => alter (fun n => set_children n (modify_at f (children n) path')) i l
  end.

(** [fold(&mut removed, |curr, idx| &mut curr[idx].children)] followed by
    [remove] on the siblings: the node at the path and the forest without it. *)
Fixpoint detach (l : list NodeT) (path : list nat) : option (NodeT * list NodeT) :=
  match path with
  | [] => None
  | [i] => vec_remove i l
  | i :: path' =>
      n ← l !! i;
      '(r, cs) ← detach (children n) path';
      Some (r, <[i := set_children n cs]> l)
  end.

Section queries.
Variable is_descendent_of : H -> H -> res E bool.

(** [is_descendent_of(a, b)?] *)
Definition descends (a b : H) : res (Error E) bool :=
  match is_descendent_of a b with Ok b => Ok b | Err e => Err (Client e) | Panic => Panic end.

(** ** [find_node_index_where] *)
Fixpoint search_loop (h : H) (num : Z) (predicate : V -> bool) (fuel : nat)
    (stack : list (NodeT * nat)) (is_descendent : bool) :
    res (Error E) (bool * bool * list (NodeT * nat)) :=
  match fuel with
  | O => Panic
  | S fuel' =>
      match stack with
      | [] => Ok (false, is_descendent, [])
      | (node, i) :: stack' =>
          match children node !! i with
          | Some child =>
              if is_descendent then
                if predicate (data node) then Ok (true, true, stack')
                else search_loop h num predicate fuel' stack' true
              else if (number child <? num)%Z
              then search_loop h num predicate fuel' ((child, 0) :: (node, i + 1) :: stack') false
              else search_loop h num predicate fuel' ((node, i + 1) :: stack') false
          | None =>
              b ← or_else is_descendent (descends (hash node) h);
              if (b : bool) then
                if predicate (data node) then Ok (true, true, stack')
                else search_loop h num predicate fuel' stack' true
              else search_loop h num predicate fuel' stack' false
          end
      end
  end.

Fixpoint search_roots (h : H) (num : Z) (predicate : V -> bool) (root_idx : nat) (l : list NodeT) :
    res (Error E) (option (list nat)) :=
  match l with
  | [] => Ok None
  | root :: l' =>
      if (num <=? number root)%Z then search_roots h num predicate (S root_idx) l'
      else
        '(found, is_descendent, stack) ←
          search_loop h num predicate (2 * size root + 1) [(root, 0)] false;
        if (found : bool) then Ok (Some (root_idx :: reverse ((fun p => p.2 - 1) <$> stack)))
        else if (is_descendent : bool) then Ok None
        else search_roots h num predicate (S root_idx) l'
  end.

Definition find_node_index_where (t : Tree) (h : H) (num : Z) (predicate : V -> bool) :
    res (Error E) (option (list nat)) :=
  search_roots h num predicate 0 (roots t).

(** Indexing with a path that leads nowhere would panic. *)
Definition find_node_where (t : Tree) (h : H) (num : Z) (predicate : V -> bool) :
    res (Error E) (option NodeT) :=
  maybe_path ← find_node_index_where t h num predicate;
  match maybe_path with
  | None => Ok None
  | Some path => n ← expect (node_at (roots t) path); Ok (Some n)
  end.

(** ** Operations that change the tree *)
Definition set_roots (l : list NodeT) (t : Tree) : Tree := mkTree l (best_finalized_number t).
Definition set_best (k : Z) (t : Tree) : Tree := mkTree (roots t) (Some k).

(** The guard [number <= best_finalized_number] the operations start with. *)
Definition reverts (t : Tree) (num : Z) : bool :=
  match best_finalized_number t with Some best => (num <=? best)%Z | None => false end.

Definition import (h : H) (num : Z) (d : V) : ST Tree (Error E) bool :=
  t ← st_get;
  if reverts t num then st_lift (Err Revert)
  else
    maybe_path ← st_lift (find_node_index_where t h num (fun _ => true));
    siblings ← st_lift (match maybe_path with
                        | None => Ok (roots t)
                        | Some path => n ← expect (node_at (roots t) path); Ok (children n)
                        end);
    if existsb (fun elem => bool_decide (hash elem = h)) siblings then st_lift (Err Duplicate)
    else
      let siblings' := siblings ++ [mkNode h num d []] in
      _ ← st_modify (set_roots (match maybe_path with
                                | None => siblings'
                                | Some path => modify_at (fun n => set_children n siblings') (roots t) path
                                end));
      _ ← (if length siblings' =? 1 then st_modify rebalance else mret tt);
      mret (bool_decide (maybe_path = None)).

Definition finalize_root_at (position : nat) : ST Tree (Error E) V :=
  t ← st_get;
  node ← st_lift (expect (roots t !! position));
  _ ← st_modify (fun _ => mkTree (children node) (Some (number node)));
  mret (data node).

Definition finalize_root (h : H) : ST Tree (Error E) (option V) :=
  t ← st_get;
  match list_find (fun n => hash n = h) (roots t) with
  | Some (position, _) => v ← finalize_root_at position; mret (Some v)
  | None => mret None
  end.

(** [for root in roots { if f(root)? { self.roots.push(root) } else { changed = true } }] *)
Definition retain_roots (f : NodeT -> res (Error E) bool) : ST Tree (Error E) bool := fun t =>
  let '((kept, dropped), r) := partition_res f (roots t) in
  (set_roots kept t, _ ← r; Ok (negb (bool_decide (length dropped = 0)))).

Definition finalize (h : H) (num : Z) : ST Tree (Error E) (FinalizationResult V) :=
  t ← st_get;
  if reverts t num then st_lift (Err Revert)
  else
    root ← finalize_root h;
    match root with
    | Some v => mret (Changed (Some v))
    | None =>
        above ← st_lift (position_res (fun root => and_then (number root <? num)%Z (descends (hash root) h)) (roots t));
        match above with
        | Some _ => st_lift (Err UnfinalizedAncestor)
        | None =>
            changed ← retain_roots (fun root => and_then (num <? number root)%Z (descends h (hash root)));
            _ ← st_modify (set_best num);
            mret (if (changed : bool) then Changed None else Unchanged)
        end
    end.

(** The loop of [finalize_with_ancestors]; the result says whether the tree
    changed, or that the finalized root was met. *)
Fixpoint open_loop (h : H) (num : Z) (fuel : nat) (idx : nat) (changed : bool) :
    ST Tree (Error E) (V + bool) :=
  match fuel with
  | O => st_lift Panic
  | S fuel' =>
      t ← st_get;
      match roots t !! idx with
      | None => mret (inr changed)
      | Some root =>
          let is_finalized := bool_decide (hash root = h) in
          is_descendant ← st_lift (and_then (negb is_finalized && (num <? number root)%Z) (descends h (hash root)));
          is_ancestor ← st_lift (and_then (negb is_finalized && negb is_descendant && (number root <? num)%Z)
                                   (descends (hash root) h));
          if is_finalized then v ← finalize_root_at idx; mret (inl v)
          else if (is_descendant : bool) then open_loop h num fuel' (idx + 1) changed
          else
            '(root, rest) ← st_lift (expect (swap_remove idx (roots t)));
            _ ← st_modify (set_roots (if (is_ancestor : bool) then rest ++ children root else rest));
            open_loop h num fuel' idx true
      end
  end.

Definition finalize_with_ancestors (h : H) (num : Z) : ST Tree (Error E) (FinalizationResult V) :=
  t ← st_get;
  if reverts t num then st_lift (Err Revert)
  else
    root ← finalize_root h;
    match root with
    | Some v => mret (Changed (Some v))
    | None =>
        r ← open_loop h num (S (sizes (roots t))) 0 false;
        match r with
        | inl v => mret (Changed (Some v))
        | inr changed =>
            _ ← st_modify (set_best num);
            mret (if (changed : bool) then Changed None else Unchanged)
        end
    end.

(** [node.hash == *hash || is_descendent_of(&node.hash, hash)?] *)
Definition at_or_below (n : NodeT) (h : H) : res (Error E) bool :=
  or_else (bool_decide (hash n = h)) (descends (hash n) h).

(** The loop over the children of the node that would be finalized. *)
Definition past_child (n : NodeT) (h : H) (num : Z) : res (Error E) unit :=
  past ← position_res (fun child => and_then (number child <=? num)%Z (at_or_below child h)) (children n);
  match past with Some _ => Err UnfinalizedAncestor | None => Ok tt end.

Definition finalizes_any_with_descendent_if (t : Tree) (h : H) (num : Z) (predicate : V -> bool) :
    res (Error E) (option bool) :=
  if reverts t num then Err Revert
  else
    position ← position_res (fun n => and_then (predicate (data n)) (at_or_below n h)) (node_iter t);
    match position with
    | None => Ok None
    | Some i =>
        node ← expect (node_iter t !! i);
        _ ← past_child node h num;
        Ok (Some (existsb (fun root => bool_decide (hash root = hash node)) (roots t)))
    end.

Definition finalize_with_descendent_if (h : H) (num : Z) (predicate : V -> bool) :
    ST Tree (Error E) (FinalizationResult V) :=
  t ← st_get;
  if reverts t num then st_lift (Err Revert)
  else
    position ← st_lift (position_res (fun n => and_then (predicate (data n)) (at_or_below n h)) (roots t));
    node_data ← match position with
                | None => mret None
                | Some i =>
                    node ← st_lift (expect (roots t !! i));
                    _ ← st_lift (past_child node h num);
                    _ ← st_modify (fun _ => mkTree (children node) (Some (number node)));
                    mret (Some (data node))
                end;
    changed ← retain_roots (fun root =>
      b ← and_then (num <? number root)%Z (descends h (hash root));
      or_else (b || ((number root =? num)%Z && bool_decide (hash root = h))) (descends (hash root) h));
    _ ← st_modify (set_best num);
    mret (match node_data with
          | Some d => Changed (Some d)
          | None => if (changed : bool) then Changed None else Unchanged
          end).

(** The loop of [prune] that walks down to [hash] and drops the side branches:
    what becomes of the node, the nodes appended to [removed], and the outcome. *)
Fixpoint narrow (h : H) (num : Z) (fuel : nat) (curr : NodeT) : (NodeT * list NodeT) * res (Error E) unit :=
  match fuel with
  | O => ((curr, []), Panic)
  | S fuel' =>
      match position_res (fun child => and_then (number child <? num)%Z (descends (hash child) h)) (children curr) with
      | Err e => ((curr, []), Err e)
      | Panic => ((curr, []), Panic)
      | Ok (Some i) =>
          match vec_remove i (children curr) with
          | None => ((curr, []), Panic)
          | Some (next, siblings) =>
              let '((next', removed), r) := narrow h num fuel' next in
              ((set_children curr [next'], siblings ++ removed), r)
          end
      | Ok None =>
          let '((kept, dropped), r) := partition_res (fun child =>
            or_else ((number child =? num)%Z && bool_decide (hash child = h))
              (and_then (num <? number child)%Z (descends h (hash child)))) (children curr) in
          ((set_children curr kept, dropped), r)
      end
  end.

Definition prune (h : H) (num : Z) (predicate : V -> bool) : ST Tree (Error E) (list (H * Z * V)) :=
  t ← st_get;
  path ← st_lift (find_node_index_where t h num predicate);
  match path with
  | None => mret []
  | Some new_root_path =>
      '(root, removed) ← st_lift (expect (detach (roots t) new_root_path));
      let '((root', removed'), r) := narrow h num (size root) root in
      _ ← st_modify (set_roots [root']);
      _ ← st_lift r;
      _ ← st_modify rebalance;
      mret (removed_iter (removed ++ removed'))
  end.
End queries.

(** ** [map] and [drain_filter]

    Both flatten the tree level by level into a vector whose entries carry the
    index of their parent ([None] for [usize::MAX], that is for a root), and
    then rebuild it from the end. *)
Definition push_child (n : NodeT) : Entry H V -> Entry H V :=
  fun '(p, parent) => (p, set_children parent (children parent ++ [n])).

(** [while let Some((parent, node)) = output.pop()]; [None] is the panic of an
    index out of range. *)
Fixpoint rebuild (fuel : nat) (output : list (Entry H V)) (roots : list NodeT) : option (list NodeT) :=
  match fuel with
  | O => Some roots
  | S fuel' =>
      match last output with
      | None => Some roots
      | Some (None, n) => rebuild fuel' (removelast output) (roots ++ [n])
      | Some (Some parent, n) =>
          _ ← removelast output !! parent;
          rebuild fuel' (alter (push_child n) parent (removelast output)) roots
      end
  end.
End fork_tree.

Section map.
Context {H V W : Type}.
Variable f : H -> Z -> V -> W.

(** The body of the inner [for] loop. *)
Definition map_visit (st : list (Entry H W) * list (Entry H V)) (e : Entry H V) :
    list (Entry H W) * list (Entry H V) :=
  let '(output, next_queue) := st in
  let '(parent, mkNode h k d cs) := e in
  (output ++ [(parent, mkNode h k (f h k d) [])],
   next_queue ++ ((fun c => (Some (length output), c)) <$> reverse cs)).

Fixpoint map_levels (fuel : nat) (output : list (Entry H W)) (queue : list (Entry H V)) : list (Entry H W) :=
  match fuel, queue with
  | S fuel', _ :: _ =>
      let '(output', next_queue) := foldl map_visit (output, []) queue in
      map_levels fuel' output' next_queue
  | _, _ => output
  end.

Definition map (t : ForkTree H V) : res (Error Empty_set) (ForkTree H W) :=
  let output := map_levels (sizes (roots t)) [] ((fun n => (None, n)) <$> reverse (roots t)) in
  roots' ← expect (rebuild (length output) output []);
  Ok (mkTree roots' (best_finalized_number t)).
End map.

Section drain_filter.
Context {H V : Type}.
Variable filter : H -> Z -> V -> FilterAction.

Definition filter_visit (st : list (Entry H V) * list (Node H V) * list (Entry H V)) (e : Entry H V) :
    list (Entry H V) * list (Node H V) * list (Entry H V) :=
  let '(retained, removed, next_queue) := st in
  let '(parent, n) := e in
  match filter (hash n) (number n) (data n) with
  | KeepNode =>
      (retained ++ [(parent, set_children n [])], removed,
       next_queue ++ ((fun c => (Some (length retained), c)) <$> reverse (children n)))
  | KeepTree => (retained ++ [(parent, n)], removed, next_queue)
  | Remove => (retained, removed ++ [n], next_queue)
  end.

Fixpoint filter_levels (fuel : nat) (retained : list (Entry H V)) (removed : list (Node H V))
    (queue : list (Entry H V)) : list (Entry H V) * list (Node H V) :=
  match fuel, queue with
  | S fuel', _ :: _ =>
      let '(retained', removed', next_queue) := foldl filter_visit (retained, removed, []) queue in
      filter_levels fuel' retained' removed' next_queue
  | _, _ => (retained, removed)
  end.

Definition drain_filter : ST (ForkTree H V) (Error Empty_set) (list (H * Z * V)) :=
  t ← st_get;
  let '(retained, removed) :=
    filter_levels (sizes (roots t)) [] [] ((fun n => (None, n)) <$> reverse (roots t)) in
  roots' ← st_lift (expect (rebuild (length retained) retained []));
  _ ← st_modify (set_roots roots');
  _ ← (if bool_decide (removed = []) then mret tt else st_modify rebalance);
  mret (removed_iter removed).
End drain_filter.
End ForkTree.

Import ForkTree.

Lemma Node_induction {H V} (P : Node H V -> Prop) :
  (forall h k d cs, Forall P cs -> P (mkNode h k d cs)) -> forall n, P n.
Proof.
  intros Hstep. fix IH 1. intros [h k d cs]. apply Hstep.
  induction cs as [|c cs IHcs]; constructor; [apply IH|apply IHcs].
Qed.

(** ** The loops and the trees they walk *)
Section walks.
Context {H V : Type}.
Implicit Types (n c : Node H V) (l cs : list (Node H V)).

Lemma size_node h k d cs : size (@mkNode H V h k d cs) = S (sizes cs).
Proof. done. Qed.

Lemma sizes_app l1 l2 : sizes (l1 ++ l2) = sizes l1 + sizes l2.
Proof. unfold sizes. induction l1; simpl; lia. Qed.

Lemma sizes_Permutation l1 l2 : l1 ≡ₚ l2 -> sizes l1 = sizes l2.
Proof. unfold sizes. induction 1; simpl; lia. Qed.

Lemma size_children n : size n = S (sizes (children n)).
Proof. by destruct n. Qed.

Lemma node_eta n : mkNode (hash n) (number n) (data n) (children n) = n.
Proof. by destruct n. Qed.

(** The depth of the deepest branch. *)
Fixpoint height n : nat := let 'mkNode _ _ _ cs := n in max_list_with (fun c => S (height c)) cs.

Lemma max_list_with_app {A} (f : A -> nat) (l1 l2 : list A) :
  max_list_with f (l1 ++ l2) = max_list_with f l1 `max` max_list_with f l2.
Proof. induction l1; simpl; lia. Qed.

Lemma max_list_with_reverse {A} (f : A -> nat) (l : list A) : max_list_with f (reverse l) = max_list_with f l.
Proof.
  induction l as [|x l IH]; [done|]. rewrite reverse_cons, max_list_with_app, IH. simpl. lia.
Qed.

Lemma max_list_with_shift (a : nat) cs :
  a `max` max_list_with (fun p => p.2 + height p.1) ((fun c => (c, a + 1)) <$> cs) =
  a + max_list_with (fun c => S (height c)) cs.
Proof. induction cs as [|c cs IH]; [simpl; lia|]. rewrite fmap_cons. simpl. lia. Qed.

Lemma max_depth_loop_spec fuel stack mx :
  sizes stack.*1 <= fuel ->
  max_depth_loop fuel stack mx = mx `max` max_list_with (fun p => p.2 + height p.1) stack.
Proof.
  revert stack mx. induction fuel as [|fuel IH]; intros [|[[h k d cs] a] stack] mx Hf; simpl.
  - lia.
  - rewrite fmap_cons in Hf. unfold sizes in Hf. simpl in Hf. lia.
  - lia.
  - rewrite fmap_cons in Hf. unfold sizes in Hf. simpl in Hf. fold (sizes cs) (sizes stack.*1) in Hf.
    rewrite IH.
    + rewrite max_list_with_app, max_list_with_reverse. pose proof (max_list_with_shift a cs).
      destruct (Nat.ltb_spec mx a); lia.
    + rewrite fmap_app, sizes_app, fmap_reverse, (sizes_Permutation _ _ (reverse_Permutation _)).
      rewrite <- list_fmap_compose, list_fmap_id. lia.
Qed.

Lemma max_depth_height n : max_depth n = height n.
Proof.
  unfold max_depth. rewrite max_depth_loop_spec; simpl; [lia|]. unfold sizes. simpl. lia.
Qed.

(** The nodes of a tree in pre-order. *)
Fixpoint nodes n : list (Node H V) := n :: (children n ≫= nodes).
Definition forest l : list (Node H V) := l ≫= nodes.

Lemma nodes_eq n : nodes n = n :: forest (children n).
Proof. by destruct n. Qed.

Lemma forest_cons n l : forest (n :: l) = nodes n ++ forest l.
Proof. done. Qed.

Lemma forest_app l1 l2 : forest (l1 ++ l2) = forest l1 ++ forest l2.
Proof. apply bind_app. Qed.

Lemma length_nodes n : length (nodes n) = size n.
Proof.
  induction n as [h k d cs IH] using Node_induction. rewrite nodes_eq, size_children. simpl. f_equal.
  induction IH as [|c cs Hc _ IHcs]; [done|]. by rewrite forest_cons, length_app, Hc, IHcs.
Qed.

Lemma iter_collect_forest fuel stack : sizes stack <= fuel -> iter_collect fuel stack = forest stack.
Proof.
  revert stack. induction fuel as [|fuel IH]; intros [|n stack] Hf; try done; unfold sizes in Hf; simpl in Hf.
  - rewrite size_children in Hf. lia.
  - rewrite size_children in Hf. cbn [iter_collect iter_next]. rewrite IH.
    + rewrite forest_cons, nodes_eq, forest_app. done.
    + rewrite sizes_app. unfold sizes in *. lia.
Qed.

Lemma node_iter_forest (t : ForkTree H V) : node_iter t = forest (roots t).
Proof. by apply iter_collect_forest. Qed.

Lemma forest_Permutation l1 l2 : l1 ≡ₚ l2 -> forest l1 ≡ₚ forest l2.
Proof. unfold forest. by intros ->. Qed.

Definition triple n : H * Z * V := (hash n, number n, data n).

Lemma removed_iter_forest l : removed_iter l = triple <$> forest (reverse l).
Proof.
  unfold removed_iter. rewrite iter_collect_forest; [done|].
  by rewrite (sizes_Permutation _ _ (reverse_Permutation l)).
Qed.
End walks.

(** ** The search

    The reference for [find_node_index_where]: a post-order walk that asks a
    node only when none of its children with a smaller number is an ancestor of
    the block looked for, and, once an ancestor is met, only moves up. *)
Section search.
Context {H V E : Type}.
Variables (is_descendent_of : H -> H -> res E bool) (h : H) (num : Z) (predicate : V -> bool).
Implicit Types (n c : Node H V) (l cs : list (Node H V)).

Inductive visited := NotAncestor | NoMatch | Match (stack : list (Node H V * nat)).

Definition settle n : visited := if predicate (data n) then Match [] else NoMatch.

Definition visit_from (vis : Node H V -> res (Error E) visited) n :
    nat -> list (Node H V) -> res (Error E) visited :=
  fix go i cs :=
    match cs with
    | [] => b ← descends is_descendent_of (hash n) h; Ok (if (b : bool) then settle n else NotAncestor)
    | c :: cs' =>
        if (number c <? num)%Z then
          r ← vis c;
          match r with
          | NotAncestor => go (S i) cs'
          | NoMatch => Ok (settle n)
          | Match st => Ok (Match (st ++ [(n, S i)]))
          end
        else go (S i) cs'
    end.

Fixpoint visit n : res (Error E) visited :=
  let 'mkNode _ _ _ cs := n in visit_from visit n 0 cs.

Lemma visit_eq n : visit n = visit_from visit n 0 (children n).
Proof. by destruct n. Qed.

(** What the loop does from a given stack. *)
Fixpoint visit_stack (stack : list (Node H V * nat)) (is_descendent : bool) :
    res (Error E) (bool * bool * list (Node H V * nat)) :=
  match stack with
  | [] => Ok (false, is_descendent, [])
  | (n, i) :: stack' =>
      r ← (if is_descendent then Ok (settle n) else visit_from visit n i (drop i (children n)));
      match r with
      | NotAncestor => visit_stack stack' false
      | NoMatch => visit_stack stack' true
      | Match st => Ok (true, true, st ++ stack')
      end
  end.

(** An upper bound on the number of iterations left. *)
Definition todo (p : Node H V * nat) : nat := 1 + 2 * sizes (drop p.2 (children p.1)).

Lemma todo_next n i c : children n !! i = Some c -> todo (n, i) = todo (n, S i) + 2 * size c.
Proof. intros Hc. unfold todo. simpl. rewrite (drop_S _ _ _ Hc). unfold sizes. simpl. lia. Qed.

Lemma todo_enter c : S (todo (c, 0)) = 2 * size c.
Proof. unfold todo. simpl. rewrite drop_0, (size_children c). lia. Qed.

Lemma search_loop_spec fuel stack b :
  sum_list_with todo stack < fuel ->
  search_loop is_descendent_of h num predicate fuel stack b = visit_stack stack b.
Proof.
  revert stack b. induction fuel as [|fuel IH]; intros stack b Hf; [lia|].
  destruct stack as [|[n i] stack]; [done|]. cbn [sum_list_with] in Hf. simpl.
  destruct (children n !! i) as [c|] eqn:Hc.
  - pose proof (todo_next _ _ _ Hc). pose proof (todo_enter c). rewrite (drop_S _ _ _ Hc).
    destruct b; [|replace (i + 1) with (S i) by lia].
    + unfold settle. simpl. destruct (predicate (data n)); [done|]. apply IH. lia.
    + destruct (number c <? num)%Z eqn:Hn.
      * rewrite IH by (cbn [sum_list_with]; lia).
        cbn [visit_stack]. rewrite drop_0, <- visit_eq. cbn [visit_from]. rewrite Hn.
        fold (visit_from visit n). destruct (visit c) as [[| |st]| |]; simpl; try done.
        by rewrite <- app_assoc.
      * rewrite IH by (cbn [sum_list_with]; lia). cbn [visit_stack visit_from]. rewrite Hn. done.
  - rewrite drop_ge by (by apply lookup_ge_None). assert (0 < todo (n, i)) by (unfold todo; lia).
    destruct b; simpl.
    + unfold settle. destruct (predicate (data n)); [done|]. apply IH. lia.
    + destruct (descends is_descendent_of (hash n) h) as [[] | |]; simpl; try done.
      * unfold settle. destruct (predicate (data n)); [done|]. apply IH. lia.
      * apply IH. lia.
Qed.

(** The search over the roots. *)
Fixpoint visit_roots (i : nat) l : res (Error E) (option (list nat)) :=
  match l with
  | [] => Ok None
  | root :: l' =>
      if (num <=? number root)%Z then visit_roots (S i) l'
      else
        r ← visit root;
        match r with
        | NotAncestor => visit_roots (S i) l'
        | NoMatch => Ok None
        | Match st => Ok (Some (i :: reverse ((fun p => p.2 - 1) <$> st)))
        end
  end.

Lemma search_roots_spec i l : search_roots is_descendent_of h num predicate i l = visit_roots i l.
Proof.
  revert i. induction l as [|n l IH]; intros i; [done|]. simpl. destruct (num <=? number n)%Z; [apply IH|].
  rewrite search_loop_spec.
  2:{ cbn [sum_list_with]. pose proof (todo_enter n). lia. }
  cbn [visit_stack]. rewrite drop_0, <- visit_eq.
  destruct (visit n) as [[| |st]| |]; simpl; try done. by rewrite app_nil_r.
Qed.
End search.
Arguments visited : clear implicits.

(** ** Rebuilding a flattened tree *)
Section rebuilding.
Context {H V : Type}.
Implicit Types (l : list (Entry H V)) (cs rs : list (Node H V)).

Definition attach cs : Entry H V -> Entry H V := fun '(p, n) => (p, set_children n (children n ++ cs)).

Lemma attach_push c cs e : attach cs (push_child c e) = attach (c :: cs) e.
Proof. destruct e as [p [h k d cs']]. simpl. by rewrite <- app_assoc. Qed.

Lemma rebuild_children l k cs rs :
  k < length l ->
  rebuild (length l + length cs) (l ++ ((fun c => (Some k, c)) <$> reverse cs)) rs =
  rebuild (length l) (alter (attach cs) k l) rs.
Proof.
  revert l. induction cs as [|c cs IH]; intros l Hk.
  - rewrite app_nil_r, Nat.add_0_r. f_equal. symmetry. apply list_alter_id.
    intros [p [h n d cs]]. simpl. by rewrite app_nil_r.
  - rewrite reverse_cons, fmap_app, list_fmap_singleton, app_assoc. simpl length. rewrite Nat.add_succ_r. cbn [rebuild].
    rewrite last_snoc, removelast_last.
    destruct (lookup_lt_is_Some_2 l k Hk) as [e He]. rewrite (lookup_app_l_Some _ _ _ _ He). simpl.
    rewrite alter_app_l by done.
    pose proof (IH (alter (push_child c) k l)) as IH'. rewrite length_alter in IH'.
    rewrite IH' by done. f_equal. rewrite list_alter_alter_eq. apply list_alter_ext; [|done].
    intros e' _. apply attach_push.
Qed.

Lemma rebuild_roots cs rs :
  rebuild (length cs) ((fun n => (None, n)) <$> reverse cs) rs = Some (rs ++ cs).
Proof.
  revert rs. induction cs as [|c cs IH]; intros rs; [by rewrite app_nil_r|].
  rewrite reverse_cons, fmap_app, list_fmap_singleton. cbn [length rebuild]. rewrite last_snoc, removelast_last, IH.
  by rewrite <- app_assoc.
Qed.
End rebuilding.

Abbreviation R l := (rebuild (length l) l []).

(** A kept node in the middle of the vector, its children at the end: the same
    as the node with its children attached. *)
Lemma rebuild_keep {H V} (output rest : list (Entry H V)) p n cs :
  R (output ++ (p, set_children n []) :: rest ++ ((fun c => (Some (length output), c)) <$> reverse cs)) =
  R (output ++ (p, set_children n cs) :: rest).
Proof.
  rewrite app_comm_cons, app_assoc. rewrite length_app, length_fmap, length_reverse.
  rewrite rebuild_children by (rewrite length_app; simpl; lia).
  rewrite !length_app. f_equal. rewrite alter_app_r_alt by done. rewrite Nat.sub_diag. simpl.
  by destruct n.
Qed.

Section map_spec.
Context {H V W : Type}.
Variable f : H -> Z -> V -> W.

Fixpoint map_node (n : Node H V) : Node H W :=
  let 'mkNode h k d cs := n in mkNode h k (f h k d) (map_node <$> cs).

Definition map_entry : Entry H V -> Entry H W := fun '(p, n) => (p, map_node n).

Lemma map_entry_children (i : nat) cs :
  map_entry <$> ((fun c => (Some i, c)) <$> reverse cs) =
  (fun c => (Some i, c)) <$> reverse (map_node <$> cs).
Proof. by rewrite <- fmap_reverse, <- !list_fmap_compose. Qed.

Lemma map_visit_level queue output next :
  let '(output', next') := foldl (map_visit f) (output, next) queue in
  R (output ++ (map_entry <$> queue) ++ (map_entry <$> next)) = R (output' ++ (map_entry <$> next')) /\
  sizes next'.*2 + length queue = sizes next.*2 + sizes queue.*2.
Proof.
  revert output next. induction queue as [|[p [h k d cs]] queue IH]; intros output next.
  { split; [done|]. unfold sizes; simpl; lia. }
  cbn [foldl map_visit]. specialize (IH (output ++ [(p, mkNode h k (f h k d) [])])
    (next ++ ((fun c => (Some (length output), c)) <$> reverse cs))).
  destruct (foldl _ _ _) as [output' next'] eqn:Hq. destruct IH as [IH Hsz]. split.
  - rewrite <- IH, !fmap_app, map_entry_children, !fmap_cons, <- !app_assoc. simpl.
    pose proof (rebuild_keep output ((map_entry <$> queue) ++ (map_entry <$> next)) p
      (mkNode h k (f h k d) []) (map_node <$> cs)) as Hk. simpl in Hk. rewrite <- app_assoc in Hk.
    by rewrite Hk.
  - rewrite fmap_app, sizes_app, <- list_fmap_compose in Hsz.
    change (snd ∘ (fun c => (Some (length output), c))) with (@id (Node H V)) in Hsz.
    rewrite list_fmap_id, (sizes_Permutation _ _ (reverse_Permutation cs)) in Hsz.
    rewrite fmap_cons. unfold sizes in *. simpl. lia.
Qed.

Lemma map_levels_spec fuel output queue :
  sizes queue.*2 <= fuel ->
  R (map_levels f fuel output queue) = R (output ++ (map_entry <$> queue)).
Proof.
  revert output queue. induction fuel as [|fuel IH]; intros output [|[p n] queue] Hf.
  - by rewrite app_nil_r.
  - rewrite fmap_cons in Hf. unfold sizes in Hf. simpl in Hf. rewrite size_children in Hf. lia.
  - by rewrite app_nil_r.
  - cbn [map_levels]. pose proof (map_visit_level ((p, n) :: queue) output []) as Hl.
    destruct (foldl _ _ _) as [output' next']. destruct Hl as [Hl Hsz]. rewrite app_nil_r in Hl.
    rewrite IH, Hl; [done|]. unfold sizes in *. simpl in *. lia.
Qed.

Lemma map_spec t : map f t = Ok (mkTree (map_node <$> roots t) (best_finalized_number t)).
Proof.
  unfold map. rewrite map_levels_spec.
  - simpl. rewrite <- list_fmap_compose. change (map_entry ∘ (fun n => (@None nat, n))) with
      ((fun n : Node H W => (@None nat, n)) ∘ map_node). rewrite list_fmap_compose, fmap_reverse.
    rewrite length_fmap, length_reverse, rebuild_roots. done.
  - rewrite <- list_fmap_compose. change (snd ∘ (fun n : Node H V => (@None nat, n))) with (@id (Node H V)).
    by rewrite list_fmap_id, (sizes_Permutation _ _ (reverse_Permutation (roots t))).
Qed.
End map_spec.

Section filter_spec.
Context {H V : Type}.
Variable filter : H -> Z -> V -> FilterAction.
Implicit Types (n c : Node H V) (l cs : list (Node H V)).

(** What remains of a tree, and the subtrees that are cut off. *)
Fixpoint filter_node n : option (Node H V) :=
  let 'mkNode h k d cs := n in
  match filter h k d with
  | Remove => None
  | KeepTree => Some n
  | KeepNode => Some (mkNode h k d (omap filter_node cs))
  end.

Fixpoint cut_node n : list (Node H V) :=
  let 'mkNode h k d cs := n in
  match filter h k d with
  | Remove => [n]
  | KeepTree => []
  | KeepNode => cs ≫= cut_node
  end.

Definition filter_entry : Entry H V -> option (Entry H V) := fun '(p, n) => pair p <$> filter_node n.

Lemma omap_reverse {A B} (g : A -> option B) (l : list A) : omap g (reverse l) = reverse (omap g l).
Proof.
  induction l as [|x l IH]; [done|]. rewrite reverse_cons, omap_app, IH. simpl.
  destruct (g x); simpl; [by rewrite reverse_cons|by rewrite app_nil_r].
Qed.

Lemma filter_entry_pairs (o : option nat) l :
  omap filter_entry (pair o <$> l) = pair o <$> omap filter_node l.
Proof.
  induction l as [|c l IH]; [done|]. rewrite fmap_cons. simpl.
  destruct (filter_node c); simpl; [f_equal|]; exact IH.
Qed.

Lemma snd_pairs (o : option nat) l : (pair o <$> l).*2 = l.
Proof. rewrite <- list_fmap_compose. apply list_fmap_id. Qed.

Lemma filter_visit_level queue retained removed next :
  let '(retained', removed', next') := foldl (filter_visit filter) (retained, removed, next) queue in
  R (retained ++ omap filter_entry queue ++ omap filter_entry next) =
    R (retained' ++ omap filter_entry next') /\
  removed ++ ((queue ++ next).*2 ≫= cut_node) ≡ₚ removed' ++ (next'.*2 ≫= cut_node) /\
  sizes next'.*2 + length queue <= sizes next.*2 + sizes queue.*2.
Proof.
  revert retained removed next. induction queue as [|[p [h k d cs]] queue IH]; intros retained removed next.
  { split; [done|]. split; [done|]. unfold sizes; simpl; lia. }
  cbn [foldl filter_visit hash number data children set_children].
  destruct (filter h k d) eqn:Hact.
  - specialize (IH retained (removed ++ [mkNode h k d cs]) next).
    destruct (foldl _ _ _) as [[retained' removed'] next']. destruct IH as (IH & Hcut & Hsz).
    split; [|split].
    + rewrite <- IH. simpl. by rewrite Hact.
    + rewrite <- Hcut. simpl. rewrite Hact. by rewrite <- app_assoc.
    + rewrite fmap_cons. unfold sizes in *. simpl. lia.
  - specialize (IH (retained ++ [(p, mkNode h k d [])]) removed
      (next ++ (pair (Some (length retained)) <$> reverse cs))).
    change (fun c => (Some (length retained), c)) with (@pair (option nat) (Node H V) (Some (length retained))).
    destruct (foldl _ _ _) as [[retained' removed'] next']. destruct IH as (IH & Hcut & Hsz).
    split; [|split].
    + rewrite <- IH, omap_app, filter_entry_pairs, omap_reverse, <- !app_assoc. simpl. rewrite Hact. simpl.
      pose proof (rebuild_keep retained (omap filter_entry queue ++ omap filter_entry next) p
        (mkNode h k d []) (omap filter_node cs)) as Hk. simpl in Hk. rewrite <- app_assoc in Hk. exact (eq_sym Hk).
    + rewrite <- Hcut. simpl. rewrite Hact, !fmap_app, snd_pairs, !bind_app.
      rewrite (reverse_Permutation cs). solve_Permutation.
    + rewrite fmap_app, sizes_app, snd_pairs, (sizes_Permutation _ _ (reverse_Permutation cs)) in Hsz.
      rewrite fmap_cons. unfold sizes in *. simpl. lia.
  - specialize (IH (retained ++ [(p, mkNode h k d cs)]) removed next).
    destruct (foldl _ _ _) as [[retained' removed'] next']. destruct IH as (IH & Hcut & Hsz).
    split; [|split].
    + rewrite <- IH, <- !app_assoc. simpl. by rewrite Hact.
    + rewrite <- Hcut. simpl. by rewrite Hact.
    + rewrite fmap_cons. unfold sizes in *. simpl. lia.
Qed.

Lemma filter_levels_spec fuel retained removed queue :
  sizes queue.*2 <= fuel ->
  let '(retained', removed') := filter_levels filter fuel retained removed queue in
  R retained' = R (retained ++ omap filter_entry queue) /\ removed' ≡ₚ removed ++ (queue.*2 ≫= cut_node).
Proof.
  revert retained removed queue. induction fuel as [|fuel IH]; intros retained removed [|[p n] queue] Hf.
  - by rewrite !app_nil_r.
  - rewrite fmap_cons in Hf. unfold sizes in Hf. simpl in Hf. rewrite size_children in Hf. lia.
  - by rewrite !app_nil_r.
  - cbn [filter_levels]. pose proof (filter_visit_level ((p, n) :: queue) retained removed []) as Hl.
    destruct (foldl _ _ _) as [[retained' removed'] next']. destruct Hl as (Hl & Hcut & Hsz).
    rewrite !app_nil_r in *. specialize (IH retained' removed' next').
    destruct (filter_levels _ _ _ _ _) as [retained'' removed'']. destruct IH as [IH Hrem].
    + unfold sizes in *. simpl in *. lia.
    + by rewrite IH, Hl, Hrem, <- Hcut.
Qed.

Lemma drain_filter_spec t :
  let roots' := omap filter_node (roots t) in
  exists removed, removed ≡ₚ roots t ≫= cut_node /\
    drain_filter filter t =
    ((if bool_decide (removed = []) then set_roots roots' t else rebalance (set_roots roots' t)),
     Ok (removed_iter removed)).
Proof.
  simpl. unfold drain_filter, st_get, st_lift, st_modify, mbind, st_bind. simpl.
  pose proof (filter_levels_spec (sizes (roots t)) [] [] (pair None <$> reverse (roots t))) as Hl.
  change (fun n : Node H V => (@None nat, n)) with (@pair (option nat) (Node H V) None).
  destruct (filter_levels _ _ _ _ _) as [retained removed]. rewrite snd_pairs in Hl.
  destruct Hl as [Hr Hcut]; [by rewrite (sizes_Permutation _ _ (reverse_Permutation (roots t)))|].
  exists removed. split; [rewrite Hcut; simpl; by rewrite (reverse_Permutation (roots t))|].
  simpl in Hr. rewrite filter_entry_pairs, omap_reverse in Hr.
  rewrite Hr, length_fmap, length_reverse.
  pose proof (rebuild_roots (omap filter_node (roots t)) []) as Hroots. simpl in Hroots.
  change (fun n : Node H V => (@None nat, n)) with (@pair (option nat) (Node H V) None) in Hroots.
  rewrite Hroots. simpl. by case_bool_decide.
Qed.
End filter_spec.

(** ** Rebalancing *)
Section sorting.
Context {A : Type} (key : A -> nat).

Lemma insert_by_Permutation x l : insert_by key x l ≡ₚ x :: l.
Proof.
  induction l as [|y l IH]; [done|]. simpl. destruct (key y <=? key x); [done|]. rewrite IH. solve_Permutation.
Qed.

Lemma sort_by_key_Permutation l : sort_by_key key l ≡ₚ l.
Proof. induction l as [|x l IH]; [done|]. simpl. by rewrite insert_by_Permutation, IH. Qed.

Lemma insert_by_sorted x l :
  StronglySorted (fun a b => key b <= key a) l -> StronglySorted (fun a b => key b <= key a) (insert_by key x l).
Proof.
  induction 1 as [|y l Hs IH Hy]; simpl; [by repeat constructor|].
  destruct (Nat.leb_spec (key y) (key x)) as [Hle|Hlt].
  - constructor; [by constructor|]. constructor; [done|]. eapply Forall_impl; [exact Hy|]. simpl. lia.
  - constructor; [done|]. rewrite insert_by_Permutation. constructor; [lia|done].
Qed.

Lemma sort_by_key_sorted l : StronglySorted (fun a b => key b <= key a) (sort_by_key key l).
Proof. induction l; simpl; [constructor|by apply insert_by_sorted]. Qed.
End sorting.

Section rebalancing.
Context {H V : Type}.
Implicit Types (n c : Node H V) (l cs : list (Node H V)).

Lemma rebalance_children n : children (rebalance_node n) ≡ₚ rebalance_node <$> children n.
Proof.
  destruct n as [h k d cs]. simpl. rewrite sort_by_key_Permutation, <- list_fmap_compose. done.
Qed.

Lemma rebalance_node_fields n :
  hash (rebalance_node n) = hash n /\ number (rebalance_node n) = number n /\ data (rebalance_node n) = data n.
Proof. by destruct n. Qed.

Lemma forest_rebalance_nodes l :
  Forall (fun n => nodes (rebalance_node n) ≡ₚ rebalance_node <$> nodes n) l ->
  forest (rebalance_node <$> l) ≡ₚ rebalance_node <$> forest l.
Proof.
  induction 1 as [|n l Hn _ IH]; [done|]. rewrite fmap_cons, !forest_cons, fmap_app. by rewrite Hn, IH.
Qed.

Lemma nodes_rebalance n : nodes (rebalance_node n) ≡ₚ rebalance_node <$> nodes n.
Proof.
  induction n as [h k d cs IH] using Node_induction. rewrite !nodes_eq, fmap_cons. f_equiv.
  rewrite (forest_Permutation _ _ (rebalance_children (mkNode h k d cs))). by apply forest_rebalance_nodes.
Qed.

Lemma forest_rebalance l : forest (rebalance_roots l) ≡ₚ rebalance_node <$> forest l.
Proof.
  unfold rebalance_roots. rewrite (forest_rebalance_nodes (sort_by_key max_depth l)).
  - apply fmap_Permutation, forest_Permutation, sort_by_key_Permutation.
  - apply Forall_forall. intros n _. apply nodes_rebalance.
Qed.

Lemma triple_rebalance n : triple (rebalance_node n) = triple n.
Proof. by destruct n. Qed.

Lemma rebalance_triples l : triple <$> forest (rebalance_roots l) ≡ₚ triple <$> forest l.
Proof.
  rewrite forest_rebalance, <- list_fmap_compose.
  apply reflexive_eq, list_fmap_ext. intros i n _. apply triple_rebalance.
Qed.

Lemma max_list_with_Permutation {A} (f : A -> nat) (l1 l2 : list A) :
  l1 ≡ₚ l2 -> max_list_with f l1 = max_list_with f l2.
Proof. induction 1; simpl; lia. Qed.

Lemma height_rebalance n : height (rebalance_node n) = height n.
Proof.
  induction n as [h k d cs IH] using Node_induction.
  pose proof (rebalance_children (mkNode h k d cs)) as Hp.
  destruct (rebalance_node (mkNode h k d cs)) as [h' k' d' cs'] eqn:Hn. simpl in Hp |- *.
  rewrite (max_list_with_Permutation _ _ _ Hp). clear Hp Hn.
  induction IH as [|c cs Hc _ IHcs]; [done|]. rewrite fmap_cons. simpl. lia.
Qed.

Definition by_height l : Prop := StronglySorted (fun a b => height b <= height a) l.

Lemma sorted_map {A B} (P : A -> A -> Prop) (Q : B -> B -> Prop) (f : A -> B) (l : list A) :
  (forall x y, x ∈ l -> y ∈ l -> P x y -> Q (f x) (f y)) -> StronglySorted P l -> StronglySorted Q (f <$> l).
Proof.
  intros Hf Hs. induction Hs as [|x l Hs IH Hx]; [constructor|]. rewrite fmap_cons.
  rewrite Forall_forall in Hx. constructor.
  - apply IH. intros; apply Hf; by try constructor.
  - apply Forall_fmap, Forall_forall. intros y Hy. apply Hf; [by constructor..|]. by apply Hx.
Qed.

Lemma children_sorted n : by_height (children (rebalance_node n)).
Proof.
  destruct n as [h k d cs]. simpl. eapply sorted_map; [|apply sort_by_key_sorted].
  intros x y Hx Hy. cbn beta. rewrite !max_depth_height.
  assert (forall p, p ∈ sort_by_key (fun p => max_depth p.1) ((fun c => (c, rebalance_node c)) <$> cs) ->
    height p.2 = height p.1) as Hh.
  { intros p Hp. rewrite sort_by_key_Permutation in Hp. apply list_elem_of_fmap in Hp as (c & -> & _).
    simpl. apply height_rebalance. }
  by rewrite !Hh.
Qed.

Lemma rebalance_sorted l :
  by_height (rebalance_roots l) /\ forall n, n ∈ forest (rebalance_roots l) -> by_height (children n).
Proof.
  split.
  - refine (sorted_map _ _ _ _ _ (sort_by_key_sorted max_depth l)).
    intros x y _ _. cbn beta. by rewrite !max_depth_height, !height_rebalance.
  - intros n. rewrite forest_rebalance. intros (n' & -> & _)%list_elem_of_fmap. apply children_sorted.
Qed.
End rebalancing.

(** ** Nodes reached by a path *)
Section paths.
Context {H V : Type}.
Implicit Types (n c m : Node H V) (l cs : list (Node H V)).

Fixpoint descend n (path : list nat) {struct path} : option (Node H V) :=
  match path with [] => Some n | i :: path' => c ← children n !! i; descend c path' end.

Lemma node_at_descend l i path : node_at l (i :: path) = (n ← l !! i; descend n path).
Proof.
  revert l i. induction path as [|j path IH]; intros l i.
  - simpl. by destruct (l !! i).
  - cbn [node_at]. destruct (l !! i) as [n|]; [|done]. apply IH.
Qed.

Lemma descend_app n p q : descend n (p ++ q) = (m ← descend n p; descend m q).
Proof.
  revert n. induction p as [|i p IH]; intros n; [done|]. simpl. destruct (children n !! i); [apply IH|done].
Qed.


Lemma alter_split {A} (g : A -> A) (l : list A) (i : nat) (x : A) :
  l !! i = Some x -> exists l1 l2 : list A, l = l1 ++ x :: l2 /\ alter g i l = l1 ++ g x :: l2.
Proof.
  intros (l1 & l2 & -> & ->)%list_elem_of_split_length. exists l1, l2. split; [done|].
  rewrite alter_app_r_alt by done. by rewrite Nat.sub_diag.
Qed.

Section updates.
Variable f : Node H V -> Node H V.

Fixpoint update n (path : list nat) {struct path} : Node H V :=
  match path with
  | [] => f n
  | i :: path' => set_children n (alter (fun c => update c path') i (children n))
  end.

Lemma modify_at_update l i path : modify_at f l (i :: path) = alter (fun n => update n path) i l.
Proof.
  revert l i. induction path as [|j path IH]; intros l i; [done|].
  change (modify_at f l (i :: j :: path))
    with (alter (fun n => set_children n (modify_at f (children n) (j :: path))) i l).
  apply list_alter_ext; [|done]. intros n _. by rewrite IH.
Qed.

(** A node that kept its fields and the hashes of its children, and, if the
    updated node [m] kept its height, the heights of its children. *)
Definition like m n' n : Prop :=
  triple n' = triple n /\ hash <$> children n' = hash <$> children n /\
  (height (f m) = height m -> height <$> children n' = height <$> children n).

Lemma like_refl m n : like m n n.
Proof. done. Qed.

Lemma triple_hash n n' : triple n' = triple n -> hash n' = hash n /\ number n' = number n.
Proof. unfold triple. by intros [= -> -> _]. Qed.

Lemma triple_set_children n cs : triple (set_children n cs) = triple n.
Proof. by destruct n. Qed.

Lemma children_set n cs : children (set_children n cs) = cs.
Proof. by destruct n. Qed.

Lemma height_children n : height n = max_list_with S (height <$> children n).
Proof. destruct n as [h k d cs]. simpl. induction cs as [|c cs IH]; [done|]. rewrite fmap_cons. simpl. lia. Qed.

Record updated m n n' : Prop := mk_updated {
  up_triple : triple n' = triple n;
  up_height : height (f m) = height m -> height n' = height n;
  up_nodes x : x ∈ nodes n' -> x ∈ nodes (f m) \/ exists x0, x0 ∈ nodes n /\ like m x x0;
  up_triples ts : triple <$> nodes (f m) ≡ₚ ts ++ (triple <$> nodes m) ->
    triple <$> nodes n' ≡ₚ ts ++ (triple <$> nodes n);
}.

Lemma update_spec n path m :
  descend n path = Some m -> triple (f m) = triple m -> updated m n (update n path).
Proof.
  intros Hd Hm. revert n Hd. induction path as [|i path IH]; intros n Hd.
  - injection Hd as ->. split; auto.
  - simpl in Hd. destruct (children n !! i) as [c|] eqn:Hc; [|done]. simpl in Hd.
    destruct (IH c Hd) as [Ht Hh Hn Hts]. cbn [update].
    destruct (alter_split (fun c => update c path) _ _ _ Hc) as (l1 & l2 & Hl & ->).
    assert (Hlike : like m (set_children n (l1 ++ update c path :: l2)) n).
    { split; [apply triple_set_children|]. rewrite children_set, Hl, !fmap_app, !fmap_cons.
      destruct (triple_hash _ _ Ht) as [-> _]. split; [done|]. intros Hf. by rewrite Hh. }
    split.
    + apply Hlike.
    + intros Hf. rewrite (height_children n), height_children. by rewrite (proj2 (proj2 Hlike) Hf).
    + intros x. rewrite (nodes_eq (set_children _ _)), (nodes_eq n), children_set, Hl, !forest_app, !forest_cons.
      rewrite elem_of_cons, !elem_of_app. intros [->|[Hx|[Hx|Hx]]].
      * right. exists n. split; [constructor|done].
      * right. exists x. split; [|apply like_refl]. rewrite elem_of_cons, !elem_of_app. auto.
      * destruct (Hn x Hx) as [|(x0 & Hx0 & Hlk)]; [by left|right]. exists x0. split; [|done].
        rewrite elem_of_cons, !elem_of_app. auto.
      * right. exists x. split; [|apply like_refl]. rewrite elem_of_cons, !elem_of_app. auto.
    + intros ts Hts0. rewrite (nodes_eq (set_children _ _)), (nodes_eq n), !fmap_cons.
      rewrite triple_set_children, children_set, Hl.
      rewrite !forest_app, !forest_cons, !fmap_app, (Hts ts Hts0). solve_Permutation.
Qed.

Record forest_updated m l l' : Prop := mk_forest_updated {
  fu_hashes : hash <$> l' = hash <$> l;
  fu_heights : height (f m) = height m -> height <$> l' = height <$> l;
  fu_nodes x : x ∈ forest l' -> x ∈ nodes (f m) \/ exists x0, x0 ∈ forest l /\ like m x x0;
  fu_triples ts : triple <$> nodes (f m) ≡ₚ ts ++ (triple <$> nodes m) ->
    triple <$> forest l' ≡ₚ ts ++ (triple <$> forest l);
}.

Lemma modify_at_spec l i path m :
  node_at l (i :: path) = Some m -> triple (f m) = triple m ->
  forest_updated m l (modify_at f l (i :: path)).
Proof.
  rewrite node_at_descend, modify_at_update. intros Hat Hm.
  destruct (l !! i) as [c|] eqn:Hc; [|done]. simpl in Hat.
  destruct (update_spec c path m Hat Hm) as [Ht Hh Hn Hts].
  destruct (alter_split (fun c => update c path) _ _ _ Hc) as (l1 & l2 & -> & ->).
  split.
  - rewrite !fmap_app, !fmap_cons. by destruct (triple_hash _ _ Ht) as [-> _].
  - intros Hf. rewrite !fmap_app, !fmap_cons. by rewrite Hh.
  - intros x. rewrite !forest_app, !forest_cons, !elem_of_app. intros [Hx|[Hx|Hx]].
    + right. exists x. rewrite !elem_of_app. auto using like_refl.
    + destruct (Hn x Hx) as [|(x0 & Hx0 & Hlk)]; [by left|right]. exists x0. rewrite !elem_of_app. auto.
    + right. exists x. rewrite !elem_of_app. auto using like_refl.
  - intros ts Hts0. rewrite !forest_app, !forest_cons, !fmap_app, (Hts ts Hts0). solve_Permutation.
Qed.
End updates.
End paths.

(** ** Loops whose test does not fail *)
Section pure_loops.
Context {A E : Type}.
Implicit Types (f : A -> res E bool) (g : A -> bool) (l : list A).

Lemma partition_res_pure f g l :
  (forall x, x ∈ l -> f x = Ok (g x)) ->
  partition_res f l = ((List.filter g l, List.filter (fun x => negb (g x)) l), Ok tt).
Proof.
  induction l as [|x l IH]; intros Hf; [done|]. simpl. rewrite (Hf x) by constructor.
  rewrite IH by (intros; apply Hf; by constructor). by destruct (g x).
Qed.

Lemma position_res_pure f g l :
  (forall x, x ∈ l -> f x = Ok (g x)) ->
  exists r, position_res f l = Ok r /\
  match r with
  | None => forall x, x ∈ l -> g x = false
  | Some i => exists x, l !! i = Some x /\ g x = true /\ forall y, y ∈ take i l -> g y = false
  end.
Proof.
  induction l as [|x l IH]; intros Hf; simpl.
  { exists None. split; [done|]. by intros x ?%not_elem_of_nil. }
  rewrite (Hf x) by constructor. simpl. destruct (g x) eqn:Hg.
  { exists (Some 0). split; [done|]. exists x. split; [done|]. split; [done|]. by intros y ?%not_elem_of_nil. }
  destruct IH as (r & -> & Hr); [intros; apply Hf; by constructor|]. simpl.
  eexists; split; [done|]. destruct r as [i|]; simpl.
  - destruct Hr as (y & Hy & Hgy & Hb). exists y. split; [done|]. split; [done|].
    intros z. rewrite elem_of_cons. intros [->|Hz]; [done|by apply Hb].
  - intros y. rewrite elem_of_cons. intros [->|Hy]; [done|by apply Hr].
Qed.

Lemma filter_elem g l x : x ∈ List.filter g l <-> x ∈ l /\ g x = true.
Proof.
  induction l as [|y l IH]; simpl; [by rewrite elem_of_nil; intuition|].
  rewrite (elem_of_cons l x y). destruct (g y) eqn:Hg; rewrite ?elem_of_cons, IH; [|intuition congruence].
  split; [intros [->|[? ?]]; auto|intros [[?|?] ?]; auto].
Qed.

Lemma filter_submseteq g l : List.filter g l ⊆+ l.
Proof. induction l as [|y l IH]; simpl; [done|]. destruct (g y); [by constructor|by apply submseteq_cons]. Qed.

Lemma filter_negb_nil g l : List.filter (fun x => negb (g x)) l = [] -> List.filter g l = l.
Proof. induction l as [|y l IH]; simpl; [done|]. destruct (g y); simpl; [intros; by rewrite IH|done]. Qed.
End pure_loops.

Lemma swap_remove_spec {A} (l : list A) i x :
  l !! i = Some x -> exists rest, swap_remove i l = Some (x, rest) /\ x :: rest ≡ₚ l /\ take i rest = take i l.
Proof.
  intros Hx. unfold swap_remove. rewrite Hx. simpl.
  apply lookup_lt_Some in Hx as Hlt. destruct l as [|y l' _] using rev_ind; [done|].
  rewrite last_snoc. simpl. eexists; split; [done|]. rewrite length_app in *. simpl in *.
  replace (length l' + 1 - 1) with (length l') by lia.
  destruct (decide (i = length l')) as [->|Hne].
  - rewrite lookup_app_r, Nat.sub_diag in Hx by done. simplify_eq/=.
    rewrite insert_app_r_alt, take_app_length by done.
    split; [by rewrite Permutation_app_comm|]. by rewrite take_app_length, firstn_all.
  - rewrite lookup_app_l in Hx by lia. rewrite insert_app_l by lia.
    rewrite take_app_length' by (by rewrite length_insert). split.
    + rewrite (Permutation_app_comm l' [y]). simpl.
      rewrite <- (take_drop_middle l' i x Hx) at 2. rewrite (insert_take_drop l' i y) by lia. solve_Permutation.
    + by rewrite take_insert_ge, take_app_le by lia.
Qed.

(** ** Detaching a node *)
Section detaching.
Context {H V : Type}.
Implicit Types (n c m : Node H V) (l cs : list (Node H V)).

Lemma vec_remove_spec {A} (l : list A) i x :
  l !! i = Some x -> exists l1 l2 : list A, l = l1 ++ x :: l2 /\ vec_remove i l = Some (x, l1 ++ l2).
Proof.
  intros Hx. exists (take i l), (drop (S i) l). unfold vec_remove. rewrite Hx. simpl.
  by rewrite take_drop_middle.
Qed.

(** Detaching splits the nodes of the forest. *)
Lemma detach_spec l path m :
  node_at l path = Some m ->
  exists l', detach l path = Some (m, l') /\
    triple <$> forest l ≡ₚ (triple <$> nodes m) ++ (triple <$> forest l').
Proof.
  revert l. induction path as [|i [|j path] IH]; intros l Hat; [done|..].
  - simpl in Hat. destruct (vec_remove_spec l i m Hat) as (l1 & l2 & -> & Hrem). exists (l1 ++ l2).
    split; [exact Hrem|]. rewrite !forest_app, forest_cons, !fmap_app. solve_Permutation.
  - change (node_at l (i :: j :: path)) with (n ← l !! i; node_at (children n) (j :: path)) in Hat.
    change (detach l (i :: j :: path)) with
      (n ← l !! i; '(r, cs) ← detach (children n) (j :: path); Some (r, <[i := set_children n cs]> l)).
    destruct (l !! i) as [n|] eqn:Hi; [|done]. cbn [mbind option_bind] in *.
    destruct (IH _ Hat) as (cs & -> & Hp). cbn [mbind option_bind]. eexists; split; [done|].
    rewrite <- (take_drop_middle l i n Hi) at 1.
    rewrite insert_take_drop by (by eapply lookup_lt_Some).
    rewrite !forest_app, !forest_cons, (nodes_eq n), (nodes_eq (set_children n cs)), children_set.
    rewrite !fmap_app, !fmap_cons, triple_set_children, Hp. solve_Permutation.
Qed.
End detaching.

(** ** [map] and [drain_filter] *)

(** The level-by-level flattening and rebuilding of [map] computes the
    recursive map of the tree: same shape, same order of the children, every
    payload mapped once, and no index ever out of range. *)
Theorem map_is_recursive {H V W} (f : H -> Z -> V -> W) t :
  map f t = Ok (mkTree (map_node f <$> roots t) (best_finalized_number t)).
Proof. apply map_spec. Qed.

Section filter_partition.
Context {H V : Type} (filter : H -> Z -> V -> FilterAction).

Lemma omap_forest_cons (n : Node H V) l :
  forest (omap (filter_node filter) (n :: l)) =
  from_option nodes [] (filter_node filter n) ++ forest (omap (filter_node filter) l).
Proof. simpl. by destruct (filter_node filter n). Qed.

Lemma filter_node_split (n : Node H V) :
  triple <$> nodes n ≡ₚ
  (triple <$> from_option nodes [] (filter_node filter n)) ++ (triple <$> forest (cut_node filter n)).
Proof.
  induction n as [h k d cs IH] using Node_induction. cbn [filter_node cut_node].
  destruct (filter h k d).
  - simpl. by rewrite app_nil_r.
  - cbn [from_option]. rewrite !nodes_eq, !fmap_cons. simpl. f_equiv.
    induction IH as [|c cs Hc _ IHcs]; [done|].
    rewrite omap_forest_cons, forest_cons, bind_cons, forest_app, !fmap_app, Hc, IHcs. solve_Permutation.
  - simpl. by rewrite app_nil_r.
Qed.

Lemma filter_forest_split (l : list (Node H V)) :
  triple <$> forest l ≡ₚ
  (triple <$> forest (omap (filter_node filter) l)) ++ (triple <$> forest (l ≫= cut_node filter)).
Proof.
  induction l as [|n l IH]; [done|].
  rewrite omap_forest_cons, forest_cons, bind_cons, forest_app, !fmap_app, filter_node_split, IH. solve_Permutation.
Qed.

(** [drain_filter] never panics; what remains is, up to rebalancing, the
    tree filtered recursively, in which a removed node takes its subtree along
    and [KeepTree] stops the filtering; the nodes that remain and the nodes
    returned are together exactly those of the old tree. *)
Theorem drain_filter_partitions t :
  exists t' removed, drain_filter filter t = (t', Ok removed) /\
    best_finalized_number t' = best_finalized_number t /\
    (roots t' = omap (filter_node filter) (roots t) \/
     roots t' = rebalance_roots (omap (filter_node filter) (roots t))) /\
    triple <$> forest (roots t) ≡ₚ (triple <$> forest (roots t')) ++ removed /\
    (removed = [] -> roots t' = omap (filter_node filter) (roots t)).
Proof.
  destruct (drain_filter_spec filter t) as (removed & Hp & ->). do 2 eexists. split; [done|].
  assert (Hrem : removed_iter removed ≡ₚ triple <$> forest (roots t ≫= cut_node filter)).
  { rewrite removed_iter_forest. apply fmap_Permutation, forest_Permutation.
    by rewrite reverse_Permutation, Hp. }
  case_bool_decide as Hnil; simpl.
  - split; [done|]. split; [by left|]. split; [|done]. rewrite Hrem. apply filter_forest_split.
  - split; [done|]. split; [by right|]. split.
    + rewrite rebalance_triples, Hrem. apply filter_forest_split.
    + intros He. destruct Hnil. rewrite removed_iter_forest in He. apply fmap_nil_inv in He.
      destruct removed as [|x l _] using rev_ind; [done|].
      rewrite reverse_snoc, forest_cons, nodes_eq in He. done.
Qed.
End filter_partition.
