(* ===== verification/ForkTreeAncestry.v ===== *)
(** * Fork trees and the ancestry of blocks

    The contract of [fork-tree] is about the ancestry relation of the chain: the
    client's [is_descendent_of] decides it, every branch of the tree follows it,
    and siblings are on different branches.  Under these assumptions, which are
    the documented use of the library, the operations of [ForkTree] do what
    they promise: the search finds the deepest matching ancestor, an import adds
    exactly one node and keeps the tree well formed, and finalizing a block
    leaves exactly its descendants. *)
From stdpp Require Import base list sorting.
From Stdlib Require Import ZArith Lia.
From S2P Require Import Prelude ForkTree.
Set Warnings "-clear-no-such-hyp".
Import ForkTree.ForkTree.

(** The ancestry of a chain: [anc a b] when [b] is a strict descendant of [a];
    a block has a number, and its ancestors form one branch. *)
Class Ancestry {H : Type} (anc : H -> H -> bool) (num_of : H -> Z) : Prop := {
  anc_number a b : anc a b = true -> (num_of a < num_of b)%Z;
  anc_trans a b c : anc a b = true -> anc b c = true -> anc a c = true;
  anc_branch a b c : anc a c = true -> anc b c = true -> a = b \/ anc a b = true \/ anc b a = true;
}.

Section ancestry.
Context {H V E : Type} `{EqDecision H} (anc : H -> H -> bool) (num_of : H -> Z) `{!Ancestry anc num_of}.

Definition anceq (a b : H) : Prop := a = b \/ anc a b = true.

Lemma anc_irrefl a : anc a a <> true.
Proof. intros Ha%anc_number. lia. Qed.

Lemma anceq_trans a b c : anceq a b -> anceq b c -> anceq a c.
Proof. intros [->|Hab] [->|Hbc]; unfold anceq; eauto using anc_trans. Qed.

Lemma anceq_anc a b c : anceq a b -> anc b c = true -> anc a c = true.
Proof. intros [->|Hab]; eauto using anc_trans. Qed.

Lemma anceq_branch a b c : anceq a c -> anceq b c -> a = b \/ anc a b = true \/ anc b a = true.
Proof. intros [->|Ha] [->|Hb]; eauto using anc_branch. Qed.

Implicit Types (n c m : Node H V) (l cs : list (Node H V)) (t : ForkTree H V).

(** ** Well-formed trees *)
Record antichain l : Prop := mk_antichain {
  chain_nodup : NoDup (hash <$> l);
  chain_free a b : a ∈ l -> b ∈ l -> anc (hash a) (hash b) <> true;
}.

Record node_ok n : Prop := mk_node_ok {
  ok_number : number n = num_of (hash n);
  ok_siblings : antichain (children n);
  ok_edge c : c ∈ children n -> anc (hash n) (hash c) = true;
}.

Record wf l : Prop := mk_wf {
  wf_roots : antichain l;
  wf_node n : n ∈ forest l -> node_ok n;
}.

Lemma elem_of_forest m l : m ∈ forest l <-> exists n, n ∈ l /\ m ∈ nodes n.
Proof. unfold forest. rewrite list_elem_of_bind. naive_solver. Qed.

Lemma nodes_self n : n ∈ nodes n.
Proof. rewrite nodes_eq. constructor. Qed.

Lemma forest_root n l : n ∈ l -> n ∈ forest l.
Proof. intros Hn. apply elem_of_forest. eauto using nodes_self. Qed.

Lemma forest_sub n m l : n ∈ l -> m ∈ nodes n -> m ∈ forest l.
Proof. intros. apply elem_of_forest. eauto. Qed.

Lemma nodes_child n c m : c ∈ children n -> m ∈ nodes c -> m ∈ nodes n.
Proof. intros Hc Hm. rewrite nodes_eq. constructor. by apply (forest_sub c). Qed.

Lemma wf_number l n : wf l -> n ∈ forest l -> number n = num_of (hash n).
Proof. intros Hwf Hn. by apply ok_number, (wf_node l). Qed.

(** The subtree of a node lies below the node. *)
Lemma nodes_below n m : (forall x, x ∈ nodes n -> node_ok x) -> m ∈ nodes n -> m = n \/ anc (hash n) (hash m) = true.
Proof.
  induction n as [h k d cs IH] using Node_induction. intros Hok. rewrite nodes_eq, elem_of_cons.
  intros [->|(c & Hc & Hm)%elem_of_forest]; [by left|right]. simpl in Hc.
  rewrite Forall_forall in IH.
  pose proof (ok_edge _ (Hok _ (nodes_self _)) c Hc) as Hedge.
  destruct (IH c Hc) as [->|Hlt]; [|done..|by eapply anc_trans].
  intros x Hx. apply Hok. by apply (nodes_child _ c).
Qed.

Lemma nodes_anceq n m : (forall x, x ∈ nodes n -> node_ok x) -> m ∈ nodes n -> anceq (hash n) (hash m).
Proof. intros Hok Hm. destruct (nodes_below n m Hok Hm) as [->|Hlt]; [by left|by right]. Qed.

(** Two siblings are not above a common block. *)
Lemma antichain_unique l a b x :
  antichain l -> a ∈ l -> b ∈ l -> anceq (hash a) x -> anceq (hash b) x -> a = b.
Proof.
  intros Hl Ha Hb Hax Hbx. destruct (anceq_branch _ _ _ Hax Hbx) as [Heq|[Hab|Hba]].
  - apply list_elem_of_lookup in Ha as [i Hi], Hb as [j Hj].
    assert (i = j) as ->; [|congruence].
    apply (NoDup_lookup (hash <$> l) i j (hash a)); [by apply Hl|..];
      rewrite list_lookup_fmap; [by rewrite Hi|rewrite Hj; simpl; by rewrite Heq].
  - by destruct (chain_free _ Hl a b).
  - by destruct (chain_free _ Hl b a).
Qed.

Lemma forest_children n m l : n ∈ forest l -> m ∈ forest (children n) -> m ∈ forest l.
Proof.
  intros (r & Hr & Hn)%elem_of_forest Hm. apply (forest_sub r); [done|].
  clear Hr. induction r as [h k d cs IH] using Node_induction. rewrite nodes_eq, elem_of_cons in Hn |- *.
  destruct Hn as [->|(c & Hc & Hn)%elem_of_forest]; [by right|right].
  rewrite Forall_forall in IH. apply (forest_sub c); [done|]. by apply IH.
Qed.

Lemma wf_children n l : wf l -> n ∈ forest l -> wf (children n).
Proof.
  intros Hwf Hn. split; [by apply ok_siblings, (wf_node l)|]. intros m Hm. apply (wf_node l Hwf).
  by apply (forest_children n).
Qed.

Lemma antichain_sublist l l' : antichain l' -> l ⊆+ l' -> antichain l.
Proof.
  intros Hl Hsub. split.
  - apply submseteq_Permutation in Hsub as [k Hk]. pose proof (chain_nodup _ Hl) as Hnd.
    rewrite Hk, fmap_app in Hnd. by apply NoDup_app in Hnd as [? _].
  - intros a b Ha Hb. apply (chain_free _ Hl); by eapply elem_of_submseteq.
Qed.

Lemma wf_sub l l' : wf l' -> l ⊆+ l' -> wf l.
Proof.
  intros Hwf Hsub. split; [by apply (antichain_sublist _ l'); [apply Hwf|]|].
  intros n (r & Hr & Hn)%elem_of_forest. apply (wf_node _ Hwf). apply (forest_sub r); [|done].
  by eapply elem_of_submseteq.
Qed.

(** Ancestry between nodes of the tree is the tree's own structure. *)
Lemma anceq_nodes n a b :
  (forall x, x ∈ nodes n -> node_ok x) -> a ∈ nodes n -> b ∈ nodes n -> anceq (hash a) (hash b) -> b ∈ nodes a.
Proof.
  revert a b. induction n as [h k d cs IH] using Node_induction. intros a b Hok.
  rewrite Forall_forall in IH. set (n := mkNode h k d cs) in *.
  assert (Hokc : forall c, c ∈ cs -> forall x, x ∈ nodes c -> node_ok x)
    by (intros c Hc x Hx; apply Hok; by apply (nodes_child _ c)).
  intros Ha Hb Hab. rewrite (nodes_eq n), elem_of_cons in Ha.
  destruct Ha as [->|(c & Hc & Ha)%elem_of_forest]; [done|].
  pose proof (ok_edge _ (Hok _ (nodes_self n)) c Hc) as Hnc.
  pose proof (nodes_anceq c a (Hokc c Hc) Ha) as Hca.
  rewrite (nodes_eq n), elem_of_cons in Hb. destruct Hb as [->|(c' & Hc' & Hb)%elem_of_forest].
  - destruct (anc_irrefl (hash c)). eapply anceq_anc; [exact (anceq_trans _ _ _ Hca Hab)|done].
  - assert (c = c') as <-; [|by apply (IH c Hc a b (Hokc c Hc))].
    apply (antichain_unique (children n) c c' (hash b)); try done.
    + by apply ok_siblings, Hok, nodes_self.
    + by eapply anceq_trans.
    + by apply nodes_anceq; [apply Hokc|].
Qed.

Lemma anceq_forest l a b :
  wf l -> a ∈ forest l -> b ∈ forest l -> anceq (hash a) (hash b) -> b ∈ nodes a.
Proof.
  intros Hwf (r & Hr & Ha)%elem_of_forest (r' & Hr' & Hb)%elem_of_forest Hab.
  assert (Hok : forall r, r ∈ l -> forall x, x ∈ nodes r -> node_ok x)
    by (intros r0 Hr0 x Hx; apply (wf_node _ Hwf); by apply (forest_sub r0)).
  assert (r = r') as <-; [|apply (anceq_nodes r); [by apply Hok|done..]].
  apply (antichain_unique l r r' (hash b)); try done; [by apply Hwf| |].
  - eapply anceq_trans; [|done]. by apply nodes_anceq; [apply Hok|].
  - by apply nodes_anceq; [apply Hok|].
Qed.

Lemma wf_nodes_ok l a x : wf l -> a ∈ forest l -> x ∈ nodes a -> node_ok x.
Proof.
  intros Hwf Ha. rewrite nodes_eq, elem_of_cons. intros [->|Hx]; [by apply (wf_node l)|].
  by apply (wf_node (children a)); [apply (wf_children a l)|].
Qed.

(** A hash occurs once. *)
Lemma wf_unique l a b : wf l -> a ∈ forest l -> b ∈ forest l -> hash a = hash b -> a = b.
Proof.
  intros Hwf Ha Hb Heq. pose proof (anceq_forest l a b Hwf Ha Hb (or_introl Heq)) as Hba.
  destruct (nodes_below a b) as [->|Hlt]; [intros x; by apply (wf_nodes_ok l)|done|done|].
  rewrite Heq in Hlt. by destruct (anc_irrefl (hash b)).
Qed.

(** ** Changes that keep a tree well formed *)
Lemma antichain_hashes l l' : hash <$> l' ≡ₚ hash <$> l -> antichain l -> antichain l'.
Proof.
  intros Hp Hl. assert (Hin : forall a, a ∈ l' -> exists a0, a0 ∈ l /\ hash a0 = hash a).
  { intros a Ha. assert (Hh : hash a ∈ hash <$> l) by (rewrite <- Hp; by apply list_elem_of_fmap_2).
    apply list_elem_of_fmap in Hh as (a0 & Heq & Ha0). by exists a0. }
  split; [rewrite Hp; by apply Hl|].
  intros a b Ha Hb. destruct (Hin a Ha) as (a0 & Ha0 & <-), (Hin b Hb) as (b0 & Hb0 & <-).
  by apply (chain_free _ Hl).
Qed.

Lemma node_ok_shape n n' :
  hash n' = hash n -> number n' = number n -> hash <$> children n' ≡ₚ hash <$> children n ->
  node_ok n -> node_ok n'.
Proof.
  intros Hh Hk Hc [Hnum Hsib Hedge]. split; [congruence|by eapply antichain_hashes|].
  intros c Hin. rewrite Hh. assert (Hx : hash c ∈ hash <$> children n) by (rewrite <- Hc; by apply list_elem_of_fmap_2).
  apply list_elem_of_fmap in Hx as (c0 & -> & Hc0). by apply Hedge.
Qed.

Lemma rebalance_hashes l : hash <$> (rebalance_node <$> l) = hash <$> l.
Proof. rewrite <- list_fmap_compose. apply list_fmap_ext. intros i n _. by destruct n. Qed.

Lemma wf_rebalance l : wf l -> wf (rebalance_roots l).
Proof.
  intros Hwf. split.
  - eapply antichain_hashes; [|apply Hwf]. unfold rebalance_roots.
    rewrite rebalance_hashes. apply fmap_Permutation, sort_by_key_Permutation.
  - intros n. rewrite forest_rebalance. intros (n0 & -> & Hn0)%list_elem_of_fmap.
    apply (node_ok_shape n0); [by destruct n0..| |by apply (wf_node l)].
    by rewrite rebalance_children, rebalance_hashes.
Qed.

(** ** The search *)
Variable is_descendent_of : H -> H -> res E bool.
Hypothesis decides_ancestry : forall a b, is_descendent_of a b = Ok (anc a b).

Lemma descends_anc a b : descends is_descendent_of a b = Ok (anc a b).
Proof. unfold descends. by rewrite decides_ancestry. Qed.

Definition stack_path (st : list (Node H V * nat)) : list nat := reverse ((fun p => p.2 - 1) <$> st).

Section target.
Variables (h : H) (predicate : V -> bool).

(** [m] is the deepest of the given nodes that is an ancestor of [h] and passes
    the predicate. *)
Record deepest (ns : list (Node H V)) m : Prop := mk_deepest {
  deepest_in : m ∈ ns;
  deepest_anc : anc (hash m) h = true;
  deepest_pred : predicate (data m) = true;
  deepest_max m' : m' ∈ ns -> anc (hash m') h = true -> predicate (data m') = true ->
    m' = m \/ anc (hash m') (hash m) = true;
}.

Definition no_candidate (ns : list (Node H V)) : Prop :=
  forall m, m ∈ ns -> anc (hash m) h = true -> predicate (data m) = true -> False.

(** What the walk of a subtree reports. *)
Definition visit_post n (r : visited H V) : Prop :=
  match r with
  | NotAncestor => forall m, m ∈ nodes n -> anc (hash m) h <> true
  | NoMatch => anc (hash n) h = true /\ no_candidate (nodes n)
  | Match st => anc (hash n) h = true /\ exists m, descend n (stack_path st) = Some m /\ deepest (nodes n) m
  end.

Lemma settle_post n :
  anc (hash n) h = true ->
  (forall m, m ∈ forest (children n) -> anc (hash m) h = true -> predicate (data m) = true -> False) ->
  visit_post n (settle predicate n).
Proof.
  intros Hn Hno. unfold settle. destruct (predicate (data n)) eqn:Hp; simpl; (split; [done|]).
  - exists n. split; [done|]. split; try done; [apply nodes_self|].
    intros m'. rewrite nodes_eq, elem_of_cons. intros [->|Hm] Ha Hpm; [by left|]. by destruct (Hno m').
  - intros m. rewrite nodes_eq, elem_of_cons. intros [->|Hm] Ha Hpm; [congruence|]. by apply (Hno m).
Qed.

(** An ancestor of [h] below one child excludes ancestors below the others. *)
Lemma one_branch n c m :
  (forall x, x ∈ nodes n -> node_ok x) -> c ∈ children n -> anc (hash c) h = true ->
  m ∈ forest (children n) -> anc (hash m) h = true -> m ∈ nodes c.
Proof.
  intros Hok Hc Hch (c' & Hc' & Hm)%elem_of_forest Hmh.
  assert (c' = c) as ->; [|done]. apply (antichain_unique (children n) c' c h); try done.
  - by apply ok_siblings, Hok, nodes_self.
  - right. eapply anceq_anc; [|done]. apply nodes_anceq; [|done].
    intros x Hx. apply Hok. by apply (nodes_child _ c').
  - by right.
Qed.

Lemma visit_from_post n i cs :
  (forall x, x ∈ nodes n -> node_ok x) ->
  Forall (fun c => exists r, visit is_descendent_of h (num_of h) predicate c = Ok r /\ visit_post c r) cs ->
  drop i (children n) = cs ->
  (forall m, m ∈ forest (take i (children n)) -> anc (hash m) h <> true) ->
  exists r, visit_from is_descendent_of h (num_of h) predicate
      (visit is_descendent_of h (num_of h) predicate) n i cs = Ok r /\ visit_post n r.
Proof.
  intros Hok Hcs. revert i. induction Hcs as [|c cs (r & Hr & Hpost) _ IH]; intros i Hd Hpre; cbn [visit_from].
  - rewrite descends_anc. simpl. eexists; split; [done|].
    assert (Hall : take i (children n) = children n).
    { rewrite <- (take_drop i (children n)) at 2. by rewrite Hd, app_nil_r. }
    rewrite Hall in Hpre. destruct (anc (hash n) h) eqn:Hn.
    + apply settle_post; [done|]. intros m Hm Ha _. by apply (Hpre m).
    + intros m. rewrite nodes_eq, elem_of_cons. intros [->|Hm]; [by rewrite Hn|by apply Hpre].
  - assert (Hc : children n !! i = Some c) by (rewrite <- (Nat.add_0_r i), <- lookup_drop, Hd; done).
    assert (Hcin : c ∈ children n) by by eapply list_elem_of_lookup_2.
    assert (Hokc : forall x, x ∈ nodes c -> node_ok x) by (intros; apply Hok; by apply (nodes_child _ c)).
    assert (Hd' : drop (S i) (children n) = cs) by (by rewrite (drop_S _ _ _ Hc) in Hd; simplify_eq).
    assert (Hnext : (forall m, m ∈ nodes c -> anc (hash m) h <> true) ->
      forall m, m ∈ forest (take (S i) (children n)) -> anc (hash m) h <> true).
    { intros Hno m. rewrite (take_S_r _ _ _ Hc), forest_app, elem_of_app, forest_cons, elem_of_app.
      intros [Hm|[Hm|Hm%not_elem_of_nil]]; [by apply Hpre|by apply Hno|done]. }
    destruct (Z.ltb_spec (number c) (num_of h)) as [Hlt|Hge].
    + rewrite Hr. simpl. destruct r as [| |st]; simpl in Hpost.
      * apply IH; auto.
      * destruct Hpost as [Hch Hno]. eexists; split; [done|].
        pose proof (ok_edge _ (Hok _ (nodes_self n)) c Hcin). apply settle_post; [by eapply anc_trans|].
        intros m Hm Ha. apply Hno; [|done]. by apply (one_branch n).
      * destruct Hpost as (Hch & m & Hdesc & [Hmin Hmh Hmp Hmax]). eexists; split; [done|].
        pose proof (ok_edge _ (Hok _ (nodes_self n)) c Hcin) as Hedge. split; [by eapply anc_trans|].
        exists m. split.
        { unfold stack_path in *. rewrite fmap_app, reverse_app. cbn [fmap list_fmap reverse].
          simpl. rewrite Nat.sub_0_r, Hc. done. }
        split; try done; [by apply (nodes_child _ c)|].
        intros m'. rewrite nodes_eq, elem_of_cons. intros [->|Hm'] Ha Hp.
        -- right. destruct (nodes_anceq c m Hokc Hmin) as [<-|Hcm]; [done|exact (anc_trans _ _ _ Hedge Hcm)].
        -- apply Hmax; [|done..]. by apply (one_branch n).
    + apply IH; [done|]. apply Hnext. intros m Hm Hmh%anc_number.
      pose proof (ok_number _ (Hokc c (nodes_self c))).
      destruct (nodes_below c m Hokc Hm) as [->|Hcm%anc_number]; lia.
Qed.

Lemma visit_post_ok n :
  (forall x, x ∈ nodes n -> node_ok x) ->
  exists r, visit is_descendent_of h (num_of h) predicate n = Ok r /\ visit_post n r.
Proof.
  induction n as [hh k d cs IH] using Node_induction. intros Hok. rewrite visit_eq.
  apply visit_from_post; [done| |done|].
  - rewrite Forall_forall in IH |- *. intros c Hc. apply IH; [done|].
    intros x Hx. apply Hok. by apply (nodes_child _ c).
  - intros m. rewrite take_0. by intros ?%not_elem_of_nil.
Qed.

(** Below the other roots there is no ancestor of [h] once one root is one. *)
Lemma one_root l r m :
  wf l -> r ∈ l -> anc (hash r) h = true -> m ∈ forest l -> anc (hash m) h = true -> m ∈ nodes r.
Proof.
  intros Hwf Hr Hrh (r' & Hr' & Hm)%elem_of_forest Hmh.
  assert (r' = r) as ->; [|done]. apply (antichain_unique l r' r h); try done; [by apply Hwf| |by right].
  right. eapply anceq_anc; [|done]. apply nodes_anceq; [|done].
  intros x Hx. apply (wf_node _ Hwf). by apply (forest_sub r').
Qed.

Definition found l (r : option (list nat)) : Prop :=
  match r with
  | Some path => exists i p m, path = i :: p /\ node_at l path = Some m /\ deepest (forest l) m
  | None => no_candidate (forest l)
  end.

Lemma visit_roots_found l i :
  wf l -> (forall m, m ∈ forest (take i l) -> anc (hash m) h <> true) ->
  exists r, visit_roots is_descendent_of h (num_of h) predicate i (drop i l) = Ok r /\ found l r.
Proof.
  intros Hwf. remember (drop i l) as todo eqn:Hd. revert i Hd.
  induction todo as [|n todo IH]; intros i Hd Hpre; cbn [visit_roots].
  - exists None. split; [done|]. assert (take i l = l) as Hall.
    { rewrite <- (take_drop i l) at 2. by rewrite <- Hd, app_nil_r. }
    rewrite Hall in Hpre. intros m Hm Ha _. by apply (Hpre m).
  - assert (Hi : l !! i = Some n) by (rewrite <- (Nat.add_0_r i), <- lookup_drop, <- Hd; done).
    assert (Hin : n ∈ l) by by eapply list_elem_of_lookup_2.
    assert (Hok : forall x, x ∈ nodes n -> node_ok x)
      by (intros x Hx; apply (wf_node _ Hwf); by apply (forest_sub n)).
    rewrite (drop_S _ _ _ Hi) in Hd. simplify_eq.
    assert (Hnext : (forall m, m ∈ nodes n -> anc (hash m) h <> true) ->
      exists r, visit_roots is_descendent_of h (num_of h) predicate (S i) (drop (S i) l) = Ok r /\ found l r).
    { intros Hno. apply IH; [done|]. intros m.
      rewrite (take_S_r _ _ _ Hi), forest_app, elem_of_app, forest_cons, elem_of_app.
      intros [Hm|[Hm|Hm%not_elem_of_nil]]; [by apply Hpre|by apply Hno|done]. }
    destruct (Z.leb_spec (num_of h) (number n)) as [Hge|Hlt].
    + apply Hnext. intros m Hm Hmh%anc_number. pose proof (ok_number _ (Hok n (nodes_self n))).
      destruct (nodes_below n m Hok Hm) as [->|Hcm%anc_number]; lia.
    + destruct (visit_post_ok n Hok) as (r & -> & Hpost). simpl. destruct r as [| |st]; [by apply Hnext|..].
      * destruct Hpost as [Hnh Hno]. exists None. split; [done|]. intros m Hm Ha.
        apply Hno; [|done]. by apply (one_root l).
      * destruct Hpost as (Hnh & m & Hdesc & [Hmin Hmh Hmp Hmax]). eexists; split; [done|].
        exists i, (stack_path st), m. split; [done|]. split; [rewrite node_at_descend, Hi; exact Hdesc|].
        split; try done; [by apply (forest_sub n)|].
        intros m' Hm' Ha. apply Hmax; [|done]. by apply (one_root l).
Qed.

Lemma find_index_found t :
  wf (roots t) ->
  exists r, find_node_index_where is_descendent_of t h (num_of h) predicate = Ok r /\ found (roots t) r.
Proof.
  intros Hwf. unfold find_node_index_where. rewrite search_roots_spec.
  apply (visit_roots_found (roots t) 0 Hwf). intros m. rewrite take_0. by intros ?%not_elem_of_nil.
Qed.

(** In a well-formed tree [find_node_where] never fails and returns the
    deepest node that is an ancestor of the given block and passes the
    predicate, or nothing when there is no such node. *)
Theorem find_node_where_deepest t :
  wf (roots t) ->
  match find_node_where is_descendent_of t h (num_of h) predicate with
  | Ok (Some n) => deepest (forest (roots t)) n
  | Ok None => no_candidate (forest (roots t))
  | _ => False
  end.
Proof.
  intros Hwf. unfold find_node_where. destruct (find_index_found t Hwf) as ([path|] & -> & Hf); simpl.
  - destruct Hf as (i & p & m & -> & -> & Hd). done.
  - done.
Qed.
End target.

(** ** [import] *)
Definition sorted l : Prop := by_height l /\ forall n, n ∈ forest l -> by_height (children n).

Lemma by_height_eq l l' : height <$> l' = height <$> l -> by_height l -> by_height l'.
Proof.
  revert l'. induction l as [|n l IH]; intros [|n' l'] Heq Hs; try done.
  rewrite !fmap_cons in Heq. injection Heq as Hn Hl. inversion Hs as [|? ? Hs' Hall]; subst.
  constructor; [by apply IH|]. apply Forall_forall. intros x Hx.
  assert (Hh : height x ∈ height <$> l) by (rewrite <- Hl; by apply list_elem_of_fmap_2).
  apply list_elem_of_fmap in Hh as (y & -> & Hy). rewrite Forall_forall in Hall. rewrite Hn. by apply Hall.
Qed.

Lemma by_height_snoc l x : by_height l -> height x = 0 -> by_height (l ++ [x]).
Proof.
  intros Hs Hx. induction Hs as [|n l Hs IH Hn]; simpl; [by repeat constructor|].
  constructor; [done|]. apply Forall_app. split; [done|]. constructor; [lia|constructor].
Qed.

Lemma sorted_rebalance l : sorted (rebalance_roots l).
Proof. apply rebalance_sorted. Qed.

Section import.
Variables (h : H) (d : V).
Let leaf : Node H V := mkNode h (num_of h) d [].

Lemma antichain_snoc l :
  antichain l -> h ∉ hash <$> l -> (forall a, a ∈ l -> anc (hash a) h <> true /\ anc h (hash a) <> true) ->
  antichain (l ++ [leaf]).
Proof.
  intros Hl Hfresh Hfree. split.
  - rewrite fmap_app. apply NoDup_app. split; [apply Hl|]. split; [|apply NoDup_singleton].
    intros x Hx ->%list_elem_of_singleton. done.
  - intros a b. rewrite !elem_of_app, !list_elem_of_singleton.
    intros [Ha| ->] [Hb| ->]; [by apply (chain_free _ Hl)|by apply Hfree..|apply anc_irrefl].
Qed.

Lemma leaf_ok : node_ok leaf.
Proof.
  apply mk_node_ok; [done| |by intros c ?%not_elem_of_nil].
  apply mk_antichain; [constructor|by intros a b ?%not_elem_of_nil].
Qed.

(** The new node is put below its deepest ancestor. *)
Lemma wf_add_child l i p m :
  wf l -> node_at l (i :: p) = Some m -> deepest h (fun _ => true) (forest l) m ->
  h ∉ hash <$> forest l -> (forall n, n ∈ forest l -> anc h (hash n) <> true) ->
  wf (modify_at (fun n => set_children n (children m ++ [leaf])) l (i :: p)).
Proof.
  intros Hwf Hat [Hin Hanc _ Hmax] Hfresh Hdesc. set (f := fun n => set_children n (children m ++ [leaf])).
  destruct (modify_at_spec f l i p m Hat (triple_set_children _ _)) as [Hh _ Hn _].
  pose proof (wf_node _ Hwf m Hin) as Hm.
  assert (Hsub : forall c, c ∈ children m -> c ∈ forest l)
    by (intros c Hc; apply (forest_children m); [done|by apply forest_root]).
  split; [eapply antichain_hashes; [by rewrite Hh|apply Hwf]|].
  intros x [Hx|(x0 & Hx0 & Ht & Hc & _)]%Hn.
  - unfold f in Hx. rewrite nodes_eq, children_set, elem_of_cons, forest_app, elem_of_app in Hx.
    destruct Hx as [->|[Hx|Hx]].
    + split; rewrite ?children_set.
      * destruct m. apply Hm.
      * apply antichain_snoc; [apply Hm| |].
        -- intros (c & -> & Hc)%list_elem_of_fmap. apply Hfresh. apply list_elem_of_fmap_2. by apply Hsub.
        -- intros c Hc. split; [|by apply Hdesc, Hsub]. intros Hch.
           pose proof (ok_edge _ Hm c Hc) as Hmc.
           destruct (Hmax c (Hsub c Hc) Hch) as [->|Hcm]; [done|by apply (anc_irrefl (hash m))|].
           apply (anc_irrefl (hash c)). by eapply anc_trans.
      * destruct (triple_hash _ _ (triple_set_children m (children m ++ [leaf]))) as [-> _].
        intros c. rewrite elem_of_app, list_elem_of_singleton. intros [Hc| ->]; [by apply Hm|done].
    + by apply (wf_node (children m)); [apply (wf_children m l)|].
    + apply list_elem_of_singleton in Hx as ->. apply leaf_ok.
  - apply triple_hash in Ht as [Hxh Hxn]. apply (node_ok_shape x0); [done..|by rewrite Hc|by apply (wf_node _ Hwf)].
Qed.

Lemma sorted_add_child l i p m :
  sorted l -> node_at l (i :: p) = Some m -> m ∈ forest l -> children m <> [] ->
  sorted (modify_at (fun n => set_children n (children m ++ [leaf])) l (i :: p)).
Proof.
  intros [Hl Hs] Hat Hin Hne. set (f := fun n => set_children n (children m ++ [leaf])).
  destruct (modify_at_spec f l i p m Hat (triple_set_children _ _)) as [_ Hh Hn _].
  assert (Hf : height (f m) = height m).
  { rewrite !height_children. unfold f. rewrite children_set, fmap_app, max_list_with_app.
    destruct (children m) as [|c cs]; [done|]. rewrite fmap_cons. simpl. lia. }
  split; [by eapply by_height_eq; [apply Hh|]|].
  intros x [Hx|(x0 & Hx0 & _ & _ & Hc)]%Hn; [|eapply by_height_eq; [by apply Hc|by apply Hs]].
  unfold f in Hx. rewrite nodes_eq, children_set, elem_of_cons, forest_app, elem_of_app in Hx.
  destruct Hx as [->|[Hx|Hx]].
  - rewrite children_set. apply by_height_snoc; [by apply Hs|done].
  - apply Hs. by apply (forest_children m).
  - apply list_elem_of_singleton in Hx as ->. constructor.
Qed.

(** The vector the new node is pushed to: the children of the deepest ancestor,
    or the roots. *)
Definition siblings l (r : option (list nat)) : list (Node H V) :=
  match r with
  | None => l
  | Some path => default [] (children <$> node_at l path)
  end.

(** The hash is in the tree exactly when it is among the prospective siblings. *)
Lemma duplicate_sibling l r :
  wf l -> found h (fun _ => true) l r ->
  h ∈ hash <$> siblings l r <-> h ∈ hash <$> forest l.
Proof.
  intros Hwf Hf. split; rewrite !list_elem_of_fmap.
  - intros (x & Hx & Hin). exists x. split; [done|]. destruct r as [path|]; [|by apply forest_root].
    destruct Hf as (i & p & m & -> & Hat & [Hm _ _ _]). unfold siblings in Hin. rewrite Hat in Hin.
    apply (forest_children m); [done|by apply forest_root].
  - intros (y & Hy & Hin). exists y. split; [done|]. destruct r as [path|].
    + destruct Hf as (i & p & m & -> & Hat & [Hm Hmh _ Hmax]). unfold siblings. rewrite Hat. cbn [fmap option_fmap option_map default].
      assert (Hym : y ∈ nodes m) by (apply (anceq_forest l m y Hwf); [done..|right; by rewrite <- Hy]).
      rewrite nodes_eq, elem_of_cons in Hym.
      destruct Hym as [->|(c & Hc & Hyc)%elem_of_forest]; [rewrite <- Hy in Hmh; by destruct (anc_irrefl h)|].
      assert (Hcl : c ∈ forest l) by (apply (forest_children m); [done|by apply forest_root]).
      destruct (nodes_below c y) as [->|Hcy]; [intros x; by apply (wf_nodes_ok l)|done|done|].
      rewrite <- Hy in Hcy. pose proof (ok_edge _ (wf_node _ Hwf m Hm) c Hc) as Hmc.
      destruct (Hmax c Hcl Hcy) as [->|Hcm]; [done|by destruct (anc_irrefl (hash m))|].
      destruct (anc_irrefl (hash m)). by eapply anc_trans.
    + simpl. apply elem_of_forest in Hin as (r & Hr & Hin).
      destruct (nodes_below r y) as [->|Hry]; [|done|done|].
      { intros x Hx. apply (wf_node _ Hwf). by apply (forest_sub r). }
      destruct (Hf r); [by apply forest_root|by rewrite Hy|done].
Qed.

(** The tree before it is rebalanced. *)
Definition insert_leaf l (r : option (list nat)) : list (Node H V) :=
  match r with
  | None => siblings l r ++ [leaf]
  | Some path => modify_at (fun n => set_children n (siblings l r ++ [leaf])) l path
  end.

Lemma insert_leaf_spec l r :
  wf l -> found h (fun _ => true) l r -> h ∉ hash <$> forest l ->
  (forall n, n ∈ forest l -> anc h (hash n) <> true) ->
  wf (insert_leaf l r) /\ (triple <$> forest (insert_leaf l r)) ≡ₚ triple leaf :: (triple <$> forest l) /\
  (sorted l -> siblings l r <> [] -> sorted (insert_leaf l r)).
Proof.
  intros Hwf Hf Hfresh Hdesc. destruct r as [path|]; unfold insert_leaf, siblings.
  - destruct Hf as (i & p & m & -> & Hat & Hdeep). rewrite Hat. cbn [fmap option_fmap option_map default].
    split; [by apply wf_add_child|]. split; [|intros Hs Hne; apply sorted_add_child; by try apply Hdeep].
    pose proof (modify_at_spec (fun n => set_children n (children m ++ [leaf])) l i p m Hat
      (triple_set_children _ _)) as Hup.
    apply (fu_triples _ _ _ _ Hup [triple leaf]).
    rewrite !nodes_eq, children_set, !fmap_cons, triple_set_children, forest_app, fmap_app.
    rewrite Permutation_app_comm. simpl. solve_Permutation.
  - split; [split|split].
    + apply antichain_snoc; [apply Hwf| |].
      * intros (a & -> & Ha)%list_elem_of_fmap. apply Hfresh. apply list_elem_of_fmap_2. by apply forest_root.
      * intros a Ha%forest_root. split; [|by apply Hdesc]. intros Hah. by apply (Hf a).
    + intros n. rewrite forest_app, elem_of_app. intros [Hn|Hn%list_elem_of_singleton]; [by apply (wf_node _ Hwf)|].
      subst n. apply leaf_ok.
    + rewrite forest_app, fmap_app, Permutation_app_comm. done.
    + intros [Hl Hs] _. split; [by apply by_height_snoc|].
      intros n. rewrite forest_app, elem_of_app. intros [Hn|Hn%list_elem_of_singleton]; [by apply Hs|].
      subst n. constructor.
Qed.

(** [import] in terms of the search result. *)
Lemma import_eq t r :
  reverts t (num_of h) = false ->
  find_node_index_where is_descendent_of t h (num_of h) (fun _ => true) = Ok r ->
  found h (fun _ => true) (roots t) r ->
  import is_descendent_of h (num_of h) d t =
  if bool_decide (h ∈ hash <$> siblings (roots t) r) then (t, Err Duplicate)
  else
    let t' := set_roots (insert_leaf (roots t) r) t in
    ((if bool_decide (siblings (roots t) r = []) then rebalance t' else t'), Ok (bool_decide (r = None))).
Proof.
  intros Hrev Hfind Hf. unfold import, st_get, st_modify, st_lift, mbind, st_bind, mret, st_ret. simpl.
  rewrite Hrev, Hfind.
  assert (Hex : forall l, existsb (fun elem => bool_decide (hash elem = h)) l = bool_decide (h ∈ hash <$> l)).
  { induction l as [|x l IHl]; [by rewrite bool_decide_false by apply not_elem_of_nil|]. simpl. rewrite IHl.
    apply eq_bool_prop_intro. rewrite orb_True, !bool_decide_spec, elem_of_cons. naive_solver. }
  assert (Hsib : (match r with
    | Some path => n ← expect (node_at (roots t) path); Ok (children n)
    | None => Ok (roots t) end) = @Ok (Error E) _ (siblings (roots t) r)).
  { destruct r as [path|]; [|done]. destruct Hf as (i & p & m & -> & Hat & _). unfold siblings.
    by rewrite Hat. }
  unfold mbind in Hsib. rewrite Hsib, Hex. case_bool_decide; [done|].
  rewrite length_app. simpl. unfold insert_leaf. destruct (siblings (roots t) r) as [|s ss] eqn:Hs.
  - by destruct r.
  - rewrite (proj2 (Nat.eqb_neq _ _)) by (simpl; lia). by destruct r.
Qed.

(** C17: [import] of a block no node of the tree descends from.  If the block is
    in the tree already, the answer is [Duplicate] and nothing changes;
    otherwise exactly one node is added, the tree stays well formed, its levels
    stay sorted by depth, and the answer says whether no ancestor of the block
    was in the tree. *)
Theorem import_adds_one t :
  wf (roots t) -> reverts t (num_of h) = false ->
  (forall n, n ∈ forest (roots t) -> anc h (hash n) <> true) ->
  (h ∈ hash <$> forest (roots t) -> import is_descendent_of h (num_of h) d t = (t, Err Duplicate)) /\
  (h ∉ hash <$> forest (roots t) -> exists t' is_root,
     import is_descendent_of h (num_of h) d t = (t', Ok is_root) /\
     wf (roots t') /\ (sorted (roots t) -> sorted (roots t')) /\
     best_finalized_number t' = best_finalized_number t /\
     triple <$> forest (roots t') ≡ₚ (h, num_of h, d) :: (triple <$> forest (roots t)) /\
     (is_root = true <-> forall n, n ∈ forest (roots t) -> anc (hash n) h <> true)).
Proof.
  intros Hwf Hrev Hdesc. destruct (find_index_found h (fun _ => true) t Hwf) as (r & Hfind & Hf).
  rewrite (import_eq t r Hrev Hfind Hf). pose proof (duplicate_sibling _ _ Hwf Hf) as Hdup.
  split; [intros Hin; by rewrite bool_decide_true by by apply Hdup|]. intros Hfresh.
  rewrite bool_decide_false by (by rewrite Hdup).
  destruct (insert_leaf_spec _ _ Hwf Hf Hfresh Hdesc) as (Hwf' & Htr & Hs).
  do 2 eexists. split; [done|].
  assert (Hroot : bool_decide (r = None) = true <-> forall n, n ∈ forest (roots t) -> anc (hash n) h <> true).
  { rewrite bool_decide_eq_true. split.
    - intros -> n Hn Ha. by apply (Hf n).
    - intros Hno. destruct r as [path|]; [|done].
      destruct Hf as (i & p & m & -> & _ & [Hm Hmh _ _]). by destruct (Hno m Hm). }
  split_and!; try exact Hroot; destruct (bool_decide_reflect (siblings (roots t) r = [])); simpl; auto.
  - by apply wf_rebalance.
  - intros _. apply sorted_rebalance.
  - by rewrite rebalance_triples.
Qed.
End import.

(** ** Finalization *)
Section finalize.
Variable h : H.

Lemma below_test n :
  number n = num_of (hash n) ->
  and_then (num_of h <? number n)%Z (descends is_descendent_of h (hash n)) = Ok (anc h (hash n)).
Proof.
  intros Hn. rewrite descends_anc. destruct (Z.ltb_spec (num_of h) (number n)) as [|Hle]; [done|]. simpl.
  destruct (anc h (hash n)) eqn:Ha; [|done]. apply anc_number in Ha. lia.
Qed.

Lemma above_test n :
  number n = num_of (hash n) ->
  and_then (number n <? num_of h)%Z (descends is_descendent_of (hash n) h) = Ok (anc (hash n) h).
Proof.
  intros Hn. rewrite descends_anc. destruct (Z.ltb_spec (number n) (num_of h)) as [|Hle]; [done|]. simpl.
  destruct (anc (hash n) h) eqn:Ha; [|done]. apply anc_number in Ha. lia.
Qed.

(** The forest keeps exactly the descendants of [h]. *)
Definition keeps_descendants l l' : Prop :=
  forall n, n ∈ forest l' <-> n ∈ forest l /\ anc h (hash n) = true.

Lemma keep_children l n : wf l -> n ∈ l -> hash n = h -> keeps_descendants l (children n).
Proof.
  intros Hwf Hn Hh m. assert (Hnf := forest_root n l Hn). split.
  - intros Hm. split; [by apply (forest_children n)|]. rewrite <- Hh.
    apply elem_of_forest in Hm as (c & Hc & Hm).
    pose proof (ok_edge _ (wf_node _ Hwf n Hnf) c Hc) as Hnc.
    destruct (nodes_below c m) as [->|Hcm]; [|done|done|by eapply anc_trans].
    intros x Hx. apply (wf_nodes_ok l n); [done..|]. by apply (nodes_child _ c).
  - intros [Hm Ha]. rewrite <- Hh in Ha. pose proof (anceq_forest l n m Hwf Hnf Hm (or_intror Ha)) as Hnm.
    rewrite nodes_eq, elem_of_cons in Hnm. destruct Hnm as [->|]; [by destruct (anc_irrefl (hash n))|done].
Qed.

(** If no root is above or equal to [h], its descendants are the trees of the
    roots that descend from it. *)
Lemma keep_filter l :
  wf l -> (forall n, n ∈ l -> anceq (hash n) h -> False) ->
  keeps_descendants l (List.filter (fun n => anc h (hash n)) l).
Proof.
  intros Hwf Hno m. rewrite !elem_of_forest. split.
  - intros (r & [Hr Ha]%filter_elem & Hm). split; [by exists r|].
    assert (Hrm : anceq (hash r) (hash m)).
    { apply nodes_anceq; [|done]. intros x Hx. apply (wf_node _ Hwf). by apply (forest_sub r). }
    destruct Hrm as [<-|Hrm]; [done|by eapply anc_trans].
  - intros [(r & Hr & Hm) Ha]. exists r. split; [|done]. apply filter_elem. split; [done|].
    assert (Hrm : anceq (hash r) (hash m)).
    { apply nodes_anceq; [|done]. intros x Hx. apply (wf_node _ Hwf). by apply (forest_sub r). }
    destruct (anceq_branch _ _ _ Hrm (or_intror Ha)) as [Heq|[Hrh|Hhr]]; [..|done].
    + by destruct (Hno r Hr (or_introl Heq)).
    + by destruct (Hno r Hr (or_intror Hrh)).
Qed.

Lemma finalize_root_cases t :
  wf (roots t) ->
  (exists n, n ∈ roots t /\ hash n = h /\
     @finalize_root H V E _ h t = (mkTree (children n) (Some (num_of h)), Ok (Some (data n)))) \/
  ((forall n, n ∈ roots t -> hash n <> h) /\ @finalize_root H V E _ h t = (t, Ok None)).
Proof.
  intros Hwf. unfold finalize_root, finalize_root_at, st_get, st_modify, st_lift, mbind, st_bind, mret, st_ret.
  destruct (list_find (fun n => hash n = h) (roots t)) as [[i n]|] eqn:Hf.
  - apply list_find_Some in Hf as (Hi & Hh & _). left. exists n.
    assert (Hn : n ∈ roots t) by by eapply list_elem_of_lookup_2.
    split; [done|]. split; [done|]. rewrite Hi. simpl.
    by rewrite (wf_number (roots t) n Hwf (forest_root _ _ Hn)), Hh.
  - right. split; [|done]. apply list_find_None in Hf. rewrite Forall_forall in Hf. exact Hf.
Qed.

(** C29: [finalize] of a block after the best finalized one.  On success the
    tree is well formed and holds exactly the nodes that descend from the
    block; the answer carries the data of the block if it was a root, and says
    otherwise whether the tree changed.  The only error is
    [UnfinalizedAncestor], given when a root is an ancestor of the block, and
    then the tree is unchanged. *)
Theorem finalize_keeps_descendants t :
  wf (roots t) -> reverts t (num_of h) = false ->
  let '(t', r) := finalize is_descendent_of h (num_of h) t in
  match r with
  | Ok answer =>
      wf (roots t') /\ keeps_descendants (roots t) (roots t') /\
      best_finalized_number t' = Some (num_of h) /\
      match answer with
      | Changed (Some v) => exists n, n ∈ roots t /\ hash n = h /\ data n = v
      | Changed None => roots t' <> roots t
      | Unchanged => roots t' = roots t
      end
  | Err e => e = UnfinalizedAncestor /\ t' = t /\ exists n, n ∈ roots t /\ anc (hash n) h = true
  | Panic => False
  end.
Proof.
  intros Hwf Hrev. unfold finalize. erewrite st_bind_ok by done. rewrite Hrev.
  assert (Hnum : forall n, n ∈ roots t -> number n = num_of (hash n))
    by (intros n Hn; apply (wf_number (roots t)); [done|by apply forest_root]).
  destruct (finalize_root_cases t Hwf) as [(n & Hn & Hh & Hfr)|(Hno & Hfr)]; erewrite st_bind_ok by exact Hfr.
  { simpl. split; [by apply (wf_children n (roots t)); [|apply forest_root]|].
    split; [by apply keep_children|]. split; [done|]. eauto. }
  destruct (position_res_pure (fun root => and_then (number root <? num_of h)%Z (descends is_descendent_of (hash root) h))
    (fun root => anc (hash root) h) (roots t)) as (r & Hr & Hpos); [intros; by apply above_test, Hnum|].
  rewrite (st_lift_ok _ _ _ _ Hr). destruct r as [i|].
  { destruct Hpos as (n & Hi & Ha & _). simpl. split; [done|]. split; [done|]. exists n.
    split; [by eapply list_elem_of_lookup_2|done]. }
  assert (Hfree : forall n, n ∈ roots t -> anceq (hash n) h -> False).
  { intros n Hn [Heq|Ha]; [by apply (Hno n)|]. rewrite (Hpos n Hn) in Ha. done. }
  unfold retain_roots, mbind, st_bind, st_modify, mret, st_ret.
  rewrite (partition_res_pure _ (fun n => anc h (hash n))) by (intros; by apply below_test, Hnum). simpl.
  split; [by apply (wf_sub _ (roots t)); [|apply filter_submseteq]|]. split; [by apply keep_filter|].
  split; [done|]. case_bool_decide as Hd; simpl.
  - apply filter_negb_nil. by apply nil_length_inv.
  - intros Heq. apply Hd. apply length_zero_iff_nil.
    apply elem_of_nil_inv. intros x. rewrite filter_elem. intros [Hx Hb].
    rewrite <- Heq in Hx. apply filter_elem in Hx as [_ Hx]. by rewrite Hx in Hb.
Qed.

(** ** [finalize_with_ancestors] *)

(** The two forests have the same nodes at and below [h]. *)
Definition same_below l l' : Prop :=
  forall n, anceq h (hash n) -> n ∈ forest l <-> n ∈ forest l'.

Lemma keeps_same_below l l1 l' :
  same_below l l1 -> keeps_descendants l1 l' -> keeps_descendants l l'.
Proof.
  intros Hs Hk n. rewrite (Hk n). split.
  - intros [Hn Ha]. split; [|done]. apply Hs; [by right|done].
  - intros [Hn Ha]. split; [|done]. apply Hs; [by right|done].
Qed.

Lemma wf_Permutation l l' : l ≡ₚ l' -> wf l -> wf l'.
Proof. intros Hp Hwf. apply (wf_sub _ l Hwf). by rewrite Hp. Qed.

Lemma forest_ok_nodes l r : wf l -> r ∈ l -> forall x, x ∈ nodes r -> node_ok x.
Proof. intros Hwf Hr x Hx. apply (wf_node _ Hwf). by apply (forest_sub r). Qed.

(** Opening a root: its children take its place. *)
Lemma wf_open r l : wf (r :: l) -> wf (l ++ children r).
Proof.
  intros Hwf. assert (Hr : r ∈ r :: l) by constructor.
  assert (Hl : wf l) by (apply (wf_sub _ (r :: l)); [done|by apply submseteq_cons]).
  assert (Hc : wf (children r)) by (apply (wf_children r (r :: l)); [done|by apply forest_root]).
  assert (Hedge := ok_edge _ (wf_node _ Hwf r (forest_root _ _ Hr))).
  assert (Hcross : forall a c, a ∈ l -> c ∈ children r -> anceq (hash a) (hash c) \/ anceq (hash c) (hash a) -> False).
  { intros a c Ha Hin Hor. pose proof (chain_nodup _ (wf_roots _ Hwf)) as Hnd.
    rewrite fmap_cons, NoDup_cons in Hnd. destruct Hnd as [Hnot _]. apply Hnot.
    assert (r = a) as ->; [|by apply list_elem_of_fmap_2].
    assert (Ha' : a ∈ r :: l) by by constructor. destruct Hor as [Hac|Hca].
    - apply (antichain_unique (r :: l) r a (hash c)); try done; [by apply Hwf|right; by apply Hedge].
    - apply (antichain_unique (r :: l) r a (hash a)); try done; [by apply Hwf| |by left].
      eapply anceq_trans; [right; by apply Hedge|done]. }
  split; [split|].
  - rewrite fmap_app. apply NoDup_app. split; [apply Hl|]. split; [|apply Hc].
    intros x (a & -> & Ha)%list_elem_of_fmap (c & Heq & Hin)%list_elem_of_fmap.
    apply (Hcross a c Ha Hin). by left; left.
  - intros a b. rewrite !elem_of_app. intros [Ha|Ha] [Hb|Hb] Hab.
    + by apply (chain_free _ (wf_roots _ Hl) a b).
    + apply (Hcross a b Ha Hb). by left; right.
    + apply (Hcross b a Hb Ha). by right; right.
    + by apply (chain_free _ (wf_roots _ Hc) a b).
  - intros n. rewrite forest_app, elem_of_app. intros [Hn|Hn]; [by apply (wf_node _ Hl)|by apply (wf_node _ Hc)].
Qed.

Lemma same_below_open r l : anc (hash r) h = true -> same_below (r :: l) (l ++ children r).
Proof.
  intros Hr n Hn. rewrite forest_cons, nodes_eq, forest_app. simpl. rewrite elem_of_cons, !elem_of_app.
  split; [|tauto]. intros [->|?]; [|tauto]. destruct (anc_irrefl (hash r)).
  destruct Hn as [Heq|Hn]; [by rewrite Heq in Hr|by eapply anc_trans].
Qed.

Lemma same_below_drop r l :
  wf (r :: l) -> hash r <> h -> anc (hash r) h <> true -> anc h (hash r) <> true -> same_below (r :: l) l.
Proof.
  intros Hwf Hne Ha Hb n Hn. rewrite forest_cons, elem_of_app. split; [|by right]. intros [Hr|?]; [|done].
  exfalso. assert (Hrn : anceq (hash r) (hash n)).
  { apply nodes_anceq; [|done]. apply (forest_ok_nodes (r :: l)); [done|constructor]. }
  destruct (anceq_branch _ _ _ Hrn Hn) as [?|[?|?]]; congruence.
Qed.

Lemma same_below_Permutation l l1 l2 : l1 ≡ₚ l -> same_below l1 l2 -> same_below l l2.
Proof. intros Hp Hs n Hn. rewrite <- (Hs n Hn). by rewrite (forest_Permutation _ _ Hp). Qed.

Lemma all_below l : wf l -> (forall r, r ∈ l -> anc h (hash r) = true) ->
  keeps_descendants l l /\ forall n, n ∈ forest l -> hash n <> h.
Proof.
  intros Hwf Hall. assert (Hb : forall n, n ∈ forest l -> anc h (hash n) = true).
  { intros n (r & Hr & Hn)%elem_of_forest. destruct (nodes_below r n) as [->|Hlt]; [|done|by apply Hall|].
    - by apply (forest_ok_nodes l).
    - eapply anc_trans; [by apply Hall|done]. }
  split.
  - intros n. split; [by auto|by intros [? _]].
  - intros n Hn Heq. apply (anc_irrefl h). rewrite <- Heq at 2. auto.
Qed.

(** What the loop over the roots computes from the forest [l]. *)
Definition opened l (best : option Z) (t' : ForkTree H V) (r : V + bool) : Prop :=
  wf (roots t') /\ keeps_descendants l (roots t') /\
  match r with
  | inl v => best_finalized_number t' = Some (num_of h) /\ exists n, n ∈ forest l /\ hash n = h /\ data n = v
  | inr _ => best_finalized_number t' = best /\ forall n, n ∈ forest l -> hash n <> h
  end.

Lemma opened_same_below l l1 best t' r : same_below l l1 -> opened l1 best t' r -> opened l best t' r.
Proof.
  intros Hs (Hwf & Hk & Hr). split; [done|]. split; [by apply (keeps_same_below _ l1)|].
  destruct r as [v|b].
  - destruct Hr as (Hb & n & Hn & Hh & Hd). split; [done|]. exists n. split; [|done].
    apply Hs; [by left|done].
  - destruct Hr as [Hb Hno]. split; [done|]. intros n Hn Heq. apply (Hno n); [|done]. apply Hs; [by left|done].
Qed.

(** Removing a root that is not at or below [h], and opening it if it is above. *)
Lemma remove_root l idx root :
  wf l -> l !! idx = Some root -> hash root <> h -> anc h (hash root) = false ->
  exists rest, swap_remove idx l = Some (root, rest) /\
    let l1 := if anc (hash root) h then rest ++ children root else rest in
    wf l1 /\ same_below l l1 /\ take idx l1 = take idx l /\ sizes (drop idx l1) < sizes (drop idx l).
Proof.
  intros Hwf Hi Hne Hbelow. destruct (swap_remove_spec _ _ _ Hi) as (rest & Hsw & Hperm & Htake).
  exists rest. split; [done|].
  assert (Hsz : sizes (drop idx rest) + size root = sizes (drop idx l)).
  { pose proof (sizes_Permutation _ _ Hperm) as Hp. unfold sizes in Hp at 1. simpl in Hp. fold (sizes rest) in Hp.
    rewrite <- (take_drop idx rest), <- (take_drop idx l), !sizes_app, Htake in Hp. lia. }
  rewrite size_children in Hsz.
  assert (Hlen : idx <= length rest).
  { pose proof (Permutation_length Hperm) as Hl. apply lookup_lt_Some in Hi. simpl in Hl. lia. }
  assert (Hwf' : wf (root :: rest)) by by eapply wf_Permutation.
  destruct (anc (hash root) h) eqn:Habove; simpl.
  - split; [by apply wf_open|]. split; [eapply same_below_Permutation; [done|by apply same_below_open]|].
    rewrite take_app_le, drop_app_le, sizes_app by done. split; [done|lia].
  - split; [by apply (wf_sub _ (root :: rest)); [|apply submseteq_cons]|].
    split; [|split; [done|lia]]. eapply same_below_Permutation; [done|].
    apply same_below_drop; [done..|by rewrite Habove|by rewrite Hbelow].
Qed.

Lemma finalize_root_at_ok t i n :
  roots t !! i = Some n ->
  @finalize_root_at H V E i t = (mkTree (children n) (Some (number n)), Ok (data n)).
Proof.
  intros Hi. unfold finalize_root_at, st_get, st_modify, st_lift, mbind, st_bind, mret, st_ret. by rewrite Hi.
Qed.

Lemma opened_root l best n :
  wf l -> n ∈ l -> hash n = h -> opened l best (mkTree (children n) (Some (number n))) (inl (data n)).
Proof.
  intros Hwf Hn Hh. split; [by apply (wf_children n l); [|apply forest_root]|]. split; [by apply keep_children|].
  simpl. rewrite (wf_number l n Hwf (forest_root _ _ Hn)), Hh. split; [done|]. exists n. by split; [apply forest_root|].
Qed.

Lemma open_loop_spec fuel idx changed t :
  wf (roots t) -> (forall r, r ∈ take idx (roots t) -> anc h (hash r) = true) ->
  sizes (drop idx (roots t)) < fuel ->
  exists t' r, open_loop is_descendent_of h (num_of h) fuel idx changed t = (t', Ok r) /\
    opened (roots t) (best_finalized_number t) t' r /\
    (r = inr false -> changed = false /\ roots t' = roots t).
Proof.
  revert idx changed t. induction fuel as [|fuel IH]; intros idx changed t Hwf Hpre Hf; [lia|].
  cbn [open_loop]. erewrite st_bind_ok by done. destruct (roots t !! idx) as [root|] eqn:Hi.
  2:{ exists t, (inr changed). split; [done|]. split; [|by intros [= ->]].
      assert (Hall : take idx (roots t) = roots t) by (apply take_ge; by apply lookup_ge_None).
      rewrite Hall in Hpre. by destruct (all_below _ Hwf Hpre). }
  assert (Hin : root ∈ roots t) by by eapply list_elem_of_lookup_2.
  pose proof (wf_number (roots t) root Hwf (forest_root _ _ Hin)) as Hnum.
  case_bool_decide as Hfin; simpl.
  { erewrite st_lift_ok by done. erewrite st_lift_ok by done.
    erewrite st_bind_ok by by apply finalize_root_at_ok. do 2 eexists. split; [done|].
    split; [by apply opened_root|done]. }
  erewrite st_lift_ok by by apply below_test.
  destruct (anc h (hash root)) eqn:Hbelow; simpl.
  { erewrite st_lift_ok by done. replace (idx + 1) with (S idx) by lia.
    destruct (IH (S idx) changed t Hwf) as (t' & r & Hr & Ho & Hc); [| |by exists t', r].
    - intros r. rewrite (take_S_r _ _ _ Hi), elem_of_app, list_elem_of_singleton.
      intros [?| ->]; [by apply Hpre|done].
    - rewrite (drop_S _ _ _ Hi) in Hf. unfold sizes in *. simpl in Hf. rewrite size_children in Hf. lia. }
  erewrite st_lift_ok by by apply above_test.
  destruct (remove_root _ _ _ Hwf Hi Hfin Hbelow) as (rest & Hsw & Hwf1 & Hsb & Ht1 & Hs1).
  rewrite st_lift_ok with (a := (root, rest)) by (by rewrite Hsw). cbn beta iota. erewrite st_bind_ok by done.
  set (l1 := if anc (hash root) h then rest ++ children root else rest) in *.
  destruct (IH idx true (set_roots l1 t)) as (t' & r & Hr & Ho & Hc); simpl; [done|by rewrite Ht1|lia|].
  exists t', r. split; [done|]. split; [by eapply opened_same_below|]. by intros [? _]%Hc.
Qed.

(** [finalize_with_ancestors] of a block after the best finalized one always
    succeeds when the client answers, leaves exactly the nodes that descend from
    the block, and returns the data of the block exactly when the block was
    anywhere in the tree. *)
Theorem finalize_with_ancestors_keeps_descendants t :
  wf (roots t) -> reverts t (num_of h) = false ->
  exists t' answer, finalize_with_ancestors is_descendent_of h (num_of h) t = (t', Ok answer) /\
    wf (roots t') /\ keeps_descendants (roots t) (roots t') /\
    best_finalized_number t' = Some (num_of h) /\
    match answer with
    | Changed (Some v) => exists n, n ∈ forest (roots t) /\ hash n = h /\ data n = v
    | Changed None => forall n, n ∈ forest (roots t) -> hash n <> h
    | Unchanged => roots t' = roots t /\ forall n, n ∈ forest (roots t) -> hash n <> h
    end.
Proof.
  intros Hwf Hrev. unfold finalize_with_ancestors. erewrite st_bind_ok by done. rewrite Hrev.
  destruct (finalize_root_cases t Hwf) as [(n & Hn & Hh & Hfr)|(Hno & Hfr)]; erewrite st_bind_ok by exact Hfr.
  { do 2 eexists. split; [done|]. simpl. split; [by apply (wf_children n (roots t)); [|apply forest_root]|].
    split; [by apply keep_children|]. split; [done|]. exists n. split; [by apply forest_root|done]. }
  destruct (open_loop_spec (S (sizes (roots t))) 0 false t Hwf) as (t' & r & Hr & (Hwf' & Hk & Hm) & Hc).
  - intros r. rewrite take_0. by intros ?%not_elem_of_nil.
  - rewrite drop_0. lia.
  - rewrite (st_bind_ok _ _ _ _ _ Hr). destruct r as [v|changed].
    + do 2 eexists. split; [done|]. destruct Hm as [Hb Hv]. done.
    + erewrite st_bind_ok by done. do 2 eexists. split; [done|]. simpl. destruct Hm as [_ Hno'].
      split; [done|]. split; [done|]. split; [done|]. destruct changed; [done|]. by destruct Hc.
Qed.

(** ** [prune] *)

(** On the branch of [h]. *)
Definition related n : Prop := anceq (hash n) h \/ anc h (hash n) = true.

Record narrowed n n' (removed : list (Node H V)) : Prop := mk_narrowed {
  nw_fields : triple n' = triple n;
  nw_ok x : x ∈ nodes n' -> node_ok x;
  nw_split : triple <$> nodes n ≡ₚ (triple <$> nodes n') ++ (triple <$> forest removed);
  nw_kept tr : tr ∈ triple <$> nodes n' <-> exists x, x ∈ nodes n /\ tr = triple x /\ related x;
}.

(** A subtree without ancestors of [h] that starts neither at nor below [h] is
    unrelated to it. *)
Lemma unrelated_child n c x :
  (forall y, y ∈ nodes n -> node_ok y) -> c ∈ children n -> x ∈ nodes c ->
  hash c <> h -> anc (hash c) h <> true -> anc h (hash c) <> true -> ~ related x.
Proof.
  intros Hok Hc Hx Hne Ha Hb Hr.
  assert (Hcx : anceq (hash c) (hash x)).
  { apply nodes_anceq; [|done]. intros y Hy. apply Hok. by apply (nodes_child _ c). }
  destruct Hr as [Hr|Hr].
  - destruct (anceq_trans _ _ _ Hcx Hr); congruence.
  - destruct (anceq_branch _ _ _ Hcx (or_intror Hr)) as [?|[?|?]]; congruence.
Qed.

(** The siblings of a child above [h] are unrelated. *)
Lemma unrelated_sibling n c c' x :
  (forall y, y ∈ nodes n -> node_ok y) -> c ∈ children n -> anc (hash c) h = true ->
  c' ∈ children n -> c' <> c -> x ∈ nodes c' -> ~ related x.
Proof.
  intros Hok Hc Hch Hc' Hne Hx. pose proof (ok_siblings _ (Hok n (nodes_self n))) as Hanti.
  apply (unrelated_child n c'); try done.
  - intros Heq. apply Hne. apply (antichain_unique (children n) c' c h); try done; [by left|by right].
  - intros Ha. apply Hne. apply (antichain_unique (children n) c' c h); try done; by right.
  - intros Ha. apply (chain_free _ Hanti c c'); try done. by eapply anc_trans.
Qed.

Lemma narrow_child n n' next l1 l2 removed :
  (forall y, y ∈ nodes n -> node_ok y) -> anc (hash n) h = true ->
  children n = l1 ++ next :: l2 -> anc (hash next) h = true -> narrowed next n' removed ->
  narrowed n (set_children n [n']) ((l1 ++ l2) ++ removed).
Proof.
  intros Hok Hn Hc Hnext [Hf Ho Hs Hk]. pose proof (Hok n (nodes_self n)) as Hnok.
  assert (Hin : next ∈ children n) by (rewrite Hc; apply elem_of_app; right; constructor).
  destruct (triple_hash _ _ Hf) as [Hh _]. split.
  - apply triple_set_children.
  - intros x. rewrite nodes_eq, children_set, elem_of_cons, forest_cons, app_nil_r.
    intros [->|Hx]; [|by apply Ho]. split; rewrite ?children_set.
    + destruct n. apply Hnok.
    + split; [apply NoDup_singleton|]. intros a b ->%list_elem_of_singleton ->%list_elem_of_singleton. apply anc_irrefl.
    + destruct (triple_hash _ _ (triple_set_children n [n'])) as [-> _].
      intros c ->%list_elem_of_singleton. rewrite Hh. by apply Hnok.
  - rewrite (nodes_eq n), (nodes_eq (set_children _ _)), children_set, forest_cons, app_nil_r, !fmap_cons.
    rewrite triple_set_children, Hc, !forest_app, forest_cons, !fmap_app, Hs. solve_Permutation.
  - intros tr. rewrite (nodes_eq (set_children _ _)), children_set, forest_cons, app_nil_r, fmap_cons, elem_of_cons.
    rewrite triple_set_children, Hk. split.
    + intros [->|(x & Hx & -> & Hr)]; [exists n|exists x].
      * split; [apply nodes_self|]. split; [done|]. by left; right.
      * split; [by apply (nodes_child _ next)|done].
    + intros (x & Hx & -> & Hr). rewrite nodes_eq, elem_of_cons in Hx.
      destruct Hx as [->|(c & Hcin & Hx)%elem_of_forest]; [by left|right].
      exists x. split; [|done]. destruct (decide (hash c = hash next)) as [Heq|Hne].
      * assert (c = next) as ->; [|done].
        apply (antichain_unique (children n) c next (hash next)); [apply Hnok|done|done|by left|by left].
      * destruct (unrelated_sibling n next c x); try done. congruence.
Qed.

(** The test on the children of the deepest ancestor of [h]. *)
Definition at_or_under n : bool := bool_decide (hash n = h) || anc h (hash n).

Lemma at_or_under_test n :
  number n = num_of (hash n) ->
  or_else ((number n =? num_of h)%Z && bool_decide (hash n = h))
    (and_then (num_of h <? number n)%Z (descends is_descendent_of h (hash n))) = Ok (at_or_under n).
Proof.
  intros Hn. rewrite below_test by done. unfold at_or_under. case_bool_decide as Heq; simpl.
  - rewrite Hn, Heq, Z.eqb_refl. done.
  - by rewrite andb_false_r.
Qed.

Lemma filter_partition_Permutation (g : Node H V -> bool) l :
  l ≡ₚ List.filter g l ++ List.filter (fun x => negb (g x)) l.
Proof.
  induction l as [|x l IH]; [done|]. simpl. destruct (g x); simpl; [by rewrite <- IH|].
  rewrite <- Permutation_middle. by rewrite <- IH.
Qed.

Lemma narrow_last n :
  (forall y, y ∈ nodes n -> node_ok y) -> anc (hash n) h = true ->
  (forall c, c ∈ children n -> anc (hash c) h = false) ->
  narrowed n (set_children n (List.filter at_or_under (children n)))
    (List.filter (fun c => negb (at_or_under c)) (children n)).
Proof.
  intros Hok Hn Hno. pose proof (Hok n (nodes_self n)) as Hnok. split.
  - apply triple_set_children.
  - intros x. rewrite nodes_eq, children_set, elem_of_cons.
    intros [->|(c & [Hc _]%filter_elem & Hx)%elem_of_forest]; [|apply Hok; by apply (nodes_child _ c)].
    split; rewrite ?children_set.
    + destruct n. apply Hnok.
    + eapply antichain_sublist; [apply Hnok|apply filter_submseteq].
    + destruct (triple_hash _ _ (triple_set_children n (List.filter at_or_under (children n)))) as [-> _].
      intros c [Hc _]%filter_elem. by apply Hnok.
  - rewrite (nodes_eq n), (nodes_eq (set_children _ _)), children_set, !fmap_cons, triple_set_children. simpl.
    rewrite <- fmap_app, <- forest_app. f_equiv. apply fmap_Permutation, forest_Permutation, filter_partition_Permutation.
  - intros tr. rewrite (nodes_eq (set_children _ _)), children_set, fmap_cons, elem_of_cons, triple_set_children.
    rewrite list_elem_of_fmap. split.
    + intros [->|(x & -> & (c & [Hc Hu]%filter_elem & Hx)%elem_of_forest)]; [exists n|exists x].
      * split; [apply nodes_self|]. split; [done|]. by left; right.
      * split; [by apply (nodes_child _ c)|]. split; [done|].
        assert (Hhx : anceq h (hash x)).
        { eapply anceq_trans; [|apply (nodes_anceq c x); [|done]; intros y Hy; apply Hok; by apply (nodes_child _ c)].
          unfold at_or_under in Hu. apply orb_true_iff in Hu as [Hu|Hu]; [|by right].
          apply bool_decide_eq_true in Hu. by left. }
        destruct Hhx as [->|Hhx]; [by left; left|by right].
    + intros (x & Hx & -> & Hr). rewrite nodes_eq, elem_of_cons in Hx.
      destruct Hx as [->|(c & Hc & Hx)%elem_of_forest]; [by left|right].
      exists x. split; [done|]. apply elem_of_forest. exists c. split; [|done]. apply filter_elem. split; [done|].
      unfold at_or_under. destruct (bool_decide_reflect (hash c = h)); [done|]. simpl.
      destruct (anc h (hash c)) eqn:Hb; [done|].
      destruct (unrelated_child n c x); try done; [by rewrite (Hno c Hc)|by rewrite Hb].
Qed.

Lemma narrow_spec fuel n :
  (forall y, y ∈ nodes n -> node_ok y) -> anc (hash n) h = true -> size n <= fuel ->
  exists n' removed, narrow is_descendent_of h (num_of h) fuel n = ((n', removed), Ok tt) /\ narrowed n n' removed.
Proof.
  revert n. induction fuel as [|fuel IH]; intros n Hok Hn Hf; [rewrite size_children in Hf; lia|].
  cbn [narrow].
  assert (Hokc : forall c, c ∈ children n -> forall y, y ∈ nodes c -> node_ok y)
    by (intros c Hc y Hy; apply Hok; by apply (nodes_child _ c)).
  assert (Hnum : forall c, c ∈ children n -> number c = num_of (hash c))
    by (intros c Hc; apply ok_number, (Hokc c Hc), nodes_self).
  destruct (position_res_pure (fun child => and_then (number child <? num_of h)%Z (descends is_descendent_of (hash child) h))
    (fun child => anc (hash child) h) (children n)) as (r & -> & Hpos); [intros; by apply above_test, Hnum|].
  destruct r as [i|].
  - destruct Hpos as (next & Hi & Hnext & _).
    destruct (vec_remove_spec (children n) i next Hi) as (l1 & l2 & Hc & ->).
    assert (Hin : next ∈ children n) by by eapply list_elem_of_lookup_2.
    destruct (IH next) as (n' & removed & -> & Hnw); [by apply Hokc|done| |].
    + rewrite size_children, Hc, sizes_app in Hf. unfold sizes in Hf. simpl in Hf. lia.
    + do 2 eexists. split; [done|]. by eapply narrow_child.
  - rewrite (partition_res_pure _ at_or_under) by (intros; by apply at_or_under_test, Hnum).
    do 2 eexists. split; [done|]. by apply narrow_last.
Qed.

(** C28: [prune] never fails when the client answers.  Without a matching ancestor
    the tree is unchanged; otherwise the deepest matching ancestor becomes the
    only root and its tree keeps exactly the nodes on the branch of the block
    (ancestors of the block, the block, and its descendants).  The nodes kept
    and the nodes returned are together those of the old tree. *)
Theorem prune_keeps_branch t predicate :
  wf (roots t) ->
  exists t' removed, prune is_descendent_of h (num_of h) predicate t = (t', Ok removed) /\
    wf (roots t') /\ best_finalized_number t' = best_finalized_number t /\
    triple <$> forest (roots t) ≡ₚ (triple <$> forest (roots t')) ++ removed /\
    ((no_candidate h predicate (forest (roots t)) /\ t' = t) \/
     exists m, deepest h predicate (forest (roots t)) m /\
       (triple <$> roots t') = [triple m] /\
       forall tr, tr ∈ triple <$> forest (roots t') <-> exists x, x ∈ nodes m /\ tr = triple x /\ related x).
Proof.
  intros Hwf. unfold prune. erewrite st_bind_ok by done.
  destruct (find_index_found h predicate t Hwf) as (r & Hfind & Hf). rewrite (st_lift_ok _ _ _ _ Hfind).
  destruct r as [path|].
  2:{ exists t, []. split; [done|]. rewrite app_nil_r. split_and!; [done..|]. by left. }
  destruct Hf as (i & p & m & -> & Hat & Hdeep). pose proof (deepest_in _ _ _ _ Hdeep) as Hm.
  destruct (detach_spec _ _ _ Hat) as (removed & Hdet & Hp).
  rewrite st_lift_ok with (a := (m, removed)) by (by rewrite Hdet). cbn beta iota.
  destruct (narrow_spec (size m) m) as (m' & removed' & -> & [Hf Ho Hs Hk]);
    [intros y; by apply (wf_nodes_ok (roots t))|apply Hdeep|done|].
  do 2 eexists. split; [done|]. cbn [roots rebalance set_roots].
  assert (Htr : triple <$> forest (rebalance_roots [m']) ≡ₚ triple <$> nodes m').
  { rewrite rebalance_triples, forest_cons, app_nil_r. done. }
  split_and!.
  - apply wf_rebalance. split; [|intros n; rewrite forest_cons, app_nil_r; apply Ho].
    split; [apply NoDup_singleton|]. intros a b ->%list_elem_of_singleton ->%list_elem_of_singleton. apply anc_irrefl.
  - done.
  - rewrite Htr, Hp, Hs, removed_iter_forest. rewrite (forest_Permutation _ _ (reverse_Permutation _)).
    rewrite forest_app, fmap_app. solve_Permutation.
  - right. exists m. split; [done|]. split; [unfold rebalance_roots; simpl; by rewrite triple_rebalance, Hf|].
    intros tr. rewrite Htr. apply Hk.
Qed.

(** ** [finalize_with_descendent_if] *)
Lemma at_or_above_test n : at_or_below is_descendent_of n h = Ok (bool_decide (anceq (hash n) h)).
Proof.
  unfold at_or_below. rewrite descends_anc. unfold anceq. repeat case_bool_decide; simpl; try tauto.
  - f_equal. naive_solver.
  - destruct (anc (hash n) h); [tauto|done].
Qed.

Lemma anceq_number n : number n = num_of (hash n) -> anceq (hash n) h -> (number n <= num_of h)%Z.
Proof. intros -> [->|Ha%anc_number]; lia. Qed.

(** The check that no child of the root is at or above [h]. *)
Lemma past_child_spec n :
  (forall c, c ∈ children n -> number c = num_of (hash c)) ->
  (past_child is_descendent_of n h (num_of h) = Ok tt /\ forall c, c ∈ children n -> ~ anceq (hash c) h) \/
  (past_child is_descendent_of n h (num_of h) = Err UnfinalizedAncestor /\
   exists c, c ∈ children n /\ anceq (hash c) h).
Proof.
  intros Hnum. unfold past_child.
  destruct (position_res_pure (fun child => and_then (number child <=? num_of h)%Z (at_or_below is_descendent_of child h))
    (fun child => bool_decide (anceq (hash child) h)) (children n)) as (r & -> & Hpos).
  { intros c Hc. rewrite at_or_above_test. unfold and_then. case_cmp; [done|].
    rewrite bool_decide_false; [done|]. intros Ha%anceq_number; [lia|by apply Hnum]. }
  destruct r as [i|]; simpl.
  - right. split; [done|]. destruct Hpos as (c & Hi & Hc%bool_decide_eq_true & _). exists c.
    split; [by eapply list_elem_of_lookup_2|done].
  - left. split; [done|]. intros c Hc Ha. apply Hpos in Hc. by apply bool_decide_eq_false in Hc.
Qed.

Definition relatedb n : bool := bool_decide (anceq (hash n) h) || anc h (hash n).

Lemma retain_test n :
  number n = num_of (hash n) ->
  (b ← and_then (num_of h <? number n)%Z (descends is_descendent_of h (hash n));
   or_else (b || ((number n =? num_of h)%Z && bool_decide (hash n = h))) (descends is_descendent_of (hash n) h))
  = Ok (relatedb n).
Proof.
  intros Hn. rewrite below_test by done. simpl. rewrite descends_anc. unfold relatedb, anceq.
  destruct (anc h (hash n)) eqn:Hb; simpl; [by rewrite orb_true_r|]. rewrite orb_false_r.
  destruct (decide (hash n = h)) as [Heq|Hne].
  - rewrite Hn, Heq, Z.eqb_refl. by rewrite !bool_decide_true by auto.
  - rewrite (bool_decide_false (hash n = h)), andb_false_r by done. simpl. f_equal.
    destruct (anc (hash n) h) eqn:Ha; [by rewrite bool_decide_true by auto|]. by rewrite bool_decide_false by naive_solver.
Qed.

Lemma retain_roots_related t :
  (forall n, n ∈ roots t -> number n = num_of (hash n)) ->
  retain_roots (fun root =>
    b ← and_then (num_of h <? number root)%Z (descends is_descendent_of h (hash root));
    or_else (b || ((number root =? num_of h)%Z && bool_decide (hash root = h))) (descends is_descendent_of (hash root) h)) t
  = (set_roots (List.filter relatedb (roots t)) t,
     Ok (negb (bool_decide (length (List.filter (fun n => negb (relatedb n)) (roots t)) = 0)))).
Proof.
  intros Hnum. unfold retain_roots. rewrite (partition_res_pure _ relatedb); [done|].
  intros n Hn. by apply retain_test, Hnum.
Qed.

(** Opening a root at or above [h] none of whose children is: the children on
    the branch of [h] hold the descendants of [h]. *)
Lemma finalize_past_root l n :
  wf l -> n ∈ l -> anceq (hash n) h -> (forall c, c ∈ children n -> ~ anceq (hash c) h) ->
  keeps_descendants l (List.filter relatedb (children n)).
Proof.
  intros Hwf Hn Ha Hfree. assert (Hnf := forest_root n l Hn).
  assert (Hc : wf (children n)) by by apply (wf_children n l).
  assert (Heq : List.filter relatedb (children n) = List.filter (fun c => anc h (hash c)) (children n)).
  { apply filter_ext_in. intros c Hin%list_elem_of_In. unfold relatedb.
    by rewrite bool_decide_false by by apply Hfree. }
  rewrite Heq. intros x. rewrite (keep_filter _ Hc Hfree x). split; intros [Hx Hhx]; (split; [|done]).
  - by apply (forest_children n).
  - assert (Hnx : anc (hash n) (hash x) = true) by by eapply anceq_anc.
    pose proof (anceq_forest l n x Hwf Hnf Hx (or_intror Hnx)) as Hin. rewrite nodes_eq, elem_of_cons in Hin.
    destruct Hin as [->|]; [by destruct (anc_irrefl (hash n))|done].
Qed.

(** [finalize_with_descendent_if] of a block after the best finalized one.
    If a root at or above the block passes the predicate, either one of its
    children is at or above the block too, which is refused without any change,
    or the root is finalized and exactly the descendants of the block remain;
    otherwise the roots on the branch of the block are kept, with their trees. *)
Theorem finalize_with_descendent_if_spec t predicate :
  wf (roots t) -> reverts t (num_of h) = false ->
  let '(t', r) := finalize_with_descendent_if is_descendent_of h (num_of h) predicate t in
  match r with
  | Ok answer =>
      wf (roots t') /\ best_finalized_number t' = Some (num_of h) /\
      ((exists n, n ∈ roots t /\ predicate (data n) = true /\ anceq (hash n) h /\
          answer = Changed (Some (data n)) /\ keeps_descendants (roots t) (roots t')) \/
       ((forall n, n ∈ roots t -> anceq (hash n) h -> predicate (data n) = false) /\
        roots t' = List.filter relatedb (roots t) /\
        answer = if bool_decide (length (List.filter (fun n => negb (relatedb n)) (roots t)) = 0)
                 then Unchanged else Changed None))
  | Err e => e = UnfinalizedAncestor /\ t' = t /\
      exists n c, n ∈ roots t /\ predicate (data n) = true /\ anceq (hash n) h /\
        c ∈ children n /\ anceq (hash c) h
  | Panic => False
  end.
Proof.
  intros Hwf Hrev. unfold finalize_with_descendent_if. erewrite st_bind_ok by done. rewrite Hrev.
  assert (Hnum : forall n, n ∈ roots t -> number n = num_of (hash n))
    by (intros n Hn; apply (wf_number (roots t)); [done|by apply forest_root]).
  destruct (position_res_pure (fun n => and_then (predicate (data n)) (at_or_below is_descendent_of n h))
    (fun n => predicate (data n) && bool_decide (anceq (hash n) h)) (roots t)) as (r & Hr & Hpos).
  { intros n _. rewrite at_or_above_test. by destruct (predicate (data n)). }
  rewrite (st_lift_ok _ _ _ _ Hr). destruct r as [i|].
  - destruct Hpos as (n & Hi & [Hp Ha%bool_decide_eq_true]%andb_true_iff & _).
    assert (Hn : n ∈ roots t) by by eapply list_elem_of_lookup_2.
    assert (Hc : wf (children n)) by (apply (wf_children n (roots t)); [done|by apply forest_root]).
    assert (Hcn : forall c, c ∈ children n -> number c = num_of (hash c))
      by (intros c Hin; apply (wf_number (children n)); [done|by apply forest_root]).
    destruct (past_child_spec n Hcn) as [[Hpc Hfree]|[Hpc (c & Hcin & Hca)]].
    2:{ unfold st_lift, st_modify, mbind, st_bind, mret, st_ret. rewrite Hi. simpl. rewrite Hpc.
        split; [done|]. split; [done|]. by exists n, c. }
    erewrite st_bind_ok.
    2:{ rewrite st_lift_ok with (a := n) by (by rewrite Hi). rewrite (st_lift_ok _ _ _ _ Hpc). done. }
    erewrite st_bind_ok by by apply retain_roots_related.
    cbn [roots set_roots]. simpl. split; [by apply (wf_sub _ (children n)); [|apply filter_submseteq]|].
    split; [done|]. left. exists n. split_and!; try done. apply finalize_past_root; done.
  - erewrite st_bind_ok by done. erewrite st_bind_ok by by apply retain_roots_related.
    simpl. split; [by apply (wf_sub _ (roots t)); [|apply filter_submseteq]|]. split; [done|]. right.
    split_and!; [|done|by destruct (bool_decide _)].
    intros n Hn Ha. specialize (Hpos n Hn). by rewrite bool_decide_true, andb_true_r in Hpos by done.
Qed.
End finalize.
End ancestry.

(** ** Examples

    Blocks named by the path from genesis to them. *)
Module ForkTreeExamples.
Definition anc (a b : list nat) : bool := bool_decide (a `prefix_of` b /\ a <> b).
Definition num_of (a : list nat) : Z := Z.of_nat (length a).

#[export] Instance path_ancestry : Ancestry anc num_of.
Proof.
  split; unfold anc, num_of.
  - intros a b [[k ->] Hne]%bool_decide_eq_true. rewrite length_app. destruct k; [by rewrite app_nil_r in Hne|].
    simpl. lia.
  - intros a b c [Hab Hne]%bool_decide_eq_true [Hbc _]%bool_decide_eq_true. apply bool_decide_eq_true.
    split; [by etrans|]. intros ->. apply Hne. apply prefix_length_eq; [done|]. by apply prefix_length.
  - intros a b c [Hac _]%bool_decide_eq_true [Hbc _]%bool_decide_eq_true.
    destruct (decide (a = b)) as [|Hne]; [by left|right].
    destruct (prefix_weak_total _ _ _ Hac Hbc); [left|right]; by apply bool_decide_eq_true.
Qed.

Definition descendent (a b : list nat) : res nat bool := Ok (anc a b).
Definition leafb (h : list nat) (cs : list (Node (list nat) nat)) : Node (list nat) nat :=
  mkNode h (num_of h) (length h) cs.

(** Two roots; the first has two branches, one of them of length two. *)
Definition tree : ForkTree (list nat) nat :=
  mkTree [leafb [0] [leafb [0; 0] [leafb [0; 0; 1] []]; leafb [0; 1] []]; leafb [1] []] None.

(** Well-formedness as a computation. *)
Definition antichainb (l : list (Node (list nat) nat)) : bool :=
  bool_decide (NoDup (hash <$> l)) && forallb (fun a => forallb (fun b => negb (anc (hash a) (hash b))) l) l.
Definition wfb (l : list (Node (list nat) nat)) : bool :=
  antichainb l && forallb (fun n => (number n =? num_of (hash n))%Z && antichainb (children n) &&
    forallb (fun c => anc (hash n) (hash c)) (children n)) (forest l).

Lemma forallb_elem {A} (f : A -> bool) l x : forallb f l = true -> x ∈ l -> f x = true.
Proof.
  induction l as [|y l IH]; simpl; [by intros _ ?%not_elem_of_nil|].
  intros [Hy Hl]%andb_true_iff. rewrite elem_of_cons. intros [->|Hx]; auto.
Qed.

Lemma antichainb_ok l : antichainb l = true -> antichain anc l.
Proof.
  intros [Hnd Hf]%andb_true_iff. split; [by apply bool_decide_eq_true in Hnd|].
  intros a b Ha Hb. pose proof (forallb_elem _ _ _ (forallb_elem _ _ _ Hf Ha) Hb) as Hn.
  by apply negb_true_iff in Hn as ->.
Qed.

Lemma wfb_ok l : wfb l = true -> wf anc num_of l.
Proof.
  intros [Ha Hf]%andb_true_iff. split; [by apply antichainb_ok|]. intros n Hn.
  pose proof (forallb_elem _ _ _ Hf Hn) as [[Hk Hs]%andb_true_iff Hc]%andb_true_iff.
  split; [by apply Z.eqb_eq|by apply antichainb_ok|]. intros c. by apply (forallb_elem _ _ c Hc).
Qed.

Lemma tree_wf : wf anc num_of (roots tree).
Proof. apply wfb_ok. by vm_compute. Qed.

Lemma descendent_decides a b : descendent a b = Ok (anc a b).
Proof. done. Qed.

Lemma find_node_where_deepest_witness :
  deepest anc [0; 0; 1; 5] (fun _ => true) (forest (roots tree)) (leafb [0; 0; 1] []).
Proof.
  pose proof (find_node_where_deepest anc num_of descendent descendent_decides [0; 0; 1; 5] (fun _ => true) tree
    tree_wf) as Hfind.
  assert (Heq : find_node_where descendent tree [0; 0; 1; 5] (num_of [0; 0; 1; 5]) (fun _ => true) =
    Ok (Some (leafb [0; 0; 1] []))) by by vm_compute.
  rewrite Heq in Hfind. exact Hfind.
Defined.

Lemma import_adds_one_witness :
  exists t' is_root, import descendent [0; 1; 0] (num_of [0; 1; 0]) 7 tree = (t', Ok is_root) /\
    wf anc num_of (roots t').
Proof.
  destruct (import_adds_one anc num_of descendent descendent_decides [0; 1; 0] 7 tree tree_wf) as [_ Hnew];
    [done| |].
  - intros n Hn. assert (Hb : forallb (fun n => negb (anc [0; 1; 0] (hash n))) (forest (roots tree)) = true)
      by by vm_compute.
    pose proof (forallb_elem _ _ _ Hb Hn) as Hf. by apply negb_true_iff in Hf as ->.
  - destruct Hnew as (t' & b & He & Hw & _); [|by exists t', b].
    refine (proj1 (bool_decide_eq_false _) _). by vm_compute.
Defined.

Lemma finalize_witness_ok :
  exists t', finalize descendent [0] (num_of [0]) tree = (t', Ok (Changed (Some 1))) /\
    wf anc num_of (roots t').
Proof.
  pose proof (finalize_keeps_descendants anc num_of descendent descendent_decides [0] tree tree_wf eq_refl) as Hf.
  assert (Heq : exists t', finalize descendent [0] (num_of [0]) tree = (t', Ok (Changed (Some 1)))).
  { eexists. by vm_compute. }
  destruct Heq as [t' Heq]. rewrite Heq in Hf. exists t'. split; [exact Heq|]. apply Hf.
Defined.

Lemma finalize_with_ancestors_witness :
  exists t' answer, finalize_with_ancestors descendent [0; 0] (num_of [0; 0]) tree = (t', Ok answer) /\
    wf anc num_of (roots t').
Proof.
  destruct (finalize_with_ancestors_keeps_descendants anc num_of descendent descendent_decides [0; 0] tree tree_wf eq_refl)
    as (t' & answer & He & Hw & _). by exists t', answer.
Defined.

Lemma prune_keeps_branch_witness :
  exists t' removed, prune descendent [0; 0; 1] (num_of [0; 0; 1]) (fun _ => true) tree = (t', Ok removed) /\
    wf anc num_of (roots t').
Proof.
  destruct (prune_keeps_branch anc num_of descendent descendent_decides [0; 0; 1] tree (fun _ => true) tree_wf)
    as (t' & removed & He & Hw & _). by exists t', removed.
Defined.

Lemma finalize_with_descendent_if_witness :
  exists t', finalize_with_descendent_if descendent [0] (num_of [0]) (fun _ => true) tree =
    (t', Ok (Changed (Some 1))) /\ wf anc num_of (roots t').
Proof.
  pose proof (finalize_with_descendent_if_spec anc num_of descendent descendent_decides [0] tree (fun _ => true)
    tree_wf eq_refl) as Hf.
  assert (Heq : exists t', finalize_with_descendent_if descendent [0] (num_of [0]) (fun _ => true) tree =
    (t', Ok (Changed (Some 1)))) by (eexists; by vm_compute).
  destruct Heq as [t' Heq]. rewrite Heq in Hf. exists t'. split; [exact Heq|]. apply Hf.
Defined.

(** A client that cannot answer for the block [[2; 2]]. *)
Definition flaky (a b : list nat) : res nat bool :=
  if bool_decide (b = [2; 2]) then Err 0 else Ok (anc a b).

(** when the client fails in the middle of [finalize], the error is reported
    but the tree has lost roots: those already found unrelated, the one asked
    for, and all those not looked at yet, among them descendants of the
    block being finalized. *)
Theorem finalize_error_loses_roots :
  let t := mkTree [leafb [5; 0] []; leafb [2; 2] []; leafb [5; 1] []] None in
  finalize flaky [5] (num_of [5]) t = (mkTree [leafb [5; 0] []] None, Err (Client 0)) /\
  anc [5] [5; 1] = true.
Proof. split; by vm_compute. Qed.
End ForkTreeExamples.
