(* ===== verification/BagsList.v ===== *)
(** * The bags list: [pallet-bags-list], [src/list/mod.rs] and [src/lib.rs]

    A semi-sorted list of accounts: every account is in the bag its score falls
    into, the bags are doubly linked lists spread over two storage maps
    ([ListNodes] and [ListBags]), and iteration goes through the bags from the
    highest down.

    The specification is a map from the upper threshold of a bag to the sequence
    of its members; [represents] relates it to the linked structure in storage.
    Every operation is shown to implement its counterpart on sequences, never to
    hit one of its [defensive!] or [debug_assert!] checks, and to keep each
    account in the bag of its score.

    Accounts are any countable type; scores are integers in [[0, max_score]].
    [thresholds] is the constant [BagThresholds], which [integrity_test] requires
    to be strictly increasing. *)
From stdpp Require Import base gmap list sorting.
From Stdlib Require Import ZArith Lia.
From S2P Require Import Prelude.
Set Warnings "-clear-no-such-hyp".

#[local] Open Scope Z_scope.

Inductive ListError := Duplicate | NotHeavier | NotInSameBag | NodeNotFound.

Record Node (Id : Type) := mkNode {
  id : Id;
  prev : option Id;
  next : option Id;
  bag_upper : Z;
  score : Z;
}.
Arguments mkNode {Id} id prev next bag_upper score.
Arguments id {Id} n.
Arguments prev {Id} n.
Arguments next {Id} n.
Arguments bag_upper {Id} n.
Arguments score {Id} n.

(** The field [bag_upper] of a bag is not stored. *)
Record Bag (Id : Type) := mkBag { head : option Id; tail : option Id; upper : Z }.
Arguments mkBag {Id} head tail upper.
Arguments head {Id} b.
Arguments tail {Id} b.
Arguments upper {Id} b.

Record Store (Id : Type) `{Countable Id} := mkStore {
  ListNodes : gmap Id (Node Id);
  ListBags : gmap Z (option Id * option Id);
}.
Arguments mkStore {Id _ _} ListNodes ListBags.
Arguments ListNodes {Id _ _} s.
Arguments ListBags {Id _ _} s.

(** [slice::partition_point], on a slice the predicate splits in two. *)
Fixpoint partition_point {A} (p : A -> bool) (l : list A) : nat :=
  match l with [] => 0 | x :: l' => if p x then S (partition_point p l') else 0 end.

Section bags_list.
Context {Id : Type} `{Countable Id}.
Variables (thresholds : list Z) (max_score : Z).
Implicit Types (n : Node Id) (b : Bag Id) (s : Store Id).

Abbreviation Op := (ST (Store Id) ListError).

Definition notional_bag_for (sc : Z) : Z :=
  default max_score (thresholds !! partition_point (fun threshold => threshold <? sc) thresholds).

(** ** [Node] *)
Definition node_get (i : Id) : Op (option (Node Id)) := s ← st_get; mret (ListNodes s !! i).
Definition node_put n : Op unit :=
  st_modify (fun s => mkStore (<[id n := n]> (ListNodes s)) (ListBags s)).
Definition node_remove n : Op unit :=
  st_modify (fun s => mkStore (delete (id n) (ListNodes s)) (ListBags s)).

Definition set_prev (p : option Id) n : Node Id := mkNode (id n) p (next n) (bag_upper n) (score n).
Definition set_next (x : option Id) n : Node Id := mkNode (id n) (prev n) x (bag_upper n) (score n).

(** [self.prev()] and [self.next()] *)
Definition node_opt (i : option Id) : Op (option (Node Id)) :=
  match i with Some i => node_get i | None => mret None end.

Definition excise n : Op unit :=
  p ← node_opt (prev n);
  _ ← (match p with Some p => node_put (set_next (next n) p) | None => mret tt end);
  x ← node_opt (next n);
  match x with Some x => node_put (set_prev (prev n) x) | None => mret tt end.

Definition is_misplaced n (current_score : Z) : bool := negb (notional_bag_for current_score =? bag_upper n).
Definition is_terminal n : bool := bool_decide (prev n = None) || bool_decide (next n = None).

(** ** [Bag] *)
Definition bag_get (u : Z) : Op (option (Bag Id)) :=
  s ← st_get; mret ((fun '(h, t) => mkBag h t u) <$> ListBags s !! u).
Definition bag_get_or_make (u : Z) : Op (Bag Id) :=
  b ← bag_get u; mret (default (mkBag None None u) b).

Definition bag_is_empty b : bool := bool_decide (head b = None) && bool_decide (tail b = None).
Definition bag_put b : Op unit :=
  st_modify (fun s => mkStore (ListNodes s)
    (if bag_is_empty b then delete (upper b) (ListBags s)
     else <[upper b := (head b, tail b)]> (ListBags s))).

(** [iter::successors(start, |prev| prev.next())]; the fuel bounds the walk by
    the number of nodes there are. *)
Fixpoint successors (fuel : nat) (s : Store Id) (start : option Id) : list (Node Id) :=
  match fuel, start ≫= (fun i => ListNodes s !! i) with
  | S fuel', Some n => n :: successors fuel' s (next n)
  | _, _ => []
  end.
Definition bag_iter (s : Store Id) b : list (Node Id) := successors (S (size (ListNodes s))) s (head b).

(** The first check is a [defensive!], the last a [debug_assert!]. *)
Definition insert_node_unchecked b n : Op (Bag Id) :=
  if bool_decide (tail b = Some (id n)) then st_lift Panic
  else
    let n := mkNode (id n) (tail b) None (upper b) (score n) in
    _ ← node_put n;
    old_tail ← node_opt (tail b);
    _ ← (match old_tail with Some t => node_put (set_next (Some (id n)) t) | None => mret tt end);
    let b := mkBag (head b) (Some (id n)) (upper b) in
    if bool_decide (head b = None) then
      let b := mkBag (Some (id n)) (tail b) (upper b) in
      s ← st_get;
      if Nat.eqb (length (bag_iter s b)) 1 then mret b else st_lift Panic
    else mret b.

Definition insert_unchecked b (i : Id) (sc : Z) : Op (Bag Id) :=
  insert_node_unchecked b (mkNode i None None 0 sc).

Definition remove_node_unchecked b n : Op (Bag Id) :=
  _ ← excise n;
  let b := if bool_decide (tail b = Some (id n)) then mkBag (head b) (prev n) (upper b) else b in
  mret (if bool_decide (head b = Some (id n)) then mkBag (next n) (tail b) (upper b) else b).

(** ** [List] *)
Definition contains (i : Id) : Op bool := s ← st_get; mret (bool_decide (is_Some (ListNodes s !! i))).

Definition get_score (i : Id) : Op Z :=
  n ← node_get i; st_lift (ok_or NodeNotFound (score <$> n)).

(** The thresholds from the highest down, the maximal score first. *)
Definition all_thresholds : list Z :=
  if bool_decide (last thresholds = Some max_score) then thresholds else thresholds ++ [max_score].

Definition bags_of (s : Store Id) (us : list Z) : list (Node Id) :=
  omap (fun u => (fun '(h, t) => mkBag h t u) <$> ListBags s !! u) us ≫= bag_iter s.

Definition iter (s : Store Id) : list (Node Id) := bags_of s (reverse all_thresholds).

Definition iter_from (s : Store Id) (start : Id) : res ListError (list (Node Id)) :=
  start_node ← ok_or NodeNotFound (ListNodes s !! start);
  let start_bag := successors (S (size (ListNodes s))) s (next start_node) in
  let idx := partition_point (fun threshold => threshold <? bag_upper start_node) thresholds in
  Ok (start_bag ++ bags_of s (reverse (take idx thresholds))).

Definition insert (i : Id) (sc : Z) : Op unit :=
  c ← contains i;
  if (c : bool) then st_lift (Err Duplicate)
  else
    b ← bag_get_or_make (notional_bag_for sc);
    b ← insert_unchecked b i sc;
    bag_put b.

(** The loop body of [insert_many]; the count is bounded by the number of ids. *)
Definition insert_one (score_of : Id -> Z) (count : nat) (i : Id) : Op nat := fun s =>
  match insert i (score_of i) s with
  | (s', Ok _) => (s', Ok (S count))
  | (s', Err _) => (s', Ok count)
  | (s', Panic) => (s', Panic)
  end.

Definition insert_many (ids : list Id) (score_of : Id -> Z) : Op nat := st_for (insert_one score_of) 0%nat ids.

(** The loop body of [remove_many]: [bags] caches the bags that were changed. *)
Definition remove_one (st : gmap Z (Bag Id) * nat) (i : Id) : Op (gmap Z (Bag Id) * nat) :=
  let '(bags, count) := st in
  n ← node_get i;
  match n with
  | None => mret (bags, count)
  | Some n =>
      bags ← (if negb (is_terminal n) then _ ← excise n; mret bags
              else
                b ← (match bags !! bag_upper n with
                     | Some b => mret b
                     | None => bag_get_or_make (bag_upper n)
                     end);
                b ← remove_node_unchecked b n;
                mret (<[bag_upper n := b]> bags));
      _ ← node_remove n;
      mret (bags, S count)
  end.

Definition remove_many (ids : list Id) : Op nat :=
  '(bags, count) ← st_for remove_one (∅, 0%nat) ids;
  _ ← st_for (fun _ '(_, b) => bag_put b) tt (map_to_list bags);
  mret count.

Definition remove (i : Id) : Op unit :=
  c ← contains i;
  if (c : bool) then _ ← remove_many [i]; mret tt else st_lift (Err NodeNotFound).

Definition update_position_for n (new_score : Z) : Op (option (Z * Z)) :=
  let n := mkNode (id n) (prev n) (next n) (bag_upper n) new_score in
  if is_misplaced n new_score then
    _ ← (if negb (is_terminal n) then excise n
         else
           b ← bag_get (bag_upper n);
           match b with
           | Some b => b ← remove_node_unchecked b n; bag_put b
           | None => st_lift Panic
           end);
    let new_bag_upper := notional_bag_for new_score in
    b ← bag_get_or_make new_bag_upper;
    b ← insert_node_unchecked b n;
    _ ← bag_put b;
    mret (Some (bag_upper n, new_bag_upper))
  else
    _ ← node_put n;
    mret None.

Definition insert_at_unchecked (at_ n : Node Id) : Op unit :=
  let n := set_prev (prev at_) n in
  p ← node_opt (prev at_);
  _ ← (match p with Some p => node_put (set_next (Some (id n)) p) | None => mret tt end);
  let n := set_next (Some (id at_)) n in
  let at_ := set_prev (Some (id n)) at_ in
  _ ← (if is_terminal n then
         b ← bag_get (bag_upper at_);
         b ← st_lift (expect b);
         bag_put (if bool_decide (prev n = None) then mkBag (Some (id n)) (tail b) (upper b) else b)
       else mret tt);
  _ ← node_put at_;
  node_put n.

(** [score_of] is [T::ScoreProvider::score]. *)
Definition put_in_front_of (score_of : Id -> Z) (lighter_id heavier_id : Id) : Op unit :=
  l ← node_get lighter_id;
  lighter_node ← st_lift (ok_or NodeNotFound l);
  h ← node_get heavier_id;
  heavier_node ← st_lift (ok_or NodeNotFound h);
  if negb (bag_upper lighter_node =? bag_upper heavier_node) then st_lift (Err NotInSameBag)
  else if negb (score_of lighter_id <? score_of heavier_id) then st_lift (Err NotHeavier)
  else
    _ ← (fun s => let '(s', r) := remove heavier_id s in (s', expect_ok r));
    l ← node_get lighter_id;
    lighter_node ← st_lift (expect l);
    insert_at_unchecked lighter_node heavier_node.

Definition unsafe_clear : Op unit := st_modify (fun _ => mkStore ∅ ∅).

Definition unsafe_regenerate (all : list Id) (score_of : Id -> Z) : Op nat :=
  _ ← unsafe_clear; insert_many all score_of.

(** ** [Pallet] *)
Inductive Event := Rebagged (who : Id) (from to : Z) | ScoreUpdated (who : Id) (new_score : Z).

Definition do_rebag (account : Id) (new_score : Z) : Op (option (Z * Z) * list Event) :=
  n ← node_get account;
  n ← st_lift (ok_or NodeNotFound n);
  maybe_movement ← update_position_for n new_score;
  mret (maybe_movement,
        (match maybe_movement with Some (from, to) => [Rebagged account from to] | None => [] end) ++
        [ScoreUpdated account new_score]).
End bags_list.

(** ** Linked sequences in storage *)
Section linked.
Context {Id : Type} `{Countable Id}.
Variables (thresholds : list Z) (max_score : Z).
Abbreviation bag_of := (notional_bag_for thresholds max_score).
Implicit Types (ns : gmap Id (Node Id)) (l : list Id) (i j : Id) (p x : option Id).

(** [or_head l x] is the first element of [l], or [x] if there is none; likewise
    [or_last]. *)
Definition or_head l x : option Id := match l with [] => x | j :: _ => Some j end.
Definition or_last p l : option Id := match last l with Some j => Some j | None => p end.

(** The members [l] of bag [u] are linked to each other, preceded by [p] and
    followed by [x], and each has a score that belongs to the bag. *)
Fixpoint linked ns (u : Z) p l x : Prop :=
  match l with
  | [] => True
  | i :: l' =>
      (exists sc, ns !! i = Some (mkNode i p (or_head l' x) u sc) /\ bag_of sc = u) /\
      linked ns u (Some i) l' x
  end.

Lemma or_last_cons p i l : or_last p (i :: l) = or_last (Some i) l.
Proof.
  unfold or_last. destruct l as [|j l]; [done|].
  change (last (i :: j :: l)) with (last (j :: l)). destruct (last (j :: l)) eqn:E; [done|]. by apply last_None in E.
Qed.

Lemma or_head_app l1 l2 x : or_head (l1 ++ l2) x = or_head l1 (or_head l2 x).
Proof. by destruct l1. Qed.

Lemma linked_app ns u p l1 l2 x :
  linked ns u p (l1 ++ l2) x <-> linked ns u p l1 (or_head l2 x) /\ linked ns u (or_last p l1) l2 x.
Proof.
  revert p. induction l1 as [|i l1 IH]; intros p; [simpl; unfold or_last; simpl; tauto|].
  cbn [app linked]. rewrite IH, or_head_app, or_last_cons. tauto.
Qed.

Lemma linked_frame ns ns' u p l x :
  (forall i, i ∈ l -> ns' !! i = ns !! i) -> linked ns u p l x -> linked ns' u p l x.
Proof.
  revert p. induction l as [|i l IH]; intros p Hf; [done|]. cbn [linked].
  intros [(sc & Hi & Hsc) Hl]. split.
  - exists sc. by rewrite Hf by constructor.
  - apply IH; [|done]. intros j Hj. apply Hf. by constructor.
Qed.

Definition link_next (o x : option Id) ns : gmap Id (Node Id) :=
  match o with Some i => alter (set_next x) i ns | None => ns end.
Definition link_prev (o p : option Id) ns : gmap Id (Node Id) :=
  match o with Some i => alter (set_prev p) i ns | None => ns end.

Lemma link_next_ne o x ns i : o <> Some i -> link_next o x ns !! i = ns !! i.
Proof. destruct o as [j|]; [|done]. intros Hne. simpl. rewrite lookup_alter_ne; [done|]. congruence. Qed.

Lemma link_prev_ne o p ns i : o <> Some i -> link_prev o p ns !! i = ns !! i.
Proof. destruct o as [j|]; [|done]. intros Hne. simpl. rewrite lookup_alter_ne; [done|]. congruence. Qed.

Lemma last_elem {A} (l : list A) (i : A) : last l = Some i -> i ∈ l.
Proof. intros (l' & ->)%last_Some. apply elem_of_app. right. constructor. Qed.

Lemma linked_link_prev ns u p l x p' :
  NoDup l -> linked ns u p l x -> linked (link_prev (or_head l None) p' ns) u p' l x.
Proof.
  intros Hnd. destruct l as [|i l]; [done|]. apply NoDup_cons in Hnd as [Hi Hnd]. cbn [or_head linked link_prev].
  intros [(sc & Hl & Hsc) Hrest]. split.
  - exists sc. by rewrite lookup_alter_eq, Hl.
  - eapply linked_frame; [|done]. intros j Hj. rewrite lookup_alter_ne; [done|]. set_solver.
Qed.

Lemma linked_link_next ns u p l x x' :
  NoDup l -> linked ns u p l x -> linked (link_next (last l) x' ns) u p l x'.
Proof.
  intros Hnd. destruct l as [|i l _] using rev_ind; [done|]. rewrite last_snoc. cbn [link_next].
  apply NoDup_app in Hnd as (_ & Hi & _). rewrite !linked_app. intros [Hl [(sc & Hn & Hsc) _]]. split.
  - eapply linked_frame; [|done]. intros j Hj. rewrite lookup_alter_ne; [done|]. intros ->. apply (Hi j); [done|constructor].
  - split; [|done]. exists sc. by rewrite lookup_alter_eq, Hn.
Qed.

(** Cutting a member out. *)
Lemma linked_cut ns u l1 i l2 :
  NoDup (l1 ++ i :: l2) -> linked ns u None (l1 ++ i :: l2) None ->
  linked (link_prev (or_head l2 None) (last l1) (link_next (last l1) (or_head l2 None) ns)) u None (l1 ++ l2) None.
Proof.
  intros (Hnd1 & Hdisj & Hnd2)%NoDup_app. apply NoDup_cons in Hnd2 as [Hi Hnd2].
  rewrite !linked_app. cbn [linked]. intros (H1 & _ & H2).
  assert (Hlast : or_last None l1 = last l1) by (unfold or_last; by destruct (last l1)). rewrite Hlast.
  split.
  - eapply linked_frame; [|by eapply linked_link_next]. intros j Hj. apply link_prev_ne.
    destruct l2 as [|k l2]; simpl; [done|]. intros [= ->]. apply (Hdisj j); [done|]. set_solver.
  - apply (linked_link_prev _ _ (Some i)); [done|]. eapply linked_frame; [|done]. intros j Hj.
    apply link_next_ne. intros Hl%last_elem. apply (Hdisj j Hl). set_solver.
Qed.

(** Adding a member at the end. *)
Lemma linked_push ns u l i sc :
  NoDup (l ++ [i]) -> bag_of sc = u -> linked ns u None l None ->
  linked (link_next (last l) (Some i) (<[i := mkNode i (last l) None u sc]> ns)) u None (l ++ [i]) None.
Proof.
  intros (Hnd & Hdisj & _)%NoDup_app Hsc Hl.
  assert (Hi : i ∉ l) by (intros Hi; apply (Hdisj i Hi); constructor).
  assert (Hlast : or_last None l = last l) by (unfold or_last; by destruct (last l)).
  apply linked_app. cbn [linked or_head]. rewrite Hlast. split; [|split; [|done]].
  - apply (linked_link_next _ _ _ _ None); [done|]. eapply linked_frame; [|done].
    intros j Hj. rewrite lookup_insert_ne; [done|]. by intros ->.
  - exists sc. split; [|done]. rewrite link_next_ne; [by rewrite lookup_insert_eq|]. by intros ?%last_elem.
Qed.

(** Adding a member in front of another one. *)
Lemma linked_put_before ns u l1 i j l2 sc n :
  NoDup (l1 ++ i :: j :: l2) -> bag_of sc = u -> linked ns u None (l1 ++ j :: l2) None -> ns !! j = Some n ->
  linked (<[i := mkNode i (last l1) (Some j) u sc]> (<[j := set_prev (Some i) n]> (link_next (last l1) (Some i) ns)))
    u None (l1 ++ i :: j :: l2) None.
Proof.
  intros (Hnd1 & Hdisj & Hnd2)%NoDup_app Hsc Hl Hj.
  apply NoDup_cons in Hnd2 as [Hi Hnd2]. apply NoDup_cons in Hnd2 as [Hjl Hnd2].
  assert (Hlast : or_last None l1 = last l1) by (unfold or_last; by destruct (last l1)).
  rewrite !linked_app in *. rewrite Hlast in *. cbn [linked or_head] in *.
  destruct Hl as (H1 & (sc' & Hj' & Hsc') & H2). rewrite Hj in Hj'. simplify_eq.
  assert ((i ∉ l1) /\ (j ∉ l1) /\ i <> j /\ (i ∉ l2)) as (Hi1 & Hj1 & Hij & Hi2) by set_solver.
  split; [|split; [|split]].
  - eapply linked_frame; [|by apply (linked_link_next ns _ _ _ (Some j))].
    intros k Hk. rewrite !lookup_insert_ne by set_solver. done.
  - exists sc. by rewrite lookup_insert_eq.
  - exists sc'. rewrite lookup_insert_ne, lookup_insert_eq by done. done.
  - eapply linked_frame; [|done]. intros k Hk. rewrite !lookup_insert_ne by set_solver.
    apply link_next_ne. intros Hl%last_elem. apply (Hdisj k Hl). set_solver.
Qed.

(** ** The sequences a store represents *)
Implicit Types (s : Store Id) (content : gmap Z (list Id)).

Record represents s content : Prop := mk_represents {
  rep_bags u : ListBags s !! u = (fun l => (or_head l None, last l)) <$> content !! u;
  rep_nonempty u l : content !! u = Some l -> l <> [];
  rep_nodup u l : content !! u = Some l -> NoDup l;
  rep_linked u l : content !! u = Some l -> linked (ListNodes s) u None l None;
  rep_disjoint u v l l' i : content !! u = Some l -> content !! v = Some l' -> i ∈ l -> i ∈ l' -> u = v;
  rep_nodes i n : ListNodes s !! i = Some n -> exists l, content !! bag_upper n = Some l /\ i ∈ l;
}.

Lemma linked_lookup ns u p l1 i l2 x :
  linked ns u p (l1 ++ i :: l2) x ->
  exists sc, ns !! i = Some (mkNode i (or_last p l1) (or_head l2 x) u sc) /\ bag_of sc = u.
Proof. rewrite linked_app. cbn [linked]. tauto. Qed.

(** Where a stored node is in its sequence. *)
Lemma node_located s content i n :
  represents s content -> ListNodes s !! i = Some n ->
  exists l1 l2, content !! bag_upper n = Some (l1 ++ i :: l2) /\
    id n = i /\ prev n = last l1 /\ next n = or_head l2 None /\ bag_of (score n) = bag_upper n.
Proof.
  intros Hr Hi. destruct (rep_nodes _ _ Hr _ _ Hi) as (l & Hl & Hin).
  apply list_elem_of_split in Hin as (l1 & l2 & ->). exists l1, l2. split; [done|].
  destruct (linked_lookup _ _ _ _ _ _ _ (rep_linked _ _ Hr _ _ Hl)) as (sc & Hn & Hsc).
  rewrite Hi in Hn. injection Hn as ->. simpl in *. split_and!; try done.
  unfold or_last. by destruct (last l1).
Qed.

Lemma member_node s content u l i :
  represents s content -> content !! u = Some l -> i ∈ l ->
  exists n, ListNodes s !! i = Some n /\ bag_upper n = u.
Proof.
  intros Hr Hl Hin. apply list_elem_of_split in Hin as (l1 & l2 & ->).
  destruct (linked_lookup _ _ _ _ _ _ _ (rep_linked _ _ Hr _ _ Hl)) as (sc & Hn & _). by eexists.
Qed.

Definition keyed ns : Prop := map_Forall (fun i n => id n = i) ns.

Lemma represents_keyed s content : represents s content -> keyed (ListNodes s).
Proof. intros Hr i n Hi. by destruct (node_located _ _ _ _ Hr Hi) as (? & ? & _ & ? & _). Qed.

Definition bag_entry (l : list Id) : option Id * option Id := (or_head l None, last l).

Definition store_bag (u : Z) (l : list Id) (bags : gmap Z (option Id * option Id)) : gmap Z (option Id * option Id) :=
  if bool_decide (l = []) then delete u bags else <[u := bag_entry l]> bags.

Definition set_content (u : Z) (l : list Id) content : gmap Z (list Id) :=
  if bool_decide (l = []) then delete u content else <[u := l]> content.

Lemma set_content_lookup u l content v :
  set_content u l content !! v =
  if decide (u = v) then (if bool_decide (l = []) then None else Some l) else content !! v.
Proof.
  unfold set_content. case_bool_decide; [rewrite lookup_delete|rewrite lookup_insert]; by case_decide.
Qed.

(** Replacing the sequence of one bag. *)
Lemma represents_replace s content u old l ns :
  represents s content -> default [] (content !! u) = old -> NoDup l -> linked ns u None l None ->
  (forall j, j ∈ l -> j ∈ old \/ ListNodes s !! j = None) ->
  (forall j, j ∉ l -> j ∈ old -> ns !! j = None) ->
  (forall j, j ∉ l -> j ∉ old -> ns !! j = ListNodes s !! j) ->
  represents (mkStore ns (store_bag u l (ListBags s))) (set_content u l content).
Proof.
  intros Hr Hold Hnd Hl Hnew Hgone Hkeep.
  assert (Hother : forall v l', v <> u -> content !! v = Some l' -> forall j, j ∈ l' -> (j ∉ l) /\ (j ∉ old)).
  { intros v l' Hv Hl' j Hj. destruct (member_node _ _ _ _ _ Hr Hl' Hj) as (n & Hn & _).
    assert (Ho : j ∉ old).
    { intros Hin. apply Hv. destruct (content !! u) as [lu|] eqn:Hu; simpl in Hold; subst old; [|set_solver].
      eapply (rep_disjoint _ _ Hr); [exact Hl'|exact Hu|done..]. }
    split; [|done]. intros Hin. destruct (Hnew j Hin); [done|congruence]. }
  split; simpl.
  - intros v. rewrite set_content_lookup. unfold store_bag. case_bool_decide as Hnil.
    + rewrite lookup_delete. case_decide; [done|apply Hr].
    + rewrite lookup_insert. case_decide; [done|apply Hr].
  - intros v l'. rewrite set_content_lookup. case_decide; [case_bool_decide; naive_solver|apply Hr].
  - intros v l'. rewrite set_content_lookup. case_decide; [case_bool_decide; naive_solver|apply Hr].
  - intros v l'. rewrite set_content_lookup. case_decide as Hv; [case_bool_decide; naive_solver|].
    intros Hl'. eapply linked_frame; [|by apply (rep_linked _ _ Hr)]. intros j Hj.
    destruct (Hother v l' ltac:(done) Hl' j Hj). by apply Hkeep.
  - intros v w l1 l2 j. rewrite !set_content_lookup. intros H1 H2 Hj1 Hj2.
    destruct (decide (u = v)) as [<-|Hv], (decide (u = w)) as [<-|Hw]; [done|..].
    + case_bool_decide; simplify_eq. by destruct (Hother w l2 ltac:(done) H2 j Hj2).
    + case_bool_decide; simplify_eq. by destruct (Hother v l1 ltac:(done) H1 j Hj1).
    + by eapply (rep_disjoint _ _ Hr).
  - intros j n Hn. rewrite set_content_lookup. destruct (decide (j ∈ l)) as [Hin|Hin].
    + apply list_elem_of_split in Hin as (l1 & l2 & ->).
      destruct (linked_lookup _ _ _ _ _ _ _ Hl) as (sc & Hj & _). rewrite Hn in Hj. simplify_eq/=.
      rewrite decide_True by done. rewrite bool_decide_false by (by destruct l1). eexists; split; [done|].
      apply elem_of_app. right. constructor.
    + destruct (decide (j ∈ old)) as [Ho|Ho]; [by rewrite Hgone in Hn|].
      rewrite Hkeep in Hn by done. destruct (rep_nodes _ _ Hr _ _ Hn) as (l' & Hl' & Hj).
      rewrite decide_False; [by exists l'|]. intros ->. rewrite Hl' in Hold. simpl in Hold. by subst.
Qed.

(** ** The operations on the store *)
Lemma put_alter ns i n (f : Node Id -> Node Id) : ns !! i = Some n -> <[i := f n]> ns = alter f i ns.
Proof.
  intros Hi. apply map_eq. intros j. rewrite lookup_insert, lookup_alter. case_decide; [by subst; rewrite Hi|done].
Qed.

Lemma alter_missing ns i (f : Node Id -> Node Id) : ns !! i = None -> alter f i ns = ns.
Proof.
  intros Hi. apply map_eq. intros j. rewrite lookup_alter. case_decide; [by subst; rewrite Hi|done].
Qed.

Lemma keyed_link_next o x ns : keyed ns -> keyed (link_next o x ns).
Proof.
  intros Hk. destruct o as [i|]; [|done]. intros j n. simpl. rewrite lookup_alter. case_decide; [|apply Hk].
  subst. destruct (ns !! j) as [m|] eqn:Hj; [|done]. intros [= <-]. simpl. by apply Hk.
Qed.

Lemma node_opt_eq s o : node_opt o s = (s, Ok (o ≫= fun i => ListNodes s !! i)).
Proof. by destruct o. Qed.

(** Fetching a node, changing a link and putting it back. *)
Lemma put_next_eq s o x :
  keyed (ListNodes s) ->
  (m ← node_opt o; match m with Some m => node_put (set_next x m) | None => mret tt end) s =
  (mkStore (link_next o x (ListNodes s)) (ListBags s), Ok tt).
Proof.
  intros Hk. erewrite st_bind_ok by apply node_opt_eq. destruct o as [i|]; [|by destruct s]. simpl.
  destruct (ListNodes s !! i) as [m|] eqn:Hi.
  - unfold node_put, st_modify. simpl. rewrite (Hk i m Hi). by rewrite (put_alter _ _ m).
  - rewrite alter_missing by done. by destruct s.
Qed.

Lemma put_prev_eq s o p :
  keyed (ListNodes s) ->
  (m ← node_opt o; match m with Some m => node_put (set_prev p m) | None => mret tt end) s =
  (mkStore (link_prev o p (ListNodes s)) (ListBags s), Ok tt).
Proof.
  intros Hk. erewrite st_bind_ok by apply node_opt_eq. destruct o as [i|]; [|by destruct s]. simpl.
  destruct (ListNodes s !! i) as [m|] eqn:Hi.
  - unfold node_put, st_modify. simpl. rewrite (Hk i m Hi). by rewrite (put_alter _ _ m).
  - rewrite alter_missing by done. by destruct s.
Qed.

Lemma excise_eq s n :
  keyed (ListNodes s) ->
  excise n s =
  (mkStore (link_prev (next n) (prev n) (link_next (prev n) (next n) (ListNodes s))) (ListBags s), Ok tt).
Proof.
  intros Hk.
  assert (Hassoc : excise n s = (_ ← (m ← node_opt (prev n);
      match m with Some m => node_put (set_next (next n) m) | None => mret tt end);
    (m ← node_opt (next n); match m with Some m => node_put (set_prev (prev n) m) | None => mret tt end)) s).
  { unfold excise, mbind, st_bind. by destruct (node_opt (prev n) s) as [? [| |]]. }
  rewrite Hassoc. erewrite st_bind_ok by by apply put_next_eq.
  rewrite put_prev_eq by by apply keyed_link_next. done.
Qed.

(** The bag whose members are [l]. *)
Definition bag_with (u : Z) l : Bag Id := mkBag (or_head l None) (last l) u.

Lemma bag_put_eq s u l :
  bag_put (bag_with u l) s = (mkStore (ListNodes s) (store_bag u l (ListBags s)), Ok tt).
Proof.
  unfold bag_put, bag_is_empty, store_bag, st_modify. simpl. destruct l as [|i l]; [done|].
  by rewrite !bool_decide_false by done.
Qed.

Lemma bag_get_eq s content u :
  represents s content ->
  bag_get u s = (s, Ok (bag_with u <$> content !! u)).
Proof.
  intros Hr. unfold bag_get, st_get, mret, st_ret, mbind, st_bind. rewrite (rep_bags _ _ Hr u).
  by destruct (content !! u).
Qed.

Lemma bag_get_or_make_eq s content u :
  represents s content -> bag_get_or_make u s = (s, Ok (bag_with u (default [] (content !! u)))).
Proof.
  intros Hr. unfold bag_get_or_make. erewrite st_bind_ok by by apply bag_get_eq. by destruct (content !! u).
Qed.

Lemma insert_node_eq s u l n :
  keyed (ListNodes s) -> id n ∉ l ->
  insert_node_unchecked (bag_with u l) n s =
  (mkStore (link_next (last l) (Some (id n)) (<[id n := mkNode (id n) (last l) None u (score n)]> (ListNodes s)))
     (ListBags s), Ok (bag_with u (l ++ [id n]))).
Proof.
  intros Hk Hi. unfold insert_node_unchecked. cbn [tail head upper bag_with id score].
  rewrite bool_decide_false by (by intros ?%last_elem).
  set (n' := mkNode (id n) (last l) None u (score n)). set (s1 := mkStore (<[id n := n']> (ListNodes s)) (ListBags s)).
  erewrite st_bind_ok with (s' := s1) by done.
  assert (Hk1 : keyed (ListNodes s1)) by (by apply map_Forall_insert_2).
  assert (Hput : forall {B} (k : ST (Store Id) ListError B), (old_tail ← node_opt (last l);
      _ ← (match old_tail with Some t => node_put (set_next (Some (id n)) t) | None => mret tt end); k) s1 =
    k (mkStore (link_next (last l) (Some (id n)) (ListNodes s1)) (ListBags s))).
  { intros B k. pose proof (put_next_eq s1 (last l) (Some (id n)) Hk1) as Hp.
    unfold mbind, st_bind in Hp |- *. rewrite node_opt_eq in Hp |- *. by rewrite Hp. }
  rewrite Hput. destruct l as [|j l].
  - cbn [or_head]. rewrite bool_decide_true by done. erewrite st_bind_ok by done.
    unfold bag_iter. cbn [head successors mbind option_bind link_next last ListNodes s1].
    rewrite lookup_insert_eq. cbn [next n']. destruct (size _); done.
  - cbn [or_head]. rewrite bool_decide_false by done. unfold bag_with. by rewrite last_snoc.
Qed.

(** ** Scores *)
Lemma score_link_next o x ns : score <$> link_next o x ns = score <$> ns.
Proof.
  destruct o as [i|]; [|done]. apply map_eq. intros j. simpl. rewrite !lookup_fmap, lookup_alter.
  case_decide; [subst|done]. by destruct (ns !! j).
Qed.

Lemma score_link_prev o p ns : score <$> link_prev o p ns = score <$> ns.
Proof.
  destruct o as [i|]; [|done]. apply map_eq. intros j. simpl. rewrite !lookup_fmap, lookup_alter.
  case_decide; [subst|done]. by destruct (ns !! j).
Qed.

(** ** Sequences after an operation *)
Definition push (u : Z) (i : Id) content : gmap Z (list Id) :=
  <[u := default [] (content !! u) ++ [i]]> content.

Definition nonempty (l : list Id) : option (list Id) := if bool_decide (l = []) then None else Some l.

Definition drop_id (i : Id) content : gmap Z (list Id) :=
  omap (fun l => nonempty (filter (fun j => j <> i) l)) content.

Lemma push_set u i content : push u i content = set_content u (default [] (content !! u) ++ [i]) content.
Proof. unfold push, set_content. by rewrite bool_decide_false by by destruct (default _ _). Qed.

Lemma filter_absent i l : i ∉ l -> filter (fun j => j <> i) l = l.
Proof.
  induction l as [|j l IH]; intros Hi; [done|]. apply not_elem_of_cons in Hi as [Hj Hi].
  rewrite filter_cons_True by done. by rewrite IH.
Qed.

Lemma drop_absent s content i : represents s content -> ListNodes s !! i = None -> drop_id i content = content.
Proof.
  intros Hr Hi. apply map_eq. intros u. unfold drop_id. rewrite lookup_omap.
  destruct (content !! u) as [l|] eqn:Hu; [|done]. simpl. rewrite filter_absent.
  - unfold nonempty. rewrite bool_decide_false; [done|]. by apply (rep_nonempty _ _ Hr u).
  - intros Hin. destruct (member_node _ _ _ _ _ Hr Hu Hin) as (n & Hn & _). congruence.
Qed.

Lemma drop_member s content u l1 i l2 :
  represents s content -> content !! u = Some (l1 ++ i :: l2) ->
  drop_id i content = set_content u (l1 ++ l2) content.
Proof.
  intros Hr Hu. apply map_eq. intros v. unfold drop_id. rewrite lookup_omap, set_content_lookup.
  destruct (decide (u = v)) as [<-|Hv].
  - rewrite Hu. simpl. pose proof (rep_nodup _ _ Hr _ _ Hu) as (_ & Hd & [Hi _]%NoDup_cons)%NoDup_app.
    rewrite filter_app, filter_cons_False by (by intros ?).
    rewrite !filter_absent; [done|done|]. intros Hin. apply (Hd i Hin). constructor.
  - destruct (content !! v) as [l|] eqn:Hl; [|done]. simpl. rewrite filter_absent.
    + unfold nonempty. rewrite bool_decide_false; [done|]. by apply (rep_nonempty _ _ Hr v).
    + intros Hin. apply Hv. eapply (rep_disjoint _ _ Hr); [exact Hu|exact Hl| |done].
      apply elem_of_app. right. constructor.
Qed.

(** The nodes once [n] is cut out of its bag and deleted. *)
Definition cut_nodes n ns : gmap Id (Node Id) :=
  delete (id n) (link_prev (next n) (prev n) (link_next (prev n) (next n) ns)).

Lemma score_cut n ns : score <$> cut_nodes n ns = delete (id n) (score <$> ns).
Proof. unfold cut_nodes. by rewrite fmap_delete, score_link_prev, score_link_next. Qed.

Lemma or_head_elem l i : or_head l None = Some i -> i ∈ l.
Proof. destruct l; [done|]. intros [= ->]. constructor. Qed.

Lemma represents_cut s content n l1 l2 :
  represents s content -> ListNodes s !! id n = Some n ->
  content !! bag_upper n = Some (l1 ++ id n :: l2) -> prev n = last l1 -> next n = or_head l2 None ->
  represents (mkStore (cut_nodes n (ListNodes s)) (store_bag (bag_upper n) (l1 ++ l2) (ListBags s)))
    (drop_id (id n) content).
Proof.
  intros Hr Hn Hu Hp Hx. rewrite (drop_member s _ _ _ _ _ Hr Hu).
  pose proof (rep_nodup _ _ Hr _ _ Hu) as Hnd. pose proof Hnd as (Hnd1 & Hd & [Hi Hnd2]%NoDup_cons)%NoDup_app.
  assert (Hi1 : id n ∉ l1) by (intros Hin; apply (Hd _ Hin); constructor).
  assert (Hsub : forall j, j ∈ l1 ++ l2 -> j <> id n) by (intros j Hj ->; set_solver).
  apply (represents_replace s content _ (l1 ++ id n :: l2)); [done|by rewrite Hu|..].
  - apply NoDup_app. split_and!; [done| |done]. intros j Hj Hj'. apply (Hd j Hj). by constructor.
  - eapply linked_frame; [|exact (linked_cut _ _ _ _ _ Hnd (rep_linked _ _ Hr _ _ Hu))].
    intros j Hj. unfold cut_nodes. rewrite lookup_delete_ne by (apply not_eq_sym; by apply Hsub). by rewrite Hp, Hx.
  - intros j Hj. left. set_solver.
  - intros j Hj Ho. assert (j = id n) as -> by set_solver. unfold cut_nodes. by rewrite lookup_delete_eq.
  - intros j Hj Ho. unfold cut_nodes. rewrite lookup_delete_ne by set_solver.
    rewrite link_prev_ne by (rewrite Hx; intros ?%or_head_elem; set_solver).
    rewrite link_next_ne by (rewrite Hp; intros ?%last_elem; set_solver). done.
Qed.

(** The nodes once a node is added at the end of a bag. *)
Definition push_nodes u l i sc ns : gmap Id (Node Id) :=
  link_next (last l) (Some i) (<[i := mkNode i (last l) None u sc]> ns).

Lemma represents_push s content u i sc :
  represents s content -> ListNodes s !! i = None -> bag_of sc = u ->
  let l := default [] (content !! u) in
  represents (mkStore (push_nodes u l i sc (ListNodes s)) (store_bag u (l ++ [i]) (ListBags s))) (push u i content).
Proof.
  intros Hr Hi Hsc l. rewrite push_set.
  assert (Hl : NoDup l /\ linked (ListNodes s) u None l None).
  { subst l. destruct (content !! u) as [l|] eqn:Hu; simpl; [|by split; [constructor|]].
    split; [by apply (rep_nodup _ _ Hr u)|by apply (rep_linked _ _ Hr)]. }
  destruct Hl as [Hnd Hl].
  assert (Hin : i ∉ l).
  { intros Hin. subst l. destruct (content !! u) as [l|] eqn:Hu; simpl in *; [|set_solver].
    destruct (member_node _ _ _ _ _ Hr Hu Hin) as (n & Hn & _). congruence. }
  assert (Hnd' : NoDup (l ++ [i])).
  { apply NoDup_app. split_and!; [done| |apply NoDup_singleton]. intros j Hj ->%list_elem_of_singleton. done. }
  apply (represents_replace s content _ l); [done|done|done|by apply linked_push|..].
  - intros j. rewrite elem_of_app, list_elem_of_singleton. intros [?| ->]; auto.
  - intros j Hj Ho. set_solver.
  - intros j Hj Ho. unfold push_nodes. rewrite link_next_ne by (by intros ?%last_elem).
    rewrite lookup_insert_ne; [done|]. set_solver.
Qed.

Lemma score_push u l i sc ns : score <$> push_nodes u l i sc ns = <[i := sc]> (score <$> ns).
Proof. unfold push_nodes. by rewrite score_link_next, fmap_insert. Qed.

(** ** The specification *)
Record View := mkView { content : gmap Z (list Id); scores : gmap Id Z }.
Implicit Types (v : View).

Record rep s v : Prop := mk_rep {
  rep_content : represents s (content v);
  rep_scores : score <$> ListNodes s = scores v;
}.

Lemma rep_lookup s v i : rep s v -> scores v !! i = score <$> ListNodes s !! i.
Proof. intros Hr. by rewrite <- (rep_scores _ _ Hr), lookup_fmap. Qed.

Definition is_member v i : bool := bool_decide (is_Some (scores v !! i)).

Lemma rep_member s v i : rep s v -> bool_decide (is_Some (ListNodes s !! i)) = is_member v i.
Proof.
  intros Hr. unfold is_member. rewrite (rep_lookup _ _ _ Hr). apply bool_decide_ext. by rewrite fmap_is_Some.
Qed.

Definition spec_insert i sc v : View * res ListError unit :=
  if is_member v i then (v, Err Duplicate)
  else (mkView (push (bag_of sc) i (content v)) (<[i := sc]> (scores v)), Ok tt).

Lemma insert_refines s v i sc :
  rep s v -> exists s', insert thresholds max_score i sc s = (s', (spec_insert i sc v).2) /\
    rep s' (spec_insert i sc v).1.
Proof.
  intros Hrep. pose proof (rep_content _ _ Hrep) as Hr. unfold insert, contains, spec_insert.
  erewrite st_bind_ok by done. rewrite (rep_member _ _ _ Hrep). destruct (is_member v i) eqn:Hm; [by exists s|].
  assert (Hi : ListNodes s !! i = None).
  { rewrite <- (rep_member _ _ _ Hrep) in Hm. apply bool_decide_eq_false in Hm. by apply eq_None_not_Some. }
  set (u := bag_of sc). set (l := default [] (content v !! u)).
  assert (Hl : i ∉ l).
  { intros Hin. subst l. destruct (content v !! u) as [l|] eqn:Hu; simpl in *; [|set_solver].
    destruct (member_node _ _ _ _ _ Hr Hu Hin) as (n & Hn & _). congruence. }
  erewrite st_bind_ok by by apply bag_get_or_make_eq. unfold insert_unchecked.
  erewrite st_bind_ok by (apply insert_node_eq; [by eapply represents_keyed|done]).
  rewrite bag_put_eq. eexists; split; [done|]. simpl. split; simpl.
  - exact (represents_push s (content v) u i sc Hr Hi eq_refl).
  - change (link_next _ _ _) with (push_nodes u l i sc (ListNodes s)). by rewrite score_push, (rep_scores _ _ Hrep).
Qed.

(** Removing ids: those that are not members are skipped. *)
Definition spec_remove_one (st : View * nat) (i : Id) : View * nat :=
  let '(v, count) := st in
  if is_member v i then (mkView (drop_id i (content v)) (delete i (scores v)), S count) else (v, count).

Definition spec_remove_many (ids : list Id) v : View * nat := foldl spec_remove_one (v, 0%nat) ids.

(** The bags in storage once the cached ones are written. *)
Definition bag_value (b : Bag Id) : option (option Id * option Id) :=
  if bag_is_empty b then None else Some (head b, tail b).

Definition flush (bags : gmap Z (Bag Id)) (base : gmap Z (option Id * option Id)) : gmap Z (option Id * option Id) :=
  merge (fun ob os => match ob with Some b => bag_value b | None => os end) bags base.

Lemma flush_lookup bags base u :
  flush bags base !! u = match bags !! u with Some b => bag_value b | None => base !! u end.
Proof. unfold flush. rewrite lookup_merge. by destruct (bags !! u), (base !! u). Qed.

Lemma bag_value_with u l : bag_value (bag_with u l) = if bool_decide (l = []) then None else Some (bag_entry l).
Proof. unfold bag_value, bag_is_empty. destruct l as [|i l]; [done|]. by rewrite !bool_decide_false by done. Qed.

Lemma flush_insert bags base u l :
  flush (<[u := bag_with u l]> bags) base = store_bag u l (flush bags base).
Proof.
  apply map_eq. intros w. rewrite flush_lookup, lookup_insert. unfold store_bag.
  destruct (decide (u = w)) as [<-|Hw].
  - rewrite bag_value_with. case_bool_decide; [by rewrite lookup_delete_eq|by rewrite lookup_insert_eq].
  - rewrite <- flush_lookup. case_bool_decide; [by rewrite lookup_delete_ne|by rewrite lookup_insert_ne].
Qed.

Record mid s (bags : gmap Z (Bag Id)) v : Prop := mk_mid {
  mid_rep : rep (mkStore (ListNodes s) (flush bags (ListBags s))) v;
  mid_upper u b : bags !! u = Some b -> upper b = u;
}.

(** The bag a node is removed from, out of the cache or out of storage. *)
Lemma mid_bag s bags v u l :
  mid s bags v -> content v !! u = Some l ->
  (match bags !! u with Some b => mret b | None => bag_get_or_make u end) s = (s, Ok (bag_with u l)).
Proof.
  intros [Hrep Hup] Hu. pose proof (rep_bags _ _ (rep_content _ _ Hrep) u) as Hb. simpl in Hb.
  rewrite Hu, flush_lookup in Hb. simpl in Hb. destruct (bags !! u) as [[h t w]|] eqn:Hc.
  - specialize (Hup _ _ Hc). simpl in Hup. subst w. unfold bag_value in Hb.
    destruct (bag_is_empty _); [done|]. simpl in Hb. injection Hb as -> ->. done.
  - unfold bag_get_or_make, bag_get, st_get, mret, st_ret, mbind, st_bind. simpl. by rewrite Hb.
Qed.

Lemma remove_node_eq s u l1 l2 n :
  keyed (ListNodes s) -> NoDup (l1 ++ id n :: l2) -> prev n = last l1 -> next n = or_head l2 None ->
  remove_node_unchecked (bag_with u (l1 ++ id n :: l2)) n s =
  (mkStore (link_prev (next n) (prev n) (link_next (prev n) (next n) (ListNodes s))) (ListBags s),
   Ok (bag_with u (l1 ++ l2))).
Proof.
  intros Hk (Hnd1 & Hd & [Hi Hnd2]%NoDup_cons)%NoDup_app Hp Hx. unfold remove_node_unchecked.
  erewrite st_bind_ok by by apply excise_eq. unfold mret, st_ret. f_equal. f_equal. unfold bag_with.
  assert (Hi1 : id n ∉ l1) by (intros Hin; apply (Hd _ Hin); constructor).
  cbn [tail head upper]. rewrite Hp, Hx.
  assert (Htail : (if bool_decide (last (l1 ++ id n :: l2) = Some (id n)) then last l1 else last (l1 ++ id n :: l2)) =
    last (l1 ++ l2)).
  { destruct l2 as [|j l2 _] using rev_ind.
    - rewrite app_nil_r, last_snoc. by rewrite bool_decide_true.
    - rewrite !app_assoc, app_comm_cons, app_assoc, !last_snoc. rewrite bool_decide_false; [done|].
      intros [= ->]. apply Hi. apply elem_of_app. right. constructor. }
  destruct (bool_decide (last (l1 ++ id n :: l2) = Some (id n))) eqn:Hl; cbn [tail head upper];
    rewrite <- Htail; (destruct l1 as [|j l1]; cbn [app or_head];
      [by rewrite bool_decide_true|rewrite bool_decide_false; [done|intros [= ->]; apply Hi1; constructor]]).
Qed.

(** A node that is neither head nor tail: its bag stays as it is. *)
Lemma store_bag_middle s c u l1 i l2 :
  represents s c -> c !! u = Some (l1 ++ i :: l2) -> l1 <> [] -> l2 <> [] ->
  store_bag u (l1 ++ l2) (ListBags s) = ListBags s.
Proof.
  intros Hr Hu H1 H2. unfold store_bag. rewrite bool_decide_false by (by destruct l1).
  apply insert_id. rewrite (rep_bags _ _ Hr u), Hu. simpl. unfold bag_entry. f_equal. f_equal.
  - by destruct l1.
  - destruct l2 as [|j l2 _] using rev_ind; [done|]. by rewrite app_comm_cons, !app_assoc, !last_snoc.
Qed.

Lemma is_terminal_spec n l1 l2 :
  prev n = last l1 -> next n = or_head l2 None -> is_terminal n = false <-> l1 <> [] /\ l2 <> [].
Proof.
  intros Hp Hx. unfold is_terminal. rewrite orb_false_iff, !bool_decide_eq_false, Hp, Hx, last_None.
  split; (intros [? ?]; split; [done|]); by destruct l2.
Qed.

(** The node of a member, with everything the operations use of it. *)
Lemma rep_located s v i n :
  rep s v -> ListNodes s !! i = Some n ->
  exists l1 l2, id n = i /\ ListNodes s !! id n = Some n /\
    content v !! bag_upper n = Some (l1 ++ id n :: l2) /\ NoDup (l1 ++ id n :: l2) /\
    prev n = last l1 /\ next n = or_head l2 None /\ bag_of (score n) = bag_upper n.
Proof.
  intros Hrep Hi. pose proof (rep_content _ _ Hrep) as Hr.
  destruct (node_located _ _ _ _ Hr Hi) as (l1 & l2 & Hu & Hid & Hp & Hx & Hsc). exists l1, l2.
  rewrite Hid. split_and!; try done. by apply (rep_nodup _ _ Hr (bag_upper n)).
Qed.

Lemma remove_one_refines s bags v count i :
  mid s bags v ->
  exists s' bags', remove_one (bags, count) i s = (s', Ok (bags', (spec_remove_one (v, count) i).2)) /\
    mid s' bags' (spec_remove_one (v, count) i).1 /\ ListBags s' = ListBags s.
Proof.
  intros Hmid. pose proof (mid_rep _ _ _ Hmid) as Hrep. pose proof (rep_content _ _ Hrep) as Hr.
  unfold remove_one, spec_remove_one. erewrite st_bind_ok by done.
  rewrite <- (rep_member _ _ i Hrep). cbn [ListNodes].
  destruct (ListNodes s !! i) as [n|] eqn:Hi; [|by exists s, bags].
  rewrite bool_decide_true by done.
  destruct (rep_located _ _ _ _ Hrep Hi) as (l1 & l2 & Hid & Hn & Hu & Hnd & Hp & Hx & Hsc).
  pose proof (represents_cut _ _ n l1 l2 Hr Hn Hu Hp Hx) as Hcut. simpl in Hcut.
  assert (Hk : keyed (ListNodes s)) by exact (represents_keyed _ _ Hr).
  assert (Hscores : score <$> cut_nodes n (ListNodes s) = delete i (scores v)).
  { rewrite score_cut, Hid. by rewrite <- (rep_scores _ _ Hrep). }
  destruct (is_terminal n) eqn:Ht; cbn [negb].
  - rewrite st_bind_ok with (s' := mkStore (link_prev (next n) (prev n) (link_next (prev n) (next n) (ListNodes s))) (ListBags s))
      (a := <[bag_upper n := bag_with (bag_upper n) (l1 ++ l2)]> bags).
    2:{ erewrite st_bind_ok by by eapply mid_bag. by erewrite st_bind_ok by by apply remove_node_eq. }
    erewrite st_bind_ok by done. do 2 eexists. split; [done|]. split; [|done]. split.
    + simpl. rewrite flush_insert. split; [by rewrite <- Hid|done].
    + intros u b. rewrite lookup_insert. case_decide; [subst; by intros [= <-]|apply Hmid].
  - apply (is_terminal_spec n l1 l2) in Ht as [H1 H2]; [|done..].
    pose proof (store_bag_middle _ _ _ _ _ _ Hr Hu H1 H2) as Hsame. simpl in Hsame. rewrite Hsame in Hcut.
    rewrite st_bind_ok with (s' := mkStore (link_prev (next n) (prev n) (link_next (prev n) (next n) (ListNodes s))) (ListBags s))
      (a := bags) by (by erewrite st_bind_ok by by apply excise_eq).
    erewrite st_bind_ok by done. do 2 eexists. split; [done|]. split; [|done].
    split; [|apply Hmid]. split; [by rewrite <- Hid|done].
Qed.

Lemma remove_all_refines ids s bags v count :
  mid s bags v ->
  exists s' bags', st_for remove_one (bags, count) ids s =
      (s', Ok (bags', (foldl spec_remove_one (v, count) ids).2)) /\
    mid s' bags' (foldl spec_remove_one (v, count) ids).1 /\ ListBags s' = ListBags s.
Proof.
  revert s bags v count. induction ids as [|i ids IH]; intros s bags v count Hmid; [by exists s, bags|].
  destruct (remove_one_refines s bags v count i Hmid) as (s1 & bags1 & H1 & Hmid1 & Hb1).
  cbn [st_for foldl]. rewrite (st_bind_ok _ _ _ _ _ H1).
  destruct (spec_remove_one (v, count) i) as [v1 count1]. simpl in Hmid1 |- *.
  destruct (IH s1 bags1 v1 count1 Hmid1) as (s2 & bags2 & H2 & Hmid2 & Hb2).
  exists s2, bags2. split; [exact H2|]. split; [done|]. congruence.
Qed.

(** Writing the cached bags. *)
Lemma write_bags (L : list (Z * Bag Id)) s :
  NoDup L.*1 -> Forall (fun e => upper e.2 = e.1) L ->
  exists s', st_for (fun _ '(_, b) => bag_put b) tt L s = (s', Ok tt) /\ ListNodes s' = ListNodes s /\
    ListBags s' = flush (list_to_map L) (ListBags s).
Proof.
  revert s. induction L as [|[u b] L IH]; intros s Hnd Hup.
  { exists s. split; [done|]. split; [done|]. apply map_eq. intros w. by rewrite flush_lookup. }
  rewrite fmap_cons in Hnd. apply NoDup_cons in Hnd as [Hu Hnd]. apply Forall_cons in Hup as [Hub Hup]. simpl in Hub, Hu.
  cbn [st_for]. unfold mbind, st_bind, bag_put, st_modify.
  edestruct IH as (s' & -> & Hns & Hbs); [done..|]. exists s'. split; [done|]. split; [by rewrite Hns|].
  rewrite Hbs. simpl. apply map_eq. intros w. rewrite !flush_lookup, lookup_insert.
  destruct (decide (u = w)) as [<-|Hw].
  - rewrite (not_elem_of_list_to_map_1 L u Hu). unfold bag_value. rewrite Hub.
    destruct (bag_is_empty b); [by rewrite lookup_delete_eq|by rewrite lookup_insert_eq].
  - destruct (list_to_map L !! w); [done|]. rewrite Hub.
    destruct (bag_is_empty b); [by rewrite lookup_delete_ne|by rewrite lookup_insert_ne].
Qed.

Lemma remove_many_refines ids s v :
  rep s v -> exists s', remove_many ids s = (s', Ok (spec_remove_many ids v).2) /\ rep s' (spec_remove_many ids v).1.
Proof.
  intros Hrep. destruct (remove_all_refines ids s ∅ v 0) as (s1 & bags & H1 & [Hrep1 Hup] & Hb).
  { split; [|done]. assert (Hf : flush ∅ (ListBags s) = ListBags s) by (apply map_eq; intros; by rewrite flush_lookup).
    rewrite Hf. by destruct s. }
  unfold remove_many. rewrite (st_bind_ok _ _ _ _ _ H1). cbn beta iota.
  destruct (write_bags (map_to_list bags) s1) as (s2 & H2 & Hns & Hbs).
  - apply NoDup_fst_map_to_list.
  - apply Forall_forall. intros [u b] Hin%elem_of_map_to_list. by apply Hup.
  - rewrite (st_bind_ok _ _ _ _ _ H2). exists s2. split; [done|]. rewrite list_to_map_to_list in Hbs.
    destruct s2 as [ns bs]. simpl in *. subst. done.
Qed.

Definition spec_remove i v : View * res ListError unit :=
  if is_member v i then (mkView (drop_id i (content v)) (delete i (scores v)), Ok tt) else (v, Err NodeNotFound).

Lemma remove_refines i s v :
  rep s v -> exists s', remove i s = (s', (spec_remove i v).2) /\ rep s' (spec_remove i v).1.
Proof.
  intros Hrep. unfold remove, contains, spec_remove. erewrite st_bind_ok by done.
  rewrite (rep_member _ _ _ Hrep). destruct (is_member v i) eqn:Hm; [|by exists s].
  destruct (remove_many_refines [i] s v Hrep) as (s' & Hs' & Hrep'). rewrite (st_bind_ok _ _ _ _ _ Hs').
  unfold spec_remove_many, spec_remove_one in Hrep'. simpl in Hrep'. rewrite Hm in Hrep'. by exists s'.
Qed.

Lemma keyed_link_prev o p ns : keyed ns -> keyed (link_prev o p ns).
Proof.
  intros Hk. destruct o as [i|]; [|done]. intros j n. simpl. rewrite lookup_alter. case_decide; [|apply Hk].
  subst. destruct (ns !! j) as [m|] eqn:Hj; [|done]. intros [= <-]. simpl. by apply Hk.
Qed.

(** ** [update_position_for] *)
Definition set_score (sc : Z) n : Node Id := mkNode (id n) (prev n) (next n) (bag_upper n) sc.

Lemma linked_rescore ns u p l x i sc :
  bag_of sc = u -> linked ns u p l x -> linked (alter (set_score sc) i ns) u p l x.
Proof.
  intros Hsc. revert p. induction l as [|j l IH]; intros p; [done|]. cbn [linked].
  intros [(sc' & Hj & Hsc') Hl]. split; [|by apply IH]. destruct (decide (i = j)) as [<-|Hne].
  - exists sc. by rewrite lookup_alter_eq, Hj.
  - exists sc'. by rewrite lookup_alter_ne.
Qed.

Lemma represents_rescore s c i n sc :
  represents s c -> ListNodes s !! i = Some n -> bag_of sc = bag_upper n ->
  represents (mkStore (<[i := set_score sc n]> (ListNodes s)) (ListBags s)) c.
Proof.
  intros Hr Hi Hsc. destruct (rep_nodes _ _ Hr _ _ Hi) as (l & Hl & Hin).
  assert (Hne := rep_nonempty _ _ Hr _ _ Hl).
  rewrite (put_alter _ _ n) by done.
  pose proof (represents_replace s c (bag_upper n) l l (alter (set_score sc) i (ListNodes s))) as Hrep.
  unfold store_bag, set_content in Hrep. rewrite !bool_decide_false in Hrep by done.
  rewrite insert_id in Hrep by (by rewrite (rep_bags _ _ Hr), Hl). rewrite insert_id in Hrep by done.
  apply Hrep; [done|by rewrite Hl|by apply (rep_nodup _ _ Hr (bag_upper n))| |by left|done|].
  - apply linked_rescore; [done|by apply (rep_linked _ _ Hr)].
  - intros j Hj _. rewrite lookup_alter_ne; [done|]. by intros ->.
Qed.

Definition spec_update i sc v : View * res ListError (option (Z * Z)) :=
  match scores v !! i with
  | None => (v, Err NodeNotFound)
  | Some old =>
      if bool_decide (bag_of sc = bag_of old) then (mkView (content v) (<[i := sc]> (scores v)), Ok None)
      else (mkView (push (bag_of sc) i (drop_id i (content v))) (<[i := sc]> (scores v)),
            Ok (Some (bag_of old, bag_of sc)))
  end.

Lemma bag_get_or_make_entry s (c : gmap Z (list Id)) u :
  ListBags s !! u = bag_entry <$> c !! u ->
  bag_get_or_make u s = (s, Ok (bag_with u (default [] (c !! u)))).
Proof.
  intros Hb. unfold bag_get_or_make, bag_get, st_get, mret, st_ret, mbind, st_bind. rewrite Hb.
  by destruct (c !! u).
Qed.

(** The first half of a move: the node is out of its bag, but still stored. *)
Definition unlinked n ns : gmap Id (Node Id) :=
  link_prev (next n) (prev n) (link_next (prev n) (next n) ns).

Lemma unlink_eq s v n l1 l2 :
  rep s v -> ListNodes s !! id n = Some n -> content v !! bag_upper n = Some (l1 ++ id n :: l2) ->
  NoDup (l1 ++ id n :: l2) -> prev n = last l1 -> next n = or_head l2 None -> forall n',
  id n' = id n -> prev n' = prev n -> next n' = next n -> bag_upper n' = bag_upper n ->
  (if negb (is_terminal n') then excise n'
   else b ← bag_get (bag_upper n');
        match b with Some b => b ← remove_node_unchecked b n'; bag_put b | None => st_lift Panic end) s =
  (mkStore (unlinked n (ListNodes s)) (store_bag (bag_upper n) (l1 ++ l2) (ListBags s)), Ok tt).
Proof.
  intros Hrep Hn Hu Hnd Hp Hx n' Hid Hp' Hx' Hu'. pose proof (rep_content _ _ Hrep) as Hr.
  pose proof (represents_keyed _ _ Hr) as Hk. destruct (is_terminal n') eqn:Ht; cbn [negb].
  - erewrite st_bind_ok by by apply bag_get_eq. rewrite Hu', Hu. cbn [fmap option_fmap option_map].
    rewrite <- Hid. erewrite st_bind_ok by (apply remove_node_eq; [done|by rewrite Hid|congruence..]).
    rewrite bag_put_eq. unfold unlinked. by rewrite Hp', Hx'.
  - rewrite excise_eq by done. apply (is_terminal_spec n' l1 l2) in Ht as [H1 H2]; [|congruence..].
    rewrite (store_bag_middle _ _ _ _ _ _ Hr Hu H1 H2). unfold unlinked. by rewrite Hp', Hx'.
Qed.

Lemma update_refines s v i sc n :
  rep s v -> ListNodes s !! i = Some n ->
  exists s', update_position_for thresholds max_score n sc s = (s', (spec_update i sc v).2) /\
    rep s' (spec_update i sc v).1.
Proof.
  intros Hrep Hi. pose proof (rep_content _ _ Hrep) as Hr.
  destruct (rep_located _ _ _ _ Hrep Hi) as (l1 & l2 & <- & Hn & Hu & Hnd & Hp & Hx & Hsc).
  unfold spec_update. rewrite (rep_lookup _ _ (id n) Hrep), Hi. cbn [fmap option_fmap option_map]. rewrite Hsc.
  unfold update_position_for, is_misplaced. cbn [bag_upper].
  destruct (Z.eqb_spec (bag_of sc) (bag_upper n)) as [Heq|Hne]; cbn [negb].
  - rewrite bool_decide_true by done. erewrite st_bind_ok by done. eexists; split; [done|]. split; simpl.
    + exact (represents_rescore s _ (id n) n sc Hr Hi Heq).
    + by rewrite fmap_insert, (rep_scores _ _ Hrep).
  - rewrite bool_decide_false by done.
    rewrite (st_bind_ok _ _ _ _ _ (unlink_eq s v n l1 l2 Hrep Hn Hu Hnd Hp Hx (set_score sc n)
      eq_refl eq_refl eq_refl eq_refl)).
    pose proof (represents_cut _ _ n l1 l2 Hr Hn Hu Hp Hx) as Hcut.
    set (c := drop_id (id n) (content v)) in *. set (l := default [] (c !! bag_of sc)).
    assert (Hil : id n ∉ l).
    { intros Hin. subst l. destruct (c !! bag_of sc) as [l|] eqn:Hl; simpl in *; [|set_solver].
      destruct (member_node _ _ _ _ _ Hcut Hl Hin) as (m & Hm & _). simpl in Hm. unfold cut_nodes in Hm.
      by rewrite lookup_delete_eq in Hm. }
    rewrite (st_bind_ok _ _ _ _ _ (bag_get_or_make_entry
      (mkStore (unlinked n (ListNodes s)) (store_bag (bag_upper n) (l1 ++ l2) (ListBags s)))
      c (bag_of sc) (rep_bags _ _ Hcut (bag_of sc)))).
    erewrite st_bind_ok by (apply insert_node_eq; [apply keyed_link_prev, keyed_link_next, (represents_keyed _ _ Hr)|done]).
    erewrite st_bind_ok by apply bag_put_eq. eexists; split; [done|]. split; simpl.
    + pose proof (represents_push _ c (bag_of sc) (id n) sc Hcut) as Hpush. simpl in Hpush.
      unfold push_nodes, cut_nodes in Hpush. rewrite insert_delete_eq, lookup_delete_eq in Hpush. by apply Hpush.
    + rewrite score_link_next, fmap_insert. unfold unlinked. rewrite score_link_prev, score_link_next.
      by rewrite (rep_scores _ _ Hrep).
Qed.

(** ** [put_in_front_of] *)
Definition place_before (i j : Id) (l : list Id) : list Id :=
  l ≫= fun k => if decide (k = j) then [i; j] else [k].

Lemma bind_absent i j l : j ∉ l -> place_before i j l = l.
Proof.
  unfold place_before. induction l as [|k l IH]; intros Hj; [done|].
  apply not_elem_of_cons in Hj as [Hk Hj]. rewrite bind_cons, decide_False by done. simpl. f_equal. by apply IH.
Qed.

Lemma place_before_middle i j l1 l2 :
  NoDup (l1 ++ j :: l2) -> place_before i j (l1 ++ j :: l2) = l1 ++ i :: j :: l2.
Proof.
  intros (_ & Hd & [Hj _]%NoDup_cons)%NoDup_app. unfold place_before. rewrite bind_app, bind_cons.
  rewrite decide_True by done. fold (place_before i j l1) (place_before i j l2).
  rewrite !bind_absent; [done|done|]. intros Hin. apply (Hd j Hin). constructor.
Qed.

(** The nodes and the bag entry once [i] is put in front of [j]. *)
Definition front_nodes (i j : Id) (m : Node Id) (l1 : list Id) (sc : Z) ns : gmap Id (Node Id) :=
  <[i := mkNode i (last l1) (Some j) (bag_upper m) sc]>
    (<[j := set_prev (Some i) m]> (link_next (last l1) (Some i) ns)).

Lemma insert_at_eq s c j m i l1 l2 n :
  represents s c -> c !! bag_upper m = Some (l1 ++ j :: l2) -> id m = j -> prev m = last l1 ->
  id n = i -> bag_upper n = bag_upper m ->
  insert_at_unchecked m n s =
  (mkStore (front_nodes i j m l1 (score n) (ListNodes s)) (store_bag (bag_upper m) (l1 ++ i :: j :: l2) (ListBags s)), Ok tt).
Proof.
  intros Hr Hu Hidm Hp Hid Hup. pose proof (represents_keyed _ _ Hr) as Hk. unfold insert_at_unchecked.
  set (u := bag_upper m) in *. set (l := l1 ++ i :: j :: l2).
  assert (Hput : forall {B} (k : ST (Store Id) ListError B), (q ← node_opt (prev m);
      _ ← (match q with Some q => node_put (set_next (Some i) q) | None => mret tt end); k) s =
    k (mkStore (link_next (prev m) (Some i) (ListNodes s)) (ListBags s))).
  { intros B k. pose proof (put_next_eq s (prev m) (Some i) Hk) as Hpn.
    unfold mbind, st_bind in Hpn |- *. rewrite node_opt_eq in Hpn |- *. by rewrite Hpn. }
  cbn [id set_prev set_next]. rewrite Hid, Hput, Hp. clear Hput. unfold is_terminal.
  cbn [prev next set_prev set_next]. rewrite (bool_decide_false (Some _ = None)) by done. rewrite orb_false_r.
  set (s1 := mkStore _ (ListBags s)).
  rewrite st_bind_ok with (s' := mkStore (ListNodes s1) (store_bag u l (ListBags s))) (a := tt).
  - cbn. unfold node_put, st_modify, mbind, st_bind. cbn. unfold front_nodes, set_prev, set_next. cbn.
    by rewrite Hidm, Hid, Hup.
  - destruct l1 as [|k l1].
    + rewrite bool_decide_true by done. unfold bag_get, st_get, mret, st_ret, mbind, st_bind, st_lift. cbn.
      rewrite (rep_bags _ _ Hr). fold u. rewrite Hu. done.
    + rewrite bool_decide_false by (by rewrite last_None). unfold mret, st_ret. cbn [ListNodes s1].
      unfold store_bag. rewrite bool_decide_false by done. rewrite insert_id; [done|].
      rewrite (rep_bags _ _ Hr), Hu. simpl. unfold bag_entry. f_equal. f_equal. subst l. simpl.
      destruct l2 as [|x l2 _] using rev_ind; [by rewrite !app_comm_cons, last_snoc, (app_assoc _ [i] [j]), last_snoc|].
      by rewrite !app_comm_cons, !app_assoc, !last_snoc.
Qed.

Lemma insert_at_refines s c j m i sc :
  represents s c -> ListNodes s !! j = Some m -> ListNodes s !! i = None -> i <> j -> bag_of sc = bag_upper m ->
  forall n, id n = i -> bag_upper n = bag_upper m -> score n = sc ->
  exists s', insert_at_unchecked m n s = (s', Ok tt) /\
    represents s' (alter (place_before i j) (bag_upper m) c) /\
    score <$> ListNodes s' = <[i := sc]> (score <$> ListNodes s).
Proof.
  intros Hr Hj Hi Hij Hsc n Hid Hup Hscn.
  destruct (node_located _ _ _ _ Hr Hj) as (l1 & l2 & Hu & Hidm & Hp & _).
  pose proof (rep_nodup _ _ Hr _ _ Hu) as Hnd.
  assert (Hil : i ∉ l1 ++ j :: l2).
  { intros Hin. destruct (member_node _ _ _ _ _ Hr Hu Hin) as (x & Hx' & _). congruence. }
  rewrite (insert_at_eq s c j m i l1 l2 n) by done. eexists; split; [done|].
  set (l := l1 ++ i :: j :: l2). set (u := bag_upper m) in *. split.
  - assert (Hl : alter (place_before i j) u c = set_content u l c).
    { unfold set_content. rewrite bool_decide_false by (by destruct l1). apply map_eq. intros w.
      rewrite lookup_alter, lookup_insert. case_decide; [subst w|done]. rewrite Hu. simpl. by rewrite place_before_middle. }
    assert (Hndl : NoDup l) by (subst l; rewrite <- Permutation_middle; by constructor).
    rewrite Hl, Hscn. apply (represents_replace s c u (l1 ++ j :: l2)); [done|by rewrite Hu|done|..].
    + by apply linked_put_before; [..|by apply (rep_linked _ _ Hr)|].
    + intros k Hkl. subst l. destruct (decide (k = i)) as [->|]; [by right|left]. set_solver.
    + intros k Hkl Ho. subst l. set_solver.
    + intros k Hkl Ho. subst l. unfold front_nodes. rewrite !lookup_insert_ne by set_solver.
      apply link_next_ne. intros ?%last_elem. set_solver.
  - cbn [ListNodes]. unfold front_nodes. rewrite !fmap_insert, score_link_next, Hscn. simpl. f_equal.
    apply insert_id. rewrite lookup_fmap, Hj. done.
Qed.

Definition spec_put (score_of : Id -> Z) (lighter heavier : Id) v : View * res ListError unit :=
  match scores v !! lighter, scores v !! heavier with
  | Some sl, Some sh =>
      if negb (bag_of sl =? bag_of sh) then (v, Err NotInSameBag)
      else if negb (score_of lighter <? score_of heavier) then (v, Err NotHeavier)
      else (mkView (alter (place_before heavier lighter) (bag_of sl) (drop_id heavier (content v))) (scores v), Ok tt)
  | _, _ => (v, Err NodeNotFound)
  end.

Lemma put_refines score_of lighter heavier s v :
  rep s v -> exists s', put_in_front_of score_of lighter heavier s = (s', (spec_put score_of lighter heavier v).2) /\
    rep s' (spec_put score_of lighter heavier v).1.
Proof.
  intros Hrep. unfold put_in_front_of, spec_put. rewrite !(rep_lookup _ _ _ Hrep).
  erewrite st_bind_ok by done. destruct (ListNodes s !! lighter) as [ln|] eqn:Hl; [|by exists s].
  erewrite st_lift_ok by done. erewrite st_bind_ok by done.
  destruct (ListNodes s !! heavier) as [hn|] eqn:Hh; [|by exists s]. erewrite st_lift_ok by done.
  cbn [fmap option_fmap option_map].
  destruct (rep_located _ _ _ _ Hrep Hl) as (_ & _ & _ & _ & _ & _ & _ & _ & Hls).
  destruct (rep_located _ _ _ _ Hrep Hh) as (_ & _ & Hhid & _ & _ & _ & _ & _ & Hhs). rewrite Hls, Hhs.
  destruct (Z.eqb_spec (bag_upper ln) (bag_upper hn)) as [Hu|Hu]; cbn [negb]; [|by exists s].
  destruct (Z.ltb_spec (score_of lighter) (score_of heavier)) as [Hlt|Hge]; cbn [negb]; [|by exists s].
  assert (Hne : heavier <> lighter) by (intros ->; lia).
  destruct (remove_refines heavier s v Hrep) as (s1 & Hs1 & Hrep1). unfold spec_remove, is_member in Hs1, Hrep1.
  rewrite (rep_lookup _ _ _ Hrep), Hh in Hs1, Hrep1. rewrite bool_decide_true in Hs1, Hrep1 by done. simpl in Hs1, Hrep1.
  rewrite st_bind_ok with (s' := s1) (a := tt) by (by rewrite Hs1). erewrite st_bind_ok by done.
  pose proof (rep_lookup _ _ lighter Hrep1) as Hl1. simpl in Hl1. rewrite lookup_delete_ne in Hl1 by done.
  rewrite (rep_lookup _ _ _ Hrep), Hl in Hl1. simpl in Hl1.
  destruct (ListNodes s1 !! lighter) as [ln1|] eqn:Hln1; [|done]. injection Hl1 as Hsc1.
  erewrite st_lift_ok by done.
  destruct (rep_located _ _ _ _ Hrep1 Hln1) as (_ & _ & _ & _ & _ & _ & _ & _ & Hls1).
  assert (Hu1 : bag_upper ln1 = bag_upper ln) by congruence.
  assert (Hh1 : ListNodes s1 !! heavier = None).
  { pose proof (rep_lookup _ _ heavier Hrep1) as Hx. simpl in Hx. rewrite lookup_delete_eq in Hx.
    by destruct (ListNodes s1 !! heavier). }
  destruct (insert_at_refines s1 _ lighter ln1 heavier (score hn) (rep_content _ _ Hrep1) Hln1 Hh1 Hne) with (n := hn)
    as (s2 & Hs2 & Hr2 & Hsc2); [congruence..|].
  exists s2. split; [exact Hs2|]. rewrite Hu1 in Hr2. split; [exact Hr2|].
  rewrite Hsc2, (rep_scores _ _ Hrep1). simpl. apply insert_delete_id. by rewrite (rep_lookup _ _ _ Hrep), Hh.
Qed.

(** ** Histories *)
Definition empty_view : View := mkView ∅ ∅.

Lemma empty_rep : rep (mkStore ∅ ∅) empty_view.
Proof.
  split; [|simpl; apply fmap_empty]. split; simpl; intros; by rewrite ?lookup_empty in *.
Qed.

Definition spec_insert_one (score_of : Id -> Z) (st : View * nat) (i : Id) : View * nat :=
  let '(v, count) := st in
  match spec_insert i (score_of i) v with (v', Ok _) => (v', S count) | (v', _) => (v', count) end.

Lemma insert_many_refines score_of ids s v count :
  rep s v ->
  exists s', st_for (insert_one thresholds max_score score_of) count ids s =
      (s', Ok (foldl (spec_insert_one score_of) (v, count) ids).2) /\
    rep s' (foldl (spec_insert_one score_of) (v, count) ids).1.
Proof.
  revert s v count. induction ids as [|i ids IH]; intros s v count Hrep; [by exists s|].
  destruct (insert_refines s v i (score_of i) Hrep) as (s1 & Hs1 & Hrep1). cbn [st_for foldl].
  assert (Hone : insert_one thresholds max_score score_of count i s =
      (s1, Ok (spec_insert_one score_of (v, count) i).2) /\ rep s1 (spec_insert_one score_of (v, count) i).1).
  { unfold insert_one. rewrite Hs1. unfold spec_insert_one, spec_insert in *. by destruct (is_member v i). }
  destruct Hone as [Hone Hrep2]. rewrite (st_bind_ok _ _ _ _ _ Hone).
  destruct (spec_insert_one score_of (v, count) i). by apply IH.
Qed.

Inductive call :=
| Insert (i : Id) (sc : Z)
| InsertMany (ids : list Id) (score_of : Id -> Z)
| Remove (i : Id)
| RemoveMany (ids : list Id)
| Rebag (i : Id) (sc : Z)
| PutInFrontOf (score_of : Id -> Z) (lighter heavier : Id)
| Regenerate (ids : list Id) (score_of : Id -> Z).

Inductive answer := Done | Count (n : nat) | Moved (m : option (Z * Z)) (events : list (@Event Id)).

Definition exec_call (c : call) : ST (Store Id) ListError answer :=
  match c with
  | Insert i sc => _ ← insert thresholds max_score i sc; mret Done
  | InsertMany ids score_of => n ← insert_many thresholds max_score ids score_of; mret (Count n)
  | Remove i => _ ← remove i; mret Done
  | RemoveMany ids => n ← remove_many ids; mret (Count n)
  | Rebag i sc => '(m, es) ← do_rebag thresholds max_score i sc; mret (Moved m es)
  | PutInFrontOf score_of lighter heavier => _ ← put_in_front_of score_of lighter heavier; mret Done
  | Regenerate ids score_of => n ← unsafe_regenerate thresholds max_score ids score_of; mret (Count n)
  end.

Definition spec_call (c : call) v : View * res ListError answer :=
  match c with
  | Insert i sc => let '(v', r) := spec_insert i sc v in (v', _ ← r; Ok Done)
  | InsertMany ids score_of => let '(v', n) := foldl (spec_insert_one score_of) (v, 0%nat) ids in (v', Ok (Count n))
  | Remove i => let '(v', r) := spec_remove i v in (v', _ ← r; Ok Done)
  | RemoveMany ids => let '(v', n) := spec_remove_many ids v in (v', Ok (Count n))
  | Rebag i sc =>
      let '(v', r) := spec_update i sc v in
      (v', m ← r; Ok (Moved m ((match m with Some (from, to) => [Rebagged i from to] | None => [] end) ++ [ScoreUpdated i sc])))
  | PutInFrontOf score_of lighter heavier => let '(v', r) := spec_put score_of lighter heavier v in (v', _ ← r; Ok Done)
  | Regenerate ids score_of =>
      let '(v', n) := foldl (spec_insert_one score_of) (empty_view, 0%nat) ids in (v', Ok (Count n))
  end.

Lemma st_bind_eq {A B} (m : ST (Store Id) ListError A) (f : A -> B) s s' r :
  m s = (s', r) -> (x ← m; mret (f x)) s = (s', x ← r; Ok (f x)).
Proof. unfold mbind, st_bind. intros ->. by destruct r. Qed.

Lemma call_refines c s v :
  rep s v -> exists s', exec_call c s = (s', (spec_call c v).2) /\ rep s' (spec_call c v).1.
Proof.
  intros Hrep. destruct c as [i sc|ids score_of|i|ids|i sc|score_of lighter heavier|ids score_of]; simpl.
  - destruct (insert_refines s v i sc Hrep) as (s' & Hs' & Hr'). destruct (spec_insert i sc v).
    exists s'. split; [exact (st_bind_eq _ _ _ _ _ Hs')|done].
  - destruct (insert_many_refines score_of ids s v 0 Hrep) as (s' & Hs' & Hr'). destruct (foldl _ _ _).
    exists s'. split; [exact (st_bind_eq _ _ _ _ _ Hs')|done].
  - destruct (remove_refines i s v Hrep) as (s' & Hs' & Hr'). destruct (spec_remove i v).
    exists s'. split; [exact (st_bind_eq _ _ _ _ _ Hs')|done].
  - destruct (remove_many_refines ids s v Hrep) as (s' & Hs' & Hr'). destruct (spec_remove_many ids v).
    exists s'. split; [exact (st_bind_eq _ _ _ _ _ Hs')|done].
  - unfold do_rebag. unfold mbind at 1 2, st_bind at 1 2. simpl.
    destruct (ListNodes s !! i) as [n|] eqn:Hi; simpl.
    + destruct (update_refines s v i sc n Hrep Hi) as (s' & Hs' & Hr'). destruct (spec_update i sc v) as [v' r].
      exists s'. split; [|done]. simpl in Hs'. unfold mbind, st_bind, st_lift. simpl. rewrite Hs'. by destruct r.
    + exists s. unfold spec_update. rewrite (rep_lookup _ _ _ Hrep), Hi. done.
  - destruct (put_refines score_of lighter heavier s v Hrep) as (s' & Hs' & Hr'). destruct (spec_put _ _ _ _).
    exists s'. split; [exact (st_bind_eq _ _ _ _ _ Hs')|done].
  - destruct (insert_many_refines score_of ids (mkStore ∅ ∅) empty_view 0 empty_rep) as (s' & Hs' & Hr').
    destruct (foldl _ _ _). exists s'. split; [exact (st_bind_eq _ _ _ _ _ Hs')|done].
Qed.

Fixpoint run {S} (step : call -> S -> S * res ListError answer) (cs : list call) (st : S) :
    S * list (res ListError answer) :=
  match cs with
  | [] => (st, [])
  | c :: cs' => let '(st1, r) := step c st in let '(st2, rs) := run step cs' st1 in (st2, r :: rs)
  end.

Definition exec (cs : list call) : Store Id * list (res ListError answer) := run exec_call cs (mkStore ∅ ∅).
Definition spec (cs : list call) : View * list (res ListError answer) := run spec_call cs empty_view.

Lemma history_refines cs s v :
  rep s v -> rep (run exec_call cs s).1 (run spec_call cs v).1 /\ (run exec_call cs s).2 = (run spec_call cs v).2.
Proof.
  revert s v. induction cs as [|c cs IH]; intros s v Hrep; [done|]. simpl.
  destruct (call_refines c s v Hrep) as (s' & -> & Hrep'). destruct (spec_call c v) as [v' r]. simpl in Hrep'.
  destruct (IH s' v' Hrep') as [H1 H2]. simpl.
  destruct (run exec_call cs s'), (run spec_call cs v'). simpl in *. by subst.
Qed.

(** C14: for every history of calls from the empty list, the linked structure in
    storage represents the sequences of the specification, every answer is the
    one the specification gives, and in particular none of the defensive checks
    of the implementation ever fails. *)
Theorem bags_list_refines cs :
  rep (exec cs).1 (spec cs).1 /\ (exec cs).2 = (spec cs).2 /\ Panic ∉ (exec cs).2.
Proof.
  destruct (history_refines cs _ _ empty_rep) as [H1 H2]. split; [done|]. split; [done|]. unfold exec. rewrite H2.
  clear H1 H2. generalize empty_view. induction cs as [|c cs IH]; intros v; simpl; [set_solver|].
  assert (Hc : (spec_call c v).2 <> Panic).
  { destruct c; simpl; unfold spec_insert, spec_remove, spec_update, spec_put;
      repeat (case_match; simplify_eq/=; try done). }
  destruct (spec_call c v) as [v' r]. specialize (IH v'). destruct (run spec_call cs v'). simpl in *. set_solver.
Qed.

(** ** Iteration *)
Definition nodes_of s (l : list Id) : list (Node Id) := omap (fun i => ListNodes s !! i) l.

Lemma successors_linked s u p l fuel :
  linked (ListNodes s) u p l None -> (length l < fuel)%nat ->
  successors fuel s (or_head l None) = nodes_of s l.
Proof.
  revert p fuel. induction l as [|i l IH]; intros p fuel Hl Hf.
  - destruct fuel; [lia|done].
  - destruct fuel as [|fuel]; [lia|]. simpl in Hf. destruct Hl as [(sc & Hi & _) Hl].
    cbn [or_head successors mbind option_bind]. rewrite Hi. cbn [next]. rewrite (IH (Some i)); [|done|lia].
    unfold nodes_of. simpl. by rewrite Hi.
Qed.

Lemma members_bound ns l : NoDup l -> (forall i, i ∈ l -> is_Some (ns !! i)) -> (length l <= size ns)%nat.
Proof.
  intros Hnd Hin. rewrite <- (size_list_to_set (C := gset Id) l Hnd), <- size_dom. apply subseteq_size.
  intros i Hi%elem_of_list_to_set. apply elem_of_dom. by apply Hin.
Qed.

Lemma linked_members ns u p l x i : linked ns u p l x -> i ∈ l -> is_Some (ns !! i).
Proof. intros Hl (l1 & l2 & ->)%list_elem_of_split. apply linked_lookup in Hl as (sc & -> & _). done. Qed.

Lemma bags_of_spec s c us :
  represents s c -> bags_of s us = nodes_of s (us ≫= fun u => default [] (c !! u)).
Proof.
  intros Hr. unfold bags_of, nodes_of. induction us as [|u us IH]; [done|].
  rewrite bind_cons, omap_app, <- IH. simpl. rewrite (rep_bags _ _ Hr u).
  destruct (c !! u) as [l|] eqn:Hu; simpl; [|done]. f_equal. unfold bag_iter. cbn [head].
  apply (successors_linked s u None); [by apply (rep_linked _ _ Hr)|].
  pose proof (members_bound (ListNodes s) l (rep_nodup _ _ Hr u l Hu)) as Hb.
  assert (length l <= size (ListNodes s))%nat; [|lia]. apply Hb. intros i Hi.
  by eapply linked_members; [apply (rep_linked _ _ Hr)|].
Qed.

(** *** Where scores fall *)
Lemma partition_point_before (sc : Z) (ts : list Z) t :
  t ∈ take (partition_point (fun y => y <? sc) ts) ts -> t < sc.
Proof.
  induction ts as [|y ts IH]; simpl; [set_solver|]. destruct (Z.ltb_spec y sc); simpl; [|set_solver].
  rewrite elem_of_cons. intros [->|?]; auto.
Qed.

Lemma partition_point_at (sc : Z) (ts : list Z) t :
  ts !! partition_point (fun y => y <? sc) ts = Some t -> sc <= t.
Proof.
  induction ts as [|y ts IH]; simpl; [done|]. destruct (Z.ltb_spec y sc); simpl; [done|]. by intros [= <-].
Qed.

Lemma partition_point_end (sc : Z) (ts : list Z) t :
  ts !! partition_point (fun y => y <? sc) ts = None -> t ∈ ts -> t < sc.
Proof.
  intros Hn%lookup_ge_None Ht. apply (partition_point_before sc ts). by rewrite take_ge.
Qed.

(** What [integrity_test] checks, and that the thresholds are scores. *)
Definition good_thresholds : Prop :=
  StronglySorted (fun a b => a < b) thresholds /\ Forall (fun t => t <= max_score) thresholds.

Lemma all_thresholds_elem t : t ∈ all_thresholds thresholds max_score <-> t ∈ thresholds \/ t = max_score.
Proof.
  unfold all_thresholds. case_bool_decide as Hl.
  - apply last_Some in Hl as (l & ->). rewrite !elem_of_app, list_elem_of_singleton. naive_solver.
  - by rewrite elem_of_app, list_elem_of_singleton.
Qed.

Lemma bag_of_threshold sc : bag_of sc ∈ all_thresholds thresholds max_score.
Proof.
  apply all_thresholds_elem. unfold notional_bag_for.
  destruct (thresholds !! _) as [t|] eqn:Ht; simpl; [left; by eapply list_elem_of_lookup_2|by right].
Qed.

Lemma sorted_lookup (ts : list Z) (k m : nat) a b :
  StronglySorted (fun a b => a < b) ts -> ts !! k = Some a -> ts !! m = Some b -> (k < m)%nat -> a < b.
Proof.
  intros Hs. revert k m. induction Hs as [|y ts Hs IH Hx]; intros k m Hk Hm Hlt; [done|].
  destruct m as [|m]; [lia|]. simpl in Hm. destruct k as [|k]; simpl in Hk.
  - injection Hk as <-. rewrite Forall_forall in Hx. apply Hx. by eapply list_elem_of_lookup_2.
  - apply (IH k m); [done..|lia].
Qed.

(** A threshold below the bag of a score is below the score. *)
Lemma below_bag sc t : good_thresholds -> t ∈ thresholds -> t < bag_of sc -> t < sc.
Proof.
  intros [Hs _] Ht Hlt. unfold notional_bag_for in Hlt.
  destruct (thresholds !! partition_point (fun threshold => threshold <? sc) thresholds) as [b|] eqn:Hb; simpl in Hlt;
    [|by eapply partition_point_end].
  apply list_elem_of_lookup in Ht as [m Hm].
  apply (partition_point_before sc thresholds). set (k := partition_point _ _) in *.
  apply list_elem_of_lookup. exists m. apply lookup_take_Some. split; [done|].
  destruct (decide (m < k)%nat) as [|Hge]; [done|]. exfalso.
  destruct (decide (m = k)) as [->|]; [rewrite Hb in Hm; simplify_eq; lia|].
  pose proof (sorted_lookup _ k m b t Hs Hb Hm). lia.
Qed.

Lemma score_below_bag sc : sc <= max_score -> sc <= bag_of sc.
Proof.
  intros Hm. unfold notional_bag_for. destruct (thresholds !! _) as [t|] eqn:Ht; simpl; [|done].
  by apply partition_point_at in Ht.
Qed.

Lemma bag_least sc t :
  good_thresholds -> t ∈ all_thresholds thresholds max_score -> sc <= t -> bag_of sc <= t.
Proof.
  intros Hgood [Ht| ->]%all_thresholds_elem Hle.
  - destruct (decide (bag_of sc <= t)); [done|]. pose proof (below_bag sc t Hgood Ht). lia.
  - pose proof (bag_of_threshold sc) as [Hb| ->]%all_thresholds_elem; [|done].
    destruct Hgood as [_ Hmax]. rewrite Forall_forall in Hmax. by apply Hmax.
Qed.

(** [notional_bag_for] gives the smallest threshold that is not below the
    score, where the maximal score counts as a threshold. *)
Theorem notional_bag_for_least sc :
  good_thresholds -> sc <= max_score ->
  bag_of sc ∈ all_thresholds thresholds max_score /\ sc <= bag_of sc /\
  forall t, t ∈ all_thresholds thresholds max_score -> sc <= t -> bag_of sc <= t.
Proof.
  intros Hgood Hsc. split; [apply bag_of_threshold|]. split; [by apply score_below_bag|].
  intros t. by apply bag_least.
Qed.

Lemma bag_of_mono sc sc' : good_thresholds -> bag_of sc < bag_of sc' -> sc < sc'.
Proof.
  intros Hgood Hlt.
  assert (Hmax : bag_of sc' <= max_score).
  { pose proof (bag_of_threshold sc') as [Hb| ->]%all_thresholds_elem; [|done].
    destruct Hgood as [_ Hm]. rewrite Forall_forall in Hm. by apply Hm. }
  assert (Hle : sc <= bag_of sc).
  { unfold notional_bag_for in Hlt |- *.
    destruct (thresholds !! partition_point (fun threshold => threshold <? sc) thresholds) as [t|] eqn:Ht; simpl in *.
    - by apply partition_point_at in Ht.
    - unfold notional_bag_for in Hmax. lia. }
  pose proof (bag_of_threshold sc) as [Hb|Hb]%all_thresholds_elem; [|lia].
  pose proof (below_bag sc' _ Hgood Hb Hlt). lia.
Qed.

Lemma sorted_below_max (ts : list Z) (mx : Z) :
  StronglySorted (fun a b => a < b) ts -> Forall (fun t => t <= mx) ts -> last ts <> Some mx ->
  Forall (fun t => t < mx) ts.
Proof.
  destruct ts as [|t ts _] using rev_ind; [constructor|]. rewrite last_snoc, Forall_app, Forall_singleton.
  intros Hs [_ Ht] Hne. assert (t < mx) by (assert (t <> mx) by congruence; lia).
  apply Forall_app. split; [|by constructor]. apply Forall_forall. intros t' Ht'.
  pose proof (StronglySorted_app_1_elem_of _ _ _ _ t Hs Ht' ltac:(constructor)). simpl in *. lia.
Qed.

Lemma all_thresholds_sorted : good_thresholds -> StronglySorted (fun a b => a < b) (all_thresholds thresholds max_score).
Proof.
  intros [Hs Hm]. unfold all_thresholds. case_bool_decide as Hl; [done|].
  pose proof (sorted_below_max _ _ Hs Hm Hl) as Hlt. rewrite Forall_forall in Hlt.
  apply StronglySorted_app_2; [|done|by repeat constructor].
  intros a b Ha ->%list_elem_of_singleton. by apply Hlt.
Qed.

Lemma elem_of_nodes_of s l n : n ∈ nodes_of s l <-> exists i, i ∈ l /\ ListNodes s !! i = Some n.
Proof. unfold nodes_of. by rewrite list_elem_of_omap. Qed.

Lemma nodes_of_ids s c l :
  represents s c -> (forall i, i ∈ l -> is_Some (ListNodes s !! i)) -> id <$> nodes_of s l = l.
Proof.
  intros Hr. induction l as [|i l IH]; intros Hl; [done|]. unfold nodes_of. simpl.
  destruct (Hl i ltac:(constructor)) as [n Hn]. rewrite Hn, fmap_cons, (represents_keyed _ _ Hr i n Hn).
  f_equal. apply IH. intros j Hj. apply Hl. by constructor.
Qed.

Implicit Types (c : gmap Z (list Id)) (us : list Z).

(** The members of the bags in the given order of bags. *)
Abbreviation ids_of c us := (us ≫= fun u => default [] (c !! u)).

Lemma elem_of_ids_of c us i : i ∈ ids_of c us <-> exists u l, u ∈ us /\ c !! u = Some l /\ i ∈ l.
Proof.
  rewrite list_elem_of_bind. split.
  - intros (u & Hi & Hu). destruct (c !! u) as [l|] eqn:Hl; [|set_solver]. by exists u, l.
  - intros (u & l & Hu & Hl & Hi). exists u. by rewrite Hl.
Qed.

Lemma ids_of_nodup s c us : represents s c -> NoDup us -> NoDup (ids_of c us).
Proof.
  intros Hr. induction 1 as [|u us Hu Hnd IH]; [constructor|]. rewrite bind_cons. apply NoDup_app.
  split_and!; [| |done].
  - destruct (c !! u) as [l|] eqn:Hl; [by apply (rep_nodup _ _ Hr u)|constructor].
  - intros i Hi (w & l' & Hw & Hl' & Hi')%elem_of_ids_of. destruct (c !! u) as [l|] eqn:Hl; [|set_solver].
    apply Hu. by rewrite (rep_disjoint _ _ Hr _ _ _ _ _ Hl Hl' Hi Hi').
Qed.

Lemma bag_threshold s c u l : represents s c -> c !! u = Some l -> u ∈ all_thresholds thresholds max_score.
Proof.
  intros Hr Hu. destruct l as [|i l]; [by destruct (rep_nonempty _ _ Hr _ _ Hu)|].
  destruct (rep_linked _ _ Hr _ _ Hu) as [(sc & _ & <-) _]. apply bag_of_threshold.
Qed.

Lemma StronglySorted_reverse {A} (P : A -> A -> Prop) (l : list A) :
  StronglySorted P l -> StronglySorted (fun a b => P b a) (reverse l).
Proof.
  induction 1 as [|a l Hs IH Ha]; [constructor|]. rewrite reverse_cons. rewrite Forall_forall in Ha.
  apply StronglySorted_app_2; [|done|by repeat constructor].
  intros b a' Hb ->%list_elem_of_singleton. rewrite elem_of_reverse in Hb. by apply Ha.
Qed.

Lemma StronglySorted_lt_nodup (ts : list Z) : StronglySorted (fun a b => a < b) ts -> NoDup ts.
Proof.
  induction 1 as [|t ts Hs IH Ht]; constructor; [|done]. rewrite Forall_forall in Ht. intros Hin%Ht. lia.
Qed.

(** The nodes of a bag carry its threshold and a score that belongs to it. *)
Lemma bag_nodes s c u l n :
  represents s c -> c !! u = Some l -> n ∈ nodes_of s l -> bag_upper n = u /\ bag_of (score n) = u.
Proof.
  intros Hr Hu (i & Hi & Hn)%elem_of_nodes_of. apply list_elem_of_split in Hi as (l1 & l2 & ->).
  destruct (linked_lookup _ _ _ _ _ _ _ (rep_linked _ _ Hr _ _ Hu)) as (sc & Hn' & Hsc).
  rewrite Hn in Hn'. by simplify_eq/=.
Qed.

Lemma nodes_sorted s c us :
  represents s c -> StronglySorted (fun a b => b < a) us ->
  StronglySorted (fun a b => bag_of (score b) <= bag_of (score a)) (nodes_of s (ids_of c us)).
Proof.
  intros Hr. induction 1 as [|u us Hs IH Hu]; [constructor|]. rewrite bind_cons. unfold nodes_of. rewrite omap_app.
  rewrite Forall_forall in Hu. apply StronglySorted_app_2; [| |done].
  - intros a b Ha (i & (w & l' & Hw & Hl' & Hi)%elem_of_ids_of & Hb)%elem_of_nodes_of.
    destruct (c !! u) as [l|] eqn:Hl; [|by apply not_elem_of_nil in Ha].
    destruct (bag_nodes _ _ _ _ _ Hr Hl Ha) as [_ ->].
    destruct (bag_nodes _ _ _ l' b Hr Hl') as [_ ->]; [apply elem_of_nodes_of; by exists i|].
    specialize (Hu w Hw). simpl in Hu. lia.
  - destruct (c !! u) as [l|] eqn:Hl; [|constructor]. simpl.
    assert (Hall : forall n, n ∈ nodes_of s l -> bag_of (score n) = u) by (intros n Hn; by apply (bag_nodes _ _ _ _ _ Hr Hl)).
    unfold nodes_of in Hall. induction (omap (fun i => ListNodes s !! i) l) as [|n ns IHn]; constructor.
    + apply IHn. intros m Hm. apply Hall. by constructor.
    + apply Forall_forall. intros m Hm. rewrite (Hall n), (Hall m); [done|by constructor|constructor].
Qed.

(** iteration.  After any history [iter] visits every member exactly once,
    and of two members it visits, the earlier one is in the same bag as the
    later one or has the greater score. *)
Theorem iter_visits_in_order cs :
  good_thresholds ->
  let s := (exec cs).1 in
  NoDup (id <$> iter thresholds max_score s) /\
  (forall i, i ∈ id <$> iter thresholds max_score s <-> is_Some (scores (spec cs).1 !! i)) /\
  StronglySorted (fun a b => bag_of (score a) = bag_of (score b) \/ score b < score a) (iter thresholds max_score s).
Proof.
  intros Hgood s. destruct (history_refines cs _ _ empty_rep) as [Hrep _].
  change (rep s (spec cs).1) in Hrep. pose proof (rep_content _ _ Hrep) as Hr. unfold iter.
  rewrite (bags_of_spec _ _ _ Hr). set (c := content _) in *.
  pose proof (all_thresholds_sorted Hgood) as Hs.
  rewrite (nodes_of_ids _ _ _ Hr).
  2:{ intros i (u & l & _ & Hl & Hi)%elem_of_ids_of. by eapply linked_members; [apply (rep_linked _ _ Hr)|]. }
  split_and!.
  - apply (ids_of_nodup s); [done|]. rewrite reverse_Permutation. by apply StronglySorted_lt_nodup.
  - intros i. rewrite elem_of_ids_of, (rep_lookup _ _ _ Hrep), fmap_is_Some. split.
    + intros (u & l & _ & Hl & Hi). by eapply linked_members; [apply (rep_linked _ _ Hr)|].
    + intros [n Hn]. destruct (rep_nodes _ _ Hr _ _ Hn) as (l & Hl & Hi). exists (bag_upper n), l.
      split; [|done]. rewrite elem_of_reverse. by eapply bag_threshold.
  - eapply StronglySorted_weaken; [|apply (nodes_sorted s c); [done|by apply StronglySorted_reverse]].
    intros a b Hab. cbn beta in Hab. destruct (decide (bag_of (score a) = bag_of (score b))); [by left|right].
    apply bag_of_mono; [done|lia].
Qed.

(** The thresholds below a bag are those up to its partition point. *)
Lemma partition_point_self (ts : list Z) u :
  StronglySorted (fun a b => a < b) ts -> u ∈ ts ->
  ts = take (partition_point (fun t => t <? u) ts) ts ++ u :: drop (S (partition_point (fun t => t <? u) ts)) ts.
Proof.
  induction 1 as [|t ts Hs IH Ht]; intros Hu; [set_solver|]. rewrite Forall_forall in Ht. simpl.
  destruct (Z.ltb_spec t u) as [Hlt|Hge]; simpl.
  - f_equal. apply IH. apply elem_of_cons in Hu as [->|]; [lia|done].
  - apply elem_of_cons in Hu as [->|Hu]; [done|]. specialize (Ht u Hu). lia.
Qed.

Lemma partition_point_all (ts : list Z) u :
  Forall (fun t => t < u) ts -> partition_point (fun t => t <? u) ts = length ts.
Proof. induction 1 as [|t ts Ht _ IH]; [done|]. simpl. by rewrite (proj2 (Z.ltb_lt _ _) Ht), IH. Qed.

Lemma thresholds_below u :
  good_thresholds -> u ∈ all_thresholds thresholds max_score ->
  exists above, all_thresholds thresholds max_score =
    take (partition_point (fun t => t <? u) thresholds) thresholds ++ u :: above.
Proof.
  intros [Hs Hm] Hu. destruct (decide (u ∈ thresholds)) as [Hin|Hout].
  - pose proof (partition_point_self _ _ Hs Hin) as Heq. set (k := partition_point _ _) in *.
    unfold all_thresholds. case_bool_decide; [by eexists|].
    exists (drop (S k) thresholds ++ [max_score]). rewrite Heq at 1. by rewrite <- app_assoc.
  - apply all_thresholds_elem in Hu as [|Hu]; [done|]. subst u. unfold all_thresholds. rewrite bool_decide_false.
    2:{ intros Hl. apply Hout. by apply last_elem. }
    rewrite partition_point_all; [by exists []; rewrite firstn_all|].
    apply sorted_below_max; [done..|]. intros Hl. apply Hout. by apply last_elem.
Qed.

Lemma nodes_of_app s l1 l2 : nodes_of s (l1 ++ l2) = nodes_of s l1 ++ nodes_of s l2.
Proof. apply omap_app. Qed.

(** [iter_from] continues the iteration: it fails exactly for an account that
    is not a member, and otherwise returns what [iter] visits after the account. *)
Theorem iter_from_continues cs i :
  good_thresholds ->
  let s := (exec cs).1 in
  match iter_from thresholds s i with
  | Ok rest => exists before n, iter thresholds max_score s = before ++ n :: rest /\ id n = i
  | Err e => e = NodeNotFound /\ scores (spec cs).1 !! i = None
  | Panic => False
  end.
Proof.
  intros Hgood s. destruct (history_refines cs _ _ empty_rep) as [Hrep _].
  change (rep s (spec cs).1) in Hrep. pose proof (rep_content _ _ Hrep) as Hr. unfold iter_from.
  destruct (ListNodes s !! i) as [n|] eqn:Hi; cbn [ok_or mbind res_bind].
  2:{ split; [done|]. by rewrite (rep_lookup _ _ _ Hrep), Hi. }
  destruct (rep_located _ _ _ _ Hrep Hi) as (l1 & l2 & Hid & Hn & Hu & Hnd & Hp & Hx & _).
  set (c := content _) in *.
  destruct (thresholds_below (bag_upper n) Hgood) as [above Hall]; [by eapply bag_threshold|].
  unfold iter. rewrite !(bags_of_spec _ _ _ Hr), Hall, reverse_app, reverse_cons, !bind_app, bind_cons, Hu. fold c.
  pose proof (rep_linked _ _ Hr _ _ Hu) as Hl. rewrite linked_app in Hl. destruct Hl as [_ [_ Hl2]].
  rewrite Hx, (successors_linked s (bag_upper n) (Some (id n))); [|exact Hl2|].
  - exists (nodes_of s (ids_of c (reverse above)) ++ nodes_of s l1), n. split; [|done]. cbn [default mbind list_bind].
    rewrite app_nil_r, !nodes_of_app. simpl. rewrite !(nodes_of_app s). unfold nodes_of at 3. simpl. rewrite Hn.
    fold (nodes_of s l2). by rewrite <- !app_assoc.
  - pose proof (members_bound (ListNodes s) l2) as Hb. apply NoDup_app in Hnd as (_ & _ & [_ Hnd2]%NoDup_cons).
    assert (length l2 <= size (ListNodes s))%nat; [|lia]. apply Hb; [done|]. intros j Hj.
    by eapply linked_members.
Qed.
End linked.

(** ** [migrate]

    The thresholds of a runtime change with an upgrade; [migrate] moves the
    accounts whose bag is affected.  Threshold lists are strictly increasing, so
    the [BTreeSet]s of the code are the lists themselves.  The accounts are
    collected in a set; [elements] enumerates it, in an order that stands for
    the one of the account ids. *)
Section migrate.
Context {Id : Type} `{Countable Id}.
Variables (old_thresholds new_thresholds : list Z) (max_score : Z).
Implicit Types (s : Store Id).

(** The loop bodies: the accounts of an old bag are collected once. *)
Definition collect_bag (st : gset Z * gset Id) (affected_bag : Z) : ST (Store Id) ListError (gset Z * gset Id) :=
  let '(affected_old_bags, affected_accounts) := st in
  if bool_decide (affected_bag ∈ affected_old_bags) then mret st
  else
    s ← st_get;
    mret ({[affected_bag]} ∪ affected_old_bags,
          match ListBags s !! affected_bag with
          | Some (h, t) => list_to_set (id <$> bag_iter s (mkBag h t affected_bag)) ∪ affected_accounts
          | None => affected_accounts
          end).

Definition inserted_bags : list Z := filter (fun t => t ∉ old_thresholds) new_thresholds.
Definition removed_bags : list Z := filter (fun t => t ∉ new_thresholds) old_thresholds.

Definition drop_bag (removed_bag : Z) : ST (Store Id) ListError unit :=
  s ← st_get;
  if existsb (fun p => bag_upper p.2 =? removed_bag) (map_to_list (ListNodes s)) then st_lift Panic
  else st_modify (fun s => mkStore (ListNodes s) (delete removed_bag (ListBags s))).

Definition migrate (score_of : Id -> Z) : ST (Store Id) ListError nat :=
  if bool_decide (new_thresholds = old_thresholds) then mret 0%nat
  else
    s ← st_get;
    if negb (forallb (fun p => bool_decide (p.1 ∈ old_thresholds)) (map_to_list (ListBags s))) then st_lift Panic
    else if negb (forallb (fun p => bool_decide (bag_upper p.2 ∈ old_thresholds)) (map_to_list (ListNodes s)))
    then st_lift Panic
    else
      st ← st_for collect_bag (∅, ∅) (notional_bag_for old_thresholds max_score <$> inserted_bags);
      '(_, affected_accounts) ← st_for collect_bag st removed_bags;
      let num_affected := size affected_accounts in
      removed ← remove_many (elements affected_accounts);
      if negb (removed =? num_affected)%nat then st_lift Panic
      else
        inserted ← insert_many new_thresholds max_score (elements affected_accounts) score_of;
        if negb (inserted =? num_affected)%nat then st_lift Panic
        else
          _ ← st_for (fun _ => drop_bag) tt removed_bags;
          mret num_affected.
End migrate.

Section migrate_spec.
Context {Id : Type} `{Countable Id}.
Variables (old new : list Z) (max_score : Z).
Implicit Types (s : Store Id) (v : @View Id _ _) (ids : list Id) (A : gset Id) (B : gset Z).

Abbreviation bag_old := (notional_bag_for old max_score).
Abbreviation bag_new := (notional_bag_for new max_score).
Abbreviation rep_old := (rep old max_score).
Abbreviation rep_new := (rep new max_score).

(** [A] is the set of the members of the bags in [B]. *)
Definition members_of v B A : Prop :=
  forall i, i ∈ A <-> exists u l, u ∈ B /\ content v !! u = Some l /\ i ∈ l.

Lemma collect_bag_spec s v B A u :
  rep_old s v -> members_of v B A ->
  exists A', collect_bag (B, A) u s = (s, Ok ({[u]} ∪ B, A')) /\ members_of v ({[u]} ∪ B) A'.
Proof.
  intros Hrep HA. pose proof (rep_content _ _ _ _ Hrep) as Hr. unfold collect_bag. case_bool_decide as Hu.
  { exists A. assert (({[u]} : gset Z) ∪ B = B) as -> by set_solver. done. }
  unfold mret, st_ret, st_get, mbind, st_bind. eexists. split; [done|]. intros i.
  assert (Hbag : match ListBags s !! u with
    | Some (h, t) => list_to_set (id <$> bag_iter s (mkBag h t u)) ∪ A | None => A end =
    list_to_set (default [] (content v !! u)) ∪ A).
  { rewrite (rep_bags _ _ _ _ Hr u). destruct (content v !! u) as [l|] eqn:Hl; simpl; [|set_solver].
    pose proof (bags_of_spec _ _ s (content v) [u] Hr) as Hb. unfold bags_of in Hb. simpl in Hb.
    rewrite (rep_bags _ _ _ _ Hr u), Hl in Hb. simpl in Hb. rewrite !app_nil_r in Hb. rewrite Hb.
    rewrite (nodes_of_ids _ _ _ _ _ Hr); [done|]. intros j Hj.
    by eapply linked_members; [apply (rep_linked _ _ _ _ Hr)|]. }
  rewrite Hbag, elem_of_union, elem_of_list_to_set, (HA i). split.
  - intros [Hi|(w & l & Hw & Hl & Hi)]; [|exists w, l; set_solver].
    destruct (content v !! u) as [l|] eqn:Hl; [|by apply not_elem_of_nil in Hi]. exists u, l. set_solver.
  - intros (w & l & [->%elem_of_singleton|Hw]%elem_of_union & Hl & Hi); [left; by rewrite Hl|right; by exists w, l].
Qed.

Lemma collect_spec s v us B A :
  rep_old s v -> members_of v B A ->
  exists A', st_for collect_bag (B, A) us s = (s, Ok (list_to_set us ∪ B, A')) /\
    members_of v (list_to_set us ∪ B) A'.
Proof.
  intros Hrep. revert B A. induction us as [|u us IH]; intros B A HA.
  { exists A. simpl. assert ((∅ : gset Z) ∪ B = B) as -> by set_solver. done. }
  destruct (collect_bag_spec s v B A u Hrep HA) as (A1 & H1 & HA1). cbn [st_for].
  rewrite (st_bind_ok _ _ _ _ _ H1). destruct (IH _ _ HA1) as (A2 & H2 & HA2). exists A2. rewrite H2. simpl.
  assert (list_to_set us ∪ ({[u]} ∪ B) = {[u]} ∪ list_to_set us ∪ B) as <- by set_solver. done.
Qed.

(** Removing distinct members, and inserting distinct non-members. *)
Lemma remove_members ids v count :
  NoDup ids -> (forall i, i ∈ ids -> is_member v i = true) ->
  (foldl spec_remove_one (v, count) ids).2 = (count + length ids)%nat /\
  forall i, scores (foldl spec_remove_one (v, count) ids).1 !! i = if decide (i ∈ ids) then None else scores v !! i.
Proof.
  revert v count. induction ids as [|j ids IH]; intros v count Hnd Hm.
  { split; [simpl; lia|]. intros i. by rewrite decide_False by set_solver. }
  apply NoDup_cons in Hnd as [Hj Hnd]. cbn [foldl]. assert (Hone : spec_remove_one (v, count) j =
    (mkView (drop_id j (content v)) (delete j (scores v)), S count))
    by (unfold spec_remove_one; by rewrite (Hm j) by constructor).
  rewrite Hone.
  destruct (IH (mkView (drop_id j (content v)) (delete j (scores v))) (S count) Hnd) as [Hc Hs].
  { intros i Hi. unfold is_member. simpl. rewrite lookup_delete_ne by (by intros ->).
    apply (Hm i). by constructor. }
  split; [rewrite Hc; simpl; lia|]. intros i. rewrite Hs. cbn [scores].
  destruct (decide (i ∈ ids)); [by rewrite decide_True by set_solver|]. destruct (decide (i = j)) as [->|Hne].
  - rewrite lookup_delete_eq. by rewrite decide_True by set_solver.
  - rewrite lookup_delete_ne by done. by rewrite decide_False by set_solver.
Qed.

Lemma insert_members ids score_of v count :
  NoDup ids -> (forall i, i ∈ ids -> is_member v i = false) ->
  (foldl (spec_insert_one new max_score score_of) (v, count) ids).2 = (count + length ids)%nat /\
  forall i, scores (foldl (spec_insert_one new max_score score_of) (v, count) ids).1 !! i =
    if decide (i ∈ ids) then Some (score_of i) else scores v !! i.
Proof.
  revert v count. induction ids as [|j ids IH]; intros v count Hnd Hm.
  { split; [simpl; lia|]. intros i. by rewrite decide_False by set_solver. }
  apply NoDup_cons in Hnd as [Hj Hnd]. cbn [foldl]. assert (Hone : spec_insert_one new max_score score_of (v, count) j =
    (mkView (push (bag_new (score_of j)) j (content v)) (<[j := score_of j]> (scores v)), S count))
    by (unfold spec_insert_one, spec_insert; by rewrite (Hm j) by constructor).
  rewrite Hone.
  destruct (IH (mkView (push (bag_new (score_of j)) j (content v)) (<[j := score_of j]> (scores v))) (S count) Hnd) as [Hc Hs].
  { intros i Hi. unfold is_member. simpl. rewrite lookup_insert_ne by (by intros ->).
    apply (Hm i). by constructor. }
  split; [rewrite Hc; simpl; lia|]. intros i. rewrite Hs. cbn [scores].
  destruct (decide (i ∈ ids)); [by rewrite decide_True by set_solver|]. destruct (decide (i = j)) as [->|Hne].
  - rewrite lookup_insert_eq. by rewrite decide_True by set_solver.
  - rewrite lookup_insert_ne by done. by rewrite decide_False by set_solver.
Qed.

(** ** Changing the thresholds *)
Lemma linked_thresholds (ns : gmap Id (Node Id)) u p l x :
  (forall i n, ns !! i = Some n -> i ∈ l -> bag_new (score n) = bag_upper n) ->
  linked old max_score ns u p l x -> linked new max_score ns u p l x.
Proof.
  revert p. induction l as [|i l IH]; intros p Hb; [done|]. cbn [linked]. intros [(sc & Hi & _) Hl]. split.
  - exists sc. split; [done|]. apply (Hb i _ Hi). constructor.
  - apply IH; [|done]. intros j n Hj Hin. apply (Hb j n Hj). by constructor.
Qed.

Lemma rep_thresholds s v :
  rep_old s v -> (forall i sc, scores v !! i = Some sc -> bag_new sc = bag_old sc) -> rep_new s v.
Proof.
  intros Hrep Hb. pose proof (rep_content _ _ _ _ Hrep) as Hr. split; [|apply Hrep]. destruct Hr as [Hr1 Hr2 Hr3 Hr4 Hr5 Hr6].
  split; try done. intros u l Hu. apply linked_thresholds; [|by apply Hr4]. intros i n Hn _.
  destruct (rep_located _ _ _ _ _ _ Hrep Hn) as (_ & _ & _ & _ & _ & _ & _ & _ & Hsc). rewrite <- Hsc.
  apply (Hb i). by rewrite (rep_lookup _ _ _ _ _ Hrep), Hn.
Qed.

Definition affected_bags : gset Z := list_to_set (removed_bags old new) ∪ (list_to_set (bag_old <$> inserted_bags old new) ∪ ∅).

(** A score keeps its bag unless the bag is affected. *)
Lemma unaffected_score sc :
  good_thresholds old max_score -> good_thresholds new max_score -> sc <= max_score ->
  bag_old sc ∈ old -> bag_old sc ∉ affected_bags -> bag_new sc = bag_old sc.
Proof.
  intros Hgo Hgn Hmax Hin Hna. set (u := bag_old sc) in *.
  assert (Hun : u ∈ new).
  { destruct (decide (u ∈ new)) as [|Hout]; [done|]. exfalso. apply Hna. unfold affected_bags, removed_bags.
    apply elem_of_union_l, elem_of_list_to_set, list_elem_of_filter. done. }
  assert (Hmaxu : u <= max_score) by (destruct Hgo as [_ Hm]; rewrite Forall_forall in Hm; by apply Hm).
  pose proof (score_below_bag old max_score sc Hmax) as Hsc. fold u in Hsc.
  pose proof (bag_least new max_score sc u Hgn) as Hle.
  rewrite all_thresholds_elem in Hle. specialize (Hle (or_introl Hun) Hsc).
  destruct (decide (bag_new sc = u)) as [|Hne]; [done|]. exfalso.
  pose proof (score_below_bag new max_score sc Hmax) as Hscn.
  pose proof (bag_of_threshold new max_score sc) as [Hb|Hb]%all_thresholds_elem; [|lia].
  set (b := bag_new sc) in *. destruct (decide (b ∈ old)) as [Hbo|Hbo].
  - pose proof (bag_least old max_score sc b Hgo) as Hx. rewrite all_thresholds_elem in Hx.
    specialize (Hx (or_introl Hbo) Hscn). fold u in Hx. lia.
  - apply Hna. unfold affected_bags. apply elem_of_union_r, elem_of_union_l, elem_of_list_to_set, list_elem_of_fmap.
    exists b. split; [|by apply list_elem_of_filter].
    assert (Hbu : bag_old b <= u).
    { apply bag_least; [done|apply all_thresholds_elem; by left|lia]. }
    assert (Hub : u <= bag_old b).
    { apply bag_least; [done|apply bag_of_threshold|]. pose proof (score_below_bag old max_score b). lia. }
    lia.
Qed.

(** The debug assertions at the start of the migration. *)
Lemma migrate_checks s v :
  rep_old s v -> (forall u l, content v !! u = Some l -> u ∈ old) ->
  forallb (fun p => bool_decide (p.1 ∈ old)) (map_to_list (ListBags s)) = true /\
  forallb (fun p => bool_decide (bag_upper p.2 ∈ old)) (map_to_list (ListNodes s)) = true.
Proof.
  intros Hrep Hold. pose proof (rep_content _ _ _ _ Hrep) as Hr. split; apply forallb_forall.
  - intros [u e] Hin%list_elem_of_In%elem_of_map_to_list. apply bool_decide_eq_true. simpl.
    rewrite (rep_bags _ _ _ _ Hr u) in Hin. destruct (content v !! u) as [l|] eqn:Hl; [by eapply Hold|done].
  - intros [i n] Hin%list_elem_of_In%elem_of_map_to_list. apply bool_decide_eq_true. simpl.
    destruct (rep_nodes _ _ _ _ Hr _ _ Hin) as (l & Hl & _). by eapply Hold.
Qed.

(** Dropping bags that have no members any more. *)
Lemma drop_bags_spec s v us :
  rep_new s v -> (forall u, u ∈ us -> u ∉ all_thresholds new max_score) ->
  st_for (fun _ => drop_bag) tt us s = (s, Ok tt).
Proof.
  intros Hrep. pose proof (rep_content _ _ _ _ Hrep) as Hr. induction us as [|u us IH]; intros Hus; [done|].
  assert (Hu : u ∉ all_thresholds new max_score) by (apply Hus; constructor).
  assert (Hnone : content v !! u = None).
  { destruct (content v !! u) as [l|] eqn:Hl; [|done]. by destruct Hu; eapply bag_threshold. }
  assert (Hone : drop_bag u s = (s, Ok tt)).
  { unfold drop_bag, st_get, st_modify, mbind, st_bind.
    assert (Hex : existsb (fun p => bag_upper p.2 =? u) (map_to_list (ListNodes s)) = false).
    { apply not_true_is_false. intros (p & Hp%list_elem_of_In & Heq%Z.eqb_eq)%existsb_exists. destruct p as [i n].
      apply elem_of_map_to_list in Hp. simpl in Heq.
      destruct (rep_nodes _ _ _ _ Hr _ _ Hp) as (l & Hl & _). congruence. }
    rewrite Hex. rewrite delete_id; [by destruct s|]. by rewrite (rep_bags _ _ _ _ Hr), Hnone. }
  cbn [st_for]. rewrite (st_bind_ok _ _ _ _ _ Hone). apply IH. intros w Hw. apply Hus. by constructor.
Qed.

(** The accounts collected for the migration. *)
Lemma affected_spec s v :
  rep_old s v ->
  exists A, members_of v affected_bags A /\ forall C (k : gset Id -> ST (Store Id) ListError C),
    (st ← st_for collect_bag (∅, ∅) (bag_old <$> inserted_bags old new);
     '(_, affected_accounts) ← st_for collect_bag st (removed_bags old new); k affected_accounts) s = k A s.
Proof.
  intros Hrep.
  destruct (collect_spec s v (bag_old <$> inserted_bags old new) ∅ ∅ Hrep) as (A1 & H1 & HA1).
  { intros i. split; [set_solver|]. by intros (u & l & Hu%elem_of_empty & _). }
  destruct (collect_spec s v (removed_bags old new) _ _ Hrep HA1) as (A & H2 & HA).
  exists A. split; [exact HA|]. intros C k. rewrite (st_bind_ok _ _ _ _ _ H1). by rewrite (st_bind_ok _ _ _ _ _ H2).
Qed.

Lemma affected_member s v A i :
  rep_old s v -> members_of v affected_bags A -> i ∈ A -> is_member v i = true.
Proof.
  intros Hrep HA (u & l & _ & Hl & Hi)%HA. apply bool_decide_eq_true. rewrite (rep_lookup _ _ _ _ _ Hrep), fmap_is_Some.
  by eapply linked_members; [apply (rep_linked _ _ _ _ (rep_content _ _ _ _ Hrep))|].
Qed.

(** An account that was not collected keeps its bag. *)
Lemma unaffected_member s v A i sc :
  rep_old s v -> members_of v affected_bags A ->
  good_thresholds old max_score -> good_thresholds new max_score -> sc <= max_score ->
  (forall u l, content v !! u = Some l -> u ∈ old) ->
  scores v !! i = Some sc -> i ∉ A -> bag_new sc = bag_old sc.
Proof.
  intros Hrep HA Hgo Hgn Hmax Hold Hi Hna. rewrite (rep_lookup _ _ _ _ _ Hrep) in Hi.
  destruct (ListNodes s !! i) as [n|] eqn:Hn; [|done]. simpl in Hi. injection Hi as <-.
  destruct (rep_located _ _ _ _ _ _ Hrep Hn) as (l1 & l2 & Hid & _ & Hl & _ & _ & _ & Hsc).
  apply unaffected_score; try done; rewrite Hsc; [by eapply Hold|]. intros Hu. apply Hna. apply HA.
  exists (bag_upper n), (l1 ++ id n :: l2). split_and!; [done..|]. rewrite Hid. apply elem_of_app. right. constructor.
Qed.

(** C30: [migrate] from one list of thresholds to another, under its documented
    precondition and unless the new list drops the maximal score from the old
    one: no debug assertion fails, the result is a well-formed list for the new
    thresholds with the same members, the answer is the number of accounts that
    were moved, these now have their current score, and the score of every other
    account is untouched, as is its bag. *)
Theorem migrate_rebags s v score_of :
  rep_old s v -> good_thresholds old max_score -> good_thresholds new max_score -> new <> old ->
  (forall u l, content v !! u = Some l -> u ∈ old) -> (forall i sc, scores v !! i = Some sc -> sc <= max_score) ->
  max_score ∈ new \/ max_score ∉ old ->
  exists s' v' A, migrate old new max_score score_of s = (s', Ok (size A)) /\ rep_new s' v' /\
    members_of v affected_bags A /\
    (forall i, scores v' !! i = if decide (i ∈ A) then Some (score_of i) else scores v !! i) /\
    (forall i sc, scores v !! i = Some sc -> i ∉ A -> bag_new sc = bag_old sc).
Proof.
  intros Hrep Hgo Hgn Hne Hold Hmax Hdrop. unfold migrate. rewrite bool_decide_false by done.
  erewrite st_bind_ok by done. destruct (migrate_checks s v Hrep Hold) as [-> ->]. cbn [negb].
  destruct (affected_spec s v Hrep) as (A & HA & Hk). rewrite Hk. clear Hk.
  destruct (remove_many_refines old max_score (elements A) s v Hrep) as (s1 & Hs1 & Hrep1).
  unfold spec_remove_many in Hs1, Hrep1.
  destruct (remove_members (elements A) v 0) as [Hc1 Hsc1];
    [apply NoDup_elements|intros i Hi%elem_of_elements; by apply (affected_member s v A)|].
  destruct (foldl spec_remove_one (v, 0%nat) (elements A)) as [v1 c1]. simpl in Hs1, Hrep1, Hc1, Hsc1. subst c1.
  rewrite (st_bind_ok _ _ _ _ _ Hs1). change (length (elements A)) with (size A). rewrite Nat.eqb_refl. cbn [negb].
  assert (Hrep1' : rep_new s1 v1).
  { apply rep_thresholds; [done|]. intros i sc. rewrite Hsc1. destruct (decide (i ∈ elements A)) as [|Hna]; [done|].
    rewrite elem_of_elements in Hna. intros Hi. apply (unaffected_member s v A i); try done. by eapply Hmax. }
  destruct (insert_many_refines new max_score score_of (elements A) s1 v1 0 Hrep1') as (s2 & Hs2 & Hrep2).
  destruct (insert_members (elements A) score_of v1 0) as [Hc2 Hsc2]; [apply NoDup_elements| |].
  { intros i Hi. unfold is_member. rewrite Hsc1, decide_True by done. by apply bool_decide_eq_false, is_Some_None. }
  destruct (foldl (spec_insert_one new max_score score_of) (v1, 0%nat) (elements A)) as [v2 c2]. simpl in Hs2, Hrep2, Hc2, Hsc2.
  subst c2. unfold insert_many. rewrite (st_bind_ok _ _ _ _ _ Hs2). change (length (elements A)) with (size A).
  rewrite Nat.eqb_refl. cbn [negb].
  assert (Hdb : st_for (fun _ => drop_bag) tt (removed_bags old new) s2 = (s2, Ok tt)).
  { apply (drop_bags_spec s2 v2); [done|]. intros u [Hun Huo]%list_elem_of_filter [Hu| ->]%all_thresholds_elem; [done|].
    destruct Hdrop; done. }
  rewrite (st_bind_ok _ _ _ _ _ Hdb). exists s2, v2, A. do 3 (split; [done|]).
  split; [|intros i sc Hi; apply (unaffected_member s v A i); eauto].
  intros i. rewrite Hsc2, Hsc1. destruct (decide (i ∈ elements A)) as [Hi|Hi]; rewrite elem_of_elements in Hi.
  - by rewrite decide_True.
  - by rewrite decide_False.
Qed.
End migrate_spec.

(** ** A list with the thresholds 10, 20 and 30 *)
Module BagsListExamples.
Definition ts : list Z := [10; 20; 30].
Definition max : Z := 100.
Definition history : list (@call nat) :=
  [Insert 1%nat 5; Insert 2%nat 15; Insert 3%nat 12; Insert 4%nat 99; Rebag 1%nat 18; Remove 2%nat; Insert 5%nat 7].

Lemma good_ts : good_thresholds ts max.
Proof. unfold ts, max. split; repeat constructor; lia. Qed.

Lemma notional_bag_for_least_witness :
  notional_bag_for ts max 12 ∈ all_thresholds ts max /\ 12 <= notional_bag_for ts max 12 /\
  forall t, t ∈ all_thresholds ts max -> 12 <= t -> notional_bag_for ts max 12 <= t.
Proof. apply (notional_bag_for_least ts max 12); [apply good_ts|unfold max; lia]. Defined.

Lemma iter_visits_in_order_witness :
  NoDup (id <$> iter ts max (exec ts max history).1) /\
  id <$> iter ts max (exec ts max history).1 = [4; 3; 1; 5]%nat.
Proof. split; [apply (iter_visits_in_order ts max history good_ts)|by vm_compute]. Defined.

Lemma iter_from_continues_witness :
  exists before n rest, iter ts max (exec ts max history).1 = before ++ n :: rest /\ id n = 3%nat /\
    id <$> rest = [1; 5]%nat.
Proof.
  pose proof (iter_from_continues ts max history 3%nat good_ts) as H. cbn zeta in H.
  assert (exists rest, iter_from ts (exec ts max history).1 3%nat = Ok rest /\ id <$> rest = [1; 5]%nat)
    as (rest & Hr & Hi) by (eexists; split; by vm_compute).
  rewrite Hr in H. destruct H as (before & n & H1 & H2). exists before, n, rest. split; [exact H1|]. split; [exact H2|exact Hi].
Defined.

(** The thresholds 15 and 25 replace 20: accounts 1 and 3 are moved. *)
Definition ts' : list Z := [10; 15; 25; 30; max].
Definition old_ts : list Z := [10; 20; 30; max].

Lemma migrate_rebags_witness :
  exists s' v' (A : gset nat), migrate old_ts ts' max (fun _ => 14) (exec old_ts max history).1 = (s', Ok (size A)) /\
    rep ts' max s' v' /\ scores v' !! 4%nat = Some 99 /\ scores v' !! 3%nat = Some 14.
Proof.
  destruct (migrate_rebags old_ts ts' max (exec old_ts max history).1 (spec old_ts max history).1 (fun _ => 14))
    as (s' & v' & A & H1 & H2 & H3 & H4 & _).
  - apply (history_refines old_ts max history _ _ (empty_rep old_ts max)).
  - unfold old_ts, max. split; repeat constructor; lia.
  - unfold ts', max. split; repeat constructor; lia.
  - discriminate.
  - apply map_Forall_lookup. apply (bool_decide_unpack _). by vm_compute.
  - apply map_Forall_lookup. apply (bool_decide_unpack _). by vm_compute.
  - left. apply (bool_decide_unpack _). by vm_compute.
  - exists s', v', A. split; [done|]. split; [done|]. rewrite !H4. split.
    + destruct (decide (4%nat ∈ A)) as [Hi|]; [|by vm_compute].
      apply H3 in Hi as (u & l & Hu & Hl & Hi). exfalso. clear H1 H2 H4.
      revert u Hu l Hl Hi. change (set_Forall (fun u => forall l, content (spec old_ts max history).1 !! u = Some l ->
        4%nat ∈ l -> False) (affected_bags old_ts ts' max)).
      assert (affected_bags old_ts ts' max = {[20; 30]}) as -> by (by vm_compute).
      intros u Hu l Hl Hi. rewrite elem_of_union, !elem_of_singleton in Hu. destruct Hu as [-> | ->]; vm_compute in Hl; simplify_eq.
      apply (bool_decide_pack _) in Hi. vm_compute in Hi. done.
    + rewrite decide_True; [done|]. apply H3. exists 20, [3; 1]%nat.
      clear H1 H2 H4. split_and!; [|by vm_compute|constructor]. apply (bool_decide_unpack _). by vm_compute.
Defined.

(** [migrate] breaks its contract when the old thresholds name the maximal
    score and the new ones leave it out: the maximal bag is still in use, as the
    implicit last one, and yet it is among the bags to delete.  With an account
    in it the assertion before the deletion fails; without assertions the
    deletion drops the bag and its members are on no list. *)
Theorem migrate_drops_maximal_bag :
  migrate [10; max] [10] max (fun _ => 50) (exec [10; max] max [Insert 1%nat 50]).1 =
    ((exec [10] max [Insert 1%nat 50]).1, Panic) /\
  iter [10] max (exec [10] max [Insert 1%nat 50]).1 <> [] /\
  iter [10] max (mkStore (ListNodes (exec [10] max [Insert 1%nat 50]).1)
                         (delete max (ListBags (exec [10] max [Insert 1%nat 50]).1))) = [].
Proof. split_and!; [by vm_compute|by vm_compute|by vm_compute]. Qed.
End BagsListExamples.
