(* ===== verification/Weights.v ===== *)
(** * Weights: [sp-weights]

    The two-dimensional weights that bound the work of a block, their saturating,
    checked and panicking arithmetic ([weight_v2.rs]), the weight of database
    accesses ([RuntimeDbWeight] of [lib.rs]) and the meter that grants weight up
    to a limit ([weight_meter.rs]).  Both components of a weight are [u64]. *)
From stdpp Require Import base list.
From Stdlib Require Import ZArith Lia.
From S2P Require Import Prelude.
Set Warnings "-clear-no-such-hyp".

#[local] Open Scope Z_scope.

Definition u64_MAX : Z := 2 ^ 64 - 1.

Record Weight := from_parts { ref_time : Z; proof_size : Z }.

#[export] Instance Weight_eq_dec : EqDecision Weight.
Proof. solve_decision. Defined.

Module Weight.
Implicit Types (self other rhs limit : Weight) (scalar value : Z).

Definition set_ref_time self (c : Z) : Weight := from_parts c (proof_size self).
Definition set_proof_size self (c : Z) : Weight := from_parts (ref_time self) c.

Definition MAX : Weight := from_parts u64_MAX u64_MAX.
Definition zero : Weight := from_parts 0 0.
Definition is_zero self : bool := bool_decide (self = zero).
Definition from_all value : Weight := from_parts value value.

Definition min self other : Weight :=
  from_parts (Z.min (ref_time self) (ref_time other)) (Z.min (proof_size self) (proof_size other)).
Definition max self other : Weight :=
  from_parts (Z.max (ref_time self) (ref_time other)) (Z.max (proof_size self) (proof_size other)).

Definition saturating_add self rhs : Weight :=
  from_parts (saturating_add 64 (ref_time self) (ref_time rhs)) (saturating_add 64 (proof_size self) (proof_size rhs)).
Definition saturating_sub self rhs : Weight :=
  from_parts (saturating_sub (ref_time self) (ref_time rhs)) (saturating_sub (proof_size self) (proof_size rhs)).
Definition saturating_mul self scalar : Weight :=
  from_parts (saturating_mul 64 (ref_time self) scalar) (saturating_mul 64 (proof_size self) scalar).
(** [u64::saturating_div] is division: no quotient of unsigned integers overflows. *)
Definition saturating_div self scalar : res Empty_set Weight :=
  ref_time ← div_u (ref_time self) scalar;
  proof_size ← div_u (proof_size self) scalar;
  Ok (from_parts ref_time proof_size).
Definition saturating_pow self (exp : Z) : Weight :=
  from_parts (saturating_pow 64 (ref_time self) exp) (saturating_pow 64 (proof_size self) exp).
Definition saturating_accrue self (amount : Weight) : Weight := saturating_add self amount.
Definition saturating_reduce self (amount : Weight) : Weight := saturating_sub self amount.

Definition checked_add self rhs : option Weight :=
  ref_time ← checked_add 64 (ref_time self) (ref_time rhs);
  proof_size ← checked_add 64 (proof_size self) (proof_size rhs);
  Some (from_parts ref_time proof_size).
Definition checked_sub self rhs : option Weight :=
  ref_time ← checked_sub (ref_time self) (ref_time rhs);
  proof_size ← checked_sub (proof_size self) (proof_size rhs);
  Some (from_parts ref_time proof_size).
Definition checked_mul self scalar : option Weight :=
  ref_time ← checked_mul 64 (ref_time self) scalar;
  proof_size ← checked_mul 64 (proof_size self) scalar;
  Some (from_parts ref_time proof_size).
Definition checked_div self scalar : option Weight :=
  ref_time ← checked_div (ref_time self) scalar;
  proof_size ← checked_div (proof_size self) scalar;
  Some (from_parts ref_time proof_size).
(** Methods that update [self] and report success: the value is kept on [None]. *)
Definition checked_accrue self (amount : Weight) : Weight * option unit :=
  match checked_add self amount with Some new_self => (new_self, Some tt) | None => (self, None) end.
Definition checked_reduce self (amount : Weight) : Weight * option unit :=
  match checked_sub self amount with Some new_self => (new_self, Some tt) | None => (self, None) end.

Definition checked_div_per_component self other : option Z :=
  let ref_time' := Prelude.checked_div (ref_time self) (ref_time other) in
  let proof_size' := Prelude.checked_div (proof_size self) (proof_size other) in
  match ref_time', proof_size' with
  | None, None => None
  | _, _ =>
      let a := default u64_MAX ref_time' in
      let b := default u64_MAX proof_size' in
      Some (if a <? b then a else b)
  end.

Definition any_gt self other : bool := (ref_time other <? ref_time self) || (proof_size other <? proof_size self).
Definition all_gt self other : bool := (ref_time other <? ref_time self) && (proof_size other <? proof_size self).
Definition any_lt self other : bool := (ref_time self <? ref_time other) || (proof_size self <? proof_size other).
Definition all_lt self other : bool := (ref_time self <? ref_time other) && (proof_size self <? proof_size other).
Definition any_gte self other : bool := (ref_time other <=? ref_time self) || (proof_size other <=? proof_size self).
Definition all_gte self other : bool := (ref_time other <=? ref_time self) && (proof_size other <=? proof_size self).
Definition any_lte self other : bool := (ref_time self <=? ref_time other) || (proof_size self <=? proof_size other).
Definition all_lte self other : bool := (ref_time self <=? ref_time other) && (proof_size self <=? proof_size other).
Definition any_eq self other : bool := (ref_time self =? ref_time other) || (proof_size self =? proof_size other).

Definition try_add self other limit : option Weight :=
  total ← checked_add self other;
  if any_gt total limit then None else Some total.

(** The operators of the standard library, which panic on overflow; the
    assigning forms compute the same values. *)
Section operators.
Context {E : Type}.

Definition add self rhs : res E Weight :=
  ref_time ← add_u 64 (ref_time self) (ref_time rhs);
  proof_size ← add_u 64 (proof_size self) (proof_size rhs);
  Ok (from_parts ref_time proof_size).
Definition sub self rhs : res E Weight :=
  ref_time ← sub_u (ref_time self) (ref_time rhs);
  proof_size ← sub_u (proof_size self) (proof_size rhs);
  Ok (from_parts ref_time proof_size).
Definition mul self scalar : res E Weight :=
  ref_time ← mul_u 64 (ref_time self) scalar;
  proof_size ← mul_u 64 (proof_size self) scalar;
  Ok (from_parts ref_time proof_size).
Definition div self scalar : res E Weight :=
  ref_time ← div_u (ref_time self) scalar;
  proof_size ← div_u (proof_size self) scalar;
  Ok (from_parts ref_time proof_size).

(** The constant functions on one component. *)
Definition add_ref_time self scalar : res E Weight :=
  ref_time ← add_u 64 (ref_time self) scalar; Ok (from_parts ref_time (proof_size self)).
Definition add_proof_size self scalar : res E Weight :=
  proof_size ← add_u 64 (proof_size self) scalar; Ok (from_parts (ref_time self) proof_size).
Definition sub_ref_time self scalar : res E Weight :=
  ref_time ← sub_u (ref_time self) scalar; Ok (from_parts ref_time (proof_size self)).
Definition sub_proof_size self scalar : res E Weight :=
  proof_size ← sub_u (proof_size self) scalar; Ok (from_parts (ref_time self) proof_size).
End operators.
End Weight.

(** ** Database weights *)
Record RuntimeDbWeight := mkDbWeight { read : Z; write : Z }.

Module RuntimeDbWeight.
Implicit Types (self : RuntimeDbWeight).

Definition reads self (r : Z) : Weight := from_parts (saturating_mul 64 (read self) r) 0.
Definition writes self (w : Z) : Weight := from_parts (saturating_mul 64 (write self) w) 0.
Definition reads_writes self (r w : Z) : Weight :=
  let read_weight := saturating_mul 64 (read self) r in
  let write_weight := saturating_mul 64 (write self) w in
  from_parts (saturating_add 64 read_weight write_weight) 0.
End RuntimeDbWeight.

(** ** The weight meter *)
Record WeightMeter := mkMeter { consumed : Weight; limit : Weight }.

Module WeightMeter.
Implicit Types (self : WeightMeter) (w : Weight).

Definition with_limit (limit : Weight) : WeightMeter := mkMeter Weight.zero limit.
Definition new : WeightMeter := with_limit Weight.MAX.
Definition remaining self : Weight := Weight.saturating_sub (limit self) (consumed self).

(** The assertion is a [debug_assert!]: the weight is consumed in any case. *)
Definition consume self w : WeightMeter * res Empty_set unit :=
  let self := mkMeter (Weight.saturating_accrue (consumed self) w) (limit self) in
  (self, if Weight.all_lte (consumed self) (limit self) then Ok tt else Panic).

Definition try_consume self w : WeightMeter * res unit unit :=
  match Weight.checked_add (consumed self) w with
  | None => (self, Err tt)
  | Some test =>
      if Weight.any_gt test (limit self) then (self, Err tt)
      else (mkMeter test (limit self), Ok tt)
  end.

Definition can_consume self w : bool :=
  match Weight.checked_add (consumed self) w with
  | None => false
  | Some t => Weight.all_lte t (limit self)
  end.

Definition reclaim_proof_size self (s : Z) : WeightMeter :=
  mkMeter (Weight.saturating_reduce (consumed self) (from_parts 0 s)) (limit self).
End WeightMeter.

(** ** Arithmetic *)

Definition in_range (w : Weight) : Prop := in_u 64 (ref_time w) /\ in_u 64 (proof_size w).
Definition within (a b : Weight) : Prop := ref_time a <= ref_time b /\ proof_size a <= proof_size b.

#[export] Instance within_dec a b : Decision (within a b).
Proof. unfold within. apply _. Defined.

(** The exact sum, difference and multiple, which need not fit 64 bits. *)
Definition plus (a b : Weight) : Weight := from_parts (ref_time a + ref_time b) (proof_size a + proof_size b).
Definition minus (a b : Weight) : Weight := from_parts (ref_time a - ref_time b) (proof_size a - proof_size b).
Definition times (k : Z) (a : Weight) : Weight := from_parts (k * ref_time a) (k * proof_size a).

#[local] Ltac weigh :=
  unfold in_range, within, in_u, u64_MAX, plus, minus, times, Weight.zero in *;
  repeat match goal with w : Weight |- _ => destruct w end; simpl in *.

Lemma all_lte_spec a b : Weight.all_lte a b = bool_decide (within a b).
Proof. unfold Weight.all_lte. weigh. repeat case_cmp; case_bool_decide; simpl; first [done|lia]. Qed.

Lemma any_gt_spec a b : Weight.any_gt a b = negb (bool_decide (within a b)).
Proof. unfold Weight.any_gt. weigh. repeat case_cmp; case_bool_decide; simpl; first [done|lia]. Qed.

Lemma all_gte_spec a b : Weight.all_gte a b = bool_decide (within b a).
Proof. unfold Weight.all_gte. weigh. repeat case_cmp; case_bool_decide; simpl; first [done|lia]. Qed.

Lemma checked_add_spec a b :
  Weight.checked_add a b = if bool_decide (within (plus a b) Weight.MAX) then Some (plus a b) else None.
Proof.
  unfold Weight.checked_add, checked_add, Weight.MAX. weigh.
  repeat case_cmp; case_bool_decide; simpl; first [done|lia].
Qed.

Lemma checked_sub_spec a b :
  Weight.checked_sub a b = if bool_decide (within b a) then Some (minus a b) else None.
Proof.
  unfold Weight.checked_sub, checked_sub. weigh. repeat case_cmp; case_bool_decide; simpl; first [done|lia].
Qed.

Lemma checked_mul_spec a k :
  Weight.checked_mul a k = if bool_decide (within (times k a) Weight.MAX) then Some (times k a) else None.
Proof.
  unfold Weight.checked_mul, checked_mul, Weight.MAX. weigh. rewrite !(Z.mul_comm k).
  repeat case_cmp; case_bool_decide; simpl; first [done|lia].
Qed.

Lemma add_spec {E} a b :
  @Weight.add E a b = if bool_decide (within (plus a b) Weight.MAX) then Ok (plus a b) else Panic.
Proof.
  unfold Weight.add, add_u, checked_add, Weight.MAX. weigh. repeat case_cmp; case_bool_decide; simpl; first [done|lia].
Qed.

Lemma sub_spec {E} a b :
  @Weight.sub E a b = if bool_decide (within b a) then Ok (minus a b) else Panic.
Proof.
  unfold Weight.sub, sub_u, checked_sub. weigh. repeat case_cmp; case_bool_decide; simpl; first [done|lia].
Qed.

Lemma mul_spec {E} a k :
  @Weight.mul E a k = if bool_decide (within (times k a) Weight.MAX) then Ok (times k a) else Panic.
Proof.
  unfold Weight.mul, mul_u, checked_mul, Weight.MAX. weigh. rewrite !(Z.mul_comm k).
  repeat case_cmp; case_bool_decide; simpl; first [done|lia].
Qed.

(** The three flavours of an operation: where the exact value is a weight, they
    all compute it; elsewhere one says so, one panics and one clamps. *)
Definition flavours (exact : Weight) (checked : option Weight) (operator : res Empty_set Weight) (saturating : Weight) : Prop :=
  (in_range exact /\ checked = Some exact /\ operator = Ok exact /\ saturating = exact) \/
  (~ in_range exact /\ checked = None /\ operator = Panic /\
   saturating = Weight.max Weight.zero (Weight.min exact Weight.MAX)).

Lemma flavours_intro exact (fits : Prop) `{Decision fits} checked operator saturating :
  (in_range exact <-> fits) ->
  checked = (if bool_decide fits then Some exact else None) ->
  operator = (if bool_decide fits then Ok exact else Panic) ->
  saturating = Weight.max Weight.zero (Weight.min exact Weight.MAX) ->
  flavours exact checked operator saturating.
Proof.
  intros Hfits -> -> ->. case_bool_decide as Hd; [left|right]; split_and!; try done; try tauto.
  apply Hfits in Hd. unfold Weight.max, Weight.min, Weight.MAX. weigh. f_equal; lia.
Qed.

(** Addition, subtraction and multiplication of weights.  The checked, the
    panicking and the saturating form agree whenever the result fits both
    components; otherwise the checked form answers [None], the operator panics
    and the saturating form gives the nearest weight. *)
Theorem weight_arithmetic_agrees a b k :
  in_range a -> in_range b -> in_u 64 k ->
  flavours (plus a b) (Weight.checked_add a b) (Weight.add a b) (Weight.saturating_add a b) /\
  flavours (minus a b) (Weight.checked_sub a b) (Weight.sub a b) (Weight.saturating_sub a b) /\
  flavours (times k a) (Weight.checked_mul a k) (Weight.mul a k) (Weight.saturating_mul a k).
Proof.
  intros Ha Hb Hk. split_and!.
  - eapply flavours_intro; [|apply checked_add_spec|apply add_spec|]; unfold Weight.MAX; weigh; [lia|].
    cbv [Weight.saturating_add saturating_add Weight.max Weight.min]; simpl; f_equal; lia.
  - eapply flavours_intro; [|apply checked_sub_spec|apply sub_spec|]; weigh; [lia|].
    cbv [Weight.saturating_sub saturating_sub Weight.max Weight.min Weight.MAX u64_MAX]; simpl; f_equal; lia.
  - eapply flavours_intro; [|apply checked_mul_spec|apply mul_spec|]; unfold Weight.MAX; weigh; [nia|].
    cbv [Weight.saturating_mul saturating_mul Weight.max Weight.min]; simpl; f_equal; nia.
Qed.

Lemma div_largest x y j :
  0 <= x < 2 ^ 64 -> 0 <= y -> 0 <= j <= u64_MAX ->
  j * y <= x <-> j <= default u64_MAX (checked_div x y).
Proof.
  intros Hx Hy Hj. unfold checked_div. destruct (Z.eqb_spec y 0) as [->|Hne]; simpl; [lia|].
  rewrite Z.mul_comm. split; [intros; apply Z.div_le_lower_bound; lia|].
  intros Hle. pose proof (Z.mul_div_le x y). nia.
Qed.

(** [checked_div_per_component] counts how many [other] fit into [self]: it
    is the largest [u64] whose multiple of [other] is within [self], and [None]
    exactly for the zero weight, which fits without bound. *)
Theorem div_per_component_counts self other :
  in_range self -> in_range other ->
  match Weight.checked_div_per_component self other with
  | Some k => 0 <= k <= u64_MAX /\ forall j, 0 <= j <= u64_MAX -> within (times j other) self <-> j <= k
  | None => other = Weight.zero
  end.
Proof.
  intros [Hs1 Hs2] [Ho1 Ho2]. unfold Weight.checked_div_per_component, in_u in *.
  destruct (decide (ref_time other = 0 /\ proof_size other = 0)) as [[H1 H2]|Hnz].
  { unfold checked_div. rewrite H1, H2. simpl. destruct other. simpl in *. by subst. }
  set (x := checked_div (ref_time self) (ref_time other)). set (y := checked_div (proof_size self) (proof_size other)).
  set (k := if default u64_MAX x <? default u64_MAX y then default u64_MAX x else default u64_MAX y).
  assert (Hsome : (match x, y with None, None => None | _, _ => Some k end) = Some k).
  { subst x y. unfold checked_div in *. repeat case_cmp; try done. tauto. }
  rewrite Hsome.
  assert (Hk : k = Z.min (default u64_MAX x) (default u64_MAX y)) by (subst k; case_cmp; lia).
  assert (Hiff : forall j, 0 <= j <= u64_MAX -> within (times j other) self <-> j <= k).
  { intros j Hj. pose proof (div_largest (ref_time self) (ref_time other) j Hs1).
    pose proof (div_largest (proof_size self) (proof_size other) j Hs2). rewrite Hk. unfold within, times. simpl. subst x y. lia. }
  split; [split|done].
  - destruct (Hiff 0) as [Hpos _]; [unfold u64_MAX; lia|]. apply Hpos. unfold within, times. simpl. lia.
  - rewrite Hk. assert (forall a b, 0 <= a < 2 ^ 64 -> 0 <= b -> default u64_MAX (checked_div a b) <= u64_MAX) as Hd.
    { intros a b Ha Hb. unfold checked_div. case_cmp; simpl; [done|]. unfold u64_MAX.
      pose proof (Z.div_le_upper_bound a b (2 ^ 64 - 1)). nia. }
    specialize (Hd (ref_time self) (ref_time other) Hs1). subst x. lia.
Qed.

(** ** The meter grants what fits *)
Inductive meter_call := TryConsume (w : Weight) | Consume (w : Weight) | ReclaimProofSize (s : Z).

Definition call_in_range (c : meter_call) : Prop :=
  match c with TryConsume w | Consume w => in_range w | ReclaimProofSize s => in_u 64 s end.

(** A call, with the answer whether the weight was granted. *)
Definition meter_step (m : WeightMeter) (c : meter_call) : WeightMeter * bool :=
  match c with
  | TryConsume w => let '(m', r) := WeightMeter.try_consume m w in (m', if r is Ok _ then true else false)
  | Consume w => let '(m', r) := WeightMeter.consume m w in (m', if r is Ok _ then true else false)
  | ReclaimProofSize s => (WeightMeter.reclaim_proof_size m s, true)
  end.

(** The specification keeps the exact consumption, but for [consume], which
    saturates: under a limit of [u64::MAX] it grants more than fits. *)
Definition meter_spec (lim c : Weight) (call : meter_call) : Weight * bool :=
  match call with
  | TryConsume w => if bool_decide (within (plus c w) lim) then (plus c w, true) else (c, false)
  | Consume w => let c' := Weight.min (plus c w) Weight.MAX in (c', bool_decide (within c' lim))
  | ReclaimProofSize s => (from_parts (ref_time c) (Z.max 0 (proof_size c - s)), true)
  end.

(** The history of calls, up to a failed assertion of [consume]. *)
Fixpoint meter_run {M} (step : M -> meter_call -> M * bool) (m : M) (cs : list meter_call) : M * list bool :=
  match cs with
  | [] => (m, [])
  | c :: cs' =>
      let '(m1, ok) := step m c in
      if ok || (if c is TryConsume _ then true else false) then
        let '(m2, oks) := meter_run step m1 cs' in (m2, ok :: oks)
      else (m, [ok])
  end.

Lemma meter_step_spec m c :
  in_range (limit m) -> in_range (consumed m) -> within (consumed m) (limit m) -> call_in_range c ->
  let '(m', ok) := meter_step m c in
  let '(c', ok') := meter_spec (limit m) (consumed m) c in
  ok = ok' /\ limit m' = limit m /\
  (ok || (if c is TryConsume _ then true else false) = true ->
   consumed m' = c' /\ in_range (consumed m') /\ within (consumed m') (limit m)).
Proof.
  intros Hl Hc Hw Hcall. destruct m as [co li], c as [w|w|s]; simpl in *.
  - unfold WeightMeter.try_consume. simpl. rewrite checked_add_spec. case_bool_decide as Hfit.
    + rewrite any_gt_spec. case_bool_decide as Hli; simpl; [|done].
      unfold Weight.MAX in *. split_and!; [done..|]. intros _. split_and!; [done| |done]. clear Hfit. weigh. lia.
    + rewrite bool_decide_false; [done|]. unfold Weight.MAX in *. weigh. lia.
  - rewrite all_lte_spec. unfold Weight.saturating_accrue, Weight.saturating_add, saturating_add.
    change (from_parts _ _) with (Weight.min (plus co w) Weight.MAX). split_and!; [by case_bool_decide|done|].
    rewrite orb_false_r. case_bool_decide as Hfit; [|done]. intros _. split_and!; [done| |done].
    unfold Weight.min, Weight.MAX in *. weigh. lia.
  - unfold WeightMeter.reclaim_proof_size, Weight.saturating_reduce, Weight.saturating_sub, saturating_sub. weigh.
    split_and!; [done..|]. intros _. split_and!; [f_equal|..]; lia.
Qed.

(** for every history of calls on a meter, the meter answers and records
    exactly what the specification with unbounded integers does: [try_consume]
    grants weight if and only if it fits the limit together with what is consumed,
    [can_consume] predicts it, the consumption never exceeds the limit, and what
    remains is the exact difference. *)
Theorem meter_grants_what_fits lim cs w :
  in_range lim -> Forall call_in_range cs ->
  let '(m, answers) := meter_run meter_step (WeightMeter.with_limit lim) cs in
  let '(c, expected) := meter_run (meter_spec lim) Weight.zero cs in
  answers = expected /\ consumed m = c /\ within c lim /\ WeightMeter.remaining m = minus lim c /\
  WeightMeter.can_consume m w = bool_decide (within (plus c w) lim).
Proof.
  intros Hlim Hcs.
  assert (Hgen : forall m, limit m = lim -> in_range (consumed m) -> within (consumed m) lim ->
    let '(m', answers) := meter_run meter_step m cs in
    let '(c, expected) := meter_run (meter_spec lim) (consumed m) cs in
    answers = expected /\ consumed m' = c /\ limit m' = lim /\ in_range c /\ within c lim).
  { induction Hcs as [|c cs Hc _ IH]; intros m Hl Hr Hw; simpl; [done|].
    pose proof (meter_step_spec m c) as Hstep. rewrite Hl in Hstep. specialize (Hstep Hlim Hr Hw Hc).
    destruct (meter_step m c) as [m1 ok], (meter_spec lim (consumed m) c) as [c1 ok'].
    destruct Hstep as (<- & Hl1 & Hgo). destruct (ok || _); [|done]. destruct (Hgo eq_refl) as (<- & Hr1 & Hw1).
    specialize (IH m1 Hl1 Hr1 Hw1). destruct (meter_run meter_step m1 cs), (meter_run (meter_spec lim) (consumed m1) cs).
    destruct IH as (-> & ?). done. }
  specialize (Hgen (WeightMeter.with_limit lim) eq_refl). unfold WeightMeter.with_limit in *. simpl in Hgen.
  destruct (meter_run meter_step _ cs) as [m answers], (meter_run (meter_spec lim) Weight.zero cs) as [c expected].
  destruct Hgen as (-> & <- & <- & Hr & Hw); [clear; weigh; lia|revert Hlim; clear; weigh; lia|].
  split_and!; [done..| |].
  - unfold WeightMeter.remaining, Weight.saturating_sub, saturating_sub. destruct m. weigh. f_equal; lia.
  - unfold WeightMeter.can_consume. rewrite checked_add_spec. case_bool_decide as Hfit; [apply all_lte_spec|].
    rewrite bool_decide_false; [done|]. destruct m. unfold Weight.MAX in *. weigh. lia.
Qed.

Module WeightExamples.
Definition calls : list meter_call :=
  [TryConsume (from_parts 5 0); TryConsume (from_parts 6 1); Consume (from_parts 2 10); ReclaimProofSize 4;
   TryConsume (from_parts 3 14)].

Lemma weight_arithmetic_agrees_witness :
  flavours (minus (from_parts 3 5) (from_parts 4 1)) None Panic (from_parts 0 4).
Proof.
  refine (proj1 (proj2 (weight_arithmetic_agrees (from_parts 3 5) (from_parts 4 1) 7 _ _ _))); by vm_compute.
Defined.

Lemma div_per_component_counts_witness :
  within (times 3 (from_parts 3 0)) (from_parts 10 5) /\ ~ within (times 4 (from_parts 3 0)) (from_parts 10 5).
Proof.
  destruct (div_per_component_counts (from_parts 10 5) (from_parts 3 0)) as [_ H]; [by vm_compute..|].
  change (Weight.checked_div_per_component (from_parts 10 5) (from_parts 3 0)) with (Some 3) in H.
  split; [apply H|intros Hw; apply H in Hw]; by vm_compute.
Defined.

Lemma meter_grants_what_fits_witness :
  let '(m, answers) := meter_run meter_step (WeightMeter.with_limit (from_parts 10 20)) calls in
  answers = [true; false; true; true; true] /\ WeightMeter.remaining m = from_parts 0 0.
Proof.
  pose proof (meter_grants_what_fits (from_parts 10 20) calls (from_parts 0 1)) as H.
  assert (meter_run (meter_spec (from_parts 10 20)) Weight.zero calls = (from_parts 10 20, [true; false; true; true; true]))
    as Hs by (by vm_compute).
  rewrite Hs in H. destruct (meter_run meter_step (WeightMeter.with_limit (from_parts 10 20)) calls).
  destruct H as (-> & _ & _ & -> & _); [by vm_compute|by repeat constructor|by vm_compute].
Defined.
End WeightExamples.
