(* ===== verification/MessageLanes.v ===== *)
(** * Message lanes of a bridge: [bp-messages] and the lanes of
      [pallet-bridge-messages]

    A lane carries messages with consecutive nonces from one chain to another.
    The outbound lane of the source chain ([outbound_lane.rs]) numbers and stores
    the messages until their delivery is confirmed; the inbound lane of the target
    chain ([inbound_lane.rs]) accepts each nonce once, in order, and remembers
    which relayer delivered it until the source chain has confirmed and rewarded
    the delivery.

    The lanes are written against the traits [InboundLaneStorage] and
    [OutboundLaneStorage]; the classes of these names state what an
    implementation promises, and the lemmas here are proved from it.  Nonces are
    [u64].  Logging is left out. *)
From stdpp Require Import base gmap list.
From Stdlib Require Import ZArith Lia.
From S2P Require Import Prelude Weights.
Set Warnings "-clear-no-such-hyp".

#[local] Open Scope Z_scope.

(** The four bytes of a lane id, as a number. *)
Abbreviation LaneId := Z (only parsing).
Abbreviation MessageNonce := Z (only parsing).
Abbreviation MessagePayload := (list Z) (only parsing).

Record MessageKey := mkKey { lane_id : LaneId; nonce : MessageNonce }.
Record Message := mkMessage { key : MessageKey; payload : MessagePayload }.

(** ** Ranges of nonces *)
Definition checked_len (start stop : Z) : option Z := len ← checked_sub stop start; checked_add 64 len 1.
Definition saturating_len (start stop : Z) : Z :=
  match checked_sub stop start with Some len => saturating_add 64 len 1 | None => 0 end.

Record DeliveredMessages := mkDelivered { begin : MessageNonce; end_ : MessageNonce }.

#[export] Instance DeliveredMessages_eq_dec : EqDecision DeliveredMessages.
Proof. solve_decision. Defined.

Module DeliveredMessages.
Definition new (n : MessageNonce) : DeliveredMessages := mkDelivered n n.
Definition total_messages (self : DeliveredMessages) : MessageNonce := saturating_len (begin self) (end_ self).
Definition note_dispatched_message {E} (self : DeliveredMessages) : res E DeliveredMessages :=
  e ← add_u 64 (end_ self) 1; Ok (mkDelivered (begin self) e).
Definition contains_message (self : DeliveredMessages) (n : MessageNonce) : bool :=
  (begin self <=? n) && (n <=? end_ self).
End DeliveredMessages.

Record UnrewardedRelayer (RelayerId : Type) := mkUnrewarded { relayer : RelayerId; messages : DeliveredMessages }.
Arguments mkUnrewarded {RelayerId} relayer messages.
Arguments relayer {RelayerId} u.
Arguments messages {RelayerId} u.

(** ** Lane data *)
Record InboundLaneData (RelayerId : Type) := mkInbound {
  relayers : list (UnrewardedRelayer RelayerId);
  last_confirmed_nonce : MessageNonce;
}.
Arguments mkInbound {RelayerId} relayers last_confirmed_nonce.
Arguments relayers {RelayerId} i.
Arguments last_confirmed_nonce {RelayerId} i.

Record OutboundLaneData := mkOutbound {
  oldest_unpruned_nonce : MessageNonce;
  latest_received_nonce : MessageNonce;
  latest_generated_nonce : MessageNonce;
}.

Module InboundLaneData.
Definition default {RelayerId} : InboundLaneData RelayerId := mkInbound [] 0.

(** [entry_len] is the encoded length of an entry; 8 that of a nonce; [usize] has
    [usize_bits] bits. *)
Definition encoded_size_hint (usize_bits entry_len relayers_entries : Z) : option Z :=
  len ← checked_mul usize_bits relayers_entries entry_len;
  checked_add usize_bits len 8.

Definition last_delivered_nonce {RelayerId} (self : InboundLaneData RelayerId) : MessageNonce :=
  option.default (last_confirmed_nonce self) ((fun entry => end_ (messages entry)) <$> last (relayers self)).

Definition total_unrewarded_messages {RelayerId} (self : InboundLaneData RelayerId) : MessageNonce :=
  match head (relayers self), last (relayers self) with
  | Some front, Some back => saturating_len (begin (messages front)) (end_ (messages back))
  | _, _ => 0
  end.
End InboundLaneData.

Module OutboundLaneData.
Definition default : OutboundLaneData := mkOutbound 1 0 0.

(** The bounds of the inclusive range. *)
Definition queued_messages {E} (self : OutboundLaneData) : res E (Z * Z) :=
  start ← add_u 64 (latest_received_nonce self) 1; Ok (start, latest_generated_nonce self).
End OutboundLaneData.

Record UnrewardedRelayersState := mkRelayersState {
  unrewarded_relayer_entries : MessageNonce;
  messages_in_oldest_entry : MessageNonce;
  total_messages : MessageNonce;
  state_last_delivered_nonce : MessageNonce;
}.

#[export] Instance UnrewardedRelayersState_eq_dec : EqDecision UnrewardedRelayersState.
Proof. solve_decision. Defined.

Module UnrewardedRelayersState.
Definition from {RelayerId} (lane : InboundLaneData RelayerId) : UnrewardedRelayersState :=
  mkRelayersState (Z.of_nat (length (relayers lane)))
    (default 0 ((fun entry => DeliveredMessages.total_messages (messages entry)) <$> head (relayers lane)))
    (InboundLaneData.total_unrewarded_messages lane) (InboundLaneData.last_delivered_nonce lane).

Definition is_valid {RelayerId} (self : UnrewardedRelayersState) (lane_data : InboundLaneData RelayerId) : bool :=
  bool_decide (self = from lane_data).
End UnrewardedRelayersState.

(** ** Dispatch of a message *)
Record DispatchMessage (DispatchPayload : Type) := mkDispatch {
  dispatch_key : MessageKey;
  data : option DispatchPayload;  (* [None] where the payload does not decode *)
}.
Arguments mkDispatch {DispatchPayload} dispatch_key data.
Arguments dispatch_key {DispatchPayload} d.
Arguments data {DispatchPayload} d.

Record MessageDispatchResult (DispatchLevelResult : Type) := mkResult {
  unspent_weight : Weight;
  dispatch_level_result : DispatchLevelResult;
}.
Arguments mkResult {DispatchLevelResult} unspent_weight dispatch_level_result.
Arguments unspent_weight {DispatchLevelResult} m.

Inductive ReceptionResult (DispatchLevelResult : Type) :=
| Dispatched (result : MessageDispatchResult DispatchLevelResult)
| InvalidNonce
| TooManyUnrewardedRelayers
| TooManyUnconfirmedMessages.
Arguments Dispatched {_} result.
Arguments InvalidNonce {_}.
Arguments TooManyUnrewardedRelayers {_}.
Arguments TooManyUnconfirmedMessages {_}.

(** ** The inbound lane *)

(** [get_or_init_data] takes [&mut self]: an implementation may cache. *)
Class InboundLaneStorage (S Relayer : Type) := {
  storage_id : S -> LaneId;
  max_unrewarded_relayer_entries : MessageNonce;
  max_unconfirmed_messages : MessageNonce;
  get_or_init_data : S -> S * InboundLaneData Relayer;
  set_data : InboundLaneData Relayer -> S -> S;
}.

(** What the lane relies on: the data read is the data last written. *)
Class InboundLaneStorageLaws (S Relayer : Type) `{InboundLaneStorage S Relayer} := {
  stored : S -> InboundLaneData Relayer;
  get_or_init_data_stored s : (get_or_init_data s).2 = stored s;
  stored_get_or_init_data s : stored (get_or_init_data s).1 = stored s;
  stored_set_data d s : stored (set_data d s) = d;
}.

Module InboundLane.
Section inbound_lane.
Context {S Relayer DispatchPayload DispatchLevelResult E : Type} `{EqDecision Relayer} `{InboundLaneStorage S Relayer}.
Abbreviation Op := (ST S E).

(** The two loops of [receive_state_update]: entries that are confirmed are
    dropped, and one that is confirmed in part is cut. *)
Fixpoint drop_confirmed (new_confirmed_nonce : MessageNonce) (l : list (UnrewardedRelayer Relayer)) :
    list (UnrewardedRelayer Relayer) :=
  match l with
  | entry :: l' => if end_ (messages entry) <=? new_confirmed_nonce then drop_confirmed new_confirmed_nonce l' else l
  | [] => []
  end.

Definition cut_confirmed (new_confirmed_nonce : MessageNonce) (l : list (UnrewardedRelayer Relayer)) :
    res E (list (UnrewardedRelayer Relayer)) :=
  match l with
  | entry :: l' =>
      if begin (messages entry) <=? new_confirmed_nonce then
        b ← add_u 64 new_confirmed_nonce 1;
        Ok (mkUnrewarded (relayer entry) (mkDelivered b (end_ (messages entry))) :: l')
      else Ok l
  | [] => Ok []
  end.

Definition get_data : Op (InboundLaneData Relayer) := fun s => let '(s', d) := get_or_init_data s in (s', Ok d).

Definition receive_state_update (outbound_lane_data : OutboundLaneData) : Op (option MessageNonce) :=
  data ← get_data;
  if InboundLaneData.last_delivered_nonce data <? latest_received_nonce outbound_lane_data then mret None
  else if latest_received_nonce outbound_lane_data <=? last_confirmed_nonce data then mret None
  else
    let new_confirmed_nonce := latest_received_nonce outbound_lane_data in
    relayers ← st_lift (cut_confirmed new_confirmed_nonce (drop_confirmed new_confirmed_nonce (relayers data)));
    _ ← st_modify (set_data (mkInbound relayers new_confirmed_nonce));
    mret (Some (latest_received_nonce outbound_lane_data)).

(** [dispatch] is [Dispatch::dispatch], which may change the state of the chain. *)
Context (dispatch : DispatchMessage DispatchPayload -> S -> S * MessageDispatchResult DispatchLevelResult).

(** The entry of the relayer who delivered the message. *)
Definition note_delivery (l : list (UnrewardedRelayer Relayer)) (relayer_at_bridged_chain : Relayer) (n : MessageNonce) :
    res E (list (UnrewardedRelayer Relayer)) :=
  match last l with
  | Some entry =>
      if bool_decide (relayer entry = relayer_at_bridged_chain) then
        m ← DeliveredMessages.note_dispatched_message (messages entry);
        Ok (removelast l ++ [mkUnrewarded (relayer entry) m])
      else Ok (l ++ [mkUnrewarded relayer_at_bridged_chain (DeliveredMessages.new n)])
  | None => Ok (l ++ [mkUnrewarded relayer_at_bridged_chain (DeliveredMessages.new n)])
  end.

Definition receive_message (relayer_at_bridged_chain : Relayer) (n : MessageNonce) (message_data : option DispatchPayload) :
    Op (ReceptionResult DispatchLevelResult) :=
  data ← get_data;
  if negb (bool_decide (Some n = checked_add 64 (InboundLaneData.last_delivered_nonce data) 1)) then mret InvalidNonce
  else if max_unrewarded_relayer_entries <=? Z.of_nat (length (relayers data)) then mret TooManyUnrewardedRelayers
  else
    let unconfirmed_messages_count := saturating_sub n (last_confirmed_nonce data) in
    if max_unconfirmed_messages <? unconfirmed_messages_count then mret TooManyUnconfirmedMessages
    else
      dispatch_result ← (fun s => let '(s', r) := dispatch (mkDispatch (mkKey (storage_id s) n) message_data) s in (s', Ok r));
      relayers ← st_lift (note_delivery (relayers data) relayer_at_bridged_chain n);
      _ ← st_modify (set_data (mkInbound relayers (last_confirmed_nonce data)));
      mret (Dispatched dispatch_result).
End inbound_lane.
End InboundLane.

(** ** The outbound lane *)
Inductive ReceptionConfirmationError :=
| FailedToConfirmFutureMessages
| EmptyUnrewardedRelayerEntry
| NonConsecutiveUnrewardedRelayerEntries
| TryingToConfirmMoreMessagesThanExpected.

Class OutboundLaneStorage (S StoredMessagePayload : Type) := {
  outbound_data : S -> OutboundLaneData;
  set_outbound_data : OutboundLaneData -> S -> S;
  message : S -> MessageNonce -> option StoredMessagePayload;
  save_message : MessageNonce -> StoredMessagePayload -> S -> S;
  remove_message : MessageNonce -> S -> S;
}.

Class OutboundLaneStorageLaws (S P : Type) `{OutboundLaneStorage S P} := {
  data_set_data d s : outbound_data (set_outbound_data d s) = d;
  data_save_message n p s : outbound_data (save_message n p s) = outbound_data s;
  data_remove_message n s : outbound_data (remove_message n s) = outbound_data s;
  message_set_data d s n : message (set_outbound_data d s) n = message s n;
  message_save_message n p s n' : message (save_message n p s) n' = if decide (n = n') then Some p else message s n';
  message_remove_message n s n' : message (remove_message n s) n' = if decide (n = n') then None else message s n';
}.

Module OutboundLane.
(** The loop over the entries: [expected_entry_begin] is [None] past [u64::MAX]. *)
Fixpoint check_entries {RelayerId} (latest_received : MessageNonce) (expected_entry_begin : option MessageNonce)
    (l : list (UnrewardedRelayer RelayerId)) : res ReceptionConfirmationError unit :=
  match l with
  | [] => Ok tt
  | entry :: l' =>
      if end_ (messages entry) <? begin (messages entry) then Err EmptyUnrewardedRelayerEntry
      else if negb (bool_decide (expected_entry_begin = Some (begin (messages entry)))) then
        Err NonConsecutiveUnrewardedRelayerEntries
      else if latest_received <? end_ (messages entry) then Err FailedToConfirmFutureMessages
      else check_entries latest_received (checked_add 64 (end_ (messages entry)) 1) l'
  end.

Definition ensure_unrewarded_relayers_are_correct {RelayerId} (latest_received : MessageNonce)
    (l : list (UnrewardedRelayer RelayerId)) : res ReceptionConfirmationError unit :=
  check_entries latest_received ((fun entry => begin (messages entry)) <$> head l) l.

Section outbound_lane.
Context {S P : Type} `{OutboundLaneStorage S P}.

Definition send_message {E} (message_payload : P) : ST S E MessageNonce :=
  s ← st_get;
  let data := outbound_data s in
  n ← st_lift (add_u 64 (latest_generated_nonce data) 1);
  _ ← st_modify (save_message n message_payload);
  _ ← st_modify (set_outbound_data (mkOutbound (oldest_unpruned_nonce data) (latest_received_nonce data) n));
  mret n.

Definition confirm_delivery {RelayerId} (max_allowed_messages latest_delivered_nonce : MessageNonce)
    (relayers : list (UnrewardedRelayer RelayerId)) : ST S ReceptionConfirmationError (option DeliveredMessages) :=
  s ← st_get;
  let data := outbound_data s in
  let confirmed_messages := mkDelivered (saturating_add 64 (latest_received_nonce data) 1) latest_delivered_nonce in
  if DeliveredMessages.total_messages confirmed_messages =? 0 then mret None
  else if latest_generated_nonce data <? end_ confirmed_messages then st_lift (Err FailedToConfirmFutureMessages)
  else if max_allowed_messages <? DeliveredMessages.total_messages confirmed_messages then
    st_lift (Err TryingToConfirmMoreMessagesThanExpected)
  else
    _ ← st_lift (ensure_unrewarded_relayers_are_correct (end_ confirmed_messages) relayers);
    _ ← st_modify (set_outbound_data
          (mkOutbound (oldest_unpruned_nonce data) (end_ confirmed_messages) (latest_generated_nonce data)));
    mret (Some confirmed_messages).

(** The loop of [prune_messages]: the lane data and the weight are local until the
    end.  The fuel is the number of nonces that may be pruned. *)
Fixpoint prune_loop {E} (fuel : nat) (write_weight two_writes_weight : Weight) (oldest latest : MessageNonce)
    (spent remaining : Weight) : ST S E (MessageNonce * Weight) :=
  match fuel with
  | O => mret (oldest, spent)
  | Datatypes.S fuel' =>
      if Weight.all_gte remaining two_writes_weight && (oldest <=? latest) then
        _ ← st_modify (remove_message oldest);
        spent ← st_lift (Weight.add spent write_weight);
        remaining ← st_lift (Weight.sub remaining write_weight);
        oldest ← st_lift (add_u 64 oldest 1);
        prune_loop fuel' write_weight two_writes_weight oldest latest spent remaining
      else mret (oldest, spent)
  end.

Definition prune_messages {E} (db_weight : RuntimeDbWeight) (remaining_weight : Weight) : ST S E Weight :=
  let write_weight := RuntimeDbWeight.writes db_weight 1 in
  two_writes_weight ← st_lift (Weight.add write_weight write_weight);
  s ← st_get;
  let data := outbound_data s in
  '(oldest, spent_weight) ←
    prune_loop (Z.to_nat (latest_received_nonce data - oldest_unpruned_nonce data + 1)) write_weight two_writes_weight
      (oldest_unpruned_nonce data) (latest_received_nonce data) Weight.zero remaining_weight;
  if negb (Weight.is_zero spent_weight) then
    spent_weight ← st_lift (Weight.add spent_weight write_weight);
    _ ← st_modify (set_outbound_data (mkOutbound oldest (latest_received_nonce data) (latest_generated_nonce data)));
    mret spent_weight
  else mret spent_weight.
End outbound_lane.
End OutboundLane.

(** ** Rewards *)
Definition reward_entry {AccountId E} `{Countable AccountId} (received : Z * Z) (rewards : gmap AccountId MessageNonce)
    (entry : UnrewardedRelayer AccountId) : res E (gmap AccountId MessageNonce) :=
  let nonce_begin := Z.max (begin (messages entry)) received.1 in
  let nonce_end := Z.min (end_ (messages entry)) received.2 in
  if nonce_begin <=? nonce_end then
    len ← sub_u nonce_end nonce_begin;
    n ← add_u 64 len 1;
    r ← add_u 64 (default 0 (rewards !! relayer entry)) n;
    Ok (<[relayer entry := r]> rewards)
  else Ok rewards.

Definition calc_relayers_rewards {AccountId E} `{Countable AccountId} (messages_relayers : list (UnrewardedRelayer AccountId))
    (received_range : Z * Z) : res E (gmap AccountId MessageNonce) :=
  for_each (reward_entry received_range) messages_relayers ∅.

(** ** Unrewarded entries cover the unconfirmed nonces *)
Section covers.
Context {R : Type}.
Implicit Types (l : list (UnrewardedRelayer R)) (e : UnrewardedRelayer R) (d : InboundLaneData R).

(** Non-empty ranges, one after the other, from the nonce after [from]. *)
Fixpoint covers (from : Z) l : Prop :=
  match l with
  | [] => True
  | e :: l' => begin (messages e) = from + 1 /\ from < end_ (messages e) /\ covers (end_ (messages e)) l'
  end.

Definition upto (from : Z) l : Z := default from ((fun e => end_ (messages e)) <$> last l).

Lemma upto_cons from e l : upto from (e :: l) = upto (end_ (messages e)) l.
Proof. unfold upto. rewrite last_cons. by destruct (last l). Qed.

Lemma upto_app from l1 l2 : upto from (l1 ++ l2) = upto (upto from l1) l2.
Proof. unfold upto. rewrite last_app. by destruct (last l2), (last l1). Qed.

Lemma covers_app from l1 l2 : covers from (l1 ++ l2) <-> covers from l1 /\ covers (upto from l1) l2.
Proof.
  revert from. induction l1 as [|e l1 IH]; intros from; [by unfold upto; simpl; tauto|].
  rewrite upto_cons. simpl. rewrite IH. tauto.
Qed.

Lemma covers_length from l : covers from l -> from + Z.of_nat (length l) <= upto from l.
Proof.
  revert from. induction l as [|e l IH]; intros from; [unfold upto; simpl; lia|]. rewrite upto_cons. simpl.
  intros (_ & ? & Hl%IH). lia.
Qed.

Lemma covers_nil from l : covers from l -> upto from l = from -> l = [].
Proof. intros Hc%covers_length Hu. destruct l; [done|]. simpl in *. lia. Qed.

Lemma covers_begin from e l : covers from (e :: l) -> begin (messages e) = from + 1.
Proof. by intros [? _]. Qed.

(** Who delivered a message. *)
Fixpoint deliverer l (n : Z) : option R :=
  match l with
  | [] => None
  | e :: l' => if DeliveredMessages.contains_message (messages e) n then Some (relayer e) else deliverer l' n
  end.

Lemma contains_spec m n : DeliveredMessages.contains_message m n = bool_decide (begin m <= n <= end_ m).
Proof. unfold DeliveredMessages.contains_message. repeat case_cmp; case_bool_decide; simpl; first [done|lia]. Qed.

Lemma deliverer_none from l n : covers from l -> n <= from \/ upto from l < n -> deliverer l n = None.
Proof.
  revert from. induction l as [|e l IH]; intros from; [done|]. rewrite upto_cons. intros (Hb & He & Hl) Hn. simpl.
  pose proof (covers_length _ _ Hl). rewrite contains_spec, bool_decide_false by lia. apply (IH _ Hl). lia.
Qed.

Lemma deliverer_app from l1 l2 n :
  covers from (l1 ++ l2) -> deliverer (l1 ++ l2) n = if n <=? upto from l1 then deliverer l1 n else deliverer l2 n.
Proof.
  revert from. induction l1 as [|e l1 IH]; intros from; simpl.
  - intros Hl. unfold upto. simpl. case_cmp; [|done]. apply (deliverer_none from); [done|by left].
  - rewrite upto_cons. intros (Hb & He & Hl). rewrite (IH _ Hl), contains_spec.
    apply covers_app in Hl as [H1%covers_length _]. case_cmp; [done|]. by rewrite bool_decide_false by lia.
Qed.

Definition lane_ok d : Prop :=
  covers (last_confirmed_nonce d) (relayers d) /\ 0 <= last_confirmed_nonce d /\
  InboundLaneData.last_delivered_nonce d <= u64_MAX.

Lemma last_delivered_upto d : InboundLaneData.last_delivered_nonce d = upto (last_confirmed_nonce d) (relayers d).
Proof. done. Qed.

Lemma lane_ok_default : lane_ok InboundLaneData.default.
Proof. by repeat split. Qed.

Lemma lane_ok_order d : lane_ok d -> last_confirmed_nonce d <= InboundLaneData.last_delivered_nonce d.
Proof. intros (Hc%covers_length & _). rewrite last_delivered_upto. lia. Qed.

Lemma total_unrewarded d :
  lane_ok d ->
  InboundLaneData.total_unrewarded_messages d = InboundLaneData.last_delivered_nonce d - last_confirmed_nonce d.
Proof.
  intros (Hc & H0 & Hm). rewrite last_delivered_upto in *. unfold InboundLaneData.total_unrewarded_messages, upto in *.
  destruct (relayers d) as [|e l] eqn:Hl; [simpl; lia|]. pose proof (covers_length _ _ Hc) as Hlen. unfold upto in Hlen.
  apply covers_begin in Hc. simpl head. destruct (last (e :: l)) as [b|] eqn:Hlast; [|by apply last_None in Hlast].
  simpl in *. unfold saturating_len, checked_sub, saturating_add, u64_MAX in *. case_cmp; lia.
Qed.
End covers.

(** ** The inbound lane keeps its entries in order *)
Section inbound_spec.
Context {S R DP DR E : Type} `{EqDecision R} `{InboundLaneStorageLaws S R}.
Context (dispatch : DispatchMessage DP -> S -> S * MessageDispatchResult DR).
Implicit Types (l : list (UnrewardedRelayer R)) (s : S) (d : InboundLaneData R).

Lemma confirmed_covers from l n :
  covers from l -> 0 <= from <= n -> n <= upto from l -> upto from l <= u64_MAX ->
  exists l', InboundLane.cut_confirmed (E := E) n (InboundLane.drop_confirmed n l) = Ok l' /\
    covers n l' /\ upto n l' = upto from l /\ (length l' <= length l)%nat /\
    forall m, n < m -> deliverer l' m = deliverer l m.
Proof.
  revert from. induction l as [|e l IH]; intros from.
  - unfold upto. simpl. intros. exists []. split_and!; [done..| |done|done]. unfold upto. simpl. lia.
  - rewrite upto_cons. intros (Hb & He & Hl) Hn Hup Hmax. pose proof (covers_length _ _ Hl) as Hle. simpl.
    case_cmp.
    + destruct (IH (end_ (messages e)) Hl) as (l' & Hcut & Hcov & Hup' & Hlen & Hdel); [lia..|]. exists l'.
      split_and!; [done..|lia|]. intros m Hm. rewrite Hdel by done. rewrite contains_spec, bool_decide_false by lia. done.
    + unfold InboundLane.cut_confirmed. case_cmp.
      * rewrite add_u_ok by (unfold u64_MAX in *; lia). simpl. eexists. split; [done|]. simpl.
        rewrite upto_cons. split_and!; [done|simpl; lia|done|done|done|].
        intros m Hm. rewrite !contains_spec. simpl. by rewrite (bool_decide_ext _ (begin (messages e) <= m <= end_ (messages e))) by lia.
      * exists (e :: l). rewrite upto_cons. assert (n = from) as -> by lia. done.
Qed.

Lemma get_data_eq s : InboundLane.get_data (E := E) s = ((get_or_init_data s).1, Ok (stored s)).
Proof.
  unfold InboundLane.get_data. pose proof (get_or_init_data_stored s) as Hg.
  destruct (get_or_init_data s). simpl in *. by rewrite Hg.
Qed.

(** A state update confirms nonces that were delivered and not yet confirmed. *)
Lemma receive_state_update_spec s o :
  let d := stored s in let n := latest_received_nonce o in
  lane_ok d ->
  if bool_decide (last_confirmed_nonce d < n <= InboundLaneData.last_delivered_nonce d)
  then exists l', InboundLane.receive_state_update (E := E) o s = (set_data (mkInbound l' n) (get_or_init_data s).1, Ok (Some n)) /\
    lane_ok (mkInbound l' n) /\
    InboundLaneData.last_delivered_nonce (mkInbound l' n) = InboundLaneData.last_delivered_nonce d /\
    (length l' <= length (relayers d))%nat /\ forall m, n < m -> deliverer l' m = deliverer (relayers d) m
  else InboundLane.receive_state_update (E := E) o s = ((get_or_init_data s).1, Ok None).
Proof.
  intros d n (Hc & H0' & Hm). unfold InboundLane.receive_state_update. rewrite (st_bind_ok _ _ _ _ _ (get_data_eq s)).
  fold d n. case_bool_decide as Hn.
  - destruct (confirmed_covers (last_confirmed_nonce d) (relayers d) n) as (l' & Hcut & Hcov & Hup & Hlen & Hdel);
      [done|lia|apply Hn|done|].
    exists l'. repeat case_cmp; [lia..|]. rewrite (st_lift_ok _ _ _ _ Hcut). split; [done|].
    rewrite !last_delivered_upto in *. split_and!; [|done..]. split; [done|]. split; [simpl; lia|].
    rewrite last_delivered_upto. simpl. lia.
  - repeat case_cmp; try done. lia.
Qed.

(** When a message is accepted, and why it is rejected. *)
Definition acceptable d (n : Z) : bool :=
  (n =? InboundLaneData.last_delivered_nonce d + 1) && (n <=? u64_MAX) &&
  (Z.of_nat (length (relayers d)) <? max_unrewarded_relayer_entries) &&
  (n - last_confirmed_nonce d <=? max_unconfirmed_messages).

Lemma note_delivery_spec from l r n :
  covers from l -> upto from l + 1 = n -> n <= u64_MAX ->
  exists l', InboundLane.note_delivery (E := E) l r n = Ok l' /\ covers from l' /\ upto from l' = n /\
    (length l' <= Datatypes.S (length l))%nat /\ forall m, deliverer l' m = if m =? n then Some r else deliverer l m.
Proof.
  intros Hc Hn Hm. unfold InboundLane.note_delivery.
  assert (Hpush : exists l', Ok (E := E) (l ++ [mkUnrewarded r (DeliveredMessages.new n)]) = Ok l' /\ covers from l' /\
    upto from l' = n /\ (length l' <= Datatypes.S (length l))%nat /\ forall m, deliverer l' m = if m =? n then Some r else deliverer l m).
  { assert (Hcov : covers from (l ++ [mkUnrewarded r (DeliveredMessages.new n)])) by (apply covers_app; simpl; split; [done|lia]).
    eexists. split; [done|]. rewrite upto_app, length_app. simpl. split_and!; [done|done|lia|].
    intros m. rewrite (deliverer_app from) by done. simpl. rewrite contains_spec. simpl.
    repeat case_cmp; repeat case_bool_decide; try lia; try done. symmetry. apply (deliverer_none from); [done|lia]. }
  destruct (last l) as [e|] eqn:Hlast; [|done]. case_bool_decide as Hr; [|done]. clear Hpush.
  apply last_Some in Hlast as [l0 ->]. rewrite removelast_last. rewrite upto_app in Hn. unfold upto in Hn at 1. simpl in Hn.
  apply covers_app in Hc as [Hc0 Hc1]. simpl in Hc1.
  unfold DeliveredMessages.note_dispatched_message. rewrite add_u_ok by (unfold u64_MAX in *; lia). simpl.
  assert (Hcov : covers from (l0 ++ [mkUnrewarded (relayer e) (mkDelivered (begin (messages e)) (end_ (messages e) + 1))]))
    by (apply covers_app; simpl; split; [done|lia]).
  eexists. split; [done|]. rewrite upto_app, !length_app. simpl. split_and!; [done|done|lia|].
  assert (Hcov' : covers from (l0 ++ [e])) by (apply covers_app; done).
  intros m. rewrite !(deliverer_app from) by done. simpl. rewrite !contains_spec. simpl.
  repeat case_cmp; repeat case_bool_decide; subst; first [lia|done].
Qed.

Lemma receive_message_accepts s r n m s' result :
  let d := stored s in
  lane_ok d -> acceptable d n = true ->
  dispatch (mkDispatch (mkKey (storage_id (get_or_init_data s).1) n) m) (get_or_init_data s).1 = (s', result) ->
  exists l', InboundLane.receive_message (E := E) dispatch r n m s =
      (set_data (mkInbound l' (last_confirmed_nonce d)) s', Ok (Dispatched result)) /\
    lane_ok (mkInbound l' (last_confirmed_nonce d)) /\
    InboundLaneData.last_delivered_nonce (mkInbound l' (last_confirmed_nonce d)) = n /\
    (Z.of_nat (length l') <= max_unrewarded_relayer_entries) /\
    forall m, deliverer l' m = if m =? n then Some r else deliverer (relayers d) m.
Proof.
  intros d Hok Hacc Hdis. unfold acceptable in Hacc. rewrite !andb_true_iff, Z.eqb_eq, !Z.leb_le, Z.ltb_lt in Hacc.
  destruct Hacc as [[[Hn Hm] Hlen] Hun]. pose proof (lane_ok_order d Hok) as Hord. destruct Hok as (Hc & H0' & Hmax).
  destruct (note_delivery_spec (last_confirmed_nonce d) (relayers d) r n) as (l' & Hnote & Hcov & Hup & Hlen' & Hdel);
    [done|by rewrite <- last_delivered_upto|done|].
  exists l'. unfold InboundLane.receive_message. rewrite (st_bind_ok _ _ _ _ _ (get_data_eq s)). fold d.
  rewrite bool_decide_true by (unfold checked_add, u64_MAX in *; case_cmp; [by rewrite Hn|lia]). cbn [negb].
  rewrite (proj2 (Z.leb_gt _ _)) by done. rewrite (proj2 (Z.ltb_ge _ _)) by (unfold saturating_sub; lia).
  erewrite st_bind_ok by (rewrite Hdis; done). rewrite (st_lift_ok _ _ _ _ Hnote).
  split; [done|]. split_and!; [|done|lia|done]. split; [done|]. split; [done|]. rewrite last_delivered_upto. simpl. lia.
Qed.

Lemma receive_message_rejects s r n m :
  let d := stored s in
  lane_ok d -> 0 <= n <= u64_MAX -> acceptable d n = false ->
  exists why, InboundLane.receive_message (E := E) dispatch r n m s = ((get_or_init_data s).1, Ok why) /\
    (forall result, why <> Dispatched result).
Proof.
  intros d Hok Hrange Hacc. unfold acceptable in Hacc. pose proof (lane_ok_order d Hok) as Hord.
  destruct Hok as (Hc & H0' & Hmax).
  unfold InboundLane.receive_message. rewrite (st_bind_ok _ _ _ _ _ (get_data_eq s)). fold d.
  case_bool_decide as Hn; cbn [negb]; [|by eexists].
  destruct (Z.leb_spec max_unrewarded_relayer_entries (Z.of_nat (length (relayers d)))); [by eexists|].
  case_cmp; [by eexists|]. exfalso.
  unfold checked_add in Hn. case_cmp; [|done]. injection Hn as ->. unfold saturating_sub, u64_MAX in *.
  repeat case_cmp; simpl in *; first [done|lia].
Qed.
End inbound_spec.

(** ** The outbound lane *)
Section outbound_spec.
Context {S P : Type} `{OutboundLaneStorageLaws S P}.
Implicit Types (s : S) (d : OutboundLaneData).

Lemma check_entries_ok {R} (l : list (UnrewardedRelayer R)) from top expected :
  covers from l -> upto from l <= top -> top <= u64_MAX ->
  (forall e, head l = Some e -> expected = Some (begin (messages e))) ->
  OutboundLane.check_entries top expected l = Ok tt.
Proof.
  revert from expected. induction l as [|e l IH]; intros from expected; [done|]. rewrite upto_cons. simpl.
  intros (Hb & He & Hl) Htop Hmax Hexp. pose proof (covers_length _ _ Hl) as Hlen.
  rewrite (proj2 (Z.ltb_ge _ _)) by lia. rewrite bool_decide_true by (by apply Hexp). cbn [negb].
  rewrite (proj2 (Z.ltb_ge _ _)) by lia. apply (IH _ _ Hl); [done..|].
  intros e' He'. destruct l as [|e'' l]; [done|]. simplify_eq/=. destruct Hl as (Hb' & He'' & Hl).
  rewrite upto_cons in Htop. pose proof (covers_length _ _ Hl). unfold checked_add, u64_MAX in *. case_cmp; [by rewrite Hb'|lia].
Qed.

Lemma range_len a b : 0 < a -> b <= u64_MAX -> saturating_len a b = Z.max 0 (b - a + 1).
Proof. intros. unfold saturating_len, checked_sub, saturating_add, u64_MAX in *. case_cmp; lia. Qed.

(** The confirmation of the messages of an inbound lane with data [d]. *)
Lemma confirm_delivery_spec {R} s (d : InboundLaneData R) max_allowed :
  let o := outbound_data s in let top := InboundLaneData.last_delivered_nonce d in
  lane_ok d -> 0 <= latest_received_nonce o < u64_MAX ->
  OutboundLane.confirm_delivery max_allowed top (relayers d) s =
    if top <=? latest_received_nonce o then (s, Ok None)
    else if latest_generated_nonce o <? top then (s, Err FailedToConfirmFutureMessages)
    else if max_allowed <? top - latest_received_nonce o then (s, Err TryingToConfirmMoreMessagesThanExpected)
    else (set_outbound_data (mkOutbound (oldest_unpruned_nonce o) top (latest_generated_nonce o)) s,
          Ok (Some (mkDelivered (latest_received_nonce o + 1) top))).
Proof.
  intros o top (Hc & H0' & Hm) Hlr. unfold OutboundLane.confirm_delivery. erewrite st_bind_ok by done. fold o top.
  unfold DeliveredMessages.total_messages. cbn [begin end_].
  assert (saturating_add 64 (latest_received_nonce o) 1 = latest_received_nonce o + 1) as ->
    by (unfold saturating_add, u64_MAX in *; lia).
  rewrite range_len by (done || lia). destruct (Z.leb_spec top (latest_received_nonce o)).
  { by rewrite (proj2 (Z.eqb_eq _ _)) by lia. }
  rewrite (proj2 (Z.eqb_neq _ _)) by lia. case_cmp; [done|].
  assert (Z.max 0 (top - (latest_received_nonce o + 1) + 1) = top - latest_received_nonce o) as -> by lia.
  case_cmp; [done|]. unfold OutboundLane.ensure_unrewarded_relayers_are_correct.
  erewrite st_lift_ok; [done|]. apply (check_entries_ok _ (last_confirmed_nonce d)); [done|done|done|].
  intros e Hhead. by rewrite Hhead.
Qed.

Definition remove_range (from : Z) (k : nat) s : S :=
  foldl (fun s i => remove_message (from + Z.of_nat i) s) s (seq 0 k).

Lemma remove_range_S from k s : remove_range from (Datatypes.S k) s = remove_range (from + 1) k (remove_message from s).
Proof.
  unfold remove_range. simpl. rewrite Z.add_0_r. generalize (remove_message from s). clear s.
  rewrite <- (fmap_S_seq 0 k). generalize (seq 0 k) as l.
  induction l as [|i l IH]; intros s; [done|]. simpl. rewrite IH. do 2 f_equal. lia.
Qed.

Lemma remove_range_data from k s : outbound_data (remove_range from k s) = outbound_data s.
Proof.
  revert from s. induction k as [|k IH]; intros from s; [done|]. by rewrite remove_range_S, IH, data_remove_message.
Qed.

Lemma remove_range_message from k s n :
  message (remove_range from k s) n = if bool_decide (from <= n < from + Z.of_nat k) then None else message s n.
Proof.
  revert from s. induction k as [|k IH]; intros from s.
  - by rewrite bool_decide_false by lia.
  - rewrite remove_range_S, IH, message_remove_message. repeat case_bool_decide; try case_decide; first [done|lia].
Qed.

Lemma prune_loop_spec {E} fuel (x : Z) oldest latest spent remaining s :
  0 <= x -> in_range spent -> in_range remaining -> in_range (plus spent remaining) -> latest < u64_MAX ->
  Z.of_nat fuel = Z.max 0 (latest - oldest + 1) ->
  exists k, (k <= fuel)%nat /\
    OutboundLane.prune_loop (E := E) fuel (from_parts x 0) (from_parts (x + x) 0) oldest latest spent remaining s =
      (remove_range oldest k s, Ok (oldest + Z.of_nat k, plus spent (times (Z.of_nat k) (from_parts x 0)))) /\
    (k <> 0%nat -> (Z.of_nat k + 1) * x <= ref_time remaining) /\
    (k <> fuel -> ref_time remaining - Z.of_nat k * x < 2 * x).
Proof.
  intros Hx. revert oldest spent remaining s. induction fuel as [|fuel IH]; intros oldest spent remaining s Hs Hr Hsr Hl Hf.
  { exists 0%nat. split_and!; [done| |done|done]. unfold plus, times. simpl. destruct spent.
    simpl. by rewrite !Z.add_0_r. }
  simpl. rewrite (proj2 (Z.leb_le oldest latest)) by lia. rewrite andb_true_r, all_gte_spec.
  case_bool_decide as Hge; [|].
  - unfold within in Hge. simpl in Hge. erewrite st_bind_ok by done.
    unfold in_range, in_u, plus, within in *. simpl in *.
    erewrite st_lift_ok by (rewrite add_spec, bool_decide_true; [done|]; unfold within, plus, Weight.MAX, u64_MAX; simpl; lia).
    erewrite st_lift_ok by (rewrite sub_spec, bool_decide_true; [done|]; unfold within; simpl; lia).
    erewrite st_lift_ok by (apply add_u_ok; unfold u64_MAX in *; lia).
    edestruct (IH (oldest + 1)) as (k & Hk & Hrun & Hb & Hmax); cycle -1.
    { exists (Datatypes.S k). rewrite Hrun, remove_range_S. unfold minus, plus, times in *. simpl in *.
      rewrite Nat2Z.inj_succ. split_and!; [lia| | |].
      - f_equal. f_equal. f_equal; [lia|f_equal; lia].
      - intros _. destruct (decide (k = 0%nat)) as [->|Hne]; [lia|]. specialize (Hb Hne). lia.
      - intros Hne. assert (Hne' : k <> fuel) by lia. specialize (Hmax Hne'). lia. }
    all: unfold minus, plus; simpl; try lia.
  - exists 0%nat. split_and!; [lia| |done|].
    + unfold plus, times. simpl. destruct spent. simpl. by rewrite !Z.add_0_r.
    + intros _. unfold within, in_range, in_u in *. simpl in *. lia.
Qed.

(** Pruning removes a run of received messages from the oldest one; the weight
    it reports is within the budget; with a positive write weight it stops only
    when everything received is gone or the budget is too small, and the lane
    data records how far it got. *)
Lemma prune_messages_spec {E} db remaining s :
  let o := outbound_data s in
  0 <= write db -> 2 * write db <= u64_MAX -> in_range remaining -> latest_received_nonce o < u64_MAX ->
  exists (k : nat) spent,
    Z.of_nat k <= Z.max 0 (latest_received_nonce o - oldest_unpruned_nonce o + 1) /\
    OutboundLane.prune_messages (E := E) db remaining s =
      ((if Weight.is_zero spent then remove_range (oldest_unpruned_nonce o) k s
        else set_outbound_data (mkOutbound (oldest_unpruned_nonce o + Z.of_nat k) (latest_received_nonce o) (latest_generated_nonce o))
               (remove_range (oldest_unpruned_nonce o) k s)), Ok spent) /\
    within spent remaining /\ (Weight.is_zero spent = true <-> k = 0%nat \/ write db = 0) /\
    (0 < write db -> oldest_unpruned_nonce o + Z.of_nat k <= latest_received_nonce o ->
       ref_time remaining - Z.of_nat k * write db < 2 * write db).
Proof.
  intros o Hw H2w Hr Hl. unfold OutboundLane.prune_messages.
  assert (RuntimeDbWeight.writes db 1 = from_parts (write db) 0) as ->
    by (unfold RuntimeDbWeight.writes, saturating_mul, u64_MAX in *; f_equal; lia).
  erewrite st_lift_ok.
  2:{ rewrite add_spec, bool_decide_true; [done|]. unfold within, plus, Weight.MAX, u64_MAX in *. simpl. lia. }
  erewrite st_bind_ok by done. fold o. unfold plus at 1. simpl.
  destruct (prune_loop_spec (E := E) (Z.to_nat (latest_received_nonce o - oldest_unpruned_nonce o + 1)) (write db)
    (oldest_unpruned_nonce o) (latest_received_nonce o) Weight.zero remaining s) as (k & Hk & Hrun & Hb & Hmax);
    [done|by split|done|unfold plus; by destruct remaining|done|lia|].
  rewrite (st_bind_ok _ _ _ _ _ Hrun). unfold plus, times. simpl. rewrite Z.mul_0_r.
  destruct (decide (Z.of_nat k * write db = 0)) as [Hz|Hnz].
  - rewrite Hz. exists k, Weight.zero. simpl. split_and!; [lia|done| | |].
    + unfold within, in_range, in_u in *. simpl. lia.
    + split; [|done]. intros _. apply Z.mul_eq_0 in Hz. lia.
    + intros. apply Hmax. lia.
  - assert (k <> 0%nat) as Hk0 by (intros ->; lia). specialize (Hb Hk0).
    assert (Hnzw : forall y, 0 < y -> Weight.is_zero (from_parts y 0) = false).
    { intros y Hy. unfold Weight.is_zero, Weight.zero. apply bool_decide_eq_false. intros [=]. lia. }
    rewrite Hnzw by nia. cbn [negb]. unfold in_range, in_u in Hr.
    erewrite st_lift_ok.
    2:{ rewrite add_spec, bool_decide_true; [done|]. unfold within, plus, Weight.MAX, u64_MAX in *. simpl. lia. }
    unfold plus. simpl. exists k, (from_parts (Z.of_nat k * write db + write db) 0). rewrite Hnzw by nia.
    split_and!; [lia|done| |split; [done|intros [->|H0w]; [done|by rewrite H0w in Hnz; lia]]|].
    + unfold within. simpl. lia.
    + intros. apply Hmax. lia.
Qed.
End outbound_spec.

(** ** Every confirmed message is rewarded to the relayer who delivered it *)
Section rewards.
Context {A E : Type} `{Countable A}.
Implicit Types (l : list (UnrewardedRelayer A)) (rewards : gmap A Z) (r : A).

(** The nonces of a range, and how many of them satisfy a test. *)
Definition count (p : Z -> bool) (b e : Z) : Z := sum_Z ((fun n => Z.b2z (p n)) <$> seqZ b (e - b + 1)).

Lemma count_nonneg p b e : 0 <= count p b e.
Proof.
  unfold count. induction (seqZ b (e - b + 1)) as [|n ns IH]; [done|]. rewrite fmap_cons, sum_Z_cons. destruct (p n); simpl Z.b2z; lia.
Qed.

Lemma count_bound p b e : count p b e <= Z.max 0 (e - b + 1).
Proof.
  assert (Hl : forall ns, sum_Z ((fun n => Z.b2z (p n)) <$> ns) <= Z.of_nat (length ns)).
  { induction ns as [|n ns IH]; [done|]. rewrite fmap_cons, sum_Z_cons. simpl length. destruct (p n); simpl Z.b2z; lia. }
  unfold count. specialize (Hl (seqZ b (e - b + 1))). rewrite length_seqZ in Hl. lia.
Qed.

Lemma count_split p q1 q2 b e :
  (forall n, b <= n <= e -> Z.b2z (p n) = Z.b2z (q1 n) + Z.b2z (q2 n)) -> count p b e = count q1 b e + count q2 b e.
Proof.
  intros Hp. unfold count. assert (Hin : forall n, n ∈ seqZ b (e - b + 1) -> b <= n <= e) by (intros n; rewrite elem_of_seqZ; lia).
  induction (seqZ b (e - b + 1)) as [|n ns IH]; [done|].
  rewrite !fmap_cons, !sum_Z_cons. rewrite IH by (intros; apply Hin; by constructor). rewrite Hp by (apply Hin; constructor). lia.
Qed.

Lemma count_none p b e : (forall n, b <= n <= e -> p n = false) -> count p b e = 0.
Proof.
  intros Hp. unfold count. assert (Hin : forall n, n ∈ seqZ b (e - b + 1) -> b <= n <= e) by (intros n; rewrite elem_of_seqZ; lia).
  induction (seqZ b (e - b + 1)) as [|n ns IH]; [done|].
  rewrite !fmap_cons, !sum_Z_cons. rewrite IH by (intros; apply Hin; by constructor). rewrite Hp by (apply Hin; constructor). done.
Qed.

(** The nonces of a range within another one. *)
Lemma count_range x y b e :
  count (fun n => bool_decide (x <= n <= y)) b e = Z.max 0 (Z.min y e - Z.max x b + 1).
Proof.
  unfold count. remember (Z.to_nat (e - b + 1)) as k eqn:Hk. revert b Hk. induction k as [|k IH]; intros b Hk.
  - rewrite seqZ_nil by lia. change (0 = Z.max 0 (Z.min y e - Z.max x b + 1)). lia.
  - rewrite seqZ_cons, fmap_cons, sum_Z_cons by lia. replace (Z.pred (e - b + 1)) with (e - Z.succ b + 1) by lia.
    rewrite IH by lia. case_bool_decide; simpl Z.b2z; lia.
Qed.

Definition reward_due l r (n : Z) : bool := bool_decide (deliverer l n = Some r).

Lemma count_cons from e l r b top :
  covers from (e :: l) ->
  count (reward_due (e :: l) r) b top =
    (if bool_decide (relayer e = r) then Z.max 0 (Z.min (end_ (messages e)) top - Z.max (begin (messages e)) b + 1) else 0) +
    count (reward_due l r) b top.
Proof.
  intros (Hb & He & Hl). rewrite (count_split _ (fun n => bool_decide (relayer e = r) && bool_decide (begin (messages e) <= n <= end_ (messages e))) (reward_due l r)).
  - f_equal. case_bool_decide as Hr; simpl; [apply count_range|by apply count_none].
  - intros n _. unfold reward_due. simpl. rewrite contains_spec.
    destruct (bool_decide (begin (messages e) <= n <= end_ (messages e))) eqn:Hin.
    + apply bool_decide_eq_true in Hin. rewrite (deliverer_none (end_ (messages e)) l n) by (done || lia). rewrite andb_true_r.
      rewrite (bool_decide_ext (Some (relayer e) = Some r) (relayer e = r)) by (split; congruence). simpl. lia.
    + by rewrite andb_false_r.
Qed.

Lemma rewards_spec from l b top acc :
  covers from l -> 1 <= b -> top <= u64_MAX ->
  (forall r, 0 <= default 0 (acc !! r)) -> (forall r, default 0 (acc !! r) + count (reward_due l r) b top <= u64_MAX) ->
  exists rewards, for_each (E := E) (reward_entry (b, top)) l acc = Ok rewards /\
    forall r, default 0 (rewards !! r) = default 0 (acc !! r) + count (reward_due l r) b top.
Proof.
  revert from acc. induction l as [|e l IH]; intros from acc Hc Hb Htop Hpos Hbound.
  { exists acc. split; [done|]. intros r. rewrite count_none; [lia|done]. }
  pose proof (count_cons from e l) as Hcount. pose proof (fun r => count_nonneg (reward_due l r) b top) as Hnn. cbn [for_each]. unfold reward_entry at 1. simpl.
  case_cmp.
  - rewrite sub_u_ok by lia. simpl. rewrite add_u_ok by (unfold u64_MAX in *; lia). simpl.
    pose proof (Hbound (relayer e)) as Hbe. rewrite (Hcount _ _ _ Hc), bool_decide_true in Hbe by done.
    specialize (Hnn (relayer e)) as Hne.
    rewrite add_u_ok by (unfold u64_MAX in *; lia). simpl.
    destruct (IH (end_ (messages e)) (<[relayer e := default 0 (acc !! relayer e) +
      (Z.min (end_ (messages e)) top - Z.max (begin (messages e)) b + 1)]> acc)) as (rewards & Hrew & Hval); [apply Hc|done|done|..].
    + intros r. rewrite lookup_insert. case_decide; simpl; [specialize (Hpos (relayer e)); lia|done].
    + intros r. rewrite lookup_insert. case_decide as Hr; simpl; [subst r; lia|].
      specialize (Hbound r). rewrite (Hcount _ _ _ Hc), bool_decide_false in Hbound by done. lia.
    + exists rewards. split; [done|]. intros r. rewrite Hval, lookup_insert, (Hcount _ _ _ Hc). case_decide as Hr; simpl.
      * subst r. rewrite bool_decide_true by done. lia.
      * rewrite bool_decide_false by done. lia.
  - assert (Hsame : forall r, count (reward_due (e :: l) r) b top = count (reward_due l r) b top).
    { intros r. rewrite (Hcount _ _ _ Hc). case_bool_decide; lia. }
    destruct (IH (end_ (messages e)) acc) as (rewards & Hrew & Hval); [apply Hc|done|done|done|by intros r; rewrite <- Hsame|].
    exists rewards. split; [done|]. intros r. by rewrite Hval, Hsame.
Qed.

(** Rewards.  For the data of an inbound lane and a range of confirmed nonces,
    [calc_relayers_rewards] gives every relayer exactly the number of messages of
    the range that they delivered; it does not overflow. *)
Theorem rewards_count_deliveries (d : InboundLaneData A) b e :
  lane_ok d -> 1 <= b -> e <= u64_MAX ->
  exists rewards, calc_relayers_rewards (E := E) (relayers d) (b, e) = Ok rewards /\
    forall r, default 0 (rewards !! r) = count (fun n => bool_decide (deliverer (relayers d) n = Some r)) b e.
Proof.
  intros (Hc & _ & _) Hb He. destruct (rewards_spec _ (relayers d) b e ∅ Hc Hb He) as (rewards & Hrew & Hval).
  - intros r. by rewrite lookup_empty.
  - intros r. rewrite lookup_empty. pose proof (count_bound (reward_due (relayers d) r) b e). simpl. unfold u64_MAX in *. lia.
  - exists rewards. split; [done|]. intros r. rewrite Hval, lookup_empty. done.
Qed.
End rewards.

Module MessageLaneExamples.
(** Relayer 1 delivered the messages 4 and 5, relayer 2 the message 6, and
    relayer 1 the messages 7 to 9. *)
Definition lane : InboundLaneData nat :=
  mkInbound [mkUnrewarded 1%nat (mkDelivered 4 5); mkUnrewarded 2%nat (mkDelivered 6 6); mkUnrewarded 1%nat (mkDelivered 7 9)] 3.

Lemma rewards_count_deliveries_witness :
  exists rewards, calc_relayers_rewards (E := Empty_set) (relayers lane) (5, 8) = Ok rewards /\
    default 0 (rewards !! 1%nat) = 3 /\ default 0 (rewards !! 2%nat) = 1.
Proof.
  destruct (rewards_count_deliveries (E := Empty_set) lane 5 8) as (rewards & H1 & H2).
  - by vm_compute.
  - lia.
  - by vm_compute.
  - exists rewards. split; [done|]. rewrite !H2. by vm_compute.
Defined.
End MessageLaneExamples.
