(* ===== verification/MessagesPallet.v ===== *)
(** * The pallet of a message bridge: [pallet-bridge-messages], [src/lib.rs]

    The runtime storage of the lanes, the extrinsics that receive messages and
    delivery confirmations, the function that other pallets use to send, the
    pruning of delivered messages in idle blocks, and the owner's switch
    ([OwnedBridgeModule] of [bp-runtime]).

    What the pallet takes from its configuration is a record of parameters: the
    chains' proof verification, the dispatcher of messages, the payments and the
    benchmarked weights.  Calls into them that have an effect are recorded in the
    order in which they are made ([effects]); the answer of the dispatcher may
    depend on the calls made before.  Extrinsics are transactional: [dispatchable]
    undoes the changes of one that fails. *)
From stdpp Require Import base gmap list.
From Stdlib Require Import ZArith Lia.
From S2P Require Import Prelude Weights MessageLanes.
Set Warnings "-clear-no-such-hyp".

#[local] Open Scope Z_scope.

(** The causes that come with an error of a proof verifier are left out. *)
Inductive VerificationError :=
| EmptyMessageProof | HeaderChain | InboundLaneStorageError | InvalidMessageWeight | MessagesCountMismatch
| MessageStorage | MessageTooLarge | OutboundLaneStorageError | StorageProof | Other.

Inductive BasicOperatingMode := Normal | Halted.
Inductive MessagesOperatingMode := Basic (m : BasicOperatingMode) | RejectingOutboundMessages.

#[export] Instance BasicOperatingMode_eq_dec : EqDecision BasicOperatingMode.
Proof. solve_decision. Defined.
#[export] Instance MessagesOperatingMode_eq_dec : EqDecision MessagesOperatingMode.
Proof. solve_decision. Defined.

Definition is_halted (m : MessagesOperatingMode) : bool :=
  match m with Basic operating_mode => bool_decide (operating_mode = Halted) | _ => false end.

Inductive Error :=
| NotOperatingNormally
| InactiveOutboundLane
| MessageDispatchInactive
| MessageRejectedByChainVerifier (err : VerificationError)
| MessageRejectedByPallet (err : VerificationError)
| FailedToWithdrawMessageFee
| TooManyMessagesInTheProof
| InvalidMessagesProof
| InvalidMessagesDeliveryProof
| InvalidUnrewardedRelayersState
| InsufficientDispatchWeight
| MessageIsNotYetSent
| ReceptionConfirmation (err : ReceptionConfirmationError)
| BridgeModuleHalted.

Inductive DispatchError := BadOrigin | Module (err : Error).

Inductive RawOrigin (AccountId : Type) := Root | Signed (who : AccountId) | None_.
Arguments Root {AccountId}.
Arguments Signed {AccountId} who.
Arguments None_ {AccountId}.

(** The messages of one lane that a proof shows, and the lane's state. *)
Record ProvedLaneMessages (M : Type) := mkProved { lane_state : option OutboundLaneData; proved_messages : list M }.
Arguments mkProved {M} lane_state proved_messages.
Arguments lane_state {M} p.
Arguments proved_messages {M} p.
(** A [BTreeMap], in the order of its keys. *)
Abbreviation ProvedMessages M := (list (LaneId * ProvedLaneMessages M)).

Section types.
Context (AccountId InboundRelayer InboundPayload DispatchLevelResult : Type).

Inductive Event :=
| MessageAccepted (lane : LaneId) (n : MessageNonce)
| MessagesReceived (received : list (LaneId * list (MessageNonce * ReceptionResult DispatchLevelResult)))
| MessagesDelivered (lane : LaneId) (delivered : DeliveredMessages).

(** Calls with an effect outside the storage of the pallet. *)
Inductive Effect :=
| Dispatch (m : DispatchMessage InboundPayload)
| PayDelivery (relayer : AccountId) (total_messages valid_messages : MessageNonce) (actual_weight : Weight)
| PayConfirmation (lane : LaneId) (relayers : list (UnrewardedRelayer AccountId)) (confirmation_relayer : AccountId)
    (received_range : Z * Z)
| OnMessagesDelivered (lane : LaneId) (enqueued_messages : MessageNonce)
| Deposit (e : Event).

Record Storage := mkStorage {
  PalletOwner : option AccountId;
  PalletOperatingMode : MessagesOperatingMode;
  InboundLanes : gmap Z (InboundLaneData InboundRelayer);
  OutboundLanes : gmap Z OutboundLaneData;
  OutboundMessages : gmap (Z * Z) (list Z);
  effects : list Effect;
}.
End types.
Arguments MessageAccepted {_} lane n.
Arguments MessagesReceived {_} received.
Arguments MessagesDelivered {_} lane delivered.
Arguments Dispatch {_ _ _} m.
Arguments PayDelivery {_ _ _} relayer total_messages valid_messages actual_weight.
Arguments PayConfirmation {_ _ _} lane relayers confirmation_relayer received_range.
Arguments OnMessagesDelivered {_ _ _} lane enqueued_messages.
Arguments Deposit {_ _ _} e.
Arguments mkStorage {_ _ _ _} PalletOwner PalletOperatingMode InboundLanes OutboundLanes OutboundMessages effects.
Arguments PalletOwner {_ _ _ _} s.
Arguments PalletOperatingMode {_ _ _ _} s.
Arguments InboundLanes {_ _ _ _} s.
Arguments OutboundLanes {_ _ _ _} s.
Arguments OutboundMessages {_ _ _ _} s.
Arguments effects {_ _ _ _} s.

(** The configuration of an instance of the pallet. *)
Record Config (AccountId InboundRelayer OutboundPayload InboundPayload DispatchLevelResult MessagesProof DeliveryProof : Type) := {
  ActiveOutboundLanes : list LaneId;
  MaxUnrewardedRelayerEntriesAtInboundLane : MessageNonce;
  MaxUnconfirmedMessagesAtInboundLane : MessageNonce;
  MaximalOutboundPayloadSize : Z;
  DbWeight : RuntimeDbWeight;
  usize_bits : Z;
  unrewarded_relayer_len : Z;
  encode : OutboundPayload -> MessagePayload;
  decode : MessagePayload -> option InboundPayload;
  verify_message : OutboundPayload -> VerificationError + unit;
  verify_messages_proof : MessagesProof -> Z -> VerificationError + ProvedMessages Message;
  verify_messages_delivery_proof : DeliveryProof -> VerificationError + (LaneId * InboundLaneData AccountId);
  is_active : list (Effect AccountId InboundPayload DispatchLevelResult) -> bool;
  dispatch_weight : DispatchMessage InboundPayload -> Weight;
  dispatch : list (Effect AccountId InboundPayload DispatchLevelResult) -> DispatchMessage InboundPayload ->
    MessageDispatchResult DispatchLevelResult;
  confirmation_pay_reward : LaneId -> list (UnrewardedRelayer AccountId) -> AccountId -> Z * Z -> MessageNonce;
  receive_messages_proof_weight : MessagesProof -> Z -> Weight -> Weight;
  delivery_proof_size : DeliveryProof -> Z;
  receive_messages_delivery_proof_weight : Z -> UnrewardedRelayersState -> Weight;
}.
Arguments ActiveOutboundLanes {_ _ _ _ _ _ _} c.
Arguments MaxUnrewardedRelayerEntriesAtInboundLane {_ _ _ _ _ _ _} c.
Arguments MaxUnconfirmedMessagesAtInboundLane {_ _ _ _ _ _ _} c.
Arguments MaximalOutboundPayloadSize {_ _ _ _ _ _ _} c.
Arguments DbWeight {_ _ _ _ _ _ _} c.
Arguments usize_bits {_ _ _ _ _ _ _} c.
Arguments unrewarded_relayer_len {_ _ _ _ _ _ _} c.
Arguments encode {_ _ _ _ _ _ _} c.
Arguments decode {_ _ _ _ _ _ _} c.
Arguments verify_message {_ _ _ _ _ _ _} c.
Arguments verify_messages_proof {_ _ _ _ _ _ _} c.
Arguments verify_messages_delivery_proof {_ _ _ _ _ _ _} c.
Arguments is_active {_ _ _ _ _ _ _} c.
Arguments dispatch_weight {_ _ _ _ _ _ _} c.
Arguments dispatch {_ _ _ _ _ _ _} c.
Arguments confirmation_pay_reward {_ _ _ _ _ _ _} c.
Arguments receive_messages_proof_weight {_ _ _ _ _ _ _} c.
Arguments delivery_proof_size {_ _ _ _ _ _ _} c.
Arguments receive_messages_delivery_proof_weight {_ _ _ _ _ _ _} c.

Section pallet.
Context {AccountId InboundRelayer OutboundPayload InboundPayload DispatchLevelResult MessagesProof DeliveryProof : Type}.
Context `{EqDecision AccountId} `{EqDecision InboundRelayer}.
Variable (T : Config AccountId InboundRelayer OutboundPayload InboundPayload DispatchLevelResult MessagesProof DeliveryProof).

Abbreviation Pallet := (Storage AccountId InboundRelayer InboundPayload DispatchLevelResult).
Abbreviation Trace := (list (Effect AccountId InboundPayload DispatchLevelResult)).
Implicit Types (s : Pallet).

Definition set_lanes s m : Pallet :=
  mkStorage (PalletOwner s) (PalletOperatingMode s) m (OutboundLanes s) (OutboundMessages s) (effects s).
Definition set_outbound s m : Pallet :=
  mkStorage (PalletOwner s) (PalletOperatingMode s) (InboundLanes s) m (OutboundMessages s) (effects s).
Definition set_messages s m : Pallet :=
  mkStorage (PalletOwner s) (PalletOperatingMode s) (InboundLanes s) (OutboundLanes s) m (effects s).
Definition emit (e : Effect AccountId InboundPayload DispatchLevelResult) s : Pallet :=
  mkStorage (PalletOwner s) (PalletOperatingMode s) (InboundLanes s) (OutboundLanes s) (OutboundMessages s) (effects s ++ [e]).
Definition deposit_event (e : Event DispatchLevelResult) s : Pallet := emit (Deposit e) s.

(** The storage maps have default values. *)
Definition inbound_lane_data s (lane : LaneId) : InboundLaneData InboundRelayer :=
  default InboundLaneData.default (InboundLanes s !! lane).
Definition outbound_lane_data s (lane : LaneId) : OutboundLaneData :=
  default OutboundLaneData.default (OutboundLanes s !! lane).
Definition outbound_message_data s (lane : LaneId) (n : MessageNonce) : option MessagePayload :=
  OutboundMessages s !! (lane, n).

(** ** The lanes in runtime storage *)
Record RuntimeInboundLaneStorage := mkLane {
  pallet : Pallet;
  rt_lane_id : LaneId;
  cached_data : option (InboundLaneData InboundRelayer);
}.

Definition from_lane_id s (lane : LaneId) : RuntimeInboundLaneStorage := mkLane s lane None.

#[local] Instance runtime_inbound_lane_storage : InboundLaneStorage RuntimeInboundLaneStorage InboundRelayer := {
  storage_id := rt_lane_id;
  max_unrewarded_relayer_entries := MaxUnrewardedRelayerEntriesAtInboundLane T;
  max_unconfirmed_messages := MaxUnconfirmedMessagesAtInboundLane T;
  get_or_init_data self :=
    match cached_data self with
    | Some data => (self, data)
    | None =>
        let data := inbound_lane_data (pallet self) (rt_lane_id self) in
        (mkLane (pallet self) (rt_lane_id self) (Some data), data)
    end;
  set_data data self :=
    mkLane (set_lanes (pallet self) (<[rt_lane_id self := data]> (InboundLanes (pallet self)))) (rt_lane_id self) (Some data);
}.

(** [as _] from [usize] to [u64]. *)
Definition extra_proof_size_bytes {E} : ST RuntimeInboundLaneStorage E Z :=
  let max_encoded_len := default (2 ^ usize_bits T - 1)
    (InboundLaneData.encoded_size_hint (usize_bits T) (unrewarded_relayer_len T) (MaxUnrewardedRelayerEntriesAtInboundLane T)) in
  data ← InboundLane.get_data;
  let relayers_count := Z.of_nat (length (relayers data)) in
  let actual_encoded_len := default (2 ^ usize_bits T - 1)
    (InboundLaneData.encoded_size_hint (usize_bits T) (unrewarded_relayer_len T) relayers_count) in
  mret (saturating_sub max_encoded_len actual_encoded_len).

Definition with_inbound_lane {E A} (lane : LaneId) (op : ST RuntimeInboundLaneStorage E A) : ST Pallet E A := fun s =>
  let '(self, r) := op (from_lane_id s lane) in (pallet self, r).

(** The outbound storage of one lane is a view of the maps of the pallet. *)
#[local] Instance runtime_outbound_lane_storage (lane : LaneId) : OutboundLaneStorage Pallet MessagePayload := {
  outbound_data s := outbound_lane_data s lane;
  set_outbound_data data s := set_outbound s (<[lane := data]> (OutboundLanes s));
  message s n := outbound_message_data s lane n;
  save_message n message_payload s := set_messages s (<[(lane, n) := message_payload]> (OutboundMessages s));
  remove_message n s := set_messages s (delete (lane, n) (OutboundMessages s));
}.

(** ** Owner and operating mode *)
Definition ensure_owner_or_root (origin : RawOrigin AccountId) : ST Pallet DispatchError unit :=
  s ← st_get;
  match origin with
  | Root => mret tt
  | Signed signer => if bool_decide (PalletOwner s = Some signer) then mret tt else st_lift (Err BadOrigin)
  | None_ => st_lift (Err BadOrigin)
  end.

Definition ensure_not_halted : ST Pallet DispatchError unit :=
  s ← st_get;
  if is_halted (PalletOperatingMode s) then st_lift (Err (Module BridgeModuleHalted)) else mret tt.

Definition set_owner (origin : RawOrigin AccountId) (new_owner : option AccountId) : ST Pallet DispatchError unit :=
  _ ← ensure_owner_or_root origin;
  st_modify (fun s => mkStorage new_owner (PalletOperatingMode s) (InboundLanes s) (OutboundLanes s) (OutboundMessages s) (effects s)).

Definition set_operating_mode (origin : RawOrigin AccountId) (operating_mode : MessagesOperatingMode) :
    ST Pallet DispatchError unit :=
  _ ← ensure_owner_or_root origin;
  st_modify (fun s => mkStorage (PalletOwner s) operating_mode (InboundLanes s) (OutboundLanes s) (OutboundMessages s) (effects s)).

Definition ensure_signed (origin : RawOrigin AccountId) : res DispatchError AccountId :=
  match origin with Signed who => Ok who | _ => Err BadOrigin end.

(** ** Receiving messages *)
Definition verify_and_decode_messages_proof (proof : MessagesProof) (messages_count : Z) :
    VerificationError + ProvedMessages (DispatchMessage InboundPayload) :=
  match verify_messages_proof T proof messages_count with
  | inl err => inl err
  | inr messages_by_lane =>
      inr ((fun '(lane, lane_data) =>
              (lane, mkProved (lane_state lane_data)
                 ((fun m => mkDispatch (key m) (decode T (payload m))) <$> proved_messages lane_data))) <$> messages_by_lane)
  end.

(** The local variables of [receive_messages_proof]. *)
Record Progress := mkProgress {
  seen_messages : MessageNonce;
  valid_messages : MessageNonce;
  dispatch_weight_left : Weight;
  actual_weight : Weight;
}.

Definition call_dispatch (m : DispatchMessage InboundPayload) (self : RuntimeInboundLaneStorage) :
    RuntimeInboundLaneStorage * MessageDispatchResult DispatchLevelResult :=
  (mkLane (emit (Dispatch m) (pallet self)) (rt_lane_id self) (cached_data self), dispatch T (effects (pallet self)) m).

(** The body of the loop over the messages of a lane. *)
Definition receive_one (lane : LaneId) (relayer : InboundRelayer)
    (st : Progress * list (MessageNonce * ReceptionResult DispatchLevelResult)) (m : DispatchMessage InboundPayload) :
    ST RuntimeInboundLaneStorage DispatchError (Progress * list (MessageNonce * ReceptionResult DispatchLevelResult)) :=
  let '(p, received) := st in
  if negb (lane_id (dispatch_key m) =? lane) then st_lift Panic
  else
    total ← st_lift (add_u 64 (seen_messages p) 1);
    let message_dispatch_weight := dispatch_weight T m in
    if Weight.any_gt message_dispatch_weight (dispatch_weight_left p) then st_lift (Err (Module InsufficientDispatchWeight))
    else
      receival_result ← InboundLane.receive_message call_dispatch relayer (nonce (dispatch_key m)) (data m);
      '(valid, unspent) ←
        (match receival_result with
         | Dispatched dispatch_result =>
             valid ← st_lift (add_u 64 (valid_messages p) 1); mret (valid, unspent_weight dispatch_result)
         | _ => mret (valid_messages p, message_dispatch_weight)
         end);
      let unspent := Weight.min unspent message_dispatch_weight in
      used ← st_lift (Weight.sub message_dispatch_weight unspent);
      left ← st_lift (Weight.sub (dispatch_weight_left p) used);
      mret (mkProgress total valid left (Weight.saturating_sub (actual_weight p) unspent),
            received ++ [(nonce (dispatch_key m), receival_result)]).

(** The body of the loop over the lanes. *)
Definition receive_lane (relayer : InboundRelayer)
    (st : Progress * list (LaneId * list (MessageNonce * ReceptionResult DispatchLevelResult)))
    (entry : LaneId * ProvedLaneMessages (DispatchMessage InboundPayload)) :
    ST Pallet DispatchError (Progress * list (LaneId * list (MessageNonce * ReceptionResult DispatchLevelResult))) :=
  let '(p, status) := st in
  let '(lane, lane_data) := entry in
  with_inbound_lane lane (
    extra ← extra_proof_size_bytes;
    let p := mkProgress (seen_messages p) (valid_messages p) (dispatch_weight_left p)
               (Weight.set_proof_size (actual_weight p) (saturating_sub (proof_size (actual_weight p)) extra)) in
    _ ← (match lane_state lane_data with
         | Some lane_state => InboundLane.receive_state_update lane_state
         | None => mret None
         end);
    '(p, received) ← st_for (receive_one lane relayer) (p, []) (proved_messages lane_data);
    mret (p, status ++ [(lane, received)])).

Definition receive_messages_proof (origin : RawOrigin AccountId) (relayer_id_at_bridged_chain : InboundRelayer)
    (proof : MessagesProof) (messages_count : Z) (dispatch_weight : Weight) : ST Pallet DispatchError Weight :=
  _ ← ensure_not_halted;
  relayer_id_at_this_chain ← st_lift (ensure_signed origin);
  s ← st_get;
  if MaxUnconfirmedMessagesAtInboundLane T <? messages_count then st_lift (Err (Module TooManyMessagesInTheProof))
  else if negb (is_active T (effects s)) then st_lift (Err (Module MessageDispatchInactive))
  else
    let declared_weight := receive_messages_proof_weight T proof messages_count dispatch_weight in
    match verify_and_decode_messages_proof proof messages_count with
    | inl _ => st_lift (Err (Module InvalidMessagesProof))
    | inr messages =>
        '(p, status) ← st_for (receive_lane relayer_id_at_bridged_chain)
            (mkProgress 0 0 dispatch_weight declared_weight, []) messages;
        _ ← st_modify (emit (PayDelivery relayer_id_at_this_chain (seen_messages p) (valid_messages p) (actual_weight p)));
        _ ← st_modify (deposit_event (MessagesReceived status));
        mret (actual_weight p)
    end.

(** ** Receiving delivery confirmations *)
Definition receive_messages_delivery_proof (origin : RawOrigin AccountId) (proof : DeliveryProof)
    (relayers_state : UnrewardedRelayersState) : ST Pallet DispatchError Weight :=
  _ ← ensure_not_halted;
  let proof_size := delivery_proof_size T proof in
  confirmation_relayer ← st_lift (ensure_signed origin);
  match verify_messages_delivery_proof T proof with
  | inl _ => st_lift (Err (Module InvalidMessagesDeliveryProof))
  | inr (lane, lane_data) =>
      if negb (UnrewardedRelayersState.is_valid relayers_state lane_data) then
        st_lift (Err (Module InvalidUnrewardedRelayersState))
      else
        let last_delivered_nonce := InboundLaneData.last_delivered_nonce lane_data in
        confirmed_messages ← st_map_err (fun e => Module (ReceptionConfirmation e))
          (@OutboundLane.confirm_delivery _ _ (runtime_outbound_lane_storage lane) _
             (total_messages relayers_state) last_delivered_nonce (relayers lane_data));
        relayers_state ←
          (match confirmed_messages with
           | Some confirmed_messages =>
               let received_range := (begin confirmed_messages, end_ confirmed_messages) in
               _ ← st_modify (deposit_event (MessagesDelivered lane confirmed_messages));
               _ ← st_modify (emit (PayConfirmation lane (relayers lane_data) confirmation_relayer received_range));
               let actually_rewarded_relayers :=
                 confirmation_pay_reward T lane (relayers lane_data) confirmation_relayer received_range in
               mret (mkRelayersState
                 (Z.min (unrewarded_relayer_entries relayers_state) actually_rewarded_relayers)
                 (messages_in_oldest_entry relayers_state)
                 (Z.min (total_messages relayers_state) (default u64_MAX (checked_len received_range.1 received_range.2)))
                 (state_last_delivered_nonce relayers_state))
           | None => mret relayers_state
           end);
        s ← st_get;
        queued ← st_lift (OutboundLaneData.queued_messages (outbound_lane_data s lane));
        _ ← st_modify (emit (OnMessagesDelivered lane (saturating_len queued.1 queued.2)));
        mret (receive_messages_delivery_proof_weight T proof_size relayers_state)
  end.

(** ** Sending messages: the trait [MessagesBridge] *)
Record SendMessageArgs := mkSendArgs { send_lane : LaneId; send_payload : MessagePayload }.
Record SendMessageArtifacts := mkArtifacts { sent_nonce : MessageNonce; enqueued_messages : MessageNonce }.

Definition ensure_normal_operating_mode : ST Pallet Error unit :=
  s ← st_get;
  if bool_decide (PalletOperatingMode s = Basic Normal) then mret tt else st_lift (Err NotOperatingNormally).

Definition validate_message (lane : LaneId) (message : OutboundPayload) : ST Pallet Error SendMessageArgs :=
  _ ← ensure_normal_operating_mode;
  if negb (bool_decide (lane ∈ ActiveOutboundLanes T)) then st_lift (Err InactiveOutboundLane)
  else
    match verify_message T message with
    | inl err => st_lift (Err (MessageRejectedByChainVerifier err))
    | inr _ =>
        if Z.of_nat (length (encode T message)) <=? MaximalOutboundPayloadSize T
        then mret (mkSendArgs lane (encode T message))
        else st_lift (Err (MessageRejectedByPallet MessageTooLarge))
    end.

Definition send_message {E} (args : SendMessageArgs) : ST Pallet E SendMessageArtifacts :=
  n ← @OutboundLane.send_message _ _ (runtime_outbound_lane_storage (send_lane args)) E (send_payload args);
  s ← st_get;
  queued ← st_lift (OutboundLaneData.queued_messages (outbound_lane_data s (send_lane args)));
  _ ← st_modify (deposit_event (MessageAccepted (send_lane args) n));
  mret (mkArtifacts n (saturating_len queued.1 queued.2)).

(** ** Pruning in idle blocks *)
Definition on_idle {E} (block_number : Z) (remaining_weight : Weight) : ST Pallet E Weight :=
  let db_weight := DbWeight T in
  if negb (Weight.all_gte remaining_weight (RuntimeDbWeight.reads_writes db_weight 1 2)) then mret Weight.zero
  else
    let active_lanes := ActiveOutboundLanes T in
    let active_lanes_len := Z.of_nat (length active_lanes) in
    if active_lanes_len =? 0 then st_lift Panic
    else
      active_lane_id ← st_lift (expect (active_lanes !! Z.to_nat (block_number mod active_lanes_len)));
      let used_weight := RuntimeDbWeight.reads db_weight 1 in
      remaining ← st_lift (Weight.sub remaining_weight used_weight);
      pruned ← @OutboundLane.prune_messages _ _ (runtime_outbound_lane_storage active_lane_id) E db_weight remaining;
      st_lift (Weight.add used_weight pruned).

(** A call that is undone when it fails. *)
Definition dispatchable {E A} (op : ST Pallet E A) : ST Pallet E A := fun s =>
  match op s with (s', Ok a) => (s', Ok a) | (_, r) => (s, r) end.

(** ** Everything that can happen to the pallet *)
Inductive Call :=
| Send (lane : LaneId) (m : OutboundPayload)
| ReceiveMessages (origin : RawOrigin AccountId) (relayer : InboundRelayer) (proof : MessagesProof) (messages_count : Z)
    (dispatch_weight : Weight)
| ReceiveDelivery (origin : RawOrigin AccountId) (proof : DeliveryProof) (relayers_state : UnrewardedRelayersState)
| OnIdle (block_number : Z) (remaining_weight : Weight)
| SetOwner (origin : RawOrigin AccountId) (new_owner : option AccountId)
| SetOperatingMode (origin : RawOrigin AccountId) (operating_mode : MessagesOperatingMode).

(** A sender validates the message and then sends it. *)
Definition validate_and_send (lane : LaneId) (m : OutboundPayload) : ST Pallet Error SendMessageArtifacts :=
  args ← validate_message lane m; send_message args.

Definition exec_call (c : Call) : ST Pallet DispatchError unit :=
  dispatchable
    match c with
    | Send lane m => _ ← st_map_err Module (validate_and_send lane m); mret tt
    | ReceiveMessages origin relayer proof messages_count dispatch_weight =>
        _ ← receive_messages_proof origin relayer proof messages_count dispatch_weight; mret tt
    | ReceiveDelivery origin proof relayers_state =>
        _ ← receive_messages_delivery_proof origin proof relayers_state; mret tt
    | OnIdle block_number remaining_weight => _ ← on_idle block_number remaining_weight; mret tt
    | SetOwner origin new_owner => set_owner origin new_owner
    | SetOperatingMode origin operating_mode => set_operating_mode origin operating_mode
    end.

(** ** The storage traits are implemented *)
#[local] Instance runtime_inbound_lane_storage_laws : InboundLaneStorageLaws RuntimeInboundLaneStorage InboundRelayer.
Proof.
  refine {| stored := fun self => default (inbound_lane_data (pallet self) (rt_lane_id self)) (cached_data self) |}.
  - intros self. simpl. by destruct (cached_data self).
  - intros self. simpl. destruct (cached_data self) eqn:Hc; simpl; [by rewrite Hc|done].
  - done.
Defined.

#[local] Instance runtime_outbound_lane_storage_laws lane :
  @OutboundLaneStorageLaws Pallet MessagePayload (runtime_outbound_lane_storage lane).
Proof.
  split; simpl; unfold outbound_lane_data, outbound_message_data; simpl.
  - intros d s. by rewrite lookup_insert_eq.
  - done.
  - done.
  - done.
  - intros n p s n'. rewrite lookup_insert. repeat case_decide; naive_solver.
  - intros n s n'. rewrite lookup_delete. repeat case_decide; naive_solver.
Qed.

(** ** What the calls leave alone *)
Definition dispatches s : list (DispatchMessage InboundPayload) :=
  omap (fun e => if e is Dispatch m then Some m else None) (effects s).

(** The part of the storage that serves incoming messages, and the other part. *)
Definition inbound_part s := (InboundLanes s, dispatches s).
Definition outbound_part s := (OutboundLanes s, OutboundMessages s).

Lemma dispatches_emit e s : dispatches (emit e s) = dispatches s ++ (if e is Dispatch m then [m] else []).
Proof. unfold dispatches. simpl. rewrite omap_app. simpl. by destruct e. Qed.

Lemma keeps_emit_inbound {E} e : (if e is Dispatch _ then False else True) -> keeps (E := E) inbound_part (st_modify (emit e)).
Proof.
  intros He. apply keeps_modify. intros s. unfold inbound_part. rewrite dispatches_emit. simpl.
  destruct e; rewrite ?app_nil_r; done.
Qed.

Lemma keeps_emit_outbound {E} e : keeps (E := E) outbound_part (st_modify (emit e)).
Proof. by apply keeps_modify. Qed.

Lemma keeps_dispatchable {E A X} (f : Pallet -> X) (op : ST Pallet E A) : keeps f op -> keeps f (dispatchable op).
Proof. intros Hop s. specialize (Hop s). unfold dispatchable. by destruct (op s) as [s' [a|e|]]. Qed.

Lemma dispatchable_wlp {E A} (op : ST Pallet E A) (Q : Pallet -> Prop) s s' r :
  Q s -> wlp op (fun _ => Q) s -> dispatchable op s = (s', r) -> Q s'.
Proof. unfold wlp, dispatchable. intros Hs Hop Heq. destruct (op s) as [s1 [a|e|]]; by injection Heq as <- _. Qed.

Lemma keeps_with_lane {E A X} (f : Pallet -> X) lane (op : ST RuntimeInboundLaneStorage E A) :
  keeps (fun self => f (pallet self)) op -> keeps f (with_inbound_lane lane op).
Proof.
  intros Hop s. specialize (Hop (from_lane_id s lane)). unfold with_inbound_lane.
  by destruct (op (from_lane_id s lane)) as [self r].
Qed.
#[local] Hint Resolve keeps_emit_outbound keeps_dispatchable keeps_with_lane : frame.
#[local] Hint Extern 1 (keeps inbound_part (st_modify _)) => (apply keeps_emit_inbound; exact I) : frame.

Lemma ensure_not_halted_keeps {X} (f : Pallet -> X) : keeps f ensure_not_halted.
Proof. unfold ensure_not_halted. solve_keeps. Qed.

Lemma ensure_not_halted_ok s : is_halted (PalletOperatingMode s) = false -> ensure_not_halted s = (s, Ok tt).
Proof. intros Hm. unfold ensure_not_halted. erewrite st_bind_ok by done. by rewrite Hm. Qed.

Lemma ensure_owner_keeps {X} (f : Pallet -> X) origin : keeps f (ensure_owner_or_root origin).
Proof. unfold ensure_owner_or_root. solve_keeps. Qed.
#[local] Hint Resolve ensure_not_halted_keeps ensure_owner_keeps : frame.

Lemma confirm_delivery_keeps {R} lane a b (l : list (UnrewardedRelayer R)) :
  keeps inbound_part (@OutboundLane.confirm_delivery _ _ (runtime_outbound_lane_storage lane) R a b l).
Proof. unfold OutboundLane.confirm_delivery. solve_keeps. Qed.

#[local] Hint Resolve confirm_delivery_keeps : frame.

Lemma receive_delivery_keeps origin proof rs : keeps inbound_part (receive_messages_delivery_proof origin proof rs).
Proof.
  unfold receive_messages_delivery_proof. solve_keeps.
Qed.

Lemma prune_loop_keeps {E} lane fuel w ww oldest latest spent remaining :
  keeps inbound_part (@OutboundLane.prune_loop _ _ (runtime_outbound_lane_storage lane) E fuel w ww oldest latest spent remaining).
Proof.
  revert oldest spent remaining. induction fuel as [|fuel IH]; intros; simpl; [apply keeps_ret|]. solve_keeps.
Qed.
#[local] Hint Resolve prune_loop_keeps : frame.

Lemma on_idle_keeps {E} b w : keeps inbound_part (on_idle (E := E) b w).
Proof. unfold on_idle, OutboundLane.prune_messages. solve_keeps. Qed.

Lemma send_keeps lane m : keeps inbound_part (validate_and_send lane m).
Proof.
  unfold validate_and_send, validate_message, ensure_normal_operating_mode, send_message, OutboundLane.send_message. solve_keeps.
Qed.

Lemma set_owner_keeps {X} (f : Pallet -> X) origin o :
  (forall s, f (mkStorage o (PalletOperatingMode s) (InboundLanes s) (OutboundLanes s) (OutboundMessages s) (effects s)) = f s) ->
  keeps f (set_owner origin o).
Proof. intros. unfold set_owner. solve_keeps. Qed.

Lemma set_mode_keeps {X} (f : Pallet -> X) origin m :
  (forall s, f (mkStorage (PalletOwner s) m (InboundLanes s) (OutboundLanes s) (OutboundMessages s) (effects s)) = f s) ->
  keeps f (set_operating_mode origin m).
Proof. intros. unfold set_operating_mode. solve_keeps. Qed.

Lemma get_data_keeps {E X} (f : Pallet -> X) : keeps (E := E) (fun self => f (pallet self)) (InboundLane.get_data (S := RuntimeInboundLaneStorage)).
Proof. intros self. unfold InboundLane.get_data. simpl. by destruct (cached_data self). Qed.

Lemma call_dispatch_keeps {E} m :
  keeps (fun self => outbound_part (pallet self))
    ((fun self => let '(self', r) := call_dispatch m self in (self', Ok r)) : ST RuntimeInboundLaneStorage E _).
Proof. by intros self. Qed.
#[local] Hint Resolve get_data_keeps call_dispatch_keeps : frame.

Lemma receive_one_keeps lane relayer st m : keeps (fun self => outbound_part (pallet self)) (receive_one lane relayer st m).
Proof. unfold receive_one, InboundLane.receive_message. solve_keeps. intros self. done. Qed.

Lemma receive_state_update_keeps {E} o : keeps (E := E) (fun self => outbound_part (pallet self)) (InboundLane.receive_state_update o).
Proof. unfold InboundLane.receive_state_update. solve_keeps. Qed.
#[local] Hint Resolve receive_one_keeps receive_state_update_keeps : frame.

Lemma receive_messages_keeps origin relayer proof count w :
  keeps outbound_part (receive_messages_proof origin relayer proof count w).
Proof.
  unfold receive_messages_proof. solve_keeps. unfold receive_lane. solve_keeps. apply keeps_with_lane.
  unfold extra_proof_size_bytes. solve_keeps.
Qed.

(** ** Incoming messages

    [sent] gives the payloads that were sent on a lane, [received] an upper bound
    of the nonces that the source chain knows to be received. *)
Section incoming.
Variables (sent : Z -> list MessagePayload) (received : Z -> Z).

Definition last_delivered s lane : Z := InboundLaneData.last_delivered_nonce (inbound_lane_data s lane).

(** The dispatched messages of a lane, and the messages as they should be. *)
Definition dispatched s lane : list (DispatchMessage InboundPayload) :=
  filter (fun m => lane_id (dispatch_key m) = lane) (dispatches s).
Definition deliveries (lane : LaneId) (l : list MessagePayload) : list (DispatchMessage InboundPayload) :=
  imap (fun i p => mkDispatch (mkKey lane (Z.of_nat i + 1)) (decode T p)) l.

Record inbound_ok_at s lane : Prop := mk_inbound_ok {
  ok_lane : lane_ok (inbound_lane_data s lane);
  ok_confirmed : last_confirmed_nonce (inbound_lane_data s lane) <= received lane;
  ok_delivered : last_delivered s lane <= Z.of_nat (length (sent lane));
  ok_dispatched : dispatched s lane = deliveries lane (take (Z.to_nat (last_delivered s lane)) (sent lane));
  ok_entries : Z.of_nat (length (relayers (inbound_lane_data s lane))) <= Z.max 0 (MaxUnrewardedRelayerEntriesAtInboundLane T);
  ok_unconfirmed : last_delivered s lane - last_confirmed_nonce (inbound_lane_data s lane) <=
    Z.max 0 (MaxUnconfirmedMessagesAtInboundLane T);
}.

Definition inbound_ok s : Prop := forall lane, inbound_ok_at s lane.

(** A message that was sent; a lane state that does not claim too much. *)
Definition genuine (lane : LaneId) (m : DispatchMessage InboundPayload) : Prop :=
  lane_id (dispatch_key m) = lane /\ exists i p, nonce (dispatch_key m) = Z.of_nat i + 1 /\
    sent lane !! i = Some p /\ data m = decode T p.
Definition genuine_state (lane : LaneId) (o : OutboundLaneData) : Prop := latest_received_nonce o <= received lane.

(** The lane object during a transaction that started in [s0]: its cache agrees
    with the storage, and nothing delivered is forgotten. *)
Definition lane_inv s0 (lane : LaneId) (self : RuntimeInboundLaneStorage) : Prop :=
  rt_lane_id self = lane /\ stored self = inbound_lane_data (pallet self) lane /\ inbound_ok (pallet self) /\
  forall lane', last_delivered s0 lane' <= last_delivered (pallet self) lane'.

Lemma inbound_ok_at_ext s s' lane :
  inbound_lane_data s' lane = inbound_lane_data s lane -> dispatched s' lane = dispatched s lane ->
  inbound_ok_at s lane -> inbound_ok_at s' lane.
Proof. intros Hd Hm []. split; unfold last_delivered in *; rewrite ?Hd, ?Hm; done. Qed.

Lemma set_lanes_lookup s lane d lane' :
  inbound_lane_data (set_lanes s (<[lane := d]> (InboundLanes s))) lane' =
    if decide (lane = lane') then d else inbound_lane_data s lane'.
Proof. unfold inbound_lane_data. simpl. rewrite lookup_insert. by case_decide. Qed.

Lemma dispatched_emit s m lane :
  dispatched (emit (Dispatch m) s) lane = dispatched s lane ++ (if decide (lane_id (dispatch_key m) = lane) then [m] else []).
Proof.
  unfold dispatched. rewrite dispatches_emit, filter_app. done.
Qed.

(** Writing the data of one lane. *)
Lemma set_data_inv s0 lane self d :
  rt_lane_id self = lane ->
  (forall lane', lane' <> lane -> inbound_ok_at (pallet self) lane' /\ last_delivered s0 lane' <= last_delivered (pallet self) lane') ->
  inbound_ok_at (pallet (set_data d self)) lane -> last_delivered s0 lane <= InboundLaneData.last_delivered_nonce d ->
  lane_inv s0 lane (set_data d self).
Proof.
  intros Hid Hother Hd Hle. rewrite <- Hid in *. split; [done|]. split.
  { simpl. by rewrite set_lanes_lookup, decide_True. }
  split; intros lane'; (destruct (decide (lane' = rt_lane_id self)) as [->|Hne]; [|destruct (Hother _ Hne) as [Hok Hmon]]).
  - done.
  - apply (inbound_ok_at_ext (pallet self)); [|done|done]. simpl. by rewrite set_lanes_lookup, decide_False.
  - unfold last_delivered in *. simpl. by rewrite set_lanes_lookup, decide_True.
  - unfold last_delivered in *. simpl. by rewrite set_lanes_lookup, decide_False.
Qed.

Lemma get_data_inv s0 lane self : lane_inv s0 lane self -> lane_inv s0 lane (get_or_init_data self).1.
Proof. unfold lane_inv. simpl. by destruct (cached_data self) eqn:Hc; simpl; rewrite ?Hc. Qed.

Lemma state_update_inv s0 lane self o :
  lane_inv s0 lane self -> genuine_state lane o ->
  wlp (E := DispatchError) (InboundLane.receive_state_update o) (fun _ => lane_inv s0 lane) self.
Proof.
  intros Hinv Ho. pose proof (get_data_inv _ _ _ Hinv) as Hinv'. destruct Hinv as (Hid & Hst & Hok & Hmon).
  pose proof (receive_state_update_spec (E := DispatchError) self o) as Hspec. cbn zeta in Hspec. rewrite Hst in Hspec.
  specialize (Hspec (ok_lane _ _ (Hok lane))). unfold wlp. case_bool_decide as Hn; [|by rewrite Hspec].
  destruct Hspec as (l' & -> & Hl' & Hlast & Hlen & _). pose proof (Hmon lane) as Hmon0.
  apply set_data_inv; [apply Hinv'|intros; split; apply Hinv'| |by rewrite Hlast].
  - destruct (Hok lane) as [H1 H2 H3 H4 H5 H6]. rewrite <- Hid in *.
    assert (Hp : pallet (get_or_init_data self).1 = pallet self) by (simpl; by destruct (cached_data self)).
    assert (Hr : rt_lane_id (get_or_init_data self).1 = rt_lane_id self) by (simpl; by destruct (cached_data self)).
    split; unfold last_delivered in *; cbn -[get_or_init_data]; rewrite ?set_lanes_lookup, ?decide_True by congruence; rewrite ?Hp, ?Hr; cbn [relayers last_confirmed_nonce];
      rewrite ?Hlast; try done; lia.
Qed.

Lemma deliveries_snoc lane l i p :
  l !! i = Some p ->
  deliveries lane (take (S i) l) = deliveries lane (take i l) ++ [mkDispatch (mkKey lane (Z.of_nat i + 1)) (decode T p)].
Proof.
  intros Hi. unfold deliveries. rewrite (take_S_r _ _ _ Hi), imap_app. simpl. rewrite length_take_le; [|apply lookup_lt_Some in Hi; lia].
  by rewrite Nat.add_0_r.
Qed.

Lemma receive_message_inv s0 lane relayer self m :
  lane_inv s0 lane self -> genuine lane m -> Z.of_nat (length (sent lane)) <= u64_MAX ->
  wlp (E := DispatchError) (InboundLane.receive_message call_dispatch relayer (nonce (dispatch_key m)) (data m))
    (fun _ => lane_inv s0 lane) self.
Proof.
  intros Hinv (Hlane & i & p & Hn & Hp & Hdata) Hmax. pose proof (get_data_inv _ _ _ Hinv) as Hinv'.
  destruct Hinv as (Hid & Hst & Hok & Hmon). pose proof (lookup_lt_Some _ _ _ Hp) as Hi.
  pose proof (ok_lane _ _ (Hok lane)) as Hlok. rewrite <- Hst in Hlok. unfold wlp.
  destruct (acceptable (stored self) (nonce (dispatch_key m))) eqn:Hacc.
  2:{ destruct (receive_message_rejects (E := DispatchError) call_dispatch self relayer (nonce (dispatch_key m)) (data m) Hlok)
        as (why & -> & _); [lia|done|done]. }
  destruct (call_dispatch (mkDispatch (mkKey (storage_id (get_or_init_data self).1) (nonce (dispatch_key m))) (data m))
    (get_or_init_data self).1) as [self' result] eqn:Hcall.
  destruct (receive_message_accepts (E := DispatchError) call_dispatch self relayer _ (data m) self' result Hlok Hacc Hcall)
    as (l' & -> & Hl' & Hlast & Hlen & _).
  unfold acceptable in Hacc. rewrite !andb_true_iff, Z.eqb_eq, !Z.leb_le, Z.ltb_lt, Hst in Hacc.
  destruct Hacc as [[[Hnext _] Hroom] Hun].
  assert (Hpal : pallet (get_or_init_data self).1 = pallet self) by (simpl; by destruct (cached_data self)).
  set (self1 := (get_or_init_data self).1) in *. clearbody self1.
  pose proof (proj1 Hinv') as Hid'. unfold call_dispatch in Hcall. injection Hcall as <- _. rewrite Hpal.
  set (msg := mkDispatch (mkKey (rt_lane_id self1) (nonce (dispatch_key m))) (data m)).
  assert (Hmsg : msg = mkDispatch (mkKey lane (Z.of_nat i + 1)) (decode T p)) by (unfold msg; congruence).
  specialize (Hmon lane) as Hmon0. unfold last_delivered in *.
  apply set_data_inv; [done| | |unfold last_delivered; rewrite Hlast; lia].
  - intros lane' Hne. split; [|apply Hmon]. apply (inbound_ok_at_ext (pallet self)); [done| |apply Hok].
    cbn [pallet]. rewrite dispatched_emit, decide_False, app_nil_r; [done|]. rewrite Hmsg. by apply not_eq_sym.
  - destruct (Hok lane) as [_ H2 _ H4 _ _]. cbn [set_data runtime_inbound_lane_storage pallet rt_lane_id]. rewrite Hid'. split; unfold last_delivered in *.
    all: rewrite ?set_lanes_lookup, ?decide_True by done; cbn [relayers last_confirmed_nonce]; rewrite ?Hlast; try done; rewrite ?Hst;
      try (cbn [max_unrewarded_relayer_entries max_unconfirmed_messages runtime_inbound_lane_storage] in *; lia).
    change (dispatched (set_lanes _ _) lane) with (dispatched (emit (Dispatch msg) (pallet self)) lane).
    rewrite dispatched_emit, decide_True, H4 by (by rewrite Hmsg). rewrite Hmsg, Hn.
    replace (Z.to_nat (Z.of_nat i + 1)) with (S i) by lia. rewrite (deliveries_snoc _ _ _ _ Hp). do 3 f_equal. lia.
Qed.

Lemma receive_one_inv s0 lane relayer st m self :
  lane_inv s0 lane self -> genuine lane m -> Z.of_nat (length (sent lane)) <= u64_MAX ->
  wlp (receive_one lane relayer st m) (fun _ => lane_inv s0 lane) self.
Proof.
  intros Hinv Hm Hmax. unfold receive_one. destruct st as [p r]. destruct (negb _); [done|].
  apply wlp_bind, wlp_lift. intros total _. destruct (Weight.any_gt _ _); [done|].
  apply wlp_bind. eapply wlp_mono; [by apply receive_message_inv|]. intros result self' Hinv'.
  apply wlp_bind. apply (wlp_mono _ (fun _ => lane_inv s0 lane)).
  - destruct result; [apply wlp_bind, wlp_lift; by intros|done..].
  - intros [valid unspent] self'' Hinv''. do 2 (apply wlp_bind, wlp_lift; intros ? _). done.
Qed.

(** The messages of a proof. *)
Definition genuine_proof (proved : ProvedMessages (DispatchMessage InboundPayload)) : Prop :=
  forall lane ld, (lane, ld) ∈ proved ->
    (forall o, lane_state ld = Some o -> genuine_state lane o) /\ (forall m, m ∈ proved_messages ld -> genuine lane m).

Lemma wlp_with_lane {E A} lane (op : ST RuntimeInboundLaneStorage E A) (Q : A -> Pallet -> Prop) s :
  wlp op (fun a self => Q a (pallet self)) (from_lane_id s lane) -> wlp (with_inbound_lane lane op) Q s.
Proof. unfold wlp, with_inbound_lane. by destruct (op (from_lane_id s lane)) as [self [a|e|]]. Qed.

Definition delivery_inv s0 s : Prop := inbound_ok s /\ forall lane, last_delivered s0 lane <= last_delivered s lane.

Lemma receive_lane_inv s0 relayer st entry proved s :
  (forall lane, Z.of_nat (length (sent lane)) <= u64_MAX) -> genuine_proof proved -> entry ∈ proved ->
  delivery_inv s0 s -> wlp (receive_lane relayer st entry) (fun _ => delivery_inv s0) s.
Proof.
  intros Hmax Hgen Hin [Hok Hmon]. destruct st as [p status], entry as [lane ld]. destruct (Hgen _ _ Hin) as [Hst Hms].
  unfold receive_lane. apply wlp_with_lane.
  apply (wlp_mono _ (fun _ => lane_inv s0 lane)); [|by intros _ self (_ & _ & ?)].
  assert (Hinv : lane_inv s0 lane (from_lane_id s lane)) by done.
  apply wlp_bind. apply (wlp_mono _ (fun _ => lane_inv s0 lane)).
  { unfold extra_proof_size_bytes. apply wlp_bind. unfold wlp. by apply get_data_inv in Hinv. }
  clear Hinv. intros extra self Hinv. apply wlp_bind. apply (wlp_mono _ (fun _ => lane_inv s0 lane)).
  { destruct (lane_state ld) as [o|] eqn:Ho; [|done]. apply state_update_inv; [done|by apply Hst]. }
  clear self Hinv. intros _ self Hinv. apply wlp_bind. apply (wlp_mono _ (fun _ => lane_inv s0 lane)).
  { apply wlp_for; [done|]. intros m a self' Hm Hinv'. apply receive_one_inv; [done|by apply Hms|done]. }
  by intros [p' r] self' Hinv'.
Qed.

Lemma inbound_part_inv s0 s s' : inbound_part s' = inbound_part s -> delivery_inv s0 s -> delivery_inv s0 s'.
Proof.
  intros [= Hl Hd] [Hok Hmon]. assert (Hdat : forall lane, inbound_lane_data s' lane = inbound_lane_data s lane)
    by (intros lane; unfold inbound_lane_data; by rewrite Hl).
  split; [|intros lane; unfold last_delivered; rewrite Hdat; apply Hmon]. intros lane.
  apply (inbound_ok_at_ext s); [apply Hdat|unfold dispatched; by rewrite Hd|apply Hok].
Qed.

Lemma receive_messages_inv origin relayer proof count w s :
  (forall lane, Z.of_nat (length (sent lane)) <= u64_MAX) -> inbound_ok s ->
  (forall proved, verify_and_decode_messages_proof proof count = inr proved -> genuine_proof proved) ->
  wlp (receive_messages_proof origin relayer proof count w) (fun _ => delivery_inv s) s.
Proof.
  intros Hmax Hok Hgen. unfold receive_messages_proof. apply wlp_bind.
  apply (wlp_mono _ (fun _ s' => s' = s)).
  { unfold ensure_not_halted, wlp, mbind, st_bind, st_get. by destruct (is_halted _). }
  intros _ s' ->. apply wlp_bind, wlp_lift. intros who _. apply wlp_bind, wlp_get.
  destruct (_ <? _); [done|]. destruct (negb _); [done|]. cbv zeta.
  destruct (verify_and_decode_messages_proof proof count) as [|ms]; [done|]. apply wlp_bind.
  apply (wlp_mono _ (fun _ => delivery_inv s)).
  { apply wlp_for; [by split|]. intros entry a s' Hin Hinv. by eapply receive_lane_inv; [|apply Hgen|..]. }
  intros [p status] s' Hinv. unfold wlp. cbn.
  apply (inbound_part_inv s s'); [|done]. unfold inbound_part, deposit_event. rewrite !dispatches_emit. by rewrite !app_nil_r.
Qed.
End incoming.

(** ** The next message is accepted *)

(** After the confirmation of everything that was delivered, the lane is empty. *)
Lemma state_update_clears lane self o :
  rt_lane_id self = lane -> lane_ok (stored self) -> latest_received_nonce o = InboundLaneData.last_delivered_nonce (stored self) ->
  exists self' r, InboundLane.receive_state_update (E := DispatchError) o self = (self', Ok r) /\ rt_lane_id self' = lane /\
    stored self' = mkInbound [] (latest_received_nonce o) /\ dispatches (pallet self') = dispatches (pallet self).
Proof.
  intros Hid Hok Ho. pose proof (receive_state_update_spec (E := DispatchError) self o) as Hspec. cbn zeta in Hspec.
  specialize (Hspec Hok). assert (Hget : rt_lane_id (get_or_init_data self).1 = rt_lane_id self /\
    pallet (get_or_init_data self).1 = pallet self) by (simpl; by destruct (cached_data self)). destruct Hget as [Hg1 Hg2].
  case_bool_decide as Hn.
  - destruct Hspec as (l' & -> & [Hcov _] & Hlast & _). rewrite last_delivered_upto in Hlast. cbn [relayers last_confirmed_nonce] in *.
    apply covers_nil in Hcov; [|lia]. subst l'. eexists _, _. split; [done|].
    cbn [set_data runtime_inbound_lane_storage rt_lane_id pallet]. rewrite Hg1, Hg2. done.
  - rewrite Hspec. eexists _, _. split; [done|]. rewrite Hg1, Hg2, stored_get_or_init_data. split; [done|]. split; [|done].
    pose proof (lane_ok_order _ Hok) as Hord. remember (stored self) as d eqn:Hd. destruct d as [l c]. cbn [last_confirmed_nonce] in *.
    assert (c = latest_received_nonce o) as -> by lia. f_equal. apply (covers_nil (latest_received_nonce o)); [apply Hok|].
    by rewrite Ho at 2.
Qed.

Lemma receive_one_accepts lane relayer p self m n :
  rt_lane_id self = lane -> stored self = mkInbound [] n -> 0 <= n < u64_MAX ->
  lane_id (dispatch_key m) = lane -> nonce (dispatch_key m) = n + 1 ->
  1 <= MaxUnrewardedRelayerEntriesAtInboundLane T -> 1 <= MaxUnconfirmedMessagesAtInboundLane T ->
  within (dispatch_weight T m) (dispatch_weight_left p) ->
  (forall tr m', in_range (unspent_weight (dispatch T tr m'))) -> in_range (dispatch_weight T m) ->
  0 <= seen_messages p < u64_MAX -> 0 <= valid_messages p < u64_MAX ->
  exists self' st, receive_one lane relayer (p, []) m self = (self', Ok st) /\
    dispatches (pallet self') = dispatches (pallet self) ++ [m].
Proof.
  intros Hid Hst Hn Hl Hm He Hu Hw Hdr Hmr Hs Hv. unfold receive_one. rewrite (proj2 (Z.eqb_eq _ _) Hl). cbn [negb].
  rewrite (st_lift_ok _ _ _ (seen_messages p + 1)) by (apply add_u_ok; unfold u64_MAX in *; lia). cbv zeta.
  rewrite any_gt_spec, bool_decide_true by done. cbn [negb].
  destruct (call_dispatch (mkDispatch (mkKey (storage_id (get_or_init_data self).1) (nonce (dispatch_key m))) (data m))
    (get_or_init_data self).1) as [self1 result] eqn:Hcall.
  destruct (receive_message_accepts (E := DispatchError) call_dispatch self relayer (nonce (dispatch_key m)) (data m) self1 result)
    as (l' & Hrun & _); [..|done|].
  { rewrite Hst. split; [done|]. split; [simpl; lia|]. unfold InboundLaneData.last_delivered_nonce. simpl. lia. }
  { rewrite Hst, Hm. unfold acceptable, InboundLaneData.last_delivered_nonce. simpl. unfold u64_MAX in *.
    rewrite Z.eqb_refl, !(proj2 (Z.leb_le _ _)), (proj2 (Z.ltb_lt _ _)) by lia. done. }
  rewrite (st_bind_ok _ _ _ _ _ Hrun).
  rewrite (st_bind_ok _ _ _ _ (valid_messages p + 1, unspent_weight result))
    by (rewrite (st_lift_ok _ _ _ (valid_messages p + 1)); [done|apply add_u_ok; unfold u64_MAX in *; lia]).
  assert (Hres : in_range (unspent_weight result)) by (unfold call_dispatch in Hcall; injection Hcall as _ <-; apply Hdr).
  assert (Hget : rt_lane_id (get_or_init_data self).1 = rt_lane_id self /\
    pallet (get_or_init_data self).1 = pallet self) by (simpl; by destruct (cached_data self)).
  set (u := Weight.min (unspent_weight result) (dispatch_weight T m)).
  assert (Hu1 : within u (dispatch_weight T m)) by (unfold u, within, Weight.min; simpl; lia).
  assert (Hu2 : within (minus (dispatch_weight T m) u) (dispatch_weight_left p))
    by (unfold u, within, minus, Weight.min, in_range, in_u in *; simpl in *; lia).
  rewrite (st_lift_ok _ _ _ (minus (dispatch_weight T m) u)) by (by rewrite sub_spec, bool_decide_true).
  erewrite st_lift_ok by (by rewrite sub_spec, bool_decide_true).
  eexists _, _. split; [done|]. destruct Hget as [Hg1 Hg2]. set (self0 := (get_or_init_data self).1) in *. clearbody self0.
  unfold call_dispatch in Hcall. injection Hcall as <- _.
  cbn [set_data runtime_inbound_lane_storage pallet]. rewrite Hg2.
  change (dispatches (set_lanes ?s _)) with (dispatches s). rewrite dispatches_emit. do 2 f_equal.
  cbn [storage_id runtime_inbound_lane_storage]. rewrite Hg1, Hid, <- Hl. by destruct m as [[] ].
Qed.

Lemma receive_next_accepts who relayer proof w lane o m t :
  is_halted (PalletOperatingMode t) = false -> is_active T (effects t) = true ->
  verify_messages_proof T proof 1 = inr [(lane, mkProved (Some o) [m])] ->
  lane_ok (inbound_lane_data t lane) -> last_delivered t lane < u64_MAX -> latest_received_nonce o = last_delivered t lane ->
  lane_id (key m) = lane -> nonce (key m) = last_delivered t lane + 1 ->
  1 <= MaxUnrewardedRelayerEntriesAtInboundLane T -> 1 <= MaxUnconfirmedMessagesAtInboundLane T ->
  (forall tr m', in_range (unspent_weight (dispatch T tr m'))) -> (forall m', in_range (dispatch_weight T m')) ->
  within (dispatch_weight T (mkDispatch (key m) (decode T (payload m)))) w ->
  exists t' weight, receive_messages_proof (Signed who) relayer proof 1 w t = (t', Ok weight) /\
    dispatches t' = dispatches t ++ [mkDispatch (key m) (decode T (payload m))].
Proof.
  intros Hmode Hact Hver Hok Hmax Ho Hl Hn He Hu Hdr Hmr Hw. unfold receive_messages_proof.
  rewrite (st_bind_ok _ _ _ _ _ (ensure_not_halted_ok t Hmode)). rewrite (st_lift_ok _ _ _ who) by done.
  erewrite st_bind_ok by done. rewrite (proj2 (Z.ltb_ge _ _)) by lia. rewrite Hact. cbn [negb]. cbv zeta.
  unfold verify_and_decode_messages_proof. rewrite Hver. cbn [fmap list_fmap lane_state proved_messages].
  set (p0 := mkProgress 0 0 w _).
  set (m' := mkDispatch (key m) (decode T (payload m))) in *.
  assert (Hlane : exists t1 st, receive_lane relayer (p0, []) (lane, mkProved (Some o) [m']) t = (t1, Ok st) /\
    dispatches t1 = dispatches t ++ [m']).
  { unfold receive_lane, with_inbound_lane. pose proof (lane_ok_order _ Hok) as Hord.
    assert (H0 : 0 <= last_delivered t lane) by (destruct Hok as (_ & H0 & _); unfold last_delivered; lia).
    assert (Hextra : exists extra, extra_proof_size_bytes (E := DispatchError) (from_lane_id t lane) =
      ((get_or_init_data (from_lane_id t lane)).1, Ok extra)) by (eexists; unfold extra_proof_size_bytes; by rewrite (st_bind_ok _ _ _ _ _ (get_data_eq _))).
    destruct Hextra as [extra Hextra]. rewrite (st_bind_ok _ _ _ _ _ Hextra). cbv zeta.
    destruct (state_update_clears lane (get_or_init_data (from_lane_id t lane)).1 o) as (self1 & r & H1 & H2 & H3 & H4); [done..|].
    cbn [lane_state proved_messages]. rewrite (st_bind_ok _ _ _ _ _ H1).
    edestruct (receive_one_accepts lane relayer) as (self2 & st & H5 & H6); cycle -1.
    { cbn [st_for]. erewrite st_bind_ok by (rewrite (st_bind_ok _ _ _ _ _ H5); done). destruct st as [p1 r1].
      eexists _, _. split; [done|]. cbn [pallet]. by rewrite H6, H4. }
    all: try done; simpl; try lia; rewrite ?H3, ?Ho; try done. }
  destruct Hlane as (t1 & [p1 status] & Ht1 & Hd1). cbn [st_for].
  erewrite st_bind_ok by (rewrite (st_bind_ok _ _ _ _ _ Ht1); done). eexists _, _. split; [done|].
  unfold deposit_event. rewrite !dispatches_emit, Hd1. by rewrite !app_nil_r.
Qed.

(** ** Outgoing messages *)
Section outgoing.
Implicit Types (sent : Z -> list MessagePayload).

Definition latest_received s lane : Z := latest_received_nonce (outbound_lane_data s lane).

Record outbound_ok_at sent s lane : Prop := mk_outbound_ok {
  out_received : 0 <= latest_received s lane <= latest_generated_nonce (outbound_lane_data s lane);
  out_sent : latest_generated_nonce (outbound_lane_data s lane) = Z.of_nat (length (sent lane));
  out_oldest : 1 <= oldest_unpruned_nonce (outbound_lane_data s lane) <= latest_received s lane + 1;
  out_stored n p : outbound_message_data s lane n = Some p -> exists i, n = Z.of_nat i + 1 /\ sent lane !! i = Some p;
  out_kept i : latest_received s lane <= Z.of_nat i -> outbound_message_data s lane (Z.of_nat i + 1) = sent lane !! i;
}.

Definition outbound_ok sent s : Prop := forall lane, outbound_ok_at sent s lane.

(** What there is to see of a lane. *)
Definition out_view lane n s := (outbound_lane_data s lane, outbound_message_data s lane n).

Lemma outbound_ok_at_ext sent sent' s s' lane :
  sent' lane = sent lane -> (forall n, out_view lane n s' = out_view lane n s) -> outbound_ok_at sent s lane -> outbound_ok_at sent' s' lane.
Proof.
  intros Hs Hv [H1 H2 H3 H4 H5]. assert (Hd : outbound_lane_data s' lane = outbound_lane_data s lane)
    by (specialize (Hv 0); by injection Hv).
  assert (Hm : forall n, outbound_message_data s' lane n = outbound_message_data s lane n)
    by (intros n; specialize (Hv n); by injection Hv).
  split; unfold latest_received in *; rewrite ?Hd, ?Hs; [done..| |].
  - intros n p. rewrite Hm. apply H4.
  - intros i. rewrite Hm. apply H5.
Qed.

(** Operations on one lane leave the others alone. *)
Section other_lane.
Variables (lane lane' : LaneId).
Hypothesis (Hne : lane <> lane').

Lemma set_outbound_data_other {E} n d :
  keeps (E := E) (out_view lane' n) (st_modify (@set_outbound_data _ _ (runtime_outbound_lane_storage lane) d)).
Proof. apply keeps_modify. intros s. unfold out_view, outbound_lane_data. simpl. by rewrite lookup_insert_ne. Qed.

Lemma save_message_other {E} n k p :
  keeps (E := E) (out_view lane' n) (st_modify (@save_message _ _ (runtime_outbound_lane_storage lane) k p)).
Proof.
  apply keeps_modify. intros s. unfold out_view, outbound_message_data. simpl. rewrite lookup_insert_ne; [done|]. by intros [=].
Qed.

Lemma remove_message_other {E} n k :
  keeps (E := E) (out_view lane' n) (st_modify (@remove_message _ _ (runtime_outbound_lane_storage lane) k)).
Proof.
  apply keeps_modify. intros s. unfold out_view, outbound_message_data. simpl. rewrite lookup_delete_ne; [done|]. by intros [=].
Qed.
#[local] Hint Resolve set_outbound_data_other save_message_other remove_message_other : frame.

Lemma send_message_other {E} n p :
  keeps (E := E) (out_view lane' n) (@OutboundLane.send_message _ _ (runtime_outbound_lane_storage lane) _ p).
Proof. unfold OutboundLane.send_message. solve_keeps. Qed.

Lemma confirm_delivery_other {R} n a b (l : list (UnrewardedRelayer R)) :
  keeps (out_view lane' n) (@OutboundLane.confirm_delivery _ _ (runtime_outbound_lane_storage lane) R a b l).
Proof. unfold OutboundLane.confirm_delivery. solve_keeps. Qed.

Lemma prune_loop_other {E} n fuel w ww oldest latest spent remaining :
  keeps (out_view lane' n) (@OutboundLane.prune_loop _ _ (runtime_outbound_lane_storage lane) E fuel w ww oldest latest spent remaining).
Proof.
  revert oldest spent remaining. induction fuel as [|fuel IH]; intros; simpl; [apply keeps_ret|]. solve_keeps. apply remove_message_other.
Qed.
#[local] Hint Resolve prune_loop_other : frame.

Lemma prune_messages_other {E} n db w :
  keeps (out_view lane' n) (@OutboundLane.prune_messages _ _ (runtime_outbound_lane_storage lane) E db w).
Proof. unfold OutboundLane.prune_messages. solve_keeps. Qed.
End other_lane.

(** An operation on one lane, seen on all of them. *)
Lemma wlp_lane {E A} lane (op : ST Pallet E A) sent sent' s :
  (forall lane' n, lane <> lane' -> keeps (out_view lane' n) op) -> (forall lane', lane <> lane' -> sent' lane' = sent lane') ->
  outbound_ok sent s -> wlp op (fun _ s' => outbound_ok_at sent' s' lane) s ->
  wlp op (fun _ s' => outbound_ok sent' s' /\ forall lane', lane <> lane' -> latest_received s' lane' = latest_received s lane') s.
Proof.
  intros Hkeep Hsame Hok Hop. unfold wlp in *. pose proof (fun lane' n Hne => Hkeep lane' n Hne s) as Hk.
  destruct (op s) as [s' [a|e|]]; [|done..]. simpl in Hk. split.
  - intros lane'. destruct (decide (lane = lane')) as [<-|Hne]; [done|].
    apply (outbound_ok_at_ext sent _ s); [by apply Hsame|intros n; by apply Hk|apply Hok].
  - intros lane' Hne. specialize (Hk lane' 0 Hne). injection Hk as Hk _. unfold latest_received. by rewrite Hk.
Qed.

Definition push_sent sent lane p : Z -> list MessagePayload := fun lane' => if decide (lane = lane') then sent lane' ++ [p] else sent lane'.

Lemma send_message_ok {E} sent lane p s :
  outbound_ok_at sent s lane ->
  wlp (E := E) (@OutboundLane.send_message _ _ (runtime_outbound_lane_storage lane) E p)
    (fun _ s' => outbound_ok_at (push_sent sent lane p) s' lane /\ latest_received s' lane = latest_received s lane) s.
Proof.
  intros [H1 H2 H3 H4 H5]. unfold OutboundLane.send_message. apply wlp_bind, wlp_get. cbv zeta. apply wlp_bind, wlp_lift. intros n Hn. unfold add_u, checked_add in Hn. case_cmp; [|done]. injection Hn as <-.
  do 2 apply wlp_bind, wlp_modify. unfold wlp. cbn.
  unfold latest_received, outbound_lane_data, outbound_message_data in *. cbn in *. rewrite lookup_insert_eq.
  split; [|done]. set (o := default OutboundLaneData.default (OutboundLanes s !! lane)) in *.
  unfold push_sent. split; unfold latest_received, outbound_lane_data, outbound_message_data; cbn; rewrite ?lookup_insert_eq; cbn;
    rewrite ?decide_True by done.
  - lia.
  - rewrite length_app. simpl. lia.
  - done.
  - intros k q. rewrite lookup_insert. case_decide as Hk.
    + intros [= ->]. exists (length (sent lane)). split; [injection Hk; lia|]. by rewrite lookup_app_r, Nat.sub_diag by lia.
    + intros Hq. destruct (H4 k q Hq) as (i & Hi & Hp). exists i. split; [done|]. by apply lookup_app_l_Some.
  - intros i Hi. rewrite lookup_insert. case_decide as Hk.
    + assert (i = length (sent lane)) as -> by (injection Hk; lia). by rewrite lookup_app_r, Nat.sub_diag by lia.
    + rewrite H5 by done. assert (i <> length (sent lane)) by (intros ->; apply Hk; f_equal; lia).
      destruct (decide (i < length (sent lane))%nat); [by rewrite lookup_app_l|].
      rewrite !lookup_ge_None_2; [done|rewrite length_app; simpl; lia|lia].
Qed.

Lemma confirm_delivery_ok {R} sent lane (d : InboundLaneData R) max_allowed s :
  outbound_ok_at sent s lane -> Z.of_nat (length (sent lane)) < u64_MAX -> lane_ok d ->
  wlp (@OutboundLane.confirm_delivery _ _ (runtime_outbound_lane_storage lane) R max_allowed (InboundLaneData.last_delivered_nonce d) (relayers d))
    (fun _ s' => outbound_ok_at sent s' lane /\
       latest_received s' lane = Z.max (latest_received s lane) (InboundLaneData.last_delivered_nonce d)) s.
Proof.
  intros Hok Hmax Hd. pose proof Hok as [H1 H2 H3 H4 H5]. unfold wlp.
  pose proof (confirm_delivery_spec (H := runtime_outbound_lane_storage lane) s d max_allowed) as Hspec. cbn zeta in Hspec.
  rewrite Hspec by (done || unfold latest_received in *; simpl; lia). clear Hspec.
  cbn [outbound_data set_outbound_data runtime_outbound_lane_storage]. unfold latest_received in *.
  destruct (Z.leb_spec (InboundLaneData.last_delivered_nonce d) (latest_received_nonce (outbound_lane_data s lane))).
  { split; [done|lia]. }
  do 2 (case_cmp; [done|]). unfold latest_received, outbound_lane_data, outbound_message_data in *. cbn. rewrite lookup_insert_eq. cbn. split; [|lia].
  split; unfold latest_received, outbound_lane_data, outbound_message_data; cbn; rewrite ?lookup_insert_eq; cbn; try done; try lia.
  intros i Hi. apply H5. lia.
Qed.

Lemma prune_loop_ok {E} lane fuel w ww oldest latest spent remaining s :
  wlp (@OutboundLane.prune_loop _ _ (runtime_outbound_lane_storage lane) E fuel w ww oldest latest spent remaining)
    (fun '(oldest', _) s' => outbound_lane_data s' lane = outbound_lane_data s lane /\
       oldest <= oldest' <= Z.max oldest (latest + 1) /\
       (forall n p, outbound_message_data s' lane n = Some p -> outbound_message_data s lane n = Some p) /\
       (forall n, latest < n -> outbound_message_data s' lane n = outbound_message_data s lane n)) s.
Proof.
  revert oldest spent remaining s. induction fuel as [|fuel IH]; intros oldest spent remaining s.
  { unfold wlp. simpl. split_and!; [done|lia..|done|done]. }
  cbn [OutboundLane.prune_loop]. destruct (Weight.all_gte _ _ && _) eqn:Hgo; [|unfold wlp; simpl; split_and!; [done|lia..|done|done]].
  apply andb_true_iff in Hgo as [_ Hle%Z.leb_le]. apply wlp_bind, wlp_modify.
  do 2 (apply wlp_bind, wlp_lift; intros ? _). apply wlp_bind, wlp_lift. intros oldest1 Ho.
  unfold add_u, checked_add in Ho. case_cmp; [|done]. injection Ho as <-.
  eapply wlp_mono; [apply IH|]. intros [oldest' spent'] s' (Hd & Hb & Hm & Hk).
  unfold outbound_lane_data, outbound_message_data in *. cbn in *. split_and!; [done|lia..| |].
  - intros n p Hn%Hm. apply lookup_delete_Some in Hn. tauto.
  - intros n Hn. rewrite Hk by done. apply lookup_delete_ne. intros [=]. lia.
Qed.

Lemma prune_messages_ok {E} sent lane db w s :
  outbound_ok_at sent s lane ->
  wlp (@OutboundLane.prune_messages _ _ (runtime_outbound_lane_storage lane) E db w)
    (fun _ s' => outbound_ok_at sent s' lane /\ latest_received s' lane = latest_received s lane) s.
Proof.
  intros [H1 H2 H3 H4 H5]. unfold OutboundLane.prune_messages. apply wlp_bind, wlp_lift. intros ww _.
  apply wlp_bind, wlp_get. cbv zeta. apply wlp_bind. eapply wlp_mono; [apply prune_loop_ok|].
  intros [oldest spent] s' (Hd & Hb & Hm & Hk). unfold latest_received in *. cbn [outbound_data runtime_outbound_lane_storage] in *.
  assert (Hok : forall d, latest_received_nonce d = latest_received_nonce (outbound_lane_data s lane) ->
      latest_generated_nonce d = latest_generated_nonce (outbound_lane_data s lane) ->
      1 <= oldest_unpruned_nonce d <= latest_received_nonce d + 1 ->
      forall s'', outbound_lane_data s'' lane = d -> (forall n, outbound_message_data s'' lane n = outbound_message_data s' lane n) ->
      outbound_ok_at sent s'' lane /\ latest_received_nonce (outbound_lane_data s'' lane) = latest_received_nonce (outbound_lane_data s lane)).
  { intros d Hr Hg Ho s'' Hd'' Hm''. split; [|by rewrite Hd'']. split; unfold latest_received; rewrite ?Hd''; [lia|lia|done| |].
    - intros n p. rewrite Hm''. intros Hn%Hm. by apply H4.
    - intros i Hi. rewrite Hm'', Hk by lia. apply H5. lia. }
  destruct (negb _).
  - apply wlp_bind, wlp_lift. intros spent' _. apply wlp_bind, wlp_modify. unfold wlp. cbn.
    apply (Hok (mkOutbound oldest (latest_received_nonce (outbound_lane_data s lane)) (latest_generated_nonce (outbound_lane_data s lane)))); cbn; try done; [lia|].
    unfold outbound_lane_data. cbn. by rewrite lookup_insert_eq.
  - unfold wlp. cbn. apply (Hok (outbound_lane_data s lane)); [done|done|lia|done|done].
Qed.

(** A later state of the outbound lanes. *)
Definition outbound_later sent (bound : Z -> Z) s s' : Prop :=
  outbound_ok sent s' /\
  forall lane, latest_received s lane <= latest_received s' lane <= Z.max (latest_received s lane) (bound lane).

Lemma outbound_later_part sent bound s s' s'' :
  outbound_part s'' = outbound_part s' -> outbound_later sent bound s s' -> outbound_later sent bound s s''.
Proof.
  intros [= Hl Hm] [Hok Hr]. assert (Hv : forall lane n, out_view lane n s'' = out_view lane n s').
  { intros. unfold out_view, outbound_lane_data, outbound_message_data. by rewrite Hl, Hm. }
  split; [intros lane; by apply (outbound_ok_at_ext sent _ s')|]. intros lane. specialize (Hv lane 0). injection Hv as Hv _.
  unfold latest_received in *. rewrite Hv. apply Hr.
Qed.

(** From one lane to all. *)
Lemma outbound_later_lane {E A} lane (op : ST Pallet E A) sent sent' bound s :
  (forall lane' n, lane <> lane' -> keeps (out_view lane' n) op) -> (forall lane', lane <> lane' -> sent' lane' = sent lane') ->
  outbound_ok sent s ->
  wlp op (fun _ s' => outbound_ok_at sent' s' lane /\
    latest_received s lane <= latest_received s' lane <= Z.max (latest_received s lane) (bound lane)) s ->
  wlp op (fun _ => outbound_later sent' bound s) s.
Proof.
  intros Hk Hs Hok Hop. pose proof (wlp_lane lane op sent sent' s Hk Hs Hok) as Hl. unfold wlp in *.
  destruct (op s) as [s' [a|e|]]; [|done..]. destruct Hop as [Hop Hr], Hl as [Hl Hr']; [done|]. split; [done|].
  intros lane'. destruct (decide (lane = lane')) as [<-|Hne]; [done|]. rewrite Hr' by done. lia.
Qed.

Lemma validate_message_eq lane m s :
  wlp (validate_message lane m) (fun args s' => s' = s /\ args = mkSendArgs lane (encode T m)) s.
Proof.
  unfold validate_message, ensure_normal_operating_mode. apply wlp_bind, wlp_bind, wlp_get.
  destruct (bool_decide (PalletOperatingMode s = _)); [|done]. unfold wlp at 1. cbn.
  destruct (negb _); [done|]. destruct (verify_message T m); [done|]. by destruct (_ <=? _).
Qed.

Lemma send_ok sent lane m s :
  outbound_ok sent s ->
  wlp (validate_and_send lane m) (fun _ => outbound_later (push_sent sent lane (encode T m)) (latest_received s) s) s.
Proof.
  intros Hok. unfold validate_and_send. apply wlp_bind. eapply wlp_mono; [apply validate_message_eq|].
  intros args s' [-> ->]. unfold send_message. cbn [send_lane send_payload]. apply wlp_bind.
  eapply wlp_mono; [apply (outbound_later_lane lane _ sent (push_sent sent lane (encode T m)) (latest_received s))|].
  - intros. by apply send_message_other.
  - intros lane' Hne. unfold push_sent. by rewrite decide_False.
  - done.
  - eapply wlp_mono; [apply send_message_ok, Hok|]. intros _ s' [H1 H2]. split; [done|]. rewrite H2. lia.
  - intros n s' Hs'. apply wlp_bind, wlp_get, wlp_bind, wlp_lift. intros q _. apply wlp_bind, wlp_modify.
    by apply (outbound_later_part _ _ s s').
Qed.

Lemma receive_delivery_ok sent bound origin proof rs s :
  outbound_ok sent s -> (forall lane, Z.of_nat (length (sent lane)) < u64_MAX) ->
  (forall lane d, verify_messages_delivery_proof T proof = inr (lane, d) ->
     lane_ok d /\ InboundLaneData.last_delivered_nonce d <= bound lane) ->
  wlp (receive_messages_delivery_proof origin proof rs) (fun _ => outbound_later sent bound s) s.
Proof.
  intros Hok Hmax Hver. unfold receive_messages_delivery_proof. apply wlp_bind.
  eapply (wlp_mono _ (fun _ s' => s' = s)); [unfold ensure_not_halted, wlp, mbind, st_bind, st_get; by destruct (is_halted _)|].
  intros _ s' ->. cbv zeta. apply wlp_bind, wlp_lift. intros who _.
  destruct (verify_messages_delivery_proof T proof) as [|[lane d]]; [done|]. destruct (Hver lane d eq_refl) as [Hd Hb].
  destruct (negb _); [done|]. apply wlp_bind. apply (wlp_mono _ (fun _ => outbound_later sent bound s)).
  { apply wlp_map_err. apply (outbound_later_lane lane _ sent); [intros; by apply confirm_delivery_other|done|done|].
    eapply wlp_mono; [by apply confirm_delivery_ok|]. intros _ s' [H1 H2]. split; [done|]. rewrite H2. lia. }
  intros confirmed s' Hs'. apply wlp_bind. apply (wlp_mono _ (fun _ => outbound_later sent bound s)).
  { destruct confirmed; [|done]. do 2 apply wlp_bind, wlp_modify. by apply (outbound_later_part _ _ s s'). }
  clear s' Hs'. intros rs' s' Hs'. apply wlp_bind, wlp_get, wlp_bind, wlp_lift. intros q _. apply wlp_bind, wlp_modify.
  by apply (outbound_later_part _ _ s s').
Qed.

Lemma on_idle_ok {E} sent b w s :
  outbound_ok sent s -> wlp (on_idle (E := E) b w) (fun _ => outbound_later sent (latest_received s) s) s.
Proof.
  intros Hok. unfold on_idle. assert (Hs : outbound_later sent (latest_received s) s s) by (split; [done|lia]).
  destruct (negb _); [done|]. destruct (_ =? _); [done|]. apply wlp_bind, wlp_lift. intros lane _.
  apply wlp_bind, wlp_lift. intros remaining _. apply wlp_bind. apply (wlp_mono _ (fun _ => outbound_later sent (latest_received s) s)).
  - apply (outbound_later_lane lane _ sent); [intros; by apply prune_messages_other|done|done|].
    eapply wlp_mono; [apply prune_messages_ok, Hok|]. intros _ s' [H1 H2]. split; [done|]. rewrite H2. lia.
  - intros pruned s' Hs'. by apply wlp_lift.
Qed.

(** A proof of data that fits the lane is accepted. *)
Lemma receive_delivery_accepts sent who proof lane d s :
  outbound_ok sent s -> Z.of_nat (length (sent lane)) < u64_MAX -> is_halted (PalletOperatingMode s) = false ->
  verify_messages_delivery_proof T proof = inr (lane, d) -> lane_ok d ->
  InboundLaneData.last_delivered_nonce d <= Z.of_nat (length (sent lane)) -> last_confirmed_nonce d <= latest_received s lane ->
  exists s' weight,
    receive_messages_delivery_proof (Signed who) proof (UnrewardedRelayersState.from d) s = (s', Ok weight) /\
    latest_received s' lane = Z.max (latest_received s lane) (InboundLaneData.last_delivered_nonce d).
Proof.
  intros Hok Hmax Hmode Hver Hd Htop Hconf. destruct (Hok lane) as [H1 H2 _ _ _].
  unfold latest_received in *.
  assert (Hconfirm : exists s1 c, @OutboundLane.confirm_delivery _ _ (runtime_outbound_lane_storage lane) AccountId
      (InboundLaneData.total_unrewarded_messages d) (InboundLaneData.last_delivered_nonce d) (relayers d) s = (s1, Ok c) /\
    latest_received_nonce (outbound_lane_data s1 lane) =
      Z.max (latest_received_nonce (outbound_lane_data s lane)) (InboundLaneData.last_delivered_nonce d)).
  { pose proof (confirm_delivery_spec (H := runtime_outbound_lane_storage lane) s d) as Hspec. cbn zeta in Hspec.
    rewrite Hspec by (done || simpl; lia). rewrite (total_unrewarded d Hd). cbn [outbound_data set_outbound_data runtime_outbound_lane_storage].
    destruct (Z.leb_spec (InboundLaneData.last_delivered_nonce d) (latest_received_nonce (outbound_lane_data s lane))).
    { exists s, None. split; [done|lia]. }
    do 2 (case_cmp; [lia|]). eexists _, _. split; [done|]. unfold outbound_lane_data. cbn. rewrite lookup_insert_eq. cbn.
    unfold outbound_lane_data in *. lia. }
  destruct Hconfirm as (s1 & c & Hs1 & Hr1). unfold receive_messages_delivery_proof.
  rewrite (st_bind_ok _ _ _ _ _ (ensure_not_halted_ok s Hmode)). cbv zeta. rewrite (st_lift_ok _ _ _ who) by done. rewrite Hver.
  unfold UnrewardedRelayersState.is_valid. rewrite bool_decide_true by done. cbn [negb total_messages UnrewardedRelayersState.from].
  erewrite st_bind_ok by (unfold st_map_err; by rewrite Hs1).
  assert (Hrs : forall (rs : UnrewardedRelayersState) s2, latest_received_nonce (outbound_lane_data s2 lane) = latest_received_nonce (outbound_lane_data s1 lane) ->
    exists s' weight, (s ← st_get; queued ← st_lift (OutboundLaneData.queued_messages (outbound_lane_data s lane));
        _ ← st_modify (emit (OnMessagesDelivered lane (saturating_len queued.1 queued.2)));
        mret (receive_messages_delivery_proof_weight T (delivery_proof_size T proof) rs)) s2 = (s', Ok (E := DispatchError) weight) /\
      latest_received_nonce (outbound_lane_data s' lane) =
        Z.max (latest_received_nonce (outbound_lane_data s lane)) (InboundLaneData.last_delivered_nonce d)).
  { intros rs s2 Hs2. erewrite st_bind_ok by done. unfold OutboundLaneData.queued_messages.
    erewrite st_lift_ok by (rewrite add_u_ok; [done|rewrite Hs2, Hr1; unfold u64_MAX in *; lia]).
    eexists _, _. split; [done|]. unfold outbound_lane_data in *. cbn. by rewrite Hs2. }
  destruct c as [c|]; unfold mbind at 1, st_bind at 1; cbn -[mbind]; by apply Hrs.
Qed.
End outgoing.
End pallet.
