(* ===== verification/Bridge.v ===== *)
(** * A bridge: two chains with the messages pallet

    The system of a source and a target chain that run [pallet-bridge-messages]
    and learn of each other only through proofs.  Any call may be made on either
    chain at any time by anyone, the calls of the other direction included.  A
    proof that verifies shows data that the other chain had in its storage at some
    time, perhaps long ago: this is what the traits [SourceHeaderChain] and
    [TargetHeaderChain] ask of an implementation, and it is the only assumption.

    The theorems follow one direction: the messages of a lane are dispatched in
    the order in which they were sent, each once and none invented; they are kept
    until they are delivered; a genuine delivery proof is never refused; and a lane
    never gets stuck. *)
From stdpp Require Import base gmap list.
From Stdlib Require Import ZArith Lia.
From S2P Require Import Prelude Weights MessageLanes MessagesPallet.
Set Warnings "-clear-no-such-hyp".

#[local] Open Scope Z_scope.

Section bridge.
Context {A B OP OP' IP IP' DR DR' MP MP' DP DP' : Type} `{EqDecision A} `{EqDecision B}.
(** The account ids of one chain are the relayer ids of the other. *)
Variables (TS : Config A B OP IP DR MP DP) (TT : Config B A OP' IP' DR' MP' DP').
Abbreviation Source := (Storage A B IP DR).
Abbreviation Target := (Storage B A IP' DR').

Record System := mkSystem {
  src : Source;
  src_history : list Source;
  tgt : Target;
  tgt_history : list Target;
  accepted : list (LaneId * MessagePayload);
}.
Implicit Types (w : System) (s : Source) (t : Target) (lane : LaneId).

(** The payloads that were accepted for sending on a lane. *)
Definition sent_on w lane : list MessagePayload := snd <$> filter (fun p => p.1 = lane) (accepted w).

(** ** Proofs show past data of the other chain *)
Definition authentic_delivery w (proof : DP) : Prop :=
  forall lane d, verify_messages_delivery_proof TS proof = inr (lane, d) ->
    exists t, t ∈ tgt_history w /\ inbound_lane_data t lane = d.

Definition authentic_messages w (proof : MP') (messages_count : Z) : Prop :=
  forall proved lane ld, verify_messages_proof TT proof messages_count = inr proved -> (lane, ld) ∈ proved ->
    (forall o, lane_state ld = Some o -> exists s, s ∈ src_history w /\ outbound_lane_data s lane = o) /\
    (forall m, m ∈ proved_messages ld -> lane_id (key m) = lane /\
       exists s, s ∈ src_history w /\ outbound_message_data s lane (nonce (key m)) = Some (payload m)).

Definition source_authentic w (c : @Call A B OP MP DP) : Prop :=
  match c with ReceiveDelivery _ proof _ => authentic_delivery w proof | _ => True end.
Definition target_authentic w (c : @Call B A OP' MP' DP') : Prop :=
  match c with ReceiveMessages _ _ proof count _ => authentic_messages w proof count | _ => True end.

Inductive step : System -> System -> Prop :=
| source_step w c s' r :
    source_authentic w c -> exec_call TS c (src w) = (s', r) ->
    step w (mkSystem s' (s' :: src_history w) (tgt w) (tgt_history w)
      (match c, r with Send lane m, Ok _ => accepted w ++ [(lane, encode TS m)] | _, _ => accepted w end))
| target_step w c t' r :
    target_authentic w c -> exec_call TT c (tgt w) = (t', r) ->
    step w (mkSystem (src w) (src_history w) t' (t' :: tgt_history w) (accepted w)).

Definition genesis {A B IP DR} (s : Storage A B IP DR) : Prop :=
  InboundLanes s = ∅ /\ OutboundLanes s = ∅ /\ OutboundMessages s = ∅ /\ effects s = [].

Inductive reachable : System -> Prop :=
| reachable_start s t : genesis s -> genesis t -> reachable (mkSystem s [s] t [t] [])
| reachable_step w w' : reachable w -> step w w' -> reachable w'.

(** ** The invariant *)
Record bridge_inv w : Prop := mk_bridge_inv {
  inv_src : outbound_ok (sent_on w) (src w);
  inv_src_now : src w ∈ src_history w;
  inv_src_past s : s ∈ src_history w -> forall lane,
    latest_received s lane <= latest_received (src w) lane /\
    forall n p, outbound_message_data s lane n = Some p -> exists i, n = Z.of_nat i + 1 /\ sent_on w lane !! i = Some p;
  inv_tgt : inbound_ok TT (sent_on w) (latest_received (src w)) (tgt w);
  inv_tgt_now : tgt w ∈ tgt_history w;
  inv_tgt_past t : t ∈ tgt_history w -> forall lane,
    lane_ok (inbound_lane_data t lane) /\ last_delivered t lane <= last_delivered (tgt w) lane /\
    last_confirmed_nonce (inbound_lane_data t lane) <= latest_received (src w) lane;
  inv_cross lane : latest_received (src w) lane <= last_delivered (tgt w) lane;
}.

(** Nonces are [u64]; no lane has used them up. *)
Definition nonces_left w : Prop := forall lane, Z.of_nat (length (sent_on w lane)) < u64_MAX.

Lemma sent_on_accepted l w lane' p lane :
  accepted w = l -> (snd <$> filter (fun q => q.1 = lane) (l ++ [(lane', p)])) = push_sent (sent_on w) lane' p lane.
Proof.
  intros <-. unfold push_sent, sent_on. rewrite filter_app, fmap_app. rewrite filter_cons. simpl.
  case_decide; simpl; [done|by rewrite app_nil_r].
Qed.

Lemma push_sent_prefix (sent : Z -> list MessagePayload) lane p lane' : exists l, push_sent sent lane p lane' = sent lane' ++ l.
Proof. unfold push_sent. case_decide; [by eexists|]. exists []. by rewrite app_nil_r. Qed.

Lemma step_sent w w' lane : step w w' -> exists l, sent_on w' lane = sent_on w lane ++ l.
Proof.
  intros [w0 c s' r _ _|w0 c t' r _ _]; [|by exists []; rewrite app_nil_r].
  assert (Hsame : exists l, sent_on w0 lane = sent_on w0 lane ++ l) by (exists []; by rewrite app_nil_r).
  destruct c; [|done..]. destruct r; [|done..]. unfold sent_on at 1. cbn [accepted].
  rewrite (sent_on_accepted _ w0) by done. apply push_sent_prefix.
Qed.

Lemma inbound_ok_mono sent sent' received received' t :
  (forall lane, exists l, sent' lane = sent lane ++ l) -> (forall lane, received lane <= received' lane) ->
  inbound_ok TT sent received t -> inbound_ok TT sent' received' t.
Proof.
  intros Hs Hr Hok lane. destruct (Hok lane) as [H1 H2 H3 H4 H5 H6], (Hs lane) as [l Hl]. specialize (Hr lane).
  split; [done|lia| |rewrite H4|done|done]; rewrite Hl; [rewrite length_app; lia|]. by rewrite take_app_le by lia.
Qed.

Lemma genesis_outbound s lane : genesis s -> outbound_lane_data s lane = OutboundLaneData.default.
Proof. intros (_ & H & _). unfold outbound_lane_data. by rewrite H, lookup_empty. Qed.

Lemma genesis_inbound t lane : genesis t -> inbound_lane_data t lane = InboundLaneData.default.
Proof. intros (H & _). unfold inbound_lane_data. by rewrite H, lookup_empty. Qed.

Lemma start_inv s t : genesis s -> genesis t -> bridge_inv (mkSystem s [s] t [t] []).
Proof.
  intros Hs Ht. assert (Hm : forall lane n, outbound_message_data s lane n = None).
  { intros. destruct Hs as (_ & _ & Hs & _). unfold outbound_message_data. by rewrite Hs, lookup_empty. }
  split; simpl; try set_solver.
  - intros lane. split; unfold latest_received; rewrite ?(genesis_outbound s lane Hs); try done; simpl; try lia.
    intros n p. by rewrite Hm.
  - intros s' ->%list_elem_of_singleton lane. split; [done|]. intros n p. by rewrite Hm.
  - intros lane. split; unfold last_delivered, latest_received; rewrite ?(genesis_inbound t lane Ht), ?(genesis_outbound s lane Hs); unfold InboundLaneData.last_delivered_nonce; simpl; try lia.
    + apply lane_ok_default.
    + unfold dispatched, dispatches. destruct Ht as (_ & _ & _ & ->). done.
  - intros t' ->%list_elem_of_singleton lane. rewrite (genesis_inbound t lane Ht). split; [apply lane_ok_default|]. split; [done|].
    unfold latest_received. by rewrite (genesis_outbound s lane Hs).
  - intros lane. unfold last_delivered, latest_received. by rewrite (genesis_inbound t lane Ht), (genesis_outbound s lane Hs).
Qed.

Lemma source_call w c s' r :
  bridge_inv w -> nonces_left w -> source_authentic w c -> exec_call TS c (src w) = (s', r) ->
  outbound_later (match c, r with Send lane m, Ok _ => push_sent (sent_on w) lane (encode TS m) | _, _ => sent_on w end)
    (last_delivered (tgt w)) (src w) s'.
Proof.
  intros [Hsrc _ _ _ _ Htp Hx] Hleft Hauth Heq.
  assert (Hself : outbound_later (sent_on w) (last_delivered (tgt w)) (src w) (src w)) by (split; [done|lia]).
  assert (Hframe : forall X (op : ST Source DispatchError X), keeps outbound_part op ->
    wlp op (fun _ => outbound_later (sent_on w) (last_delivered (tgt w)) (src w)) (src w)).
  { intros X op Hk. eapply wlp_mono; [by apply (wlp_keeps outbound_part)|]. intros a s'' Hp. by apply (outbound_later_part _ _ _ (src w)). }
  destruct c as [lane m|origin relayer proof count wt|origin proof rs|b wt|origin o|origin o]; simpl in Hauth; unfold exec_call in Heq.
  - pose proof (send_ok TS (sent_on w) lane m (src w) Hsrc) as Hsend. unfold dispatchable, st_map_err, mbind, st_bind, wlp in *.
    destruct (validate_and_send TS lane m (src w)) as [s1 [a|e|]]; injection Heq as <- <-; [|done..].
    destruct Hsend as [H1 H2]. split; [done|]. intros lane'. specialize (H2 lane'). specialize (Hx lane'). lia.
  - eapply dispatchable_wlp; [exact Hself| |exact Heq]. apply wlp_unit, Hframe, receive_messages_keeps.
  - eapply dispatchable_wlp; [exact Hself| |exact Heq]. apply wlp_unit, receive_delivery_ok; [done..|].
    intros lane d Hver. destruct (Hauth _ _ Hver) as (t & Ht & <-). destruct (Htp t Ht lane) as (H1 & H2 & _). done.
  - eapply dispatchable_wlp; [exact Hself| |exact Heq]. apply wlp_unit. eapply wlp_mono; [by apply on_idle_ok|].
    intros _ s1 [H1 H2]. split; [done|]. intros lane. specialize (H2 lane). lia.
  - eapply dispatchable_wlp; [exact Hself| |exact Heq]. by apply Hframe, set_owner_keeps.
  - eapply dispatchable_wlp; [exact Hself| |exact Heq]. by apply Hframe, set_mode_keeps.
Qed.

(** Authentic messages are genuine. *)
Lemma authentic_genuine w proof count :
  bridge_inv w -> authentic_messages w proof count ->
  forall proved, verify_and_decode_messages_proof TT proof count = inr proved ->
    genuine_proof TT (sent_on w) (latest_received (src w)) proved.
Proof.
  intros [_ _ Hsp _ _ _ _] Hauth proved Hver. unfold verify_and_decode_messages_proof in Hver.
  destruct (verify_messages_proof TT proof count) as [|raw] eqn:Hraw; [done|]. injection Hver as <-.
  intros lane ld ([lane0 ld0] & Heq & Hin)%list_elem_of_fmap. injection Heq as -> ->.
  destruct (Hauth raw lane0 ld0 Hraw Hin) as [Hst Hms]. split; simpl.
  - intros o Ho. destruct (Hst o Ho) as (s & Hs & <-). by apply (Hsp s Hs).
  - intros m (m0 & -> & Hm0)%list_elem_of_fmap. destruct (Hms m0 Hm0) as (Hl & s & Hs & Hp).
    destruct (Hsp s Hs lane0) as [_ Hsent]. destruct (Hsent _ _ Hp) as (i & Hi & Hlook).
    split; [done|]. exists i, (payload m0). done.
Qed.

Lemma target_call w c t' r :
  bridge_inv w -> nonces_left w -> target_authentic w c -> exec_call TT c (tgt w) = (t', r) ->
  delivery_inv TT (sent_on w) (latest_received (src w)) (tgt w) t'.
Proof.
  intros Hinv Hleft Hauth Heq. pose proof (inv_tgt _ Hinv) as Htgt.
  assert (Hself : delivery_inv TT (sent_on w) (latest_received (src w)) (tgt w) (tgt w)) by done.
  assert (Hframe : forall E X (op : ST Target E X), keeps inbound_part op ->
    wlp op (fun _ => delivery_inv TT (sent_on w) (latest_received (src w)) (tgt w)) (tgt w)).
  { intros E X op Hk. eapply wlp_mono; [by apply (wlp_keeps inbound_part)|]. intros a t'' Hp. by apply (inbound_part_inv _ _ _ _ (tgt w)). }
  destruct c as [lane m|origin relayer proof count wt|origin proof rs|b wt|origin o|origin o]; simpl in Hauth; unfold exec_call in Heq;
    (eapply dispatchable_wlp; [exact Hself| |exact Heq]).
  - apply wlp_unit, wlp_map_err, Hframe, send_keeps.
  - apply wlp_unit, receive_messages_inv; [intros lane; specialize (Hleft lane); lia|done|by apply authentic_genuine].
  - apply wlp_unit, Hframe, receive_delivery_keeps.
  - apply wlp_unit, Hframe, on_idle_keeps.
  - by apply Hframe, set_owner_keeps.
  - by apply Hframe, set_mode_keeps.
Qed.

Lemma step_inv w w' : bridge_inv w -> nonces_left w -> step w w' -> bridge_inv w'.
Proof.
  intros Hinv Hleft Hstep. pose proof (fun lane => step_sent w w' lane Hstep) as Hext.
  destruct Hstep as [w c s' r Hauth Heq|w c t' r Hauth Heq].
  - pose proof (source_call _ _ _ _ Hinv Hleft Hauth Heq) as [Hok Hr].
    set (w' := mkSystem s' _ _ _ _) in *. destruct Hinv as [H1 H2 H3 H4 H5 H6 H7].
    assert (Hok' : outbound_ok (sent_on w') s').
    { intros lane. eapply (outbound_ok_at_ext _ _ s'); [|done|apply Hok]. unfold w', sent_on at 1. cbn [accepted].
      destruct c; [|done..]. destruct r; [by apply sent_on_accepted|done..]. }
    assert (Hup : forall lane, latest_received (src w) lane <= latest_received s' lane) by (intros lane; apply Hr).
    split; cbn [src src_history tgt tgt_history w'].
    + done.
    + constructor.
    + intros s [->|Hs]%elem_of_cons lane; [split; [done|apply Hok']|]. destruct (H3 s Hs lane) as [Ha Hb].
      split; [specialize (Hup lane); lia|]. intros n p Hn. destruct (Hb n p Hn) as (i & Hi & Hp). exists i. split; [done|].
      destruct (Hext lane) as [l Hl]. rewrite Hl. by apply lookup_app_l_Some.
    + by apply (inbound_ok_mono (sent_on w) _ (latest_received (src w))).
    + done.
    + intros t Ht lane. destruct (H6 t Ht lane) as (Ha & Hb & Hc). split_and!; [done..|]. specialize (Hup lane). lia.
    + intros lane. specialize (Hr lane). specialize (H7 lane). lia.
  - pose proof (target_call _ _ _ _ Hinv Hleft Hauth Heq) as [Hok Hmon].
    destruct Hinv as [H1 H2 H3 H4 H5 H6 H7]. split; cbn [src src_history tgt tgt_history]; [done..| | | |].
    + done.
    + constructor.
    + intros t [->|Ht]%elem_of_cons lane.
      * destruct (Hok lane). done.
      * destruct (H6 t Ht lane) as (Ha & Hb & Hc). specialize (Hmon lane). split_and!; [done|lia|done].
    + intros lane. specialize (Hmon lane). specialize (H7 lane). lia.
Qed.

Lemma reachable_inv w : reachable w -> nonces_left w -> bridge_inv w.
Proof.
  induction 1 as [s t Hs Ht|w w' _ IH Hstep]; intros Hleft; [by apply start_inv|].
  assert (Hleft0 : nonces_left w).
  { intros lane. specialize (Hleft lane). destruct (step_sent w w' lane Hstep) as [l Hl]. rewrite Hl, length_app in Hleft. lia. }
  apply (step_inv w); [by apply IH|done|done].
Qed.

(** C8: exactly once, in order.  In every state of the bridge, whatever the
    relayers did, the messages that the target chain dispatched on a lane are the
    first messages that were accepted on that lane at the source, each once, in
    the order of sending and with the payload that was sent; their number is the
    last delivered nonce; and the source has not been told of more deliveries than
    there were. *)
Theorem messages_dispatched_once_in_order w lane :
  reachable w -> nonces_left w ->
  let delivered := Z.to_nat (last_delivered (tgt w) lane) in
  dispatched (tgt w) lane = deliveries TT lane (take delivered (sent_on w lane)) /\
  (delivered <= length (sent_on w lane))%nat /\
  0 <= latest_received (src w) lane <= last_delivered (tgt w) lane.
Proof.
  intros Hr Hleft delivered. pose proof (reachable_inv w Hr Hleft) as Hinv. destruct (inv_tgt _ Hinv lane).
  pose proof (inv_cross _ Hinv lane). destruct (inv_src _ Hinv lane). split; [done|]. lia.
Qed.

(** C18: nothing is lost.  A message that was accepted and not yet dispatched at
    the target is still in the storage of the source chain, with its payload, for
    a relayer to deliver: pruning never removes it. *)
Theorem undelivered_messages_kept w lane i p :
  reachable w -> nonces_left w ->
  sent_on w lane !! i = Some p -> last_delivered (tgt w) lane <= Z.of_nat i ->
  outbound_message_data (src w) lane (Z.of_nat i + 1) = Some p.
Proof.
  intros Hr Hleft Hp Hi. pose proof (reachable_inv w Hr Hleft) as Hinv. pose proof (inv_cross _ Hinv lane).
  destruct (inv_src _ Hinv lane) as [_ _ _ _ Hkept]. rewrite Hkept; [done|lia].
Qed.

Lemma past_data_fits w lane t :
  bridge_inv w -> t ∈ tgt_history w ->
  lane_ok (inbound_lane_data t lane) /\ last_delivered t lane <= Z.of_nat (length (sent_on w lane)) /\
  last_confirmed_nonce (inbound_lane_data t lane) <= latest_received (src w) lane.
Proof.
  intros Hinv Ht. destruct (inv_tgt_past _ Hinv t Ht lane) as (H1 & H2 & H3). destruct (inv_tgt _ Hinv lane).
  split_and!; [done|lia|done].
Qed.

(** a delivery proof that shows data of the target chain, however old, is
    accepted by the source chain unless the pallet is halted: none of the errors
    for invalid storage of the bridged chain can occur, nothing overflows, and the
    lane learns of the deliveries. *)
Theorem delivery_proof_accepted w who proof lane d :
  reachable w -> nonces_left w -> authentic_delivery w proof ->
  verify_messages_delivery_proof TS proof = inr (lane, d) -> is_halted (PalletOperatingMode (src w)) = false ->
  exists s' weight,
    receive_messages_delivery_proof TS (Signed who) proof (UnrewardedRelayersState.from d) (src w) = (s', Ok weight) /\
    latest_received s' lane = Z.max (latest_received (src w) lane) (InboundLaneData.last_delivered_nonce d).
Proof.
  intros Hr Hleft Hauth Hver Hmode. pose proof (reachable_inv w Hr Hleft) as Hinv.
  destruct (Hauth _ _ Hver) as (t & Ht & <-). destruct (past_data_fits w lane t Hinv Ht) as (H1 & H2 & H3).
  by apply (receive_delivery_accepts TS (sent_on w)); [apply (inv_src _ Hinv)|apply Hleft|..].
Qed.

(** C22: a lane never gets stuck.  From every state of the bridge in which a
    message waits, two transactions deliver it: a delivery proof of the target's
    current state to the source, and then a proof of the source's lane state and
    of the next message to the target, provided that neither pallet is halted, the
    dispatcher is active and the declared weight suffices. *)
Theorem next_message_deliverable w lane i p who relayer proof1 who2 dw :
  reachable w -> nonces_left w ->
  sent_on w lane !! i = Some p -> last_delivered (tgt w) lane = Z.of_nat i ->
  is_halted (PalletOperatingMode (src w)) = false -> is_halted (PalletOperatingMode (tgt w)) = false ->
  is_active TT (effects (tgt w)) = true ->
  1 <= MaxUnrewardedRelayerEntriesAtInboundLane TT -> 1 <= MaxUnconfirmedMessagesAtInboundLane TT ->
  (forall tr m, in_range (unspent_weight (dispatch TT tr m))) -> (forall m, in_range (dispatch_weight TT m)) ->
  within (dispatch_weight TT (mkDispatch (mkKey lane (Z.of_nat i + 1)) (decode TT p))) dw ->
  verify_messages_delivery_proof TS proof1 = inr (lane, inbound_lane_data (tgt w) lane) ->
  exists s' weight1,
    receive_messages_delivery_proof TS (Signed who) proof1 (UnrewardedRelayersState.from (inbound_lane_data (tgt w) lane)) (src w) =
      (s', Ok weight1) /\
    forall proof2,
      verify_messages_proof TT proof2 1 =
        inr [(lane, mkProved (Some (outbound_lane_data s' lane)) [mkMessage (mkKey lane (Z.of_nat i + 1)) p])] ->
      exists t' weight2,
        receive_messages_proof TT (Signed who2) relayer proof2 1 dw (tgt w) = (t', Ok weight2) /\
        dispatches t' = dispatches (tgt w) ++ [mkDispatch (mkKey lane (Z.of_nat i + 1)) (decode TT p)].
Proof.
  intros Hr Hleft Hp Hi Hms Hmt Hact He Hu Hdr Hmr Hw Hver. pose proof (reachable_inv w Hr Hleft) as Hinv.
  destruct (past_data_fits w lane (tgt w) Hinv (inv_tgt_now _ Hinv)) as (H1 & H2 & H3).
  destruct (receive_delivery_accepts TS (sent_on w) who proof1 lane (inbound_lane_data (tgt w) lane) (src w)) as (s' & wt & Hs' & Hlr);
    [apply (inv_src _ Hinv)|apply Hleft|done..|].
  exists s', wt. split; [done|]. intros proof2 Hver2. pose proof (inv_cross _ Hinv lane) as Hx. unfold latest_received in *.
  assert (last_delivered (tgt w) lane < u64_MAX) by (specialize (Hleft lane); lia).
  apply (receive_next_accepts TT who2 relayer proof2 dw lane (outbound_lane_data s' lane)
    (mkMessage (mkKey lane (Z.of_nat i + 1)) p) (tgt w)); try done; simpl; [|lia].
  rewrite Hlr. fold (last_delivered (tgt w) lane). lia.
Qed.
End bridge.

(** ** A bridge in use

    Proofs are the data they show, accounts are numbers, payloads are bytes. *)
Module BridgeExamples.
Definition T0 : Config nat nat (list Z) (list Z) unit (ProvedMessages Message) (LaneId * InboundLaneData nat) := {|
  ActiveOutboundLanes := [7];
  MaxUnrewardedRelayerEntriesAtInboundLane := 2;
  MaxUnconfirmedMessagesAtInboundLane := 4;
  MaximalOutboundPayloadSize := 16;
  DbWeight := mkDbWeight 1 1;
  usize_bits := 32;
  unrewarded_relayer_len := 24;
  encode p := p;
  decode p := Some p;
  verify_message _ := inr tt;
  verify_messages_proof proof _ := inr proof;
  verify_messages_delivery_proof proof := inr proof;
  is_active _ := true;
  dispatch_weight _ := from_parts 1 1;
  dispatch _ _ := mkResult Weight.zero tt;
  confirmation_pay_reward _ l _ _ := Z.of_nat (length l);
  receive_messages_proof_weight _ _ w := w;
  delivery_proof_size _ := 0;
  receive_messages_delivery_proof_weight _ _ := Weight.zero;
|}.

Definition start : Storage nat nat (list Z) unit := mkStorage None (Basic Normal) ∅ ∅ ∅ [].
Definition w0 : System := mkSystem start [start] start [start] [].

Abbreviation run_call := (fun c (s : Storage nat nat (list Z) unit) => (exec_call T0 c s).1).
Definition send1 := Send (AccountId := nat) (InboundRelayer := nat) (MessagesProof := ProvedMessages Message)
  (DeliveryProof := LaneId * InboundLaneData nat) 7 [1; 2].
Definition send2 := Send (AccountId := nat) (InboundRelayer := nat) (MessagesProof := ProvedMessages Message)
  (DeliveryProof := LaneId * InboundLaneData nat) 7 [3].
Definition s1 := run_call send1 start.
Definition s2 := run_call send2 s1.
Definition deliver : @Call nat nat (list Z) (ProvedMessages Message) (LaneId * InboundLaneData nat) :=
  ReceiveMessages (Signed 5%nat) 6%nat [(7, mkProved None [mkMessage (mkKey 7 1) [1; 2]])] 1 (from_parts 9 9).
Definition t1 := run_call deliver start.

(** Two messages are sent, and the first one is delivered. *)
Definition w1 : System := mkSystem s1 [s1; start] start [start] [(7, [1; 2])].
Definition w2 : System := mkSystem s2 [s2; s1; start] start [start] [(7, [1; 2]); (7, [3])].
Definition w3 : System := mkSystem s2 [s2; s1; start] t1 [t1; start] [(7, [1; 2]); (7, [3])].

Lemma w3_reachable : reachable T0 T0 w3.
Proof.
  apply (reachable_step T0 T0 w2); [apply (reachable_step T0 T0 w1); [apply (reachable_step T0 T0 w0)|]|].
  - by apply (reachable_start T0 T0 start start).
  - apply (source_step T0 T0 w0 send1 s1 (Ok tt)); [done|by vm_compute].
  - apply (source_step T0 T0 w1 send2 s2 (Ok tt)); [done|by vm_compute].
  - apply (target_step T0 T0 w2 deliver t1 (Ok tt)); [|by vm_compute].
    intros proved lane ld [= <-] [[= -> ->]|Hin]%elem_of_cons; [|by apply elem_of_nil in Hin].
    split; [done|]. intros m ->%list_elem_of_singleton. split; [done|]. exists s1.
    split; [constructor; constructor|by vm_compute].
Qed.

Lemma w3_nonces : nonces_left w3.
Proof.
  intros lane. unfold sent_on, w3. cbn [accepted]. rewrite !filter_cons, filter_nil. unfold u64_MAX.
  repeat case_decide; simpl; lia.
Qed.

Lemma messages_dispatched_once_in_order_witness :
  dispatched t1 7 = [mkDispatch (mkKey 7 1) (Some [1; 2])] /\ dispatched (tgt w3) 7 = deliveries T0 7 (take 1 (sent_on w3 7)).
Proof. split; [by vm_compute|]. apply (messages_dispatched_once_in_order T0 T0 w3 7 w3_reachable w3_nonces). Defined.

Lemma undelivered_messages_kept_witness : outbound_message_data (src w3) 7 (Z.of_nat 1 + 1) = Some [3].
Proof. apply (undelivered_messages_kept T0 T0 w3 7 1 [3] w3_reachable w3_nonces); by vm_compute. Defined.

Lemma delivery_proof_accepted_witness :
  exists s' weight, receive_messages_delivery_proof T0 (Signed 5%nat) (7, inbound_lane_data t1 7)
    (UnrewardedRelayersState.from (inbound_lane_data t1 7)) s2 = (s', Ok weight) /\ latest_received s' 7 = 1.
Proof.
  apply (delivery_proof_accepted T0 T0 w3 5%nat (7, inbound_lane_data t1 7) 7 (inbound_lane_data t1 7) w3_reachable w3_nonces).
  - intros lane d [= <- <-]. exists t1. split; [constructor|done].
  - done.
  - done.
Defined.

Lemma next_message_deliverable_witness :
  exists s' weight1, receive_messages_delivery_proof T0 (Signed 5%nat) (7, inbound_lane_data t1 7)
      (UnrewardedRelayersState.from (inbound_lane_data t1 7)) s2 = (s', Ok weight1) /\
    exists t' weight2, receive_messages_proof T0 (Signed 5%nat) 6%nat
      [(7, mkProved (Some (outbound_lane_data s' 7)) [mkMessage (mkKey 7 2) [3]])] 1 (from_parts 1 1) t1 = (t', Ok weight2) /\
      dispatches t' = dispatches t1 ++ [mkDispatch (mkKey 7 2) (Some [3])].
Proof.
  destruct (next_message_deliverable T0 T0 w3 7 1 [3] 5%nat 6%nat (7, inbound_lane_data t1 7) 5%nat (from_parts 1 1)
    w3_reachable w3_nonces) as (s' & weight1 & H1 & H2);
    [by vm_compute| by vm_compute | reflexivity | by vm_compute | reflexivity | by vm_compute | by vm_compute
    | intros; by vm_compute | intros; by vm_compute | by vm_compute | reflexivity |].
  exists s', weight1. split; [exact H1|]. exact (H2 _ eq_refl).
Defined.
End BridgeExamples.
