(* ===== verification/StateDbBase.v ===== *)
(** * The state database: shared data

    The types that [substrate/client/state-db/src/lib.rs] shares between the overlay
    of non-canonical blocks ([NonCanonical]) and the pruning window ([Pruning]): sets of
    changes, errors, pruning modes, and the keys and values of the metadata column,
    which are byte strings.

    The encoding of values (SCALE, from the codec crate) is a parameter: the class
    [Codec], with its round trip as the law [CodecLaws].  A database is given by what it
    answers to [get_meta] and [get]; [Store] is a database that keeps what is written
    to it, and [apply_state_commit] writes a set of changes the way the client's
    backend does. *)
From stdpp Require Import base gmap list strings.
From Stdlib Require Import ZArith Lia.
From Stdlib Require Import Strings.Byte.
From S2P Require Import Prelude.
Set Warnings "-clear-no-such-hyp".
Open Scope Z_scope.

(** ** Byte strings *)
Abbreviation bytes := (list byte).
Abbreviation DBValue := bytes.

#[export] Instance byte_eq_decision : EqDecision byte := Byte.byte_eq_dec.
#[export] Program Instance byte_countable : Countable byte :=
  inj_countable Byte.to_N Byte.of_N _.
Next Obligation. apply Byte.of_to_N. Qed.

(** The traits [Encode] and [Decode]. *)
Class Codec (A : Type) := { encode : A -> bytes; decode : bytes -> option A }.
Class CodecLaws (A : Type) `{Codec A} (valid : A -> Prop) := decode_encode : forall a : A, valid a -> decode (encode a) = Some a.

(** What the encodings are for: block numbers and indices are 64-bit. *)
Definition any {A} (a : A) : Prop := True.
Definition is_u64 (n : Z) : Prop := 0 <= n < 2 ^ 64.
Definition numbered {A} (p : A * Z) : Prop := is_u64 p.2.
Definition pair_u64 (p : Z * Z) : Prop := is_u64 p.1 /\ is_u64 p.2.

Lemma encode_inj `{CodecLaws A valid} (a b : A) : valid a -> valid b -> encode a = encode b -> a = b.
Proof. intros Ha Hb Heq. apply (f_equal decode) in Heq. rewrite !decode_encode in Heq by done. by injection Heq. Qed.

(** ** Sets of changes *)
Record ChangeSet (H : Type) := { inserted : list (H * DBValue); deleted : list H }.
Arguments inserted {H} _.
Arguments deleted {H} _.

Definition empty_changeset {H} : ChangeSet H := {| inserted := []; deleted := [] |}.

Record CommitSet (H : Type) := { data : ChangeSet H; meta : ChangeSet bytes }.
Arguments data {H} _.
Arguments meta {H} _.

Definition empty_commit {H} : CommitSet H := {| data := empty_changeset; meta := empty_changeset |}.

(** [commit.data.inserted.extend(l)], [commit.meta.inserted.push(x)] and their like. *)
Section commit.
Context {H : Type}.

Definition data_insert (l : list (H * DBValue)) (c : CommitSet H) : CommitSet H :=
  {| data := {| inserted := inserted (data c) ++ l; deleted := deleted (data c) |}; meta := meta c |}.
Definition data_delete (l : list H) (c : CommitSet H) : CommitSet H :=
  {| data := {| inserted := inserted (data c); deleted := deleted (data c) ++ l |}; meta := meta c |}.
Definition clear_deleted (c : CommitSet H) : CommitSet H :=
  {| data := {| inserted := inserted (data c); deleted := [] |}; meta := meta c |}.
Definition meta_insert (k : bytes) (v : DBValue) (c : CommitSet H) : CommitSet H :=
  {| data := data c; meta := {| inserted := inserted (meta c) ++ [(k, v)]; deleted := deleted (meta c) |} |}.
Definition meta_delete (l : list bytes) (c : CommitSet H) : CommitSet H :=
  {| data := data c; meta := {| inserted := inserted (meta c); deleted := deleted (meta c) ++ l |} |}.

Lemma meta_delete_nil c : meta_delete [] c = c.
Proof. destruct c as [d [i l]]. unfold meta_delete. simpl. by rewrite app_nil_r. Qed.

Lemma meta_delete_app l1 l2 c : meta_delete l2 (meta_delete l1 c) = meta_delete (l1 ++ l2) c.
Proof. unfold meta_delete. simpl. by rewrite <- app_assoc. Qed.
End commit.

(** ** Pruning modes *)
Record Constraints := { max_blocks : option Z }.

Inductive PruningMode := Constrained (c : Constraints) | ArchiveAll | ArchiveCanonical.

Definition DEFAULT_MAX_BLOCK_CONSTRAINT : Z := 256.

Definition default_constraints : Constraints := {| max_blocks := Some DEFAULT_MAX_BLOCK_CONSTRAINT |}.
Definition default_mode : PruningMode := Constrained default_constraints.

Definition PRUNING_MODE : bytes := String.list_byte_of_string "mode".
Definition PRUNING_MODE_ARCHIVE : bytes := String.list_byte_of_string "archive".
Definition PRUNING_MODE_ARCHIVE_CANON : bytes := String.list_byte_of_string "archive_canonical".
Definition PRUNING_MODE_CONSTRAINED : bytes := String.list_byte_of_string "constrained".

#[export] Instance pruning_mode_eq_dec : EqDecision PruningMode.
Proof. unfold EqDecision, Decision. repeat decide equality. Defined.

Definition blocks_pruning (n : Z) : PruningMode := Constrained {| max_blocks := Some n |}.

Definition is_archive (m : PruningMode) : bool :=
  match m with ArchiveAll | ArchiveCanonical => true | Constrained _ => false end.

Definition mode_id (m : PruningMode) : bytes :=
  match m with
  | ArchiveAll => PRUNING_MODE_ARCHIVE
  | ArchiveCanonical => PRUNING_MODE_ARCHIVE_CANON
  | Constrained _ => PRUNING_MODE_CONSTRAINED
  end.

Definition from_id (id : bytes) : option PruningMode :=
  if decide (id = PRUNING_MODE_ARCHIVE) then Some ArchiveAll
  else if decide (id = PRUNING_MODE_ARCHIVE_CANON) then Some ArchiveCanonical
  else if decide (id = PRUNING_MODE_CONSTRAINED) then Some (Constrained default_constraints)
  else None.

(** ** Errors *)
Inductive StateDbError :=
| Decoding
| InvalidBlock
| InvalidBlockNumber
| InvalidParent
| IncompatiblePruningModes (stored requested : PruningMode)
| TooManySiblingBlocks (number : Z)
| BlockAlreadyExists
| Metadata
| BlockUnavailable
| BlockMissing.

Inductive Error (E : Type) := Db (e : E) | StateDb (e : StateDbError).
Arguments Db {E} _.
Arguments StateDb {E} _.

Inductive PinError := PinInvalidBlock.

(** [result.map_err(f)] *)
Definition map_err {E E' A} (f : E -> E') (r : res E A) : res E' A :=
  match r with Ok a => Ok a | Err e => Err (f e) | Panic => Panic end.

(** [A::decode(&mut buffer.as_slice())?] *)
Definition decode_res {E} A `{Codec A} (b : bytes) : res (Error E) A :=
  ok_or (StateDb Decoding) (decode b).

(** ** Metadata keys *)
Definition to_meta_key {S} `{Codec S} (suffix : bytes) (d : S) : bytes := encode d ++ suffix.

Definition LAST_CANONICAL : bytes := String.list_byte_of_string "last_canonical".
Definition LAST_PRUNED : bytes := String.list_byte_of_string "last_pruned".
Definition NON_CANONICAL_JOURNAL : bytes := String.list_byte_of_string "noncanonical_journal".
Definition PRUNING_JOURNAL : bytes := String.list_byte_of_string "pruning_journal".

(** Keys with different suffixes differ, unless one suffix ends with the other. *)
Lemma meta_key_suffix {A B} `{Codec A, Codec B} s1 s2 (a : A) (b : B) :
  (length s1 <= length s2)%nat -> drop (length s2 - length s1) s2 <> s1 -> to_meta_key s1 a <> to_meta_key s2 b.
Proof.
  intros Hlen Hne Heq. apply Hne. unfold to_meta_key in Heq.
  rewrite <- (take_drop (length s2 - length s1) s2), app_assoc in Heq.
  apply app_inj_2 in Heq as [_ Heq]; [by symmetry|]. rewrite length_drop. lia.
Qed.

Lemma meta_key_inj `{CodecLaws A valid} s (a b : A) : valid a -> valid b -> to_meta_key s a = to_meta_key s b -> a = b.
Proof. intros Ha Hb Heq%app_inv_tail. by apply encode_inj. Qed.

(** The keys of the metadata column do not clash. *)
Section keys.
Context `{Codec unit, Codec (Z * Z), Codec Z}.

Lemma last_canonical_not_journal u x : to_meta_key (S := unit) LAST_CANONICAL u <> to_meta_key (S := Z * Z) NON_CANONICAL_JOURNAL x.
Proof. by apply meta_key_suffix; [vm_compute; lia|]. Qed.
Lemma last_pruned_not_journal u x : to_meta_key (S := unit) LAST_PRUNED u <> to_meta_key (S := Z * Z) NON_CANONICAL_JOURNAL x.
Proof. by apply meta_key_suffix; [vm_compute; lia|]. Qed.
Lemma pruning_not_journal n x : to_meta_key (S := Z) PRUNING_JOURNAL n <> to_meta_key (S := Z * Z) NON_CANONICAL_JOURNAL x.
Proof. by apply meta_key_suffix; [vm_compute; lia|]. Qed.
Lemma last_canonical_not_pruning u n : to_meta_key (S := unit) LAST_CANONICAL u <> to_meta_key (S := Z) PRUNING_JOURNAL n.
Proof. by apply meta_key_suffix; [vm_compute; lia|]. Qed.
Lemma last_pruned_not_pruning u n : to_meta_key (S := unit) LAST_PRUNED u <> to_meta_key (S := Z) PRUNING_JOURNAL n.
Proof. by apply meta_key_suffix; [vm_compute; lia|]. Qed.
Lemma last_pruned_not_canonical u u' : to_meta_key (S := unit) LAST_PRUNED u <> to_meta_key (S := unit) LAST_CANONICAL u'.
Proof. by apply meta_key_suffix; [vm_compute; lia|]. Qed.
End keys.

(** ** Databases *)

(** The traits [MetaDb] and [NodeDb] by their only method. *)
Abbreviation MetaDb E := (bytes -> res E (option DBValue)).
Abbreviation NodeDb E Key := (Key -> res E (option DBValue)).

(** A database that stores what is committed to it, and never fails. *)
Record Store (Key : Type) `{Countable Key} := { nodes : gmap Key DBValue; metas : gmap bytes DBValue }.
Arguments nodes {Key _ _} _.
Arguments metas {Key _ _} _.

Section store.
Context {Key : Type} `{Countable Key}.

Definition get_meta (db : Store Key) : MetaDb unit := fun k => Ok (metas db !! k).
Definition get_node (db : Store Key) : NodeDb unit Key := fun k => Ok (nodes db !! k).

(** The changes of one column: insertions before deletions. *)
Definition apply_changes {K} `{Countable K} (c : ChangeSet K) (m : gmap K DBValue) : gmap K DBValue :=
  foldl (fun m k => delete k m) (foldl (fun m '(k, v) => <[k := v]> m) m (inserted c)) (deleted c).

Definition apply_state_commit (c : CommitSet Key) (db : Store Key) : Store Key :=
  {| nodes := apply_changes (data c) (nodes db); metas := apply_changes (meta c) (metas db) |}.

(** What a column holds afterwards, when no key is inserted twice. *)
Lemma apply_changes_lookup {K} `{Countable K} (c : ChangeSet K) (m : gmap K DBValue) k :
  apply_changes c m !! k =
    if decide (k ∈ deleted c) then None
    else match last (filter (fun '(k', _) => k' = k) (inserted c)) with Some (_, v) => Some v | None => m !! k end.
Proof.
  unfold apply_changes. destruct c as [ins del]. simpl.
  set (m1 := foldl (fun m '(k, v) => <[k := v]> m) m ins).
  assert (foldl (fun m k => delete k m) m1 del !! k = if decide (k ∈ del) then None else m1 !! k) as ->.
  { clearbody m1. revert m1. induction del as [|d del IH]; intros m1; cbn [foldl]; [by rewrite decide_False by apply not_elem_of_nil|].
    rewrite IH. destruct (decide (d = k)) as [->|Hne].
    - rewrite lookup_delete_eq, (decide_True (P := k ∈ k :: del)) by constructor. by case_decide.
    - rewrite lookup_delete_ne by done. apply decide_ext. set_solver. }
  case_decide; [done|]. unfold m1. clear m1. induction ins as [|[k' v] ins IH] using rev_ind; [done|].
  rewrite foldl_app, filter_app. simpl. destruct (decide (k' = k)) as [->|Hne].
  - rewrite lookup_insert_eq, filter_cons_True, filter_nil by done. by rewrite last_snoc.
  - rewrite lookup_insert_ne, IH, filter_cons_False, filter_nil by done. by rewrite app_nil_r.
Qed.
End store.
