(* ===== verification/NonCanonical.v ===== *)
(** * The overlay of non-canonical blocks

    [substrate/client/state-db/src/noncanonical.rs]: the trees of blocks that are not
    canonical yet, level by level, with the trie nodes they insert.  A node is stored
    once, with the number of blocks that need it.  Canonicalizing a block discards the
    other trees; the nodes of a pinned block stay until it is unpinned.

    The two slices of a [VecDeque] are one list here.  Everything an operation writes to
    the database is in the [CommitSet] it returns. *)
From stdpp Require Import base gmap gmultiset list.
From Stdlib Require Import ZArith Lia.
From S2P Require Import Prelude StateDbBase.
Open Scope Z_scope.

(** ** Loops of iterators *)

(** [iter().position(f)], where [f] may panic. *)
Fixpoint position_res {E A} (f : A -> res E bool) (l : list A) : res E (option nat) :=
  match l with
  | [] => Ok None
  | a :: l' =>
      found ← f a;
      if (found : bool) then Ok (Some O) else i ← position_res f l'; Ok (option_map S i)
  end.

(** [iter().position(f)] *)
Fixpoint position {A} (f : A -> bool) (l : list A) : option nat :=
  match l with
  | [] => None
  | a :: l' => if f a then Some O else option_map S (position f l')
  end.

(** [x.trailing_ones()] of a [u64]; [w] is the number of bits left to look at. *)
Fixpoint trailing_ones (w : nat) (x : Z) : Z :=
  match w with
  | O => 0
  | S w' => if Z.testbit x 0 then 1 + trailing_ones w' (Z.shiftr x 1) else 0
  end.

(** [1 << i] of a [u64] *)
Definition bit_u64 {E} (i : Z) : res E Z := if i <? 64 then Ok (Z.shiftl 1 i) else Panic.

(** [for (i, x) in l.into_iter().enumerate()] *)
Definition enumerate {A} (l : list A) : list (nat * A) := zip (seq 0 (length l)) l.

Definition MAX_BLOCKS_PER_LEVEL : Z := 32.

(** ** Data *)
Section data.
Context (BlockHash Key : Type) `{Countable BlockHash} `{Countable Key}.

Record BlockOverlay := {
  bo_hash : BlockHash;
  journal_index : Z;
  journal_key : bytes;
  bo_inserted : list Key;
  bo_deleted : list Key;
}.

Record OverlayLevel := { blocks : list BlockOverlay; used_indices : Z }.

Record NonCanonicalOverlay := {
  last_canonicalized : option (BlockHash * Z);
  levels : list OverlayLevel;
  parents : gmap BlockHash BlockHash;
  values : gmap Key (Z * DBValue);
  pinned : gmap BlockHash Z;
  pinned_insertions : gmap BlockHash (list Key * Z);
  pinned_canonincalized : list BlockHash;
}.

(** [values], [parents] and [pinned_insertions], which [discard_descendants] borrows. *)
Record Tables := {
  t_values : gmap Key (Z * DBValue);
  t_parents : gmap BlockHash BlockHash;
  t_pinned_insertions : gmap BlockHash (list Key * Z);
}.

Record JournalRecord := {
  jr_hash : BlockHash;
  jr_parent_hash : BlockHash;
  jr_inserted : list (Key * DBValue);
  jr_deleted : list Key;
}.
End data.
Arguments bo_hash {BlockHash Key} _.
Arguments journal_index {BlockHash Key} _.
Arguments journal_key {BlockHash Key} _.
Arguments bo_inserted {BlockHash Key} _.
Arguments bo_deleted {BlockHash Key} _.
Arguments blocks {BlockHash Key} _.
Arguments used_indices {BlockHash Key} _.
Arguments NonCanonicalOverlay BlockHash Key {_ _ _ _}.
Arguments last_canonicalized {BlockHash Key _ _ _ _} _.
Arguments levels {BlockHash Key _ _ _ _} _.
Arguments parents {BlockHash Key _ _ _ _} _.
Arguments values {BlockHash Key _ _ _ _} _.
Arguments pinned {BlockHash Key _ _ _ _} _.
Arguments pinned_insertions {BlockHash Key _ _ _ _} _.
Arguments pinned_canonincalized {BlockHash Key _ _ _ _} _.
Arguments Tables BlockHash Key {_ _ _ _}.
Arguments t_values {BlockHash Key _ _ _ _} _.
Arguments t_parents {BlockHash Key _ _ _ _} _.
Arguments t_pinned_insertions {BlockHash Key _ _ _ _} _.
Arguments jr_hash {BlockHash Key} _.
Arguments jr_parent_hash {BlockHash Key} _.
Arguments jr_inserted {BlockHash Key} _.
Arguments jr_deleted {BlockHash Key} _.

Section noncanonical.
Context {BlockHash Key : Type} `{Countable BlockHash} `{Countable Key}.
Context {E : Type}.

Abbreviation BlockOverlay := (BlockOverlay BlockHash Key).
Abbreviation OverlayLevel := (OverlayLevel BlockHash Key).
Abbreviation NonCanonicalOverlay := (NonCanonicalOverlay BlockHash Key).
Abbreviation Tables := (Tables BlockHash Key).

(** ** Levels *)
Definition level_push (l : OverlayLevel) (overlay : BlockOverlay) : res E OverlayLevel :=
  bit ← bit_u64 (journal_index overlay);
  Ok {| blocks := blocks l ++ [overlay]; used_indices := Z.lor (used_indices l) bit |}.

Definition available_index (l : OverlayLevel) : Z := trailing_ones 64 (used_indices l).

Definition level_remove (l : OverlayLevel) (index : nat) : res E (BlockOverlay * OverlayLevel) :=
  overlay ← expect (blocks l !! index);
  bit ← bit_u64 (journal_index overlay);
  Ok (overlay, {| blocks := delete index (blocks l); used_indices := Z.ldiff (used_indices l) bit |}).

Definition new_level : OverlayLevel := {| blocks := []; used_indices := 0 |}.

(** ** Reference counted values *)
Definition insert_values (vals : gmap Key (Z * DBValue)) (l : list (Key * DBValue)) : res E (gmap Key (Z * DBValue)) :=
  for_each (fun vals '(k, v) =>
    if match vals !! k with Some (_, value) => bool_decide (value = v) | None => true end then
      let '(counter, value) := default (0, v) (vals !! k) in
      counter' ← add_u 32 counter 1;
      Ok (<[k := (counter', value)]> vals)
    else Panic) l vals.

Definition discard_values (vals : gmap Key (Z * DBValue)) (l : list Key) : res E (gmap Key (Z * DBValue)) :=
  for_each (fun vals k =>
    match vals !! k with
    | Some (counter, value) =>
        counter' ← sub_u counter 1;
        Ok (if counter' =? 0 then delete k vals else <[k := (counter', value)]> vals)
    | None => Panic
    end) l vals.

(** ** Discarding the descendants of a block *)

(** What becomes of a block that was removed from its level: [num_pinned] counts the
    pinned blocks among it and its descendants. *)
Definition discard_block (t : Tables) (overlay : BlockOverlay) (num_pinned : Z) : res E Tables :=
  if num_pinned =? 0 then
    vals ← discard_values (t_values t) (bo_inserted overlay);
    Ok {| t_values := vals; t_parents := delete (bo_hash overlay) (t_parents t);
          t_pinned_insertions := t_pinned_insertions t |}
  else
    Ok {| t_values := t_values t; t_parents := t_parents t;
          t_pinned_insertions := <[bo_hash overlay := (bo_inserted overlay, num_pinned)]> (t_pinned_insertions t) |}.

Definition is_child_of (par : gmap BlockHash BlockHash) (hash : BlockHash) (overlay : BlockOverlay) : res E bool :=
  parent ← expect (par !! bo_hash overlay);
  Ok (bool_decide (parent = hash)).

(** The [while let] loop over the children of [hash] in a level; [descend] is the
    recursive call on the levels below.  A round removes a block, so the number of
    blocks bounds the rounds. *)
Fixpoint discard_children (descend : list OverlayLevel -> Tables -> BlockHash -> res E (list OverlayLevel * Tables * Z))
    (pins : gmap BlockHash Z) (hash : BlockHash) (rounds : nat) (level : OverlayLevel) (remainder : list OverlayLevel)
    (t : Tables) (pinned_children : Z) : res E (OverlayLevel * list OverlayLevel * Tables * Z) :=
  match rounds with
  | O => Ok (level, remainder, t, pinned_children)
  | S rounds' =>
      found ← position_res (is_child_of (t_parents t) hash) (blocks level);
      match found with
      | None => Ok (level, remainder, t, pinned_children)
      | Some i =>
          '(overlay, level) ← level_remove level i;
          '(remainder, t, num_pinned) ← descend remainder t (bo_hash overlay);
          num_pinned ← (if bool_decide (is_Some (pins !! bo_hash overlay)) then add_u 32 num_pinned 1 else Ok num_pinned);
          t ← discard_block t overlay num_pinned;
          pinned_children ← add_u 32 pinned_children num_pinned;
          discard_children descend pins hash rounds' level remainder t pinned_children
      end
  end.

(** [depth] is the number of levels, which the recursion leaves alone. *)
Fixpoint discard_descendants (depth : nat) (pins : gmap BlockHash Z) (lv : list OverlayLevel) (t : Tables)
    (hash : BlockHash) : res E (list OverlayLevel * Tables * Z) :=
  match depth, lv with
  | S depth', level :: remainder =>
      '(level, remainder, t, pinned_children) ←
        discard_children (discard_descendants depth' pins) pins hash (length (blocks level)) level remainder t 0;
      Ok (level :: remainder, t, pinned_children)
  | _, _ => Ok (lv, t, 0)
  end.

(** The levels are those from [level_index] on. *)
Fixpoint discard_journals (par : gmap BlockHash BlockHash) (lv : list OverlayLevel) (discarded : list bytes)
    (hash : BlockHash) : res E (list bytes) :=
  match lv with
  | [] => Ok discarded
  | level :: rest =>
      for_each (fun discarded overlay =>
        child ← is_child_of par hash overlay;
        if (child : bool) then discard_journals par rest (discarded ++ [journal_key overlay]) (bo_hash overlay)
        else Ok discarded) (blocks level) discarded
  end.

(** ** The overlay *)
Definition set_last_canonicalized (l : option (BlockHash * Z)) (self : NonCanonicalOverlay) : NonCanonicalOverlay :=
  {| last_canonicalized := l; levels := levels self; parents := parents self; values := values self;
     pinned := pinned self; pinned_insertions := pinned_insertions self;
     pinned_canonincalized := pinned_canonincalized self |}.
Definition set_levels (lv : list OverlayLevel) (self : NonCanonicalOverlay) : NonCanonicalOverlay :=
  {| last_canonicalized := last_canonicalized self; levels := lv; parents := parents self; values := values self;
     pinned := pinned self; pinned_insertions := pinned_insertions self;
     pinned_canonincalized := pinned_canonincalized self |}.
Definition set_pinned (pins : gmap BlockHash Z) (self : NonCanonicalOverlay) : NonCanonicalOverlay :=
  {| last_canonicalized := last_canonicalized self; levels := levels self; parents := parents self;
     values := values self; pinned := pins; pinned_insertions := pinned_insertions self;
     pinned_canonincalized := pinned_canonincalized self |}.
Definition set_pinned_canonincalized (l : list BlockHash) (self : NonCanonicalOverlay) : NonCanonicalOverlay :=
  {| last_canonicalized := last_canonicalized self; levels := levels self; parents := parents self;
     values := values self; pinned := pinned self; pinned_insertions := pinned_insertions self;
     pinned_canonincalized := l |}.

Definition tables (self : NonCanonicalOverlay) : Tables :=
  {| t_values := values self; t_parents := parents self; t_pinned_insertions := pinned_insertions self |}.
Definition set_tables (t : Tables) (self : NonCanonicalOverlay) : NonCanonicalOverlay :=
  {| last_canonicalized := last_canonicalized self; levels := levels self; parents := t_parents t;
     values := t_values t; pinned := pinned self; pinned_insertions := t_pinned_insertions t;
     pinned_canonincalized := pinned_canonincalized self |}.

Definition front_block_number (self : NonCanonicalOverlay) : res E Z :=
  match last_canonicalized self with Some (_, n) => add_u 64 n 1 | None => Ok 0 end.

Definition last_canonicalized_block_number (self : NonCanonicalOverlay) : option Z :=
  snd <$> last_canonicalized self.

(** Get a value from the node overlay. *)
Definition get (self : NonCanonicalOverlay) (key : Key) : option DBValue := snd <$> values self !! key.

Definition have_block (self : NonCanonicalOverlay) (hash : BlockHash) : bool :=
  bool_decide (is_Some (parents self !! hash)).

(** ** Pins *)
Definition pin (hash : BlockHash) : ST NonCanonicalOverlay E unit :=
  self ← st_get;
  refs ← st_lift (add_u 32 (default 0 (pinned self !! hash)) 1);
  st_modify (set_pinned (<[hash := refs]> (pinned self))).

(** The loop of [unpin]: gives up one reference to each discarded block from [parent]
    upwards.  A round that goes on takes one from the counts, whose sum is the fuel. *)
Fixpoint release (fuel : nat) (t : Tables) (parent : option BlockHash) : res E Tables :=
  match fuel, parent with
  | S fuel', Some hash =>
      let parent := t_parents t !! hash in
      match t_pinned_insertions t !! hash with
      | Some (ins, count) =>
          count ← sub_u count 1;
          t ← (if count =? 0 then
                 vals ← discard_values (t_values t) ins;
                 Ok {| t_values := vals; t_parents := delete hash (t_parents t);
                       t_pinned_insertions := delete hash (t_pinned_insertions t) |}
               else Ok {| t_values := t_values t; t_parents := t_parents t;
                          t_pinned_insertions := <[hash := (ins, count)]> (t_pinned_insertions t) |});
          release fuel' t parent
      | None => Ok t
      end
  | _, _ => Ok t
  end.

Definition pin_counts (pi : gmap BlockHash (list Key * Z)) : Z :=
  sum_Z ((fun '(_, (_, count)) => count) <$> map_to_list pi).

Definition unpin (hash : BlockHash) : ST NonCanonicalOverlay E unit :=
  self ← st_get;
  match pinned self !! hash with
  | Some refs =>
      refs ← st_lift (sub_u refs 1);
      if refs =? 0 then
        _ ← st_modify (set_pinned (delete hash (pinned self)));
        t ← st_lift (release (S (Z.to_nat (pin_counts (pinned_insertions self)))) (tables self) (Some hash));
        st_modify (set_tables t)
      else st_modify (set_pinned (<[hash := refs]> (pinned self)))
  | None => mret tt
  end.

(** Confirm that all changes made to commit sets are on disk. *)
Definition sync : ST NonCanonicalOverlay E unit :=
  self ← st_get;
  _ ← st_modify (set_pinned_canonincalized []);
  st_for (fun _ hash => unpin hash) tt (pinned_canonincalized self).

(** ** Reverting *)
Definition set_level (i : nat) (level : OverlayLevel) (self : NonCanonicalOverlay) : NonCanonicalOverlay :=
  set_levels (<[i := level]> (levels self)) self.

(** A block that leaves the overlay for good, whether it is pinned or not. *)
Definition drop_block (commit : CommitSet Key) (overlay : BlockOverlay) : ST NonCanonicalOverlay E (CommitSet Key) :=
  self ← st_get;
  vals ← st_lift (discard_values (values self) (bo_inserted overlay));
  _ ← st_modify (set_tables {| t_values := vals; t_parents := delete (bo_hash overlay) (parents self);
                               t_pinned_insertions := pinned_insertions self |});
  mret (meta_delete [journal_key overlay] commit).

Definition revert_one : ST NonCanonicalOverlay E (option (CommitSet Key)) :=
  self ← st_get;
  match last (levels self) with
  | None => mret None
  | Some level =>
      _ ← st_modify (set_levels (take (pred (length (levels self))) (levels self)));
      commit ← st_for drop_block empty_commit (blocks level);
      mret (Some commit)
  end.

Definition has_hash (hash : BlockHash) (overlay : BlockOverlay) : bool := bool_decide (bo_hash overlay = hash).

(** The loop of [remove] over the levels, the last first: [Some None] is the early
    return of a block that has children. *)
Fixpoint remove_from (hash : BlockHash) (level_count : nat) (commit : CommitSet Key) (idx : list (nat * OverlayLevel)) :
    ST NonCanonicalOverlay E (option (CommitSet Key)) :=
  match idx with
  | [] => mret (Some commit)
  | (level_index, level) :: idx' =>
      match position (has_hash hash) (blocks level) with
      | None => remove_from hash level_count commit idx'
      | Some index =>
          self ← st_get;
          if negb (level_index =? pred level_count)%nat &&
             bool_decide (hash ∈ (map_to_list (parents self)).*2)
          then mret None
          else
            '(overlay, level) ← st_lift (level_remove level index);
            _ ← st_modify (set_level level_index level);
            commit ← drop_block commit overlay;
            mret (Some commit)
      end
  end.

Definition remove (hash : BlockHash) : ST NonCanonicalOverlay E (option (CommitSet Key)) :=
  self ← st_get;
  found ← remove_from hash (length (levels self)) empty_commit (reverse (enumerate (levels self)));
  match found with
  | None => mret None
  | Some commit =>
      self ← st_get;
      _ ← (match last (levels self) with
           | Some level =>
               if bool_decide (blocks level = []) then
                 st_modify (set_levels (take (pred (length (levels self))) (levels self)))
               else mret tt
           | None => mret tt
           end);
      mret (if bool_decide (deleted (meta commit) = []) then None else Some commit)
  end.

End noncanonical.

(** ** Inserting and canonicalizing *)
Section journaled.
Context {BlockHash Key : Type} `{Countable BlockHash} `{Countable Key}.
Context `{Codec unit, Codec (BlockHash * Z), Codec (Z * Z), Codec (JournalRecord BlockHash Key)}.

Abbreviation BlockOverlay := (BlockOverlay BlockHash Key).
Abbreviation OverlayLevel := (OverlayLevel BlockHash Key).
Abbreviation NonCanonicalOverlay := (NonCanonicalOverlay BlockHash Key).
Abbreviation OV := (ST NonCanonicalOverlay StateDbError).

Definition to_journal_key (block index : Z) : bytes := to_meta_key NON_CANONICAL_JOURNAL (block, index).

(** The checks of [insert], and the first block of an empty database. *)
Definition insert_checks (number : Z) (parent_hash : BlockHash) (front : Z) : OV (CommitSet Key) :=
  self ← st_get;
  match last_canonicalized self with
  | None =>
      if bool_decide (levels self = []) && (0 <? number) then
        (* assume that parent was canonicalized *)
        prev ← st_lift (sub_u number 1);
        _ ← st_modify (set_last_canonicalized (Some (parent_hash, prev)));
        mret (meta_insert (to_meta_key LAST_CANONICAL tt) (encode (parent_hash, prev)) empty_commit)
      else mret empty_commit
  | Some (h, n) =>
      if number <? front then st_lift (Err InvalidBlockNumber)
      else
        top ← st_lift (add_u 64 front (Z.of_nat (length (levels self))));
        if top <? number then st_lift (Err InvalidBlockNumber)
        else if number =? front then
          prev ← st_lift (sub_u number 1);
          if bool_decide (h = parent_hash) && (n =? prev) then mret empty_commit
          else st_lift (Err InvalidParent)
        else if have_block self parent_hash then mret empty_commit
        else st_lift (Err InvalidParent)
  end.

(** The level a block is inserted in, which may be a new one, as its index. *)
Definition insert_level (number front : Z) : OV nat :=
  self ← st_get;
  top ← st_lift (add_u 64 front (Z.of_nat (length (levels self))));
  if bool_decide (levels self = []) || (number =? top) then
    _ ← st_modify (set_levels (levels self ++ [new_level]));
    mret (length (levels self))
  else
    offset ← st_lift (sub_u number front);
    mret (Z.to_nat offset).

Definition insert (hash : BlockHash) (number : Z) (parent_hash : BlockHash) (changeset : ChangeSet Key) :
    OV (CommitSet Key) :=
  self ← st_get;
  front ← st_lift (front_block_number self);
  commit ← insert_checks number parent_hash front;
  i ← insert_level number front;
  self ← st_get;
  level ← st_lift (expect (levels self !! i));
  if MAX_BLOCKS_PER_LEVEL <=? Z.of_nat (length (blocks level)) then st_lift (Err (TooManySiblingBlocks number))
  else if existsb (has_hash hash) (blocks level) then st_lift (Err BlockAlreadyExists)
  else
    let index := available_index level in
    let overlay := {| bo_hash := hash; journal_index := index; journal_key := to_journal_key number index;
                      bo_inserted := (inserted changeset).*1; bo_deleted := deleted changeset |} in
    level ← st_lift (level_push level overlay);
    _ ← st_modify (set_level i level);
    let journal_record := {| jr_hash := hash; jr_parent_hash := parent_hash;
                             jr_inserted := inserted changeset; jr_deleted := deleted changeset |} in
    vals ← st_lift (insert_values (values self) (jr_inserted journal_record));
    _ ← st_modify (set_tables {| t_values := vals; t_parents := <[hash := parent_hash]> (parents self);
                                 t_pinned_insertions := pinned_insertions self |});
    mret (meta_insert (to_journal_key number index) (encode journal_record) commit).

(** The nodes of the block that becomes canonical, with their values. *)
Definition canonical_values (vals : gmap Key (Z * DBValue)) (keys : list Key) : res StateDbError (list (Key * DBValue)) :=
  for_each (fun acc k => '(_, v) ← expect (vals !! k); Ok (acc ++ [(k, v)])) keys [].

(** A round of the loop over the blocks of the level, of which the one at [index]
    becomes canonical. *)
Definition canonicalize_block (index : nat) (acc : CommitSet Key * list bytes) (x : nat * BlockOverlay) :
    OV (CommitSet Key * list bytes) :=
  let '(commit, discarded_journals) := acc in
  let '(i, overlay) := x in
  '(commit, discarded_journals, pinned_children) ← (
    self ← st_get;
    if bool_decide (i = index) then
      ins ← st_lift (canonical_values (values self) (bo_inserted overlay));
      mret (data_delete (bo_deleted overlay) (data_insert ins commit), discarded_journals, 0)
    else
      discarded ← st_lift (discard_journals (parents self) (levels self) discarded_journals (bo_hash overlay));
      '(lv, t, pinned_children) ← st_lift (discard_descendants (length (levels self)) (pinned self) (levels self)
                                             (tables self) (bo_hash overlay));
      _ ← st_modify (fun self => set_tables t (set_levels lv self));
      mret (commit, discarded, pinned_children));
  self ← st_get;
  pinned_children ← st_lift (if bool_decide (is_Some (pinned self !! bo_hash overlay)) then add_u 32 pinned_children 1
                             else Ok pinned_children);
  t ← st_lift (discard_block (tables self) overlay pinned_children);
  _ ← st_modify (set_tables t);
  mret (commit, discarded_journals ++ [journal_key overlay]).

Definition canonicalize (hash : BlockHash) (commit : CommitSet Key) : OV (CommitSet Key * Z) :=
  self ← st_get;
  match levels self with
  | [] => st_lift (Err InvalidBlock)
  | level :: rest =>
      _ ← st_modify (set_levels rest);
      index ← st_lift (ok_or InvalidBlock (position (has_hash hash) (blocks level)));
      _ ← pin hash;
      _ ← st_modify (fun self => set_pinned_canonincalized (pinned_canonincalized self ++ [hash]) self);
      '(commit, discarded_journals) ← st_for (canonicalize_block index) (commit, []) (enumerate (blocks level));
      let commit := meta_delete discarded_journals commit in
      self ← st_get;
      number ← st_lift (front_block_number self);
      _ ← st_modify (set_last_canonicalized (Some (hash, number)));
      mret (meta_insert (to_meta_key LAST_CANONICAL tt) (encode (hash, number)) commit, number)
  end.

(** ** Restoring the overlay from its journal *)
Section restore.
Context {DbError : Type} (db : MetaDb DbError).

Abbreviation R := (res (Error DbError)).
Abbreviation Journal := (OverlayLevel * gmap Key (Z * DBValue) * gmap BlockHash BlockHash)%type.

(** Entry [index] of the journal of a level. *)
Definition read_entry (block : Z) (acc : Journal) (index : Z) : R Journal :=
  let '(level, vals, par) := acc in
  let journal_key := to_journal_key block index in
  found ← map_err Db (db journal_key);
  match found with
  | None => Ok acc
  | Some record =>
      record ← decode_res (JournalRecord BlockHash Key) record;
      let overlay := {| bo_hash := jr_hash record; journal_index := index; journal_key := journal_key;
                        bo_inserted := (jr_inserted record).*1; bo_deleted := jr_deleted record |} in
      vals ← insert_values vals (jr_inserted record);
      level ← level_push level overlay;
      Ok (level, vals, <[jr_hash record := jr_parent_hash record]> par)
  end.

Definition read_level (block : Z) (vals : gmap Key (Z * DBValue)) (par : gmap BlockHash BlockHash) : R Journal :=
  for_each (read_entry block) (seqZ 0 MAX_BLOCKS_PER_LEVEL) (new_level, vals, par).

(** The [loop]: reads levels until one is empty.  [None] is a loop that has not ended
    after [fuel] levels. *)
Fixpoint read_levels (fuel : nat) (block : Z) (lv : list OverlayLevel) (vals : gmap Key (Z * DBValue))
    (par : gmap BlockHash BlockHash) : option (R (list OverlayLevel * gmap Key (Z * DBValue) * gmap BlockHash BlockHash)) :=
  match fuel with
  | O => None
  | S fuel' =>
      match read_level block vals par with
      | Ok (level, vals, par) =>
          if bool_decide (blocks level = []) then Some (Ok (lv, vals, par))
          else match add_u 64 block 1 with
               | Ok block => read_levels fuel' block (lv ++ [level]) vals par
               | Err e => Some (Err e)
               | Panic => Some Panic
               end
      | Err e => Some (Err e)
      | Panic => Some Panic
      end
  end.

Definition restored (last : option (BlockHash * Z)) (lv : list OverlayLevel) (vals : gmap Key (Z * DBValue))
    (par : gmap BlockHash BlockHash) : NonCanonicalOverlay :=
  {| last_canonicalized := last; levels := lv; parents := par; values := vals; pinned := ∅;
     pinned_insertions := ∅; pinned_canonincalized := [] |}.

Definition read_last_canonicalized : R (option (BlockHash * Z)) :=
  found ← map_err Db (db (to_meta_key LAST_CANONICAL tt));
  match found with
  | None => Ok None
  | Some buffer => last ← decode_res (BlockHash * Z) buffer; Ok (Some last)
  end.

Definition new (fuel : nat) : option (R NonCanonicalOverlay) :=
  match read_last_canonicalized with
  | Ok None => Some (Ok (restored None [] ∅ ∅))
  | Ok (Some (hash, block)) =>
      match add_u 64 block 1 with
      | Ok first =>
          (fun r => '(lv, vals, par) ← r; Ok (restored (Some (hash, block)) lv vals par)) <$> read_levels fuel first [] ∅ ∅
      | Err e => Some (Err e)
      | Panic => Some Panic
      end
  | Err e => Some (Err e)
  | Panic => Some Panic
  end.
End restore.

End journaled.
