(* ===== verification/NonCanonicalFacts.v ===== *)
(** * The overlay of non-canonical blocks: invariant

    What a block hash commits to is a [Block]: its number, its parent and the trie nodes
    it inserts and deletes.  Relative to an assignment of blocks to hashes, [inv] says
    what the overlay holds: the levels are the blocks of consecutive numbers, linked by
    their parents; every stored node is counted once for each block that inserted it and
    is still needed; a discarded block is kept for as many pins as there are on it and
    its discarded descendants.  Every operation keeps the invariant and does not panic. *)
From stdpp Require Import base gmap list.
From Stdlib Require Import ZArith Lia.
From S2P Require Import Prelude StateDbBase NonCanonical.
Set Warnings "-clear-no-such-hyp".
Open Scope Z_scope.

(** ** Indices of a level *)
Lemma trailing_ones_spec n x :
  0 <= trailing_ones n x <= Z.of_nat n /\
  (forall i, 0 <= i < trailing_ones n x -> Z.testbit x i = true) /\
  (trailing_ones n x < Z.of_nat n -> Z.testbit x (trailing_ones n x) = false).
Proof.
  revert x. induction n as [|n IH]; intros x; cbn [trailing_ones]; [repeat split; lia|].
  destruct (Z.testbit x 0) eqn:E0; [|repeat split; try lia; done].
  destruct (IH (Z.shiftr x 1)) as (Hb & Hones & Hzero).
  assert (forall i, 0 <= i -> Z.testbit (Z.shiftr x 1) i = Z.testbit x (1 + i)) as Hsh.
  { intros i Hi. rewrite Z.shiftr_spec by done. f_equal. lia. }
  repeat split; [lia..| |].
  - intros i Hi. destruct (decide (i = 0)) as [->|]; [done|].
    replace i with (1 + (i - 1)) by lia. rewrite <- Hsh by lia. apply Hones. lia.
  - intros Hlt. rewrite <- Hsh by lia. apply Hzero. lia.
Qed.

Section levels.
Context {BlockHash Key : Type}.

Definition indices (l : OverlayLevel BlockHash Key) : list Z := journal_index <$> blocks l.

(** The bitmask of a level is that of the indices its blocks use. *)
Record level_wf (l : OverlayLevel BlockHash Key) : Prop := {
  wf_nodup : NoDup (indices l);
  wf_range : forall i, i ∈ indices l -> 0 <= i < MAX_BLOCKS_PER_LEVEL;
  wf_used : forall i, 0 <= i -> Z.testbit (used_indices l) i = true <-> i ∈ indices l;
}.

Lemma level_wf_new : level_wf new_level.
Proof.
  split; [constructor|by intros i ?%elem_of_nil|]. intros i _. simpl. rewrite Z.bits_0.
  split; [done|by intros ?%elem_of_nil].
Qed.

Lemma bit_u64_ok {E} i : i < 64 -> @bit_u64 E i = Ok (Z.shiftl 1 i).
Proof. intros Hi. unfold bit_u64. by rewrite (proj2 (Z.ltb_lt _ _) Hi). Qed.

Lemma bit_testbit i j : 0 <= i -> 0 <= j -> Z.testbit (Z.shiftl 1 i) j = bool_decide (i = j).
Proof.
  intros Hi Hj. rewrite Z.shiftl_spec by done. case_bool_decide as Heq; [subst; by rewrite Z.sub_diag|].
  destruct (decide (j < i)); [apply Z.testbit_neg_r; lia|]. apply (Z.bits_above_log2 1); simpl; lia.
Qed.

(** A level that has room has a free index. *)
Lemma available_index_spec l :
  level_wf l -> (Z.of_nat (length (blocks l)) < MAX_BLOCKS_PER_LEVEL) ->
  0 <= available_index l < MAX_BLOCKS_PER_LEVEL /\ available_index l ∉ indices l.
Proof.
  intros Hwf Hlen. unfold available_index.
  destruct (trailing_ones_spec 64 (used_indices l)) as (Hb & Hones & Hzero).
  set (r := trailing_ones 64 (used_indices l)) in *.
  assert (r <= Z.of_nat (length (blocks l))) as Hr.
  { assert (seqZ 0 r ⊆ indices l) as Hsub.
    { intros i Hi%elem_of_seqZ. apply (wf_used l Hwf); [lia|]. apply Hones. lia. }
    apply (NoDup_submseteq (seqZ 0 r)) in Hsub; [|apply NoDup_seqZ]. apply submseteq_length in Hsub.
    rewrite length_seqZ in Hsub. unfold indices in Hsub. rewrite length_fmap in Hsub. lia. }
  unfold MAX_BLOCKS_PER_LEVEL in *. split; [lia|].
  intros Hin. apply (wf_used l Hwf) in Hin; [|lia]. rewrite Hzero in Hin by lia. done.
Qed.

Lemma level_push_spec {E} l overlay :
  level_wf l -> 0 <= journal_index overlay < MAX_BLOCKS_PER_LEVEL -> journal_index overlay ∉ indices l ->
  exists l', @level_push _ _ E l overlay = Ok l' /\ blocks l' = blocks l ++ [overlay] /\ level_wf l'.
Proof.
  intros Hwf Hr Hfresh. unfold level_push. rewrite bit_u64_ok by (unfold MAX_BLOCKS_PER_LEVEL in Hr; lia).
  eexists; split; [done|]. split; [done|].
  split; unfold indices; simpl; rewrite fmap_app; cbn.
  - apply NoDup_app. split; [apply Hwf|]. split; [|apply NoDup_singleton].
    intros i Hi ->%list_elem_of_singleton. done.
  - intros i [Hi| ->%list_elem_of_singleton]%elem_of_app; [|done]. by apply (wf_range l Hwf).
  - intros i Hi. rewrite Z.lor_spec, bit_testbit, elem_of_app, list_elem_of_singleton by lia.
    rewrite orb_true_iff, (wf_used l Hwf i Hi), bool_decide_eq_true. naive_solver.
Qed.

Lemma NoDup_delete_not_elem {A} (l : list A) i x : NoDup l -> l !! i = Some x -> x ∉ delete i l.
Proof.
  intros Hnd Hx. rewrite (delete_take_drop l i). pose proof (take_drop_middle l i x Hx) as Heq.
  rewrite <- Heq in Hnd. apply NoDup_app in Hnd as (_ & Hd & [Hx2 _]%NoDup_cons).
  intros [Hin|Hin]%elem_of_app; [|done]. apply (Hd x Hin). constructor.
Qed.

Lemma level_remove_spec {E} l i overlay :
  level_wf l -> blocks l !! i = Some overlay ->
  exists l', @level_remove _ _ E l i = Ok (overlay, l') /\ blocks l' = delete i (blocks l) /\ level_wf l'.
Proof.
  intros Hwf Hi. unfold level_remove. rewrite Hi. cbn.
  assert (indices l !! i = Some (journal_index overlay)) as Hidx by (unfold indices; by rewrite list_lookup_fmap, Hi).
  assert (0 <= journal_index overlay < MAX_BLOCKS_PER_LEVEL) as Hr
    by (apply (wf_range l Hwf); by eapply list_elem_of_lookup_2).
  rewrite bit_u64_ok by (unfold MAX_BLOCKS_PER_LEVEL in Hr; lia). eexists; split; [done|]. split; [done|].
  assert (delete i (indices l) = journal_index <$> delete i (blocks l)) as Hdel.
  { unfold indices. rewrite !delete_take_drop, fmap_app, fmap_take, fmap_drop. done. }
  assert (forall j, j ∈ delete i (indices l) <-> j ∈ indices l /\ j <> journal_index overlay) as Hin.
  { intros j. split.
    - intros Hj. split; [eapply elem_of_submseteq; [exact Hj|apply sublist_submseteq, sublist_delete]|].
      intros ->. by apply (NoDup_delete_not_elem _ _ _ (wf_nodup l Hwf) Hidx).
    - intros [Hj Hne]. rewrite (delete_Permutation (indices l) i _ Hidx) in Hj. by apply elem_of_cons in Hj as [?|?]. }
  split; unfold indices; simpl; rewrite <- Hdel.
  - eapply sublist_NoDup; [apply Hwf|apply sublist_delete].
  - intros j [Hj _]%Hin. by apply (wf_range l Hwf).
  - intros j Hj. rewrite Z.ldiff_spec, bit_testbit, Hin by lia. rewrite andb_true_iff, (wf_used l Hwf j Hj).
    rewrite negb_true_iff, bool_decide_eq_false. naive_solver.
Qed.
End levels.

(** ** Blocks and the nodes they need *)
Record Block (BlockHash Key : Type) := {
  b_number : Z;
  b_parent : BlockHash;
  b_inserted : list Key;
  b_deleted : list Key;
}.
Arguments b_number {BlockHash Key} _.
Arguments b_parent {BlockHash Key} _.
Arguments b_inserted {BlockHash Key} _.
Arguments b_deleted {BlockHash Key} _.

Section counts.
Context {Key : Type} `{Countable Key} {E : Type} (value_of : Key -> DBValue).

(** [vals] holds the keys with a positive count. *)
Definition counts_ok (vals : gmap Key (Z * DBValue)) (f : Key -> Z) : Prop :=
  forall k, vals !! k = if 0 <? f k then Some (f k, value_of k) else None.

Definition tagged (keys : list Key) : list (Key * DBValue) := (fun k => (k, value_of k)) <$> keys.

Lemma counts_ok_ext vals f g : counts_ok vals f -> (forall k, f k = g k) -> counts_ok vals g.
Proof. intros Hf Hfg k. by rewrite (Hf k), Hfg. Qed.

Lemma insert_values_spec keys vals f :
  counts_ok vals f -> (forall k, 0 <= f k /\ f k + occ k keys < 2 ^ 32) ->
  exists vals', @insert_values _ _ _ E vals (tagged keys) = Ok vals' /\ counts_ok vals' (fun k => f k + occ k keys).
Proof.
  revert vals f. induction keys as [|k keys IH]; intros vals f Hf Hb.
  { exists vals. split; [done|]. eapply counts_ok_ext; [done|]. intros k. simpl. lia. }
  assert (exists vals', (if match vals !! k with Some (_, value) => bool_decide (value = value_of k) | None => true end
      then let '(counter, value) := default (0, value_of k) (vals !! k) in
           counter' ← add_u 32 counter 1; Ok (<[k := (counter', value)]> vals) else Panic) = @Ok E _ vals' /\
      counts_ok vals' (fun k' => f k' + (if decide (k = k') then 1 else 0))) as (vals' & Heq & Hok).
  { destruct (Hb k) as [Hk0 Hk]. simpl in Hk. pose proof (occ_nonneg k keys). rewrite decide_True in Hk by done.
    exists (<[k := (f k + 1, value_of k)]> vals). split.
    - rewrite (Hf k). case_cmp; cbn [default from_option id]; [rewrite bool_decide_true by done|replace (f k) with 0 by lia];
        rewrite add_u_ok by lia; done.
    - intros k'. destruct (decide (k = k')) as [<-|Hne].
      + rewrite lookup_insert_eq. by destruct (Z.ltb_spec 0 (f k + 1)); [|lia].
      + rewrite lookup_insert_ne, Z.add_0_r by done. apply Hf. }
  destruct (IH vals' _ Hok) as (vals'' & Heq' & Hok').
  { intros k'. destruct (Hb k') as [? Hk']. simpl in Hk'. case_decide; lia. }
  exists vals''. split.
  - unfold insert_values in *. cbn [tagged fmap list_fmap for_each]. rewrite Heq. exact Heq'.
  - eapply counts_ok_ext; [done|]. intros k'. simpl. case_decide; lia.
Qed.

Lemma discard_values_spec keys vals f :
  counts_ok vals (fun k => f k + occ k keys) -> (forall k, 0 <= f k) ->
  exists vals', @discard_values _ _ _ E vals keys = Ok vals' /\ counts_ok vals' f.
Proof.
  revert vals. induction keys as [|k keys IH]; intros vals Hf Hb.
  { exists vals. split; [done|]. eapply counts_ok_ext; [done|]. intros k. simpl. lia. }
  assert (exists vals', match vals !! k with
      | Some (counter, value) => counter' ← sub_u counter 1;
          Ok (if counter' =? 0 then delete k vals else <[k := (counter', value)]> vals)
      | None => Panic end = @Ok E _ vals' /\ counts_ok vals' (fun k' => f k' + occ k' keys)) as (vals' & Heq & Hok).
  { pose proof (Hf k) as Hk. simpl in Hk. pose proof (occ_nonneg k keys). specialize (Hb k).
    rewrite decide_True in Hk by done. destruct (Z.ltb_spec 0 (f k + (1 + occ k keys))); [|lia].
    rewrite Hk. eexists. split; [rewrite sub_u_ok by lia; cbn; done|]. intros k'. pose proof (Hf k') as Hk'. simpl in Hk'.
    destruct (decide (k = k')) as [<-|Hne].
    - destruct (Z.eqb_spec (f k + (1 + occ k keys) - 1) 0).
      + rewrite lookup_delete_eq. by destruct (Z.ltb_spec 0 (f k + occ k keys)); [lia|].
      + rewrite lookup_insert_eq. destruct (Z.ltb_spec 0 (f k + occ k keys)); [|lia]. do 2 f_equal. lia.
    - rewrite Z.add_0_l in Hk'. destruct (_ =? 0); [rewrite lookup_delete_ne by done|rewrite lookup_insert_ne by done]; done. }
  destruct (IH vals' Hok Hb) as (vals'' & Heq' & Hok'). exists vals''. split; [|done].
  unfold discard_values in *. cbn [for_each]. rewrite Heq. exact Heq'.
Qed.
End counts.

(** ** Discarding *)
Section discard.
Context {BlockHash Key : Type} `{Countable BlockHash} `{Countable Key} {E : Type}.
Context (block : BlockHash -> Block BlockHash Key) (value_of : Key -> DBValue).

Abbreviation BlockOverlay := (BlockOverlay BlockHash Key).
Abbreviation OverlayLevel := (OverlayLevel BlockHash Key).
Abbreviation Tables := (Tables BlockHash Key).
Abbreviation Pins := (gmap BlockHash (list Key * Z)).
Implicit Types (h x y : BlockHash) (lv : list OverlayLevel) (t : Tables) (pins : gmap BlockHash Z) (PI : Pins).

Definition number_of h : Z := b_number (block h).
Definition parent_of h : BlockHash := b_parent (block h).

(** How often the blocks [os] together insert a node. *)
Definition need (os : list BlockHash) (k : Key) : Z := sum_Z ((fun h => occ k (b_inserted (block h))) <$> os).

Definition refs_ok (vals : gmap Key (Z * DBValue)) (os : list BlockHash) : Prop := counts_ok value_of vals (need os).

Definition pi_keys PI : list BlockHash := (map_to_list PI).*1.

Definition level_blocks lv : list BlockOverlay := lv ≫= blocks.
Definition hashes lv : list BlockHash := bo_hash <$> level_blocks lv.

(** The number of pins a discarded block is kept for. *)
Definition cnt PI x : Z := default 0 (snd <$> PI !! x).
Definition ind pins x : Z := if decide (is_Some (pins !! x)) then 1 else 0.

(** The pins on the children of [x] among the blocks [dm]. *)
Definition kids (dm : list BlockHash) PI x : Z :=
  sum_Z ((fun y => if decide (parent_of y = x) then cnt PI y else 0) <$> dm).

Lemma need_nonneg os k : 0 <= need os k.
Proof. apply sum_Z_nonneg. intros. apply occ_nonneg. Qed.

Lemma need_cons h os k : need (h :: os) k = occ k (b_inserted (block h)) + need os k.
Proof. done. Qed.

#[export] Instance need_proper : Proper ((≡ₚ) ==> eq ==> eq) need.
Proof. intros os os' Hp k _ <-. unfold need. by apply sum_Z_perm, fmap_Permutation. Qed.

#[export] Instance refs_ok_proper vals : Proper ((≡ₚ) ==> iff) (refs_ok vals).
Proof. intros os os' Hp. by split; intros Hr k; rewrite (Hr k), !Hp. Qed.

Lemma refs_discard vals h os :
  refs_ok vals (h :: os) ->
  exists vals', @discard_values _ _ _ E vals (b_inserted (block h)) = Ok vals' /\ refs_ok vals' os.
Proof.
  intros Hr. apply discard_values_spec with (value_of := value_of); [|apply need_nonneg].
  eapply counts_ok_ext; [exact Hr|]. intros k. rewrite need_cons. lia.
Qed.

Lemma refs_ok_lookup vals os h k : refs_ok vals os -> h ∈ os -> k ∈ b_inserted (block h) -> snd <$> vals !! k = Some (value_of k).
Proof.
  intros Hr Hh Hk. rewrite (Hr k). apply list_elem_of_split in Hh as (l1 & l2 & ->).
  rewrite <- !Permutation_middle, !need_cons. apply occ_pos in Hk. pose proof (need_nonneg (l1 ++ l2) k).
  by destruct (Z.ltb_spec 0 (occ k (b_inserted (block h)) + need (l1 ++ l2) k)); [|lia].
Qed.

Lemma pi_keys_insert PI x a : PI !! x = None -> pi_keys (<[x := a]> PI) ≡ₚ x :: pi_keys PI.
Proof. intros Hx. unfold pi_keys. by rewrite (fmap_Permutation fst _ _ (map_to_list_insert PI x a Hx)). Qed.

Lemma pi_keys_delete PI x a : PI !! x = Some a -> pi_keys PI ≡ₚ x :: pi_keys (delete x PI).
Proof. intros Hx. unfold pi_keys. by rewrite <- (fmap_Permutation fst _ _ (map_to_list_delete PI x a Hx)). Qed.

Lemma elem_of_pi_keys PI x : x ∈ pi_keys PI <-> is_Some (PI !! x).
Proof.
  unfold pi_keys. rewrite list_elem_of_fmap. split.
  - intros ([y a] & -> & Hy%elem_of_map_to_list). by eexists.
  - intros [a Ha]. exists (x, a). split; [done|]. by apply elem_of_map_to_list.
Qed.

Lemma kids_app dm1 dm2 PI x : kids (dm1 ++ dm2) PI x = kids dm1 PI x + kids dm2 PI x.
Proof. unfold kids. by rewrite fmap_app, sum_Z_app. Qed.

Lemma kids_ext dm PI PI' x : (forall y, y ∈ dm -> PI' !! y = PI !! y) -> kids dm PI' x = kids dm PI x.
Proof.
  intros Hext. unfold kids. f_equal. apply list_fmap_ext. intros i y Hy. unfold cnt. rewrite Hext; [done|].
  by eapply list_elem_of_lookup_2.
Qed.

Lemma kids_none dm PI x : (forall y, y ∈ dm -> parent_of y <> x) -> kids dm PI x = 0.
Proof.
  induction dm as [|y dm IH]; intros Hne; [done|]. unfold kids in *. rewrite fmap_cons, sum_Z_cons, IH.
  - rewrite decide_False; [done|]. apply Hne. constructor.
  - intros z Hz. apply Hne. by constructor.
Qed.
Lemma kids_child dm PI y :
  (forall z, z ∈ dm -> 0 <= cnt PI z) -> y ∈ dm -> cnt PI y <= kids dm PI (parent_of y).
Proof.
  intros Hpos (l1 & l2 & ->)%list_elem_of_split. unfold kids. rewrite fmap_app, fmap_cons, sum_Z_app, sum_Z_cons, decide_True by done.
  assert (forall l, (forall z, z ∈ l -> z ∈ l1 ++ y :: l2) ->
    0 <= sum_Z ((fun z => if decide (parent_of z = parent_of y) then cnt PI z else 0) <$> l)) as Hnn.
  { intros l Hl. apply sum_Z_nonneg. intros z Hz. case_decide; [by apply Hpos, Hl|done]. }
  pose proof (Hnn l1 ltac:(set_solver)). pose proof (Hnn l2 ltac:(set_solver)). lia.
Qed.

(** What is known of the levels [lv] from number [m] on, and of the tables; [R] are
    further blocks whose nodes are counted. *)
Record pre (m : Z) lv t (R : list BlockHash) : Prop := {
  pre_wf : Forall level_wf lv;
  pre_nodup : NoDup (hashes lv);
  pre_par : forall x, x ∈ hashes lv -> t_parents t !! x = Some (parent_of x);
  pre_pi : forall x, x ∈ hashes lv -> t_pinned_insertions t !! x = None;
  pre_num : forall i l b, lv !! i = Some l -> b ∈ blocks l -> number_of (bo_hash b) = m + Z.of_nat i;
  pre_link : forall x, x ∈ hashes lv -> number_of (parent_of x) = number_of x - 1;
  pre_ins : forall b, b ∈ level_blocks lv -> bo_inserted b = b_inserted (block (bo_hash b));
  pre_refs : refs_ok (t_values t) (hashes lv ++ pi_keys (t_pinned_insertions t) ++ R);
}.

(** [dm] are discarded from the levels [lv]: children of [h] and all their descendants.
    Those with pins on them or their descendants, and only those, are kept in
    [pinned_insertions], with the number of these pins; [n] counts the pins in all. *)
Record discards pins h lv t lv' t' (n : Z) (dm : list BlockHash) : Prop := {
  d_sub : Forall2 (fun l l' => blocks l' `sublist_of` blocks l /\ level_wf l') lv lv';
  d_perm : hashes lv ≡ₚ dm ++ hashes lv';
  d_desc : forall x, x ∈ dm -> parent_of x = h \/ parent_of x ∈ dm;
  d_kept : forall x, x ∈ hashes lv' -> parent_of x ∉ dm;
  d_par : forall x, t_parents t' !! x =
    if decide (x ∈ dm /\ t_pinned_insertions t' !! x = None) then None else t_parents t !! x;
  d_other : forall x, x ∉ dm -> t_pinned_insertions t' !! x = t_pinned_insertions t !! x;
  d_pi : forall x, x ∈ dm -> t_pinned_insertions t' !! x =
    let w := ind pins x + kids dm (t_pinned_insertions t') x in
    if 0 <? w then Some (b_inserted (block x), w) else None;
  d_n : n = kids dm (t_pinned_insertions t') h;
  d_bound : 0 <= n <= Z.of_nat (length dm);
}.

Lemma elem_of_level_blocks lv b : b ∈ level_blocks lv <-> exists i l, lv !! i = Some l /\ b ∈ blocks l.
Proof.
  unfold level_blocks. rewrite list_elem_of_bind. split.
  - intros (l & Hb & [i Hi]%list_elem_of_lookup). by exists i, l.
  - intros (i & l & Hi & Hb). exists l. split; [done|]. by eapply list_elem_of_lookup_2.
Qed.

Lemma elem_of_hashes lv x : x ∈ hashes lv <-> exists i l b, lv !! i = Some l /\ b ∈ blocks l /\ bo_hash b = x.
Proof.
  unfold hashes. rewrite list_elem_of_fmap. setoid_rewrite elem_of_level_blocks. split.
  - intros (b & -> & i & l & Hi & Hb). by exists i, l, b.
  - intros (i & l & b & Hi & Hb & <-). exists b. split; [done|]. by exists i, l.
Qed.

Lemma discards_blocks pins h lv t lv' t' n dm i l' :
  discards pins h lv t lv' t' n dm -> lv' !! i = Some l' -> exists l, lv !! i = Some l /\ forall b, b ∈ blocks l' -> b ∈ blocks l.
Proof.
  intros Hd Hi. destruct (Forall2_lookup_r _ _ _ _ _ (d_sub _ _ _ _ _ _ _ _ Hd) Hi) as (l & Hl & Hs & _).
  exists l. split; [done|]. intros b Hb. eapply elem_of_submseteq; [done|]. by apply sublist_submseteq.
Qed.

(** What is known holds again afterwards. *)
Lemma discards_pre pins h m lv t lv' t' n dm R :
  pre m lv t R -> discards pins h lv t lv' t' n dm ->
  refs_ok (t_values t') (hashes lv' ++ pi_keys (t_pinned_insertions t') ++ R) -> pre m lv' t' R.
Proof.
  intros Hp Hd Hr. pose proof (pre_nodup _ _ _ _ Hp) as Hnd. rewrite (d_perm _ _ _ _ _ _ _ _ Hd) in Hnd.
  apply NoDup_app in Hnd as (_ & Hdis & Hnd').
  assert (forall x, x ∈ hashes lv' -> x ∈ hashes lv /\ x ∉ dm) as Hin.
  { intros x Hx. rewrite (d_perm _ _ _ _ _ _ _ _ Hd). split; [set_solver|]. intros Hx'. by apply (Hdis x). }
  split; try done.
  - apply Forall_lookup_2. intros i l' Hi. by destruct (Forall2_lookup_r _ _ _ _ _ (d_sub _ _ _ _ _ _ _ _ Hd) Hi) as (l & _ & _ & ?).
  - intros x [Hx Hnx]%Hin. rewrite (d_par _ _ _ _ _ _ _ _ Hd), decide_False by tauto. by apply (pre_par _ _ _ _ Hp).
  - intros x [Hx Hnx]%Hin. rewrite (d_other _ _ _ _ _ _ _ _ Hd) by done. by apply (pre_pi _ _ _ _ Hp).
  - intros i l' b Hi Hb. destruct (discards_blocks _ _ _ _ _ _ _ _ _ _ Hd Hi) as (l & Hl & Hsub).
    by apply (pre_num _ _ _ _ Hp i l b Hl), Hsub.
  - intros x [Hx _]%Hin. by apply (pre_link _ _ _ _ Hp).
  - intros b (i & l' & Hi & Hb)%elem_of_level_blocks. destruct (discards_blocks _ _ _ _ _ _ _ _ _ _ Hd Hi) as (l & Hl & Hsub).
    apply (pre_ins _ _ _ _ Hp), elem_of_level_blocks. eauto.
Qed.

Lemma discards_refl pins h lv t : Forall level_wf lv -> discards pins h lv t lv t 0 [].
Proof.
  intros Hwf. split; try done; try (by intros x ?%elem_of_nil); try set_solver.
  induction Hwf; constructor; auto.
Qed.

Lemma discards_app pins h lv t lv1 t1 n1 dm1 lv2 t2 n2 dm2 :
  NoDup (hashes lv) -> h ∉ hashes lv ->
  discards pins h lv t lv1 t1 n1 dm1 -> discards pins h lv1 t1 lv2 t2 n2 dm2 ->
  discards pins h lv t lv2 t2 (n1 + n2) (dm1 ++ dm2).
Proof.
  intros Hnd Hh D1 D2. pose proof (d_perm _ _ _ _ _ _ _ _ D1) as P1. pose proof (d_perm _ _ _ _ _ _ _ _ D2) as P2.
  assert (hashes lv ≡ₚ (dm1 ++ dm2) ++ hashes lv2) as P by (by rewrite P1, P2, (assoc_L (++))).
  rewrite P in Hnd, Hh. apply NoDup_app in Hnd as ([_ [Hdis _]]%NoDup_app & Hdis2 & _).
  assert (forall y, y ∈ dm1 -> t_pinned_insertions t2 !! y = t_pinned_insertions t1 !! y) as Hpi.
  { intros y Hy. apply (d_other _ _ _ _ _ _ _ _ D2), Hdis, Hy. }
  assert (forall x, x ∈ dm1 -> kids dm2 (t_pinned_insertions t2) x = 0) as K21.
  { intros x Hx. apply kids_none. intros y Hy <-. apply (d_kept _ _ _ _ _ _ _ _ D1 y); [|done]. rewrite P2. set_solver. }
  assert (forall x, x ∈ dm2 -> kids dm1 (t_pinned_insertions t2) x = 0) as K12.
  { intros x Hx. apply kids_none. intros y Hy Heq. destruct (d_desc _ _ _ _ _ _ _ _ D1 y Hy); [set_solver|].
    apply (Hdis x); [congruence|done]. }
  split.
  - pose proof (d_sub _ _ _ _ _ _ _ _ D1) as S1. pose proof (d_sub _ _ _ _ _ _ _ _ D2) as S2. clear -S1 S2.
    revert lv2 S2. induction S1 as [|l l1 lv lv1 [Hl _] _ IH]; intros lv2 S2; inversion S2 as [|? l2 ? ? [Hl2 Hw] S2']; subst; constructor.
    + split; [|done]. by etrans.
    + by apply IH.
  - exact P.
  - intros x [Hx|Hx]%elem_of_app; [destruct (d_desc _ _ _ _ _ _ _ _ D1 x Hx)|destruct (d_desc _ _ _ _ _ _ _ _ D2 x Hx)]; set_solver.
  - intros x Hx [Hx1|Hx2]%elem_of_app; [|by apply (d_kept _ _ _ _ _ _ _ _ D2 x)].
    apply (d_kept _ _ _ _ _ _ _ _ D1 x); [|done]. rewrite P2. set_solver.
  - intros x. rewrite (d_par _ _ _ _ _ _ _ _ D2), (d_par _ _ _ _ _ _ _ _ D1).
    destruct (decide (x ∈ dm1)) as [H1|H1]; [rewrite <- (Hpi x H1)|]; repeat case_decide; set_solver.
  - intros x Hx. rewrite (d_other _ _ _ _ _ _ _ _ D2), (d_other _ _ _ _ _ _ _ _ D1) by set_solver. done.
  - intros x [Hx|Hx]%elem_of_app; cbv zeta; rewrite kids_app.
    + rewrite (K21 x Hx), Z.add_0_r, (kids_ext _ _ _ _ Hpi), (Hpi x Hx). exact (d_pi _ _ _ _ _ _ _ _ D1 x Hx).
    + rewrite (K12 x Hx), Z.add_0_l. exact (d_pi _ _ _ _ _ _ _ _ D2 x Hx).
  - rewrite kids_app, (kids_ext _ _ _ _ Hpi), <- (d_n _ _ _ _ _ _ _ _ D1), <- (d_n _ _ _ _ _ _ _ _ D2). done.
  - pose proof (d_bound _ _ _ _ _ _ _ _ D1). pose proof (d_bound _ _ _ _ _ _ _ _ D2). rewrite length_app. lia.
Qed.

(** What becomes of a block that left its level. *)
Lemma discard_block_spec t overlay w os R :
  bo_inserted overlay = b_inserted (block (bo_hash overlay)) -> t_pinned_insertions t !! bo_hash overlay = None -> 0 <= w ->
  refs_ok (t_values t) (bo_hash overlay :: os ++ pi_keys (t_pinned_insertions t) ++ R) ->
  exists t', discard_block (E := E) t overlay w = Ok t' /\
    (forall x, t_pinned_insertions t' !! x = if decide (x = bo_hash overlay /\ 0 < w) then Some (b_inserted (block x), w)
                                             else t_pinned_insertions t !! x) /\
    (forall x, t_parents t' !! x = if decide (x = bo_hash overlay /\ w = 0) then None else t_parents t !! x) /\
    refs_ok (t_values t') (os ++ pi_keys (t_pinned_insertions t') ++ R).
Proof.
  intros Hins Hpi Hw Hr. unfold discard_block. destruct (Z.eqb_spec w 0) as [->|Hne].
  - rewrite Hins. destruct (refs_discard _ _ _ Hr) as (vals & -> & Hr'). eexists. split; [done|]. simpl.
    split; [intros x; by rewrite decide_False by lia|]. split; [|done].
    intros x. case_decide as Hx; [destruct Hx as [-> _]; by rewrite lookup_delete_eq|].
    by rewrite lookup_delete_ne by naive_solver.
  - eexists. split; [done|]. simpl. split; [|split].
    + intros x. case_decide as Hx; [destruct Hx as [-> _]; by rewrite lookup_insert_eq, Hins|].
      rewrite lookup_insert_ne; [done|]. intros <-. apply Hx. split; [done|lia].
    + intros x. by rewrite decide_False by lia.
    + rewrite (pi_keys_insert _ _ _ Hpi). simpl. by rewrite <- Permutation_middle.
Qed.

Lemma hashes_cons l lv : hashes (l :: lv) = (bo_hash <$> blocks l) ++ hashes lv.
Proof. unfold hashes, level_blocks. by rewrite bind_cons, fmap_app. Qed.

Lemma hashes_app lv1 lv2 : hashes (lv1 ++ lv2) = hashes lv1 ++ hashes lv2.
Proof. unfold hashes, level_blocks. by rewrite bind_app, fmap_app. Qed.

Lemma pre_number m lv t R x : pre m lv t R -> x ∈ hashes lv -> m <= number_of x.
Proof. intros Hp (i & l & b & Hi & Hb & <-)%elem_of_hashes. rewrite (pre_num _ _ _ _ Hp i l b Hi Hb). lia. Qed.

Lemma pre_number_head m l lv t R x : pre m (l :: lv) t R -> x ∈ (bo_hash <$> blocks l) -> number_of x = m.
Proof. intros Hp (b & -> & Hb)%list_elem_of_fmap. rewrite (pre_num _ _ _ _ Hp 0%nat l b eq_refl Hb). lia. Qed.

Lemma pre_number_tail m l lv t R x : pre m (l :: lv) t R -> x ∈ hashes lv -> m + 1 <= number_of x.
Proof. intros Hp (i & l' & b & Hi & Hb & <-)%elem_of_hashes. rewrite (pre_num _ _ _ _ Hp (S i) l' b Hi Hb). lia. Qed.

(** The levels below, with the blocks of the first level as further ones. *)
Lemma pre_tail m l lv t R : pre m (l :: lv) t R -> pre (m + 1) lv t ((bo_hash <$> blocks l) ++ R).
Proof.
  intros [Hwf Hnd Hpar Hpi Hnum Hlink Hins Hr]. rewrite hashes_cons in *.
  assert (forall x, x ∈ hashes lv -> x ∈ (bo_hash <$> blocks l) ++ hashes lv) as Hin by (intros x Hx; apply elem_of_app; by right).
  split; auto.
  - by inversion Hwf.
  - by apply NoDup_app in Hnd as (_ & _ & ?).
  - intros i l' b Hi Hb. rewrite (Hnum (S i) l' b Hi Hb). lia.
  - intros b (i & l' & Hi & Hb)%elem_of_level_blocks. apply Hins, elem_of_level_blocks. by exists (S i), l'.
  - eapply refs_ok_proper; [|exact Hr]. solve_perm.
Qed.

Lemma kids_cons c dm PI PI' x :
  (forall y, y ∈ dm -> PI' !! y = PI !! y) ->
  kids (c :: dm) PI' x = (if decide (parent_of c = x) then cnt PI' c else 0) + kids dm PI x.
Proof. intros Hext. rewrite <- (kids_ext dm PI PI' x Hext). done. Qed.

(** A round of [discard_children]: the child [c] of [h] and its descendants go. *)
Lemma discards_round pins h m level rem t R i c level' rem1 t1 nc dmc :
  pre m (level :: rem) t R -> blocks level !! i = Some c -> parent_of (bo_hash c) = h ->
  blocks level' = delete i (blocks level) -> level_wf level' ->
  discards pins (bo_hash c) rem t rem1 t1 nc dmc -> (forall x, x ∈ hashes rem1 -> parent_of x <> bo_hash c) ->
  refs_ok (t_values t1) (hashes rem1 ++ pi_keys (t_pinned_insertions t1) ++ (bo_hash <$> blocks level) ++ R) ->
  exists t2, discard_block (E := E) t1 c (ind pins (bo_hash c) + nc) = Ok t2 /\
    discards pins h (level :: rem) t (level' :: rem1) t2 (ind pins (bo_hash c) + nc) (bo_hash c :: dmc) /\
    refs_ok (t_values t2) (hashes (level' :: rem1) ++ pi_keys (t_pinned_insertions t2) ++ R).
Proof.
  intros Hp Hi Hc Hbl Hwf D Hfull Hr. pose proof (pre_nodup _ _ _ _ Hp) as Hnd. rewrite hashes_cons in Hnd.
  pose proof (d_perm _ _ _ _ _ _ _ _ D) as P.
  assert ((bo_hash <$> blocks level) ≡ₚ bo_hash c :: (bo_hash <$> blocks level')) as PL.
  { rewrite Hbl, (fmap_Permutation bo_hash _ _ (delete_Permutation _ _ _ Hi)). done. }
  assert (bo_hash c ∈ (bo_hash <$> blocks level)) as Hcin by (rewrite PL; constructor).
  assert (number_of (bo_hash c) = m) as Hnc by (by eapply pre_number_head).
  assert (number_of h = m - 1) as Hnh.
  { rewrite <- Hc, <- Hnc. apply (pre_link _ _ _ _ Hp). rewrite hashes_cons. set_solver. }
  assert (forall x, x ∈ dmc -> m + 1 <= number_of x) as Hndm.
  { intros x Hx. eapply pre_number_tail; [done|]. rewrite P. set_solver. }
  assert ((bo_hash c ∉ dmc) /\ (h ∉ dmc) /\ h <> bo_hash c) as (Hcd & Hhd & Hhc).
  { split; [intros Hx%Hndm; lia|]. split; [intros Hx%Hndm; lia|]. intros ->. lia. }
  assert (t_pinned_insertions t1 !! bo_hash c = None) as Hpic.
  { rewrite (d_other _ _ _ _ _ _ _ _ D) by done. apply (pre_pi _ _ _ _ Hp). rewrite hashes_cons. set_solver. }
  pose proof (d_bound _ _ _ _ _ _ _ _ D) as Hb.
  assert (0 <= ind pins (bo_hash c) <= 1) as Hind by (unfold ind; case_decide; lia).
  destruct (discard_block_spec t1 c (ind pins (bo_hash c) + nc) (hashes (level' :: rem1)) R) as (t2 & Heq & Hpi2 & Hpar2 & Hr2).
  { apply (pre_ins _ _ _ _ Hp), elem_of_level_blocks. exists 0%nat, level. split; [done|]. by eapply list_elem_of_lookup_2. }
  { done. }
  { lia. }
  { eapply refs_ok_proper; [|exact Hr]. rewrite hashes_cons. solve_perm. }
  exists t2. split; [done|]. split; [|done].
  assert (forall y, y <> bo_hash c -> t_pinned_insertions t2 !! y = t_pinned_insertions t1 !! y) as Hpi2'
    by (intros y Hy; rewrite Hpi2, decide_False by naive_solver; done).
  assert (forall y, y ∈ dmc -> t_pinned_insertions t2 !! y = t_pinned_insertions t1 !! y) as Hdmc
    by (intros y Hy; apply Hpi2'; congruence).
  assert (cnt (t_pinned_insertions t2) (bo_hash c) = ind pins (bo_hash c) + nc) as Hcnt.
  { unfold cnt. rewrite Hpi2. destruct (decide (_ /\ 0 < _)) as [|Hw]; [done|]. rewrite Hpic. cbn.
    assert (~ 0 < ind pins (bo_hash c) + nc) by tauto. lia. }
  split.
  - constructor; [split; [rewrite Hbl; apply sublist_delete|done]|apply D].
  - rewrite !hashes_cons. solve_perm.
  - intros x [->|Hx]%elem_of_cons; [by left|]. right. destruct (d_desc _ _ _ _ _ _ _ _ D x Hx) as [->|]; by constructor.
  - rewrite hashes_cons. intros x [Hx|Hx]%elem_of_app Hin.
    + assert (number_of (parent_of x) = m - 1).
      { rewrite (pre_link _ _ _ _ Hp x), (pre_number_head _ _ _ _ _ x Hp); [done|..]; rewrite ?hashes_cons, PL; set_solver. }
      apply elem_of_cons in Hin as [Hin|Hin]; [rewrite Hin in *; lia|]. apply Hndm in Hin. lia.
    + apply elem_of_cons in Hin as [Hin|Hin]; [by apply (Hfull x)|]. by apply (d_kept _ _ _ _ _ _ _ _ D x).
  - intros x. rewrite Hpar2, (d_par _ _ _ _ _ _ _ _ D). destruct (decide (x = bo_hash c)) as [->|Hne].
    + rewrite (decide_False (P := bo_hash c ∈ dmc /\ _)) by tauto. destruct (decide (ind pins (bo_hash c) + nc = 0)) as [H0'|H0'].
      * rewrite !decide_True; [done|split; [constructor|]|done]. by rewrite Hpi2, decide_False by lia.
      * rewrite !decide_False; [done|intros [_ Hn]|tauto]. by rewrite Hpi2, decide_True in Hn by (split; [done|lia]).
    + rewrite Hpi2', decide_False by tauto. apply decide_ext. set_solver.
  - intros x Hx. rewrite Hpi2', (d_other _ _ _ _ _ _ _ _ D) by set_solver. done.
  - intros x [->|Hx]%elem_of_cons; cbv zeta; rewrite (kids_cons _ _ _ _ _ Hdmc), decide_False by congruence; rewrite Z.add_0_l.
    + rewrite <- (d_n _ _ _ _ _ _ _ _ D), Hpi2. case_cmp; [by rewrite decide_True by (split; [done|lia])|].
      by rewrite decide_False by lia.
    + rewrite (Hdmc x Hx). exact (d_pi _ _ _ _ _ _ _ _ D x Hx).
  - rewrite (kids_cons _ _ _ _ _ Hdmc), (decide_True (P := parent_of _ = h)), Hcnt by done. rewrite kids_none; [lia|].
    intros y Hy Hyh. destruct (d_desc _ _ _ _ _ _ _ _ D y Hy); congruence.
  - simpl. lia.
Qed.

Lemma position_res_ok {A} (f : A -> res E bool) (g : A -> bool) l :
  (forall a, a ∈ l -> f a = Ok (g a)) -> position_res f l = Ok (position g l).
Proof.
  induction l as [|a l IH]; intros Hf; [done|]. simpl. rewrite (Hf a) by constructor. cbn. destruct (g a); [done|].
  rewrite IH; [done|]. intros b Hb. apply Hf. by constructor.
Qed.

Lemma position_spec {A} (g : A -> bool) l :
  match position g l with
  | Some i => exists a, l !! i = Some a /\ g a = true
  | None => forall a, a ∈ l -> g a = false
  end.
Proof.
  induction l as [|a l IH]; simpl; [by intros a ?%elem_of_nil|]. destruct (g a) eqn:Ha; [by exists a|].
  destruct (position g l); simpl; [done|]. intros b [->|Hb]%elem_of_cons; auto.
Qed.

Definition childb h (b : BlockOverlay) : bool := bool_decide (parent_of (bo_hash b) = h).

Lemma is_child_of_ok par h (l : list BlockOverlay) :
  (forall x, x ∈ (bo_hash <$> l) -> par !! x = Some (parent_of x)) ->
  position_res (is_child_of (E := E) par h) l = Ok (position (childb h) l).
Proof.
  intros Hpar. apply position_res_ok. intros b Hb. unfold is_child_of. by rewrite Hpar by (by apply list_elem_of_fmap_2).
Qed.

Lemma count_pins pins x n : 0 <= n -> n + 1 < 2 ^ 32 ->
  (if bool_decide (is_Some (pins !! x)) then add_u (E := E) 32 n 1 else Ok n) = Ok (ind pins x + n).
Proof.
  intros H0' Hn. unfold ind. case_bool_decide; [rewrite decide_True by done|rewrite decide_False by done; done].
  rewrite add_u_ok by done. f_equal. lia.
Qed.

(** What [discard_descendants] does to the levels from number [m] on. *)
Definition discard_spec (f : list OverlayLevel -> Tables -> BlockHash -> res E (list OverlayLevel * Tables * Z)) pins
    (depth : nat) (m : Z) : Prop :=
  forall lv t R h, length lv = depth -> pre m lv t R -> number_of h = m - 1 -> Z.of_nat (length (hashes lv)) + 1 < 2 ^ 32 ->
    exists lv' t' n dm, f lv t h = Ok (lv', t', n) /\ discards pins h lv t lv' t' n dm /\
      (forall x, x ∈ hashes lv' -> parent_of x <> h) /\
      refs_ok (t_values t') (hashes lv' ++ pi_keys (t_pinned_insertions t') ++ R).

(** One block [c] of a level goes, and its descendants. *)
Lemma discard_one_spec f pins m h level rem t R i c level' :
  discard_spec f pins (length rem) (m + 1) -> pre m (level :: rem) t R -> Z.of_nat (length (hashes (level :: rem))) + 1 < 2 ^ 32 ->
  blocks level !! i = Some c -> parent_of (bo_hash c) = h -> blocks level' = delete i (blocks level) -> level_wf level' ->
  exists rem1 t1 nc t2 dmc, f rem t (bo_hash c) = Ok (rem1, t1, nc) /\
    (if bool_decide (is_Some (pins !! bo_hash c)) then add_u (E := E) 32 nc 1 else Ok nc) = Ok (ind pins (bo_hash c) + nc) /\
    discard_block (E := E) t1 c (ind pins (bo_hash c) + nc) = Ok t2 /\
    discards pins (bo_hash c) rem t rem1 t1 nc dmc /\ (forall x, x ∈ hashes rem1 -> parent_of x <> bo_hash c) /\
    discards pins h (level :: rem) t (level' :: rem1) t2 (ind pins (bo_hash c) + nc) (bo_hash c :: dmc) /\
    refs_ok (t_values t2) (hashes (level' :: rem1) ++ pi_keys (t_pinned_insertions t2) ++ R).
Proof.
  intros Hf Hp Hbound Hi Hc Hbl Hwf.
  assert (bo_hash c ∈ (bo_hash <$> blocks level)) as Hcin by (apply list_elem_of_fmap_2; by eapply list_elem_of_lookup_2).
  assert (Z.of_nat (length (hashes rem)) + 1 <= Z.of_nat (length (hashes (level :: rem)))) as Hlr.
  { rewrite hashes_cons, length_app, length_fmap. apply lookup_lt_Some in Hi. lia. }
  destruct (Hf rem t ((bo_hash <$> blocks level) ++ R) (bo_hash c)) as (rem1 & t1 & nc & dmc & Hrun & D & Hfull & Hr1);
    [done|by apply pre_tail|rewrite (pre_number_head _ _ _ _ _ _ Hp Hcin); lia|lia|].
  pose proof (d_bound _ _ _ _ _ _ _ _ D) as Hb. pose proof (Permutation_length (d_perm _ _ _ _ _ _ _ _ D)) as Hl.
  rewrite length_app in Hl.
  destruct (discards_round pins h m level rem t R i c level' rem1 t1 nc dmc) as (t2 & Hblk & D2 & Hr2); try done.
  exists rem1, t1, nc, t2, dmc. split; [done|]. split; [apply count_pins; lia|]. done.
Qed.

Lemma discard_children_spec f pins d m h : discard_spec f pins d (m + 1) -> number_of h = m - 1 ->
  forall rounds level rem t R pc, length rem = d -> (length (blocks level) <= rounds)%nat -> pre m (level :: rem) t R ->
    0 <= pc -> pc + Z.of_nat (length (hashes (level :: rem))) + 1 < 2 ^ 32 ->
    exists level' rem' t' n dm, discard_children f pins h rounds level rem t pc = Ok (level', rem', t', pc + n) /\
      discards pins h (level :: rem) t (level' :: rem') t' n dm /\
      (forall b, b ∈ blocks level' -> parent_of (bo_hash b) <> h) /\
      refs_ok (t_values t') (hashes (level' :: rem') ++ pi_keys (t_pinned_insertions t') ++ R).
Proof.
  intros Hf Hnh. induction rounds as [|rounds IH]; intros level rem t R pc Hd Hlen Hp Hpc Hbound.
  { exists level, rem, t, 0, []. destruct (blocks level) as [|? ?] eqn:Hbl; [|simpl in Hlen; lia]. cbn. rewrite Z.add_0_r.
    split; [done|]. split; [by apply discards_refl; destruct Hp|]. split; [by intros b ?%elem_of_nil|apply Hp]. }
  cbn [discard_children]. rewrite (is_child_of_ok _ h (blocks level)) by
    (intros x Hx; apply (pre_par _ _ _ _ Hp); rewrite hashes_cons; set_solver).
  cbn [mbind res_bind]. pose proof (position_spec (childb h) (blocks level)) as Hpos.
  destruct (position (childb h) (blocks level)) as [i|].
  2:{ exists level, rem, t, 0, []. rewrite Z.add_0_r. split; [done|]. split; [by apply discards_refl; destruct Hp|].
      split; [|apply Hp]. intros b Hb. specialize (Hpos b Hb). unfold childb in Hpos. by apply bool_decide_eq_false in Hpos. }
  destruct Hpos as (c & Hi & Hc%bool_decide_eq_true).
  assert (level_wf level) as Hwf by (by destruct Hp as [Hwf' _ _ _ _ _ _ _]; inversion Hwf').
  destruct (level_remove_spec (E := E) level i c Hwf Hi) as (level1 & -> & Hbl1 & Hwf1).
  destruct (discard_one_spec f pins m h level rem t R i c level1) as (rem1 & t1 & nc & t2 & dmc & Hrun & Hcnt & Hblk & _ & _ & D1 & Hr1);
   
    [by rewrite Hd|done|lia|done..|].
  pose proof (discards_pre _ _ _ _ _ _ _ _ _ _ Hp D1 Hr1) as Hp1.
  pose proof (d_bound _ _ _ _ _ _ _ _ D1) as Hb. pose proof (Permutation_length (d_perm _ _ _ _ _ _ _ _ D1)) as Hl.
  rewrite length_app in Hl. pose proof (Forall2_length _ _ _ (d_sub _ _ _ _ _ _ _ _ D1)) as Hlen1.
  destruct (IH level1 rem1 t2 R (pc + (ind pins (bo_hash c) + nc))) as (level2 & rem2 & t3 & n & dm2 & Hrun2 & D2 & Hkept & Hr2);
    [apply (f_equal pred) in Hlen1; simpl in Hlen1; lia|rewrite Hbl1, length_delete by (by rewrite Hi); lia|done|lia|lia|].
  exists level2, rem2, t3, (ind pins (bo_hash c) + nc + n), ((bo_hash c :: dmc) ++ dm2). split; [|split; [|done]].
  - cbn [mbind res_bind]. rewrite Hrun. cbn [mbind res_bind]. rewrite Hcnt. cbn [mbind res_bind]. rewrite Hblk.
    cbn [mbind res_bind]. rewrite add_u_ok by lia. cbn [mbind res_bind]. rewrite Hrun2. do 2 f_equal. lia.
  - eapply discards_app; [apply Hp| |done|done]. intros Hx%(pre_number _ _ _ _ _ Hp). lia.
Qed.

Lemma discard_descendants_spec pins depth m : discard_spec (discard_descendants depth pins) pins depth m.
Proof.
  revert m. induction depth as [|depth IH]; intros m [|level rem] t R h Hlen Hp Hh Hb; try done.
  { exists [], t, 0, []. split; [done|]. split; [by apply discards_refl|]. split; [by intros x ?%elem_of_nil|apply Hp]. }
  cbn [discard_descendants].
  destruct (discard_children_spec _ pins depth m h (IH (m + 1)) Hh (length (blocks level)) level rem t R 0)
    as (level' & rem' & t' & n & dm & -> & D & Hkept & Hr); [simpl in Hlen; lia|done..|lia|].
  exists (level' :: rem'), t', n, dm. split; [done|]. split; [done|]. split; [|done].
  intros x Hx. pose proof (discards_pre _ _ _ _ _ _ _ _ _ _ Hp D Hr) as Hp'. rewrite hashes_cons in Hx.
  apply elem_of_app in Hx as [(b & -> & Hb')%list_elem_of_fmap|Hx]; [by apply Hkept|].
  intros Hxh. pose proof (pre_number_tail _ _ _ _ _ _ Hp' Hx). rewrite <- Hxh, (pre_link _ _ _ _ Hp') in Hh; [lia|].
  rewrite hashes_cons. set_solver.
Qed.
End discard.
