(* ===== verification/NonCanonicalInv.v ===== *)
(** * The overlay of non-canonical blocks: operations keep the invariant

    The invariant [inv C] of an overlay, where [C] are the hashes that became
    canonical, and for each operation what it does to an overlay with the invariant. *)
From stdpp Require Import base gmap list.
From Stdlib Require Import ZArith Lia.
From S2P Require Import Prelude StateDbBase NonCanonical NonCanonicalFacts.
Set Warnings "-clear-no-such-hyp".
Open Scope Z_scope.

Section invariant.
Context {BlockHash Key : Type} `{Countable BlockHash} `{Countable Key}.
Context `{Codec unit, Codec (BlockHash * Z), Codec (Z * Z), Codec (JournalRecord BlockHash Key)}.
Context (block : BlockHash -> Block BlockHash Key) (value_of : Key -> DBValue).

Abbreviation BlockOverlay := (BlockOverlay BlockHash Key).
Abbreviation OverlayLevel := (OverlayLevel BlockHash Key).
Abbreviation NonCanonicalOverlay := (NonCanonicalOverlay BlockHash Key).
Abbreviation Tables := (Tables BlockHash Key).
Abbreviation Pins := (gmap BlockHash (list Key * Z)).
Abbreviation number_of := (number_of block).
Abbreviation parent_of := (parent_of block).
Abbreviation refs_ok := (refs_ok block value_of).
Abbreviation pre := (pre block value_of).
Abbreviation discards := (discards block).
Implicit Types (s : NonCanonicalOverlay) (h x y : BlockHash) (t : Tables) (C : gset BlockHash) (PI : Pins).

(** The number of the first level. *)
Definition front s : Z := match last_canonicalized s with Some (_, n) => n + 1 | None => 0 end.

(** Kept for a pin, and not because it became canonical. *)
Definition discarded C PI x : Prop := is_Some (PI !! x) /\ (x ∉ C).

(** The pins on the discarded children of a block. *)
Definition pins_below C PI x : Z :=
  map_sum (fun y '(_, c) => if decide ((y ∉ C) /\ parent_of y = x) then c else 0) PI.

(** The discarded blocks: what is kept of them, and for how many pins.  A block in
    [off] is counted once too often. *)
Record pins_ok C (fr : Z) (pins : gmap BlockHash Z) (par : gmap BlockHash BlockHash) PI (off : option BlockHash) : Prop := {
  p_entry : forall x ins c, PI !! x = Some (ins, c) -> 0 < c /\ ins = b_inserted (block x) /\
    par !! x = Some (parent_of x) /\ number_of (parent_of x) = number_of x - 1;
  p_count : forall x ins c, x ∉ C -> PI !! x = Some (ins, c) ->
    c = ind pins x + pins_below C PI x + (if decide (off = Some x) then 1 else 0);
  p_up : forall y, is_Some (PI !! y) ->
    ((y ∉ C) /\ discarded C PI (parent_of y)) \/ (~ discarded C PI (parent_of y) /\ number_of (parent_of y) + 1 < fr);
}.

Record inv C s : Prop := {
  i_pre : pre (front s) (levels s) (tables s) [];
  i_dom : forall x, is_Some (parents s !! x) -> x ∈ hashes (levels s) \/ is_Some (pinned_insertions s !! x);
  i_pins_ok : pins_ok C (front s) (pinned s) (parents s) (pinned_insertions s) None;
  i_link : forall i l l' b, levels s !! i = Some l -> levels s !! S i = Some l' -> b ∈ blocks l' ->
    parent_of (bo_hash b) ∈ (bo_hash <$> blocks l);
  i_root : exists p, (forall l b, levels s !! O = Some l -> b ∈ blocks l -> parent_of (bo_hash b) = p) /\
    (forall h n, last_canonicalized s = Some (h, n) -> p = h);
  i_last : forall h n, last_canonicalized s = Some (h, n) -> h ∈ C /\ number_of h = n /\ 0 <= n;
  i_none : last_canonicalized s = None -> C = ∅ /\ pinned_insertions s = ∅;
  i_canon : forall c, c ∈ C -> number_of c < front s;
  i_front : 0 <= front s /\ front s + Z.of_nat (length (levels s)) < 2 ^ 64;
  i_size : Z.of_nat (length (hashes (levels s))) + 1 < 2 ^ 32;
  i_block : forall b, b ∈ level_blocks (levels s) -> bo_deleted b = b_deleted (block (bo_hash b)) /\
    journal_key b = to_journal_key (number_of (bo_hash b)) (journal_index b);
  i_pinned : forall x r, pinned s !! x = Some r -> 0 < r;
}.

(** ** Unpinning *)
Lemma pins_below_nonneg C fr pins par PI off x : pins_ok C fr pins par PI off -> 0 <= pins_below C PI x.
Proof.
  intros Hp. apply map_sum_nonneg. intros y [ins c] Hy. case_decide; [|done]. apply (p_entry _ _ _ _ _ _ Hp) in Hy. lia.
Qed.

(** A discarded child counts. *)
Lemma pins_below_child C fr pins par PI off y ins c :
  pins_ok C fr pins par PI off -> PI !! y = Some (ins, c) -> y ∉ C -> c <= pins_below C PI (parent_of y).
Proof.
  intros Hp Hy HC. unfold pins_below. rewrite (map_sum_delete _ _ _ _ Hy), decide_True by done.
  assert (0 <= map_sum (fun y' '(_, c') => if decide ((y' ∉ C) /\ parent_of y' = parent_of y) then c' else 0) (delete y PI)); [|lia].
  apply map_sum_nonneg. intros z [ins' c'] [_ Hz]%lookup_delete_Some. case_decide; [|done].
  apply (p_entry _ _ _ _ _ _ Hp) in Hz. lia.
Qed.

Lemma pins_below_delete C PI h ins c x : PI !! h = Some (ins, c) ->
  pins_below C (delete h PI) x = pins_below C PI x - (if decide ((h ∉ C) /\ parent_of h = x) then c else 0).
Proof. intros Hh. unfold pins_below. rewrite (map_sum_delete _ _ _ _ Hh). lia. Qed.

Lemma pins_below_update C PI h ins c c' x : PI !! h = Some (ins, c) ->
  pins_below C (<[h := (ins, c')]> PI) x = pins_below C PI x + (if decide ((h ∉ C) /\ parent_of h = x) then c' - c else 0).
Proof. intros Hh. unfold pins_below. rewrite (map_sum_update _ _ _ _ _ Hh). case_decide; lia. Qed.

(** A reference to [h] is given up, and then one to its parent. *)
Lemma pins_ok_drop C fr pins par PI h ins c :
  pins_ok C fr pins par PI (Some h) -> PI !! h = Some (ins, c) -> c - 1 = 0 ->
  pins_ok C fr pins (delete h par) (delete h PI) (Some (parent_of h)).
Proof.
  intros Hp Hh Hc. assert (c = 1) as -> by lia. pose proof (p_up _ _ _ _ _ _ Hp h ltac:(eauto)) as Hup.
  assert (forall y, is_Some (PI !! y) -> y ∉ C -> parent_of y = h -> h ∈ C) as Hkids.
  { intros y [[ins' c'] Hy] HyC Hyh. destruct (decide (h ∈ C)) as [|HhC]; [done|].
    pose proof (p_count _ _ _ _ _ _ Hp h _ _ HhC Hh) as Hcount. rewrite decide_True in Hcount by done.
    pose proof (pins_below_child _ _ _ _ _ _ _ _ _ Hp Hy HyC) as Hb. rewrite Hyh in Hb.
    apply (p_entry _ _ _ _ _ _ Hp) in Hy. unfold ind in Hcount. case_decide; lia. }
  split.
  - intros x ins' c' [Hne Hx]%lookup_delete_Some. rewrite lookup_delete_ne by done. by apply (p_entry _ _ _ _ _ _ Hp).
  - intros x ins' c' HxC [Hne Hx]%lookup_delete_Some. rewrite (p_count _ _ _ _ _ _ Hp x _ _ HxC Hx).
    rewrite (pins_below_delete _ _ _ _ _ _ Hh), (decide_False (P := Some h = Some x)) by congruence.
    assert (parent_of h = x -> h ∉ C) as HhC.
    { intros <- HhC. destruct Hup as [[? _]|[Hnd _]]; [done|]. apply Hnd. split; [by eexists|done]. }
    destruct (decide (parent_of h = x)) as [Hpx|Hpx].
    + rewrite (decide_True (P := _ /\ _)), decide_True by (rewrite ?Hpx; auto). lia.
    + rewrite (decide_False (P := _ /\ _)), decide_False by naive_solver. lia.
  - intros y [Hne Hy]%lookup_delete_is_Some. destruct (p_up _ _ _ _ _ _ Hp y Hy) as [[HyC [Hd HdC]]|[Hnd Hnum]].
    + left. split; [done|]. split; [|done]. apply lookup_delete_is_Some. split; [|done]. intros Heq. apply HdC. rewrite <- Heq. by apply (Hkids y).
    + right. split; [|done]. intros [[_ Hd]%lookup_delete_is_Some HdC]. by apply Hnd.
Qed.

Lemma pins_ok_decrement C fr pins par PI h ins c :
  pins_ok C fr pins par PI (Some h) -> PI !! h = Some (ins, c) -> c - 1 <> 0 ->
  pins_ok C fr pins par (<[h := (ins, c - 1)]> PI) (Some (parent_of h)).
Proof.
  intros Hp Hh Hc. pose proof (p_up _ _ _ _ _ _ Hp h ltac:(eauto)) as Hup.
  destruct (p_entry _ _ _ _ _ _ Hp _ _ _ Hh) as (Hpos & Hins & Hpar & Hnum).
  assert (forall x, discarded C (<[h := (ins, c - 1)]> PI) x <-> discarded C PI x) as Hdisc.
  { intros x. unfold discarded. destruct (decide (h = x)) as [<-|]; [|by rewrite lookup_insert_ne].
    rewrite lookup_insert_eq. split; intros [_ ?]; split; eauto. }
  split.
  - intros x ins' c'. destruct (decide (h = x)) as [<-|]; [|rewrite lookup_insert_ne by done; apply Hp].
    rewrite lookup_insert_eq. intros [= <- <-]. split; [lia|done].
  - intros x ins' c' HxC. rewrite (pins_below_update _ _ _ _ _ _ _ Hh). destruct (decide (h = x)) as [<-|Hne].
    + rewrite lookup_insert_eq. intros [= <- <-]. pose proof (p_count _ _ _ _ _ _ Hp h _ _ HxC Hh) as Hcount.
      assert (parent_of h <> h) by (intros Heq; rewrite Heq in Hnum; lia).
      rewrite decide_True in Hcount by done. rewrite !decide_False by naive_solver. lia.
    + rewrite lookup_insert_ne by done. intros Hx. rewrite (p_count _ _ _ _ _ _ Hp x _ _ HxC Hx).
      rewrite (decide_False (P := Some h = Some x)) by congruence.
      assert (parent_of h = x -> h ∉ C) as HhC.
      { intros <- HhC. destruct Hup as [[? _]|[Hnd _]]; [done|]. apply Hnd. split; [by eexists|done]. }
      destruct (decide (parent_of h = x)) as [Hpx|Hpx].
      * rewrite (decide_True (P := _ /\ _)), decide_True by (rewrite ?Hpx; auto). lia.
      * rewrite (decide_False (P := _ /\ _)), decide_False by naive_solver. lia.
  - intros y Hy. rewrite Hdisc. apply (p_up _ _ _ _ _ _ Hp). destruct (decide (h = y)) as [<-|]; [by eexists|].
    by rewrite lookup_insert_ne in Hy.
Qed.

Lemma pins_ok_off C fr pins par PI h : pins_ok C fr pins par PI (Some h) -> PI !! h = None -> pins_ok C fr pins par PI None.
Proof.
  intros [He Hc Hu] Hh. split; [done| |done]. intros x ins c HxC Hx. rewrite (Hc x ins c HxC Hx).
  rewrite decide_False by congruence. done.
Qed.

Lemma pin_counts_sum PI : pin_counts PI = map_sum (fun _ '(_, c) => c) PI.
Proof. done. Qed.

(** The walk of [unpin] up the discarded ancestors of [h]. *)
Lemma release_spec {E} C fr pins hs fuel t h :
  pins_ok C fr pins (t_parents t) (t_pinned_insertions t) (Some h) ->
  refs_ok (t_values t) (hs ++ pi_keys (t_pinned_insertions t)) ->
  pin_counts (t_pinned_insertions t) < Z.of_nat fuel ->
  exists t', release (E := E) fuel t (Some h) = Ok t' /\
    pins_ok C fr pins (t_parents t') (t_pinned_insertions t') None /\
    refs_ok (t_values t') (hs ++ pi_keys (t_pinned_insertions t')) /\
    (forall x, t_pinned_insertions t !! x = None -> t_pinned_insertions t' !! x = None /\ t_parents t' !! x = t_parents t !! x) /\
    (forall x, is_Some (t_pinned_insertions t !! x) -> t_pinned_insertions t' !! x = None -> t_parents t' !! x = None).
Proof.
  revert t h. induction fuel as [|fuel IH]; intros t h Hp Hr Hfuel.
  { assert (0 <= pin_counts (t_pinned_insertions t)); [|lia]. rewrite pin_counts_sum. apply map_sum_nonneg.
    intros x [ins c] Hx. apply (p_entry _ _ _ _ _ _ Hp) in Hx. lia. }
  cbn [release]. destruct (t_pinned_insertions t !! h) as [[ins c]|] eqn:Hh.
  2:{ exists t. split; [done|]. split; [by eapply pins_ok_off|]. split; [done|]. split; [done|]. by intros x [a Ha] Hn; rewrite Ha in Hn. }
  destruct (p_entry _ _ _ _ _ _ Hp _ _ _ Hh) as (Hc & -> & Hpar & _). rewrite sub_u_ok by lia. cbn [mbind res_bind].
  rewrite Hpar. destruct (Z.eqb_spec (c - 1) 0) as [Hc0|Hc0].
  - rewrite (pi_keys_delete _ _ _ Hh), <- Permutation_middle in Hr.
    destruct (refs_discard (E := E) block value_of _ _ _ Hr) as (vals & -> & Hr'). cbn [mbind res_bind].
    set (t1 := {| t_values := vals; t_parents := delete h (t_parents t);
                  t_pinned_insertions := delete h (t_pinned_insertions t) |}).
    destruct (IH t1 (parent_of h)) as (t' & -> & Hp' & Hr'' & Hnone & Hgone); [by eapply pins_ok_drop|done| |].
    { simpl. rewrite pin_counts_sum in *. rewrite (map_sum_delete _ _ _ _ Hh) in Hfuel. simpl in *. lia. }
    exists t'. split; [done|]. split; [done|]. split; [done|]. simpl in *. split.
    + intros x Hx. assert (h <> x) by congruence. specialize (Hnone x). rewrite !lookup_delete_ne in Hnone by done. by apply Hnone.
    + intros x Hx Hx'. destruct (decide (h = x)) as [<-|Hne].
      * destruct (Hnone h) as [_ ->]; by rewrite lookup_delete_eq.
      * apply Hgone; [|done]. by rewrite lookup_delete_ne.
  - cbn [mbind res_bind].
    set (t1 := {| t_values := t_values t; t_parents := t_parents t;
                  t_pinned_insertions := <[h := (b_inserted (block h), c - 1)]> (t_pinned_insertions t) |}).
    destruct (IH t1 (parent_of h)) as (t' & -> & Hp' & Hr'' & Hnone & Hgone); [by eapply pins_ok_decrement| | |].
    { simpl. rewrite (pi_keys_delete _ h (b_inserted (block h), c - 1)) by (by rewrite lookup_insert_eq).
      rewrite delete_insert_eq, <- (pi_keys_delete _ _ _ Hh). done. }
    { simpl. rewrite pin_counts_sum in *. rewrite (map_sum_update _ _ _ _ _ Hh). lia. }
    exists t'. split; [done|]. split; [done|]. split; [done|]. simpl in *. split.
    + intros x Hx. assert (h <> x) by congruence. specialize (Hnone x). rewrite lookup_insert_ne in Hnone by done. by apply Hnone.
    + intros x Hx Hx'. apply Hgone; [|done]. destruct (decide (h = x)) as [<-|Hne]; [by rewrite lookup_insert_eq|].
      by rewrite lookup_insert_ne.
Qed.

(** An overlay that differs in its pins and tables only. *)
Lemma inv_update C s s' :
  inv C s -> last_canonicalized s' = last_canonicalized s -> levels s' = levels s ->
  pins_ok C (front s) (pinned s') (parents s') (pinned_insertions s') None ->
  refs_ok (values s') (hashes (levels s) ++ pi_keys (pinned_insertions s')) ->
  (forall x, pinned_insertions s !! x = None -> pinned_insertions s' !! x = None /\ parents s' !! x = parents s !! x) ->
  (forall x, is_Some (pinned_insertions s !! x) -> pinned_insertions s' !! x = None -> parents s' !! x = None) ->
  (forall x r, pinned s' !! x = Some r -> 0 < r) -> inv C s'.
Proof.
  intros [[? ? Hpar Hpi ? ? ? ?] Hdom Hpins ? ? ? Hnone ? ? ? ? ?] Hlast Hlv Hp Hr Hkeep Hgone Hpos.
  assert (front s' = front s) as Hf by (unfold front; by rewrite Hlast).
  split; rewrite ?Hf, ?Hlv, ?Hlast; try done.
  - split; try done; simpl; rewrite ?app_nil_r; try done; intros x Hx.
    + rewrite (proj2 (Hkeep x (Hpi x Hx))). by apply Hpar.
    + by apply Hkeep, Hpi.
  - intros x Hx. destruct (pinned_insertions s' !! x) eqn:Hx'; [right; by eexists|].
    destruct (pinned_insertions s !! x) eqn:Hx0; [rewrite Hgone in Hx; [by destruct Hx|by eexists|done]|].
    rewrite (proj2 (Hkeep x Hx0)) in Hx. destruct (Hdom x Hx) as [?|[? ?]]; [by left|congruence].
  - intros Hl. destruct (Hnone Hl) as [? Hempty]. split; [done|]. apply map_eq. intros x. rewrite lookup_empty.
    apply Hkeep. by rewrite Hempty, lookup_empty.
Qed.

Lemma pins_ok_ind C fr pins pins' par PI off off' :
  (forall x, is_Some (PI !! x) -> x ∉ C ->
    ind pins' x + (if decide (off' = Some x) then 1 else 0) = ind pins x + (if decide (off = Some x) then 1 else 0)) ->
  pins_ok C fr pins par PI off -> pins_ok C fr pins' par PI off'.
Proof.
  intros Hind [He Hc Hu]. split; [done| |done]. intros x ins c HxC Hx. rewrite (Hc x ins c HxC Hx).
  specialize (Hind x ltac:(eauto) HxC). lia.
Qed.

Lemma inv_refs C s : inv C s -> refs_ok (values s) (hashes (levels s) ++ pi_keys (pinned_insertions s)).
Proof. intros Hi. pose proof (pre_refs _ _ _ _ _ _ (i_pre _ _ Hi)) as Hr. simpl in Hr. by rewrite app_nil_r in Hr. Qed.

Lemma ind_insert pins h r x : ind (<[h := r]> pins) x = if decide (x = h) then 1 else ind pins x.
Proof.
  unfold ind. destruct (decide (x = h)) as [->|Hne]; [by rewrite lookup_insert_eq, decide_True by eauto|].
  by rewrite lookup_insert_ne by done.
Qed.

Lemma ind_delete pins h x : ind (delete h pins) x = if decide (x = h) then 0 else ind pins x.
Proof.
  unfold ind. destruct (decide (x = h)) as [->|Hne]; [rewrite lookup_delete_eq, decide_False; [done|by intros [? ?]]|].
  by rewrite lookup_delete_ne by done.
Qed.

(** Pinning is safe for blocks that are not discarded, and for blocks already pinned. *)
Lemma pin_spec {E} C s h :
  inv C s -> (discarded C (pinned_insertions s) h -> is_Some (pinned s !! h)) -> default 0 (pinned s !! h) + 1 < 2 ^ 32 ->
  exists r, pin (E := E) h s = (set_pinned (<[h := r]> (pinned s)) s, Ok tt) /\ inv C (set_pinned (<[h := r]> (pinned s)) s).
Proof.
  intros Hi Hok Hb. exists (default 0 (pinned s !! h) + 1). unfold pin. rewrite st_get_bind.
  rewrite (st_lift_ok _ _ _ _ (add_u_ok 32 _ 1 Hb)). split; [done|].
  assert (0 <= default 0 (pinned s !! h)) as H0'.
  { destruct (pinned s !! h) as [r|] eqn:Hr; simpl; [|done]. apply (i_pinned _ _ Hi) in Hr. lia. }
  eapply inv_update; try done; simpl.
  - eapply pins_ok_ind; [|apply Hi]. intros x Hx HxC. rewrite ind_insert. case_decide as Hxh; [|done]. subst x.
    unfold ind. rewrite (decide_True (P := is_Some _)) by (apply Hok; by split). done.
  - by apply inv_refs in Hi.
  - intros x [a Ha] Hn. congruence.
  - intros x r Hx. destruct (decide (h = x)) as [<-|Hne].
    + rewrite lookup_insert_eq in Hx. injection Hx as <-. lia.
    + rewrite lookup_insert_ne in Hx by done. by apply (i_pinned _ _ Hi) in Hx.
Qed.

(** [unpin] keeps the invariant; of the tables it changes what it can release. *)
Lemma unpin_spec {E} C s h :
  inv C s ->
  exists s', unpin (E := E) h s = (s', Ok tt) /\ inv C s' /\ last_canonicalized s' = last_canonicalized s /\
    levels s' = levels s /\ pinned_canonincalized s' = pinned_canonincalized s /\
    (forall x, x <> h -> pinned s' !! x = pinned s !! x) /\
    (forall x, is_Some (pinned_insertions s' !! x) -> is_Some (pinned_insertions s !! x)).
Proof.
  intros Hi. unfold unpin. rewrite st_get_bind. destruct (pinned s !! h) as [r|] eqn:Hr; [|by exists s].
  pose proof (i_pinned _ _ Hi h r Hr) as Hpos. rewrite (st_lift_ok _ _ _ _ (sub_u_ok r 1 ltac:(lia))).
  destruct (Z.eqb_spec (r - 1) 0) as [H0'|H0'].
  - rewrite st_modify_bind.
    destruct (release_spec (E := E) C (front s) (delete h (pinned s)) (hashes (levels s))
                (S (Z.to_nat (pin_counts (pinned_insertions s)))) (tables s) h) as (t' & Heq & Hp' & Hr' & Hkeep & Hgone).
    + eapply pins_ok_ind; [|apply Hi]. intros x _ _. rewrite ind_delete, (decide_False (P := None = _)) by done.
      unfold ind. destruct (decide (x = h)) as [->|Hne]; [|by rewrite (decide_False (P := Some h = _)) by congruence].
      rewrite (decide_True (P := Some h = _)), (decide_True (P := is_Some _)) by eauto. done.
    + by apply inv_refs in Hi.
    + simpl. lia.
    + rewrite (st_lift_ok _ _ _ _ Heq). eexists. split; [done|]. split; [|simpl].
      * eapply inv_update; try done; simpl; try done.
        intros x r' [_ Hx]%lookup_delete_Some. by apply (i_pinned _ _ Hi) in Hx.
      * repeat split; try done; [intros x Hne; by rewrite lookup_delete_ne|].
        intros x Hx. destruct (pinned_insertions s !! x) eqn:Hx0; [by eexists|]. apply Hkeep in Hx0 as [Hx0 _]. by rewrite Hx0 in Hx.
  - eexists. split; [done|]. split; [|simpl; repeat split; try done; intros x Hne; by rewrite lookup_insert_ne].
    eapply inv_update; try done; simpl.
    + eapply pins_ok_ind; [|apply Hi]. intros x _ _. rewrite ind_insert. destruct (decide (x = h)) as [->|]; [|done].
      unfold ind. rewrite (decide_True (P := is_Some _)) by eauto. done.
    + by apply inv_refs in Hi.
    + intros x [a Ha] Hn. congruence.
    + intros x r' Hx. destruct (decide (h = x)) as [<-|Hne]; [rewrite lookup_insert_eq in Hx; injection Hx as <-; lia|].
      rewrite lookup_insert_ne in Hx by done. by apply (i_pinned _ _ Hi) in Hx.
Qed.

(** A pin that is not the last, or on a block that is not kept for it. *)
Lemma unpin_keeps {E} s h s' :
  unpin (E := E) h s = (s', Ok tt) -> pinned_insertions s !! h = None \/ 1 < default 0 (pinned s !! h) ->
  pinned_insertions s' = pinned_insertions s.
Proof.
  unfold unpin. rewrite st_get_bind. intros Hrun Hkeep. destruct (pinned s !! h) as [refs|]; [|by injection Hrun as <-].
  unfold mbind, st_bind, st_lift, st_modify, sub_u in Hrun. destruct (checked_sub refs 1) as [refs'|] eqn:Hsub; [|done]. cbn [expect] in Hrun.
  destruct (refs' =? 0) eqn:Hz; [|by injection Hrun as <-]. destruct Hkeep as [Hno|Hlt].
  - cbn in Hrun. rewrite Hno in Hrun. by injection Hrun as <-.
  - unfold checked_sub in Hsub. simpl in Hlt. destruct (1 <=? refs) eqn:Hle; [injection Hsub as <-; lia|done].
Qed.

Lemma sync_spec {E} C s :
  inv C s ->
  exists s', sync (E := E) s = (s', Ok tt) /\ inv C s' /\ last_canonicalized s' = last_canonicalized s /\
    levels s' = levels s /\ pinned_canonincalized s' = [] /\
    (forall x, is_Some (pinned_insertions s' !! x) -> is_Some (pinned_insertions s !! x)).
Proof.
  intros Hi. unfold sync. rewrite st_get_bind, st_modify_bind.
  assert (inv C (set_pinned_canonincalized [] s)) as Hi0.
  { eapply inv_update; try done; simpl; [apply Hi|by apply inv_refs in Hi| |apply Hi]. intros x [a Ha] Hn. congruence. }
  assert (forall l s1, inv C s1 -> pinned_canonincalized s1 = [] ->
    exists s', st_for (fun _ hash => unpin (E := E) hash) tt l s1 = (s', Ok tt) /\ inv C s' /\
      last_canonicalized s' = last_canonicalized s1 /\ levels s' = levels s1 /\ pinned_canonincalized s' = [] /\
      (forall x, is_Some (pinned_insertions s' !! x) -> is_Some (pinned_insertions s1 !! x))) as Hloop.
  { induction l as [|h l IH]; intros s1 Hi1 Hpc; [by exists s1|]. simpl.
    destruct (unpin_spec (E := E) C s1 h Hi1) as (s2 & Heq & Hi2 & Hl2 & Hv2 & Hpc2 & _ & Hsub2).
    rewrite (st_bind_ok _ _ _ _ _ Heq). destruct (IH s2 Hi2) as (s' & Hrun & Hi' & Hl' & Hv' & Hpc' & Hsub'); [congruence|].
    exists s'. rewrite Hl', Hv'. split_and!; auto. }
  apply (Hloop (pinned_canonincalized s) (set_pinned_canonincalized [] s)); done.
Qed.

(** ** Reverting *)

(** Levels that lost the blocks [X], none of which has a child left. *)
Lemma inv_remove C s s' X :
  inv C s -> last_canonicalized s' = last_canonicalized s -> pinned s' = pinned s ->
  pinned_insertions s' = pinned_insertions s ->
  (length (levels s') <= length (levels s))%nat ->
  (forall i l', levels s' !! i = Some l' -> level_wf l' /\
     exists l, levels s !! i = Some l /\ forall b, b ∈ blocks l' -> b ∈ blocks l) ->
  hashes (levels s) ≡ₚ X ++ hashes (levels s') ->
  (forall x, x ∈ hashes (levels s') -> parent_of x ∉ X) ->
  (forall x, parents s' !! x = if decide (x ∈ X) then None else parents s !! x) ->
  refs_ok (values s') (hashes (levels s') ++ pi_keys (pinned_insertions s)) -> inv C s'.
Proof.
  intros Hi Hlast Hpin HPI Hlen Hsub HX Hkept Hpar Hr. assert (front s' = front s) as Hf by (unfold front; by rewrite Hlast).
  destruct Hi as [[Hwf Hnd Hpp Hpi Hnum Hlk Hins _] Hdom Hpins Hlink Hroot Hl Hnone Hcan Hfr Hsz Hblk Hpos].
  assert (NoDup (X ++ hashes (levels s'))) as HndX by (by rewrite <- HX). apply NoDup_app in HndX as (_ & Hdis & Hnd').
  assert (forall x, x ∈ hashes (levels s') -> x ∈ hashes (levels s) /\ x ∉ X) as Hin.
  { intros x Hx. rewrite HX. split; [set_solver|]. intros Hx'. by apply (Hdis x). }
  assert (forall b, b ∈ level_blocks (levels s') -> b ∈ level_blocks (levels s)) as Hbl.
  { intros b (i & l' & Hl' & Hb)%elem_of_level_blocks. destruct (Hsub i l' Hl') as (_ & l0 & Hl0 & Hs).
    apply elem_of_level_blocks. eauto. }
  split; rewrite ?Hf, ?Hlast, ?Hpin, ?HPI; try done.
  - split; simpl; rewrite ?HPI, ?app_nil_r; auto.
    + apply Forall_lookup_2. intros i l' Hl'. by apply (Hsub i).
    + intros x [Hx HxX]%Hin. rewrite Hpar, decide_False by done. by apply Hpp.
    + intros x [Hx _]%Hin. by apply Hpi.
    + intros i l' b Hl' Hb. destruct (Hsub i l' Hl') as (_ & l0 & Hl0 & Hs). by apply (Hnum i l0 b Hl0), Hs.
    + intros x [Hx _]%Hin. by apply Hlk.
  - intros x Hx. rewrite Hpar in Hx. case_decide as HxX; [by destruct Hx|]. destruct (Hdom x Hx) as [Hx'|]; [|by right].
    left. rewrite HX in Hx'. set_solver.
  - destruct Hpins as [He Hc Hu]. split; try done. intros x ins c Hx. rewrite Hpar. destruct (He x ins c Hx) as (? & ? & ? & ?).
    rewrite decide_False; [done|]. intros HxX. assert (x ∈ hashes (levels s)) as Hx'%Hpi by (rewrite HX; set_solver).
    simpl in Hx'. congruence.
  - intros i l l' b Hl0 Hl' Hb. destruct (Hsub i l Hl0) as (_ & l1 & Hl1 & Hs1). destruct (Hsub (S i) l' Hl') as (_ & l2 & Hl2 & Hs2).
    specialize (Hlink i l1 l2 b Hl1 Hl2 (Hs2 b Hb)).
    assert (bo_hash b ∈ hashes (levels s')) as Hbh by (rewrite elem_of_hashes; by exists (S i), l', b).
    assert (parent_of (bo_hash b) ∈ hashes (levels s)) as Hph.
    { apply list_elem_of_fmap in Hlink as (b' & -> & Hb'). rewrite elem_of_hashes. by exists i, l1, b'. }
    rewrite HX in Hph. apply elem_of_app in Hph as [Hph|(j & l3 & b3 & Hl3 & Hb3 & Heq)%elem_of_hashes]; [by apply Hkept in Hbh|].
    destruct (Hsub j l3 Hl3) as (_ & l4 & Hl4 & Hs4). pose proof (Hnum j l4 b3 Hl4 (Hs4 _ Hb3)) as Hn3.
    apply list_elem_of_fmap in Hlink as (b' & Heq' & Hb'). pose proof (Hnum i l1 b' Hl1 Hb') as Hn1.
    rewrite <- Heq' in Hn1. rewrite Heq in Hn3. assert (j = i) as -> by lia. assert (l3 = l) as -> by congruence.
    rewrite <- Heq. by apply list_elem_of_fmap_2.
  - destruct Hroot as (p & Hroot & Hp). exists p. split; [|done]. intros l b Hl0 Hb. destruct (Hsub O l Hl0) as (_ & l1 & Hl1 & Hs1). eauto.
  - lia.
  - rewrite HX, length_app in Hsz. lia.
  - intros b Hb. by apply Hblk, Hbl.
Qed.

(** The loop that drops the blocks [bs]; [os] are the other blocks whose nodes count. *)
Lemma drop_blocks_spec {E} bs os commit s :
  (forall b, b ∈ bs -> bo_inserted b = b_inserted (block (bo_hash b))) ->
  refs_ok (values s) ((bo_hash <$> bs) ++ os) ->
  exists s', st_for (drop_block (E := E)) commit bs s = (s', Ok (meta_delete (journal_key <$> bs) commit)) /\
    last_canonicalized s' = last_canonicalized s /\ levels s' = levels s /\ pinned s' = pinned s /\
    pinned_insertions s' = pinned_insertions s /\ pinned_canonincalized s' = pinned_canonincalized s /\
    (forall x, parents s' !! x = if decide (x ∈ (bo_hash <$> bs)) then None else parents s !! x) /\
    refs_ok (values s') os.
Proof.
  revert commit s. induction bs as [|b bs IH]; intros commit s Hins Hr.
  { exists s. rewrite fmap_nil, meta_delete_nil. split_and!; done. }
  cbn [st_for]. destruct (refs_discard (E := E) block value_of _ _ _ Hr) as (vals & Heq & Hr').
  rewrite <- (Hins b) in Heq by constructor.
  set (t := {| t_values := vals; t_parents := delete (bo_hash b) (parents s); t_pinned_insertions := pinned_insertions s |}).
  destruct (IH (meta_delete [journal_key b] commit) (set_tables t s)) as (s' & Hrun & Hl & Hlv & Hp & HPI & Hpc & Hpar & Hr'');
    [intros b' Hb'; apply Hins; by constructor|done|].
  exists s'. split_and!; try done.
  - assert (drop_block (E := E) commit b s = (set_tables t s, Ok (meta_delete [journal_key b] commit))) as Hdrop
      by (unfold drop_block; by rewrite st_get_bind, (st_lift_ok _ _ _ _ Heq)).
    by rewrite (st_bind_ok _ _ _ _ _ Hdrop), Hrun, meta_delete_app.
  - intros x. rewrite Hpar, fmap_cons. cbn [set_tables parents t_parents t]. destruct (decide (bo_hash b = x)) as [<-|Hne].
    + rewrite lookup_delete_eq, (decide_True (P := bo_hash b ∈ _ :: _)) by constructor. by case_decide.
    + rewrite lookup_delete_ne by done. apply decide_ext. set_solver.
Qed.

(** [revert_one] drops the last level. *)
Lemma revert_one_spec {E} C s :
  inv C s ->
  match last (levels s) with
  | None => revert_one (E := E) s = (s, Ok None)
  | Some level => exists s', revert_one (E := E) s = (s', Ok (Some (meta_delete (journal_key <$> blocks level) empty_commit))) /\
      inv C s' /\ levels s = levels s' ++ [level] /\ last_canonicalized s' = last_canonicalized s /\
      pinned s' = pinned s /\ pinned_insertions s' = pinned_insertions s
  end.
Proof.
  intros Hi. unfold revert_one. destruct (last (levels s)) as [level|] eqn:Hlast; [|by rewrite st_get_bind, Hlast].
  apply last_Some in Hlast as [lv Hlv]. rewrite st_get_bind, Hlv, last_snoc, st_modify_bind.
  rewrite length_app, Nat.add_1_r. simpl pred. rewrite take_app_length.
  assert (hashes (levels s) ≡ₚ (bo_hash <$> blocks level) ++ hashes lv) as HX.
  { rewrite Hlv, hashes_app, hashes_cons, app_nil_r. by rewrite (comm (++)). }
  destruct (drop_blocks_spec (E := E) (blocks level) (hashes lv ++ pi_keys (pinned_insertions s)) empty_commit (set_levels lv s))
    as (s' & Hrun & Hl & Hlv' & Hp & HPI & Hpc & Hpar & Hr).
  { intros b Hb. apply (pre_ins _ _ _ _ _ _ (i_pre _ _ Hi)), elem_of_level_blocks. exists (length lv), level.
    split; [|done]. by rewrite Hlv, lookup_app_r, Nat.sub_diag by done. }
  { apply inv_refs in Hi. simpl. rewrite HX, <- app_assoc in Hi. done. }
  rewrite (st_bind_ok _ _ _ _ _ Hrun). exists s'. simpl in *. split_and!; try done; [|by rewrite Hlv'].
  eapply (inv_remove C s s' (bo_hash <$> blocks level)); try done; rewrite ?Hlv'.
  - rewrite Hlv, length_app. lia.
  - intros i l' Hl'. assert (levels s !! i = Some l') as Hls by (rewrite Hlv; by apply lookup_app_l_Some).
    split; [|by exists l']. apply (Forall_lookup_1 _ _ _ _ (pre_wf _ _ _ _ _ _ (i_pre _ _ Hi)) Hls).
  - done.
  - intros x Hx Hp'. apply list_elem_of_fmap in Hp' as (b & Hpx & Hb).
    assert (number_of (bo_hash b) = front s + Z.of_nat (length lv)) as Hn.
    { apply (pre_num _ _ _ _ _ _ (i_pre _ _ Hi) _ level); [|done]. by rewrite Hlv, lookup_app_r, Nat.sub_diag by done. }
    rewrite <- Hpx, (pre_link _ _ _ _ _ _ (i_pre _ _ Hi)) in Hn by (rewrite HX; set_solver).
    apply elem_of_hashes in Hx as (i & l & b' & Hl' & Hb' & <-). pose proof (lookup_lt_Some _ _ _ Hl').
    rewrite (pre_num _ _ _ _ _ _ (i_pre _ _ Hi) i l b') in Hn; [lia| |done]. rewrite Hlv. by apply lookup_app_l_Some.
  - done.
Qed.

(** The block [hash], removed from level [i]. *)
Lemma remove_block_spec {E} C s i level j b commit :
  inv C s -> levels s !! i = Some level -> blocks level !! j = Some b ->
  (i = pred (length (levels s)) \/ bo_hash b ∉ (map_to_list (parents s)).*2) ->
  exists level' s', level_remove (E := E) level j = Ok (b, level') /\
    drop_block (E := E) commit b (set_level i level' s) = (s', Ok (meta_delete [journal_key b] commit)) /\
    inv C s' /\ level_blocks (levels s) ≡ₚ b :: level_blocks (levels s') /\ last_canonicalized s' = last_canonicalized s /\
    pinned s' = pinned s /\ pinned_insertions s' = pinned_insertions s.
Proof.
  intros Hi Hl Hj Hch. pose proof (i_pre _ _ Hi) as Hp.
  destruct (level_remove_spec (E := E) level j b) as (level' & Hrm & Hbl & Hwf); [by apply (Forall_lookup_1 _ _ _ _ (pre_wf _ _ _ _ _ _ Hp) Hl)|done|].
  assert (b ∈ blocks level) as Hb by (by eapply list_elem_of_lookup_2).
  assert (level_blocks (levels s) ≡ₚ b :: level_blocks (<[i := level']> (levels s))) as HB.
  { rewrite insert_take_drop by (by eapply lookup_lt_Some). rewrite <- (take_drop_middle _ _ _ Hl) at 1.
    unfold level_blocks. rewrite !bind_app, !bind_cons, Hbl. rewrite (delete_Permutation (blocks level) j b Hj) at 1.
    cbn [app]. by rewrite <- Permutation_middle. }
  pose proof (fmap_Permutation bo_hash _ _ HB) as HX. change (hashes (levels s) ≡ₚ bo_hash b :: hashes (<[i := level']> (levels s))) in HX.
  destruct (drop_blocks_spec (E := E) [b] (hashes (<[i := level']> (levels s)) ++ pi_keys (pinned_insertions s)) commit (set_level i level' s))
    as (s' & Hrun & Hl' & Hlv' & Hp' & HPI & Hpc & Hpar & Hr).
  { intros b' ->%list_elem_of_singleton. apply (pre_ins _ _ _ _ _ _ Hp), elem_of_level_blocks. eauto. }
  { apply inv_refs in Hi. simpl. by rewrite HX in Hi. }
  exists level', s'. split; [done|]. split.
  { by rewrite st_for_one in Hrun. }
  simpl in *. split_and!; try done; [|by rewrite Hlv'].
  eapply (inv_remove C s s' [bo_hash b]); try done; rewrite ?Hlv'.
  - by rewrite length_insert.
  - intros i' l'. destruct (decide (i = i')) as [<-|Hne].
    + rewrite list_lookup_insert_eq by (by eapply lookup_lt_Some). intros [= <-]. split; [done|]. exists level. split; [done|].
      intros b' Hb'. rewrite Hbl in Hb'. eapply elem_of_submseteq; [done|]. apply sublist_submseteq, sublist_delete.
    + rewrite list_lookup_insert_ne by done. intros Hl2. split; [|by exists l'].
      by apply (Forall_lookup_1 _ _ _ _ (pre_wf _ _ _ _ _ _ Hp) Hl2).
  - done.
  - intros x Hx Heq%list_elem_of_singleton.
    assert (x ∈ hashes (levels s)) as Hxs by (rewrite HX; by constructor).
    pose proof (pre_link _ _ _ _ _ _ Hp x Hxs) as Hlk. rewrite Heq, (pre_num _ _ _ _ _ _ Hp i level b Hl Hb) in Hlk.
    destruct Hch as [->|Hch].
    + apply elem_of_hashes in Hxs as (k & l & b' & Hk & Hb' & <-). rewrite (pre_num _ _ _ _ _ _ Hp k l b' Hk Hb') in Hlk.
      apply lookup_lt_Some in Hk. lia.
    + apply Hch, list_elem_of_fmap. exists (x, bo_hash b). split; [done|]. apply elem_of_map_to_list. rewrite <- Heq.
      by apply (pre_par _ _ _ _ _ _ Hp).
  - done.
Qed.

Lemma elem_of_enumerate {A} (l : list A) i a : (i, a) ∈ enumerate l <-> l !! i = Some a.
Proof.
  unfold enumerate. rewrite list_elem_of_lookup. setoid_rewrite lookup_zip_Some. split.
  - intros (j & Hj & Ha). apply lookup_seq in Hj as [-> _]. done.
  - intros Ha. exists i. split; [|done]. apply lookup_seq. split; [done|]. by eapply lookup_lt_Some.
Qed.

Lemma position_has_hash hash (l : list BlockOverlay) :
  match position (has_hash hash) l with
  | Some j => exists b, l !! j = Some b /\ bo_hash b = hash
  | None => hash ∉ (bo_hash <$> l)
  end.
Proof.
  pose proof (position_spec (has_hash hash) l) as Hpos. destruct (position (has_hash hash) l) as [j|].
  - destruct Hpos as (b & Hj & Hb%bool_decide_eq_true). eauto.
  - intros (b & -> & Hb)%list_elem_of_fmap. specialize (Hpos b Hb). by apply bool_decide_eq_false in Hpos.
Qed.

(** What [remove] gives up: nothing, or one block without children. *)
Definition removes C hash s s' (commit commit' : CommitSet Key) : Prop :=
  (s' = s /\ commit' = commit) \/
  (exists i level b, levels s !! i = Some level /\ b ∈ blocks level /\ bo_hash b = hash /\ inv C s' /\
     level_blocks (levels s) ≡ₚ b :: level_blocks (levels s') /\ last_canonicalized s' = last_canonicalized s /\ pinned s' = pinned s /\
     pinned_insertions s' = pinned_insertions s /\ commit' = meta_delete [journal_key b] commit).

Lemma remove_from_spec {E} C s hash idx commit :
  inv C s -> (forall i l, (i, l) ∈ idx -> levels s !! i = Some l) ->
  exists s' r, remove_from (E := E) hash (length (levels s)) commit idx s = (s', Ok r) /\
    match r with None => s' = s | Some commit' => removes C hash s s' commit commit' end.
Proof.
  intros Hi. induction idx as [|[i level] idx IH]; intros Hidx; [exists s, (Some commit); by split; [|left]|].
  cbn [remove_from]. pose proof (position_has_hash hash (blocks level)) as Hpos.
  destruct (position (has_hash hash) (blocks level)) as [j|]; [|apply IH; intros; apply Hidx; by constructor].
  destruct Hpos as (b & Hj & Hb). assert (levels s !! i = Some level) as Hl by (apply Hidx; constructor).
  rewrite st_get_bind. case_match eqn:Hcond; [by exists s, None|].
  destruct (remove_block_spec (E := E) C s i level j b commit Hi Hl Hj) as (level' & s' & Hrm & Hdrop & Hi' & HX & Hlast & Hpin & HPI).
  { apply andb_false_iff in Hcond as [Hc|Hc%bool_decide_eq_false]; [left|right; by rewrite Hb].
    apply negb_false_iff, Nat.eqb_eq in Hc. done. }
  rewrite (st_lift_ok _ _ _ _ Hrm), st_modify_bind, (st_bind_ok _ _ _ _ _ Hdrop). exists s', (Some (meta_delete [journal_key b] commit)).
  split; [done|]. right. exists i, level, b. rewrite <- Hb. split_and!; try done. by eapply list_elem_of_lookup_2.
Qed.

(** The end of [remove]: an empty last level goes. *)
Lemma inv_pop_empty C s level :
  inv C s -> last (levels s) = Some level -> blocks level = [] ->
  inv C (set_levels (take (pred (length (levels s))) (levels s)) s) /\
  level_blocks (take (pred (length (levels s))) (levels s)) = level_blocks (levels s).
Proof.
  intros Hi [lv Hlv]%last_Some Hb. rewrite Hlv, length_app, Nat.add_1_r. simpl pred. rewrite take_app_length.
  assert (level_blocks lv = level_blocks (lv ++ [level])) as HB by (unfold level_blocks; rewrite bind_app; cbn; by rewrite Hb, !app_nil_r).
  assert (hashes lv = hashes (lv ++ [level])) as Hh by (unfold hashes; by rewrite HB).
  split; [|done]. eapply (inv_remove C s _ []); try done; simpl.
  - rewrite Hlv, length_app. lia.
  - intros i l' Hl'. assert (levels s !! i = Some l') as Hls by (rewrite Hlv; by apply lookup_app_l_Some).
    split; [|by exists l']. apply (Forall_lookup_1 _ _ _ _ (pre_wf _ _ _ _ _ _ (i_pre _ _ Hi)) Hls).
  - by rewrite Hh, Hlv.
  - intros x Hx. apply not_elem_of_nil.
  - apply inv_refs in Hi. by rewrite Hh, <- Hlv.
Qed.

Lemma remove_spec {E} C s hash :
  inv C s ->
  exists s' r, remove (E := E) hash s = (s', Ok r) /\ inv C s' /\ last_canonicalized s' = last_canonicalized s /\
    pinned s' = pinned s /\ pinned_insertions s' = pinned_insertions s /\
    match r with
    | None => level_blocks (levels s') = level_blocks (levels s)
    | Some commit => exists b, bo_hash b = hash /\ level_blocks (levels s) ≡ₚ b :: level_blocks (levels s') /\ commit = meta_delete [journal_key b] empty_commit
    end.
Proof.
  intros Hi. unfold remove. rewrite st_get_bind.
  destruct (remove_from_spec (E := E) C s hash (reverse (enumerate (levels s))) empty_commit Hi) as (s1 & r & Hrun & Hr).
  { intros i l. rewrite elem_of_reverse. apply elem_of_enumerate. }
  rewrite (st_bind_ok _ _ _ _ _ Hrun). destruct r as [commit|]; [|subst s1; by exists s, None].
  rewrite st_get_bind.
  assert (inv C s1 /\ last_canonicalized s1 = last_canonicalized s /\ pinned s1 = pinned s /\
          pinned_insertions s1 = pinned_insertions s) as (Hi1 & Hl1 & Hp1 & HPI1).
  { destruct Hr as [[-> _]|(i & level & b & _ & _ & _ & ? & _ & ? & ? & ? & _)]; split_and!; done. }
  assert (exists s2, (match last (levels s1) with
      | Some level => if bool_decide (blocks level = [])
          then st_modify (set_levels (take (pred (length (levels s1))) (levels s1))) else mret tt
      | None => mret tt end) s1 = (s2, @Ok E _ tt) /\ inv C s2 /\ last_canonicalized s2 = last_canonicalized s1 /\ pinned s2 = pinned s1 /\
      pinned_insertions s2 = pinned_insertions s1 /\ level_blocks (levels s2) = level_blocks (levels s1)) as (s2 & Hpop & Hi2 & Hl2 & Hp2 & HPI2 & Hh2).
  { destruct (last (levels s1)) as [level|] eqn:Hlast; [|by exists s1]. case_bool_decide as Hb; [|by exists s1].
    destruct (inv_pop_empty C s1 level Hi1 Hlast Hb) as [? ?]. eexists. split; [done|]. done. }
  rewrite (st_bind_ok _ _ _ _ _ Hpop). rewrite <- Hl1, <- Hp1, <- HPI1. exists s2. eexists. split; [done|].
  split_and!; try done. destruct Hr as [[-> ->]|(i & level & b & Hl & Hb & Hbh & _ & HX & _ & _ & _ & ->)]; [done|].
  simpl. exists b. by rewrite Hh2.
Qed.

(** ** Inserting *)

(** A block [b] joins level [i]. *)
Lemma inv_push C s s' i level level' b :
  inv C s -> levels s !! i = Some level -> level_wf level' -> blocks level' = blocks level ++ [b] ->
  last_canonicalized s' = last_canonicalized s -> levels s' = <[i := level']> (levels s) ->
  pinned s' = pinned s -> pinned_insertions s' = pinned_insertions s ->
  parents s' = <[bo_hash b := parent_of (bo_hash b)]> (parents s) ->
  refs_ok (values s') (bo_hash b :: hashes (levels s) ++ pi_keys (pinned_insertions s)) ->
  number_of (bo_hash b) = front s + Z.of_nat i -> number_of (parent_of (bo_hash b)) = number_of (bo_hash b) - 1 ->
  (bo_hash b ∉ hashes (levels s)) -> pinned_insertions s !! bo_hash b = None ->
  match i with
  | O => match last_canonicalized s with Some (h, _) => parent_of (bo_hash b) = h | None => blocks level = [] end
  | S j => exists l, levels s !! j = Some l /\ parent_of (bo_hash b) ∈ (bo_hash <$> blocks l)
  end ->
  Z.of_nat (length (hashes (levels s))) + 2 < 2 ^ 32 ->
  bo_inserted b = b_inserted (block (bo_hash b)) -> bo_deleted b = b_deleted (block (bo_hash b)) ->
  journal_key b = to_journal_key (number_of (bo_hash b)) (journal_index b) -> inv C s'.
Proof.
  intros Hi Hl Hwf' Hbl Hlast Hlv Hpin HPI Hpars Hr Hnum Hlk Hfresh HfreshPI Hparent Hsize Hins Hdel Hkey.
  assert (front s' = front s) as Hf by (unfold front; by rewrite Hlast).
  assert (hashes (levels s') ≡ₚ bo_hash b :: hashes (levels s)) as HX.
  { rewrite Hlv, insert_take_drop by (by eapply lookup_lt_Some). rewrite <- (take_drop_middle _ _ _ Hl) at 3.
    rewrite !hashes_app, !hashes_cons, Hbl, fmap_app. cbn. solve_perm. }
  assert (forall j l', levels s' !! j = Some l' -> exists l, levels s !! j = Some l /\
    forall b', b' ∈ blocks l' <-> b' ∈ blocks l \/ (j = i /\ b' = b)) as Hlev.
  { intros j l'. rewrite Hlv. destruct (decide (i = j)) as [<-|Hne].
    - rewrite list_lookup_insert_eq by (by eapply lookup_lt_Some). intros [= <-]. exists level. split; [done|].
      intros b'. rewrite Hbl, elem_of_app, list_elem_of_singleton. naive_solver.
    - rewrite list_lookup_insert_ne by done. intros Hl'. exists l'. split; [done|]. naive_solver. }
  destruct Hi as [[Hwf Hnd Hpp Hpi Hnm Hlks Hinss _] Hdom Hpins Hlink Hroot Hla Hnone Hcan Hfr Hsz Hblk Hpos].
  assert (forall b', b' ∈ level_blocks (levels s') -> b' ∈ level_blocks (levels s) \/ b' = b) as Hblks.
  { intros b' (j & l' & Hl' & Hb')%elem_of_level_blocks. destruct (Hlev j l' Hl') as (l & Hl0 & Hiff).
    destruct (proj1 (Hiff b') Hb') as [Hb2|[_ ->]]; [left|by right]. apply elem_of_level_blocks. eauto. }
  split; rewrite ?Hf, ?Hlast, ?Hpin, ?HPI; try done.
  - split; simpl; rewrite ?HPI, ?Hpars, ?app_nil_r.
    + rewrite Hlv. by apply Forall_insert.
    + rewrite HX. by constructor.
    + intros x Hx. rewrite HX in Hx. destruct (decide (bo_hash b = x)) as [<-|Hne]; [by rewrite lookup_insert_eq|].
      rewrite lookup_insert_ne by done. apply Hpp. set_solver.
    + intros x Hx. rewrite HX in Hx. apply elem_of_cons in Hx as [->|Hx]; [done|by apply Hpi].
    + intros j l' b' Hl' Hb'. destruct (Hlev j l' Hl') as (l & Hl0 & Hiff). destruct (proj1 (Hiff b') Hb') as [Hb2|[-> ->]]; eauto.
    + intros x Hx. rewrite HX in Hx. apply elem_of_cons in Hx as [->|Hx]; [done|by apply Hlks].
    + intros b' [Hb'| ->]%Hblks; auto.
    + rewrite HX. done.
  - intros x. rewrite Hpars, HX. destruct (decide (bo_hash b = x)) as [<-|Hne]; [left; constructor|].
    rewrite lookup_insert_ne by done. intros [?|?]%Hdom; [left; by constructor|by right].
  - destruct Hpins as [He Hc Hu]. split; try done. intros x ins c Hx. rewrite Hpars, lookup_insert_ne by congruence. by apply He.
  - intros j l l' b' Hl0 Hl' Hb'. destruct (Hlev j l Hl0) as (l1 & Hl1 & Hiff1). destruct (Hlev (S j) l' Hl') as (l2 & Hl2 & Hiff2).
    apply list_elem_of_fmap. destruct (proj1 (Hiff2 b') Hb') as [Hb2|[<- ->]].
    + apply (Hlink j l1 l2) in Hb2 as (b'' & ? & ?)%list_elem_of_fmap; [|done..]. exists b''. split; [done|]. apply Hiff1. by left.
    + destruct Hparent as (l3 & Hl3 & (b'' & ? & ?)%list_elem_of_fmap). assert (l3 = l1) as -> by congruence.
      exists b''. split; [done|]. apply Hiff1. by left.
  - destruct (decide (i = O)) as [->|Hne].
    + exists (parent_of (bo_hash b)). split.
      * intros l b' Hl0 Hb'. destruct (Hlev O l Hl0) as (l1 & Hl1 & Hiff). destruct (proj1 (Hiff b') Hb') as [Hb2|[_ ->]]; [|done].
        destruct Hroot as (p & Hroot & Hp). rewrite (Hroot l1 b' Hl1 Hb2). destruct (last_canonicalized s) as [[h n]|].
        -- by rewrite (Hp h n eq_refl).
        -- assert (l1 = level) as -> by congruence. rewrite Hparent in Hb2. by apply elem_of_nil in Hb2.
      * intros h n Hh. by rewrite Hh in Hparent.
    + destruct Hroot as (p & Hroot & Hp). exists p. split; [|done]. intros l b' Hl0 Hb'. destruct (Hlev O l Hl0) as (l1 & Hl1 & Hiff).
      destruct (proj1 (Hiff b') Hb') as [Hb2|[? _]]; [eauto|congruence].
  - rewrite Hlv, length_insert. done.
  - rewrite HX. simpl. lia.
  - intros b' [Hb'| ->]%Hblks; auto.
Qed.

(** What the client has to respect when it inserts a block: the changes are those of the
    block with that hash, the parent of a block beyond the first level is in the window
    and not merely kept for a pin, and the counters do not overflow. *)
Record insert_pre s (hash : BlockHash) (number : Z) (parent : BlockHash) (cs : ChangeSet Key) : Prop := {
  ip_number : number_of hash = number;
  ip_parent : parent_of hash = parent;
  ip_link : number_of parent = number - 1;
  ip_nonneg : 0 <= number;
  ip_inserted : inserted cs = tagged value_of (b_inserted (block hash));
  ip_deleted : deleted cs = b_deleted (block hash);
  ip_window : front s < number -> pinned_insertions s !! parent = None;
  ip_first : last_canonicalized s = None -> levels s = [] \/ parent ∈ hashes (levels s);
  ip_fit : number + 1 < 2 ^ 64;
  ip_size : Z.of_nat (length (hashes (levels s))) + 2 < 2 ^ 32;
  ip_counts : forall k, need block (hashes (levels s) ++ pi_keys (pinned_insertions s)) k + occ k (b_inserted (block hash)) < 2 ^ 32;
}.

(** The checks of [insert] in their order. *)
Definition level_error s (hash : BlockHash) (number : Z) : option StateDbError :=
  match levels s !! Z.to_nat (number - front s) with
  | Some level =>
      if MAX_BLOCKS_PER_LEVEL <=? Z.of_nat (length (blocks level)) then Some (TooManySiblingBlocks number)
      else if existsb (has_hash hash) (blocks level) then Some BlockAlreadyExists else None
  | None => None
  end.

Definition parent_error s (number : Z) (parent : BlockHash) : option StateDbError :=
  match last_canonicalized s with
  | None => None
  | Some (h, n) =>
      if (number <? front s) || (front s + Z.of_nat (length (levels s)) <? number) then Some InvalidBlockNumber
      else if number =? front s then if bool_decide (h = parent) then None else Some InvalidParent
      else if have_block s parent then None else Some InvalidParent
  end.

Definition insert_error s (hash : BlockHash) (number : Z) (parent : BlockHash) : option StateDbError :=
  match parent_error s number parent with Some e => Some e | None => level_error s hash number end.

(** The overlay after the checks: the parent of a first block is taken to be canonical. *)
Definition assume_parent s (number : Z) (parent : BlockHash) : NonCanonicalOverlay :=
  match last_canonicalized s with
  | None => if bool_decide (levels s = []) && (0 <? number) then set_last_canonicalized (Some (parent, number - 1)) s else s
  | Some _ => s
  end.

Definition assume_canonical C s (number : Z) (parent : BlockHash) : gset BlockHash :=
  match last_canonicalized s with
  | None => if bool_decide (levels s = []) && (0 <? number) then {[parent]} else C
  | Some _ => C
  end.

Lemma inv_assume C s hash number parent cs :
  inv C s -> insert_pre s hash number parent cs -> inv (assume_canonical C s number parent) (assume_parent s number parent).
Proof.
  intros Hi Hp. unfold assume_canonical, assume_parent. destruct (last_canonicalized s) as [?|] eqn:Hlast; [done|].
  case_match eqn:Hc; [|done]. apply andb_true_iff in Hc as [Hlv%bool_decide_eq_true Hn%Z.ltb_lt].
  destruct (i_none _ _ Hi Hlast) as [-> HPI]. destruct Hp as [Hnum Hpar Hlink _ _ _ _ _ Hfit _ _].
  set (s' := set_last_canonicalized (Some (parent, number - 1)) s).
  assert (front s' = number) as Hf by (unfold front; simpl; lia).
  pose proof (inv_refs _ _ Hi) as Hr. destruct Hi as [_ Hdom _ _ _ _ _ _ _ _ _ Hpos].
  split; rewrite ?Hf; simpl; rewrite ?Hlv in *; try done; try (by intros x ?%elem_of_nil).
  - split; simpl; rewrite ?Hlv, ?app_nil_r; try done; try (by intros x ?%elem_of_nil). constructor.
  - rewrite HPI. split; intros x; rewrite lookup_empty; done.
  - exists parent. split; [done|]. by intros h n [= <- _].
  - intros h n [= <- <-]. split; [set_solver|lia].
  - intros c ->%elem_of_singleton. lia.
  - simpl. lia.
Qed.

Lemma lookup_snoc_new (lv : list OverlayLevel) i l b : (lv ++ [new_level]) !! i = Some l -> b ∈ blocks l -> lv !! i = Some l.
Proof. intros [[_ Hl]|[? <-]]%lookup_snoc_Some Hb; [done|]. by apply elem_of_nil in Hb. Qed.

Lemma level_blocks_snoc_new (lv : list OverlayLevel) : level_blocks (lv ++ [new_level]) = level_blocks lv.
Proof. unfold level_blocks. rewrite bind_app. simpl. by rewrite app_nil_r. Qed.

Lemma inv_new_level C s :
  inv C s -> front s + Z.of_nat (length (levels s)) + 1 < 2 ^ 64 -> inv C (set_levels (levels s ++ [new_level]) s).
Proof.
  intros Hi Hb. set (s' := set_levels (levels s ++ [new_level]) s). assert (front s' = front s) as Hf by done.
  assert (hashes (levels s ++ [new_level]) = hashes (levels s)) as Hh by (unfold hashes; by rewrite level_blocks_snoc_new).
  pose proof (inv_refs _ _ Hi) as Hr.
  destruct Hi as [[Hwf Hnd Hpp Hpi Hnm Hlks Hinss _] Hdom Hpins Hlink (p & Hroot & Hp) Hla Hnone Hcan Hfr Hsz Hblk Hpos].
  split; rewrite ?Hf; simpl; rewrite ?Hh; try done.
  - split; simpl; rewrite ?Hh, ?level_blocks_snoc_new, ?app_nil_r; try done.
    + apply Forall_app. split; [done|]. constructor; [apply level_wf_new|constructor].
    + intros i l b Hl Hb'. eapply Hnm; [by eapply lookup_snoc_new|done].
  - intros i l l' b Hl Hl' Hb'. apply (lookup_snoc_new _ _ _ b) in Hl'; [|done].
    apply (Hlink i l l' b); [|done..]. apply lookup_snoc_Some in Hl as [[? ?]|[-> _]]; [done|].
    apply lookup_lt_Some in Hl'. lia.
  - exists p. split; [|done]. intros l b Hl Hb'. eapply Hroot; [by eapply lookup_snoc_new|done].
  - rewrite length_app. simpl. lia.
  - by rewrite level_blocks_snoc_new.
Qed.

Definition assume_commit s (number : Z) (parent : BlockHash) : CommitSet Key :=
  match last_canonicalized s with
  | None => if bool_decide (levels s = []) && (0 <? number)
            then meta_insert (to_meta_key LAST_CANONICAL tt) (encode (parent, number - 1)) empty_commit else empty_commit
  | Some _ => empty_commit
  end.

Lemma insert_checks_spec C s number parent :
  inv C s -> 0 <= number -> insert_checks number parent (front s) s =
    match parent_error s number parent with
    | Some e => (s, Err e)
    | None => (assume_parent s number parent, Ok (assume_commit s number parent))
    end.
Proof.
  intros Hi Hn. unfold insert_checks, parent_error, assume_parent, assume_commit. rewrite st_get_bind.
  pose proof (i_front _ _ Hi) as Hf. destruct (last_canonicalized s) as [[h n]|] eqn:Hlast.
  2:{ case_match eqn:Hc; [|done]. apply andb_true_iff in Hc as [_ Hc%Z.ltb_lt].
      by rewrite (st_lift_ok _ _ _ _ (sub_u_ok number 1 ltac:(lia))). }
  assert (front s = n + 1) as Hfn by (unfold front; by rewrite Hlast).
  destruct (Z.ltb_spec number (front s)) as [|Hge]; [done|]. simpl orb.
  rewrite (st_lift_ok _ _ _ _ (add_u_ok 64 _ _ (proj2 Hf))). case_match; [done|].
  destruct (Z.eqb_spec number (front s)) as [->|]; [|by destruct (have_block s parent)].
  destruct (i_last _ _ Hi h n Hlast) as (_ & Hhn & Hn0). rewrite (st_lift_ok _ _ _ _ (sub_u_ok (front s) 1 ltac:(lia))).
  replace (front s - 1) with n by lia. rewrite Z.eqb_refl, andb_true_r. by case_bool_decide.
Qed.

(** The level at a number of the window, which may be a new one. *)
Lemma insert_level_spec C s number fr :
  inv C s -> front s <= number <= front s + Z.of_nat (length (levels s)) -> number + 1 < 2 ^ 64 ->
  (fr = front s \/ (levels s = [] /\ fr = 0)) ->
  exists lv, insert_level number fr s = (set_levels lv s, Ok (Z.to_nat (number - front s))) /\ inv C (set_levels lv s) /\
    lv !! Z.to_nat (number - front s) = Some (default new_level (levels s !! Z.to_nat (number - front s))) /\
    level_blocks lv = level_blocks (levels s) /\ (forall j l, levels s !! j = Some l -> lv !! j = Some l) /\
    (is_Some (levels s !! Z.to_nat (number - front s)) -> lv = levels s).
Proof.
  intros Hi Hn Hfit Hfr. pose proof (i_front _ _ Hi) as Hf. unfold insert_level. rewrite st_get_bind.
  assert (add_u (E := StateDbError) 64 fr (Z.of_nat (length (levels s))) = Ok (fr + Z.of_nat (length (levels s)))) as Htop.
  { apply add_u_ok. destruct Hfr as [->|[Hlv ->]]; [lia|]. rewrite Hlv. simpl. lia. }
  rewrite (st_lift_ok _ _ _ _ Htop).
  destruct (decide (number = front s + Z.of_nat (length (levels s)))) as [Htop'|Hlt].
  - assert (bool_decide (levels s = []) || (number =? fr + Z.of_nat (length (levels s))) = true) as ->.
    { destruct Hfr as [->|[Hlv ->]]; [|by rewrite bool_decide_true]. rewrite (proj2 (Z.eqb_eq _ _) Htop'). apply orb_true_r. }
    rewrite st_modify_bind. replace (Z.to_nat (number - front s)) with (length (levels s)) by lia.
    exists (levels s ++ [new_level]). split; [done|]. split; [apply inv_new_level; [done|lia]|].
    rewrite (lookup_ge_None_2 (levels s)), list_lookup_middle by done. split; [done|].
    split; [apply level_blocks_snoc_new|]. split; [|by intros [? ?]]. intros j l Hl. by apply lookup_app_l_Some.
  - assert (levels s <> []) as Hne by (intros Hlv; rewrite Hlv in Hlt; simpl in Hlt; rewrite Hlv in Hn; simpl in Hn; lia).
    assert (fr = front s) as -> by (by destruct Hfr as [?|[? _]]).
    rewrite bool_decide_false, (proj2 (Z.eqb_neq _ _) Hlt) by done. cbn [orb].
    rewrite (st_lift_ok _ _ _ _ (sub_u_ok number (front s) ltac:(lia))). exists (levels s).
    replace (set_levels (levels s) s) with s by (by destruct s). split; [done|]. split; [done|]. split; [|by split_and!].
    destruct (lookup_lt_is_Some_2 (levels s) (Z.to_nat (number - front s))) as [l Hl]; [lia|]. by rewrite Hl.
Qed.

Section insert.
Context C s hash number parent cs (Hi : inv C s) (Hpre : insert_pre s hash number parent cs)
  (Hok : parent_error s number parent = None).

Let s0 := assume_parent s number parent.
Let C0 := assume_canonical C s number parent.

Lemma insert_levels : levels s0 = levels s /\ values s0 = values s /\ parents s0 = parents s /\ pinned s0 = pinned s /\
  pinned_insertions s0 = pinned_insertions s.
Proof. unfold s0, assume_parent. by destruct (last_canonicalized s); [|case_match]. Qed.

(** The parent is in the window, or it is the last canonical block. *)
Lemma insert_parent :
  match last_canonicalized s0 with
  | Some (h, n) => front s0 = n + 1 /\ (number = front s0 /\ parent = h \/ front s0 < number /\ parent ∈ hashes (levels s))
  | None => front s0 = 0 /\ (number = 0 /\ levels s = [] \/ 0 < number /\ parent ∈ hashes (levels s))
  end.
Proof.
  destruct Hpre as [Hnum Hpar Hlink Hnn _ _ Hwin Hfirst _ _ _]. unfold s0, front. revert Hok. unfold parent_error, assume_parent.
  destruct (last_canonicalized s) as [[h n]|] eqn:Hlast.
  - intros Hc. rewrite Hlast. split; [done|]. revert Hwin Hc. unfold front. rewrite Hlast. intros Hwin Hc.
    destruct (_ || _) eqn:Hr; [done|]. apply orb_false_iff in Hr as [Hr1%Z.ltb_ge Hr2%Z.ltb_ge].
    destruct (Z.eqb_spec number (n + 1)) as [->|Hne]; [case_bool_decide; [by left|done]|]. right. split; [lia|].
    unfold have_block in Hc. case_bool_decide as Hb; [|done]. destruct (i_dom _ _ Hi parent Hb) as [|HPI]; [done|].
    rewrite Hwin in HPI by lia. by destruct HPI.
  - intros _. destruct (Hfirst eq_refl) as [Hlv|Hin].
    + rewrite Hlv, bool_decide_true by done. cbn [andb]. destruct (Z.ltb_spec 0 number); simpl; [|rewrite Hlast; lia || (split; [done|left; split; [lia|done]])].
      split; [done|]. left. split; [lia|done].
    + rewrite bool_decide_false by (intros Hlv; rewrite Hlv in Hin; by apply elem_of_nil in Hin). simpl. rewrite Hlast.
      split; [done|]. right. split; [|done]. pose proof (pre_number _ _ _ _ _ _ _ (i_pre _ _ Hi) Hin) as Hp.
      rewrite Hlink in Hp. unfold front in Hp. rewrite Hlast in Hp. lia.
Qed.

Lemma insert_window :
  front s0 <= number <= front s0 + Z.of_nat (length (levels s0)) /\ (front s = front s0 \/ levels s0 = [] /\ front s = 0).
Proof.
  destruct insert_levels as [-> _]. pose proof insert_parent as Hp. pose proof (inv_assume _ _ _ _ _ _ Hi Hpre) as Hi0.
  assert (parent ∈ hashes (levels s) -> number <= front s0 + Z.of_nat (length (levels s))) as Hin.
  { intros Hx. destruct insert_levels as [Hlv _]. rewrite <- Hlv in Hx. apply elem_of_hashes in Hx as (i & l & b & Hl & Hb & Hx).
    pose proof (pre_num _ _ _ _ _ _ (i_pre _ _ Hi0) i l b Hl Hb) as Hn. fold s0 in Hn. rewrite Hx, (ip_link _ _ _ _ _ Hpre) in Hn.
    rewrite Hlv in Hl. apply lookup_lt_Some in Hl. lia. }
  assert (front s = front s0 \/ levels s = [] /\ front s = 0) as Hfr.
  { unfold s0, assume_parent, front. destruct (last_canonicalized s) as [[h n]|] eqn:Hl; [left; by rewrite Hl|].
    case_bool_decide; [right; done|left; simpl; by rewrite Hl]. }
  split; [|done]. destruct (last_canonicalized s0) as [[h n]|]; destruct Hp as [Hf [[? ?]|[? ?%Hin]]]; lia.
Qed.

(** The new block is not among those that are kept. *)
Lemma insert_fresh : pinned_insertions s !! hash = None.
Proof.
  destruct (pinned_insertions s !! hash) as [a|] eqn:Hh; [|done]. exfalso. pose proof insert_parent as Hp.
  pose proof (inv_assume _ _ _ _ _ _ Hi Hpre) as Hi0. fold s0 C0 in Hi0. destruct insert_levels as (Hlv & _ & _ & _ & HPI).
  destruct Hpre as [Hnum Hpar Hlink Hnn _ _ Hwin Hfirst _ _ _].
  destruct (p_up _ _ _ _ _ _ (i_pins_ok _ _ Hi0) hash) as [[_ [Hd HdC]]|[_ Hlt]].
  - rewrite HPI. by eexists.
  - rewrite Hpar, HPI in *. assert (parent ∈ hashes (levels s) -> False) as Hin.
    { intros Hx%(pre_pi _ _ _ _ _ _ (i_pre _ _ Hi)). simpl in Hx. rewrite Hx in Hd. by destruct Hd. }
    destruct (last_canonicalized s0) as [[h n]|] eqn:Hlast; destruct Hp as [Hf [[? ?]|[? ?]]]; try tauto.
    + subst parent. apply HdC. by destruct (i_last _ _ Hi0 h n Hlast).
    + destruct (i_none _ _ Hi0 Hlast) as [_ Hemp]. rewrite HPI in Hemp. by rewrite Hemp, lookup_empty in Hh.
  - rewrite Hpar, Hlink in Hlt. pose proof (proj1 insert_window). lia.
Qed.
End insert.

Lemma front_block_number_ok {E} C s : inv C s -> front_block_number (E := E) s = Ok (front s).
Proof.
  intros Hi. pose proof (i_front _ _ Hi) as Hf. revert Hf. unfold front_block_number, front.
  destruct (last_canonicalized s) as [[h n]|]; [|done]. intros Hf. apply add_u_ok. lia.
Qed.

Lemma level_error_default s hash number :
  level_error s hash number =
  let level := default new_level (levels s !! Z.to_nat (number - front s)) in
  if MAX_BLOCKS_PER_LEVEL <=? Z.of_nat (length (blocks level)) then Some (TooManySiblingBlocks number)
  else if existsb (has_hash hash) (blocks level) then Some BlockAlreadyExists else None.
Proof. unfold level_error. by destruct (levels s !! Z.to_nat (number - front s)). Qed.

(** The second half of [insert], after the level was found. *)
Lemma insert_push C s i level hash number parent cs :
  inv C s -> levels s !! i = Some level -> number_of hash = front s + Z.of_nat i -> number_of hash = number ->
  parent_of hash = parent -> number_of parent = number - 1 ->
  inserted cs = tagged value_of (b_inserted (block hash)) -> deleted cs = b_deleted (block hash) ->
  pinned_insertions s !! hash = None ->
  match i with
  | O => match last_canonicalized s with Some (h, _) => parent = h | None => blocks level = [] end
  | S j => exists l, levels s !! j = Some l /\ parent ∈ (bo_hash <$> blocks l)
  end ->
  Z.of_nat (length (hashes (levels s))) + 2 < 2 ^ 32 ->
  (forall k, need block (hashes (levels s) ++ pi_keys (pinned_insertions s)) k + occ k (b_inserted (block hash)) < 2 ^ 32) ->
  Z.of_nat (length (blocks level)) < MAX_BLOCKS_PER_LEVEL -> existsb (has_hash hash) (blocks level) = false ->
  let index := available_index level in
  let b := {| bo_hash := hash; journal_index := index; journal_key := to_journal_key number index;
              bo_inserted := (inserted cs).*1; bo_deleted := deleted cs |} in
  exists level' vals, level_push (E := StateDbError) level b = Ok level' /\ insert_values (E := StateDbError) (values s) (inserted cs) = Ok vals /\
    0 <= index < MAX_BLOCKS_PER_LEVEL /\ blocks level' = blocks level ++ [b] /\
    inv C (set_tables {| t_values := vals; t_parents := <[hash := parent]> (parents s); t_pinned_insertions := pinned_insertions s |}
             (set_level i level' s)).
Proof.
  intros Hi Hl Hni Hnum Hpar Hlink Hins Hdel HPI Hparent Hsize Hcnt Hroom Hnew index b.
  assert (level_wf level) as Hwf by (by apply (Forall_lookup_1 _ _ _ _ (pre_wf _ _ _ _ _ _ (i_pre _ _ Hi)) Hl)).
  destruct (available_index_spec level Hwf Hroom) as [Hidx Hidx'].
  destruct (level_push_spec (E := StateDbError) level b Hwf Hidx Hidx') as (level' & Hpush & Hbl & Hwf').
  destruct (insert_values_spec (E := StateDbError) value_of (b_inserted (block hash)) (values s) _ (inv_refs _ _ Hi))
    as (vals & Hvals & Hr); [intros k; split; [apply need_nonneg|apply Hcnt]|].
  exists level', vals. rewrite Hins. split; [done|]. split; [done|]. split; [done|]. split; [done|].
  eapply (inv_push C s _ i level level' b); try done; simpl; try congruence.
  - eapply counts_ok_ext; [exact Hr|]. intros k. rewrite need_cons. simpl. lia.
  - intros (j & l & b' & Hj & Hb' & Hbh)%elem_of_hashes.
    pose proof (pre_num _ _ _ _ _ _ (i_pre _ _ Hi) j l b' Hj Hb') as Hn. rewrite Hbh in Hn. assert (j = i) as -> by lia.
    assert (l = level) as -> by congruence. apply not_true_iff_false in Hnew. apply Hnew, existsb_exists.
    exists b'. split; [by apply list_elem_of_In|]. by apply bool_decide_eq_true.
  - destruct i; [by rewrite Hpar|]. by rewrite Hpar.
  - rewrite Hins. unfold tagged. rewrite <- list_fmap_compose. apply list_fmap_id.
Qed.

(** [insert] on every branch: the first failing check is the error, and nothing changes;
    otherwise one block joins, with a free journal entry. *)
Lemma insert_spec C s hash number parent cs :
  inv C s -> insert_pre s hash number parent cs ->
  match insert_error s hash number parent with
  | Some e => insert hash number parent cs s = (s, Err e)
  | None => exists s' b, insert hash number parent cs s =
        (s', Ok (meta_insert (journal_key b) (encode {| jr_hash := hash; jr_parent_hash := parent; jr_inserted := inserted cs;
                                                        jr_deleted := deleted cs |}) (assume_commit s number parent))) /\
      inv (assume_canonical C s number parent) s' /\
      last_canonicalized s' = last_canonicalized (assume_parent s number parent) /\ pinned s' = pinned s /\
      pinned_insertions s' = pinned_insertions s /\ pinned_canonincalized s' = pinned_canonincalized s /\
      level_blocks (levels s') ≡ₚ b :: level_blocks (levels s) /\ bo_hash b = hash /\ 0 <= journal_index b < MAX_BLOCKS_PER_LEVEL
  end.
Proof.
  intros Hi Hpre. unfold insert_error, insert. rewrite st_get_bind, (st_lift_ok _ _ _ _ (front_block_number_ok _ _ Hi)).
  pose proof (insert_checks_spec C s number parent Hi (ip_nonneg _ _ _ _ _ Hpre)) as Hchk.
  destruct (parent_error s number parent) as [e|] eqn:Hpe; [by apply st_bind_err|]. rewrite (st_bind_ok _ _ _ _ _ Hchk).
  pose proof (inv_assume _ _ _ _ _ _ Hi Hpre) as Hi0. pose proof (insert_fresh _ _ _ _ _ _ Hi Hpre Hpe) as Hfresh.
  pose proof (insert_parent _ _ _ _ _ _ Hi Hpre Hpe) as Hpar. destruct (insert_window _ _ _ _ _ _ Hi Hpre Hpe) as [Hwin Hfr].
  destruct (insert_levels s number parent) as (Hlv0 & Hv0 & Hp0 & Hpin0 & HPI0).
  assert (pinned_canonincalized (assume_parent s number parent) = pinned_canonincalized s) as Hpc0
    by (unfold assume_parent; destruct (last_canonicalized s); [done|]; destruct (_ && _); done).
  set (s0 := assume_parent s number parent) in *. set (C0 := assume_canonical C s number parent) in *.
  destruct (insert_level_spec C0 s0 number (front s) Hi0 Hwin (ip_fit _ _ _ _ _ Hpre) Hfr) as (lv & Hrun & Hi1 & Hl & Hlb & Hkeep & Hsame).
  rewrite (st_bind_ok _ _ _ _ _ Hrun), st_get_bind. cbn [levels set_levels]. rewrite (st_lift_ok _ _ _ _ (f_equal expect Hl)).
  assert (level_error s hash number = level_error s0 hash number) as Hle.
  { unfold level_error. rewrite Hlv0. destruct Hfr as [->|[Hnil _]]; [done|]. rewrite <- Hlv0, Hnil. done. }
  rewrite Hle, level_error_default. cbv zeta. set (i := Z.to_nat (number - front s0)) in *.
  set (level := default new_level (levels s0 !! i)) in *.
  assert (forall e : StateDbError, blocks level <> [] -> (set_levels lv s0, Err (A := CommitSet Key) e) = (s, Err e)) as Herr.
  { intros e Hne. f_equal. destruct (levels s0 !! i) as [l|] eqn:Hli; [|done]. rewrite (Hsame ltac:(eauto)).
    assert (levels s <> []) as Hlv by (rewrite <- Hlv0; by intros Hnil; rewrite Hnil in Hli).
    unfold s0, assume_parent. rewrite bool_decide_false by done. destruct (last_canonicalized s); by destruct s. }
  destruct (Z.leb_spec MAX_BLOCKS_PER_LEVEL (Z.of_nat (length (blocks level)))) as [Hfull|Hroom];
    [apply Herr; by destruct (blocks level)|].
  destruct (existsb (has_hash hash) (blocks level)) eqn:Hex; [apply Herr; by destruct (blocks level)|].
  destruct Hpre as [Hnum Hpr Hlink Hnn Hins Hdel _ _ Hfit Hsize Hcnt].
  assert (hashes lv = hashes (levels s)) as Hh by (unfold hashes; by rewrite Hlb, Hlv0).
  destruct (insert_push C0 (set_levels lv s0) i level hash number parent cs) as (level' & vals & Hpush & Hvals & Hidx & Hbl & Hi2);
    simpl; rewrite ?Hh, ?HPI0; try done.
  { unfold front in *. simpl in *. lia. }
  { destruct i as [|j] eqn:Hij.
    - destruct (last_canonicalized s0) as [[h n]|] eqn:Hls; destruct Hpar as [Hf [[? ?]|[? ?]]]; try lia; [done|].
      unfold level. rewrite Hlv0. by replace (levels s) with (@nil OverlayLevel).
    - assert (parent ∈ hashes (levels s0)) as Hin.
      { rewrite Hlv0. destruct (last_canonicalized s0) as [[h n]|] eqn:Hls; destruct Hpar as [Hf [[? ?]|[? ?]]]; try done; lia. }
      apply elem_of_hashes in Hin as (k & l & b & Hk & Hb & Hbp). exists l. rewrite <- Hbp. split; [|by apply list_elem_of_fmap_2].
      pose proof (pre_num _ _ _ _ _ _ (i_pre _ _ Hi0) k l b Hk Hb) as Hn. rewrite Hbp, Hlink in Hn.
      assert (k = j) as <- by lia. by apply Hkeep. }
  rewrite (st_lift_ok _ _ _ _ Hpush), st_modify_bind. cbn [set_levels values parents pinned_insertions jr_inserted].
  rewrite (st_lift_ok _ _ _ _ Hvals), st_modify_bind. eexists.
  exists {| bo_hash := hash; journal_index := available_index level; journal_key := to_journal_key number (available_index level);
            bo_inserted := (inserted cs).*1; bo_deleted := deleted cs |}.
  split; [reflexivity|]. split; [rewrite <- HPI0; exact Hi2|].
  simpl. split_and!; try done; try apply Hidx. rewrite <- Hlv0, <- Hlb, insert_take_drop by (by eapply lookup_lt_Some).
  rewrite <- (take_drop_middle _ _ _ Hl) at 3. unfold level_blocks. rewrite !bind_app, !bind_cons, Hbl.
  rewrite <- !app_assoc. simpl. rewrite !Permutation_middle. done.
Qed.

End invariant.
