(* ===== verification/Canonicalize.v ===== *)
(** * The overlay of non-canonical blocks: canonicalization

    [canonicalize] takes the first level off the overlay, writes the nodes of the block
    that becomes canonical to the commit, and discards its siblings with all their
    descendants, with their journal entries.  What remains are the descendants of the
    new canonical block. *)
From stdpp Require Import base gmap list.
From Stdlib Require Import ZArith Lia.
From S2P Require Import Prelude StateDbBase NonCanonical NonCanonicalFacts NonCanonicalInv.
Set Warnings "-clear-no-such-hyp".
Open Scope Z_scope.

Section canonicalize.
Context {BlockHash Key : Type} `{Countable BlockHash} `{Countable Key}.
Context `{Codec unit, Codec (BlockHash * Z), Codec (Z * Z), Codec (JournalRecord BlockHash Key)}.
Context (block : BlockHash -> Block BlockHash Key) (value_of : Key -> DBValue).

Abbreviation BlockOverlay := (BlockOverlay BlockHash Key).
Abbreviation OverlayLevel := (OverlayLevel BlockHash Key).
Abbreviation NonCanonicalOverlay := (NonCanonicalOverlay BlockHash Key).
Abbreviation Tables := (Tables BlockHash Key).
Abbreviation Pins := (gmap BlockHash (list Key * Z)).
Abbreviation number_of := (number_of block).
Abbreviation parent_of := (parent_of block).
Abbreviation refs_ok := (refs_ok block value_of).
Abbreviation pre := (pre block value_of).
Abbreviation discards := (discards block).
Abbreviation inv := (inv block value_of).
Implicit Types (s : NonCanonicalOverlay) (h x y : BlockHash) (t : Tables) (C : gset BlockHash) (PI : Pins).

(** ** Journals of the descendants *)
Fixpoint descs (lv : list OverlayLevel) (h : BlockHash) : list BlockOverlay :=
  match lv with
  | [] => []
  | level :: rest => blocks level ≫= fun b => if childb block h b then b :: descs rest (bo_hash b) else []
  end.

Lemma discard_journals_ok {E} par lv dj h :
  (forall x, x ∈ hashes lv -> par !! x = Some (parent_of x)) ->
  discard_journals (E := E) par lv dj h = Ok (dj ++ (journal_key <$> descs lv h)).
Proof.
  revert dj h. induction lv as [|level rest IH]; intros dj h Hpar; [cbn; by rewrite app_nil_r|].
  cbn [discard_journals descs]. rewrite hashes_cons in Hpar.
  assert (forall b, b ∈ blocks level -> par !! bo_hash b = Some (parent_of (bo_hash b))) as Hb.
  { intros b Hb. apply Hpar, elem_of_app. left. by apply list_elem_of_fmap_2. }
  assert (forall x, x ∈ hashes rest -> par !! x = Some (parent_of x)) as Hrest by (intros x Hx; apply Hpar, elem_of_app; by right).
  clear Hpar. revert dj. induction (blocks level) as [|b bs IHb]; intros dj; [cbn; by rewrite app_nil_r|].
  cbn [for_each]. unfold is_child_of at 1. rewrite (Hb b) by constructor. cbn [mbind res_bind expect].
  rewrite bind_cons. unfold childb at 1. case_bool_decide.
  - rewrite (IH _ _ Hrest), IHb by (intros; apply Hb; by constructor). f_equal. rewrite fmap_app, fmap_cons, <- !app_assoc. done.
  - by rewrite IHb by (intros; apply Hb; by constructor).
Qed.

Lemma descs_level level rest h b : b ∈ blocks level -> parent_of (bo_hash b) = h -> b ∈ descs (level :: rest) h.
Proof.
  intros Hb Hp. cbn. apply list_elem_of_bind. exists b. split; [|done]. unfold childb. rewrite bool_decide_true by done. constructor.
Qed.

Lemma descs_sub lv h b : b ∈ descs lv h -> b ∈ level_blocks lv.
Proof.
  revert h. induction lv as [|level rest IH]; intros h Hb; [done|]. cbn in Hb.
  apply list_elem_of_bind in Hb as (b0 & Hb & Hb0). unfold level_blocks. rewrite bind_cons. apply elem_of_app.
  destruct (childb block h b0); [|by apply elem_of_nil in Hb]. apply elem_of_cons in Hb as [->|Hb]; [by left|right; by eapply IH].
Qed.

Lemma descs_closed m lv h b1 b2 :
  (forall i l b, lv !! i = Some l -> b ∈ blocks l -> number_of (bo_hash b) = m + Z.of_nat i) ->
  b1 ∈ descs lv h -> b2 ∈ level_blocks lv -> parent_of (bo_hash b2) = bo_hash b1 ->
  number_of (bo_hash b2) = number_of (bo_hash b1) + 1 -> b2 ∈ descs lv h.
Proof.
  revert m h. induction lv as [|level rest IH]; intros m h Hnum Hb1 Hb2 Hp Hn; [done|].
  assert (forall i l b, rest !! i = Some l -> b ∈ blocks l -> number_of (bo_hash b) = m + 1 + Z.of_nat i) as Hnum'.
  { intros i l b Hl Hb. rewrite (Hnum (S i) l b Hl Hb). lia. }
  assert (b2 ∈ level_blocks rest) as Hb2'.
  { apply elem_of_level_blocks in Hb2 as ([|i] & l & Hl & Hb2).
    - apply descs_sub, elem_of_level_blocks in Hb1 as (j & l1 & Hl1 & Hb1).
      rewrite (Hnum O l b2 Hl Hb2), (Hnum j l1 b1 Hl1 Hb1) in Hn. lia.
    - apply elem_of_level_blocks. eauto. }
  cbn in *. apply list_elem_of_bind in Hb1 as (b0 & Hb1 & Hb0). apply list_elem_of_bind. exists b0. split; [|done].
  destruct (childb block h b0); [|by apply elem_of_nil in Hb1]. apply elem_of_cons. right.
  apply elem_of_cons in Hb1 as [->|Hb1].
  - assert (number_of (bo_hash b0) = m) as Hn0 by (rewrite (Hnum O level b0); [lia|done..]).
    apply elem_of_level_blocks in Hb2' as (i & l & Hl & Hb2'). rewrite (Hnum' i l b2 Hl Hb2'), Hn0 in Hn.
    assert (i = O) as -> by lia. destruct rest as [|l' rest]; [done|]. injection Hl as ->. by apply descs_level.
  - by apply (IH (m + 1)).
Qed.

(** They are the blocks that [discard_descendants] takes. *)
Lemma descs_discarded pins h m lv t R lv' t' n dm b :
  pre m lv t R -> number_of h = m - 1 -> discards pins h lv t lv' t' n dm -> (forall x, x ∈ hashes lv' -> parent_of x <> h) ->
  b ∈ level_blocks lv -> (bo_hash b ∈ dm <-> b ∈ descs lv h).
Proof.
  intros Hp Hh D Hfull Hb. pose proof (d_perm _ _ _ _ _ _ _ _ _ D) as P.
  assert (forall lv1 h1, (forall x, x ∈ hashes lv1 -> x ∈ hashes lv) -> h1 = h \/ h1 ∈ dm ->
    forall b1, b1 ∈ descs lv1 h1 -> bo_hash b1 ∈ dm) as Hback.
  { induction lv1 as [|level rest IH]; intros h1 Hsub Hh1 b1 Hb1; [by apply elem_of_nil in Hb1|]. cbn in Hb1. rewrite hashes_cons in Hsub.
    apply list_elem_of_bind in Hb1 as (b2 & Hb1 & Hb2). unfold childb in Hb1. case_bool_decide as Hc; [|by apply elem_of_nil in Hb1].
    assert (bo_hash b2 ∈ dm) as Hdm.
    { assert (bo_hash b2 ∈ hashes lv) as Hx by (apply Hsub, elem_of_app; left; by apply list_elem_of_fmap_2). rewrite P in Hx.
      apply elem_of_app in Hx as [?|Hx]; [done|]. destruct Hh1 as [->|Hh1]; [by apply Hfull in Hx|].
      apply (d_kept _ _ _ _ _ _ _ _ _ D) in Hx. by rewrite Hc in Hx. }
    apply elem_of_cons in Hb1 as [->|Hb1]; [done|]. apply (IH (bo_hash b2)); [|by right|done].
    intros x Hx. apply Hsub, elem_of_app. by right. }
  split; [|apply Hback; [done|by left]]. intros Hdm.
  assert (forall k b1, number_of (bo_hash b1) = m + Z.of_nat k -> b1 ∈ level_blocks lv -> bo_hash b1 ∈ dm -> b1 ∈ descs lv h) as Hfwd.
  { induction k as [|k IH]; intros b1 Hk Hb1 Hd1;
      assert (bo_hash b1 ∈ hashes lv) as Hbh by (apply list_elem_of_fmap_2, Hb1);
      pose proof (pre_link _ _ _ _ _ _ Hp _ Hbh) as Hlk;
      destruct (d_desc _ _ _ _ _ _ _ _ _ D _ Hd1) as [Hpar|Hpar]; try (rewrite Hpar in Hlk; lia).
    - apply elem_of_level_blocks in Hb1 as (i & l & Hl & Hb1). rewrite (pre_num _ _ _ _ _ _ Hp i l b1 Hl Hb1) in Hk.
      assert (i = O) as -> by lia. destruct lv as [|l' rest]; [done|]. injection Hl as ->. by apply descs_level.
    - assert (parent_of (bo_hash b1) ∈ hashes lv) as Hx by (rewrite P; apply elem_of_app; by left).
      pose proof (pre_number _ _ _ _ _ _ _ Hp Hx). lia.
    - assert (parent_of (bo_hash b1) ∈ hashes lv) as Hx by (rewrite P; apply elem_of_app; by left).
      apply list_elem_of_fmap in Hx as (b0 & Hx & Hb0). rewrite Hx in *.
      apply (descs_closed m lv h b0 b1); [apply Hp|apply IH; [lia|done..]|done..|lia]. }
  assert (bo_hash b ∈ hashes lv) as Hbh by (apply list_elem_of_fmap_2, Hb). pose proof (pre_number _ _ _ _ _ _ _ Hp Hbh).
  apply (Hfwd (Z.to_nat (number_of (bo_hash b) - m))); [lia|done..].
Qed.

(** A block is found where its hash is. *)
Lemma block_of_hash (lv lv2 : list OverlayLevel) b :
  NoDup (hashes lv) -> (forall b', b' ∈ level_blocks lv2 -> b' ∈ level_blocks lv) ->
  b ∈ level_blocks lv -> bo_hash b ∈ hashes lv2 -> b ∈ level_blocks lv2.
Proof.
  intros Hnd Hsub Hb (b' & Heq & Hb')%list_elem_of_fmap.
  assert (b = b') as -> by (eapply NoDup_fmap_eq; [exact Hnd|done|by apply Hsub|done]). done.
Qed.

Lemma discards_level_blocks pins h lv t lv' t' n dm b :
  discards pins h lv t lv' t' n dm -> b ∈ level_blocks lv' -> b ∈ level_blocks lv.
Proof.
  intros D (j & l' & Hl' & Hb')%elem_of_level_blocks.
  destruct (discards_blocks _ _ _ _ _ _ _ _ _ _ _ D Hl') as (l & Hl & Hsub). apply elem_of_level_blocks. eauto.
Qed.

(** ** The siblings of the canonical block *)

(** A round for a sibling [b] of the canonical block, which heads the level [vl]. *)
Lemma sibling_spec index i b tl p m vl s commit dj R :
  i <> index -> blocks vl = b :: tl -> pre m (vl :: levels s) (tables s) R -> parent_of (bo_hash b) = p ->
  Z.of_nat (length (hashes (vl :: levels s))) + 1 < 2 ^ 32 ->
  exists vl' lv' t' n dm js, canonicalize_block index (commit, dj) (i, b) s = (set_tables t' (set_levels lv' s), Ok (commit, dj ++ js)) /\
    blocks vl' = tl /\ discards (pinned s) p (vl :: levels s) (tables s) (vl' :: lv') t' n dm /\
    refs_ok (t_values t') (hashes (vl' :: lv') ++ pi_keys (t_pinned_insertions t') ++ R) /\
    (forall k, k ∈ js <-> exists b, b ∈ level_blocks (vl :: levels s) /\ bo_hash b ∈ dm /\ journal_key b = k).
Proof.
  intros Hi Hbl Hp Hpar Hsize.
  assert (blocks vl !! O = Some b) as Hb by (by rewrite Hbl).
  assert (level_wf vl) as Hwf by (by destruct Hp as [Hwf _ _ _ _ _ _ _]; inversion Hwf).
  destruct (level_remove_spec (E := StateDbError) vl O b Hwf Hb) as (vl' & _ & Hbl' & Hwf').
  destruct (discard_one_spec (E := StateDbError) block value_of _ (pinned s) m p vl (levels s) (tables s) R O b vl'
              (discard_descendants_spec block value_of (pinned s) (length (levels s)) (m + 1)))
    as (rem & t1 & nc & t2 & dmc & Hrun & Hcnt & Hblk & D1 & Hfull & D2 & Hr); [done..|].
  pose proof (pre_tail _ _ _ _ _ _ _ Hp) as Hp'.
  assert (number_of (bo_hash b) = m) as Hnb.
  { eapply pre_number_head; [exact Hp|]. rewrite Hbl. constructor. }
  assert (discard_journals (E := StateDbError) (parents s) (levels s) dj (bo_hash b) =
          Ok (dj ++ (journal_key <$> descs (levels s) (bo_hash b)))) as Hj by (apply discard_journals_ok, (pre_par _ _ _ _ _ _ Hp')).
  exists vl', rem, t2, (ind (pinned s) (bo_hash b) + nc), (bo_hash b :: dmc), ((journal_key <$> descs (levels s) (bo_hash b)) ++ [journal_key b]).
  split_and!; [|by rewrite Hbl', Hbl|done|done|].
  - unfold canonicalize_block. erewrite st_bind_ok.
    2:{ rewrite st_get_bind, bool_decide_false by done. rewrite (st_lift_ok _ _ _ _ Hj), (st_lift_ok _ _ _ _ Hrun). reflexivity. }
    cbn beta iota. rewrite st_get_bind. rewrite (st_lift_ok _ _ _ _ Hcnt), (st_lift_ok _ _ _ _ Hblk), st_modify_bind, app_assoc. reflexivity.
  - assert (forall b', b' ∈ level_blocks (levels s) -> (bo_hash b' ∈ dmc <-> b' ∈ descs (levels s) (bo_hash b))) as Hdesc.
    { intros b' Hb'. eapply (descs_discarded (pinned s)); [exact Hp'|lia|exact D1|done|done]. }
    intros k. rewrite elem_of_app, list_elem_of_fmap, list_elem_of_singleton. split.
    + intros [(b' & -> & Hb')| ->].
      * exists b'. pose proof (descs_sub _ _ _ Hb') as Hsub. split_and!; [|constructor; by apply Hdesc|done].
        unfold level_blocks. rewrite bind_cons. apply elem_of_app. by right.
      * exists b. split_and!; [|constructor|done]. unfold level_blocks. rewrite bind_cons, Hbl. constructor.
    + assert (forall b', b' ∈ level_blocks (levels s) -> b' ∈ level_blocks (vl :: levels s)) as Hsub
        by (intros b' Hb'; unfold level_blocks; rewrite bind_cons; apply elem_of_app; by right).
      intros (b' & Hb' & [Heq|Hd]%elem_of_cons & <-).
      * right. f_equal. eapply NoDup_fmap_eq; [exact (pre_nodup _ _ _ _ _ _ Hp)|done| |done].
        unfold level_blocks. rewrite bind_cons, Hbl. constructor.
      * left. assert (bo_hash b' ∈ hashes (levels s)) as Hx by (rewrite (d_perm _ _ _ _ _ _ _ _ _ D1); apply elem_of_app; by left).
        apply list_elem_of_fmap in Hx as (b'' & Heq & Hb'').
        assert (b' = b'') as -> by (eapply NoDup_fmap_eq; [exact (pre_nodup _ _ _ _ _ _ Hp)|done|by apply Hsub|done]).
        exists b''. split; [done|]. by apply Hdesc.
Qed.

(** The rounds for the siblings [bs], with [tl] still to come. *)
Lemma siblings_spec index p m bs : forall xs tl vl s commit dj R,
  xs.*2 = bs -> (forall i b, (i, b) ∈ xs -> i <> index) -> blocks vl = bs ++ tl -> pre m (vl :: levels s) (tables s) R ->
  (forall b, b ∈ blocks vl -> parent_of (bo_hash b) = p) -> Z.of_nat (length (hashes (vl :: levels s))) + 1 < 2 ^ 32 ->
  exists vl' lv' t' n dm js, st_for (canonicalize_block index) (commit, dj) xs s = (set_tables t' (set_levels lv' s), Ok (commit, dj ++ js)) /\
    blocks vl' = tl /\ discards (pinned s) p (vl :: levels s) (tables s) (vl' :: lv') t' n dm /\
    refs_ok (t_values t') (hashes (vl' :: lv') ++ pi_keys (t_pinned_insertions t') ++ R) /\
    (forall k, k ∈ js <-> exists b, b ∈ level_blocks (vl :: levels s) /\ bo_hash b ∈ dm /\ journal_key b = k).
Proof.
  induction bs as [|b bs IH]; intros xs tl vl s commit dj R Hxs Hidx Hbl Hp Hpar Hsize.
  { exists vl, (levels s), (tables s), 0, [], []. apply fmap_nil_inv in Hxs as ->. rewrite app_nil_r. split_and!; try done.
    - f_equal. by destruct s.
    - apply discards_refl, (pre_wf _ _ _ _ _ _ Hp).
    - apply (pre_refs _ _ _ _ _ _ Hp).
    - intros k. split; [by intros ?%elem_of_nil|by intros (? & _ & ?%elem_of_nil & _)]. }
  destruct xs as [|[i b'] xs]; [done|]. injection Hxs as -> Hxs.
  assert (b ∈ blocks vl) as Hbin by (rewrite Hbl; constructor).
  destruct (sibling_spec index i b (bs ++ tl) p m vl s commit dj R) as (vl1 & lv1 & t1 & n1 & dm1 & js1 & Hrun1 & Hbl1 & D1 & Hr1 & Hj1);
    [apply (Hidx i b); constructor|done|done|by apply Hpar|done|].
  pose proof (discards_pre _ _ _ _ _ _ _ _ _ _ _ _ Hp D1 Hr1) as Hp1.
  pose proof (Permutation_length (d_perm _ _ _ _ _ _ _ _ _ D1)) as Hlen. rewrite length_app in Hlen.
  destruct (IH xs tl vl1 (set_tables t1 (set_levels lv1 s)) commit (dj ++ js1) R) as (vl2 & lv2 & t2 & n2 & dm2 & js2 & Hrun2 & Hbl2 & D2 & Hr2 & Hj2);
    [done|intros; by eapply Hidx; constructor|done|by destruct t1|intros b' Hb'; apply Hpar; rewrite Hbl; cbn [app]; apply elem_of_cons; right; by rewrite <- Hbl1|simpl; lia|].
  exists vl2, lv2, t2, (n1 + n2), (dm1 ++ dm2), (js1 ++ js2). split_and!; try done.
  - cbn [st_for]. rewrite (st_bind_ok _ _ _ _ _ Hrun1), Hrun2, app_assoc. done.
  - eapply discards_app; [apply Hp| |exact D1|by destruct t1].
    intros Hx. pose proof (pre_number _ _ _ _ _ _ _ Hp Hx) as Hge. rewrite <- (Hpar b Hbin), (pre_link _ _ _ _ _ _ Hp) in Hge.
    + rewrite (pre_num _ _ _ _ _ _ Hp O vl b eq_refl Hbin) in Hge. lia.
    + rewrite hashes_cons. apply elem_of_app. left. by apply list_elem_of_fmap_2.
  - intros k. rewrite elem_of_app, Hj1, Hj2. cbn [levels set_tables set_levels]. split.
    + intros [(b' & ? & ? & ?)|(b' & Hb' & ? & ?)]; exists b'; (split_and!; [|apply elem_of_app; tauto|done]); [done|].
      by eapply discards_level_blocks.
    + intros (b' & Hb' & [Hd|Hd]%elem_of_app & ?); [left; by exists b'|right]. exists b'. split_and!; try done.
      assert (bo_hash b' ∈ hashes (vl1 :: lv1)) as Hx.
      { pose proof (d_perm _ _ _ _ _ _ _ _ _ D2) as P2. cbn [levels set_tables set_levels] in P2. rewrite P2. apply elem_of_app. by left. }
      eapply block_of_hash; [exact (pre_nodup _ _ _ _ _ _ Hp)| |done..]. intros b''. by apply (discards_level_blocks _ _ _ _ _ _ _ _ _ D1).
Qed.

(** ** The canonical block *)

(** Its nodes are kept until the changes are on disk. *)
Definition keep_canonical a t : Tables :=
  {| t_values := t_values t; t_parents := t_parents t;
     t_pinned_insertions := <[a := (b_inserted (block a), 1)]> (t_pinned_insertions t) |}.

Lemma discards_frame pins h lv t lv' t' n dm a :
  a ∉ hashes lv -> discards pins h lv t lv' t' n dm -> discards pins h lv (keep_canonical a t) lv' (keep_canonical a t') n dm.
Proof.
  intros Ha [Hsub Hperm Hdesc Hkept Hpar Hother Hpi Hn Hb].
  assert (forall x, x ∈ dm -> a <> x) as Hne by (intros x Hx ->; apply Ha; rewrite Hperm; apply elem_of_app; by left).
  assert (forall x, x ∈ dm -> t_pinned_insertions (keep_canonical a t') !! x = t_pinned_insertions t' !! x) as Hsame
    by (intros x Hx; simpl; by rewrite lookup_insert_ne by auto).
  split; try done.
  - intros x. cbn [t_parents keep_canonical]. rewrite Hpar. apply decide_ext.
    split; intros [Hx Hx']; (split; [done|]); [by rewrite Hsame|by rewrite <- Hsame].
  - intros x Hx. simpl. destruct (decide (a = x)) as [<-|]; [by rewrite !lookup_insert_eq|].
    rewrite !lookup_insert_ne by done. by apply Hother.
  - intros x Hx. cbv zeta. rewrite (kids_ext _ dm _ _ _ Hsame), (Hsame x Hx). by apply Hpi.
  - by rewrite (kids_ext _ dm _ _ _ Hsame).
Qed.

Lemma canonical_values_ok vals keys :
  (forall k, k ∈ keys -> snd <$> vals !! k = Some (value_of k)) -> canonical_values vals keys = Ok (tagged value_of keys).
Proof.
  intros Hv. unfold canonical_values.
  destruct (for_each_inv (E := StateDbError) (fun acc k => '(_, v) ← expect (vals !! k); Ok (acc ++ [(k, v)]))
              (fun dn acc => acc = tagged value_of dn) keys []) as (acc & Hrun & ->); [done| |done].
  intros dn k todo acc -> ->. assert (k ∈ dn ++ k :: todo) as Hk%Hv by (apply elem_of_app; right; constructor).
  destruct (vals !! k) as [[c v]|]; [|done]. injection Hk as ->. eexists. split; [done|]. unfold tagged. by rewrite fmap_app.
Qed.

Lemma canonical_spec index b s commit dj os :
  is_Some (pinned s !! bo_hash b) -> bo_inserted b = b_inserted (block (bo_hash b)) -> bo_hash b ∈ os -> refs_ok (values s) os ->
  canonicalize_block index (commit, dj) (index, b) s =
    (set_tables (keep_canonical (bo_hash b) (tables s)) s,
     Ok (data_delete (bo_deleted b) (data_insert (tagged value_of (b_inserted (block (bo_hash b)))) commit), dj ++ [journal_key b])).
Proof.
  intros Hpin Hins Hos Hr. unfold canonicalize_block.
  assert (canonical_values (values s) (bo_inserted b) = Ok (tagged value_of (b_inserted (block (bo_hash b))))) as Hv.
  { rewrite Hins. apply canonical_values_ok. intros k Hk. by eapply refs_ok_lookup. }
  erewrite st_bind_ok.
  2:{ rewrite st_get_bind, bool_decide_true by done. rewrite (st_lift_ok _ _ _ _ Hv). reflexivity. }
  cbn beta iota. rewrite st_get_bind, bool_decide_true by done.
  rewrite (st_lift_ok _ _ _ _ (add_u_ok 32 0 1 ltac:(done))).
  assert (discard_block (E := StateDbError) (tables s) b (0 + 1) = Ok (keep_canonical (bo_hash b) (tables s))) as Hblk
    by (unfold discard_block, keep_canonical; cbn; by rewrite Hins).
  by rewrite (st_lift_ok _ _ _ _ Hblk), st_modify_bind.
Qed.

Lemma pre_keep m lv t a :
  pre m lv t [a] -> a ∉ hashes lv -> t_pinned_insertions t !! a = None -> pre m lv (keep_canonical a t) [].
Proof.
  intros [Hwf Hnd Hpar Hpi Hnum Hlk Hins Hr] Ha Hna. split; try done; simpl.
  - intros x Hx. rewrite lookup_insert_ne by congruence. by apply Hpi.
  - rewrite app_nil_r, (pi_keys_insert _ _ _ Hna). eapply refs_ok_proper; [|exact Hr]. solve_perm.
Qed.

(** The first level without the canonical block. *)
Lemma pre_siblings m level rest t i b vl :
  pre m (level :: rest) t [] -> blocks level !! i = Some b -> blocks vl = delete i (blocks level) -> level_wf vl ->
  hashes (level :: rest) ≡ₚ bo_hash b :: hashes (vl :: rest) /\ pre m (vl :: rest) t [bo_hash b].
Proof.
  intros [Hwf Hnd Hpar Hpi Hnum Hlk Hins Hr] Hi Hbl Hvl.
  assert ((bo_hash <$> blocks level) ≡ₚ bo_hash b :: (bo_hash <$> blocks vl)) as PL.
  { rewrite Hbl, (fmap_Permutation bo_hash _ _ (delete_Permutation _ _ _ Hi)). done. }
  assert (hashes (level :: rest) ≡ₚ bo_hash b :: hashes (vl :: rest)) as P by (rewrite !hashes_cons; solve_perm).
  assert (forall b', b' ∈ blocks vl -> b' ∈ blocks level) as Hsub.
  { intros b' Hb'. rewrite Hbl in Hb'. eapply elem_of_submseteq; [done|]. apply sublist_submseteq, sublist_delete. }
  assert (forall x, x ∈ hashes (vl :: rest) -> x ∈ hashes (level :: rest)) as Hin by (intros x Hx; rewrite P; by constructor).
  split; [done|]. split; auto.
  - constructor; [done|]. by inversion Hwf.
  - rewrite P in Hnd. by apply NoDup_cons in Hnd as [_ ?].
  - intros [|j] l b' Hl Hb'; [injection Hl as <-; by apply (Hnum O level b' eq_refl), Hsub|by apply (Hnum (S j) l)].
  - intros b' (j & l & Hl & Hb')%elem_of_level_blocks. apply Hins, elem_of_level_blocks.
    destruct j; [injection Hl as <-; exists O, level; auto|by exists (S j), l].
  - rewrite app_nil_r in Hr. eapply refs_ok_proper; [|exact Hr]. solve_perm.
Qed.

Lemma enumerate_split {A} (l : list A) i a :
  l !! i = Some a -> enumerate l = take i (enumerate l) ++ (i, a) :: drop (S i) (enumerate l).
Proof.
  intros Hi. symmetry. apply take_drop_middle. unfold enumerate. apply lookup_zip_Some. split; [|done].
  apply lookup_seq. split; [done|]. by eapply lookup_lt_Some.
Qed.

Lemma enumerate_snd {A} (l : list A) : (enumerate l).*2 = l.
Proof. unfold enumerate. apply snd_zip. by rewrite length_seq. Qed.

Lemma enumerate_other {A} (l : list A) i j a :
  (j, a) ∈ take i (enumerate l) \/ (j, a) ∈ drop (S i) (enumerate l) -> j <> i.
Proof.
  assert (forall k, enumerate l !! k = Some (j, a) -> j = k) as Hk.
  { intros k [Hj _]%lookup_zip_Some. by apply lookup_seq in Hj as [-> _]. }
  intros [Hin|Hin]; apply list_elem_of_lookup in Hin as [k Hin].
  - apply lookup_take_Some in Hin as [->%Hk ?]. lia.
  - rewrite lookup_drop in Hin. apply Hk in Hin. lia.
Qed.

(** ** The whole operation *)
Definition canonicalized s a (r : Z) (lv : list OverlayLevel) t : NonCanonicalOverlay :=
  {| last_canonicalized := Some (a, front s); levels := lv; parents := t_parents t; values := t_values t;
     pinned := <[a := r]> (pinned s); pinned_insertions := t_pinned_insertions t;
     pinned_canonincalized := pinned_canonincalized s ++ [a] |}.

(** What [canonicalize] writes: the nodes of the block, its deletions, the journal
    entries that go, and the new last canonical block. *)
Definition canonical_commit a (number : Z) (js : list bytes) (commit : CommitSet Key) : CommitSet Key :=
  meta_insert (to_meta_key LAST_CANONICAL tt) (encode (a, number))
    (meta_delete js (data_delete (b_deleted (block a)) (data_insert (tagged value_of (b_inserted (block a))) commit))).

Lemma canonicalize_run C s level rest i b commit :
  inv C s -> levels s = level :: rest -> position (has_hash (bo_hash b)) (blocks level) = Some i -> blocks level !! i = Some b ->
  default 0 (pinned s !! bo_hash b) + 1 < 2 ^ 32 ->
  let a := bo_hash b in let r := default 0 (pinned s !! a) + 1 in
  exists p vl vl' lv' t' n dm js,
    canonicalize a commit s = (canonicalized s a r lv' t', Ok (canonical_commit a (front s) js commit, front s)) /\
    (forall b', b' ∈ blocks level -> parent_of (bo_hash b') = p) /\
    (forall h n, last_canonicalized s = Some (h, n) -> p = h) /\
    hashes (levels s) ≡ₚ a :: hashes (vl :: rest) /\ pre (front s) (vl :: rest) (keep_canonical a (tables s)) [] /\
    discards (<[a := r]> (pinned s)) p (vl :: rest) (keep_canonical a (tables s)) (vl' :: lv') t' n dm /\ blocks vl' = [] /\
    (forall l' j, lv' !! j = Some l' -> exists l, rest !! j = Some l /\ forall b', b' ∈ blocks l' -> b' ∈ blocks l) /\
    refs_ok (t_values t') (hashes lv' ++ pi_keys (t_pinned_insertions t')) /\
    (forall k, k ∈ js <-> exists b', b' ∈ level_blocks (levels s) /\ (bo_hash b' = a \/ bo_hash b' ∈ dm) /\ journal_key b' = k).
Proof.
  intros Hi Hlv Hpos Hb Hfit a r. fold a in Hpos. pose proof (i_pre _ _ _ _ Hi) as Hp. rewrite Hlv in Hp.
  assert (level_wf level) as Hwf by (by destruct Hp as [Hwf _ _ _ _ _ _ _]; inversion Hwf).
  destruct (level_remove_spec (E := StateDbError) level i b Hwf Hb) as (vl & _ & Hvl & Hvlwf).
  destruct (pre_siblings _ _ _ _ _ _ _ Hp Hb Hvl Hvlwf) as [P Hpv].
  destruct (i_root _ _ _ _ Hi) as (p & Hroot & Hplast). rewrite Hlv in Hroot. specialize (Hroot level).
  assert (a ∉ hashes (vl :: rest)) as Ha.
  { pose proof (pre_nodup _ _ _ _ _ _ Hp) as Hnd. rewrite P in Hnd. by apply NoDup_cons in Hnd as [? _]. }
  assert (t_pinned_insertions (tables s) !! a = None) as HPIa by (apply (pre_pi _ _ _ _ _ _ Hp); rewrite P; constructor).
  pose proof (Permutation_length P) as Hlen. simpl in Hlen. pose proof (i_size _ _ _ _ Hi) as Hsz. rewrite Hlv in Hsz.
  set (xs := enumerate (blocks level)). pose proof (enumerate_split _ _ _ Hb) as Hxs. fold xs in Hxs.
  set (s2 := set_pinned_canonincalized (pinned_canonincalized s ++ [a]) (set_pinned (<[a := r]> (pinned s)) (set_levels rest s))).
  assert (forall b', b' ∈ blocks vl -> parent_of (bo_hash b') = p) as Hparvl.
  { intros b' Hb'. apply (Hroot b' eq_refl). rewrite Hvl in Hb'. eapply elem_of_submseteq; [done|]. apply sublist_submseteq, sublist_delete. }
  destruct (siblings_spec i p (front s) (take i xs).*2 (take i xs) (drop (S i) xs).*2 vl s2 commit [] [a])
    as (vl1 & lv1 & t1 & n1 & dm1 & js1 & Hrun1 & Hbl1 & D1 & Hr1 & Hj1); try done.
  { intros j b' Hin. eapply enumerate_other. by left. }
  { rewrite Hvl, delete_take_drop, fmap_take, fmap_drop. unfold xs. by rewrite enumerate_snd. }
  { cbn [levels s2 set_pinned_canonincalized set_pinned set_levels]. lia. }
  pose proof (discards_pre _ _ _ _ _ _ _ _ _ _ _ _ Hpv D1 Hr1) as Hp1. pose proof (d_perm _ _ _ _ _ _ _ _ _ D1) as P1.
  cbn [levels s2 set_pinned_canonincalized set_pinned set_levels] in P1, D1, Hj1.
  assert ((a ∉ dm1) /\ (a ∉ hashes (vl1 :: lv1))) as [Hadm Ha1] by (split; intros Hx; apply Ha; rewrite P1; apply elem_of_app; auto).
  assert (t_pinned_insertions t1 !! a = None) as HPI1 by (rewrite (d_other _ _ _ _ _ _ _ _ _ D1) by done; done).
  set (s3 := set_tables t1 (set_levels lv1 s2)) in *.
  assert (b ∈ level_blocks (levels s)) as Hbs by (rewrite Hlv; apply elem_of_level_blocks; exists O, level; split; [done|by eapply list_elem_of_lookup_2]).
  assert (bo_hash b ∈ hashes (vl1 :: lv1) ++ pi_keys (t_pinned_insertions t1) ++ [a]) as Hos
    by (rewrite !elem_of_app; right; right; constructor).
  assert (is_Some (pinned s3 !! bo_hash b)) as Hpin3 by (simpl; unfold a; rewrite lookup_insert_eq; eauto).
  pose proof (canonical_spec i b s3 commit js1 _ Hpin3 (pre_ins _ _ _ _ _ _ (i_pre _ _ _ _ Hi) b Hbs) Hos Hr1) as Hcan.
  set (commit1 := data_delete (bo_deleted b) (data_insert (tagged value_of (b_inserted (block a))) commit)) in *.
  set (s4 := set_tables (keep_canonical a (tables s3)) s3) in *.
  assert (tables s4 = keep_canonical a t1) as Ht4 by done.
  pose proof (pre_keep _ _ _ _ Hp1 Ha1 HPI1) as Hp2. apply Permutation_length in P1 as Hlen1. rewrite length_app in Hlen1.
  destruct (siblings_spec i p (front s) (drop (S i) xs).*2 (drop (S i) xs) [] vl1 s4 commit1 (js1 ++ [journal_key b]) [])
    as (vl2 & lv2 & t2 & n2 & dm2 & js2 & Hrun2 & Hbl2 & D2 & Hr2 & Hj2); try done.
  { intros j b' Hin. eapply enumerate_other. by right. }
  { by rewrite Hbl1, app_nil_r. }
  { intros b' Hb'. apply Hparvl. destruct (discards_blocks _ _ _ _ _ _ _ _ _ O vl1 D1 eq_refl) as (l & Hl & Hsub).
    injection Hl as <-. by apply Hsub. }
  { cbn [levels s4 s3 s2 set_tables set_levels]. lia. }
  rewrite Ht4 in D2. cbn [levels s4 s3 s2 set_tables set_levels pinned set_pinned set_pinned_canonincalized] in D2, Hj2.
  assert (p ∉ hashes (vl :: rest)) as Hpn.
  { intros Hx. pose proof (pre_number _ _ _ _ _ _ _ Hpv Hx) as Hge. assert (b ∈ blocks level) as Hbin by (by eapply list_elem_of_lookup_2).
    rewrite <- (Hroot b eq_refl Hbin), (pre_link _ _ _ _ _ _ Hp), (pre_num _ _ _ _ _ _ Hp O level b eq_refl Hbin) in Hge; [lia|].
    rewrite P. constructor. }
  pose proof (discards_app _ _ _ _ _ _ _ _ _ _ _ _ _ (pre_nodup _ _ _ _ _ _ Hpv) Hpn (discards_frame _ _ _ _ _ _ _ _ a Ha D1) D2) as D.
  exists p, vl, vl2, lv2, t2, (n1 + n2), (dm1 ++ dm2), (js1 ++ journal_key b :: js2).
  split_and!; try done.
  - unfold canonicalize. rewrite st_get_bind, Hlv, st_modify_bind, Hpos. rewrite (st_lift_ok _ _ _ _ (eq_refl : ok_or _ (Some i) = _)).
    assert (pin (E := StateDbError) a (set_levels rest s) = (set_pinned (<[a := r]> (pinned s)) (set_levels rest s), Ok tt)) as Hpin.
    { unfold pin. rewrite st_get_bind. by rewrite (st_lift_ok _ _ _ _ (add_u_ok 32 _ 1 Hfit)). }
    rewrite (st_bind_ok _ _ _ _ _ Hpin), st_modify_bind. fold xs. rewrite Hxs.
    erewrite st_bind_ok; [|rewrite st_for_app, (st_bind_ok _ _ _ _ _ Hrun1); cbn [st_for app]; rewrite (st_bind_ok _ _ _ _ _ Hcan); exact Hrun2].
    cbn beta iota. rewrite st_get_bind.
    erewrite st_lift_ok by exact (front_block_number_ok (E := StateDbError) _ _ _ _ Hi).
    rewrite st_modify_bind. unfold canonical_commit, commit1. rewrite <- app_assoc.
    destruct (i_block _ _ _ _ Hi b Hbs) as [-> _]. done.
  - intros b' Hb'. by apply Hroot.
  - by rewrite Hlv.
  - by apply pre_keep.
  - intros l' j Hj. by destruct (discards_blocks _ _ _ _ _ _ _ _ _ (S j) l' D Hj) as (l & Hl & Hsub); exists l.
  - rewrite hashes_cons, Hbl2, app_nil_r in Hr2. done.
  - assert (forall b', b' ∈ level_blocks (vl :: rest) -> b' ∈ level_blocks (levels s)) as Hsubv.
    { intros b' Hb'. rewrite Hlv. apply elem_of_level_blocks in Hb' as ([|j] & l & Hl & Hb'); apply elem_of_level_blocks; [|by exists (S j), l].
      injection Hl as <-. exists O, level. split; [done|]. rewrite Hvl in Hb'. eapply elem_of_submseteq; [done|]. apply sublist_submseteq, sublist_delete. }
    assert (NoDup (hashes (levels s))) as Hnd by (rewrite Hlv; apply (pre_nodup _ _ _ _ _ _ Hp)).
    intros k. rewrite elem_of_app, elem_of_cons, Hj1, Hj2. split.
    + intros [(b' & Hb' & Hd & Hk)|[->|(b' & Hb' & Hd & Hk)]].
      * exists b'. split_and!; [by apply Hsubv|right; apply elem_of_app; by left|done].
      * exists b. split_and!; [done|by left|done].
      * exists b'. split_and!; [by apply Hsubv, (discards_level_blocks _ _ _ _ _ _ _ _ _ D1)|right; apply elem_of_app; by right|done].
    + intros (b' & Hb' & [Heq|[Hd|Hd]%elem_of_app] & <-).
      * right. left. f_equal. by eapply NoDup_fmap_eq.
      * left. exists b'. split_and!; try done. eapply block_of_hash; [exact Hnd|done|done|]. rewrite P1. apply elem_of_app. by left.
      * right. right. exists b'. split_and!; try done. eapply block_of_hash; [exact Hnd| |done|].
        -- intros b'' Hb''. by apply Hsubv, (discards_level_blocks _ _ _ _ _ _ _ _ _ D1).
        -- rewrite (d_perm _ _ _ _ _ _ _ _ _ D2). apply elem_of_app. by left.
Qed.

(** Descendants of [a] within a set of blocks. *)
Inductive descends (hs : list BlockHash) (a : BlockHash) : BlockHash -> Prop :=
| descends_child x : x ∈ hs -> parent_of x = a -> descends hs a x
| descends_step x : x ∈ hs -> descends hs a (parent_of x) -> descends hs a x.

(** The outcome of a successful [canonicalize]: [dm] are discarded. *)
Record canonicalizes C s a s' (js : list bytes) (dm : list BlockHash) : Prop := {
  c_inv : inv ({[a]} ∪ C) s';
  c_last : last_canonicalized s' = Some (a, front s);
  c_number : number_of a = front s;
  c_parent : forall h n, last_canonicalized s = Some (h, n) -> parent_of a = h;
  c_hashes : hashes (levels s) ≡ₚ a :: dm ++ hashes (levels s');
  c_blocks : forall b, b ∈ level_blocks (levels s') -> b ∈ level_blocks (levels s);
  c_kept : forall x, x ∈ hashes (levels s') <-> descends (hashes (levels s)) a x;
  c_journals : forall k, k ∈ js <-> exists b, b ∈ level_blocks (levels s) /\ (bo_hash b ∉ hashes (levels s')) /\ journal_key b = k;
  c_pinned : exists r, pinned s' = <[a := r]> (pinned s);
  c_canonical : pinned_insertions s' !! a = Some (b_inserted (block a), 1);
  c_pi : forall x, x <> a -> x ∉ dm -> pinned_insertions s' !! x = pinned_insertions s !! x;
  c_pins : forall x, x ∈ dm -> is_Some (pinned s !! x) -> is_Some (pinned_insertions s' !! x);
  c_pc : pinned_canonincalized s' = pinned_canonincalized s ++ [a];
}.

(** ** The invariant afterwards *)
Section after.
Context C s (level : OverlayLevel) (rest : list OverlayLevel) (b : BlockOverlay) (r : Z) (p : BlockHash)
  (vl vl' : OverlayLevel) (lv' : list OverlayLevel) (t' : Tables) (n : Z) (dm : list BlockHash) (Hi : inv C s) (Hlv : levels s = level :: rest) (Hb : b ∈ blocks level).

Let a := bo_hash b.
Let t := keep_canonical a (tables s).

Context (Hroot : forall b', b' ∈ blocks level -> parent_of (bo_hash b') = p)
  (Hlast : forall h n, last_canonicalized s = Some (h, n) -> p = h)
  (P : hashes (levels s) ≡ₚ a :: hashes (vl :: rest)) (Hpre : pre (front s) (vl :: rest) t [])
  (D : discards (<[a := r]> (pinned s)) p (vl :: rest) t (vl' :: lv') t' n dm) (Hvl' : blocks vl' = [])
  (Hsub : forall l' j, lv' !! j = Some l' -> exists l, rest !! j = Some l /\ forall b', b' ∈ blocks l' -> b' ∈ blocks l)
  (Hrefs : refs_ok (t_values t') (hashes lv' ++ pi_keys (t_pinned_insertions t'))) (Hr : 0 < r).

Let C' : gset BlockHash := {[a]} ∪ C.

Lemma after_hashes : hashes (levels s) ≡ₚ a :: dm ++ hashes lv'.
Proof. rewrite P, (d_perm _ _ _ _ _ _ _ _ _ D), hashes_cons, Hvl'. done. Qed.

Lemma after_nodup : NoDup (a :: dm ++ hashes lv').
Proof. rewrite <- after_hashes. apply (pre_nodup _ _ _ _ _ _ (i_pre _ _ _ _ Hi)). Qed.

Lemma after_numbers : number_of a = front s /\ number_of p = front s - 1 /\ parent_of a = p /\
  (forall x, x ∈ dm -> front s <= number_of x) /\ (forall x, x ∈ dm -> x ∉ C').
Proof.
  pose proof (i_pre _ _ _ _ Hi) as Hp. rewrite Hlv in Hp.
  assert (number_of a = front s) as Ha.
  { eapply pre_number_head; [exact Hp|]. by apply list_elem_of_fmap_2. }
  assert (a ∈ hashes (level :: rest)) as Hah by (rewrite hashes_cons; apply elem_of_app; left; by apply list_elem_of_fmap_2).
  assert (forall x, x ∈ dm -> front s <= number_of x) as Hdm.
  { intros x Hx. eapply pre_number; [exact (i_pre _ _ _ _ Hi)|]. rewrite after_hashes. set_solver. }
  split_and!; [done| |by apply Hroot|done|].
  - rewrite <- (Hroot b Hb). fold a. rewrite (pre_link _ _ _ _ _ _ Hp a Hah). lia.
  - intros x Hx. pose proof after_nodup as [Hna _]%NoDup_cons. unfold C'. rewrite not_elem_of_union, not_elem_of_singleton. split.
    + intros ->. apply Hna, elem_of_app. by left.
    + intros Hc%(i_canon _ _ _ _ Hi). specialize (Hdm x Hx). lia.
Qed.

(** The parent of the discarded blocks is not discarded. *)
Lemma after_root : ~ discarded C' (t_pinned_insertions t') p.
Proof.
  destruct after_numbers as (Ha & Hpn & _ & Hdm & _). intros [[e He] Hc].
  assert (p ∉ dm) as Hpd by (intros Hx%Hdm; lia). rewrite (d_other _ _ _ _ _ _ _ _ _ D p Hpd) in He. simpl in He.
  destruct (decide (a = p)) as [Heq|Hne]; [rewrite Heq in Ha; lia|]. rewrite lookup_insert_ne in He by done.
  destruct (last_canonicalized s) as [[h m]|] eqn:Hl.
  - apply Hc, elem_of_union. right. rewrite (Hlast h m eq_refl). by destruct (i_last _ _ _ _ Hi h m Hl).
  - destruct (i_none _ _ _ _ Hi Hl) as [_ Hemp]. by rewrite Hemp, lookup_empty in He.
Qed.

(** Blocks that were discarded before. *)
Lemma after_old x : x ∉ dm -> x <> a -> t_pinned_insertions t' !! x = pinned_insertions s !! x.
Proof. intros Hx Hne. rewrite (d_other _ _ _ _ _ _ _ _ _ D x Hx). simpl. by rewrite lookup_insert_ne by done. Qed.

Lemma after_old_fresh x : x = a \/ x ∈ dm -> pinned_insertions s !! x = None.
Proof.
  intros Hx. apply (pre_pi _ _ _ _ _ _ (i_pre _ _ _ _ Hi)). rewrite after_hashes. destruct Hx as [->|Hx]; [constructor|].
  apply elem_of_cons. right. apply elem_of_app. by left.
Qed.

(** The pins below a block: those of the newly discarded and of the old ones. *)
Lemma after_pins_below x :
  pins_below block C' (t_pinned_insertions t') x = kids block dm (t_pinned_insertions t') x + pins_below block C (pinned_insertions s) x.
Proof.
  destruct after_numbers as (_ & _ & _ & _ & HdC). pose proof after_nodup as [Hna [Hnd _]%NoDup_app]%NoDup_cons.
  unfold pins_below, C' in *. rewrite (map_sum_extend _ (<[a := (b_inserted (block a), 1)]> (pinned_insertions s)) (t_pinned_insertions t') dm).
  - rewrite map_sum_insert by (by apply after_old_fresh; left). rewrite decide_False by set_solver. rewrite Z.add_0_l. f_equal.
    + unfold kids. f_equal. apply list_fmap_ext. intros i y Hy%list_elem_of_lookup_2. unfold cnt.
      destruct (t_pinned_insertions t' !! y) as [[ins c]|]; simpl; [|by case_decide]. apply decide_ext. specialize (HdC y Hy). tauto.
    + apply map_sum_ext. intros y [ins c] Hy. apply decide_ext.
      assert (y <> a) by (intros ->; by rewrite after_old_fresh in Hy by (by left)). set_solver.
  - done.
  - intros k Hk. rewrite lookup_insert_ne; [by apply after_old_fresh; right|]. intros <-. apply Hna, elem_of_app. by left.
  - intros k Hk. by rewrite (d_other _ _ _ _ _ _ _ _ _ D k Hk).
Qed.
Lemma after_entry x ins c : t_pinned_insertions t' !! x = Some (ins, c) ->
  (x ∈ dm /\ 0 < c /\ ins = b_inserted (block x) /\ c = ind (<[a := r]> (pinned s)) x + kids block dm (t_pinned_insertions t') x) \/
  (x = a /\ c = 1 /\ ins = b_inserted (block x)) \/ ((x ∉ dm) /\ x <> a /\ pinned_insertions s !! x = Some (ins, c)).
Proof.
  intros Hx. pose proof after_nodup as [Hna _]%NoDup_cons. destruct (decide (x ∈ dm)) as [Hd|Hd].
  - left. rewrite (d_pi _ _ _ _ _ _ _ _ _ D x Hd) in Hx. cbv zeta in Hx. case_cmp; [|done]. by injection Hx as <- <-.
  - destruct (decide (x = a)) as [->|Hne].
    + right. left. rewrite (d_other _ _ _ _ _ _ _ _ _ D a Hd) in Hx. simpl in Hx. rewrite lookup_insert_eq in Hx. by injection Hx as <- <-.
    + right. right. by rewrite after_old in Hx.
Qed.

Lemma after_parents x : is_Some (parents s !! x) -> is_Some (t_pinned_insertions t' !! x) \/ x ∉ dm -> t_parents t' !! x = parents s !! x.
Proof.
  intros Hx Hk. rewrite (d_par _ _ _ _ _ _ _ _ _ D). apply decide_False. intros [Hd Hn]. destruct Hk as [[e He]|?]; congruence.
Qed.

Lemma after_pins_ok : pins_ok block C' (front s + 1) (<[a := r]> (pinned s)) (t_parents t') (t_pinned_insertions t') None.
Proof.
  pose proof (i_pins_ok _ _ _ _ Hi) as Hold. pose proof (i_pre _ _ _ _ Hi) as Hp. destruct after_numbers as (Ha & Hpn & Hap & Hdm & HdC).
  assert (forall x, x = a \/ x ∈ dm -> x ∈ hashes (levels s)) as Hin.
  { intros x Hx. rewrite after_hashes. destruct Hx as [->|Hx]; [constructor|]. apply elem_of_cons. right. apply elem_of_app. by left. }
  assert (forall x, x ∈ dm -> forall ins c, t_pinned_insertions t' !! x = Some (ins, c) -> 0 < c) as Hcpos.
  { intros x Hx ins c Hc. destruct (after_entry x ins c Hc) as [(_ & ? & _)|[(-> & ? & _)|(? & _)]]; [done|lia|done]. }
  split.
  - intros x ins c Hx. destruct (after_entry x ins c Hx) as [(Hd & Hc & -> & _)|[(-> & -> & ->)|(Hd & Hne & Hx0)]].
    + pose proof (pre_par _ _ _ _ _ _ Hp x (Hin x (or_intror Hd))) as Hpar. simpl in Hpar. split_and!; try done.
      * rewrite after_parents; [done|by eexists|left; by eexists].
      * apply (pre_link _ _ _ _ _ _ Hp), Hin. by right.
    + pose proof (pre_par _ _ _ _ _ _ Hp a (Hin a (or_introl eq_refl))) as Hpar. simpl in Hpar. split_and!; try done.
      * rewrite after_parents; [done|by eexists|left; by eexists].
      * rewrite Hap. lia.
    + destruct (p_entry _ _ _ _ _ _ _ Hold x ins c Hx0) as (? & ? & Hpar & ?). split_and!; try done.
      rewrite after_parents; [done|by eexists|by right].
  - intros x ins c HxC Hx. rewrite (decide_False (P := None = Some x)), Z.add_0_r, after_pins_below by done.
    destruct (after_entry x ins c Hx) as [(Hd & Hc & -> & ->)|[(-> & _ & _)|(Hd & Hne & Hx0)]]; [|set_solver|].
    + assert (pins_below block C (pinned_insertions s) x = 0) as ->; [|lia]. apply map_sum_zero.
      intros y [ins' c'] Hy. rewrite decide_False; [done|]. intros [HyC <-].
      destruct (p_up _ _ _ _ _ _ _ Hold y ltac:(eauto)) as [[_ [[e He] _]]|[_ Hlt]].
      * rewrite after_old_fresh in He by (by right). done.
      * specialize (Hdm _ Hd). lia.
    + rewrite ind_insert, decide_False by done. rewrite kids_none.
      * rewrite (p_count _ _ _ _ _ _ _ Hold x ins c) by set_solver. rewrite decide_False by done. lia.
      * intros y Hy Heq. destruct (d_desc _ _ _ _ _ _ _ _ _ D y Hy) as [Hyp|Hyd]; [|congruence].
        apply after_root. rewrite <- Hyp, Heq. split; [by eexists|done].
  - intros y [[ins c] Hy]. destruct (after_entry y ins c Hy) as [(Hd & Hc & -> & _)|[(-> & _ & _)|(Hd & Hne & Hy0)]].
    + destruct (d_desc _ _ _ _ _ _ _ _ _ D y Hd) as [->|Hpd]; [right; split; [apply after_root|lia]|left].
      split; [by apply HdC|]. split; [|by apply HdC]. rewrite (d_pi _ _ _ _ _ _ _ _ _ D _ Hpd). cbv zeta.
      assert (c <= kids block dm (t_pinned_insertions t') (parent_of y)) as Hle.
      { replace c with (cnt (t_pinned_insertions t') y) by (unfold cnt; by rewrite Hy). apply kids_child; [|done].
        intros z Hz. unfold cnt. destruct (t_pinned_insertions t' !! z) as [[ins' c']|] eqn:Hz'; simpl; [|done].
        pose proof (Hcpos z Hz _ _ Hz'). lia. }
      assert (0 <= ind (<[a := r]> (pinned s)) (parent_of y)) by (unfold ind; case_decide; lia).
      case_cmp; [by eexists|lia].
    + right. rewrite Hap. split; [apply after_root|lia].
    + destruct (p_up _ _ _ _ _ _ _ Hold y ltac:(eauto)) as [[HyC [[e He] HpC]]|[Hnd Hlt]].
      * left. assert ((parent_of y ∉ dm) /\ parent_of y <> a) as [? ?].
        { split; [intros Hd'|intros Heq]; [rewrite after_old_fresh in He by (by right)|rewrite after_old_fresh in He by (by left)]; done. }
        split; [set_solver|]. split; [rewrite after_old by done; by eexists|set_solver].
      * right. split; [|lia]. intros [[e He] HpC]. assert (parent_of y ∉ dm) as Hpd by (intros Hd'%Hdm; lia).
        assert (parent_of y <> a) by set_solver. rewrite after_old in He by done. apply Hnd. split; [by eexists|set_solver].
Qed.

Lemma after_kept x : x ∈ hashes lv' -> x ∈ hashes (levels s) /\ (x ∉ dm) /\ x <> a.
Proof.
  intros Hx. pose proof after_nodup as [Hna (_ & Hdis & _)%NoDup_app]%NoDup_cons. split_and!.
  - rewrite after_hashes. apply elem_of_cons. right. apply elem_of_app. by right.
  - intros Hd. by apply (Hdis x).
  - intros ->. apply Hna, elem_of_app. by right.
Qed.

Lemma after_link i l b' : lv' !! i = Some l -> b' ∈ blocks l ->
  match i with O => parent_of (bo_hash b') = a | S j => exists l0, lv' !! j = Some l0 /\ parent_of (bo_hash b') ∈ (bo_hash <$> blocks l0) end.
Proof.
  intros Hl Hb'. pose proof (i_pre _ _ _ _ Hi) as Hp. destruct after_numbers as (Ha & _ & _ & _ & _).
  assert (parent_of (bo_hash b') ∉ dm) as Hpd.
  { apply (d_kept _ _ _ _ _ _ _ _ _ D). rewrite hashes_cons, Hvl'. simpl. apply elem_of_hashes. by exists i, l, b'. }
  destruct (Hsub l i Hl) as (l1 & Hl1 & Hs1). assert (levels s !! S i = Some l1) as Hl1' by (by rewrite Hlv).
  destruct (lookup_lt_is_Some_2 (levels s) i) as [l0 Hl0]; [apply lookup_lt_Some in Hl1'; lia|].
  pose proof (i_link _ _ _ _ Hi i l0 l1 b' Hl0 Hl1' (Hs1 b' Hb')) as Hin.
  assert (parent_of (bo_hash b') ∈ hashes (levels s)) as Hph.
  { apply list_elem_of_fmap in Hin as (b0 & -> & Hb0). apply elem_of_hashes. by exists i, l0, b0. }
  pose proof (pre_num _ _ _ _ _ _ Hp (S i) l1 b' Hl1' (Hs1 b' Hb')) as Hn.
  assert (number_of (parent_of (bo_hash b')) = front s + Z.of_nat i) as Hnp.
  { rewrite (pre_link _ _ _ _ _ _ Hp), Hn; [lia|]. apply elem_of_hashes. exists (S i), l1, b'. split_and!; auto. }
  rewrite after_hashes in Hph. apply elem_of_cons in Hph as [Hpa|[?|Hph]%elem_of_app]; [|done|].
  - rewrite Hpa, Ha in Hnp. destruct i; [done|lia].
  - apply elem_of_hashes in Hph as (j & l2 & b2 & Hl2 & Hb2 & Hb2h). destruct (Hsub l2 j Hl2) as (l3 & Hl3 & Hs3).
    pose proof (pre_num _ _ _ _ _ _ Hp (S j) l3 b2 ltac:(by rewrite Hlv) (Hs3 _ Hb2)) as Hn2. rewrite Hb2h, Hnp in Hn2.
    destruct i as [|i]; [lia|]. assert (j = i) as -> by lia. exists l2. split; [done|]. rewrite <- Hb2h. by apply list_elem_of_fmap_2.
Qed.

Lemma after_inv : inv C' (canonicalized s a r lv' t').
Proof.
  pose proof (i_pre _ _ _ _ Hi) as Hp. destruct after_numbers as (Ha & Hpn & Hap & Hdm & HdC).
  set (s' := canonicalized s a r lv' t'). assert (front s' = front s + 1) as Hf by done.
  assert (pre (front s) (vl' :: lv') t' []) as Hp'.
  { eapply discards_pre; [exact Hpre|exact D|]. rewrite hashes_cons, Hvl', app_nil_r. done. }
  apply pre_tail in Hp'. rewrite Hvl' in Hp'.
  assert (length lv' = length rest) as Hlen by (pose proof (Forall2_length _ _ _ (d_sub _ _ _ _ _ _ _ _ _ D)) as Hl; simpl in Hl; lia).
  split; rewrite ?Hf; cbn [s' canonicalized last_canonicalized levels parents pinned pinned_insertions].
  - destruct t'. exact Hp'.
  - intros x Hx. rewrite (d_par _ _ _ _ _ _ _ _ _ D) in Hx. case_decide as Hd; [by destruct Hx|]. cbn [t_parents t keep_canonical] in Hx.
    destruct (i_dom _ _ _ _ Hi x Hx) as [Hin|[e He]].
    + rewrite after_hashes in Hin. apply elem_of_cons in Hin as [->|[Hd'|Hin]%elem_of_app]; [right|right|by left].
      * rewrite (d_other _ _ _ _ _ _ _ _ _ D); [simpl; rewrite lookup_insert_eq; eauto|].
        pose proof after_nodup as [Hna _]%NoDup_cons. intros Hd'. apply Hna, elem_of_app. by left.
      * destruct (t_pinned_insertions t' !! x); [by eexists|tauto].
    + right. rewrite after_old; [by eexists| |]; intros Hd'; rewrite after_old_fresh in He by (subst; auto); done.
  - exact after_pins_ok.
  - intros i l l' b' Hl Hl' Hb'. destruct (after_link (S i) l' b' Hl' Hb') as (l0 & Hl0 & ?). by assert (l0 = l) as -> by congruence.
  - exists a. split; [|by intros h m [= <- _]]. intros l b' Hl Hb'. exact (after_link O l b' Hl Hb').
  - intros h m [= <- <-]. split; [set_solver|]. split; [done|]. pose proof (i_front _ _ _ _ Hi). lia.
  - done.
  - intros c [->%elem_of_singleton|Hc%(i_canon _ _ _ _ Hi)]%elem_of_union; lia.
  - pose proof (i_front _ _ _ _ Hi) as Hfr. rewrite Hlv in Hfr. simpl in Hfr. lia.
  - pose proof (i_size _ _ _ _ Hi) as Hsz. rewrite after_hashes in Hsz. simpl in Hsz. rewrite length_app in Hsz. lia.
  - intros b' (i & l & Hl & Hb')%elem_of_level_blocks. destruct (Hsub l i Hl) as (l1 & Hl1 & Hs1).
    apply (i_block _ _ _ _ Hi), elem_of_level_blocks. exists (S i), l1. rewrite Hlv. auto.
  - intros x q Hx. destruct (decide (a = x)) as [<-|Hne]; [rewrite lookup_insert_eq in Hx; by injection Hx as <-|].
    rewrite lookup_insert_ne in Hx by done. by apply (i_pinned _ _ _ _ Hi) in Hx.
Qed.

Lemma after_descends x : x ∈ hashes lv' <-> descends (hashes (levels s)) a x.
Proof.
  split.
  - intros (i & l & b' & Hl & Hb' & <-)%elem_of_hashes. revert l b' Hl Hb'. induction i as [|i IH]; intros l b' Hl Hb';
      (assert (bo_hash b' ∈ hashes (levels s)) as Hin by (apply after_kept, elem_of_hashes; eexists _, l, b'; done));
      pose proof (after_link _ l b' Hl Hb') as Hpar; cbn iota in Hpar; [by constructor|].
    destruct Hpar as (l0 & Hl0 & (b0 & Hb0p & Hb0)%list_elem_of_fmap). apply descends_step; [done|]. rewrite Hb0p. by eapply IH.
  - destruct after_numbers as (Ha & Hpn & _ & Hdm & _). pose proof (i_pre _ _ _ _ Hi) as Hp.
    assert (forall y, descends (hashes (levels s)) a y -> y ∈ hashes (levels s) /\ y <> a /\ y ∉ dm) as Hout.
    { induction 1 as [y Hy Hya|y Hy Hd IH].
      - split_and!; [done|intros ->; pose proof (pre_link _ _ _ _ _ _ Hp a Hy) as Hlk; rewrite Hya in Hlk; lia|].
        intros Hd. destruct (d_desc _ _ _ _ _ _ _ _ _ D y Hd) as [Hq|Hq]; [rewrite Hya in Hq; rewrite Hq in Ha; lia|].
        rewrite Hya in Hq. pose proof after_nodup as [Hna _]%NoDup_cons. apply Hna, elem_of_app. by left.
      - destruct IH as (Hin & Hne & Hnd). pose proof (pre_number _ _ _ _ _ _ _ Hp Hin) as Hge.
        pose proof (pre_link _ _ _ _ _ _ Hp y Hy) as Hlk. split_and!; [done|intros ->; lia|].
        intros Hdy. destruct (d_desc _ _ _ _ _ _ _ _ _ D y Hdy) as [Hq|Hq]; [rewrite Hq in Hge; lia|done]. }
    intros (Hin & Hne & Hnd)%Hout. rewrite after_hashes in Hin. set_solver.
Qed.

Lemma after_canonicalizes js :
  (forall k, k ∈ js <-> exists b', b' ∈ level_blocks (levels s) /\ (bo_hash b' = a \/ bo_hash b' ∈ dm) /\ journal_key b' = k) ->
  canonicalizes C s a (canonicalized s a r lv' t') js dm.
Proof.
  intros Hjs. destruct after_numbers as (Ha & Hpn & Hap & Hdm & HdC). pose proof after_nodup as [Hna (_ & Hdis & _)%NoDup_app]%NoDup_cons.
  split; cbn [canonicalized last_canonicalized levels pinned pinned_insertions pinned_canonincalized]; try done.
  - exact after_inv.
  - intros h m Hh. rewrite Hap. by apply (Hlast h m).
  - exact after_hashes.
  - intros b' (i & l & Hl & Hb')%elem_of_level_blocks. destruct (Hsub l i Hl) as (l1 & Hl1 & Hs1).
    apply elem_of_level_blocks. exists (S i), l1. rewrite Hlv. auto.
  - exact after_descends.
  - intros k. rewrite Hjs. split; intros (b' & Hb' & Hx & Hk); exists b'; (split_and!; [done| |done]).
    + intros Hin%after_kept. naive_solver.
    + assert (bo_hash b' ∈ hashes (levels s)) as Hin by (by apply list_elem_of_fmap_2). rewrite after_hashes in Hin. set_solver.
  - by exists r.
  - rewrite (d_other _ _ _ _ _ _ _ _ _ D); [simpl; by rewrite lookup_insert_eq|]. intros Hd. apply Hna, elem_of_app. by left.
  - intros x Hne Hnd. by apply after_old.
  - intros x Hd Hpin. rewrite (d_pi _ _ _ _ _ _ _ _ _ D x Hd). cbv zeta.
    assert (ind (<[a := r]> (pinned s)) x = 1) as ->.
    { unfold ind. apply decide_True. destruct (decide (a = x)) as [<-|]; [rewrite lookup_insert_eq; eauto|by rewrite lookup_insert_ne]. }
    assert (0 <= kids block dm (t_pinned_insertions t') x); [|case_cmp; [by eexists|lia]].
    apply sum_Z_nonneg. intros y Hy. case_decide; [|done]. unfold cnt.
    destruct (t_pinned_insertions t' !! y) as [[ins c]|] eqn:Hy'; simpl; [|done].
    destruct (p_entry _ _ _ _ _ _ _ after_pins_ok y ins c Hy') as [? _]. lia.
Qed.

End after.

Lemma canonicalize_spec C s a commit :
  inv C s -> default 0 (pinned s !! a) + 1 < 2 ^ 32 ->
  match levels s with
  | [] => canonicalize a commit s = (s, Err InvalidBlock)
  | level :: rest =>
      if decide (a ∈ (bo_hash <$> blocks level)) then
        exists s' js dm, canonicalize a commit s = (s', Ok (canonical_commit a (front s) js commit, front s)) /\
          canonicalizes C s a s' js dm
      else canonicalize a commit s = (set_levels rest s, Err InvalidBlock)
  end.
Proof.
  intros Hi Hfit. destruct (levels s) as [|level rest] eqn:Hlv; [unfold canonicalize; by rewrite st_get_bind, Hlv|].
  pose proof (position_has_hash a (blocks level)) as Hpos. case_decide as Hin.
  2:{ unfold canonicalize. rewrite st_get_bind, Hlv, st_modify_bind. destruct (position (has_hash a) (blocks level)) as [i|]; [|done].
      destruct Hpos as (b & Hb & <-). destruct Hin. apply list_elem_of_fmap_2. by eapply list_elem_of_lookup_2. }
  destruct (position (has_hash a) (blocks level)) as [i|] eqn:Hi'; [|done]. destruct Hpos as (b & Hb & <-).
  destruct (canonicalize_run C s level rest i b commit Hi Hlv Hi' Hb Hfit)
    as (p & vl & vl' & lv' & t' & n & dm & js & Hrun & Hroot & Hlast & P & Hpre & D & Hvl' & Hsub & Hrefs & Hjs).
  set (a := bo_hash b) in *. set (r := default 0 (pinned s !! a) + 1) in *.
  assert (0 < r) as Hr.
  { unfold r. destruct (pinned s !! a) as [q|] eqn:Hq; simpl; [|lia]. apply (i_pinned _ _ _ _ Hi) in Hq. lia. }
  assert (b ∈ blocks level) as Hbin by (by eapply list_elem_of_lookup_2).
  exists (canonicalized s a r lv' t'), js, dm. split; [done|].
  eapply after_canonicalizes; eauto.
Qed.

End canonicalize.
