(* ===== verification/NonCanonicalRestore.v ===== *)
(** * The overlay of non-canonical blocks: restart

    The journal that the operations write is complete: the overlay that [new] reads back
    from the database has the blocks, parents and nodes of the one that wrote it.  Only
    pins are forgotten, and the order of blocks within a level is that of the journal. *)
From stdpp Require Import base gmap list.
From Stdlib Require Import ZArith Lia.
From S2P Require Import Prelude StateDbBase NonCanonical NonCanonicalFacts NonCanonicalInv Canonicalize.
Set Warnings "-clear-no-such-hyp".
Open Scope Z_scope.

Section restore.
Context {BlockHash Key : Type} `{Countable BlockHash} `{Countable Key}.
Context `{Codec unit, CodecLaws (BlockHash * Z) numbered, CodecLaws (Z * Z) pair_u64, CodecLaws (JournalRecord BlockHash Key) any}.
Context (block : BlockHash -> Block BlockHash Key) (value_of : Key -> DBValue).

Abbreviation BlockOverlay := (BlockOverlay BlockHash Key).
Abbreviation OverlayLevel := (OverlayLevel BlockHash Key).
Abbreviation NonCanonicalOverlay := (NonCanonicalOverlay BlockHash Key).
Abbreviation number_of := (number_of block).
Abbreviation parent_of := (parent_of block).
Abbreviation inv := (inv block value_of).
Implicit Types (s : NonCanonicalOverlay) (h x y : BlockHash) (C : gset BlockHash) (m : gmap bytes DBValue) (b : BlockOverlay)
  (lv : list OverlayLevel).

(** What is journaled of a block. *)
Definition record_of h : JournalRecord BlockHash Key :=
  {| jr_hash := h; jr_parent_hash := parent_of h; jr_inserted := tagged value_of (b_inserted (block h));
     jr_deleted := b_deleted (block h) |}.

(** The database [m] holds the journal of the overlay, and nothing else from its first
    level on. *)
Record journaled s m : Prop := {
  j_last : m !! to_meta_key LAST_CANONICAL tt = encode <$> last_canonicalized s;
  j_entry : forall b, b ∈ level_blocks (levels s) -> m !! journal_key b = Some (encode (record_of (bo_hash b)));
  j_only : forall n i, front s <= n < 2 ^ 64 -> 0 <= i < MAX_BLOCKS_PER_LEVEL -> is_Some (m !! to_journal_key n i) ->
    exists b, b ∈ level_blocks (levels s) /\ number_of (bo_hash b) = n /\ journal_index b = i;
}.

(** A block is known by its number and its journal index. *)
Lemma block_index_inj C s b1 b2 :
  inv C s -> b1 ∈ level_blocks (levels s) -> b2 ∈ level_blocks (levels s) ->
  number_of (bo_hash b1) = number_of (bo_hash b2) -> journal_index b1 = journal_index b2 -> b1 = b2.
Proof.
  intros Hi (i1 & l1 & Hl1 & Hb1)%elem_of_level_blocks (i2 & l2 & Hl2 & Hb2)%elem_of_level_blocks Hn Hidx.
  pose proof (i_pre _ _ _ _ Hi) as Hp. rewrite (pre_num _ _ _ _ _ _ Hp i1 l1 b1 Hl1 Hb1), (pre_num _ _ _ _ _ _ Hp i2 l2 b2 Hl2 Hb2) in Hn.
  assert (i2 = i1) as -> by lia. assert (l2 = l1) as -> by congruence.
  pose proof (Forall_lookup_1 _ _ _ _ (pre_wf _ _ _ _ _ _ Hp) Hl1) as Hwf. eapply NoDup_fmap_eq; [exact (wf_nodup _ Hwf)|done..].
Qed.

Lemma block_index_range C s b : inv C s -> b ∈ level_blocks (levels s) -> 0 <= journal_index b < MAX_BLOCKS_PER_LEVEL.
Proof.
  intros Hi (i & l & Hl & Hb)%elem_of_level_blocks.
  pose proof (Forall_lookup_1 _ _ _ _ (pre_wf _ _ _ _ _ _ (i_pre _ _ _ _ Hi)) Hl) as Hwf. apply (wf_range _ Hwf). by apply list_elem_of_fmap_2.
Qed.

Lemma block_key_valid C s b : inv C s -> b ∈ level_blocks (levels s) -> pair_u64 (number_of (bo_hash b), journal_index b).
Proof.
  intros Hi Hb. pose proof (block_index_range C s b Hi Hb) as Hr. apply elem_of_level_blocks in Hb as (i & l & Hl & Hb).
  pose proof (pre_num _ _ _ _ _ _ (i_pre _ _ _ _ Hi) i l b Hl Hb) as Hn. apply lookup_lt_Some in Hl. pose proof (i_front _ _ _ _ Hi).
  unfold pair_u64, is_u64, MAX_BLOCKS_PER_LEVEL in *. simpl. lia.
Qed.

Lemma journal_key_inj C s b1 b2 :
  inv C s -> b1 ∈ level_blocks (levels s) -> b2 ∈ level_blocks (levels s) -> journal_key b1 = journal_key b2 -> b1 = b2.
Proof.
  intros Hi Hb1 Hb2 Heq. destruct (i_block _ _ _ _ Hi b1 Hb1) as [_ Hk1]. destruct (i_block _ _ _ _ Hi b2 Hb2) as [_ Hk2].
  rewrite Hk1, Hk2 in Heq. apply meta_key_inj in Heq; [|by eapply block_key_valid..]. injection Heq as Hn Hidx. by eapply block_index_inj.
Qed.

(** ** Writing the journal *)

(** Only the last canonical block and the journal entries count. *)
Lemma journaled_ext C s m m' :
  inv C s -> m' !! to_meta_key LAST_CANONICAL tt = m !! to_meta_key LAST_CANONICAL tt ->
  (forall n i, m' !! to_journal_key n i = m !! to_journal_key n i) -> journaled s m -> journaled s m'.
Proof.
  intros Hi Hl Hk [Hlast Hent Honly]. split; [by rewrite Hl| |].
  - intros b Hb. rewrite <- (Hent b Hb). destruct (i_block _ _ _ _ Hi b Hb) as [_ ->]. apply Hk.
  - intros n i Hn Hr. rewrite Hk. by apply Honly.
Qed.

(** Neither the order of the blocks nor the pins do. *)
Lemma journaled_blocks s s' m :
  last_canonicalized s' = last_canonicalized s -> (forall b, b ∈ level_blocks (levels s') <-> b ∈ level_blocks (levels s)) ->
  journaled s m -> journaled s' m.
Proof.
  intros Hl Hb [Hlast Hent Honly]. split; [by rewrite Hl|by intros b ?%Hb; apply Hent|].
  intros n i Hn Hr Hs. destruct (Honly n i) as (b & Hin & ?); [|done..|exists b; by rewrite Hb]. unfold front in *. by rewrite Hl in Hn.
Qed.

(** Blocks leave the overlay, and their entries the journal. *)
Lemma journaled_shrink C C' s s' m m' (js : list bytes) :
  inv C s -> inv C' s' -> journaled s m -> front s <= front s' ->
  (forall b, b ∈ level_blocks (levels s') -> b ∈ level_blocks (levels s)) ->
  (forall k, k ∈ js <-> exists b, b ∈ level_blocks (levels s) /\ (bo_hash b ∉ hashes (levels s')) /\ journal_key b = k) ->
  m' !! to_meta_key LAST_CANONICAL tt = encode <$> last_canonicalized s' ->
  (forall n i, m' !! to_journal_key n i = if decide (to_journal_key n i ∈ js) then None else m !! to_journal_key n i) ->
  journaled s' m'.
Proof.
  intros Hi Hi' [Hlast Hent Honly] Hf Hsub Hjs Hl Hk. split; [done| |].
  - intros b Hb. rewrite <- (Hent b (Hsub b Hb)). destruct (i_block _ _ _ _ Hi' b Hb) as [_ Hkey]. rewrite Hkey, Hk, decide_False; [done|].
    rewrite <- Hkey. intros (b2 & Hb2 & Hh & Hkk)%Hjs. apply Hh, list_elem_of_fmap. exists b. split; [|done]. f_equal.
    eapply journal_key_inj; [exact Hi|done|by apply Hsub|done].
  - intros n i Hn Hr. rewrite Hk. case_decide as Hin; [by intros [? ?]|]. intros Hsome.
    destruct (Honly n i) as (b & Hb & Hbn & Hbi); [lia|done|done|].
    destruct (decide (bo_hash b ∈ hashes (levels s'))) as [(b' & Heq & Hb')%list_elem_of_fmap|Hno].
    + assert (b = b') as -> by (eapply NoDup_fmap_eq; [exact (pre_nodup _ _ _ _ _ _ (i_pre _ _ _ _ Hi))|done|by apply Hsub|done]). eauto.
    + destruct Hin. apply Hjs. exists b. split; [done|]. split; [done|]. destruct (i_block _ _ _ _ Hi b Hb) as [_ ->]. by rewrite Hbn, Hbi.
Qed.

Lemma journaled_canonicalize C s a s' js dm m commit :
  inv C s -> journaled s m -> canonicalizes block value_of C s a s' js dm -> meta commit = {| inserted := []; deleted := [] |} ->
  journaled s' (apply_changes (meta (canonical_commit block value_of a (front s) js commit)) m).
Proof.
  intros Hi Hj Hc Hcommit. eapply (journaled_shrink C _ s s' m _ js); [done|exact (c_inv _ _ _ _ _ _ _ _ Hc)|done| | | | |].
  - unfold front at 2. rewrite (c_last _ _ _ _ _ _ _ _ Hc). lia.
  - apply (c_blocks _ _ _ _ _ _ _ _ Hc).
  - apply (c_journals _ _ _ _ _ _ _ _ Hc).
  - rewrite apply_changes_lookup, (c_last _ _ _ _ _ _ _ _ Hc). simpl. rewrite Hcommit. simpl. rewrite decide_False, filter_cons_True; [done..|].
    intros (b & Hb & _ & Hk)%(c_journals _ _ _ _ _ _ _ _ Hc). destruct (i_block _ _ _ _ Hi b Hb) as [_ Hkey].
    rewrite Hkey in Hk. symmetry in Hk. by apply last_canonical_not_journal in Hk.
  - intros n i. rewrite apply_changes_lookup. simpl. rewrite Hcommit. simpl. rewrite filter_cons_False by apply last_canonical_not_journal. done.
Qed.

(** Entries [js] go from the journal, and with them the blocks that are no longer in the
    overlay. *)
Lemma journaled_delete C s s' m js :
  inv C s -> inv C s' -> last_canonicalized s' = last_canonicalized s -> journaled s m ->
  (forall b, b ∈ level_blocks (levels s') -> b ∈ level_blocks (levels s)) ->
  (forall k, k ∈ js <-> exists b, b ∈ level_blocks (levels s) /\ (bo_hash b ∉ hashes (levels s')) /\ journal_key b = k) ->
  journaled s' (apply_changes (meta (meta_delete js (empty_commit (H := Key)))) m).
Proof.
  intros Hi Hi' Hlast Hj Hsub Hjs. eapply (journaled_shrink C C s s' m _ js); try done.
  - unfold front. by rewrite Hlast.
  - rewrite apply_changes_lookup, Hlast, <- (j_last _ _ Hj), decide_False; [done|].
    intros (b & Hb & _ & Hk)%Hjs. destruct (i_block _ _ _ _ Hi b Hb) as [_ Hkey]. rewrite Hkey in Hk. symmetry in Hk. by apply last_canonical_not_journal in Hk.
  - intros n i. by rewrite apply_changes_lookup.
Qed.

Lemma journaled_remove C s s' b m :
  inv C s -> inv C s' -> last_canonicalized s' = last_canonicalized s -> journaled s m ->
  level_blocks (levels s) ≡ₚ b :: level_blocks (levels s') ->
  journaled s' (apply_changes (meta (meta_delete [journal_key b] (empty_commit (H := Key)))) m).
Proof.
  intros Hi Hi' Hlast Hj Hp. pose proof (pre_nodup _ _ _ _ _ _ (i_pre _ _ _ _ Hi)) as Hnd. unfold hashes in Hnd. rewrite Hp in Hnd.
  cbn in Hnd. apply NoDup_cons in Hnd as [Hb _].
  eapply journaled_delete; [exact Hi|done..| |]; [intros b' Hb'; rewrite Hp; by constructor|].
  intros k. rewrite list_elem_of_singleton. split.
  - intros ->. exists b. split; [rewrite Hp; constructor|done].
  - intros (b' & Hb' & Hh & <-). rewrite Hp in Hb'. apply elem_of_cons in Hb' as [->|Hb']; [done|]. destruct Hh. by apply list_elem_of_fmap_2.
Qed.

Lemma journaled_revert C s s' level m :
  inv C s -> inv C s' -> last_canonicalized s' = last_canonicalized s -> journaled s m ->
  levels s = levels s' ++ [level] ->
  journaled s' (apply_changes (meta (meta_delete (journal_key <$> blocks level) (empty_commit (H := Key)))) m).
Proof.
  intros Hi Hi' Hlast Hj Hlv. pose proof (pre_nodup _ _ _ _ _ _ (i_pre _ _ _ _ Hi)) as Hnd.
  rewrite Hlv, hashes_app, hashes_cons, app_nil_r in Hnd. apply NoDup_app in Hnd as (_ & Hnd & _).
  assert (forall b, b ∈ level_blocks (levels s) <-> b ∈ level_blocks (levels s') \/ b ∈ blocks level) as Hb
    by (intros b; rewrite Hlv; unfold level_blocks; rewrite bind_app; cbn; by rewrite app_nil_r, elem_of_app).
  eapply journaled_delete; [exact Hi|done..| |]; [intros b' Hb'; apply Hb; by left|].
  intros k. rewrite list_elem_of_fmap. split.
  - intros (b & -> & Hin). exists b. split; [apply Hb; by right|]. split; [|done]. intros Hh. apply (Hnd _ Hh). by apply list_elem_of_fmap_2.
  - intros (b & [Hin|Hin]%Hb & Hh & <-); [|by exists b]. destruct Hh. by apply list_elem_of_fmap_2.
Qed.

Lemma journaled_insert C C' s s' b number parent m commit :
  inv C s -> inv C' s' -> journaled s m -> 0 <= number -> number_of (bo_hash b) = number ->
  last_canonicalized s' = last_canonicalized (assume_parent s number parent) ->
  level_blocks (levels s') ≡ₚ b :: level_blocks (levels s) ->
  commit = meta_insert (journal_key b) (encode (record_of (bo_hash b))) (assume_commit s number parent) ->
  journaled s' (apply_changes (meta commit) m).
Proof.
  intros Hi Hi' [Hlast Hent Honly] Hn0 Hn Hl' Hp ->.
  assert (b ∈ level_blocks (levels s')) as Hb by (rewrite Hp; constructor).
  destruct (i_block _ _ _ _ Hi' b Hb) as [_ Hkey].
  pose proof (last_canonical_not_journal tt (number_of (bo_hash b), journal_index b)) as Hne. fold (to_journal_key (number_of (bo_hash b)) (journal_index b)) in Hne.
  set (m' := apply_changes _ m).
  assert (m' !! to_meta_key LAST_CANONICAL tt = encode <$> last_canonicalized s' /\
          (forall n i, m' !! to_journal_key n i = (<[journal_key b := encode (record_of (bo_hash b))]> m) !! to_journal_key n i)) as [HL HK].
  { unfold m', apply_changes. rewrite Hkey. unfold assume_commit, assume_parent in *. simpl. rewrite Hl'.
    destruct (last_canonicalized s) as [[h n0]|] eqn:Hls; simpl.
    - by rewrite ?Hls, lookup_insert_ne, Hlast, ?Hls by done.
    - destruct (bool_decide (levels s = []) && (0 <? number)) eqn:Hc; simpl.
      + rewrite lookup_insert_ne, lookup_insert_eq by done. split; [done|]. intros n i.
        destruct (decide (to_journal_key n i = to_journal_key (number_of (bo_hash b)) (journal_index b))) as [->|Hd]; [by rewrite !lookup_insert_eq|].
        rewrite !(lookup_insert_ne _ (to_journal_key (number_of _) _)) by done. apply lookup_insert_ne, last_canonical_not_journal.
      + by rewrite ?Hls, lookup_insert_ne, Hlast, ?Hls by done. }
  split; [done| |].
  - intros b' Hb'. destruct (i_block _ _ _ _ Hi' b' Hb') as [_ Hkey']. rewrite Hkey', HK, <- Hkey'. rewrite Hp in Hb'.
    apply elem_of_cons in Hb' as [->|Hb']; [by rewrite lookup_insert_eq|].
    destruct (decide (journal_key b = journal_key b')) as [Heq|Hd]; [|rewrite lookup_insert_ne by done; by apply Hent].
    rewrite <- Heq, lookup_insert_eq. repeat f_equal. eapply journal_key_inj; [exact Hi'|done| |done]. rewrite Hp. by constructor.
  - intros n i Hn' Hr. rewrite HK. destruct (decide (journal_key b = to_journal_key n i)) as [Heq|Hd].
    + intros _. exists b. split; [done|]. rewrite Hkey in Heq. apply meta_key_inj in Heq;
      [by injection Heq as -> ->|by eapply block_key_valid|]. unfold pair_u64, is_u64, MAX_BLOCKS_PER_LEVEL in *. simpl.
      pose proof (i_front _ _ _ _ Hi'). lia.
    + rewrite lookup_insert_ne by done. intros Hs. destruct (Honly n i) as (b' & Hb' & ? & ?); [|done..|].
      * revert Hn'. unfold front. rewrite Hl'. unfold assume_parent. pose proof (i_front _ _ _ _ Hi) as [Hf _]. unfold front in Hf.
        destruct (last_canonicalized s) as [[h n0]|] eqn:Hls; [by rewrite Hls|]. destruct (_ && _) eqn:Hc; simpl; rewrite ?Hls; lia.
      * exists b'. split; [rewrite Hp; by constructor|done].
Qed.

(** ** Reading the journal *)
Section reading.
Context C s m (Hi : inv C s) (Hj : journaled s m) (hash : BlockHash) (number : Z)
  (Hlast : last_canonicalized s = Some (hash, number))
  (Hfit : forall k c v, values s !! k = Some (c, v) -> c < 2 ^ 32).

(** The overlay as far as it is read. *)
Abbreviation cur lv vals par := (restored (Some (hash, number)) lv vals par).

Lemma restored_front lv vals par : front (cur lv vals par) = front s.
Proof. unfold front. by rewrite Hlast. Qed.

(** The blocks below number [n], and those of number [n] with an index below [i]. *)
Definition read_so_far (n i : Z) (lv : list OverlayLevel) : Prop :=
  forall b, b ∈ level_blocks lv <-> b ∈ level_blocks (levels s) /\
    (number_of (bo_hash b) < n \/ number_of (bo_hash b) = n /\ journal_index b < i).

Lemma read_sub n i lv vals par b :
  inv C (cur lv vals par) -> read_so_far n i lv -> b ∈ level_blocks (levels s) -> b ∉ level_blocks lv ->
  bo_hash b :: hashes lv ⊆+ hashes (levels s).
Proof.
  intros Hi0 Hread Hb Hnb. apply NoDup_submseteq.
  - constructor; [|apply (pre_nodup _ _ _ _ _ _ (i_pre _ _ _ _ Hi0))]. intros (b' & Heq & Hb')%list_elem_of_fmap.
    assert (b = b') as -> by (eapply NoDup_fmap_eq; [exact (pre_nodup _ _ _ _ _ _ (i_pre _ _ _ _ Hi))|done|by apply Hread|done]). done.
  - intros x [->|(b' & -> & Hb'%Hread)%list_elem_of_fmap]%elem_of_cons; apply list_elem_of_fmap_2; tauto.
Qed.

Lemma read_counts n i lv vals par b k :
  inv C (cur lv vals par) -> read_so_far n i lv -> b ∈ level_blocks (levels s) -> b ∉ level_blocks lv ->
  need block (hashes lv) k + occ k (b_inserted (block (bo_hash b))) < 2 ^ 32.
Proof.
  intros Hi0 Hread Hb Hnb. destruct (submseteq_Permutation _ _ (read_sub _ _ _ _ _ _ Hi0 Hread Hb Hnb)) as [rest Hrest].
  assert (forall os os', need block (os ++ os') k = need block os k + need block os' k) as Happ
    by (intros; unfold need; by rewrite fmap_app, sum_Z_app).
  pose proof (need_proper block _ _ Hrest k k eq_refl) as Hle. rewrite Happ, need_cons in Hle.
  pose proof (need_nonneg block rest k). pose proof (need_nonneg block (pi_keys (pinned_insertions s)) k).
  pose proof (inv_refs _ _ _ _ Hi k) as Hv. revert Hv. rewrite Happ.
  case_cmp; [intros Hv; apply Hfit in Hv; lia|]. intros _. lia.
Qed.

Context {DbError : Type} (db : MetaDb DbError) (Hdb : forall k, db k = Ok (m !! k)).

(** The parent of a block was read with the level before. *)
Lemma read_parent lv0 level vals par b i :
  inv C (cur (lv0 ++ [level]) vals par) -> read_so_far (front s + Z.of_nat (length lv0)) i (lv0 ++ [level]) ->
  b ∈ level_blocks (levels s) -> number_of (bo_hash b) = front s + Z.of_nat (length lv0) ->
  match length lv0 with
  | O => parent_of (bo_hash b) = hash
  | S j => exists l, (lv0 ++ [level]) !! j = Some l /\ parent_of (bo_hash b) ∈ (bo_hash <$> blocks l)
  end.
Proof.
  intros Hi0 Hread (k & l & Hl & Hb)%elem_of_level_blocks Hn. pose proof (i_pre _ _ _ _ Hi) as Hp.
  rewrite (pre_num _ _ _ _ _ _ Hp k l b Hl Hb) in Hn. assert (k = length lv0) as -> by lia.
  destruct (length lv0) as [|j] eqn:Hlen.
  - destruct (i_root _ _ _ _ Hi) as (p & Hroot & Hpl). rewrite (Hroot l b Hl Hb). by eapply Hpl.
  - destruct (lookup_lt_is_Some_2 (levels s) j) as [l0 Hl0]; [apply lookup_lt_Some in Hl; lia|].
    pose proof (i_link _ _ _ _ Hi j l0 l b Hl0 Hl Hb) as (b0 & Hb0p & Hb0)%list_elem_of_fmap.
    pose proof (pre_num _ _ _ _ _ _ Hp j l0 b0 Hl0 Hb0) as Hn0.
    assert (b0 ∈ level_blocks (lv0 ++ [level])) as (j' & l' & Hl' & Hb')%elem_of_level_blocks.
    { apply Hread. split; [apply elem_of_level_blocks; eauto|]. left. lia. }
    pose proof (pre_num _ _ _ _ _ _ (i_pre _ _ _ _ Hi0) j' l' b0 Hl' Hb') as Hn'. rewrite restored_front in Hn'.
    assert (j' = j) as -> by lia. exists l'. split; [done|]. rewrite Hb0p. by apply list_elem_of_fmap_2.
Qed.

Lemma read_entry_spec lv0 level vals par i :
  inv C (cur (lv0 ++ [level]) vals par) -> read_so_far (front s + Z.of_nat (length lv0)) i (lv0 ++ [level]) ->
  0 <= i < MAX_BLOCKS_PER_LEVEL ->
  exists level' vals' par', read_entry db (front s + Z.of_nat (length lv0)) (level, vals, par) i = Ok (level', vals', par') /\
    inv C (cur (lv0 ++ [level']) vals' par') /\ read_so_far (front s + Z.of_nat (length lv0)) (i + 1) (lv0 ++ [level']).
Proof.
  intros Hi0 Hread Hir. set (n := front s + Z.of_nat (length lv0)) in *. unfold read_entry. rewrite Hdb. cbn [map_err mbind res_bind].
  destruct (m !! to_journal_key n i) as [v|] eqn:Hm.
  2:{ exists level, vals, par. split; [done|]. split; [done|]. intros b. rewrite (Hread b). split; [intros [? [?|?]]; (split; [done|lia])|].
      intros [Hb [?|[Hn Hlt]]]; (split; [done|]); [lia|]. right. split; [done|]. destruct (decide (journal_index b = i)) as [Hbi|]; [|lia].
      pose proof (j_entry _ _ Hj b Hb) as He. destruct (i_block _ _ _ _ Hi b Hb) as [_ Hk]. rewrite Hk, Hn, Hbi, Hm in He. done. }
  destruct (j_only _ _ Hj n i) as (b & Hb & Hbn & Hbi); [|done|by eexists|].
  { pose proof (i_front _ _ _ _ Hi0) as [_ Hf]. rewrite restored_front in Hf. simpl in Hf. rewrite length_app in Hf. simpl in Hf. unfold n. lia. }
  destruct (i_block _ _ _ _ Hi b Hb) as [Hdel Hkey]. pose proof (j_entry _ _ Hj b Hb) as He. rewrite Hkey, Hbn, Hbi, Hm in He.
  injection He as ->. unfold decode_res. rewrite decode_encode by done. cbn [ok_or mbind res_bind record_of jr_inserted jr_hash jr_parent_hash jr_deleted].
  assert (b ∉ level_blocks (lv0 ++ [level])) as Hnb by (intros [_ ?]%Hread; lia).
  destruct (insert_values_spec (E := Error DbError) value_of (b_inserted (block (bo_hash b))) vals _ (inv_refs _ _ _ _ Hi0)) as (vals' & -> & Hr).
  { intros k. split; [apply need_nonneg|]. simpl. unfold pi_keys. rewrite map_to_list_empty. simpl. rewrite app_nil_r. by eapply read_counts. }
  cbn [mbind res_bind].
  assert ({| bo_hash := bo_hash b; journal_index := i; journal_key := to_journal_key n i;
             bo_inserted := (tagged value_of (b_inserted (block (bo_hash b)))).*1; bo_deleted := b_deleted (block (bo_hash b)) |} = b) as ->.
  { pose proof (pre_ins _ _ _ _ _ _ (i_pre _ _ _ _ Hi) _ Hb) as Hins. destruct b as [h idx key ins del]. simpl in *. subst.
    unfold n. rewrite Hbn. f_equal. unfold tagged. rewrite <- list_fmap_compose. apply list_fmap_id. }
  assert ((lv0 ++ [level]) !! length lv0 = Some level) as Hll by (by rewrite list_lookup_middle).
  assert (level_wf level) as Hwf by (by apply (Forall_lookup_1 _ _ _ _ (pre_wf _ _ _ _ _ _ (i_pre _ _ _ _ Hi0)) Hll)).
  destruct (level_push_spec (E := Error DbError) level b Hwf) as (level' & -> & Hbl & Hwf'); [by rewrite Hbi| |].
  { intros (b' & Hidx & Hb')%list_elem_of_fmap.
    assert (b' ∈ level_blocks (lv0 ++ [level])) as Hb2 by (apply elem_of_level_blocks; eauto).
    apply Hread in Hb2 as [Hb2 [Hlt|[_ Hlt]]]; [|lia].
    pose proof (pre_num _ _ _ _ _ _ (i_pre _ _ _ _ Hi0) _ _ _ Hll Hb') as Hn'. rewrite restored_front in Hn'. unfold n in Hlt. lia. }
  exists level', vals', (<[bo_hash b := parent_of (bo_hash b)]> par). split; [done|].
  assert (<[length lv0 := level']> (lv0 ++ [level]) = lv0 ++ [level']) as Hins
    by (by rewrite insert_app_r_alt, Nat.sub_diag by lia).
  split.
  - pose proof (read_sub _ _ _ _ _ _ Hi0 Hread Hb Hnb) as Hsub.
    eapply (inv_push _ _ C (cur (lv0 ++ [level]) vals par) _ (length lv0)); try done.
    + intros k. specialize (Hr k). simpl. rewrite need_cons, Z.add_comm. apply Hr.
    + by rewrite restored_front.
    + apply (pre_link _ _ _ _ _ _ (i_pre _ _ _ _ Hi)). by apply list_elem_of_fmap_2.
    + intros (b' & Heq & Hb')%list_elem_of_fmap. apply Hnb.
      assert (b = b') as -> by (eapply NoDup_fmap_eq; [exact (pre_nodup _ _ _ _ _ _ (i_pre _ _ _ _ Hi))|done|by apply Hread|done]). done.
    + pose proof (read_parent _ _ _ _ _ _ Hi0 Hread Hb Hbn). by destruct (length lv0).
    + apply submseteq_length in Hsub. simpl in *. pose proof (i_size _ _ _ _ Hi). lia.
    + by apply (pre_ins _ _ _ _ _ _ (i_pre _ _ _ _ Hi)).
  - intros b'. unfold level_blocks. rewrite bind_app. cbn. rewrite app_nil_r, Hbl, app_assoc, elem_of_app, list_elem_of_singleton.
    pose proof (Hread b') as Hb'. unfold level_blocks in Hb' at 1. rewrite bind_app in Hb'. cbn in Hb'. rewrite app_nil_r in Hb'. rewrite Hb'.
    split; [intros [[? [?|?]]| ->]; (split; [done|lia])|]. intros [Hb2 [?|[Hn2 Hi2]]]; [left; split; [done|lia]|].
    destruct (decide (journal_index b' = i)) as [Heq|]; [right|left; split; [done|lia]].
    eapply block_index_inj; [exact Hi|done..| |]; congruence.
Qed.

Lemma read_level_spec lv0 vals par :
  inv C (cur lv0 vals par) -> read_so_far (front s + Z.of_nat (length lv0)) 0 lv0 ->
  front s + Z.of_nat (length lv0) + 1 < 2 ^ 64 ->
  exists level' vals' par', read_level db (front s + Z.of_nat (length lv0)) vals par = Ok (level', vals', par') /\
    inv C (cur (lv0 ++ [level']) vals' par') /\ read_so_far (front s + Z.of_nat (length lv0) + 1) 0 (lv0 ++ [level']).
Proof.
  intros Hi0 Hread Hroom. unfold read_level.
  destruct (for_each_inv (read_entry db (front s + Z.of_nat (length lv0)))
    (fun seen '(level, vals, par) => inv C (cur (lv0 ++ [level]) vals par) /\
       read_so_far (front s + Z.of_nat (length lv0)) (Z.of_nat (length seen)) (lv0 ++ [level]))
    (seqZ 0 MAX_BLOCKS_PER_LEVEL) (new_level, vals, par)) as ([[level' vals'] par'] & Heq & Hi' & Hread').
  - split; [by apply (inv_new_level _ _ C (cur lv0 vals par)); rewrite ?restored_front|]. simpl.
    unfold read_so_far. by rewrite level_blocks_snoc_new.
  - intros seen i todo [[level1 vals1] par1] Hseq [Hi1 Hread1].
    assert (i = Z.of_nat (length seen) /\ i < MAX_BLOCKS_PER_LEVEL) as [-> Hlt].
    { assert (seqZ 0 MAX_BLOCKS_PER_LEVEL !! length seen = Some i) as Hl by (rewrite Hseq; by apply list_lookup_middle).
      apply lookup_seqZ in Hl. lia. }
    destruct (read_entry_spec lv0 level1 vals1 par1 _ Hi1 Hread1) as (level2 & vals2 & par2 & -> & Hi2 & Hread2); [lia|].
    eexists (_, _, _). split; [done|]. split; [done|]. by rewrite length_app, Nat2Z.inj_add.
  - exists level', vals', par'. split; [done|]. split; [done|]. rewrite length_seqZ, Z2Nat.id in Hread' by done.
    intros b. rewrite (Hread' b). split; [intros [? [?|?]]; (split; [done|lia])|]. intros [Hb [?|?]]; (split; [done|]).
    + pose proof (block_index_range C s b Hi Hb). lia.
    + pose proof (block_index_range C s b Hi Hb). lia.
Qed.

(** Above an empty level there is no block. *)
Lemma levels_end n : front s <= n -> (forall b, b ∈ level_blocks (levels s) -> number_of (bo_hash b) <> n) ->
  forall b, b ∈ level_blocks (levels s) -> number_of (bo_hash b) < n.
Proof.
  intros Hn Hnone b Hb. pose proof (i_pre _ _ _ _ Hi) as Hp. destruct (Z_lt_le_dec (number_of (bo_hash b)) n) as [|Hle]; [done|].
  exfalso. remember (Z.to_nat (number_of (bo_hash b) - n)) as d eqn:Hd. revert b Hb Hle Hd.
  induction d as [|d IH]; intros b Hb Hle Hd; [apply (Hnone b Hb); lia|].
  apply elem_of_level_blocks in Hb as ([|j] & l & Hl & Hb); pose proof (pre_num _ _ _ _ _ _ Hp _ _ _ Hl Hb) as Hnb; [lia|].
  destruct (lookup_lt_is_Some_2 (levels s) j) as [l0 Hl0]; [apply lookup_lt_Some in Hl; lia|].
  pose proof (i_link _ _ _ _ Hi j l0 l b Hl0 Hl Hb) as (b0 & Hb0p & Hb0)%list_elem_of_fmap.
  pose proof (pre_num _ _ _ _ _ _ Hp j l0 b0 Hl0 Hb0).
  apply (IH b0); [apply elem_of_level_blocks; eauto|lia|lia].
Qed.

Context (Hfront : front s + 1 < 2 ^ 64) (Hroom : forall x, x ∈ hashes (levels s) -> number_of x + 2 < 2 ^ 64).

Lemma read_levels_spec fuel lv0 vals par :
  inv C (cur lv0 vals par) -> read_so_far (front s + Z.of_nat (length lv0)) 0 lv0 ->
  (length lv0 <= length (levels s))%nat -> (length (levels s) - length lv0 < fuel)%nat ->
  front s + Z.of_nat (length lv0) + 1 < 2 ^ 64 ->
  exists lv' vals' par', read_levels db fuel (front s + Z.of_nat (length lv0)) lv0 vals par = Some (Ok (lv', vals', par')) /\
    inv C (cur lv' vals' par') /\ forall b, b ∈ level_blocks lv' <-> b ∈ level_blocks (levels s).
Proof.
  revert lv0 vals par. induction fuel as [|fuel IH]; intros lv0 vals par Hi0 Hread Hlen Hfuel Hlv; [lia|]. cbn [read_levels].
  destruct (read_level_spec lv0 vals par Hi0 Hread Hlv) as (level & vals' & par' & -> & Hi' & Hread').
  assert (forall b, b ∈ blocks level <-> b ∈ level_blocks (levels s) /\ number_of (bo_hash b) = front s + Z.of_nat (length lv0)) as Hlevel.
  { intros b. assert (b ∈ level_blocks (lv0 ++ [level]) <-> b ∈ level_blocks lv0 \/ b ∈ blocks level) as Hsplit
      by (unfold level_blocks; rewrite bind_app; cbn; by rewrite app_nil_r, elem_of_app).
    pose proof (Hread b) as Hr1. pose proof (Hread' b) as Hr2. split.
    - intros Hb. destruct (proj1 Hr2) as [? Hor]; [tauto|]. split; [done|].
      rewrite (pre_num _ _ _ _ _ _ (i_pre _ _ _ _ Hi') (length lv0) level b), restored_front; [done|by apply list_lookup_middle|done].
    - intros [Hb Hn]. destruct (proj1 Hsplit) as [Hin|]; [apply Hr2; split; [done|lia]| |done].
      apply Hr1 in Hin as [_ [?|[_ Hneg]]]; [lia|]. pose proof (block_index_range C s b Hi Hb). lia. }
  case_bool_decide as Hempty.
  - exists lv0, vals', par'. split; [done|].
    destruct (inv_pop_empty _ _ C (cur (lv0 ++ [level]) vals' par') level Hi') as [Hpop _]; [by apply last_snoc|done|].
    simpl in Hpop. rewrite length_app, Nat.add_1_r in Hpop. simpl in Hpop. rewrite take_app_length in Hpop. split; [done|].
    intros b. rewrite (Hread b). split; [by intros [? _]|]. intros Hb. split; [done|]. left. apply levels_end; [lia| |done].
    intros b' Hb' Hn. assert (b' ∈ blocks level) as Hin by (by apply Hlevel). rewrite Hempty in Hin. by apply elem_of_nil in Hin.
  - destruct (blocks level) as [|b rest] eqn:Hbl; [done|]. destruct (proj1 (Hlevel b)) as [Hb Hn]; [left|].
    pose proof (Hroom (bo_hash b)) as Hb2. rewrite Hn in Hb2. specialize (Hb2 (list_elem_of_fmap_2 _ _ _ Hb)).
    apply elem_of_level_blocks in Hb as (j & l & Hl & Hb). rewrite (pre_num _ _ _ _ _ _ (i_pre _ _ _ _ Hi) _ _ _ Hl Hb) in Hn.
    apply lookup_lt_Some in Hl. rewrite add_u_ok by lia. cbn [mbind].
    assert (length (lv0 ++ [level]) = S (length lv0)) as Hlen' by (rewrite length_app; simpl; lia).
    replace (front s + Z.of_nat (length lv0) + 1) with (front s + Z.of_nat (length (lv0 ++ [level]))) in * by lia.
    apply IH; [done|done|lia..].
Qed.

Lemma inv_start : inv C (cur [] ∅ ∅).
Proof.
  destruct (i_front _ _ _ _ Hi) as [Hf0 Hf1].
  split; rewrite ?restored_front; simpl; try done.
  - split; simpl; try done; try (by intros ? ?%elem_of_nil). constructor.
  - intros x [? Hx]. by rewrite lookup_empty in Hx.
  - split; [by intros ???|by intros ????|by intros y [? Hy]].
  - exists hash. split; [done|]. intros h n. by intros [= ->].
  - rewrite <- Hlast. apply (i_last _ _ _ _ Hi).
  - apply (i_canon _ _ _ _ Hi).
  - lia.
  - by intros b Hb%elem_of_nil.
Qed.

Lemma new_spec fuel : (length (levels s) < fuel)%nat ->
  exists s', new db fuel = Some (Ok s') /\ inv C s' /\ last_canonicalized s' = last_canonicalized s /\
    level_blocks (levels s') ≡ₚ level_blocks (levels s) /\
    pinned s' = ∅ /\ pinned_insertions s' = ∅ /\ pinned_canonincalized s' = [].
Proof.
  intros Hfuel. unfold new, read_last_canonicalized. rewrite Hdb, (j_last _ _ Hj), Hlast. cbn [map_err mbind res_bind option_map fmap option_fmap].
  unfold decode_res. rewrite decode_encode by (destruct (i_last _ _ _ _ Hi _ _ Hlast) as (_ & _ & ?), (i_front _ _ _ _ Hi) as [_ Hb];
    unfold front in Hb; rewrite Hlast in Hb; unfold numbered, is_u64; simpl; lia). cbn.
  assert (front s = number + 1) as Hf by (unfold front; by rewrite Hlast).
  destruct (i_front _ _ _ _ Hi). rewrite add_u_ok by lia. rewrite <- Hf.
  pose proof (read_levels_spec fuel [] ∅ ∅ inv_start) as Hread. simpl in Hread. rewrite Z.add_0_r in Hread.
  destruct Hread as (lv' & vals' & par' & -> & Hi' & Hb); [|lia..|].
  - intros b. split; [by intros ?%elem_of_nil|]. intros [(j & l & Hl & Hb)%elem_of_level_blocks Hn].
    pose proof (pre_num _ _ _ _ _ _ (i_pre _ _ _ _ Hi) _ _ _ Hl Hb).
    assert (b ∈ level_blocks (levels s)) as Hin by (apply elem_of_level_blocks; eauto).
    pose proof (block_index_range C s b Hi Hin). lia.
  - eexists. split; [done|]. split; [done|]. split; [done|]. split; [|done]. apply NoDup_Permutation; [| |done].
    + apply (NoDup_fmap_1 bo_hash), (pre_nodup _ _ _ _ _ _ (i_pre _ _ _ _ Hi')).
    + apply (NoDup_fmap_1 bo_hash), (pre_nodup _ _ _ _ _ _ (i_pre _ _ _ _ Hi)).
Qed.
End reading.

(** More fuel does not change what is read. *)
Lemma read_levels_fuel {DbError} (db : MetaDb DbError) fuel extra n lv vals par r :
  read_levels (BlockHash := BlockHash) (Key := Key) db fuel n lv vals par = Some r ->
  read_levels (BlockHash := BlockHash) (Key := Key) db (fuel + extra) n lv vals par = Some r.
Proof.
  revert n lv vals par. induction fuel as [|fuel IH]; intros n lv vals par; [done|]. cbn [read_levels Nat.add].
  destruct (read_level db n vals par) as [[[level vals'] par']|e|]; [|done..]. case_bool_decide; [done|].
  destruct (add_u 64 n 1); [apply IH|done..].
Qed.

Lemma new_fuel {DbError} (db : MetaDb DbError) fuel extra r :
  new (BlockHash := BlockHash) (Key := Key) db fuel = Some r -> new (BlockHash := BlockHash) (Key := Key) db (fuel + extra) = Some r.
Proof.
  unfold new. destruct (read_last_canonicalized db) as [[[hash n]|]|e|]; [|done..]. destruct (add_u 64 n 1) as [first|e|]; [|done..].
  intros (r' & Hr & ->)%fmap_Some. by rewrite (read_levels_fuel _ _ _ _ _ _ _ _ Hr).
Qed.

(** Without pins the blocks determine the rest of the overlay. *)
Lemma inv_determined C s s' :
  inv C s -> inv C s' -> pinned_insertions s = ∅ -> pinned_insertions s' = ∅ ->
  level_blocks (levels s') ≡ₚ level_blocks (levels s) -> values s' = values s /\ parents s' = parents s.
Proof.
  intros Hi Hi' HPI HPI' Hb. assert (hashes (levels s') ≡ₚ hashes (levels s)) as Hh by (by apply fmap_Permutation).
  split; apply map_eq; intros x.
  - pose proof (inv_refs _ _ _ _ Hi) as Hr. pose proof (inv_refs _ _ _ _ Hi') as Hr'. rewrite HPI in Hr. rewrite HPI', Hh in Hr'.
    by rewrite (Hr x), (Hr' x).
  - destruct (decide (x ∈ hashes (levels s))) as [Hx|Hx].
    + pose proof (pre_par _ _ _ _ _ _ (i_pre _ _ _ _ Hi) x Hx) as Hp. rewrite <- Hh in Hx.
      pose proof (pre_par _ _ _ _ _ _ (i_pre _ _ _ _ Hi') x Hx) as Hp'. simpl in *. congruence.
    + trans (@None BlockHash); [|symmetry]; apply eq_None_not_Some; intros Hp.
      * apply (i_dom _ _ _ _ Hi') in Hp as [Hp|[? Hp]]; [by rewrite Hh in Hp|]. by rewrite HPI' in Hp.
      * apply (i_dom _ _ _ _ Hi) in Hp as [Hp|[? Hp]]; [done|]. by rewrite HPI in Hp.
Qed.
End restore.
