(* ===== verification/Pruning.v ===== *)
(** * The pruning window

    [pruning.rs] of [client/state-db]: the canonical blocks whose states are still in the
    database.  Each has a [DeathRow]: the nodes that the database can give up when the
    block is pruned.  A [DeathRowQueue] keeps all rows in memory and tracks re-inserted
    nodes ([Mem]), or, for a database that counts references, caches the first rows and
    reads the others from the journal ([DbBacked]).

    The database handle that [DbBacked] stores is the argument [db] of the operations
    that read through it.  A [HashSet] of nodes is a [gset]; its order of iteration,
    which only shows in the order of [commit.data.deleted], is that of [elements]. *)
From stdpp Require Import base gmap list.
From Stdlib Require Import ZArith Lia.
From S2P Require Import Prelude StateDbBase.
Set Warnings "-clear-no-such-hyp".
Open Scope Z_scope.

Record DeathRow (BlockHash Key : Type) `{Countable Key} := { dr_hash : BlockHash; dr_deleted : gset Key }.
Arguments dr_hash {BlockHash Key _ _} _.
Arguments dr_deleted {BlockHash Key _ _} _.

Record PruningRecord (BlockHash Key : Type) := { pr_hash : BlockHash; pr_inserted : list Key; pr_deleted : list Key }.
Arguments pr_hash {BlockHash Key} _.
Arguments pr_inserted {BlockHash Key} _.
Arguments pr_deleted {BlockHash Key} _.

Inductive DeathRowQueue (BlockHash Key : Type) `{Countable Key} :=
| Mem (death_rows : list (DeathRow BlockHash Key)) (death_index : gmap Key Z)
| DbBacked (cache : list (DeathRow BlockHash Key)) (cache_capacity : Z) (last : option Z).
Arguments Mem {BlockHash Key _ _} _ _.
Arguments DbBacked {BlockHash Key _ _} _ _ _.

Record RefWindow (BlockHash Key : Type) `{Countable Key} := { queue : DeathRowQueue BlockHash Key; base : Z }.
Arguments queue {BlockHash Key _ _} _.
Arguments base {BlockHash Key _ _} _.

Inductive HaveBlock := HaveNo | HaveMaybe | HaveYes.

(** [impl From<bool> for HaveBlock] *)
Definition have_block_from (have : bool) : HaveBlock := if have then HaveYes else HaveNo.

Section pruning.
Context {BlockHash Key : Type} `{EqDecision BlockHash} `{Countable Key}.
Context `{Codec unit, Codec Z, Codec (BlockHash * Z), Codec (PruningRecord BlockHash Key)}.
Context {DbError : Type}.

Abbreviation DeathRow := (DeathRow BlockHash Key).
Abbreviation PruningRecord := (PruningRecord BlockHash Key).
Abbreviation DeathRowQueue := (DeathRowQueue BlockHash Key).
Abbreviation RefWindow := (RefWindow BlockHash Key).
Abbreviation R := (res (Error DbError)).

Definition to_pruning_key (block : Z) : bytes := to_meta_key PRUNING_JOURNAL block.

Definition row_of (record : PruningRecord) : DeathRow :=
  {| dr_hash := pr_hash record; dr_deleted := list_to_set (pr_deleted record) |}.

(** ** The queue of death rows *)

(** [remove all re-inserted keys from death rows], for one key. *)
Definition reinsert (base : Z) (acc : list DeathRow * gmap Key Z) (k : Key) : R (list DeathRow * gmap Key Z) :=
  let '(rows, index) := acc in
  match index !! k with
  | None => Ok acc
  | Some block =>
      i ← sub_u block base;
      match rows !! Z.to_nat i with
      | None => Panic
      | Some row => Ok (<[Z.to_nat i := {| dr_hash := dr_hash row; dr_deleted := dr_deleted row ∖ {[k]} |}]> rows, delete k index)
      end
  end.

Definition import (base num : Z) (record : PruningRecord) (self : DeathRowQueue) : R DeathRowQueue :=
  match self with
  | DbBacked cache cache_capacity _ =>
      next ← add_u 64 base (Z.of_nat (length cache));
      let cache := if (num =? next) && (Z.of_nat (length cache) <? cache_capacity) then cache ++ [row_of record] else cache in
      Ok (DbBacked cache cache_capacity (Some num))
  | Mem death_rows death_index =>
      '(rows, index) ← for_each (reinsert base) (pr_inserted record) (death_rows, death_index);
      imported_block ← add_u 64 base (Z.of_nat (length rows));
      let index := foldl (fun index k => <[k := imported_block]> index) index (pr_deleted record) in
      Ok (Mem (rows ++ [row_of record]) index)
  end.

Definition load_death_row_from_db (db : MetaDb DbError) (block : Z) : R (option DeathRow) :=
  found ← map_err Db (db (to_pruning_key block));
  match found with
  | Some record => record ← decode_res PruningRecord record; Ok (Some (row_of record))
  | None => Ok None
  end.

(** The [for] loop over [0..batch_size]; rows read before an error stay in the cache. *)
Fixpoint load_batch (db : MetaDb DbError) (start : Z) (batch : list Z) : ST (list DeathRow) (Error DbError) unit :=
  match batch with
  | [] => mret tt
  | i :: batch' =>
      block ← st_lift (add_u 64 start i);
      found ← st_lift (load_death_row_from_db db block);
      match found with
      | Some row => st_modify (fun cache => cache ++ [row]);; load_batch db start batch'
      | None => mret tt
      end
  end.

Definition load_batch_from_db (db : MetaDb DbError) (base cache_capacity : Z) : ST (list DeathRow) (Error DbError) unit :=
  cache ← st_get;
  start ← st_lift (add_u 64 base (Z.of_nat (length cache)));
  load_batch db start (seqZ 0 cache_capacity).

(** The cache of [DbBacked] for a read of the front: filled when it is empty. *)
Definition fill_cache (db : MetaDb DbError) (base cache_capacity : Z) : ST (list DeathRow) (Error DbError) unit :=
  cache ← st_get;
  if bool_decide (cache = []) then load_batch_from_db db base cache_capacity else mret tt.

Definition pop_front (db : MetaDb DbError) (base : Z) : ST DeathRowQueue (Error DbError) (option DeathRow) := fun self =>
  match self with
  | DbBacked cache cache_capacity last =>
      match fill_cache db base cache_capacity cache with
      | (row :: cache, Ok _) => (DbBacked cache cache_capacity last, Ok (Some row))
      | ([], Ok _) => (DbBacked [] cache_capacity last, Ok None)
      | (cache, Err e) => (DbBacked cache cache_capacity last, Err e)
      | (cache, Panic) => (DbBacked cache cache_capacity last, Panic)
      end
  | Mem (row :: death_rows) death_index =>
      (Mem death_rows (foldl (fun index k => delete k index) death_index (elements (dr_deleted row))), Ok (Some row))
  | Mem [] death_index => (Mem [] death_index, Ok None)
  end.

Definition queue_have_block (hash : BlockHash) (index : Z) (self : DeathRowQueue) : R HaveBlock :=
  match self with
  | DbBacked cache _ _ =>
      match cache !! Z.to_nat index with
      | Some row => Ok (have_block_from (bool_decide (dr_hash row = hash)))
      | None => Ok HaveMaybe
      end
  | Mem death_rows _ =>
      match death_rows !! Z.to_nat index with
      | Some row => Ok (have_block_from (bool_decide (dr_hash row = hash)))
      | None => Panic
      end
  end.

Definition queue_len (base : Z) (self : DeathRowQueue) : R Z :=
  match self with
  | DbBacked _ _ None => Ok 0
  | DbBacked _ _ (Some l) => next ← add_u 64 l 1; sub_u next base
  | Mem death_rows _ => Ok (Z.of_nat (length death_rows))
  end.

(** ** Opening *)

(** The [loop] of [new_mem]: imports records until one is missing.  [None] is a loop that
    has not ended after [fuel] records. *)
Fixpoint read_records (db : MetaDb DbError) (fuel : nat) (base block : Z) (queue : DeathRowQueue) : option (R DeathRowQueue) :=
  match fuel with
  | O => None
  | S fuel' =>
      match (found ← map_err Db (db (to_pruning_key block));
             match found with
             | None => Ok None
             | Some record =>
                 record ← decode_res PruningRecord record;
                 queue ← import base block record queue;
                 next ← add_u 64 block 1;
                 Ok (Some (queue, next))
             end) with
      | Ok None => Some (Ok queue)
      | Ok (Some (queue, next)) => read_records db fuel' base next queue
      | Err e => Some (Err e)
      | Panic => Some Panic
      end
  end.

Definition new_mem (db : MetaDb DbError) (fuel : nat) (base : Z) : option (R DeathRowQueue) :=
  read_records db fuel base base (Mem [] ∅).

Definition new_db_backed (db : MetaDb DbError) (base : Z) (last : option Z) (window_size : Z) : R DeathRowQueue :=
  let cache_capacity := Z.max 1 (Z.min window_size DEFAULT_MAX_BLOCK_CONSTRAINT) in
  let '(cache, r) := load_batch_from_db db base cache_capacity [] in
  _ ← r; Ok (DbBacked cache cache_capacity last).

Definition read_base (db : MetaDb DbError) : R Z :=
  found ← map_err Db (db (to_meta_key LAST_PRUNED tt));
  match found with
  | Some buffer => n ← decode_res Z buffer; add_u 64 n 1
  | None => Ok 0
  end.

Definition read_last_number (db : MetaDb DbError) : R (option Z) :=
  found ← map_err Db (db (to_meta_key LAST_CANONICAL tt));
  match found with
  | Some buffer => last ← decode_res (BlockHash * Z) buffer; Ok (Some last.2)
  | None => Ok None
  end.

(** [RefWindow::new]; the check of [last] is its [debug_assert!]. *)
Definition new_window (db : MetaDb DbError) (fuel : nat) (window_size : Z) (count_insertions : bool) : option (R RefWindow) :=
  match (base ← read_base db; last ← read_last_number db; Ok (base, last)) with
  | Ok (base, last) =>
      if count_insertions then
        (fun r => queue ← r; Ok {| queue := queue; base := base |}) <$> new_mem db fuel base
      else Some (
        checked ← match last with Some l => next ← add_u 64 l 1; if base <=? next then Ok tt else Panic | None => Ok tt end;
        queue ← new_db_backed db base last window_size;
        Ok {| queue := queue; base := base |})
  | Err e => Some (Err e)
  | Panic => Some Panic
  end.

(** ** The window *)
Definition window_size (self : RefWindow) : R Z := queue_len (base self) (queue self).

Definition next_hash (db : MetaDb DbError) : ST RefWindow (Error DbError) (option BlockHash) := fun self =>
  match queue self with
  | DbBacked cache cache_capacity last =>
      let '(cache, r) := fill_cache db (base self) cache_capacity cache in
      ({| queue := DbBacked cache cache_capacity last; base := base self |}, _ ← r; Ok (dr_hash <$> head cache))
  | Mem death_rows _ => (self, Ok (dr_hash <$> head death_rows))
  end.

Definition window_is_empty (self : RefWindow) : R bool :=
  size ← window_size self; Ok (size =? 0).

(** [RefWindow::have_block]; [||] evaluates its operands from left to right. *)
Definition window_have_block (hash : BlockHash) (number : Z) (self : RefWindow) : R HaveBlock :=
  empty ← window_is_empty self;
  if empty || (number <? base self) then Ok HaveNo else
  size ← window_size self;
  stop ← add_u 64 (base self) size;
  if stop <=? number then Ok HaveNo else
  index ← sub_u number (base self);
  queue_have_block hash index (queue self).

Definition set_queue (q : DeathRowQueue) (self : RefWindow) : RefWindow := {| queue := q; base := base self |}.
Definition set_base (b : Z) (self : RefWindow) : RefWindow := {| queue := queue self; base := b |}.

(** [self.queue.pop_front(self.base)?] *)
Definition pop_row (db : MetaDb DbError) : ST RefWindow (Error DbError) (option DeathRow) := fun self =>
  let '(q, r) := pop_front db (base self) (queue self) in (set_queue q self, r).

Definition prune_one (db : MetaDb DbError) (commit : CommitSet Key) : ST RefWindow (Error DbError) (CommitSet Key) :=
  popped ← pop_row db;
  match popped with
  | Some pruned =>
      self ← st_get;
      let index := base self in
      next ← st_lift (add_u 64 (base self) 1);
      st_modify (set_base next);;
      mret (meta_delete [to_pruning_key index] (meta_insert (to_meta_key LAST_PRUNED tt) (encode index)
              (data_delete (elements (dr_deleted pruned)) commit)))
  | None => st_lift (Err (StateDb BlockUnavailable))
  end.

(** [note_canonical]: the branch for the first block of an empty window, and the check
    that the block follows the window. *)
Definition note_base (number : Z) (commit : CommitSet Key) : ST RefWindow (Error DbError) (CommitSet Key) :=
  self ← st_get;
  empty ← st_lift (window_is_empty self);
  if (base self =? 0) && empty && (0 <? number) then
    st_modify (set_base number);;
    prev ← st_lift (sub_u number 1);
    mret (meta_insert (to_meta_key LAST_PRUNED tt) (encode prev) commit)
  else
    size ← st_lift (window_size self);
    stop ← st_lift (add_u 64 (base self) size);
    if stop =? number then mret commit else st_lift (Err (StateDb InvalidBlockNumber)).

Definition is_mem (q : DeathRowQueue) : bool := match q with Mem _ _ => true | DbBacked _ _ _ => false end.

Definition note_canonical (hash : BlockHash) (number : Z) (commit : CommitSet Key) : ST RefWindow (Error DbError) (CommitSet Key) :=
  commit ← note_base number commit;
  self ← st_get;
  let record := {| pr_hash := hash; pr_inserted := if is_mem (queue self) then (inserted (data commit)).*1 else [];
                   pr_deleted := deleted (data commit) |} in
  q ← st_lift (import (base self) number record (queue self));
  st_modify (set_queue q);;
  mret (meta_insert (to_pruning_key number) (encode record) (clear_deleted commit)).
End pruning.
