(* ===== verification/PruningFacts.v ===== *)
(** * The pruning window: what the rows hold

    The window of the blocks [w] that follow [bottom] on the canonical chain.  The death
    row of a block has the nodes that the block deletes and no later block of the window
    inserts again; the index knows the row of each node.  With one row gone, the nodes
    left are those of the next state and the insertions after it: nothing that a state
    needs, and nothing else. *)
From stdpp Require Import base gmap list.
From Stdlib Require Import ZArith Lia.
From S2P Require Import Prelude StateDbBase NonCanonicalFacts Pruning.
Set Warnings "-clear-no-such-hyp".
Open Scope Z_scope.

Section facts.
Context {BlockHash Key : Type} `{EqDecision BlockHash} `{Countable Key}.
Context (block : BlockHash -> Block BlockHash Key) (state : BlockHash -> gset Key).

Abbreviation DeathRow := (DeathRow BlockHash Key).
Abbreviation PruningRecord := (PruningRecord BlockHash Key).
Abbreviation number_of := (number_of block).
Abbreviation parent_of := (parent_of block).
Implicit Types (h p x : BlockHash) (w : list BlockHash) (k : Key) (rows : list DeathRow) (index : gmap Key Z).

Definition ins h : gset Key := list_to_set (b_inserted (block h)).
Definition del h : gset Key := list_to_set (b_deleted (block h)).

(** The changes of a block lead from the nodes of its parent's state to those of its own. *)
Record changes_ok h : Prop := {
  ch_state : state h = (state (parent_of h) ∖ del h) ∪ ins h;
  ch_deleted : del h ⊆ state (parent_of h);
  ch_disjoint : ins h ## del h;
}.

(** [w] are consecutive blocks that follow [p]. *)
Fixpoint chain p w : Prop :=
  match w with
  | [] => True
  | h :: w' => parent_of h = p /\ number_of h = number_of p + 1 /\ changes_ok h /\ chain h w'
  end.

Definition ins_all w : gset Key := ⋃ (ins <$> w).

(** The death rows of the window. *)
Fixpoint rows_of w : list DeathRow :=
  match w with
  | [] => []
  | h :: w' => {| dr_hash := h; dr_deleted := del h ∖ ins_all w' |} :: rows_of w'
  end.

(** The nodes the database holds for the window. *)
Definition held p w : gset Key := state p ∪ ins_all w.

Lemma ins_all_app w1 w2 : ins_all (w1 ++ w2) = ins_all w1 ∪ ins_all w2.
Proof. unfold ins_all. by rewrite fmap_app, union_list_app_L. Qed.

Lemma default_last_cons p x w : default p (last (x :: w)) = default x (last w).
Proof. rewrite last_cons. by destruct (last w). Qed.

Lemma chain_app p w h :
  chain p w -> parent_of h = default p (last w) -> number_of h = number_of (default p (last w)) + 1 -> changes_ok h -> chain p (w ++ [h]).
Proof.
  revert p. induction w as [|x w IH]; intros p; [done|]. rewrite default_last_cons. intros (? & ? & ? & Hw) Hp Hn Hc.
  cbn. split_and!; try done. by apply IH.
Qed.

Lemma chain_numbers p w i h : chain p w -> w !! i = Some h -> number_of h = number_of p + 1 + Z.of_nat i.
Proof.
  revert p i. induction w as [|x w IH]; intros p i; [done|]. intros (_ & Hn & _ & Hw). destruct i as [|i]; simpl; [intros [= <-]; lia|].
  intros Hi. rewrite (IH x i Hw Hi). lia.
Qed.

(** A node that is gone stays gone until it is inserted, and is not deleted again. *)
Lemma chain_gone p w k : chain p w -> k ∉ state p -> k ∉ ins_all w -> forall h, h ∈ w -> (k ∉ state h) /\ (k ∉ del h).
Proof.
  revert p. induction w as [|x w IH]; intros p; [by intros _ _ _ h ?%elem_of_nil|].
  intros (<- & _ & [Hs Hd _] & Hw) Hk Hins. unfold ins_all in Hins. simpl in Hins. apply not_elem_of_union in Hins as [Hx Hins].
  assert (k ∉ state x) as Hkx by (rewrite Hs; set_solver).
  intros h [->|Hh]%elem_of_cons; [split; [done|]; set_solver|]. by apply (IH x).
Qed.

Lemma row_gone p h w k :
  chain p (h :: w) -> k ∈ del h ∖ ins_all w -> (k ∉ state h) /\ forall x, x ∈ w -> (k ∉ state x) /\ (k ∉ del x).
Proof.
  intros (_ & _ & [Hs _ Hdis] & Hw) [Hd Hi]%elem_of_difference. assert (k ∉ state h) as Hk by (rewrite Hs; set_solver).
  split; [done|]. by apply (chain_gone h w k).
Qed.

(** Pruning a block leaves exactly what the window that remains needs. *)
Lemma held_prune p h w : chain p (h :: w) -> held p (h :: w) ∖ (del h ∖ ins_all w) = held h w.
Proof.
  intros Hc. pose proof Hc as (<- & _ & [Hs Hd Hdis] & Hw). unfold held. rewrite Hs. unfold ins_all at 1. simpl.
  fold (ins_all w). apply set_eq. intros k. destruct (decide (k ∈ ins_all w)); set_solver.
Qed.

(** Every state of the window is held. *)
Lemma held_state p w h : chain p w -> h = p \/ h ∈ w -> state h ⊆ held p w.
Proof.
  revert p. induction w as [|x w IH]; intros p Hc; [intros [->|?%elem_of_nil]; [|done]; unfold held; set_solver|].
  intros Hh. unfold held, ins_all. simpl. fold (ins_all w). destruct Hh as [->|[->|Hh]%elem_of_cons]; [set_solver|..].
  - destruct Hc as (<- & _ & [Hs _ _] & _). rewrite Hs. set_solver.
  - destruct Hc as (<- & _ & [Hs _ _] & Hw). specialize (IH x Hw (or_intror Hh)). unfold held in IH. rewrite Hs in IH. set_solver.
Qed.

(** What is held are the nodes of the states. *)
Lemma held_states p w : chain p w -> held p w = state p ∪ ⋃ (state <$> w).
Proof.
  revert p. induction w as [|h w IH]; intros p; [done|]. intros (<- & _ & [Hs Hd _] & Hw). specialize (IH h Hw).
  assert (held (parent_of h) (h :: w) = state (parent_of h) ∪ held h w) as -> by (unfold held; rewrite Hs; unfold ins_all; simpl; set_solver).
  by rewrite IH.
Qed.

(** The blocks [w1] are pruned, [w2] remain. *)
Fixpoint pruned_nodes w1 w2 : list Key :=
  match w1 with [] => [] | h :: w1' => elements (del h ∖ ins_all (w1' ++ w2)) ++ pruned_nodes w1' w2 end.

Lemma held_pruned p w1 w2 : chain p (w1 ++ w2) -> held p (w1 ++ w2) ∖ list_to_set (pruned_nodes w1 w2) = held (default p (last w1)) w2.
Proof.
  revert p. induction w1 as [|h w1 IH]; intros p Hc; [simpl; set_solver|]. rewrite default_last_cons. cbn [pruned_nodes].
  rewrite <- IH by apply Hc. rewrite <- (held_prune p h (w1 ++ w2) Hc). rewrite list_to_set_app_L, list_to_set_elements_L. simpl. set_solver.
Qed.

Lemma chain_suffix p w1 w2 : chain p (w1 ++ w2) -> chain (default p (last w1)) w2.
Proof. revert p. induction w1 as [|h w1 IH]; intros p Hc; [done|]. rewrite default_last_cons. by apply IH, Hc. Qed.

(** ** The nodes in the database *)
Section nodes.
Context (value_of : Key -> DBValue).

(** [m] has the nodes [S], with their values, and no other. *)
Definition holds (m : gmap Key DBValue) (S : gset Key) : Prop :=
  forall k, m !! k = if decide (k ∈ S) then Some (value_of k) else None.

Lemma holds_insert m S h : holds m S -> holds (foldl (fun m '(k, v) => <[k := v]> m) m (tagged value_of (b_inserted (block h)))) (S ∪ ins h).
Proof.
  unfold ins. generalize (b_inserted (block h)) as ks. intros ks. revert m S. induction ks as [|k ks IH]; intros m S Hm; simpl.
  - intros k. rewrite (Hm k). apply decide_ext. set_solver.
  - replace (S ∪ ({[k]} ∪ list_to_set ks)) with (S ∪ {[k]} ∪ list_to_set ks) by set_solver. apply IH. intros k'.
    destruct (decide (k = k')) as [<-|Hne]; [rewrite lookup_insert_eq, decide_True by set_solver; done|].
    rewrite lookup_insert_ne, (Hm k') by done. apply decide_ext. set_solver.
Qed.

Lemma holds_delete m S (ks : list Key) : holds m S -> holds (foldl (fun m k => delete k m) m ks) (S ∖ list_to_set ks).
Proof.
  revert m S. induction ks as [|k ks IH]; intros m S Hm; simpl.
  - intros k. rewrite (Hm k). apply decide_ext. set_solver.
  - replace (S ∖ ({[k]} ∪ list_to_set ks)) with (S ∖ {[k]} ∖ list_to_set ks) by set_solver. apply IH. intros k'.
    destruct (decide (k = k')) as [<-|Hne]; [rewrite lookup_delete_eq, decide_False by set_solver; done|].
    rewrite lookup_delete_ne, (Hm k') by done. apply decide_ext. set_solver.
Qed.

(** The block [h] joins the window and [w1] leave it. *)
Lemma holds_window m p w h w1 w2 :
  holds m (held p w) -> chain p (w ++ [h]) -> w ++ [h] = w1 ++ w2 ->
  holds (apply_changes {| inserted := tagged value_of (b_inserted (block h)); deleted := pruned_nodes w1 w2 |} m) (held (default p (last w1)) w2).
Proof.
  intros Hm Hc Heq. rewrite <- held_pruned, <- Heq by (by rewrite <- Heq). unfold apply_changes. simpl. apply holds_delete.
  replace (held p (w ++ [h])) with (held p w ∪ ins h); [by apply holds_insert|].
  unfold held. rewrite ins_all_app. unfold ins_all at 3. simpl. set_solver.
Qed.
End nodes.

(** ** The queue *)

(** The index has the row of each node. *)
Definition index_ok (base : Z) rows index : Prop :=
  forall k b, index !! k = Some b <-> exists i row, rows !! i = Some row /\ k ∈ dr_deleted row /\ b = base + Z.of_nat i.

Definition row_without (ks : gset Key) (row : DeathRow) : DeathRow :=
  {| dr_hash := dr_hash row; dr_deleted := dr_deleted row ∖ ks |}.

Lemma rows_of_app w h : rows_of (w ++ [h]) = (row_without (ins h) <$> rows_of w) ++ [{| dr_hash := h; dr_deleted := del h |}].
Proof.
  induction w as [|x w IH]; simpl; [f_equal; f_equal; unfold ins_all; simpl; set_solver|].
  rewrite IH. f_equal. unfold row_without. simpl. f_equal. rewrite ins_all_app. unfold ins_all at 2. simpl. set_solver.
Qed.

Lemma length_rows_of w : length (rows_of w) = length w.
Proof. induction w; simpl; congruence. Qed.

Lemma index_unique base rows index i j ri rj k :
  index_ok base rows index -> rows !! i = Some ri -> rows !! j = Some rj -> k ∈ dr_deleted ri -> k ∈ dr_deleted rj -> i = j.
Proof.
  intros Hix Hi Hj Hki Hkj. assert (index !! k = Some (base + Z.of_nat i)) as H1 by (apply Hix; eauto).
  assert (index !! k = Some (base + Z.of_nat j)) as H2 by (apply Hix; eauto). rewrite H1 in H2. injection H2 as ?. lia.
Qed.

Lemma index_determined base rows index index' : index_ok base rows index -> index_ok base rows index' -> index = index'.
Proof.
  intros H1 H2. apply map_eq. intros k. destruct (index' !! k) as [b|] eqn:Hb; [by apply H1, H2|].
  destruct (index !! k) as [b|] eqn:Hb'; [|done]. apply H1, H2 in Hb'. congruence.
Qed.

Context {DbError : Type}.
Abbreviation R := (res (Error DbError)).

Lemma row_without_none k row : k ∉ dr_deleted row -> row_without {[k]} row = row.
Proof. intros Hk. destruct row as [h d]. unfold row_without. simpl in *. f_equal. set_solver. Qed.

Lemma reinsert_spec base rows index k :
  index_ok base rows index -> 0 <= base ->
  reinsert (DbError := DbError) base (rows, index) k = Ok (row_without {[k]} <$> rows, delete k index) /\
  index_ok base (row_without {[k]} <$> rows) (delete k index).
Proof.
  intros Hix Hb. split.
  - unfold reinsert. destruct (index !! k) as [b|] eqn:Hk.
    + pose proof Hk as (i & row & Hi & Hin & ->)%Hix. rewrite sub_u_ok by lia. cbn [mbind res_bind].
      replace (Z.to_nat (base + Z.of_nat i - base)) with i by lia. rewrite Hi. f_equal. f_equal. apply list_eq. intros j.
      rewrite list_lookup_fmap. destruct (decide (i = j)) as [<-|Hne].
      * rewrite list_lookup_insert_eq by (by eapply lookup_lt_Some). by rewrite Hi.
      * rewrite list_lookup_insert_ne by done. destruct (rows !! j) as [rj|] eqn:Hj; [|done]. simpl. f_equal. symmetry.
        apply row_without_none. intros Hkj. by destruct (index_unique _ _ _ _ _ _ _ _ Hix Hi Hj Hin Hkj).
    + rewrite delete_id by done. f_equal. f_equal. apply list_eq. intros j. rewrite list_lookup_fmap.
      destruct (rows !! j) as [rj|] eqn:Hj; [|done]. simpl. f_equal. symmetry. apply row_without_none. intros Hkj.
      assert (index !! k = Some (base + Z.of_nat j)) by (apply Hix; eauto). congruence.
  - intros k' b. rewrite lookup_delete_Some. split.
    + intros [Hne (i & row & Hi & Hin & ->)%Hix]. exists i, (row_without {[k]} row). rewrite list_lookup_fmap, Hi. simpl. set_solver.
    + intros (i & row & Hi & Hin & ->). rewrite list_lookup_fmap in Hi. destruct (rows !! i) as [row'|] eqn:Hi'; [|done].
      injection Hi as <-. simpl in Hin. split; [set_solver|]. apply Hix. exists i, row'. split; [done|]. set_solver.
Qed.

Lemma reinsert_all_spec base ks rows index :
  index_ok base rows index -> 0 <= base ->
  exists index', for_each (reinsert (DbError := DbError) base) ks (rows, index) = Ok (row_without (list_to_set ks) <$> rows, index') /\
    index_ok base (row_without (list_to_set ks) <$> rows) index'.
Proof.
  intros Hix Hb. revert rows index Hix. induction ks as [|k ks IH]; intros rows index Hix.
  - exists index. assert (row_without (list_to_set []) <$> rows = rows) as ->; [|done].
    apply list_eq. intros j. rewrite list_lookup_fmap. destruct (rows !! j) as [[h d]|]; [|done]. unfold row_without. simpl. do 2 f_equal. set_solver.
  - destruct (reinsert_spec base rows index k Hix Hb) as [Heq Hix']. cbn [for_each]. rewrite Heq. cbn [mbind res_bind].
    destruct (IH _ _ Hix') as (index' & Hrun & Hok). exists index'.
    assert (row_without (list_to_set (k :: ks)) <$> rows = row_without (list_to_set ks) <$> (row_without {[k]} <$> rows)) as ->; [|done].
    rewrite <- list_fmap_compose. apply list_fmap_ext. intros _ [h d] _. unfold row_without. simpl. f_equal. set_solver.
Qed.

Lemma index_fold (ks : list Key) b index k :
  foldl (fun index k => <[k := b]> index) index ks !! k = if decide (k ∈ ks) then Some b else index !! k.
Proof.
  revert index. induction ks as [|k' ks IH]; intros index; cbn [foldl]; [by rewrite decide_False by apply not_elem_of_nil|].
  rewrite IH. destruct (decide (k ∈ ks)) as [Hin|Hin]; [by rewrite decide_True by (by constructor)|].
  destruct (decide (k = k')) as [->|Hne]; [by rewrite lookup_insert_eq, decide_True by constructor|].
  rewrite lookup_insert_ne, decide_False by (done || (intros [?|?]%elem_of_cons; done)). done.
Qed.

Lemma index_ok_push base rows index row ks :
  index_ok base rows index -> dr_deleted row = list_to_set ks ->
  (forall i r k, rows !! i = Some r -> k ∈ dr_deleted r -> k ∉ dr_deleted row) ->
  index_ok base (rows ++ [row]) (foldl (fun index k => <[k := base + Z.of_nat (length rows)]> index) index ks).
Proof.
  intros Hix Hks Hdis k b. rewrite index_fold. case_decide as Hin.
  - split.
    + intros [= <-]. exists (length rows), row. rewrite list_lookup_middle by done. split; [done|]. rewrite Hks. split; [by apply elem_of_list_to_set|done].
    + intros (i & r & [Hi|[-> ->]]%lookup_snoc_Some & Hk & ->); [|done]. destruct (Hdis i r k); [tauto|done|]. rewrite Hks. by apply elem_of_list_to_set.
  - rewrite (Hix k b). split; intros (i & r & Hi & Hk & ->).
    + exists i, r. split; [|done]. rewrite lookup_app_l by (by eapply lookup_lt_Some). done.
    + apply lookup_snoc_Some in Hi as [[_ Hi]|[-> <-]]; [eauto|]. rewrite Hks in Hk. by apply elem_of_list_to_set in Hk.
Qed.

(** What the rows of a window know about a node. *)
Lemma rows_of_lookup w i row :
  rows_of w !! i = Some row -> exists h w', drop i w = h :: w' /\ row = {| dr_hash := h; dr_deleted := del h ∖ ins_all w' |}.
Proof.
  revert i. induction w as [|x w IH]; intros i; [done|]. destruct i as [|i]; simpl; [|apply IH]. intros [= <-]. eauto.
Qed.

Lemma chain_drop p w i h w' : chain p w -> drop i w = h :: w' -> chain (parent_of h) (h :: w').
Proof.
  revert p i. induction w as [|x w IH]; intros p i; [by rewrite drop_nil|]. destruct i as [|i]; simpl; [|intros (_ & _ & _ & Hw); by apply (IH x)].
  intros (<- & ?) [= <- <-]. done.
Qed.

(** ** The operations of a window that is in memory *)
Context `{Codec unit, CodecLaws Z is_u64, CodecLaws (BlockHash * Z) numbered, CodecLaws (Pruning.PruningRecord BlockHash Key) any}.
Abbreviation RefWindow := (RefWindow BlockHash Key).

(** What is journaled of a canonical block. *)
Definition pruning_record h : PruningRecord :=
  {| pr_hash := h; pr_inserted := b_inserted (block h); pr_deleted := b_deleted (block h) |}.

(** The window [win] has the blocks [w] that follow [p].  Before the first block its base
    is zero. *)
Record mem_window p w (win : RefWindow) : Prop := {
  mw_queue : exists index, queue win = Mem (rows_of w) index /\ index_ok (base win) (rows_of w) index;
  mw_chain : chain p w;
  mw_base : base win = number_of p + 1 \/ (base win = 0 /\ w = []);
  mw_fit : 0 <= base win /\ base win + Z.of_nat (length w) < 2 ^ 64;
}.

Lemma chain_disjoint p w h i row k :
  chain p (w ++ [h]) -> rows_of w !! i = Some row -> k ∈ dr_deleted row -> k ∉ ins h -> k ∉ del h.
Proof.
  intros Hc (x & w' & Hdrop & ->)%rows_of_lookup Hk Hins. simpl in Hk.
  assert (drop i (w ++ [h]) = x :: (w' ++ [h])) as Hdrop'.
  { rewrite drop_app_le, Hdrop; [done|]. assert (i < length w)%nat; [|lia]. apply Nat.nle_gt. intros Hle. by rewrite drop_ge in Hdrop by done. }
  pose proof (chain_drop _ _ _ _ _ Hc Hdrop') as Hcd. destruct (row_gone _ _ _ k Hcd) as [_ Hgone].
  - rewrite ins_all_app. unfold ins_all at 2. simpl. set_solver.
  - apply Hgone. rewrite elem_of_app, list_elem_of_singleton. by right.
Qed.

Lemma import_spec p w win h num index :
  queue win = Mem (rows_of w) index -> index_ok (base win) (rows_of w) index -> chain p (w ++ [h]) ->
  0 <= base win -> base win + Z.of_nat (length w) < 2 ^ 64 ->
  exists index', import (DbError := DbError) (base win) num (pruning_record h) (queue win) = Ok (Mem (rows_of (w ++ [h])) index') /\
    index_ok (base win) (rows_of (w ++ [h])) index'.
Proof.
  intros -> Hix Hc Hb Hfit. unfold import. simpl pr_inserted.
  destruct (reinsert_all_spec (base win) (b_inserted (block h)) _ _ Hix Hb) as (index1 & -> & Hix1). cbn [mbind res_bind].
  change (list_to_set (b_inserted (block h))) with (ins h) in *.
  rewrite length_fmap, length_rows_of, add_u_ok by lia. cbn [mbind res_bind]. eexists. rewrite rows_of_app. split; [done|].
  rewrite <- (length_rows_of w), <- (length_fmap (row_without (ins h)) (rows_of w)).
  apply index_ok_push; [done|done|]. intros i r k Hi Hk. rewrite list_lookup_fmap in Hi.
  destruct (rows_of w !! i) as [row|] eqn:Hrow; [|done]. injection Hi as <-. simpl in *. eapply chain_disjoint; [done|done|set_solver|set_solver].
Qed.

Lemma window_size_mem p w win : mem_window p w win -> window_size (DbError := DbError) win = Ok (Z.of_nat (length w)).
Proof. intros [(index & Hq & _) _ _ _]. unfold window_size. rewrite Hq. simpl. by rewrite length_rows_of. Qed.

(** What [note_canonical] writes: the journal record, and, for the first block, the base. *)
Definition noted (first : bool) h (commit : CommitSet Key) : CommitSet Key :=
  meta_insert (to_pruning_key (number_of h)) (encode (pruning_record h))
    (clear_deleted (if first then meta_insert (to_meta_key LAST_PRUNED tt) (encode (number_of h - 1)) commit else commit)).

Lemma note_canonical_spec p w win h commit :
  mem_window p w win -> parent_of h = default p (last w) -> number_of h = number_of (default p (last w)) + 1 -> changes_ok h ->
  0 <= number_of h -> number_of h + 1 < 2 ^ 64 ->
  (inserted (data commit)).*1 = b_inserted (block h) -> deleted (data commit) = b_deleted (block h) ->
  exists win', note_canonical (DbError := DbError) h (number_of h) commit win =
      (win', Ok (noted ((base win =? 0) && bool_decide (w = []) && (0 <? number_of h)) h commit)) /\
    mem_window p (w ++ [h]) win' /\ base win' = number_of p + 1.
Proof.
  intros Hw Hpar Hnum Hch Hn0 Hn Hins Hdel. pose proof (window_size_mem _ _ _ Hw) as Hsize.
  destruct Hw as [(index & Hq & Hix) Hc Hbase Hfit]. pose proof (chain_app _ _ _ Hc Hpar Hnum Hch) as Hc'.
  assert (number_of h = number_of p + 1 + Z.of_nat (length w)) as Hnh by (apply (chain_numbers p (w ++ [h])); [done|by apply list_lookup_middle]).
  set (first := (base win =? 0) && bool_decide (w = []) && (0 <? number_of h)).
  assert (note_base (DbError := DbError) (number_of h) commit win = (set_base (number_of p + 1) win,
    Ok (if first then meta_insert (to_meta_key LAST_PRUNED tt) (encode (number_of h - 1)) commit else commit))) as Hnote.
  { unfold note_base. rewrite st_get_bind. erewrite st_lift_ok by (unfold window_is_empty; rewrite Hsize; reflexivity).
    assert ((Z.of_nat (length w) =? 0) = bool_decide (w = [])) as -> by (destruct w; done).
    fold first. destruct first eqn:Hf.
    - unfold first in Hf. apply andb_true_iff in Hf as [[_ ->%bool_decide_eq_true]%andb_true_iff Hpos%Z.ltb_lt]. simpl in *.
      rewrite st_modify_bind. erewrite st_lift_ok by (apply sub_u_ok; lia). replace (number_of h) with (number_of p + 1) by lia. done.
    - assert (base win = number_of p + 1) as Hb.
      { destruct Hbase as [?|[Hb ->]]; [done|]. unfold first in Hf. rewrite Hb in Hf. simpl in *. lia. }
      rewrite (st_lift_ok _ _ _ _ Hsize). erewrite st_lift_ok by (apply add_u_ok; lia).
      replace (base win + Z.of_nat (length w) =? number_of h) with true by lia. rewrite <- Hb. by destruct win. }
  unfold note_canonical. rewrite (st_bind_ok _ _ _ _ _ Hnote), st_get_bind. unfold noted.
  set (commit1 := if first then _ else commit). assert (data commit1 = data commit) as Hdata by (unfold commit1; by destruct first).
  rewrite Hdata, Hins, Hdel. assert (is_mem (queue (set_base (number_of p + 1) win)) = true) as -> by (simpl; by rewrite Hq).
  fold (pruning_record h). destruct (import_spec p w (set_base (number_of p + 1) win) h (number_of h) index) as (index' & Himp & Hix').
  - done.
  - destruct Hbase as [<-|[_ ->]]; [done|]. intros k b. rewrite (Hix k b). split; by intros (i & r & ? & _).
  - done.
  - simpl. destruct Hbase as [?|[? ->]]; simpl in *; lia.
  - simpl. lia.
  - erewrite st_lift_ok by exact Himp. rewrite st_modify_bind. eexists. split; [done|]. split; [|done]. split; simpl.
    + eauto.
    + done.
    + by left.
    + rewrite length_app. simpl. destruct Hbase as [?|[? ->]]; simpl in *; lia.
Qed.

Lemma index_unfold (ks : list Key) index k :
  foldl (fun index k => delete k index) index ks !! k = if decide (k ∈ ks) then None else index !! k.
Proof.
  revert index. induction ks as [|k' ks IH]; intros index; cbn [foldl]; [by rewrite decide_False by apply not_elem_of_nil|].
  rewrite IH. destruct (decide (k ∈ ks)) as [Hin|Hin]; [by rewrite decide_True by (by constructor)|].
  destruct (decide (k = k')) as [->|Hne]; [by rewrite lookup_delete_eq, decide_True by constructor|].
  rewrite lookup_delete_ne, decide_False by (done || (intros [?|?]%elem_of_cons; done)). done.
Qed.

Lemma index_ok_pop base row rows index :
  index_ok base (row :: rows) index ->
  index_ok (base + 1) rows (foldl (fun index k => delete k index) index (elements (dr_deleted row))).
Proof.
  intros Hix k b. rewrite index_unfold. case_decide as Hin; rewrite elem_of_elements in Hin.
  - split; [done|]. intros (i & r & Hi & Hk & _). by pose proof (index_unique _ _ _ 0 (S i) _ _ _ Hix eq_refl Hi Hin Hk).
  - rewrite (Hix k b). split.
    + intros ([|i] & r & Hi & Hk & ->); [simpl in Hi; by injection Hi as ->|]. exists i, r. split_and!; try done. lia.
    + intros (i & r & Hi & Hk & ->). exists (S i), r. split_and!; try done. lia.
Qed.

(** What pruning the first block writes. *)
Definition pruned_block (base : Z) h w (commit : CommitSet Key) : CommitSet Key :=
  meta_delete [to_pruning_key base] (meta_insert (to_meta_key LAST_PRUNED tt) (encode base)
    (data_delete (elements (del h ∖ ins_all w)) commit)).

Lemma prune_one_spec p h w win db commit :
  mem_window p (h :: w) win ->
  exists win', prune_one (DbError := DbError) db commit win = (win', Ok (pruned_block (base win) h w commit)) /\
    mem_window h w win' /\ base win' = base win + 1.
Proof.
  intros [(index & Hq & Hix) (Hpar & Hnum & Hch & Hc) Hbase Hfit]. unfold prune_one. simpl in Hfit.
  erewrite st_bind_ok by (unfold pop_row; rewrite Hq; reflexivity). cbv iota beta. rewrite st_get_bind. cbn [base set_queue].
  erewrite st_lift_ok by (apply add_u_ok; lia). rewrite st_modify_bind. eexists. split; [done|]. split; [|done]. split; simpl.
  - eexists. split; [done|]. apply (index_ok_pop _ _ _ _ Hix).
  - done.
  - left. destruct Hbase as [->|[_ ?]]; [lia|done].
  - lia.
Qed.

(** What is written when the blocks [w1] are pruned and [w2] remain. *)
Definition pruned_commit (base : Z) w1 w2 (commit : CommitSet Key) : CommitSet Key :=
  let pruned := seqZ base (Z.of_nat (length w1)) in
  {| data := {| inserted := inserted (data commit); deleted := deleted (data commit) ++ pruned_nodes w1 w2 |};
     meta := {| inserted := inserted (meta commit) ++ ((fun i => (to_meta_key LAST_PRUNED tt, encode i)) <$> pruned);
                deleted := deleted (meta commit) ++ (to_pruning_key <$> pruned) |} |}.

Lemma pruned_commit_nil base w2 commit : pruned_commit base [] w2 commit = commit.
Proof. destruct commit as [[] []]. unfold pruned_commit. simpl. by rewrite !app_nil_r. Qed.

Lemma pruned_commit_cons base h w1 w2 commit :
  pruned_commit (base + 1) w1 w2 (pruned_block base h (w1 ++ w2) commit) = pruned_commit base (h :: w1) w2 commit.
Proof.
  unfold pruned_commit, pruned_block, meta_delete, meta_insert, data_delete. cbn [data meta inserted deleted length pruned_nodes].
  rewrite <- !app_assoc, (seqZ_cons base) by lia. rewrite Nat2Z.inj_succ, Z.pred_succ. done.
Qed.

(** ** The journal *)

(** The metadata [m] has the records of the window, and none after it. *)
Record pruning_journaled (b : Z) w (m : gmap bytes DBValue) : Prop := {
  pj_base : m !! to_meta_key LAST_PRUNED tt = if b =? 0 then None else Some (encode (b - 1));
  pj_entry : forall i h, w !! i = Some h -> m !! to_pruning_key (b + Z.of_nat i) = Some (encode (pruning_record h));
  pj_end : forall n, b + Z.of_nat (length w) <= n < 2 ^ 64 -> m !! to_pruning_key n = None;
}.

(** The changes leave the keys of the window alone. *)
Definition no_window_keys (c : ChangeSet bytes) : Prop :=
  forall k : bytes, k = to_meta_key LAST_PRUNED tt \/ (exists n, k = to_pruning_key n) -> (k ∉ (inserted c).*1) /\ (k ∉ deleted c).

Lemma filter_key_none {V} (k : bytes) (l : list (bytes * V)) : k ∉ l.*1 -> filter (fun '(k', _) => k' = k) l = [].
Proof.
  induction l as [|[k' v] l IH]; intros Hk; [done|]. apply not_elem_of_cons in Hk as [Hne Hk]. rewrite filter_cons_False; [by apply IH|].
  intros ->. by apply Hne.
Qed.

Lemma filter_key_all {V A} (k : bytes) (f : A -> V) (l : list A) : filter (fun '(k', _) => k' = k) ((fun a => (k, f a)) <$> l) = (fun a => (k, f a)) <$> l.
Proof. induction l as [|a l IH]; [done|]. rewrite fmap_cons, filter_cons_True, IH by done. done. Qed.

Lemma filter_key_other {V A} (k k' : bytes) (f : A -> V) (l : list A) : k' <> k -> filter (fun '(k', _) => k' = k) ((fun a => (k', f a)) <$> l) = [].
Proof. intros Hne. induction l as [|a l IH]; [done|]. by rewrite fmap_cons, filter_cons_False, IH. Qed.

Lemma last_seqZ b n : 0 < n -> last (seqZ b n) = Some (b + n - 1).
Proof. intros Hn. rewrite last_lookup, length_seqZ. apply lookup_seqZ. lia. Qed.

Lemma apply_changes_extend (c0 c : ChangeSet bytes) (m : gmap bytes DBValue) e d (k : bytes) :
  inserted c = inserted c0 ++ e -> deleted c = deleted c0 ++ d -> k ∉ e.*1 -> k ∉ d -> apply_changes c m !! k = apply_changes c0 m !! k.
Proof.
  intros Hi Hd He Hk. rewrite !apply_changes_lookup, Hi, Hd, filter_app, (filter_key_none k e He), app_nil_r.
  destruct (decide (k ∈ deleted c0)) as [Hin|Hin]; [by rewrite decide_True by (apply elem_of_app; by left)|].
  rewrite decide_False; [done|]. rewrite elem_of_app. tauto.
Qed.

Section journal.
Context (b : Z) w (m : gmap bytes DBValue) (Hj : pruning_journaled b w m) (h : BlockHash) (c0 : CommitSet Key)
  (Hc0 : no_window_keys (meta c0)) (first : bool) (b' : Z) (w1 w2 : list BlockHash)
  (Hfirst : first = true -> w = [] /\ b = 0 /\ 0 < b') (Hnext : first = false -> b' = b) (Hb : 0 <= b')
  (Hnum : number_of h = b' + Z.of_nat (length w)) (Hfit : number_of h + 1 < 2 ^ 64) (Heq : w ++ [h] = w1 ++ w2).

Let c : CommitSet Key := pruned_commit b' w1 w2 (noted first h c0).

Lemma window_length : (length w1 + length w2 = S (length w))%nat.
Proof. apply (f_equal length) in Heq. rewrite !length_app in Heq. simpl in Heq. lia. Qed.

Abbreviation last_pruned := (to_meta_key LAST_PRUNED tt).

Lemma journal_inserted : inserted (meta c) = inserted (meta c0) ++ (if first then [(last_pruned, encode (b' - 1))] else []) ++
  (to_pruning_key (number_of h), encode (pruning_record h)) :: ((fun i => (last_pruned, encode i)) <$> seqZ b' (Z.of_nat (length w1))).
Proof.
  unfold c. destruct first; [destruct (Hfirst eq_refl) as (-> & _); simpl in Hnum|]; cbn; rewrite <- ?app_assoc; cbn; [|done].
  by replace (number_of h - 1) with (b' - 1) by lia.
Qed.

Lemma journal_deleted : deleted (meta c) = deleted (meta c0) ++ (to_pruning_key <$> seqZ b' (Z.of_nat (length w1))).
Proof. unfold c. by destruct first. Qed.

Lemma journal_other (k : bytes) :
  k <> last_pruned -> (forall n, k <> to_pruning_key n) -> apply_changes (meta c) m !! k = apply_changes (meta c0) m !! k.
Proof.
  intros Hl Hp. eapply apply_changes_extend; [apply journal_inserted|apply journal_deleted|..].
  - intros ([k' v] & Hk & Hin)%list_elem_of_fmap. simpl in Hk. subst k'.
    apply elem_of_app in Hin as [Hin|[Heq'|(n & Heq' & _)%list_elem_of_fmap]%elem_of_cons]; [|by injection Heq' as -> _; apply (Hp (number_of h))|by injection Heq'].
    destruct first; [|by apply elem_of_nil in Hin]. apply list_elem_of_singleton in Hin. by injection Hin.
  - intros (n & -> & _)%list_elem_of_fmap. by apply (Hp n).
Qed.

Lemma journal_base : apply_changes (meta c) m !! last_pruned =
  if b' + Z.of_nat (length w1) =? 0 then None else Some (encode (b' + Z.of_nat (length w1) - 1)).
Proof.
  destruct (Hc0 last_pruned) as [Hci Hcd]; [by left|]. pose proof (pj_base _ _ _ Hj) as Hbase.
  rewrite apply_changes_lookup, journal_inserted, journal_deleted. rewrite decide_False.
  2:{ rewrite elem_of_app, list_elem_of_fmap. intros [?|(n & Hn & _)]; [done|]. by apply last_pruned_not_pruning in Hn. }
  rewrite !filter_app, filter_cons_False by (intros Hk; symmetry in Hk; by apply last_pruned_not_pruning in Hk).
  rewrite filter_key_all, filter_key_none by done. simpl.
  destruct (decide (w1 = [])) as [->|Hw1].
  - simpl. rewrite Z.add_0_r, app_nil_r. destruct first.
    + destruct (Hfirst eq_refl) as (_ & _ & ?). replace (b' =? 0) with false by lia. by rewrite filter_cons_True.
    + rewrite (Hnext eq_refl). done.
  - assert (0 < Z.of_nat (length w1)) as Hlen by (destruct w1; [done|simpl; lia]). rewrite last_app, fmap_last, last_seqZ by done. simpl.
    by replace (b' + Z.of_nat (length w1) =? 0) with false by lia.
Qed.

Lemma journal_entry n : is_u64 n -> apply_changes (meta c) m !! to_pruning_key n =
  if decide (b' <= n < b' + Z.of_nat (length w1)) then None
  else if decide (n = number_of h) then Some (encode (pruning_record h)) else m !! to_pruning_key n.
Proof.
  intros Hn. destruct (Hc0 (to_pruning_key n)) as [Hci Hcd]; [by right; exists n|]. pose proof window_length as Hlen.
  assert (forall n', is_u64 n' -> to_pruning_key n = to_pruning_key n' -> n = n') as Hinj by (intros n' Hn' Hk; by apply meta_key_inj in Hk).
  rewrite apply_changes_lookup, journal_inserted, journal_deleted. case_decide as Hin.
  - rewrite elem_of_app, list_elem_of_fmap in Hin. destruct Hin as [?|(n' & Hk & Hn'%elem_of_seqZ)]; [done|].
    apply Hinj in Hk as <-; [by rewrite decide_True by lia|]. unfold is_u64. lia.
  - rewrite (decide_False (P := b' <= n < _)).
    2:{ intros Hr. apply Hin. rewrite elem_of_app, list_elem_of_fmap. right. exists n. by rewrite elem_of_seqZ. }
    rewrite !filter_app, filter_key_none by done.
    assert (filter (fun '(k', _) => k' = to_pruning_key n) (if first then [(last_pruned, encode (b' - 1))] else []) = []) as ->.
    { destruct first; [|done]. rewrite filter_cons_False; [done|apply last_pruned_not_pruning]. }
    rewrite filter_cons, (filter_key_other (to_pruning_key n) last_pruned) by apply last_pruned_not_pruning. cbn [app]. case_decide as Hk.
    + symmetry in Hk. apply Hinj in Hk as ->; [by rewrite decide_True by done|]. unfold is_u64. lia.
    + rewrite decide_False; [done|]. by intros ->.
Qed.

Lemma journal_window : pruning_journaled (b' + Z.of_nat (length w1)) w2 (apply_changes (meta c) m).
Proof.
  pose proof window_length as Hlen. split; [apply journal_base|..].
  - intros i x Hi. assert ((w ++ [h]) !! (length w1 + i)%nat = Some x) as Hx by (by rewrite Heq, lookup_app_r, Nat.add_comm, Nat.add_sub by lia).
    pose proof (lookup_lt_Some _ _ _ Hi). rewrite journal_entry by (unfold is_u64; lia). rewrite decide_False by lia.
    apply lookup_snoc_Some in Hx as [[Hlt Hx]|[Hlast <-]].
    + rewrite decide_False by lia. destruct first; [destruct (Hfirst eq_refl) as (-> & _); done|]. rewrite (Hnext eq_refl).
      rewrite <- (pj_entry _ _ _ Hj _ _ Hx). f_equal. f_equal. lia.
    + rewrite decide_True by lia. done.
  - intros n Hn. rewrite journal_entry by (unfold is_u64; lia). rewrite !decide_False by lia.
    apply (pj_end _ _ _ Hj). destruct first; [destruct (Hfirst eq_refl) as (-> & -> & _); simpl in *; lia|]. rewrite (Hnext eq_refl) in *. lia.
Qed.
End journal.

(** ** Restart *)
Section restart.
Context (m : gmap bytes DBValue) (db : MetaDb DbError) (Hdb : forall k : bytes, db k = Ok (m !! k)).

Lemma read_records_spec p b w0 w1 index fuel :
  pruning_journaled b (w0 ++ w1) m -> index_ok b (rows_of w0) index -> chain p (w0 ++ w1) ->
  0 <= b -> b + Z.of_nat (length (w0 ++ w1)) < 2 ^ 64 -> (length w1 < fuel)%nat ->
  exists index', read_records db fuel b (b + Z.of_nat (length w0)) (Mem (rows_of w0) index) = Some (Ok (Mem (rows_of (w0 ++ w1)) index')) /\
    index_ok b (rows_of (w0 ++ w1)) index'.
Proof.
  revert w0 index fuel. induction w1 as [|h w1 IH]; intros w0 index fuel Hj Hix Hc Hb Hfit Hfuel; destruct fuel as [|fuel]; try (simpl in Hfuel; lia).
  - rewrite app_nil_r in *. cbn [read_records]. rewrite Hdb, (pj_end _ _ _ Hj) by lia. exists index. done.
  - simpl in Hfuel. rewrite !length_app in Hfit. simpl in Hfit. cbn [read_records].
    rewrite Hdb, (pj_entry _ _ _ Hj (length w0) h) by (by apply list_lookup_middle). cbn [map_err mbind res_bind].
    unfold decode_res. rewrite decode_encode by done. cbn [ok_or mbind res_bind].
    replace (w0 ++ h :: w1) with ((w0 ++ [h]) ++ w1) in * by (by rewrite <- app_assoc).
    destruct (import_spec p w0 {| queue := Mem (rows_of w0) index; base := b |} h (b + Z.of_nat (length w0)) index) as (index' & Himp & Hix');
      [done|done| |done|simpl; lia|].
    { clear -Hc. revert p Hc. induction w0 as [|x w0 IH]; intros p; [by intros (? & ? & ? & _)|]. intros (? & ? & ? & Hc).
      cbn. split_and!; try done. by apply IH. }
    cbn [base queue] in Himp. rewrite Himp. cbn [mbind res_bind]. rewrite add_u_ok by lia. cbn [mbind res_bind].
    replace (b + Z.of_nat (length w0) + 1) with (b + Z.of_nat (length (w0 ++ [h]))) by (rewrite length_app; simpl; lia).
    apply IH; [done..| |lia]. rewrite !length_app. simpl. lia.
Qed.

Lemma new_window_spec p w win last fuel size :
  mem_window p w win -> pruning_journaled (base win) w m ->
  m !! to_meta_key LAST_CANONICAL tt = encode <$> last -> (forall l, last = Some l -> numbered l) -> (length w < fuel)%nat ->
  new_window (BlockHash := BlockHash) db fuel size true = Some (Ok win).
Proof.
  intros [(index & Hq & Hix) Hc Hbase Hfit] Hj Hlast Hval Hfuel. unfold new_window, read_base, read_last_number.
  rewrite !Hdb, (pj_base _ _ _ Hj), Hlast. cbn [map_err mbind res_bind].
  assert ((match (if base win =? 0 then None else Some (encode (base win - 1))) with
           | Some buffer => n ← decode_res Z buffer; add_u 64 n 1 | None => Ok 0 end) = @Ok (Error DbError) _ (base win)) as ->.
  { destruct (base win =? 0) eqn:Hz; [apply Z.eqb_eq in Hz; by rewrite Hz|]. unfold decode_res. rewrite decode_encode by (unfold is_u64; lia).
    cbn. rewrite add_u_ok by lia. f_equal. lia. }
  cbn [mbind res_bind].
  assert ((match encode <$> last with Some buffer => l ← decode_res (BlockHash * Z) buffer; Ok (Some l.2) | None => Ok None end)
    = @Ok (Error DbError) _ (snd <$> last)) as ->.
  { destruct last as [l|]; [|done]. cbn. unfold decode_res. by rewrite decode_encode by (by apply Hval). }
  cbn [mbind res_bind]. unfold new_mem.
  destruct (read_records_spec p (base win) [] w ∅ fuel Hj) as (index' & Hrun & Hix').
  - intros k b. split; [done|]. by intros (i & r & ? & _).
  - done.
  - lia.
  - simpl; lia.
  - done.
  - simpl in Hrun. rewrite Z.add_0_r in Hrun. rewrite Hrun. cbn. rewrite (index_determined _ _ _ _ Hix' Hix), <- Hq. by destruct win.
Qed.
End restart.

(** More fuel does not change what is read. *)
Lemma read_records_fuel (db : MetaDb DbError) fuel extra b n (q : DeathRowQueue BlockHash Key) r :
  read_records db fuel b n q = Some r -> read_records db (fuel + extra) b n q = Some r.
Proof.
  revert n q. induction fuel as [|fuel IH]; intros n q; [done|]. cbn [read_records Nat.add].
  destruct (_ ≫= _) as [[[q' next]|]|e|]; [apply IH|done..].
Qed.

Lemma new_window_fuel (db : MetaDb DbError) fuel extra size rc r :
  new_window (BlockHash := BlockHash) (Key := Key) db fuel size rc = Some r ->
  new_window (BlockHash := BlockHash) (Key := Key) db (fuel + extra) size rc = Some r.
Proof.
  unfold new_window. destruct (_ ≫= _) as [[b last]|e|]; [|done..]. destruct rc; [|done].
  intros (r' & Hr & ->)%fmap_Some. unfold new_mem in *. by rewrite (read_records_fuel _ _ _ _ _ _ _ Hr).
Qed.
End facts.
