(* ===== verification/StateDb.v ===== *)
(** * The state database

    [lib.rs] of [client/state-db]: [StateDbSync] puts the overlay of non-canonical blocks
    and the pruning window together, [open] and [reset] read both back from the
    database.  The [RwLock] of [StateDb] makes each operation one step.

    An operation takes the database it reads from as the argument [db].  The operations
    that change the database return a [CommitSet] for the caller to write. *)
From stdpp Require Import base gmap list.
From Stdlib Require Import ZArith Lia.
From S2P Require Import Prelude StateDbBase NonCanonical Pruning.
Set Warnings "-clear-no-such-hyp".
Open Scope Z_scope.

Inductive LastCanonicalized := LastNone | LastBlock (number : Z) | NotCanonicalizing.

Inductive IsPruned := Pruned | NotPruned | MaybePruned.

Record StateDbSync (BlockHash Key : Type) `{Countable BlockHash, Countable Key} := {
  mode : PruningMode;
  non_canonical : NonCanonicalOverlay BlockHash Key;
  pruning : option (RefWindow BlockHash Key);
  pins : gmap BlockHash Z;
  ref_counting : bool;
}.
Arguments mode {BlockHash Key _ _ _ _} _.
Arguments non_canonical {BlockHash Key _ _ _ _} _.
Arguments pruning {BlockHash Key _ _ _ _} _.
Arguments pins {BlockHash Key _ _ _ _} _.
Arguments ref_counting {BlockHash Key _ _ _ _} _.

Definition choose_pruning_mode (stored requested : PruningMode) : res StateDbError PruningMode :=
  match stored, requested with
  | ArchiveAll, ArchiveAll => Ok ArchiveAll
  | ArchiveCanonical, ArchiveCanonical => Ok ArchiveCanonical
  | Constrained _, Constrained requested => Ok (Constrained requested)
  | stored, requested => Err (IncompatiblePruningModes stored requested)
  end.

Module Sdb.
Section state_db.
Context {BlockHash Key : Type} `{Countable BlockHash} `{Countable Key}.
Context `{Codec unit, Codec Z, Codec (BlockHash * Z), Codec (Z * Z), Codec (JournalRecord BlockHash Key), Codec (PruningRecord BlockHash Key)}.
Context {DbError : Type}.

Abbreviation StateDbSync := (StateDbSync BlockHash Key).
Abbreviation NonCanonicalOverlay := (NonCanonicalOverlay BlockHash Key).
Abbreviation RefWindow := (RefWindow BlockHash Key).
Abbreviation R := (res (Error DbError)).
Abbreviation SDB := (ST StateDbSync (Error DbError)).

Definition set_non_canonical (nc : NonCanonicalOverlay) (self : StateDbSync) : StateDbSync :=
  {| mode := mode self; non_canonical := nc; pruning := pruning self; pins := pins self; ref_counting := ref_counting self |}.
Definition set_pruning (w : RefWindow) (self : StateDbSync) : StateDbSync :=
  {| mode := mode self; non_canonical := non_canonical self; pruning := Some w; pins := pins self; ref_counting := ref_counting self |}.
Definition set_pins (p : gmap BlockHash Z) (self : StateDbSync) : StateDbSync :=
  {| mode := mode self; non_canonical := non_canonical self; pruning := pruning self; pins := p; ref_counting := ref_counting self |}.

(** A method call on the overlay: [self.non_canonical.op(..)]. *)
Definition overlay {E A} (op : ST NonCanonicalOverlay E A) : ST StateDbSync E A := fun self =>
  let '(nc, r) := op (non_canonical self) in (set_non_canonical nc self, r).

(** A method call on the window that [if let Some(ref mut pruning)] has found. *)
Definition window {A} (w : RefWindow) (op : ST RefWindow (Error DbError) A) : SDB A := fun self =>
  let '(w', r) := op w in (set_pruning w' self, r).

(** [NonCanonicalOverlay::new] and [RefWindow::new] both loop over journals: [fuel]
    bounds their rounds. *)
Definition new (db : MetaDb DbError) (fuel : nat) (m : PruningMode) (ref_counting : bool) : option (R StateDbSync) :=
  match NonCanonical.new db fuel with
  | None => None
  | Some (Ok nc) =>
      let with_window w := {| mode := m; non_canonical := nc; pruning := w; pins := ∅; ref_counting := ref_counting |} in
      match m with
      | Constrained c => (fun r => w ← r; Ok (with_window (Some w))) <$> new_window db fuel (default 0 (max_blocks c)) ref_counting
      | ArchiveAll | ArchiveCanonical => Some (Ok (with_window None))
      end
  | Some (Err e) => Some (Err e)
  | Some Panic => Some Panic
  end.

Definition insert_block (hash : BlockHash) (number : Z) (parent_hash : BlockHash) (changeset : ChangeSet Key) : SDB (CommitSet Key) :=
  self ← st_get;
  match mode self with
  | ArchiveAll => mret {| data := {| inserted := inserted changeset; deleted := [] |}; meta := empty_changeset |}
  | Constrained _ | ArchiveCanonical => st_map_err StateDb (overlay (insert hash number parent_hash changeset))
  end.

(** The [loop] of [prune].  [None] is a loop that has not ended after [fuel] rounds. *)
Fixpoint prune_loop (db : MetaDb DbError) (fuel : nat) (limit : Z) (pinned : gmap BlockHash Z) (commit : CommitSet Key)
    (w : RefWindow) : option (RefWindow * R (CommitSet Key)) :=
  match fuel with
  | O => None
  | S fuel' =>
      match window_size w with
      | Err e => Some (w, Err e)
      | Panic => Some (w, Panic)
      | Ok size =>
          if size <=? limit then Some (w, Ok commit)
          else match next_hash db w with
               | (w, Err (StateDb BlockUnavailable)) => Some (w, Ok commit)
               | (w, Err e) => Some (w, Err e)
               | (w, Panic) => Some (w, Panic)
               | (w, Ok h) =>
                   if match h with Some h => bool_decide (is_Some (pinned !! h)) | None => false end then Some (w, Ok commit)
                   else match prune_one db commit w with
                        | (w, Err (StateDb BlockUnavailable)) => Some (w, Ok commit)
                        | (w, Err e) => Some (w, Err e)
                        | (w, Panic) => Some (w, Panic)
                        | (w, Ok commit) => prune_loop db fuel' limit pinned commit w
                        end
               end
      end
  end.

(** A round that goes on takes a block from the window, whose size is the fuel. *)
Definition prune_fuel (w : RefWindow) : nat :=
  match window_size (DbError := DbError) w with Ok size => S (Z.to_nat size) | _ => 1 end.

Definition prune (db : MetaDb DbError) (commit : CommitSet Key) : SDB (CommitSet Key) := fun self =>
  match pruning self, mode self with
  | Some w, Constrained c =>
      match prune_loop db (prune_fuel w) (default 0 (max_blocks c)) (pins self) commit w with
      | Some (w, r) => (set_pruning w self, r)
      | None => (self, Panic)
      end
  | _, _ => (self, Ok commit)
  end.

Definition canonicalize_block (db : MetaDb DbError) (hash : BlockHash) : SDB (CommitSet Key) :=
  self ← st_get;
  if bool_decide (mode self = ArchiveAll) then mret empty_commit else
  '(commit, number) ← st_map_err StateDb (overlay (canonicalize hash empty_commit));
  let commit := if bool_decide (mode self = ArchiveCanonical) then clear_deleted commit else commit in
  self ← st_get;
  commit ← match pruning self with
           | Some w => window w (note_canonical hash number commit)
           | None => mret commit
           end;
  prune db commit.

(** The block number of the last canonicalized block. *)
Definition last_canonicalized (self : StateDbSync) : LastCanonicalized :=
  if bool_decide (mode self = ArchiveAll) then NotCanonicalizing
  else match last_canonicalized_block_number (non_canonical self) with Some n => LastBlock n | None => LastNone end.

Definition is_pruned (hash : BlockHash) (number : Z) (self : StateDbSync) : R IsPruned :=
  match mode self with
  | ArchiveAll => Ok NotPruned
  | ArchiveCanonical | Constrained _ =>
      if match last_canonicalized_block_number (non_canonical self) with Some c => c <? number | None => true end
      then Ok (if have_block (non_canonical self) hash then NotPruned else Pruned)
      else match pruning self with
           | None => Ok MaybePruned
           | Some w =>
               have ← window_have_block hash number w;
               Ok (match have with HaveNo => Pruned | HaveYes => NotPruned | HaveMaybe => MaybePruned end)
           end
  end.

Definition revert_one : SDB (option (CommitSet Key)) :=
  self ← st_get;
  match mode self with
  | ArchiveAll => mret (Some empty_commit)
  | ArchiveCanonical | Constrained _ => overlay NonCanonical.revert_one
  end.

Definition remove (hash : BlockHash) : SDB (option (CommitSet Key)) :=
  self ← st_get;
  match mode self with
  | ArchiveAll => mret (Some empty_commit)
  | ArchiveCanonical | Constrained _ => overlay (NonCanonical.remove hash)
  end.

(** Whether [pin] finds the block; [hint] is what the caller's closure answers. *)
Definition pin_have_block (hash : BlockHash) (number : Z) (hint : bool) (self : StateDbSync) : R bool :=
  if have_block (non_canonical self) hash then Ok true
  else match pruning self with
       | None => Ok hint
       | Some w =>
           have ← window_have_block hash number w;
           Ok (match have with HaveNo => false | HaveYes => true | HaveMaybe => hint end)
       end.

(** The result is a value: [Err] of the source is [Some PinInvalidBlock]. *)
Definition pin (hash : BlockHash) (number : Z) (hint : bool) : SDB (option PinError) :=
  self ← st_get;
  match mode self with
  | ArchiveAll => mret None
  | ArchiveCanonical | Constrained _ =>
      have ← st_lift (pin_have_block hash number hint self);
      if have : bool then
        let refs := default 0 (pins self !! hash) in
        _ ← (if refs =? 0 then overlay (NonCanonical.pin hash) else mret tt);
        refs ← st_lift (add_u 32 refs 1);
        st_modify (fun self => set_pins (<[hash := refs]> (pins self)) self);;
        mret None
      else mret (Some PinInvalidBlock)
  end.

Definition unpin (hash : BlockHash) : SDB unit :=
  self ← st_get;
  match pins self !! hash with
  | Some refs =>
      refs ← st_lift (sub_u refs 1);
      if refs =? 0 then
        st_modify (fun self => set_pins (delete hash (pins self)) self);;
        overlay (NonCanonical.unpin hash)
      else st_modify (fun self => set_pins (<[hash := refs]> (pins self)) self)
  | None => mret tt
  end.

Definition sync : SDB unit := overlay NonCanonical.sync.

(** Get a value from the overlay or the backing database. *)
Definition get {E} (db : NodeDb E Key) (key : Key) (self : StateDbSync) : res (Error E) (option DBValue) :=
  match NonCanonical.get (non_canonical self) key with
  | Some value => Ok (Some value)
  | None => map_err Db (db key)
  end.

(** ** Opening *)
Definition fetch_stored_pruning_mode (db : MetaDb DbError) : R (option PruningMode) :=
  found ← map_err Db (db (to_meta_key PRUNING_MODE tt));
  match found with
  | Some stored_mode => m ← ok_or (StateDb Metadata) (from_id stored_mode); Ok (Some m)
  | None => Ok None
  end.

Definition select_mode (should_init : bool) (stored_mode requested_mode : option PruningMode) : R PruningMode :=
  match should_init, stored_mode, requested_mode with
  | true, None, requested_mode => Ok (default default_mode requested_mode)
  | true, Some _, _ => Panic
  | false, None, _ => Err (StateDb Metadata)
  | false, Some stored, None => Ok stored
  | false, Some stored, Some requested => map_err StateDb (choose_pruning_mode stored requested)
  end.

Definition open (db : MetaDb DbError) (fuel : nat) (requested_mode : option PruningMode) (ref_counting should_init : bool) :
    option (R (CommitSet Key * StateDbSync)) :=
  match (stored_mode ← fetch_stored_pruning_mode db; select_mode should_init stored_mode requested_mode) with
  | Ok selected_mode =>
      let init := if should_init then meta_insert (to_meta_key PRUNING_MODE tt) (mode_id selected_mode) empty_commit else empty_commit in
      (fun r => sdb ← r; Ok (init, sdb)) <$> new db fuel selected_mode ref_counting
  | Err e => Some (Err e)
  | Panic => Some Panic
  end.

(** Reset in-memory changes to the last disk-backed state. *)
Definition reset (db : MetaDb DbError) (fuel : nat) (self : StateDbSync) : option (StateDbSync * R unit) :=
  (fun r => match r with Ok sdb => (sdb, Ok tt) | Err e => (self, Err e) | Panic => (self, Panic) end)
    <$> new db fuel (mode self) (ref_counting self).
End state_db.
End Sdb.
