(* ===== verification/StateDbInv.v ===== *)
(** * The state database: what its operations preserve

    The blocks [w] after [p] are the canonical blocks that are not pruned.  [good] says
    what the overlay, the window and the database have to do with each other; each
    operation keeps it when its changes are written. *)
From stdpp Require Import base gmap list.
From Stdlib Require Import ZArith Lia.
From S2P Require Import Prelude StateDbBase NonCanonical NonCanonicalFacts NonCanonicalInv Canonicalize.
From S2P Require Import NonCanonicalRestore Pruning PruningFacts StateDb.
Set Warnings "-clear-no-such-hyp".
Open Scope Z_scope.

Section state_db.
Context {BlockHash Key : Type} `{Countable BlockHash} `{Countable Key}.
Context `{Codec unit, CodecLaws Z is_u64, CodecLaws (BlockHash * Z) numbered, CodecLaws (Z * Z) pair_u64,
  CodecLaws (JournalRecord BlockHash Key) any, CodecLaws (PruningRecord BlockHash Key) any}.
Context (block : BlockHash -> Block BlockHash Key) (value_of : Key -> DBValue) (state : BlockHash -> gset Key).
Context {DbError : Type}.

Abbreviation StateDbSync := (StateDbSync BlockHash Key).
Abbreviation RefWindow := (RefWindow BlockHash Key).
Abbreviation NonCanonicalOverlay := (NonCanonicalOverlay BlockHash Key).
Abbreviation number_of := (number_of block).
Abbreviation parent_of := (parent_of block).
Abbreviation inv := (inv block value_of).
Abbreviation mem_window := (mem_window block state).
Abbreviation chain := (chain block state).
Abbreviation changes_ok := (changes_ok block state).
Abbreviation held := (held block state).
Abbreviation ins := (ins block).
Abbreviation R := (res (Error DbError)).
Implicit Types (h p x a : BlockHash) (w : list BlockHash) (win : RefWindow) (C : gset BlockHash) (t : StateDbSync)
  (commit : CommitSet Key) (db : MetaDb DbError).

(** ** The pruning loop *)

(** The loop stops: at the limit, or at a pinned block. *)
Definition prune_done (limit : Z) (pinned : gmap BlockHash Z) w : Prop :=
  Z.of_nat (length w) <= limit \/ exists x, head w = Some x /\ is_Some (pinned !! x).

Lemma prune_window_spec db fuel limit (pinned : gmap BlockHash Z) p w win commit :
  0 <= limit -> mem_window p w win -> (length w < fuel)%nat ->
  exists w1 w2 win', w = w1 ++ w2 /\
    Sdb.prune_loop db fuel limit pinned commit win = Some (win', Ok (pruned_commit block (base win) w1 w2 commit)) /\
    mem_window (default p (last w1)) w2 win' /\ base win' = base win + Z.of_nat (length w1) /\
    (forall x, x ∈ w1 -> pinned !! x = None) /\ prune_done limit pinned w2 /\
    (w1 <> [] -> limit <= Z.of_nat (length w2)).
Proof.
  intros H0lim. revert p w win commit. induction fuel as [|fuel IH]; intros p w win commit Hw Hfuel; [lia|]. cbn [Sdb.prune_loop].
  rewrite (window_size_mem _ _ _ _ _ Hw). destruct (Z.of_nat (length w) <=? limit) eqn:Hlim.
  { exists [], w, win. rewrite pruned_commit_nil, Z.add_0_r. split_and!; try done; [by intros x ?%elem_of_nil|left; lia]. }
  apply Z.leb_gt in Hlim. destruct w as [|h w]; [simpl in Hlim; lia|]. pose proof (mw_queue _ _ _ _ _ Hw) as (index & Hq & _).
  assert (next_hash db win = (win, Ok (Some h))) as -> by (unfold next_hash; by rewrite Hq). simpl in Hlim, Hfuel.
  case_bool_decide as Hpin.
  { exists [], (h :: w), win. rewrite pruned_commit_nil, Z.add_0_r. split_and!; try done; [by intros x ?%elem_of_nil|right; by exists h]. }
  destruct (prune_one_spec (DbError := DbError) _ _ _ _ _ _ db commit Hw) as (win1 & -> & Hw1 & Hb1).
  destruct (IH h w win1 (pruned_block block (base win) h w commit) Hw1) as (w1 & w2 & win' & -> & -> & Hw' & Hb' & Hnp & Hdone & Hmin); [lia|].
  exists (h :: w1), w2, win'. rewrite default_last_cons, Hb1, pruned_commit_cons. split_and!; try done.
  - rewrite Hb', Hb1. simpl. lia.
  - intros x [->|Hx]%elem_of_cons; [by apply eq_None_not_Some|by apply Hnp].
  - intros _. destruct w1 as [|y w1]; [simpl in *; lia|]. by apply Hmin.
Qed.

(** ** The invariant *)

(** The window of [t] and its journal in [m].  An archive has none. *)
Definition window_good p w t (m : gmap bytes DBValue) : Prop :=
  match mode t with
  | Constrained c => 0 <= default 0 (max_blocks c) /\
      exists win, pruning t = Some win /\ mem_window p w win /\ pruning_journaled block (base win) w m
  | ArchiveCanonical => pruning t = None /\ chain p w
  | ArchiveAll => False
  end.

(** Numbers and counters of references stay below their bounds. *)
Definition fits (s : NonCanonicalOverlay) : Prop :=
  front s + 1 < 2 ^ 64 /\ (forall x, x ∈ hashes (levels s) -> number_of x + 2 < 2 ^ 64) /\
  (forall k, need block (hashes (levels s) ++ pi_keys (pinned_insertions s)) k < 2 ^ 32).

(** With blocks gone, or kept for a pin, they still do. *)
Lemma fits_sub C C' s s' :
  inv C s -> inv C' s' -> front s' + 1 < 2 ^ 64 -> (forall x, x ∈ hashes (levels s') -> x ∈ hashes (levels s)) ->
  (forall x, is_Some (pinned_insertions s' !! x) -> x ∈ hashes (levels s) \/ is_Some (pinned_insertions s !! x)) -> fits s -> fits s'.
Proof.
  intros Hi Hi' Hf Hh HPI (_ & Hr & Hn). split_and!; [done|by intros x Hx%Hh; apply Hr|]. intros k. eapply Z.le_lt_trans; [|apply (Hn k)].
  assert (hashes (levels s') ++ pi_keys (pinned_insertions s') ⊆+ hashes (levels s) ++ pi_keys (pinned_insertions s)) as Hsub.
  { apply NoDup_submseteq.
    - apply NoDup_app. split_and!; [exact (pre_nodup _ _ _ _ _ _ (i_pre _ _ _ _ Hi'))| |apply NoDup_fst_map_to_list].
      intros x Hx [? Hp]%elem_of_pi_keys. pose proof (pre_pi _ _ _ _ _ _ (i_pre _ _ _ _ Hi') x Hx) as Hno. simpl in Hno. by rewrite Hno in Hp.
    - intros x. rewrite !elem_of_app, !elem_of_pi_keys. intros [Hx|Hx]; [left; by apply Hh|by apply HPI]. }
  destruct (submseteq_Permutation _ _ Hsub) as [rest Hp]. rewrite (need_proper block _ _ Hp k k eq_refl). unfold need at 2. rewrite fmap_app, sum_Z_app.
  pose proof (need_nonneg block rest k). unfold need in *. lia.
Qed.

(** [origin] is the block whose state the database has before the first block. *)
Context (origin : BlockHash).

Record good C p w t (m : Store Key) : Prop := {
  g_inv : inv C (non_canonical t);
  g_journal : journaled block value_of (non_canonical t) (metas m);
  g_window : window_good p w t (metas m);
  g_last : forall h n, last_canonicalized (non_canonical t) = Some (h, n) -> default p (last w) = h;
  g_none : last_canonicalized (non_canonical t) = None -> p = origin /\ w = [];
  g_root : forall l b, levels (non_canonical t) !! O = Some l -> b ∈ blocks l -> parent_of (bo_hash b) = default p (last w);
  g_nodes : holds value_of (nodes m) (held p w);
  g_changes : forall x, x ∈ hashes (levels (non_canonical t)) \/ is_Some (pinned_insertions (non_canonical t) !! x) -> changes_ok x;
  g_fits : fits (non_canonical t);
}.

Lemma window_chain p w t m : window_good p w t m -> chain p w.
Proof. unfold window_good. destruct (mode t); [intros (_ & win & _ & Hw & _); apply (mw_chain _ _ _ _ _ Hw)|done|by intros [_ ?]]. Qed.

(** ** Inserting a block *)

(** The changes do not touch what the window keeps in the metadata. *)
Lemma window_good_ext p w t t' m c :
  mode t' = mode t -> pruning t' = pruning t -> no_window_keys c -> window_good p w t m -> window_good p w t' (apply_changes c m).
Proof.
  intros Hm Hp Hc. unfold window_good. rewrite Hm, Hp. destruct (mode t); [|done..]. intros (? & win & ? & ? & Hj). split; [done|]. exists win. split_and!; try done.
  assert (forall k : bytes, k = to_meta_key LAST_PRUNED tt \/ (exists n, k = to_pruning_key n) -> apply_changes c m !! k = m !! k) as Hk.
  { intros k Hk%Hc. destruct Hk as [Hi Hd]. rewrite apply_changes_lookup, decide_False, filter_key_none by done. done. }
  destruct Hj as [Hb He Hend]. split.
  - rewrite Hk; [done|by left].
  - intros i h Hi. rewrite Hk; [by apply He|right; eauto].
  - intros n Hn. rewrite Hk; [by apply Hend|right; eauto].
Qed.

(** The overlay writes only the last canonical block and its journal. *)
Definition overlay_keys (c : ChangeSet bytes) : Prop :=
  forall k : bytes, k ∈ (inserted c).*1 \/ k ∈ deleted c -> k = to_meta_key LAST_CANONICAL tt \/ exists n i, k = to_journal_key n i.

Lemma overlay_no_window c : overlay_keys c -> no_window_keys c.
Proof.
  intros Hc k Hk. assert (~ (k ∈ (inserted c).*1 \/ k ∈ deleted c)) as Hno; [|split; intros Hin; by apply Hno; auto].
  intros Ho%Hc. destruct Hk as [->|[n ->]], Ho as [Heq|(n' & i' & Heq)].
  - by apply last_pruned_not_canonical in Heq.
  - by apply last_pruned_not_journal in Heq.
  - symmetry in Heq. by apply last_canonical_not_pruning in Heq.
  - by apply pruning_not_journal in Heq.
Qed.

Lemma overlay_eq {E A} (op : ST NonCanonicalOverlay E A) t nc' r :
  op (non_canonical t) = (nc', r) -> Sdb.overlay op t = (Sdb.set_non_canonical nc' t, r).
Proof. unfold Sdb.overlay. by intros ->. Qed.

Lemma set_same t : Sdb.set_non_canonical (non_canonical t) t = t.
Proof. by destruct t. Qed.

(** An overlay whose first level is known: by its last canonical block, or by [g_root]. *)
Lemma root_from_last C s p w :
  inv C s -> (forall h n, last_canonicalized s = Some (h, n) -> default p (last w) = h) ->
  (last_canonicalized s = None -> forall l b, levels s !! O = Some l -> b ∈ blocks l -> parent_of (bo_hash b) = default p (last w)) ->
  forall l b, levels s !! O = Some l -> b ∈ blocks l -> parent_of (bo_hash b) = default p (last w).
Proof.
  intros Hi Hlast Hnone l b Hl Hb. destruct (last_canonicalized s) as [[h n]|] eqn:Hls; [|by eapply Hnone].
  destruct (i_root _ _ _ _ Hi) as (p0 & Hroot & Hp0). rewrite (Hroot l b Hl Hb), (Hp0 h n Hls). symmetry. by eapply Hlast.
Qed.

Lemma insert_commit_keys (s : NonCanonicalOverlay) number parent key v :
  (exists n i, key = to_journal_key n i) -> overlay_keys (meta (meta_insert key v (assume_commit (Key := Key) s number parent))).
Proof.
  intros Hkey k. unfold assume_commit. destruct (last_canonicalized s) as [[? ?]|]; [|destruct (_ && _)]; simpl;
    rewrite ?elem_of_cons, ?elem_of_nil; naive_solver.
Qed.

Lemma insert_block_spec C p w t m hash number parent cs :
  good C p w t m -> insert_pre block value_of (non_canonical t) hash number parent cs -> changes_ok hash ->
  (last_canonicalized (non_canonical t) = None -> levels (non_canonical t) = [] -> parent = origin) -> number + 2 < 2 ^ 64 ->
  match insert_error (non_canonical t) hash number parent with
  | Some e => Sdb.insert_block (DbError := DbError) hash number parent cs t = (t, Err (StateDb e))
  | None => exists nc' commit C', Sdb.insert_block (DbError := DbError) hash number parent cs t = (Sdb.set_non_canonical nc' t, Ok commit) /\
      good C' p w (Sdb.set_non_canonical nc' t) (apply_state_commit commit m) /\ data commit = empty_changeset /\
      hashes (levels nc') ≡ₚ hash :: hashes (levels (non_canonical t)) /\ pinned_insertions nc' = pinned_insertions (non_canonical t)
  end.
Proof.
  intros G Hpre Hch Horigin Hroom. destruct G as [Hi Hj Hw Hlast Hnone Hroot Hn Hc (Hf1 & Hf2 & Hf3)]. set (s := non_canonical t) in *.
  assert (Sdb.insert_block (DbError := DbError) hash number parent cs t = st_map_err StateDb (Sdb.overlay (insert hash number parent cs)) t) as ->.
  { unfold Sdb.insert_block. rewrite st_get_bind. unfold window_good in Hw. by destruct (mode t). }
  pose proof (insert_spec block value_of C s hash number parent cs Hi Hpre) as Hspec.
  destruct (insert_error s hash number parent) as [e|].
  { unfold st_map_err. rewrite (overlay_eq _ _ _ _ Hspec). unfold s. by rewrite set_same. }
  destruct Hspec as (s' & b & Hrun & Hi' & Hlast' & Hpin & HPI & Hpc & Hb & Hbh & Hidx).
  exists s'. eexists _, (assume_canonical C s number parent). split; [unfold st_map_err; by rewrite (overlay_eq _ _ _ _ Hrun)|].
  destruct Hpre as [Hnum Hpar Hlink Hnn Hins Hdel Hwin Hfirst Hfit Hsize Hcnt].
  set (commit := meta_insert _ _ _). assert (b ∈ level_blocks (levels s')) as Hbin by (rewrite Hb; constructor).
  assert (data commit = empty_changeset) as Hdata
    by (unfold commit, assume_commit; simpl; destruct (last_canonicalized s) as [[? ?]|]; [|destruct (_ && _)]; done).
  assert (hashes (levels s') ≡ₚ hash :: hashes (levels s)) as Hh by (unfold hashes; by rewrite Hb, fmap_cons, Hbh).
  assert (forall h n, last_canonicalized s' = Some (h, n) -> default p (last w) = h) as Hlast2.
  { intros h n Hls. rewrite Hlast' in Hls. unfold assume_parent in Hls. destruct (last_canonicalized s) as [[h0 n0]|] eqn:Hls0.
    - rewrite Hls0 in Hls. by eapply Hlast.
    - destruct (bool_decide (levels s = []) && (0 <? number)) eqn:Hc0; simpl in Hls; [|congruence].
      injection Hls as <- <-. apply andb_true_iff in Hc0 as [Hlv%bool_decide_eq_true _]. destruct (Hnone eq_refl) as [-> ->]. simpl. by rewrite Horigin. }
  assert (last_canonicalized s' = None -> last_canonicalized s = None) as Hnone'.
  { rewrite Hlast'. unfold assume_parent. destruct (last_canonicalized s) as [[h0 n0]|] eqn:Hls0; [by rewrite Hls0|done]. }
  split_and!; try done. split; cbn [non_canonical Sdb.set_non_canonical apply_state_commit metas nodes]; try done.
  - eapply (journaled_insert block value_of C _ s s' b number parent); try done; [by rewrite Hbh|].
    unfold commit, record_of. by rewrite Hbh, Hins, Hdel, Hpar.
  - apply (window_good_ext p w t); [done..| |done]. apply overlay_no_window. unfold commit. apply insert_commit_keys.
    destruct (i_block _ _ _ _ Hi' b Hbin) as [_ ->]. eauto.
  - intros Hls. by apply Hnone, Hnone'.
  - eapply (root_from_last (assume_canonical C s number parent)); [done..|]. intros Hls l b' Hl Hb'. pose proof (Hnone' Hls) as Hls0.
    assert (b' ∈ level_blocks (levels s')) as Hb's by (apply elem_of_level_blocks; eauto).
    pose proof (pre_num _ _ _ _ _ _ (i_pre _ _ _ _ Hi') 0 l b' Hl Hb') as Hn'. unfold front in Hn'. rewrite Hls in Hn'.
    rewrite Hb in Hb's. apply elem_of_cons in Hb's as [->|Hb's].
    + destruct (Hfirst Hls0) as [Hlv|Hin]; [destruct (Hnone Hls0) as [-> ->]; rewrite Hbh, Hpar; by apply Horigin|].
      pose proof (pre_number _ _ _ _ _ _ _ (i_pre _ _ _ _ Hi) Hin) as Hge. unfold front in Hge. rewrite Hls0, Hlink in Hge. rewrite Hbh in Hn'. lia.
    + apply elem_of_level_blocks in Hb's as (j & l0 & Hl0 & Hb0). pose proof (pre_num _ _ _ _ _ _ (i_pre _ _ _ _ Hi) j l0 b' Hl0 Hb0) as Hn0.
      unfold front in Hn0. rewrite Hls0 in Hn0. assert (j = O) as -> by lia. by eapply Hroot.
  - by rewrite Hdata.
  - intros x. rewrite Hh, HPI. intros [[->|Hx]%elem_of_cons|Hx]; [done|by apply Hc; left|by apply Hc; right].
  - split_and!.
    + unfold front in *. rewrite Hlast'. unfold assume_parent. destruct (last_canonicalized s) as [[h0 n0]|] eqn:Hls0; [by rewrite Hls0|].
      destruct (_ && _); simpl; rewrite ?Hls0; lia.
    + intros x. rewrite Hh. intros [->|Hx]%elem_of_cons; [lia|by apply Hf2].
    + intros k. rewrite HPI. assert (hashes (levels s') ++ pi_keys (pinned_insertions s) ≡ₚ hash :: hashes (levels s) ++ pi_keys (pinned_insertions s)) as Hp
        by (by rewrite Hh). rewrite (need_proper block _ _ Hp k k eq_refl), need_cons.
      specialize (Hcnt k). lia.
Qed.

(** ** Canonicalizing a block *)
Lemma canonical_keys C s a s' js dm :
  inv C s -> canonicalizes block value_of C s a s' js dm ->
  overlay_keys (meta (canonical_commit block value_of a (front s) js (empty_commit (H := Key)))).
Proof.
  intros Hi Hc k. simpl. rewrite list_elem_of_singleton. intros [->|(b & Hb & _ & <-)%(c_journals _ _ _ _ _ _ _ _ Hc)]; [by left|].
  destruct (i_block _ _ _ _ Hi b Hb) as [_ ->]. right. eauto.
Qed.

Lemma default_last_app p w1 w2 : default (default p (last w1)) (last w2) = default p (last (w1 ++ w2)).
Proof. rewrite last_app. by destruct (last w2). Qed.

(** The overlay of a canonicalized block, whatever becomes of the window. *)
Lemma good_canonicalized C p w t m a s' js dm p' w2 t' m' :
  good C p w t m -> canonicalizes block value_of C (non_canonical t) a s' js dm -> non_canonical t' = s' ->
  journaled block value_of s' (metas m') -> window_good p' w2 t' (metas m') -> default p' (last w2) = a ->
  holds value_of (nodes m') (held p' w2) -> good ({[a]} ∪ C) p' w2 t' m'.
Proof.
  intros G Hc <- Hj Hw Ha Hn. destruct G as [Hi _ _ _ _ _ _ Hch Hfits]. pose proof (c_inv _ _ _ _ _ _ _ _ Hc) as Hi'.
  assert (forall h n, last_canonicalized (non_canonical t') = Some (h, n) -> default p' (last w2) = h) as Hlast
    by (intros h n; rewrite (c_last _ _ _ _ _ _ _ _ Hc); by intros [= <- _]).
  pose proof (c_hashes _ _ _ _ _ _ _ _ Hc) as Hp.
  assert (forall x, x ∈ hashes (levels (non_canonical t')) -> x ∈ hashes (levels (non_canonical t))) as Hh
    by (intros x Hx; rewrite Hp, elem_of_cons, elem_of_app; auto).
  assert (forall x, is_Some (pinned_insertions (non_canonical t') !! x) ->
    x ∈ hashes (levels (non_canonical t)) \/ is_Some (pinned_insertions (non_canonical t) !! x)) as HPI.
  { intros x Hx. destruct (decide (x = a)) as [->|Hne]; [left; rewrite Hp; constructor|].
    destruct (decide (x ∈ dm)) as [Hd|Hd]; [left; rewrite Hp, elem_of_cons, elem_of_app; auto|].
    right. by rewrite <- (c_pi _ _ _ _ _ _ _ _ Hc x Hne Hd). }
  split; try done.
  - by rewrite (c_last _ _ _ _ _ _ _ _ Hc).
  - eapply root_from_last; [done|done|]. by rewrite (c_last _ _ _ _ _ _ _ _ Hc).
  - intros x [Hx|Hx]; apply Hch; [left; by apply Hh|by apply HPI].
  - apply (fits_sub C _ _ _ Hi Hi'); [|done..]. unfold front at 1. rewrite (c_last _ _ _ _ _ _ _ _ Hc).
    destruct Hfits as (_ & Hf & _). specialize (Hf a). rewrite (c_number _ _ _ _ _ _ _ _ Hc) in Hf. rewrite Hp in Hf. specialize (Hf (list_elem_of_here _ _)). lia.
Qed.

Lemma tagged_keys (ks : list Key) : (tagged value_of ks).*1 = ks.
Proof. unfold tagged. rewrite <- list_fmap_compose. apply list_fmap_id. Qed.

(** A canonical block joins the window in memory: what is in the database then. *)
Lemma window_joined C p w win a s s' js dm b' w1 w2 win' m :
  inv C s -> canonicalizes block value_of C s a s' js dm -> journaled block value_of s (metas m) ->
  mem_window p w win -> pruning_journaled block (base win) w (metas m) -> holds value_of (nodes m) (held p w) ->
  chain p (w ++ [a]) -> number_of a = front s -> 0 <= front s -> front s + 1 < 2 ^ 64 -> b' = number_of p + 1 ->
  w ++ [a] = w1 ++ w2 -> base win' = b' + Z.of_nat (length w1) ->
  let first := (base win =? 0) && bool_decide (w = []) && (0 <? front s) in
  let m' := apply_state_commit (pruned_commit block b' w1 w2
              (noted block first a (canonical_commit block value_of a (front s) js empty_commit))) m in
  journaled block value_of s' (metas m') /\ pruning_journaled block (base win') w2 (metas m') /\
  holds value_of (nodes m') (held (default p (last w1)) w2).
Proof.
  intros Hi Hc Hj Hmw Hpj Hn Hchain Hna Hf0 Hf1 Hb' Heq Hbw' first m'. set (commit0 := canonical_commit block value_of a (front s) js empty_commit) in *.
  pose proof (canonical_keys _ _ _ _ _ _ Hi Hc) as Hkeys. fold commit0 in Hkeys.
  assert (number_of a = b' + Z.of_nat (length w)) as Hnum by (rewrite Hb'; eapply chain_numbers; [done|by apply list_lookup_middle]).
  assert (first = true -> w = [] /\ base win = 0 /\ 0 < b') as Hfirst.
  { unfold first. intros [[Hz ->%bool_decide_eq_true]%andb_true_iff Hpos]%andb_true_iff. simpl in Hnum. split_and!; [done|lia|lia]. }
  assert (first = false -> b' = base win) as Hnext.
  { intros Hf. destruct (mw_base _ _ _ _ _ Hmw) as [->|[Hz Hw]]; [done|]. unfold first in Hf. rewrite Hz, Hw in Hf. rewrite Hw in Hnum. simpl in Hf, Hnum. lia. }
  assert (0 <= b') as Hb0 by (destruct (mw_base _ _ _ _ _ Hmw) as [Hb|[_ Hw]]; [pose proof (mw_fit _ _ _ _ _ Hmw); lia|rewrite Hw in Hnum; simpl in Hnum; lia]).
  split_and!.
  - apply (journaled_ext block value_of ({[a]} ∪ C) s' (apply_changes (meta commit0) (metas m))).
    + apply (c_inv _ _ _ _ _ _ _ _ Hc).
    + apply (journal_other block (base win) w); [done..|intros Hk|intros n Hk].
      * symmetry in Hk. by apply last_pruned_not_canonical in Hk.
      * by apply last_canonical_not_pruning in Hk.
    + intros n i. apply (journal_other block (base win) w); [done..|intros Hk|intros n' Hk]; symmetry in Hk.
      * by apply last_pruned_not_journal in Hk.
      * by apply pruning_not_journal in Hk.
    + by eapply (journaled_canonicalize block value_of C s).
  - rewrite Hbw'. apply (journal_window block (base win) w); try done; [by apply overlay_no_window|lia].
  - assert (data (pruned_commit block b' w1 w2 (noted block first a commit0)) =
      {| inserted := tagged value_of (b_inserted (block a)); deleted := pruned_nodes block w1 w2 |}) as Hd by (unfold first; by destruct (_ && _)).
    unfold m'. cbn [apply_state_commit nodes]. rewrite Hd. by apply (holds_window block state value_of _ p w a).
Qed.

Lemma canonicalize_block_spec C p w t m a db :
  good C p w t m -> default 0 (pinned (non_canonical t) !! a) + 1 < 2 ^ 32 ->
  (exists l, levels (non_canonical t) !! O = Some l /\ a ∈ (bo_hash <$> blocks l)) ->
  exists s' js dm w1 w2 t' commit, Sdb.canonicalize_block db a t = (t', Ok commit) /\
    canonicalizes block value_of C (non_canonical t) a s' js dm /\ non_canonical t' = s' /\
    w ++ [a] = w1 ++ w2 /\ chain p (w ++ [a]) /\ good ({[a]} ∪ C) (default p (last w1)) w2 t' (apply_state_commit commit m) /\
    mode t' = mode t /\ pins t' = pins t /\ ref_counting t' = ref_counting t /\
    match mode t with
    | Constrained c => (forall x, x ∈ w1 -> pins t !! x = None) /\ prune_done (default 0 (max_blocks c)) (pins t) w2 /\
        (w1 <> [] -> default 0 (max_blocks c) <= Z.of_nat (length w2))
    | _ => w1 = []
    end.
Proof.
  intros G Hfit (l & Hl & Ha). pose proof G as [Hi Hj Hw Hlast Hnone Hroot Hn Hch _]. set (s := non_canonical t) in *.
  pose proof (canonicalize_spec block value_of C s a empty_commit Hi Hfit) as Hspec.
  assert (exists rest, levels s = l :: rest) as [rest Hlv] by (destruct (levels s) as [|? rest]; [done|]; injection Hl as ->; eauto).
  rewrite Hlv, decide_True in Hspec by done.
  destruct Hspec as (s' & js & dm & Hrun & Hc). set (commit0 := canonical_commit block value_of a (front s) js empty_commit) in *.
  exists s', js, dm.
  assert (a ∈ hashes (levels s)) as Hain by (rewrite (c_hashes _ _ _ _ _ _ _ _ Hc); constructor).
  assert (parent_of a = default p (last w)) as Hpar by (apply list_elem_of_fmap in Ha as (b & -> & Hb); by apply (Hroot l)).
  assert (number_of a = number_of (default p (last w)) + 1) as Hnum
    by (rewrite <- Hpar, (pre_link _ _ _ _ _ _ (i_pre _ _ _ _ Hi) a Hain); lia).
  assert (changes_ok a) as Hcha by (apply Hch; by left).
  assert (chain p (w ++ [a])) as Hchain by (apply chain_app; [by eapply window_chain|done..]).
  pose proof (c_number _ _ _ _ _ _ _ _ Hc) as Hna. pose proof (i_front _ _ _ _ Hi) as [Hf0 Hf1]. rewrite Hlv in Hf1. simpl in Hf1.
  unfold Sdb.canonicalize_block. rewrite st_get_bind.
  assert (mode t <> ArchiveAll) as Hmode by (intros Hm; unfold window_good in Hw; by rewrite Hm in Hw).
  rewrite bool_decide_eq_false_2 by done.
  erewrite st_bind_ok by (unfold st_map_err; rewrite (overlay_eq _ _ _ _ Hrun); reflexivity). cbv iota beta. rewrite st_get_bind.
  unfold window_good in Hw. destruct (mode t) as [c| |] eqn:Hm; [|done|].
  - destruct Hw as (Hlim & win & Hwin & Hmw & Hpj). cbn [pruning Sdb.set_non_canonical]. rewrite Hwin, bool_decide_eq_false_2 by done.
    destruct (note_canonical_spec (DbError := DbError) block state p w win a commit0) as (win1 & Hnote & Hmw1 & Hb1); try done; [lia|lia|apply tagged_keys|].
    rewrite Hna in Hnote.
    erewrite st_bind_ok by (unfold Sdb.window; rewrite Hnote; reflexivity).
    unfold Sdb.prune. cbn [pruning mode Sdb.set_pruning Sdb.set_non_canonical pins]. rewrite Hm.
    destruct (prune_window_spec db (Sdb.prune_fuel (DbError := DbError) win1) (default 0 (max_blocks c)) (pins t) p (w ++ [a]) win1
      (noted block ((base win =? 0) && bool_decide (w = []) && (0 <? number_of a)) a commit0)) as (w1 & w2 & win' & Heq & Hloop & Hmw2 & Hb2 & Hnp & Hdone & Hmin);
      [done|done|unfold Sdb.prune_fuel; rewrite (window_size_mem _ _ _ _ _ Hmw1); lia|].
    rewrite Hna in Hloop. rewrite Hloop. exists w1, w2. eexists _, _. split; [done|]. split_and!; try done.
    destruct (window_joined C p w win a s s' js dm (base win1) w1 w2 win' m) as (Hj' & Hpj' & Hn'); try done; [lia|].
    eapply (good_canonicalized C p w t m a s' js dm); try done.
    + unfold window_good. cbn [mode Sdb.set_pruning Sdb.set_non_canonical]. rewrite Hm. split; [done|]. by exists win'.
    + by rewrite default_last_app, <- Heq, last_snoc.
  - destruct Hw as [Hnw Hchw]. cbn [pruning Sdb.set_non_canonical]. rewrite Hnw, bool_decide_eq_true_2 by done.
    exists [], (w ++ [a]), (Sdb.set_non_canonical s' t), (clear_deleted commit0). split_and!; try done.
    { unfold Sdb.prune, mbind, st_bind. simpl. by rewrite Hnw. }
    eapply (good_canonicalized C p w t m a s' js dm); try done.
    + by eapply (journaled_canonicalize block value_of C s).
    + unfold window_good. cbn [mode pruning Sdb.set_non_canonical]. by rewrite Hm.
    + by rewrite last_snoc.
    + apply (holds_window block state value_of (nodes m) p w a [] (w ++ [a])); done.
Qed.

(** ** The other operations *)

(** Blocks leave the overlay, and kept ones are given up. *)
Lemma good_shrunk C p w t m s' c t' :
  good C p w t m -> inv C s' -> last_canonicalized s' = last_canonicalized (non_canonical t) ->
  (forall b, b ∈ level_blocks (levels s') -> b ∈ level_blocks (levels (non_canonical t))) ->
  (forall x, is_Some (pinned_insertions s' !! x) -> is_Some (pinned_insertions (non_canonical t) !! x)) ->
  journaled block value_of s' (apply_changes (meta c) (metas m)) -> overlay_keys (meta c) -> data c = empty_changeset ->
  non_canonical t' = s' -> mode t' = mode t -> pruning t' = pruning t -> good C p w t' (apply_state_commit c m).
Proof.
  intros [Hi Hj Hw Hlast Hnone Hroot Hn Hc Hfits] Hi' Hl Hb HPI Hj' Hkeys Hdata Hnc Hmode Hpr.
  assert (forall x, x ∈ hashes (levels s') -> x ∈ hashes (levels (non_canonical t))) as Hh.
  { intros x (b & -> & Hin)%list_elem_of_fmap. by apply list_elem_of_fmap_2, Hb. }
  assert (front s' = front (non_canonical t)) as Hf by (unfold front; by rewrite Hl).
  split; rewrite ?Hnc; cbn [apply_state_commit nodes metas]; try done; rewrite ?Hl; try done.
  - apply (window_good_ext p w t); [done..| |done]. by apply overlay_no_window.
  - intros l b Hlv Hbin. assert (b ∈ level_blocks (levels (non_canonical t))) as Hin by (apply Hb, elem_of_level_blocks; eauto).
    pose proof (pre_num _ _ _ _ _ _ (i_pre _ _ _ _ Hi') 0 l b Hlv Hbin) as Hnb. rewrite Hf in Hnb.
    apply elem_of_level_blocks in Hin as (j & l0 & Hl0 & Hb0). pose proof (pre_num _ _ _ _ _ _ (i_pre _ _ _ _ Hi) j l0 b Hl0 Hb0).
    assert (j = O) as -> by lia. by eapply Hroot.
  - by rewrite Hdata.
  - intros x [Hx|Hx]; apply Hc; [left; by apply Hh|right; by apply HPI].
  - apply (fits_sub C C _ _ Hi Hi'); [rewrite Hf; apply Hfits|done|intros x Hx; right; by apply HPI|done].
Qed.

Lemma delete_keys (js : list bytes) :
  (forall k, k ∈ js -> exists n i, k = to_journal_key n i) -> overlay_keys (meta (meta_delete js (empty_commit (H := Key)))).
Proof. intros Hjs k. simpl. intros [?%elem_of_nil|Hk]; [done|]. right. by apply Hjs. Qed.

Lemma no_keys : overlay_keys (meta (empty_commit (H := Key))).
Proof. intros k. simpl. by intros [?%elem_of_nil|?%elem_of_nil]. Qed.

Lemma revert_one_good C p w t m :
  good C p w t m ->
  exists nc' r, Sdb.revert_one (DbError := DbError) t = (Sdb.set_non_canonical nc' t, Ok r) /\
    pinned_insertions nc' = pinned_insertions (non_canonical t) /\
    match r with
    | None => nc' = non_canonical t
    | Some commit => good C p w (Sdb.set_non_canonical nc' t) (apply_state_commit commit m) /\ data commit = empty_changeset
    end.
Proof.
  intros G. pose proof (g_inv _ _ _ _ _ G) as Hi. pose proof (revert_one_spec (E := Error DbError) block value_of C _ Hi) as Hspec.
  assert (Sdb.revert_one (DbError := DbError) t = Sdb.overlay NonCanonical.revert_one t) as ->.
  { unfold Sdb.revert_one. rewrite st_get_bind. pose proof (g_window _ _ _ _ _ G) as Hw. unfold window_good in Hw. by destruct (mode t). }
  destruct (last (levels (non_canonical t))) as [level|].
  - destruct Hspec as (s' & Hrun & Hi' & Hlv & Hl & Hpin & HPI). exists s'. eexists. split; [by rewrite (overlay_eq _ _ _ _ Hrun)|]. split; [done|].
    split; [|done]. eapply (good_shrunk C p w t m s'); try done.
    + intros b Hb. rewrite Hlv. unfold level_blocks. rewrite bind_app. apply elem_of_app. by left.
    + by rewrite HPI.
    + eapply (journaled_revert block value_of C (non_canonical t)); try done. by apply (g_journal _ _ _ _ _ G).
    + apply delete_keys. intros k (b & -> & Hb)%list_elem_of_fmap. destruct (i_block _ _ _ _ Hi b) as [_ ->]; [|eauto].
      rewrite Hlv. unfold level_blocks. rewrite bind_app, elem_of_app. right. cbn. by rewrite app_nil_r.
  - exists (non_canonical t), None. by rewrite (overlay_eq _ _ _ _ Hspec).
Qed.

Lemma remove_good C p w t m hash :
  good C p w t m ->
  exists nc' r, Sdb.remove (DbError := DbError) hash t = (Sdb.set_non_canonical nc' t, Ok r) /\
    pinned_insertions nc' = pinned_insertions (non_canonical t) /\
    good C p w (Sdb.set_non_canonical nc' t) (apply_state_commit (default empty_commit r) m) /\ data (default empty_commit r) = empty_changeset.
Proof.
  intros G. pose proof (g_inv _ _ _ _ _ G) as Hi.
  assert (Sdb.remove (DbError := DbError) hash t = Sdb.overlay (NonCanonical.remove hash) t) as ->.
  { unfold Sdb.remove. rewrite st_get_bind. pose proof (g_window _ _ _ _ _ G) as Hw. unfold window_good in Hw. by destruct (mode t). }
  destruct (remove_spec (E := Error DbError) block value_of C _ hash Hi) as (s' & r & Hrun & Hi' & Hl & Hpin & HPI & Hr).
  exists s', r. split; [by rewrite (overlay_eq _ _ _ _ Hrun)|]. split; [done|]. destruct r as [commit|].
  - destruct Hr as (b & Hbh & Hb & ->). split; [|done]. cbn [default from_option].
    eapply (good_shrunk C p w t m s'); try done.
    + intros b' Hb'. rewrite Hb. by constructor.
    + by rewrite HPI.
    + eapply (journaled_remove block value_of C (non_canonical t)); try done. by apply (g_journal _ _ _ _ _ G).
    + apply delete_keys. intros k ->%list_elem_of_singleton. destruct (i_block _ _ _ _ Hi b) as [_ ->]; [|eauto]. rewrite Hb. constructor.
  - split; [|done]. eapply (good_shrunk C p w t m s'); try done.
    + by rewrite Hr.
    + by rewrite HPI.
    + eapply (journaled_blocks block value_of (non_canonical t)); [done|by rewrite Hr|]. apply (g_journal _ _ _ _ _ G).
    + apply no_keys.
Qed.

(** An operation that only concerns pins. *)
Lemma good_pins C p w t m t' :
  good C p w t m -> inv C (non_canonical t') -> last_canonicalized (non_canonical t') = last_canonicalized (non_canonical t) ->
  levels (non_canonical t') = levels (non_canonical t) ->
  (forall x, is_Some (pinned_insertions (non_canonical t') !! x) -> is_Some (pinned_insertions (non_canonical t) !! x)) ->
  mode t' = mode t -> pruning t' = pruning t -> good C p w t' m.
Proof.
  intros G Hi' Hl Hlv HPI Hm Hp. assert (m = apply_state_commit empty_commit m) as -> by (by destruct m).
  eapply (good_shrunk C p w t m (non_canonical t')); try done; [by rewrite Hlv| |apply no_keys].
  eapply (journaled_blocks block value_of (non_canonical t)); [done|by rewrite Hlv|]. apply (g_journal _ _ _ _ _ G).
Qed.

(** ** What the window answers *)
Lemma window_have_block_spec p w win h number :
  mem_window p w win -> 0 <= number ->
  window_have_block (DbError := DbError) h number win =
    Ok (have_block_from (bool_decide (base win <= number /\ w !! Z.to_nat (number - base win) = Some h))).
Proof.
  intros Hw Hn. unfold window_have_block, window_is_empty. rewrite (window_size_mem _ _ _ _ _ Hw). cbn [mbind res_bind].
  pose proof (mw_fit _ _ _ _ _ Hw) as Hfit. destruct (mw_queue _ _ _ _ _ Hw) as (index & Hq & _).
  destruct (_ || _) eqn:Hout.
  - rewrite bool_decide_eq_false_2; [done|]. intros [Hge Hl%lookup_lt_Some]. destruct w as [|x w]; [simpl in Hl; lia|]. simpl in Hout. lia.
  - rewrite add_u_ok by lia. cbn [mbind res_bind]. destruct (_ <=? number) eqn:Hstop.
    + rewrite bool_decide_eq_false_2; [done|]. intros [Hge Hl%lookup_lt_Some]. lia.
    + rewrite sub_u_ok by lia. cbn [mbind res_bind]. rewrite Hq. simpl.
      destruct (lookup_lt_is_Some_2 w (Z.to_nat (number - base win))) as [x Hx]; [lia|].
      assert (exists d, rows_of block w !! Z.to_nat (number - base win) = Some {| dr_hash := x; dr_deleted := d |}) as [d ->].
      { clear -Hx. generalize dependent (Z.to_nat (number - base win)). intros i. revert i. induction w as [|y w IH]; intros i Hi; [done|].
        destruct i as [|i]; simpl in *; [injection Hi as ->; eauto|by apply IH]. }
      simpl. rewrite Hx. f_equal. f_equal. apply bool_decide_ext. split; [intros ->; split; [lia|done]|by intros [_ [= ->]]].
Qed.

(** ** Pins *)

Lemma pin_have_block_ok p w t m h number hint :
  window_good p w t m -> 0 <= number -> exists found, Sdb.pin_have_block (DbError := DbError) h number hint t = Ok found /\
    (found = true -> have_block (non_canonical t) h = true \/ h ∈ w \/ pruning t = None).
Proof.
  intros Hw Hn. unfold Sdb.pin_have_block. destruct (have_block (non_canonical t) h) eqn:Hh; [by exists true; auto|].
  destruct (pruning t) as [win|] eqn:Hp; [|exists hint; by auto].
  unfold window_good in Hw. destruct (mode t); [|done|destruct Hw as [? _]; congruence].
  destruct Hw as (_ & win' & Hwin & Hmw & _). assert (win' = win) as -> by congruence.
  rewrite (window_have_block_spec _ _ _ _ _ Hmw Hn). cbn [mbind res_bind]. eexists. split; [done|].
  case_bool_decide as Hc; [|done]. intros _. right. left. destruct Hc as [_ Hc]. by eapply list_elem_of_lookup_2.
Qed.

(** The overlay allows the pin: the block is not one that is only kept for the pins of
    others. *)
Definition pin_allowed t h : Prop :=
  pinned_insertions (non_canonical t) !! h = None \/ is_Some (pinned (non_canonical t) !! h).

Lemma pin_good C p w t m h number hint :
  good C p w t m -> (forall x r, pins t !! x = Some r -> 0 < r) -> pin_allowed t h -> 0 <= number ->
  default 0 (pinned (non_canonical t) !! h) + 1 < 2 ^ 32 -> default 0 (pins t !! h) + 1 < 2 ^ 32 ->
  exists t' r, Sdb.pin (DbError := DbError) h number hint t = (t', Ok r) /\ good C p w t' m /\
    pinned_insertions (non_canonical t') = pinned_insertions (non_canonical t) /\ mode t' = mode t /\ ref_counting t' = ref_counting t /\
    (forall x r, pins t' !! x = Some r -> 0 < r) /\ (r = None -> is_Some (pins t' !! h)) /\ (forall x, is_Some (pins t !! x) -> is_Some (pins t' !! x)).
Proof.
  intros G Hpos Hallow Hn Hfit Hfit'. pose proof (g_window _ _ _ _ _ G) as Hw. pose proof (g_inv _ _ _ _ _ G) as Hi.
  destruct (pin_have_block_ok p w t (metas m) h number hint Hw Hn) as (found & Hfound & _).
  assert (Sdb.pin (DbError := DbError) h number hint t = (
      have ← st_lift (Sdb.pin_have_block h number hint t);
      if have : bool then
        let refs := default 0 (pins t !! h) in
        _ ← (if refs =? 0 then Sdb.overlay (NonCanonical.pin h) else mret tt);
        refs ← st_lift (add_u 32 refs 1);
        st_modify (fun self => Sdb.set_pins (<[h := refs]> (pins self)) self);;
        mret None
      else mret (Some PinInvalidBlock)) t) as ->.
  { unfold Sdb.pin. rewrite st_get_bind. unfold window_good in Hw. by destruct (mode t). }
  rewrite (st_lift_ok _ _ _ _ Hfound). destruct found; [|exists t, (Some PinInvalidBlock); by split_and!].
  assert (exists t1, (if default 0 (pins t !! h) =? 0 then Sdb.overlay (NonCanonical.pin h) else mret tt) t = (t1, @Ok (Error DbError) _ tt) /\
    good C p w t1 m /\ pinned_insertions (non_canonical t1) = pinned_insertions (non_canonical t) /\ mode t1 = mode t /\
    ref_counting t1 = ref_counting t /\ pins t1 = pins t) as (t1 & Hrun & G1 & HPI1 & Hm1 & Hrc1 & Hp1).
  { destruct (_ =? 0); [|by exists t]. destruct (pin_spec (E := Error DbError) block value_of C (non_canonical t) h Hi) as (r & Hrun & Hi'); [|done|].
    - intros [[? Hpi] _]. destruct Hallow as [Hno|?]; [by rewrite Hno in Hpi|done].
    - eexists. rewrite (overlay_eq _ _ _ _ Hrun). split; [done|]. split_and!; try done. by eapply (good_pins C p w t m). }
  cbv zeta. rewrite (st_bind_ok _ _ _ _ _ Hrun). erewrite st_lift_ok by (apply add_u_ok; lia). rewrite st_modify_bind.
  eexists _, None. split; [done|]. split_and!; try done.
  - eapply (good_pins C p w t1 m); try done. apply (g_inv _ _ _ _ _ G1).
  - intros x r. simpl. rewrite Hp1. intros [[<- <-]|[_ Hx]]%lookup_insert_Some; [|by eapply Hpos].
    destruct (pins t !! h) as [r|] eqn:Hr; simpl; [|lia]. specialize (Hpos h r Hr). lia.
  - intros _. simpl. rewrite lookup_insert_eq. by eexists.
  - intros x Hx. simpl. rewrite Hp1. destruct (decide (h = x)) as [->|Hne]; [rewrite lookup_insert_eq; by eexists|by rewrite lookup_insert_ne].
Qed.

Lemma unpin_good C p w t m h :
  good C p w t m -> (forall x r, pins t !! x = Some r -> 0 < r) ->
  exists t', Sdb.unpin (DbError := DbError) h t = (t', Ok tt) /\ good C p w t' m /\ mode t' = mode t /\ ref_counting t' = ref_counting t /\
    (forall x r, pins t' !! x = Some r -> 0 < r) /\
    (forall x, is_Some (pinned_insertions (non_canonical t') !! x) -> is_Some (pinned_insertions (non_canonical t) !! x)) /\
    (pinned_insertions (non_canonical t) !! h = None \/ 1 < default 0 (pinned (non_canonical t) !! h) ->
     pinned_insertions (non_canonical t') = pinned_insertions (non_canonical t)) /\
    (forall x, x <> h -> pins t' !! x = pins t !! x).
Proof.
  intros G Hpos. unfold Sdb.unpin. rewrite st_get_bind. destruct (pins t !! h) as [refs|] eqn:Hrefs; [|exists t; by split_and!].
  pose proof (Hpos h refs Hrefs) as Hpos'. erewrite st_lift_ok by (apply sub_u_ok; lia). destruct (refs - 1 =? 0) eqn:Hz.
  - rewrite st_modify_bind. destruct (unpin_spec (E := Error DbError) block value_of C (non_canonical t) h (g_inv _ _ _ _ _ G))
      as (s' & Hrun & Hi' & Hl & Hlv & Hpc & Hpin & HPI).
    eexists. rewrite (overlay_eq _ (Sdb.set_pins _ t) s' (Ok tt) Hrun). split; [done|]. split_and!; try done.
    + by eapply (good_pins C p w t m).
    + intros x r. simpl. intros [_ Hx]%lookup_delete_Some. by eapply Hpos.
    + intros Hkeep. simpl. by eapply (unpin_keeps (E := Error DbError) (non_canonical t) h).
    + intros x Hx. simpl. by rewrite lookup_delete_ne.
  - eexists. split; [done|]. split_and!; try done.
    + eapply (good_pins C p w t m); try done. apply (g_inv _ _ _ _ _ G).
    + intros x r. simpl. intros [[<- <-]|[_ Hx]]%lookup_insert_Some; [lia|by eapply Hpos].
    + intros x Hx. simpl. by rewrite lookup_insert_ne.
Qed.

Lemma sync_good C p w t m :
  good C p w t m -> exists nc', Sdb.sync (DbError := DbError) t = (Sdb.set_non_canonical nc' t, Ok tt) /\ good C p w (Sdb.set_non_canonical nc' t) m.
Proof.
  intros G. destruct (sync_spec (E := Error DbError) block value_of C (non_canonical t) (g_inv _ _ _ _ _ G)) as (s' & Hrun & Hi' & Hl & Hlv & _ & HPI).
  exists s'. unfold Sdb.sync. rewrite (overlay_eq _ _ _ _ Hrun). split; [done|]. by eapply (good_pins C p w t m).
Qed.

(** ** Restart *)

Lemma sdb_new_fuel db fuel extra m rc r :
  Sdb.new (BlockHash := BlockHash) (Key := Key) db fuel m rc = Some r -> Sdb.new (BlockHash := BlockHash) (Key := Key) db (fuel + extra) m rc = Some r.
Proof.
  unfold Sdb.new. destruct (NonCanonical.new db fuel) as [r'|] eqn:Hnc; [|done]. rewrite (new_fuel _ _ _ _ Hnc).
  destruct r' as [nc|e|]; [|done..]. destruct m as [c| |]; [|done..].
  intros (w & Hw & ->)%fmap_Some. by rewrite (new_window_fuel _ _ _ _ _ _ Hw).
Qed.

(** What is written is read back: the same window, and the same blocks in the overlay. *)
Lemma new_good C p w t m db fuel :
  good C p w t m -> (forall k, db k = Ok (metas m !! k)) -> is_Some (metas m !! to_meta_key LAST_CANONICAL tt) ->
  (length (levels (non_canonical t)) < fuel)%nat -> (length w < fuel)%nat ->
  exists nc', Sdb.new db fuel (mode t) true =
      Some (Ok {| mode := mode t; non_canonical := nc'; pruning := pruning t; pins := ∅; ref_counting := true |}) /\
    good C p w {| mode := mode t; non_canonical := nc'; pruning := pruning t; pins := ∅; ref_counting := true |} m /\
    pinned_insertions nc' = ∅ /\ level_blocks (levels nc') ≡ₚ level_blocks (levels (non_canonical t)) /\
    last_canonicalized nc' = last_canonicalized (non_canonical t).
Proof.
  intros G Hdb Hsome Hf1 Hf2. pose proof G as [Hi Hj Hw Hlast Hnone Hroot Hn Hc (Hfr & Hrm & Hcnt)]. set (s := non_canonical t) in *.
  rewrite (j_last _ _ _ _ Hj) in Hsome. destruct (last_canonicalized s) as [[hash number]|] eqn:Hls; [|by destruct Hsome].
  assert (forall k c v, values s !! k = Some (c, v) -> c < 2 ^ 32) as Hvals.
  { intros k c v Hk. pose proof (inv_refs _ _ _ _ Hi k) as Hr. rewrite Hk in Hr. destruct (0 <? _); [|done]. injection Hr as -> _. apply Hcnt. }
  destruct (new_spec block value_of C s (metas m) Hi Hj hash number Hls Hvals db Hdb Hfr Hrm fuel Hf1) as (nc' & Hnew & Hi' & Hl' & Hb' & Hpin' & HPI' & _).
  exists nc'. rewrite Hls in Hl'.
  assert (good C p w {| mode := mode t; non_canonical := nc'; pruning := pruning t; pins := ∅; ref_counting := true |} m) as G'.
  { assert (m = apply_state_commit empty_commit m) as Hm by (by destruct m). rewrite Hm. eapply (good_shrunk C p w t m nc'); try done.
    - fold s. by rewrite Hls.
    - intros b. by rewrite Hb'.
    - rewrite HPI'. intros x [? Hx]. by rewrite lookup_empty in Hx.
    - eapply (journaled_blocks block value_of s); [by rewrite Hls|intros b; by rewrite Hb'|done].
    - apply no_keys. }
  split_and!; try done. unfold Sdb.new. rewrite Hnew. unfold window_good in Hw. destruct (mode t) as [c| |] eqn:Hm; [|done|by destruct Hw as [-> _]].
  destruct Hw as (_ & win & -> & Hmw & Hpj).
  rewrite (new_window_spec block state (metas m) db Hdb p w win (Some (hash, number)) fuel); [done|done|done| | |done].
  - rewrite (j_last _ _ _ _ Hj), Hls. done.
  - intros l [= <-]. unfold numbered, is_u64. simpl. destruct (i_last _ _ _ _ Hi _ _ Hls) as (_ & _ & ?).
    unfold front in Hfr. rewrite Hls in Hfr. lia.
Qed.

(** ** Reading *)

(** A node the overlay has, or the database. *)
Lemma get_overlay C s k : inv C s ->
  NonCanonical.get s k = if 0 <? need block (hashes (levels s) ++ pi_keys (pinned_insertions s)) k then Some (value_of k) else None.
Proof. intros Hi. unfold NonCanonical.get. rewrite (inv_refs _ _ _ _ Hi k). by destruct (0 <? _). Qed.

Lemma need_pos os k x : x ∈ os -> k ∈ ins x -> 0 < need block os k.
Proof.
  intros (l1 & l2 & ->)%list_elem_of_split Hk. assert (l1 ++ x :: l2 ≡ₚ x :: l1 ++ l2) as Hp by (by rewrite <- Permutation_middle).
  rewrite (need_proper block _ _ Hp k k eq_refl), need_cons. pose proof (need_nonneg block (l1 ++ l2) k).
  assert (0 < occ k (b_inserted (block x))); [|lia]. apply occ_pos. by apply elem_of_list_to_set in Hk.
Qed.

(** The nodes of the window are on disk, or kept in memory until they are. *)
Definition on_disk_or_kept (s : NonCanonicalOverlay) (held_nodes : gset Key) (disk : gmap Key DBValue) : Prop :=
  forall k, k ∈ held_nodes -> disk !! k = Some (value_of k) \/ exists x, is_Some (pinned_insertions s !! x) /\ k ∈ ins x.

Definition readable t (disk : Store Key) k : Prop := Sdb.get (get_node disk) k t = Ok (Some (value_of k)).

Lemma readable_overlay C p w t m disk k x :
  good C p w t m -> x ∈ hashes (levels (non_canonical t)) \/ is_Some (pinned_insertions (non_canonical t) !! x) -> k ∈ ins x -> readable t disk k.
Proof.
  intros G Hx Hk. unfold readable, Sdb.get. rewrite (get_overlay C _ _ (g_inv _ _ _ _ _ G)).
  pose proof (need_pos (hashes (levels (non_canonical t)) ++ pi_keys (pinned_insertions (non_canonical t))) k x) as Hpos.
  rewrite (proj2 (Z.ltb_lt _ _)); [done|]. apply Hpos; [|done]. rewrite elem_of_app, elem_of_pi_keys. done.
Qed.

Lemma readable_held C p w t m disk k :
  good C p w t m -> on_disk_or_kept (non_canonical t) (held p w) (nodes disk) -> k ∈ held p w -> readable t disk k.
Proof.
  intros G Hd Hk. destruct (Hd k Hk) as [Hv|(x & Hx & Hkx)]; [|eapply readable_overlay; eauto].
  unfold readable, Sdb.get. rewrite (get_overlay C _ _ (g_inv _ _ _ _ _ G)). destruct (0 <? _); [done|]. unfold get_node. by rewrite Hv.
Qed.

(** ** The states that can be read *)

(** The block [x] and its ancestors above [q] are kept for a pin. *)
Inductive kept_from (s : NonCanonicalOverlay) q : BlockHash -> Prop :=
| kept_first x : is_Some (pinned_insertions s !! x) -> parent_of x = q -> kept_from s q x
| kept_next x : is_Some (pinned_insertions s !! x) -> kept_from s q (parent_of x) -> kept_from s q x.

Definition available p w t x : Prop :=
  x = p \/ x ∈ w \/ x ∈ hashes (levels (non_canonical t)) \/ exists q, (q = p \/ q ∈ w) /\ kept_from (non_canonical t) q x.

Lemma state_step x k : changes_ok x -> k ∈ state x -> k ∈ ins x \/ k ∈ state (parent_of x).
Proof. intros [Hs _ _]. rewrite Hs. set_solver. Qed.

Lemma state_readable C p w t m disk x k :
  good C p w t m -> on_disk_or_kept (non_canonical t) (held p w) (nodes disk) -> available p w t x -> k ∈ state x -> readable t disk k.
Proof.
  intros G Hd. assert (forall y k, y = p \/ y ∈ w -> k ∈ state y -> readable t disk k) as Hcanon.
  { intros y k' Hy Hk. eapply readable_held; [done|done|]. eapply held_state; [apply (window_chain _ _ _ _ (g_window _ _ _ _ _ G))|done|done]. }
  intros [Hx|[Hx|[Hx|(q & Hq & Hx)]]] Hk; [by eapply Hcanon; eauto|by eapply Hcanon; eauto|..].
  - apply list_elem_of_fmap in Hx as (b & -> & (j & l & Hl & Hb)%elem_of_level_blocks).
    revert l b Hl Hb Hk. induction j as [|j IH]; intros l b Hl Hb Hk.
    + assert (bo_hash b ∈ hashes (levels (non_canonical t))) as Hin by (apply elem_of_hashes; eauto 10).
      destruct (state_step (bo_hash b) k) as [Hi|Hp]; [apply (g_changes _ _ _ _ _ G); by left|done|eapply readable_overlay; eauto|].
      rewrite (g_root _ _ _ _ _ G l b Hl Hb) in Hp. apply (Hcanon (default p (last w))); [|done].
      destruct (last w) as [y|] eqn:Hy; [right; simpl; by apply last_Some_elem_of|by left].
    + assert (bo_hash b ∈ hashes (levels (non_canonical t))) as Hin by (apply elem_of_hashes; eauto 10).
      destruct (state_step (bo_hash b) k) as [Hi|Hp]; [apply (g_changes _ _ _ _ _ G); by left|done|eapply readable_overlay; eauto|].
      destruct (lookup_lt_is_Some_2 (levels (non_canonical t)) j) as [l0 Hl0]; [apply lookup_lt_Some in Hl; lia|].
      pose proof (i_link _ _ _ _ (g_inv _ _ _ _ _ G) j l0 l b Hl0 Hl Hb) as (b0 & Hb0 & Hb0in)%list_elem_of_fmap.
      rewrite Hb0 in Hp. by eapply (IH l0 b0).
  - induction Hx as [x Hx Hp|x Hx Hk' IH].
    + destruct (state_step x k) as [Hi|Hp']; [apply (g_changes _ _ _ _ _ G); by right|done|eapply readable_overlay; eauto|].
      rewrite Hp in Hp'. by eapply Hcanon.
    + destruct (state_step x k) as [Hi|Hp']; [apply (g_changes _ _ _ _ _ G); by right|done|eapply readable_overlay; eauto|by apply IH].
Qed.
End state_db.
