(* ===== verification/StateDbSystem.v ===== *)
(** * The state database: histories

    The state database together with the disk and with the changes that are not written
    yet.  Each call of [StateDb] is a step, as are writing the pending changes and a
    restart, which forgets what is not written.  Over every history of calls, nothing
    panics, every block that is reported as not pruned has all nodes of its state in the
    overlay or on disk, and the disk has no others. *)
From stdpp Require Import base gmap list.
From Stdlib Require Import ZArith Lia.
From S2P Require Import Prelude StateDbBase NonCanonical NonCanonicalFacts NonCanonicalInv Canonicalize.
From S2P Require Import NonCanonicalRestore Pruning PruningFacts StateDb StateDbInv.
Set Warnings "-clear-no-such-hyp".
Open Scope Z_scope.

Record System (BlockHash Key : Type) `{Countable BlockHash, Countable Key} := {
  mem : StateDbSync BlockHash Key;
  disk : Store Key;
  pending : list (CommitSet Key);
}.
Arguments mem {BlockHash Key _ _ _ _} _.
Arguments disk {BlockHash Key _ _ _ _} _.
Arguments pending {BlockHash Key _ _ _ _} _.

Inductive Call (BlockHash Key : Type) :=
| InsertBlock (hash : BlockHash) (number : Z) (parent : BlockHash) (changeset : ChangeSet Key)
| CanonicalizeBlock (hash : BlockHash)
| RevertOne
| Remove (hash : BlockHash)
| Pin (hash : BlockHash) (number : Z) (hint : bool)
| Unpin (hash : BlockHash)
| WritePending
| Sync.
Arguments InsertBlock {BlockHash Key} _ _ _ _.
Arguments CanonicalizeBlock {BlockHash Key} _.
Arguments RevertOne {BlockHash Key}.
Arguments Remove {BlockHash Key} _.
Arguments Pin {BlockHash Key} _ _ _.
Arguments Unpin {BlockHash Key} _.
Arguments WritePending {BlockHash Key}.
Arguments Sync {BlockHash Key}.

Section system.
Context {BlockHash Key : Type} `{Countable BlockHash} `{Countable Key}.
Context `{Codec unit, CodecLaws Z is_u64, CodecLaws (BlockHash * Z) numbered, CodecLaws (Z * Z) pair_u64,
  CodecLaws (JournalRecord BlockHash Key) any, CodecLaws (PruningRecord BlockHash Key) any}.

Abbreviation StateDbSync := (StateDbSync BlockHash Key).
Abbreviation System := (System BlockHash Key).
Abbreviation Call := (Call BlockHash Key).

(** The disk once everything is written. *)
Definition effective (sys : System) : Store Key := foldl (fun m c => apply_state_commit c m) (disk sys) (pending sys).

(** The state after an operation, with its changes; [None] is a panic. *)
Definition returned {A} (sys : System) (commit : A -> list (CommitSet Key)) (r : StateDbSync * res (Error unit) A) : option System :=
  match r with
  | (t, Ok a) => Some {| mem := t; disk := disk sys; pending := pending sys ++ commit a |}
  | (t, Err _) => Some {| mem := t; disk := disk sys; pending := pending sys |}
  | (_, Panic) => None
  end.

Definition optional {A} (r : option A) : list A := match r with Some a => [a] | None => [] end.
Definition nothing {A B} (_ : A) : list B := [].

Definition exec (c : Call) (sys : System) : option System :=
  match c with
  | InsertBlock hash number parent cs => returned sys (fun c => [c]) (Sdb.insert_block hash number parent cs (mem sys))
  | CanonicalizeBlock hash => returned sys (fun c => [c]) (Sdb.canonicalize_block (get_meta (disk sys)) hash (mem sys))
  | RevertOne => returned sys optional (Sdb.revert_one (mem sys))
  | Remove hash => returned sys optional (Sdb.remove hash (mem sys))
  | Pin hash number hint => returned sys nothing (Sdb.pin hash number hint (mem sys))
  | Unpin hash => returned sys nothing (Sdb.unpin hash (mem sys))
  | WritePending => Some {| mem := mem sys; disk := effective sys; pending := [] |}
  | Sync => returned sys nothing (Sdb.sync (mem sys))
  end.

Context (block : BlockHash -> Block BlockHash Key) (value_of : Key -> DBValue) (state : BlockHash -> gset Key) (origin : BlockHash).

Abbreviation good := (good block value_of state origin).
Abbreviation held := (held block state).
Abbreviation on_disk_or_kept := (on_disk_or_kept block value_of).
Implicit Types (sys : System) (t : StateDbSync) (h p x a : BlockHash) (w : list BlockHash) (C : gset BlockHash).

(** When the caller may make a call.  A block is inserted with the number, the parent and
    the changes that its hash commits to, and the canonical block is one of the first
    level.  A block that the overlay only keeps for pins is neither pinned anew nor
    built upon, and its last pin is not given up while changes are pending.  [sync] is
    called when the changes are written. *)
Definition allowed sys (c : Call) : Prop :=
  let nc := non_canonical (mem sys) in
  match c with
  | InsertBlock hash number parent cs =>
      insert_pre block value_of nc hash number parent cs /\ changes_ok block state hash /\
      (last_canonicalized nc = None -> levels nc = [] -> parent = origin) /\ number + 2 < 2 ^ 64
  | CanonicalizeBlock hash =>
      (levels nc = [] \/ exists l, levels nc !! O = Some l /\ hash ∈ (bo_hash <$> blocks l)) /\ default 0 (pinned nc !! hash) + 1 < 2 ^ 32
  | Pin hash number hint =>
      pin_allowed (mem sys) hash /\ 0 <= number /\ default 0 (pinned nc !! hash) + 1 < 2 ^ 32 /\ default 0 (pins (mem sys) !! hash) + 1 < 2 ^ 32
  | Unpin hash => pending sys = [] \/ pinned_insertions nc !! hash = None \/ 1 < default 0 (pinned nc !! hash)
  | Sync => pending sys = []
  | RevertOne | Remove _ | WritePending => True
  end.

(** A step: a call, or a restart once a canonical block is on disk. *)
Inductive step sys : System -> Prop :=
| step_call c sys' : allowed sys c -> exec c sys = Some sys' -> step sys sys'
| step_restart fuel t :
    is_Some (metas (disk sys) !! to_meta_key LAST_CANONICAL tt) ->
    Sdb.new (get_meta (disk sys)) fuel (mode (mem sys)) (ref_counting (mem sys)) = Some (Ok t) ->
    step sys {| mem := t; disk := disk sys; pending := [] |}.

(** A new database with the nodes of the state of [origin]. *)
Inductive reachable : System -> Prop :=
| reachable_open m fuel requested commit t :
    holds value_of (nodes m) (state origin) -> metas m = ∅ ->
    match default default_mode requested with
    | Constrained c => 0 <= default 0 (max_blocks c)
    | ArchiveCanonical => True
    | ArchiveAll => False
    end ->
    Sdb.open (get_meta m) fuel requested true true = Some (Ok (commit, t)) ->
    reachable {| mem := t; disk := m; pending := [commit] |}
| reachable_step sys sys' : reachable sys -> step sys sys' -> reachable sys'.

(** What the disk is in itself, and what it becomes with the pending changes. *)
Record sys_ok sys : Prop := {
  so_mem : exists C p w, good C p w (mem sys) (effective sys) /\ on_disk_or_kept (non_canonical (mem sys)) (held p w) (nodes (disk sys));
  so_disk : (exists C p w t, good C p w t (disk sys) /\ mode t = mode (mem sys));
  so_pins : forall x r, pins (mem sys) !! x = Some r -> 0 < r;
  so_count : ref_counting (mem sys) = true;
}.

(** ** The invariant *)
Lemma effective_app sys t c : effective {| mem := t; disk := disk sys; pending := pending sys ++ c |} =
  foldl (fun m c => apply_state_commit c m) (effective sys) c.
Proof. unfold effective. simpl. by rewrite foldl_app. Qed.

(** With nothing pending the nodes of the window are on disk. *)
Lemma written_on_disk sys C p w nc :
  pending sys = [] -> good C p w (mem sys) (effective sys) -> on_disk_or_kept nc (held p w) (nodes (disk sys)).
Proof.
  intros Hp G k Hk. left. pose proof (g_nodes _ _ _ _ _ _ _ _ _ G k) as Hn. unfold effective in Hn. rewrite Hp in Hn. simpl in Hn.
  by rewrite Hn, decide_True.
Qed.

(** The state after a call that returns the changes [cs]. *)
Lemma returned_ok sys t cs C p w :
  sys_ok sys -> good C p w t (foldl (fun m c => apply_state_commit c m) (effective sys) cs) ->
  on_disk_or_kept (non_canonical t) (held p w) (nodes (disk sys)) ->
  mode t = mode (mem sys) -> ref_counting t = ref_counting (mem sys) -> (forall x r, pins t !! x = Some r -> 0 < r) ->
  sys_ok {| mem := t; disk := disk sys; pending := pending sys ++ cs |}.
Proof.
  intros [_ (C0 & p0 & w0 & t0 & G0 & Hm0) _ Hrc] G Hd Hm Hr Hpos. split; simpl.
  - exists C, p, w. rewrite effective_app. done.
  - exists C0, p0, w0, t0. split; [done|]. by rewrite Hm.
  - done.
  - by rewrite Hr.
Qed.

(** The overlay keeps what it kept for pins. *)
Lemma on_disk_mono (nc nc' : NonCanonicalOverlay BlockHash Key) (S S' : gset Key) m :
  on_disk_or_kept nc S m -> (forall x, is_Some (pinned_insertions nc !! x) -> is_Some (pinned_insertions nc' !! x)) ->
  (forall k, k ∈ S' -> k ∈ S \/ exists x, is_Some (pinned_insertions nc' !! x) /\ k ∈ ins block x) -> on_disk_or_kept nc' S' m.
Proof.
  intros Hd HPI Hs k Hk. destruct (Hs k Hk) as [Hin|Hx]; [|by right]. destruct (Hd k Hin) as [?|(x & Hx & ?)]; [by left|]. right. exists x. eauto.
Qed.

Lemma insert_ok sys hash number parent cs :
  sys_ok sys -> allowed sys (InsertBlock hash number parent cs) -> exists sys', exec (InsertBlock hash number parent cs) sys = Some sys' /\ sys_ok sys'.
Proof.
  intros Hok (Hpre & Hch & Horig & Hroom). pose proof Hok as [(C & p & w & G & Hd) _ Hpos _].
  pose proof (insert_block_spec (DbError := unit) block value_of state origin C p w (mem sys) (effective sys) hash number parent cs G Hpre Hch Horig Hroom) as Hspec.
  unfold exec. destruct (insert_error _ hash number parent) as [e|].
  - rewrite Hspec. eexists. split; [done|]. destruct sys; done.
  - destruct Hspec as (nc' & commit & C' & -> & G' & _ & _ & HPI). eexists. split; [done|].
    eapply (returned_ok sys _ [commit]); try done. simpl. eapply on_disk_mono; [done|by rewrite HPI|by auto].
Qed.

Lemma canonicalize_ok sys a :
  sys_ok sys -> allowed sys (CanonicalizeBlock a) -> exists sys', exec (CanonicalizeBlock a) sys = Some sys' /\ sys_ok sys'.
Proof.
  intros Hok (Hlv & Hfit). pose proof Hok as [(C & p & w & G & Hd) _ Hpos _]. unfold exec. destruct Hlv as [Hlv|Hlv].
  - pose proof (canonicalize_spec block value_of C (non_canonical (mem sys)) a empty_commit (g_inv _ _ _ _ _ _ _ _ _ G) Hfit) as Hspec.
    rewrite Hlv in Hspec.
    assert (Sdb.canonicalize_block (get_meta (disk sys)) a (mem sys) = (mem sys, Err (StateDb InvalidBlock))) as ->.
    { unfold Sdb.canonicalize_block. rewrite st_get_bind. pose proof (g_window _ _ _ _ _ _ _ _ _ G) as Hw. unfold window_good in Hw.
      rewrite bool_decide_eq_false_2 by (intros Hm; by rewrite Hm in Hw).
      unfold st_map_err, mbind, st_bind. rewrite (overlay_eq _ _ _ _ Hspec). by rewrite set_same. }
    eexists. split; [done|]. by destruct sys.
  - destruct (canonicalize_block_spec (DbError := unit) block value_of state origin C p w (mem sys) (effective sys) a (get_meta (disk sys)) G Hfit Hlv)
      as (s' & js & dm & w1 & w2 & t' & commit & -> & Hc & Hnc & Heq & Hch & G' & Hm & Hp & Hr & _).
    eexists. split; [done|]. eapply (returned_ok sys t' [commit]); try done; [|by rewrite Hp].
    rewrite Hnc. eapply on_disk_mono; [done|..].
    + intros x Hx. assert (x ∉ a :: dm ++ hashes (levels s')) as Hno.
      { rewrite <- (c_hashes _ _ _ _ _ _ _ _ Hc). intros Hin. pose proof (pre_pi _ _ _ _ _ _ (i_pre _ _ _ _ (g_inv _ _ _ _ _ _ _ _ _ G)) x Hin) as Hpi.
        simpl in Hpi. rewrite Hpi in Hx. by destruct Hx. }
      apply not_elem_of_cons in Hno as [Hne Hno]. apply not_elem_of_app in Hno as [Hdm _]. by rewrite (c_pi _ _ _ _ _ _ _ _ Hc x Hne Hdm).
    + intros k Hk. rewrite Heq in Hch. rewrite <- (held_pruned block state p w1 w2 Hch) in Hk. apply elem_of_difference in Hk as [Hk _]. rewrite <- Heq in Hk.
      unfold PruningFacts.held in *. rewrite ins_all_app in Hk. unfold ins_all in Hk at 2. simpl in Hk.
      destruct (decide (k ∈ ins block a)) as [Ha|Ha]; [|left; set_solver]. right. exists a. rewrite (c_canonical _ _ _ _ _ _ _ _ Hc). eauto.
Qed.

Lemma call_ok sys c : sys_ok sys -> allowed sys c -> exists sys', exec c sys = Some sys' /\ sys_ok sys'.
Proof.
  intros Hok Ha. destruct c as [hash number parent cs|a| |hash|hash number hint|hash| |]; [by apply insert_ok|by apply canonicalize_ok|..];
    pose proof Hok as [(C & p & w & G & Hd) (C0 & p0 & w0 & t0 & G0 & Hm0) Hpos Hrc]; unfold exec.
  - destruct (revert_one_good (DbError := unit) block value_of state origin C p w (mem sys) (effective sys) G) as (nc' & r & -> & HPI & Hr).
    eexists. split; [done|]. destruct r as [commit|].
    + destruct Hr as [G' _]. eapply (returned_ok sys _ [commit]); try done. simpl. eapply on_disk_mono; [done|by rewrite HPI|by auto].
    + subst nc'. rewrite set_same. by eapply (returned_ok sys _ []).
  - destruct (remove_good (DbError := unit) block value_of state origin C p w (mem sys) (effective sys) hash G) as (nc' & r & -> & HPI & G' & _).
    eexists. split; [done|]. eapply (returned_ok sys _ (optional r) C p w); try done.
    + destruct r as [commit|]; [done|]. simpl in *. assert (apply_state_commit empty_commit (effective sys) = effective sys) as He by (by destruct (effective sys)).
      by rewrite He in G'.
    + simpl. eapply on_disk_mono; [done|by rewrite HPI|by auto].
  - destruct Ha as (Hal & Hn & Hf1 & Hf2).
    destruct (pin_good (DbError := unit) block value_of state origin C p w (mem sys) (effective sys) hash number hint G Hpos Hal Hn Hf1 Hf2)
      as (t' & r & -> & G' & HPI & Hm & Hr & Hpos' & _).
    eexists. split; [done|]. eapply (returned_ok sys t' []); try done. eapply on_disk_mono; [done|by rewrite HPI|by auto].
  - destruct (unpin_good (DbError := unit) block value_of state origin C p w (mem sys) (effective sys) hash G Hpos)
      as (t' & -> & G' & Hm & Hr & Hpos' & HPI & Hkeep & _).
    eexists. split; [done|]. eapply (returned_ok sys t' []); try done. destruct Ha as [Hp|Ha]; [by eapply written_on_disk|].
    eapply on_disk_mono; [done|by rewrite (Hkeep Ha)|by auto].
  - eexists. split; [done|]. split; simpl; try done.
    + exists C, p, w. split; [done|]. by apply (written_on_disk {| mem := mem sys; disk := effective sys; pending := [] |} C).
    + by exists C, p, w, (mem sys).
  - simpl in Ha. destruct (sync_good (DbError := unit) block value_of state origin C p w (mem sys) (effective sys) G) as (nc' & -> & G').
    eexists. split; [done|]. eapply (returned_ok sys _ []); try done. by eapply written_on_disk.
Qed.

(** With enough fuel a restart succeeds, whatever was pending. *)
Lemma restart_ok sys :
  sys_ok sys -> is_Some (metas (disk sys) !! to_meta_key LAST_CANONICAL tt) ->
  exists n t, (forall fuel, (n <= fuel)%nat -> Sdb.new (get_meta (disk sys)) fuel (mode (mem sys)) (ref_counting (mem sys)) = Some (Ok t)) /\
    sys_ok {| mem := t; disk := disk sys; pending := [] |}.
Proof.
  intros [_ (C & p & w & t & G & Hm) _ Hrc] Hs. exists (S (length (levels (non_canonical t)) + length w))%nat.
  destruct (new_good block value_of state origin C p w t (disk sys) (get_meta (disk sys)) (S (length (levels (non_canonical t)) + length w)) G)
    as (nc' & Hnew & G' & _); [done|done|lia|lia|].
  eexists. split.
  - intros fuel Hfuel. rewrite <- Hm, Hrc. replace fuel with (S (length (levels (non_canonical t)) + length w) + (fuel - S (length (levels (non_canonical t)) + length w)))%nat by lia.
    by eapply sdb_new_fuel.
  - split; simpl; try done.
    + exists C, p, w. split; [done|]. by eapply (written_on_disk {| mem := _; disk := disk sys; pending := [] |} C).
    + by exists C, p, w, t.
Qed.

Lemma step_ok sys sys' : sys_ok sys -> step sys sys' -> sys_ok sys'.
Proof.
  intros Hok [c ? Ha Hx|fuel t Hs Hnew].
  - destruct (call_ok sys c Hok Ha) as (? & Hx' & ?). congruence.
  - destruct (restart_ok sys Hok Hs) as (n & t' & Hbig & Hok'). specialize (Hbig (fuel + n)%nat ltac:(lia)).
    rewrite (sdb_new_fuel _ _ _ _ _ _ Hnew) in Hbig. by injection Hbig as ->.
Qed.

(** ** A new database *)
Lemma mode_key_other :
  to_meta_key LAST_CANONICAL tt <> to_meta_key PRUNING_MODE tt /\ to_meta_key LAST_PRUNED tt <> to_meta_key PRUNING_MODE tt /\
  (forall n i, to_journal_key n i <> to_meta_key PRUNING_MODE tt) /\ (forall n, to_pruning_key n <> to_meta_key PRUNING_MODE tt).
Proof. split_and!; intros; apply not_eq_sym, meta_key_suffix; vm_compute; first [lia|done]. Qed.

Lemma good_start t m :
  holds value_of (nodes m) (state origin) -> (forall k : bytes, k <> to_meta_key PRUNING_MODE tt -> metas m !! k = None) ->
  non_canonical t = restored None [] ∅ ∅ ->
  match mode t with
  | Constrained c => 0 <= default 0 (max_blocks c) /\ pruning t = Some {| queue := Mem [] ∅; base := 0 |}
  | ArchiveCanonical => pruning t = None
  | ArchiveAll => False
  end -> good ∅ origin [] t m.
Proof.
  intros Hn Hm Hnc Hmode. destruct mode_key_other as (Hk1 & Hk2 & Hk3 & Hk4).
  assert (journaled block value_of (non_canonical t) (metas m)) as Hj.
  { rewrite Hnc. split; simpl; [by apply Hm|by intros b ?%elem_of_nil|]. intros n i _ _ [? Hs]. by rewrite Hm in Hs. }
  split; rewrite ?Hnc; simpl; try done.
  - split; simpl; try done.
    + split; simpl; try done; try (by intros ? ?%elem_of_nil). constructor.
    + intros x [? Hx]. by rewrite lookup_empty in Hx.
    + split; [by intros ???|by intros ????|by intros y [? Hy]].
    + exists origin. done.
    + by intros b Hb%elem_of_nil.
  - by rewrite <- Hnc.
  - unfold window_good. destruct (mode t) as [c| |]; [|done..]. destruct Hmode as [Hlim Hw]. split; [done|]. eexists. split; [done|].
    split; [split; simpl; try done|].
    + exists ∅. split; [done|]. intros k b. split; [done|]. by intros (i & r & ? & _).
    + by right.
    + split; simpl; [by apply Hm|done|]. intros n _. by apply Hm.
  - intros k. rewrite (Hn k). apply decide_ext. unfold PruningFacts.held, ins_all. simpl. set_solver.
  - intros x [?%elem_of_nil|[? Hx]]; [done|]. by rewrite lookup_empty in Hx.
  - split_and!; [done|by intros x ?%elem_of_nil|]. by intros k.
Qed.

Lemma open_new (m : Store Key) fuel requested commit t :
  metas m = ∅ -> Sdb.open (get_meta m) fuel requested true true = Some (Ok (commit, t)) ->
  let md := default default_mode requested in
  commit = meta_insert (to_meta_key PRUNING_MODE tt) (mode_id md) empty_commit /\
  t = {| mode := md; non_canonical := restored None [] ∅ ∅;
         pruning := match md with Constrained _ => Some {| queue := Mem [] ∅; base := 0 |} | _ => None end; pins := ∅; ref_counting := true |}.
Proof.
  intros Hm. unfold Sdb.open, Sdb.fetch_stored_pruning_mode, Sdb.new, NonCanonical.new, read_last_canonicalized, new_window, read_base, read_last_number, new_mem, get_meta.
  rewrite Hm. cbn. destruct (default default_mode requested) as [c| |].
  - destruct fuel as [|fuel]; [done|]. cbn. rewrite lookup_empty. cbn. by intros [= <- <-].
  - by intros [= <- <-].
  - by intros [= <- <-].
Qed.

Lemma reachable_ok sys : reachable sys -> sys_ok sys.
Proof.
  induction 1 as [m fuel requested commit t Hn Hm Hmode Hopen|sys sys' _ IH Hstep]; [|by eapply step_ok].
  destruct (open_new _ _ _ _ _ Hm Hopen) as [-> ->]. set (md := default default_mode requested) in *.
  assert (forall m', nodes m' = nodes m -> (forall k : bytes, k <> to_meta_key PRUNING_MODE tt -> metas m' !! k = None) ->
    good ∅ origin [] {| mode := md; non_canonical := restored None [] ∅ ∅;
         pruning := match md with Constrained _ => Some {| queue := Mem [] ∅; base := 0 |} | _ => None end; pins := ∅; ref_counting := true |} m') as Hgood.
  { intros m' Hn' Hk. apply good_start; simpl; [by rewrite Hn'|done|done|]. by destruct md. }
  split; simpl.
  - exists ∅, origin, []. split.
    + apply Hgood; [done|]. intros k Hk. unfold effective. simpl. rewrite Hm. unfold apply_changes. simpl. by rewrite lookup_insert_ne.
    + intros k Hk. left. rewrite (Hn k), decide_True; [done|]. unfold PruningFacts.held, ins_all in Hk. simpl in Hk. set_solver.
  - exists ∅, origin, []. eexists. split; [apply Hgood; [done|]|done]. intros k _. rewrite Hm. apply lookup_empty.
  - intros x r. by rewrite lookup_empty.
  - done.
Qed.
End system.
