(* ===== verification/PruningStall.v ===== *)
(** * The state database: a pruning window that never moves

    [NonCanonicalOverlay::insert] writes [LAST_CANONICAL] for the assumed canonical parent of
    the first block of a database, while [RefWindow::new] relies on that entry being written
    only together with a pruning record.  In a database that counts references, a restart
    between the two takes the window to begin at block 0 and to be filled up to the parent;
    the record of block 0 does not exist and never will, so that nothing is pruned by any
    later history. *)
From stdpp Require Import base gmap list.
From Stdlib Require Import ZArith Lia.
From S2P Require Import Prelude StateDbBase NonCanonical Pruning StateDb StateDbSystem.
Set Warnings "-clear-no-such-hyp".
Open Scope Z_scope.

Lemma wlp_any {S E A} (op : ST S E A) s : wlp op (fun _ _ => True) s.
Proof. unfold wlp. by destruct (op s) as [? [| |]]. Qed.

(** What holds of the state and the result if an operation does not panic. *)
Definition ends {S E A} (op : ST S E A) (Q : A -> S -> Prop) (F : S -> Prop) (s : S) : Prop :=
  match op s with (s', Ok a) => Q a s' | (s', Err _) => F s' | (_, Panic) => True end.

Lemma ends_bind {S E A B} (m : ST S E A) (k : A -> ST S E B) Q F s :
  ends m (fun a => ends (k a) Q F) F s -> ends (x ← m; k x) Q F s.
Proof. unfold ends, mbind, st_bind. by destruct (m s) as [s' [a|e|]]. Qed.

Lemma ends_keeps {S E A X} (f : S -> X) (op : ST S E A) (Q : A -> S -> Prop) (F : S -> Prop) s :
  keeps f op -> (forall a s', f s' = f s -> Q a s') -> (forall s', f s' = f s -> F s') -> ends op Q F s.
Proof. intros Hk HQ HF. specialize (Hk s). unfold ends. destruct (op s) as [s' [a|e|]]; auto. Qed.

Section stall.
Context {BlockHash Key : Type} `{Countable BlockHash} `{Countable Key}.
Context `{Codec unit, CodecLaws Z is_u64, CodecLaws (BlockHash * Z) numbered, Codec (Z * Z),
  Codec (JournalRecord BlockHash Key), Codec (PruningRecord BlockHash Key)}.

Abbreviation System := (System BlockHash Key).
Abbreviation StateDbSync := (StateDbSync BlockHash Key).
Abbreviation CommitSet := (CommitSet Key).
Implicit Types (sys : System) (t : StateDbSync) (c : CommitSet) (h : BlockHash).

(** ** Changes that prune nothing *)

(** The entries that a window that stands still must never get. *)
Definition awaited (k : bytes) : Prop := k = to_pruning_key 0 \/ k = to_meta_key LAST_PRUNED tt.

Definition quiet_meta c : Prop := forall k v, (k, v) ∈ inserted (meta c) -> ~ awaited k.

(** No node is deleted, block 0 gets no record, and no block is noted as pruned. *)
Definition quiet c : Prop := deleted (data c) = [] /\ quiet_meta c.

Lemma quiet_empty : quiet empty_commit.
Proof. split; [done|]. intros k v Hk. by apply not_elem_of_nil in Hk. Qed.

Lemma quiet_meta_insert k v c : ~ awaited k -> quiet_meta c -> quiet_meta (meta_insert k v c).
Proof.
  intros Hk Hc k' v' Hin. simpl in Hin. apply elem_of_app in Hin as [Hin|Hin]; [by eapply Hc|].
  apply list_elem_of_singleton in Hin. by injection Hin as -> ->.
Qed.

Lemma last_canonical_not_awaited : ~ awaited (to_meta_key LAST_CANONICAL tt).
Proof. intros [Hk|Hk]; [by apply last_canonical_not_pruning in Hk|by apply (eq_sym (x := _)), last_pruned_not_canonical in Hk]. Qed.

Lemma journal_not_awaited n i : ~ awaited (to_journal_key n i).
Proof. intros [Hk|Hk]; symmetry in Hk; [by apply pruning_not_journal in Hk|by apply last_pruned_not_journal in Hk]. Qed.

Lemma record_not_awaited n : 0 < n < 2 ^ 64 -> ~ awaited (to_pruning_key n).
Proof.
  intros Hn [Hk|Hk]; [|by apply (eq_sym (x := _)), last_pruned_not_pruning in Hk].
  apply meta_key_inj in Hk; unfold is_u64; lia.
Qed.

Lemma awaited_kept c (m : gmap bytes DBValue) k :
  quiet_meta c -> awaited k -> m !! k = None -> apply_changes (meta c) m !! k = None.
Proof.
  intros Hq Hk Hm. rewrite apply_changes_lookup. case_decide; [done|].
  destruct (last (filter _ _)) as [[k' v]|] eqn:Hl; [|done].
  apply last_Some_elem_of, list_elem_of_filter in Hl as [-> Hin]. by destruct (Hq k v Hin).
Qed.

(** ** The changes of the overlay *)
Lemma insert_checks_quiet number parent front (s : NonCanonicalOverlay BlockHash Key) :
  wlp (insert_checks number parent front) (fun c _ => quiet c) s.
Proof.
  unfold insert_checks. apply wlp_bind, wlp_get. destruct (last_canonicalized s) as [[h n]|].
  - destruct (number <? front); [by apply wlp_lift|]. apply wlp_bind, wlp_lift. intros top _.
    destruct (top <? number); [by apply wlp_lift|]. destruct (number =? front).
    + apply wlp_bind, wlp_lift. intros prev _. destruct (_ && _); [apply quiet_empty|by apply wlp_lift].
    + destruct (have_block s parent); [apply quiet_empty|by apply wlp_lift].
  - destruct (_ && _); [|apply quiet_empty]. apply wlp_bind, wlp_lift. intros prev _. apply wlp_bind, wlp_modify.
    split; [done|]. apply quiet_meta_insert; [apply last_canonical_not_awaited|apply quiet_empty].
Qed.

Lemma insert_shape (P : CommitSet -> Prop) hash number parent cs (s : NonCanonicalOverlay BlockHash Key) :
  (forall front, wlp (insert_checks number parent front) (fun c _ => P c) s) ->
  wlp (insert hash number parent cs) (fun c _ => exists i v c', c = meta_insert (to_journal_key number i) v c' /\ P c') s.
Proof.
  intros HP. unfold insert. apply wlp_bind, wlp_get. apply wlp_bind, wlp_lift. intros front _.
  apply wlp_bind. eapply wlp_mono; [apply HP|]. intros c s1 Hc.
  apply wlp_bind. eapply wlp_mono; [apply wlp_any|].
  intros i s2 _. apply wlp_bind, wlp_get. apply wlp_bind, wlp_lift. intros level _.
  destruct (_ <=? _); [by apply wlp_lift|]. destruct (existsb _ _); [by apply wlp_lift|]. cbv zeta.
  apply wlp_bind, wlp_lift. intros level' _. apply wlp_bind, wlp_modify. apply wlp_bind, wlp_lift. intros vals _.
  apply wlp_bind, wlp_modify. unfold wlp. simpl. eauto.
Qed.

Lemma insert_quiet hash number parent cs (s : NonCanonicalOverlay BlockHash Key) :
  wlp (insert hash number parent cs) (fun c _ => quiet c) s.
Proof.
  eapply wlp_mono; [apply (insert_shape quiet); intros front; apply insert_checks_quiet|].
  intros c _ (i & v & c' & -> & Hd & Hq). split; [done|]. by apply quiet_meta_insert; [apply journal_not_awaited|].
Qed.

Lemma drop_block_quiet {E} c overlay (s : NonCanonicalOverlay BlockHash Key) :
  quiet c -> wlp (drop_block (E := E) c overlay) (fun c _ => quiet c) s.
Proof.
  intros Hc. unfold drop_block. apply wlp_bind, wlp_get. apply wlp_bind, wlp_lift. intros vals _.
  by apply wlp_bind, wlp_modify.
Qed.

Lemma revert_one_quiet {E} (s : NonCanonicalOverlay BlockHash Key) :
  wlp (NonCanonical.revert_one (E := E)) (fun r _ => Forall quiet (optional r)) s.
Proof.
  unfold NonCanonical.revert_one. apply wlp_bind, wlp_get. destruct (last (levels s)) as [level|]; [|constructor].
  apply wlp_bind, wlp_modify. apply wlp_bind.
  eapply wlp_mono; [apply (wlp_for _ (fun c _ => quiet c)); [apply quiet_empty|]|].
  - intros b c s' _ Hc. by apply drop_block_quiet.
  - intros c s' Hc. by constructor; [|constructor].
Qed.

Lemma remove_from_quiet {E} hash count c idx (s : NonCanonicalOverlay BlockHash Key) :
  quiet c -> wlp (remove_from (E := E) hash count c idx) (fun r _ => Forall quiet (optional r)) s.
Proof.
  revert s. induction idx as [|[i level] idx IH]; intros s Hc; simpl; [by constructor; [|constructor]|].
  destruct (position _ _) as [index|]; [|by apply IH]. apply wlp_bind, wlp_get.
  destruct (_ && _); [constructor|]. apply wlp_bind, wlp_lift. intros [overlay level'] _.
  apply wlp_bind, wlp_modify. apply wlp_bind. eapply wlp_mono; [by apply drop_block_quiet|].
  intros c' s' Hc'. by constructor; [|constructor].
Qed.

Lemma remove_quiet {E} hash (s : NonCanonicalOverlay BlockHash Key) :
  wlp (NonCanonical.remove (E := E) hash) (fun r _ => Forall quiet (optional r)) s.
Proof.
  unfold NonCanonical.remove. apply wlp_bind, wlp_get. apply wlp_bind.
  eapply wlp_mono; [apply remove_from_quiet, quiet_empty|]. intros [c|] s' Hc; [|constructor].
  apply wlp_bind, wlp_get. apply wlp_bind.
  eapply wlp_mono; [apply wlp_any|]. intros _ s'' _.
  unfold wlp. simpl. by case_bool_decide; [constructor|].
Qed.

(** The nodes that [canonicalize] asks to delete are dropped again by [note_canonical]. *)
Lemma canonicalize_quiet hash (s : NonCanonicalOverlay BlockHash Key) :
  wlp (canonicalize hash empty_commit) (fun r _ => quiet_meta r.1) s.
Proof.
  unfold canonicalize. apply wlp_bind, wlp_get. destruct (levels s) as [|level rest]; [by apply wlp_lift|].
  apply wlp_bind, wlp_modify. apply wlp_bind, wlp_lift. intros index _.
  apply wlp_bind. eapply wlp_mono; [apply wlp_any|].
  intros _ s1 _. apply wlp_bind, wlp_modify. apply wlp_bind.
  eapply wlp_mono; [apply (wlp_for _ (fun acc _ => inserted (meta acc.1) = [])); [done|]|].
  - intros [i overlay] [c js] s2 _ Hc. unfold canonicalize_block. apply wlp_bind.
    eapply (wlp_mono _ (fun acc _ => inserted (meta acc.1.1) = [])).
    + apply wlp_bind, wlp_get. case_bool_decide.
      * apply wlp_bind, wlp_lift. by intros ins _.
      * apply wlp_bind, wlp_lift. intros d _. apply wlp_bind, wlp_lift. intros [[lv t] n] _. by apply wlp_bind, wlp_modify.
    + intros [[c' js'] n] s3 Hc'. apply wlp_bind, wlp_get. apply wlp_bind, wlp_lift. intros n' _.
      apply wlp_bind, wlp_lift. intros t _. by apply wlp_bind, wlp_modify.
  - intros [c js] s2 Hc. cbv zeta. apply wlp_bind, wlp_get. apply wlp_bind, wlp_lift. intros number _.
    apply wlp_bind, wlp_modify. apply quiet_meta_insert; [apply last_canonical_not_awaited|].
    intros k v. simpl. simpl in Hc. rewrite Hc. by intros ?%not_elem_of_nil.
Qed.

(** ** The last canonical block *)
Abbreviation last_number s := (last_canonicalized_block_number s).

Lemma revert_one_last {E} : keeps (@last_canonicalized BlockHash Key _ _ _ _) (NonCanonical.revert_one (E := E)).
Proof. unfold NonCanonical.revert_one, drop_block. repeat solve_keeps. Qed.

Lemma unpin_last {E} h : keeps (@last_canonicalized BlockHash Key _ _ _ _) (NonCanonical.unpin (E := E) h).
Proof. unfold NonCanonical.unpin. repeat solve_keeps. Qed.

Lemma sync_last {E} : keeps (@last_canonicalized BlockHash Key _ _ _ _) (NonCanonical.sync (E := E)).
Proof. unfold NonCanonical.sync. repeat solve_keeps. apply unpin_last. Qed.

Lemma pin_last {E} h : keeps (@last_canonicalized BlockHash Key _ _ _ _) (NonCanonical.pin (E := E) h).
Proof. unfold NonCanonical.pin. repeat solve_keeps. Qed.

Lemma remove_from_last {E} h n c idx :
  keeps (@last_canonicalized BlockHash Key _ _ _ _) (remove_from (E := E) h n c idx).
Proof. induction idx as [|[i level] idx IH]; simpl; [apply keeps_ret|]. unfold drop_block. by repeat solve_keeps. Qed.

Lemma remove_last {E} h : keeps (@last_canonicalized BlockHash Key _ _ _ _) (NonCanonical.remove (E := E) h).
Proof. unfold NonCanonical.remove. repeat solve_keeps. apply remove_from_last. Qed.

Lemma insert_last hash number parent cs (s : NonCanonicalOverlay BlockHash Key) :
  is_Some (last_canonicalized s) -> last_canonicalized (insert hash number parent cs s).1 = last_canonicalized s.
Proof.
  intros [[h n] Hl]. unfold insert. rewrite st_get_bind. unfold mbind at 1, st_bind at 1, st_lift.
  destruct (front_block_number s) as [front| |]; [|done..].
  unfold mbind at 1, st_bind at 1.
  assert ((insert_checks number parent front s).1 = s) as Hc.
  { unfold insert_checks. rewrite st_get_bind, Hl. repeat (case_match || unfold mbind, st_bind, st_lift, mret, st_ret); done. }
  destruct (insert_checks number parent front s) as [s1 [c|e|]]; simpl in Hc; subst s1; [|done..].
  match goal with |- last_canonicalized (?op s).1 = _ => apply (fun H : keeps last_canonicalized op => H s) end.
  unfold insert_level. repeat solve_keeps; by intros ?.
Qed.

Lemma canonicalize_last hash l (s : NonCanonicalOverlay BlockHash Key) :
  last_number s = Some l ->
  ends (canonicalize hash empty_commit)
    (fun r s' => r.2 = l + 1 /\ l + 1 < 2 ^ 64 /\ last_number s' = Some (l + 1)) (fun s' => last_number s' = Some l) s.
Proof.
  unfold last_canonicalized_block_number. intros Hl. unfold canonicalize. apply ends_bind. unfold ends at 1, st_get.
  destruct (levels s) as [|level rest]; [done|].
  apply ends_bind, (ends_keeps last_canonicalized); [repeat solve_keeps| |by intros s' ->]. intros _ s1 E1.
  apply ends_bind, (ends_keeps last_canonicalized); [repeat solve_keeps| |by intros s' ->; rewrite E1]. intros index s2 E2.
  apply ends_bind, (ends_keeps last_canonicalized); [apply pin_last| |by intros s' ->; rewrite E2, E1]. intros _ s3 E3.
  apply ends_bind, (ends_keeps last_canonicalized); [repeat solve_keeps| |by intros s' ->; rewrite E3, E2, E1]. intros _ s4 E4.
  apply ends_bind, (ends_keeps last_canonicalized); [unfold canonicalize_block; repeat solve_keeps| |by intros s' ->; rewrite E4, E3, E2, E1].
  intros [c js] s5 E5. cbv zeta. apply ends_bind. unfold ends at 1, st_get.
  rewrite <- E1, <- E2, <- E3, <- E4, <- E5 in Hl. destruct (last_canonicalized s5) as [[h n]|] eqn:Hs5; [|done].
  injection Hl as ->. apply ends_bind. unfold ends at 1, st_lift, front_block_number. rewrite Hs5.
  unfold add_u, checked_add. destruct (Z.ltb_spec (l + 1) (2 ^ 64)); [|done]. simpl.
  apply ends_bind. unfold ends at 1, st_modify. done.
Qed.

(** ** A window that stands still *)
Definition stalled (cap l : Z) : RefWindow BlockHash Key := {| queue := DbBacked [] cap (Some l); base := 0 |}.

Lemma stalled_size cap l : 0 <= l -> l + 1 < 2 ^ 64 -> window_size (DbError := unit) (stalled cap l) = Ok (l + 1).
Proof.
  intros Hl Hu. unfold window_size. simpl. rewrite add_u_ok by lia. cbn [mbind res_bind].
  rewrite sub_u_ok by lia. f_equal. lia.
Qed.

Section window.
Context (m : Store Key).
Hypothesis no_record : metas m !! to_pruning_key 0 = None.

Lemma load_nothing cap : load_batch_from_db (BlockHash := BlockHash) (get_meta m) 0 cap [] = ([], Ok tt).
Proof.
  unfold load_batch_from_db. rewrite st_get_bind. rewrite (st_lift_ok _ _ _ 0) by done.
  destruct (seqZ 0 cap) as [|i rest] eqn:Hs; [done|].
  assert (i = 0) as ->.
  { assert (seqZ 0 cap !! O = Some i) as Hi by by rewrite Hs. apply lookup_seqZ in Hi as [-> _]. done. }
  cbn [load_batch]. rewrite (st_lift_ok _ _ _ 0) by done.
  rewrite (st_lift_ok _ _ _ None); [done|]. unfold load_death_row_from_db, get_meta. by rewrite no_record.
Qed.

Lemma fill_nothing cap : fill_cache (BlockHash := BlockHash) (get_meta m) 0 cap [] = ([], Ok tt).
Proof. unfold fill_cache. rewrite st_get_bind, bool_decide_eq_true_2 by done. apply load_nothing. Qed.

Lemma prune_stalled fuel limit pinned c cap l :
  0 <= l ->
  Sdb.prune_loop (get_meta m) (S fuel) limit pinned c (stalled cap l) =
    Some (stalled cap l, if l + 1 <? 2 ^ 64 then Ok c else Panic).
Proof.
  intros Hl. cbn [Sdb.prune_loop]. destruct (Z.ltb_spec (l + 1) (2 ^ 64)).
  2:{ unfold window_size. simpl. unfold add_u, checked_add. by rewrite (proj2 (Z.ltb_ge _ _)) by lia. }
  rewrite (stalled_size cap l) by done. destruct (l + 1 <=? limit); [done|].
  unfold next_hash. simpl. rewrite fill_nothing. simpl.
  unfold prune_one, pop_row. unfold mbind at 1, st_bind at 1. simpl. rewrite fill_nothing. simpl. done.
Qed.
End window.

Lemma note_stalled hash c cap l :
  0 <= l -> l + 1 < 2 ^ 64 -> quiet_meta c ->
  exists c', note_canonical (DbError := unit) hash (l + 1) c (stalled cap l) = (stalled cap (l + 1), Ok c') /\ quiet c'.
Proof.
  intros Hl Hu Hc. unfold note_canonical.
  assert (note_base (DbError := unit) (l + 1) c (stalled cap l) = (stalled cap l, Ok c)) as Hb.
  { unfold note_base. rewrite st_get_bind. unfold window_is_empty. rewrite (stalled_size cap l) by lia.
    cbn [mbind res_bind]. rewrite (st_lift_ok _ _ _ (l + 1 =? 0)) by done. rewrite (proj2 (Z.eqb_neq (l + 1) 0)) by lia.
    rewrite andb_false_r. cbn [andb]. rewrite (st_lift_ok _ _ _ (l + 1)) by done.
    simpl base. rewrite (st_lift_ok _ _ _ (0 + (l + 1))) by (apply add_u_ok; lia). by rewrite Z.eqb_refl. }
  rewrite (st_bind_ok _ _ _ _ _ Hb), st_get_bind. cbv zeta.
  rewrite (st_lift_ok _ _ _ (DbBacked [] cap (Some (l + 1)))).
  2:{ unfold import. simpl queue. cbv iota beta. simpl base. rewrite add_u_ok by (simpl; lia). cbn [mbind res_bind].
      rewrite (proj2 (Z.eqb_neq _ _)) by (simpl; lia). done. }
  eexists. split; [done|]. split; [done|]. apply quiet_meta_insert; [apply record_not_awaited; lia|done].
Qed.

(** ** Histories *)

(** The window begins at block 0, ends with the last canonical block [l] and has no rows;
    neither the disk nor a pending change has what it waits for. *)
Record stuck sys (l : Z) : Prop := {
  sk_mode : exists cs, mode (mem sys) = Constrained cs;
  sk_count : ref_counting (mem sys) = false;
  sk_window : exists cap, pruning (mem sys) = Some (stalled cap l);
  sk_last : last_number (non_canonical (mem sys)) = Some l;
  sk_bound : 0 <= l /\ l + 1 < 2 ^ 64;
  sk_disk : forall k, awaited k -> metas (disk sys) !! k = None;
  sk_pending : Forall quiet (pending sys);
}.

(** An operation that leaves the window and the last canonical block alone. *)
Lemma returned_stuck {A} sys sys' l (commit : A -> list CommitSet) (r : StateDbSync * res (Error unit) A) :
  stuck sys l -> returned sys commit r = Some sys' ->
  mode r.1 = mode (mem sys) /\ ref_counting r.1 = ref_counting (mem sys) /\ pruning r.1 = pruning (mem sys) /\
    last_canonicalized (non_canonical r.1) = last_canonicalized (non_canonical (mem sys)) ->
  (forall a, r.2 = Ok a -> Forall quiet (commit a)) -> stuck sys' l.
Proof.
  intros [Hm Hc Hw Hl Hb Hd Hp] Hr (Em & Ec & Ew & El) Hq. unfold last_canonicalized_block_number in *.
  destruct r as [t [a|e|]]; simpl in *; [| |done]; injection Hr as <-; split; simpl; try done;
    unfold last_canonicalized_block_number; rewrite ?Em, ?Ec, ?Ew, ?El; try done.
  apply Forall_app. auto.
Qed.

Lemma overlay_frame {E A} (op : ST (NonCanonicalOverlay BlockHash Key) E A) t :
  mode (Sdb.overlay op t).1 = mode t /\ ref_counting (Sdb.overlay op t).1 = ref_counting t /\
  pruning (Sdb.overlay op t).1 = pruning t /\
  non_canonical (Sdb.overlay op t).1 = (op (non_canonical t)).1 /\ (Sdb.overlay op t).2 = (op (non_canonical t)).2.
Proof. unfold Sdb.overlay. by destruct (op (non_canonical t)). Qed.

Lemma overlay_stuck {A} sys sys' l (commit : A -> list CommitSet) (op : ST (NonCanonicalOverlay BlockHash Key) (Error unit) A) :
  stuck sys l -> returned sys commit (Sdb.overlay op (mem sys)) = Some sys' -> keeps last_canonicalized op ->
  wlp op (fun a _ => Forall quiet (commit a)) (non_canonical (mem sys)) -> stuck sys' l.
Proof.
  intros Hs Hr Hk Hq. destruct (overlay_frame op (mem sys)) as (Em & Ec & Ew & En & Er).
  eapply returned_stuck; [done|done|split_and!; try done; by rewrite En|]. intros a Ha. rewrite Er in Ha.
  unfold wlp in Hq. destruct (op (non_canonical (mem sys))) as [nc r]. simpl in Ha. by subst r.
Qed.

Lemma insert_stuck sys sys' l hash number parent cs :
  stuck sys l -> exec (InsertBlock hash number parent cs) sys = Some sys' -> stuck sys' l.
Proof.
  intros Hs. pose proof Hs as [[c Hm] _ _ Hl _ _ _]. simpl. unfold Sdb.insert_block. rewrite st_get_bind, Hm.
  intros Hr. destruct (overlay_frame (insert hash number parent cs) (mem sys)) as (Em & Ec & Ew & En & Er).
  pose proof (insert_quiet hash number parent cs (non_canonical (mem sys))) as Hq.
  assert (is_Some (last_canonicalized (non_canonical (mem sys)))) as Hsome.
  { unfold last_canonicalized_block_number in Hl. destruct (last_canonicalized _); [eauto|done]. }
  pose proof (insert_last hash number parent cs _ Hsome) as Hlast.
  assert (forall c', (insert hash number parent cs (non_canonical (mem sys))).2 = Ok c' -> Forall quiet [c']) as Hq'.
  { intros c' Hc'. constructor; [|constructor]. unfold wlp in Hq.
    destruct (insert hash number parent cs (non_canonical (mem sys))) as [nc r']. simpl in Hc'. by subst r'. }
  eapply returned_stuck; [done|exact Hr|..]; unfold st_map_err;
    destruct (Sdb.overlay (insert hash number parent cs) (mem sys)) as [t [c'|e|]]; simpl in *; try done;
    try (by split_and!; rewrite ?En). intros c2 [= <-]. by apply Hq'.
Qed.

Lemma prune_keeps_window sys l c cap t :
  stuck sys l -> mode t = mode (mem sys) -> pruning t = Some (stalled cap (l + 1)) ->
  Sdb.prune (get_meta (disk sys)) c t = (t, if l + 1 + 1 <? 2 ^ 64 then Ok c else Panic).
Proof.
  intros [[k Hm] _ _ _ Hb Hd _] Em Ew. unfold Sdb.prune. rewrite Ew, Em, Hm.
  assert (exists fuel, Sdb.prune_fuel (DbError := unit) (stalled cap (l + 1)) = S fuel) as [fuel ->].
  { unfold Sdb.prune_fuel. destruct (window_size _); eauto. }
  rewrite prune_stalled; [|by apply Hd; left|lia]. destruct t; simpl in *; by subst.
Qed.

(** Canonicalizing a block makes the window longer by one and prunes nothing. *)
Lemma canonicalize_stuck sys sys' l hash :
  stuck sys l -> exec (CanonicalizeBlock hash) sys = Some sys' ->
  (stuck sys' l /\ pending sys' = pending sys) \/ stuck sys' (l + 1).
Proof.
  intros Hs. pose proof Hs as [[k Hm] Hrc [cap Hw] Hl Hb Hd Hp]. simpl.
  pose proof (canonicalize_last hash l (non_canonical (mem sys)) Hl) as Hlast.
  pose proof (canonicalize_quiet hash (non_canonical (mem sys))) as Hq. unfold ends, wlp in Hlast, Hq.
  unfold Sdb.canonicalize_block. rewrite st_get_bind, bool_decide_eq_false_2 by by rewrite Hm.
  unfold mbind at 1, st_bind at 1, st_map_err, Sdb.overlay.
  destruct (canonicalize hash empty_commit (non_canonical (mem sys))) as [nc [[c n]|e|]]; [| |done].
  2:{ intros [= <-]. left. split; [|done]. split; simpl; eauto. }
  destruct Hlast as (Hn & Hu & Hlast). simpl in Hn, Hq. subst n. cbv iota beta zeta.
  rewrite bool_decide_eq_false_2 by by rewrite Hm. rewrite st_get_bind. simpl pruning. rewrite Hw.
  destruct (note_stalled hash c cap l) as (c' & Hnote & Hc'); [lia|lia|done|].
  unfold mbind, st_bind, Sdb.window. rewrite Hnote. rewrite (prune_keeps_window sys l c' cap) by done.
  destruct (Z.ltb_spec (l + 1 + 1) (2 ^ 64)); [|done]. intros [= <-]. right. split; simpl; try done; eauto; [lia|].
  apply Forall_app. split; [done|]. by constructor; [|constructor].
Qed.

(** What the other calls leave alone. *)
Definition frame t := (mode t, ref_counting t, pruning t, last_canonicalized (non_canonical t)).

Lemma keeps_overlay {E A} (op : ST (NonCanonicalOverlay BlockHash Key) E A) :
  keeps last_canonicalized op -> keeps frame (Sdb.overlay op).
Proof.
  intros Hk t. destruct (overlay_frame op t) as (Em & Ec & Ew & En & _). unfold frame. by rewrite Em, Ec, Ew, En, Hk.
Qed.

Lemma silent_stuck {A} sys sys' l (op : ST StateDbSync (Error unit) A) :
  stuck sys l -> keeps frame op -> returned sys nothing (op (mem sys)) = Some sys' -> stuck sys' l.
Proof.
  intros Hs Hk Hr. specialize (Hk (mem sys)). injection Hk as Em Ec Ew El.
  by eapply returned_stuck; [done|done|split_and!|].
Qed.

Lemma pin_frame h n hint : keeps frame (Sdb.pin (DbError := unit) h n hint).
Proof. unfold Sdb.pin. repeat solve_keeps; apply keeps_overlay, pin_last. Qed.

Lemma unpin_frame h : keeps frame (Sdb.unpin (DbError := unit) h).
Proof. unfold Sdb.unpin. repeat solve_keeps; apply keeps_overlay, unpin_last. Qed.

Lemma effective_awaited sys k :
  Forall quiet (pending sys) -> awaited k -> metas (disk sys) !! k = None -> metas (effective sys) !! k = None.
Proof.
  unfold effective. intros Hp. generalize (disk sys). induction Hp as [|c cs [_ Hc] _ IH]; intros m Hk Hm; simpl in *; [done|].
  apply IH; [done|]. by apply awaited_kept.
Qed.

Lemma exec_stuck sys sys' l call : stuck sys l -> exec call sys = Some sys' -> exists l', stuck sys' l'.
Proof.
  intros Hs Hx. pose proof Hs as [[k Hm] _ _ _ _ _ _].
  destruct call as [hash number parent cs|hash| |hash|hash number hint|hash| |].
  - exists l. by eapply insert_stuck.
  - destruct (canonicalize_stuck _ _ _ _ Hs Hx) as [[? _]|?]; eauto.
  - exists l. simpl in Hx. unfold Sdb.revert_one in Hx. rewrite st_get_bind, Hm in Hx.
    eapply overlay_stuck; [done|done|apply revert_one_last|apply revert_one_quiet].
  - exists l. simpl in Hx. unfold Sdb.remove in Hx. rewrite st_get_bind, Hm in Hx.
    eapply overlay_stuck; [done|done|apply remove_last|apply remove_quiet].
  - exists l. eapply silent_stuck; [done|apply pin_frame|exact Hx].
  - exists l. eapply silent_stuck; [done|apply unpin_frame|exact Hx].
  - exists l. injection Hx as <-. destruct Hs as [? ? ? ? ? Hd Hp]. split; simpl; try done.
    intros key Hk. by apply effective_awaited; [..|apply Hd].
  - exists l. eapply silent_stuck; [done|apply keeps_overlay, sync_last|exact Hx].
Qed.

Lemma restart_stuck m fuel mo cs h n t :
  mo = Constrained cs -> (forall k, awaited k -> metas m !! k = None) ->
  metas m !! to_meta_key LAST_CANONICAL tt = Some (encode (h, n)) -> is_u64 n ->
  Sdb.new (get_meta m) fuel mo false = Some (Ok t) -> stuck {| mem := t; disk := m; pending := [] |} n.
Proof.
  intros -> Hd Hl Hn. unfold Sdb.new, NonCanonical.new, read_last_canonicalized, get_meta. rewrite Hl.
  cbn [mbind res_bind map_err]. unfold decode_res. rewrite (decode_encode (h, n)) by done. cbn [mbind res_bind ok_or].
  destruct (Z.ltb_spec (n + 1) (2 ^ 64)) as [Hu|Hu].
  2:{ unfold add_u, checked_add. by rewrite (proj2 (Z.ltb_ge _ _)) by lia. }
  rewrite add_u_ok by lia. destruct (read_levels _ _ _ _ _ _) as [[[[lv vals] par]|e|]|]; [|done..].
  cbn. unfold new_window, read_base, read_last_number, get_meta. rewrite (Hd (to_meta_key LAST_PRUNED tt)) by by right.
  cbn [mbind res_bind map_err]. rewrite Hl. cbn [mbind res_bind map_err]. unfold decode_res.
  rewrite (decode_encode (h, n)) by done. cbn [mbind res_bind ok_or]. simpl snd. rewrite add_u_ok by lia.
  cbn [mbind res_bind]. rewrite (proj2 (Z.leb_le 0 (n + 1))) by (unfold is_u64 in Hn; lia). cbn [mbind res_bind].
  unfold new_db_backed. pose proof (load_nothing m (Hd _ (or_introl eq_refl))) as Hload. unfold get_meta in Hload.
  rewrite Hload. cbn. intros [= <-]. split; simpl; eauto; [unfold is_u64 in Hn; lia].
Qed.

(** Any calls, and restarts that find the entry of the last canonical block. *)
Inductive later sys : System -> Prop :=
| later_refl : later sys sys
| later_call sys1 call sys2 : later sys sys1 -> exec call sys1 = Some sys2 -> later sys sys2
| later_restart sys1 fuel h n t :
    later sys sys1 -> metas (disk sys1) !! to_meta_key LAST_CANONICAL tt = Some (encode (h, n)) -> is_u64 n ->
    Sdb.new (get_meta (disk sys1)) fuel (mode (mem sys1)) (ref_counting (mem sys1)) = Some (Ok t) ->
    later sys {| mem := t; disk := disk sys1; pending := [] |}.

Lemma later_stuck sys sys' l : stuck sys l -> later sys sys' -> exists l', stuck sys' l'.
Proof.
  intros Hs. induction 1 as [|sys1 call sys2 _ [l1 IH] Hx|sys1 fuel h n t _ [l1 IH] Hl Hn Hx]; [eauto|by eapply exec_stuck|].
  destruct IH as [[cs Hm] Hc _ _ _ Hd _]. rewrite Hc in Hx. exists n. by eapply restart_stuck.
Qed.

(** ** The first block of a database *)
Lemma mode_key_not_awaited : ~ awaited (to_meta_key PRUNING_MODE tt).
Proof. intros [Hk|Hk]; revert Hk; apply meta_key_suffix; vm_compute; (lia || done). Qed.

(** A database without metadata is opened with an empty overlay. *)
Lemma open_fresh (m : Store Key) fuel requested c t :
  metas m = ∅ -> Sdb.open (get_meta m) fuel requested false true = Some (Ok (c, t)) ->
  c = meta_insert (to_meta_key PRUNING_MODE tt) (mode_id (mode t)) empty_commit /\
  non_canonical t = restored None [] ∅ ∅ /\ ref_counting t = false.
Proof.
  intros Hm. unfold Sdb.open, Sdb.fetch_stored_pruning_mode, Sdb.new, NonCanonical.new, read_last_canonicalized, get_meta.
  rewrite Hm, !lookup_empty. cbn. destruct (default default_mode requested); cbn; [|by intros [= <- <-]..].
  destruct (new_window _ _ _ _) as [[w|e|]|]; cbn; [|done..]. by intros [= <- <-].
Qed.

(** The first block notes its parent as the last canonical block. *)
Lemma insert_first hash n parent cs nc c :
  0 < n -> insert hash n parent cs (restored (Key := Key) None [] ∅ ∅) = (nc, Ok c) ->
  exists i v, c = meta_insert (to_journal_key n i) v
    (meta_insert (to_meta_key LAST_CANONICAL tt) (encode (parent, n - 1)) empty_commit).
Proof.
  intros Hn Hins. set (first := meta_insert (to_meta_key LAST_CANONICAL tt) (encode (parent, n - 1)) empty_commit : CommitSet).
  assert (forall front, wlp (insert_checks n parent front) (fun c _ => c = first) (restored None [] ∅ ∅)) as Hc.
  { intros front. unfold insert_checks. apply wlp_bind, wlp_get. cbn [last_canonicalized levels restored].
    rewrite bool_decide_eq_true_2, (proj2 (Z.ltb_lt _ _)) by done. apply wlp_bind, wlp_lift. intros prev Hp.
    rewrite sub_u_ok in Hp by lia. injection Hp as <-. by apply wlp_bind, wlp_modify. }
  destruct (wlp_ok _ _ _ _ _ (insert_shape _ hash n parent cs _ Hc) Hins) as (i & v & c' & -> & ->). eauto.
Qed.

Lemma first_block (m : Store Key) fuel requested c0 t0 hash n parent cs t1 c1 :
  metas m = ∅ -> Sdb.open (get_meta m) fuel requested false true = Some (Ok (c0, t0)) ->
  is_archive (mode t0) = false -> 0 < n -> Sdb.insert_block (DbError := unit) hash n parent cs t0 = (t1, Ok c1) ->
  let m1 := apply_state_commit c1 (apply_state_commit c0 m) in
  (exists e, mode t0 = Constrained e) /\ (forall k, awaited k -> metas m1 !! k = None) /\
  metas m1 !! to_meta_key LAST_CANONICAL tt = Some (encode (parent, n - 1)).
Proof.
  intros Hm Ho Ha Hn. destruct (open_fresh _ _ _ _ _ Hm Ho) as (-> & Hnc & _). unfold Sdb.insert_block.
  rewrite st_get_bind. destruct (mode t0) as [e| |] eqn:Hmode; [|done..]. unfold st_map_err, Sdb.overlay. rewrite Hnc.
  pose proof (insert_quiet hash n parent cs (restored None [] ∅ ∅)) as Hq. unfold wlp in Hq.
  destruct (insert hash n parent cs (restored None [] ∅ ∅)) as [nc [c|err|]] eqn:Hins; [|done..]. intros [= <- <-].
  split; [eauto|]. split.
  - intros k Hk. apply awaited_kept; [apply Hq|done|]. apply awaited_kept; [|done|by rewrite Hm].
    apply quiet_meta_insert; [apply mode_key_not_awaited|apply quiet_empty].
  - destruct (insert_first _ _ _ _ _ _ Hn Hins) as (i & v & ->). simpl. unfold apply_changes. simpl.
    rewrite lookup_insert_ne by (apply not_eq_sym, last_canonical_not_journal). by rewrite lookup_insert_eq.
Qed.

(** C31: A restart between the first block and its canonicalization stops pruning for good
    in a database that counts references.  Let the first block of a new database have a
    number [n] above 0, be written, and the node be restarted.  Then, after any calls and
    any further restarts, the pruning window still begins at block 0 and reaches up to the
    last canonical block [l], whatever the limit of the pruning mode; no block was ever
    noted as pruned, and no change deletes a node. *)
Theorem restart_before_first_canonical_stops_pruning (m : Store Key) fuel requested c0 t0 hash n parent cs t1 c1 fuel' t sys :
  metas m = ∅ -> Sdb.open (get_meta m) fuel requested false true = Some (Ok (c0, t0)) -> is_archive (mode t0) = false ->
  0 < n < 2 ^ 64 -> Sdb.insert_block (DbError := unit) hash n parent cs t0 = (t1, Ok c1) ->
  let m1 := apply_state_commit c1 (apply_state_commit c0 m) in
  Sdb.new (get_meta m1) fuel' (mode t0) false = Some (Ok t) ->
  later {| mem := t; disk := m1; pending := [] |} sys ->
  exists l win, last_canonicalized_block_number (non_canonical (mem sys)) = Some l /\ 0 <= l /\
    pruning (mem sys) = Some win /\ base win = 0 /\ window_size (DbError := unit) win = Ok (l + 1) /\
    metas (disk sys) !! to_meta_key LAST_PRUNED tt = None /\ Forall (fun c => deleted (data c) = []) (pending sys).
Proof.
  intros Hm Ho Ha Hn Hx m1 Hnew Hlater.
  destruct (first_block _ _ _ _ _ _ _ _ _ _ _ Hm Ho Ha (proj1 Hn) Hx) as ([e He] & Hd & Hl).
  assert (is_u64 (n - 1)) as Hu by (unfold is_u64; lia).
  pose proof (restart_stuck _ _ _ _ _ _ _ He Hd Hl Hu Hnew) as Hs.
  destruct (later_stuck _ _ _ Hs Hlater) as (l & [_ _ [cap Hw] Hlast Hb Hd' Hp]). exists l, (stalled cap l).
  split_and!; [done|lia|done|done|apply stalled_size; lia|by apply Hd'; right|].
  eapply Forall_impl; [exact Hp|]. by intros c [? _].
Qed.
End stall.
