(* ===== verification/StateDbProps.v ===== *)
(** * The state database: theorems

    What the histories of [StateDbSystem] guarantee to the users of the state database,
    with a small chain on which each theorem is applied, and the corner cases in which
    the code does less than its comments say. *)
From stdpp Require Import base gmap list.
From Stdlib Require Import ZArith Lia.
From Stdlib Require Import Strings.Byte.
From S2P Require Import Prelude StateDbBase NonCanonical NonCanonicalFacts NonCanonicalInv Canonicalize.
From S2P Require Import NonCanonicalRestore Pruning PruningFacts StateDb StateDbInv StateDbSystem PruningStall.
Set Warnings "-clear-no-such-hyp".
Open Scope Z_scope.

Section properties.
Context {BlockHash Key : Type} `{Countable BlockHash} `{Countable Key}.
Context `{Codec unit, CodecLaws Z is_u64, CodecLaws (BlockHash * Z) numbered, CodecLaws (Z * Z) pair_u64,
  CodecLaws (JournalRecord BlockHash Key) any, CodecLaws (PruningRecord BlockHash Key) any}.
Context (block : BlockHash -> Block BlockHash Key) (value_of : Key -> DBValue) (state : BlockHash -> gset Key) (origin : BlockHash).

Abbreviation System := (System BlockHash Key).
Abbreviation StateDbSync := (StateDbSync BlockHash Key).
Abbreviation reachable := (reachable block value_of state origin).
Abbreviation allowed := (allowed block value_of state origin).
Abbreviation good := (good block value_of state origin).
Abbreviation number_of := (number_of block).
Abbreviation parent_of := (parent_of block).
Implicit Types (sys : System) (t : StateDbSync) (h p x a q : BlockHash) (w : list BlockHash) (C : gset BlockHash) (k : Key).



Lemma window_not_pruned C p w t m x c :
  good C p w t m -> mode t = Constrained c -> x ∈ w -> Sdb.is_pruned (DbError := unit) x (number_of x) t = Ok NotPruned.
Proof.
  intros G Hm (i & Hi)%list_elem_of_lookup_1. pose proof (g_window _ _ _ _ _ _ _ _ _ G) as Hw. unfold window_good in Hw. rewrite Hm in Hw.
  destruct Hw as (_ & win & Hwin & Hmw & _). pose proof (mw_chain _ _ _ _ _ Hmw) as Hch. pose proof (chain_numbers _ _ _ _ _ _ Hch Hi) as Hnx.
  assert (base win = number_of p + 1) as Hb by (destruct (mw_base _ _ _ _ _ Hmw) as [?|[_ ->]]; [done|by rewrite lookup_nil in Hi]).
  pose proof (mw_fit _ _ _ _ _ Hmw) as Hfit. unfold Sdb.is_pruned. rewrite Hm, Hwin.
  assert (match last_canonicalized_block_number (non_canonical t) with Some c => c <? number_of x | None => true end = false) as ->.
  { unfold last_canonicalized_block_number. destruct (last_canonicalized (non_canonical t)) as [[h n]|] eqn:Hl.
    - simpl. pose proof (g_last _ _ _ _ _ _ _ _ _ G h n Hl) as Hlw. destruct (i_last _ _ _ _ (g_inv _ _ _ _ _ _ _ _ _ G) h n Hl) as (_ & Hn & _).
      destruct (last w) as [y|] eqn:Hy; [|apply last_None in Hy; subst w; by rewrite lookup_nil in Hi]. simpl in Hlw. subst y.
      rewrite last_lookup in Hy. pose proof (chain_numbers _ _ _ _ _ _ Hch Hy) as Hnh. apply lookup_lt_Some in Hi. lia.
    - destruct (g_none _ _ _ _ _ _ _ _ _ G Hl) as [_ ->]. by rewrite lookup_nil in Hi. }
  rewrite (window_have_block_spec _ _ _ _ _ _ _ Hmw) by lia. cbn [mbind res_bind]. rewrite bool_decide_eq_true_2; [done|].
  split; [lia|]. rewrite <- Hi. f_equal. lia.
Qed.

(** ** Every state that is not pruned can be read *)




(** C23: Every call a caller may make returns, without a panic and without an arithmetic
    overflow, and leads to a reachable state. *)
Theorem calls_return sys c :
  reachable sys -> allowed sys c -> exists sys', exec c sys = Some sys' /\ reachable sys'.
Proof.
  intros Hr Ha. destruct (call_ok _ _ _ _ sys c (reachable_ok _ _ _ _ _ Hr) Ha) as (sys' & Hx & _).
  exists sys'. split; [done|]. eapply reachable_step; [done|]. by eapply step_call.
Qed.

(** C2: Pruning leaves nothing behind.  There are a block [p] and the canonical blocks [w]
    after it such that, once the pending changes are written, the nodes in the database
    are exactly those of the states of [p] and of [w]; the blocks [w] are the ones
    reported as not pruned, and the last of them, or [p], is the last canonical block. *)
Theorem database_has_no_garbage sys :
  reachable sys ->
  exists p w, (forall k, nodes (effective sys) !! k = if decide (k ∈ state p ∪ ⋃ (state <$> w)) then Some (value_of k) else None) /\
    (forall i x, w !! i = Some x -> number_of x = number_of p + 1 + Z.of_nat i) /\
    (forall c x, mode (mem sys) = Constrained c -> x ∈ w -> Sdb.is_pruned (DbError := unit) x (number_of x) (mem sys) = Ok NotPruned) /\
    (forall h n, last_canonicalized (non_canonical (mem sys)) = Some (h, n) -> h = default p (last w) /\ number_of h = n).
Proof.
  intros Hr. destruct (reachable_ok _ _ _ _ _ Hr) as [(C & p & w & G & Hd) _ _ _]. exists p, w.
  pose proof (window_chain _ _ _ _ _ _ (g_window _ _ _ _ _ _ _ _ _ G)) as Hch. split_and!.
  - intros k. rewrite (g_nodes _ _ _ _ _ _ _ _ _ G k). apply decide_ext. by rewrite (held_states block state p w Hch).
  - intros i x Hi. by eapply chain_numbers.
  - intros c x Hm Hx. by eapply window_not_pruned.
  - intros h n Hl. split; [symmetry; by eapply (g_last _ _ _ _ _ _ _ _ _ G)|]. by apply (i_last _ _ _ _ (g_inv _ _ _ _ _ _ _ _ _ G)) in Hl as (_ & ? & _).
Qed.

(** C25: The overlay is well formed in every reachable state: a level has blocks with
    distinct journal indices below [MAX_BLOCKS_PER_LEVEL], which are the ones set in its
    bit mask; no block is there twice; the blocks of level [i] have the number [i] after
    the last canonical block and their parents in the level before, and the parent of
    the first level is the last canonical block; and a node is in the overlay as often
    as blocks there, or kept for a pin, insert it. *)
Theorem overlay_well_formed sys :
  reachable sys ->
  let nc := non_canonical (mem sys) in
  Forall level_wf (levels nc) /\ NoDup (hashes (levels nc)) /\
  (forall i l b, levels nc !! i = Some l -> b ∈ blocks l ->
     number_of (bo_hash b) = front nc + Z.of_nat i /\
     match i with
     | O => forall h n, last_canonicalized nc = Some (h, n) -> parent_of (bo_hash b) = h
     | S j => exists l' b', levels nc !! j = Some l' /\ b' ∈ blocks l' /\ parent_of (bo_hash b) = bo_hash b'
     end) /\
  (forall k, values nc !! k =
     let c := need block (hashes (levels nc) ++ pi_keys (pinned_insertions nc)) k in if 0 <? c then Some (c, value_of k) else None).
Proof.
  intros Hr nc. destruct (reachable_ok _ _ _ _ _ Hr) as [(C & p & w & G & _) _ _ _]. pose proof (g_inv _ _ _ _ _ _ _ _ _ G) as Hi.
  pose proof (i_pre _ _ _ _ Hi) as Hp. split_and!; [apply (pre_wf _ _ _ _ _ _ Hp)|apply (pre_nodup _ _ _ _ _ _ Hp)| |apply (inv_refs _ _ _ _ Hi)].
  intros i l b Hl Hb. split; [by eapply (pre_num _ _ _ _ _ _ Hp)|]. destruct i as [|j].
  - intros h n Hlast. rewrite (g_root _ _ _ _ _ _ _ _ _ G l b Hl Hb). by eapply (g_last _ _ _ _ _ _ _ _ _ G).
  - destruct (lookup_lt_is_Some_2 (levels nc) j) as [l' Hl']; [apply lookup_lt_Some in Hl; unfold nc in *; lia|].
    pose proof (i_link _ _ _ _ Hi j l' l b Hl' Hl Hb) as (b' & Hb' & Hin)%list_elem_of_fmap. by exists l', b'.
Qed.

(** ** Canonicalization and pruning *)
Lemma first_level sys a : allowed sys (CanonicalizeBlock a) -> levels (non_canonical (mem sys)) <> [] ->
  exists l, levels (non_canonical (mem sys)) !! O = Some l /\ a ∈ (bo_hash <$> blocks l).
Proof. by intros [[?|?] _]. Qed.

(** What [canonicalize_block] does in a reachable state. *)
Lemma canonicalize_step sys a :
  reachable sys -> allowed sys (CanonicalizeBlock a) -> levels (non_canonical (mem sys)) <> [] ->
  exists C p w w1 w2 js dm t commit, exec (CanonicalizeBlock a) sys = Some {| mem := t; disk := disk sys; pending := pending sys ++ [commit] |} /\
    good C p w (mem sys) (effective sys) /\
    good ({[a]} ∪ C) (default p (last w1)) w2 t (apply_state_commit commit (effective sys)) /\ w ++ [a] = w1 ++ w2 /\
    canonicalizes block value_of C (non_canonical (mem sys)) a (non_canonical t) js dm /\ mode t = mode (mem sys) /\ pins t = pins (mem sys) /\
    match mode t with
    | Constrained c => (forall x, x ∈ w1 -> pins t !! x = None) /\ prune_done (default 0 (max_blocks c)) (pins t) w2 /\
        (w1 <> [] -> default 0 (max_blocks c) <= Z.of_nat (length w2))
    | _ => w1 = []
    end.
Proof.
  intros Hr Ha Hlv. destruct (reachable_ok _ _ _ _ _ Hr) as [(C & p & w & G & _) _ _ _]. pose proof (first_level _ _ Ha Hlv) as Hl. destruct Ha as [_ Hfit].
  destruct (canonicalize_block_spec (DbError := unit) block value_of state origin C p w (mem sys) (effective sys) a (get_meta (disk sys)) G Hfit Hl)
    as (s' & js & dm & w1 & w2 & t & commit & Hrun & Hc & <- & Heq & _ & G' & Hm & Hp & Hrc & Hcase).
  exists C, p, w, w1, w2, js, dm, t, commit. unfold exec. rewrite Hrun. split_and!; try done. by rewrite Hm, Hp.
Qed.

(** C6: [canonicalize_block] keeps exactly the descendants of the block in the overlay,
    and makes it the last canonical block. *)
Theorem canonicalize_keeps_descendants sys a :
  reachable sys -> allowed sys (CanonicalizeBlock a) -> levels (non_canonical (mem sys)) <> [] ->
  exists sys', exec (CanonicalizeBlock a) sys = Some sys' /\
    last_canonicalized (non_canonical (mem sys')) = Some (a, number_of a) /\
    (forall h n, last_canonicalized (non_canonical (mem sys)) = Some (h, n) -> parent_of a = h /\ number_of a = n + 1) /\
    (forall x, x ∈ hashes (levels (non_canonical (mem sys'))) <-> descends block (hashes (levels (non_canonical (mem sys)))) a x).
Proof.
  intros Hr Ha Hlv. destruct (canonicalize_step sys a Hr Ha Hlv) as (C & p & w & w1 & w2 & js & dm & t & commit & -> & G & G' & Heq & Hc & _).
  eexists. split; [done|]. simpl. pose proof (c_number _ _ _ _ _ _ _ _ Hc) as Hn. split_and!.
  - by rewrite (c_last _ _ _ _ _ _ _ _ Hc), Hn.
  - intros h n Hl. split; [by eapply (c_parent _ _ _ _ _ _ _ _ Hc)|]. rewrite Hn. unfold front. by rewrite Hl.
  - apply (c_kept _ _ _ _ _ _ _ _ Hc).
Qed.

(** C26: Canonicalizing a block ends with a window of at most [max_blocks] blocks, unless
    the next block to prune is pinned. *)
Theorem prune_bounds_window sys a c :
  reachable sys -> allowed sys (CanonicalizeBlock a) -> levels (non_canonical (mem sys)) <> [] -> mode (mem sys) = Constrained c ->
  exists sys' win size, exec (CanonicalizeBlock a) sys = Some sys' /\ pruning (mem sys') = Some win /\
    window_size (DbError := unit) win = Ok size /\
    (size <= default 0 (max_blocks c) \/
     exists h, next_hash (get_meta (disk sys)) win = (win, Ok (Some h)) /\ is_Some (pins (mem sys') !! h)).
Proof.
  intros Hr Ha Hlv Hmode. destruct (canonicalize_step sys a Hr Ha Hlv) as (C & p & w & w1 & w2 & js & dm & t & commit & -> & G & G' & Heq & _ & Hm & Hp & Hcase).
  rewrite Hm, Hmode in Hcase. destruct Hcase as (_ & Hdone & _).
  pose proof (g_window _ _ _ _ _ _ _ _ _ G') as Hw. unfold window_good in Hw. rewrite Hm, Hmode in Hw. destruct Hw as (_ & win & Hwin & Hmw & _).
  eexists _, win, (Z.of_nat (length w2)). split; [done|]. split; [done|]. split; [by eapply window_size_mem|].
  destruct Hdone as [?|(h & Hh & Hpin)]; [by left|]. right. exists h. split; [|done].
  destruct (mw_queue _ _ _ _ _ Hmw) as (index & Hq & _). unfold next_hash. rewrite Hq. destruct w2 as [|y w2]; [done|]. by injection Hh as ->.
Qed.

(** C24: A pinned canonical block is not pruned when further blocks are canonicalized. *)
Theorem pinned_block_not_pruned sys sys' a x c n :
  reachable sys -> allowed sys (CanonicalizeBlock a) -> mode (mem sys) = Constrained c ->
  Sdb.last_canonicalized (mem sys) = LastBlock n -> 0 <= number_of x <= n ->
  Sdb.is_pruned (DbError := unit) x (number_of x) (mem sys) = Ok NotPruned -> is_Some (pins (mem sys) !! x) ->
  exec (CanonicalizeBlock a) sys = Some sys' -> Sdb.is_pruned (DbError := unit) x (number_of x) (mem sys') = Ok NotPruned.
Proof.
  intros Hr Ha Hmode Hlast Hn Hx Hpin Hexec. destruct (decide (levels (non_canonical (mem sys)) = [])) as [Hlv|Hlv].
  - assert (mem sys' = mem sys) as ->; [|done]. revert Hexec. unfold exec, Sdb.canonicalize_block. rewrite st_get_bind, bool_decide_eq_false_2 by (by rewrite Hmode).
    unfold st_map_err, mbind, st_bind, Sdb.overlay, canonicalize. rewrite st_get_bind, Hlv. simpl. intros [= <-]. apply set_same.
  - destruct (canonicalize_step sys a Hr Ha Hlv) as (C & p & w & w1 & w2 & js & dm & t & commit & Hrun & G & G' & Heq & _ & Hm & Hp & Hcase).
    rewrite Hrun in Hexec. injection Hexec as <-. simpl. rewrite Hm, Hmode in Hcase. destruct Hcase as (Hnp & _).
    assert (x ∈ w) as Hxw.
    { pose proof (g_window _ _ _ _ _ _ _ _ _ G) as Hw. unfold window_good in Hw. rewrite Hmode in Hw. destruct Hw as (_ & win & Hwin & Hmw & _).
      unfold Sdb.last_canonicalized in Hlast. rewrite Hmode, bool_decide_eq_false_2 in Hlast by done.
      unfold Sdb.is_pruned in Hx. rewrite Hmode in Hx. destruct (last_canonicalized_block_number _) as [n'|]; [|done]. injection Hlast as ->.
      replace (n <? number_of x) with false in Hx by lia. rewrite Hwin, (window_have_block_spec _ _ _ _ _ _ _ Hmw) in Hx by lia.
      cbn [mbind res_bind] in Hx. case_bool_decide as Hc; [|done]. destruct Hc as [_ Hc]. by eapply list_elem_of_lookup_2. }
    assert (x ∈ w1 ++ w2) as Hin by (rewrite <- Heq, elem_of_app; by left). apply elem_of_app in Hin as [Hin|Hin].
    + rewrite Hp in Hnp. destruct Hpin as [? Hpin]. by rewrite Hnp in Hpin.
    + eapply window_not_pruned; [done| |done]. by rewrite Hm.
Qed.

(** C7: What is written is read back.  With nothing pending and a canonical block on disk,
    opening the database again ends, with the same pruning window, the same last
    canonical block and the same blocks; only pins are forgotten, and without kept
    blocks the overlay has the same nodes and parents. *)
Theorem restart_restores sys :
  reachable sys -> pending sys = [] -> is_Some (metas (disk sys) !! to_meta_key LAST_CANONICAL tt) ->
  exists n t, (forall fuel, (n <= fuel)%nat -> Sdb.new (get_meta (disk sys)) fuel (mode (mem sys)) (ref_counting (mem sys)) = Some (Ok t)) /\
    mode t = mode (mem sys) /\ pruning t = pruning (mem sys) /\ pins t = ∅ /\
    last_canonicalized (non_canonical t) = last_canonicalized (non_canonical (mem sys)) /\
    level_blocks (levels (non_canonical t)) ≡ₚ level_blocks (levels (non_canonical (mem sys))) /\
    (pinned_insertions (non_canonical (mem sys)) = ∅ ->
     values (non_canonical t) = values (non_canonical (mem sys)) /\ parents (non_canonical t) = parents (non_canonical (mem sys))).
Proof.
  intros Hr Hp Hs. destruct (reachable_ok _ _ _ _ _ Hr) as [(C & p & w & G & _) _ _ Hrc]. unfold effective in G. rewrite Hp in G. simpl in G.
  set (n := S (length (levels (non_canonical (mem sys))) + length w)).
  destruct (new_good block value_of state origin C p w (mem sys) (disk sys) (get_meta (disk sys)) n G) as (nc' & Hnew & G' & HPI & Hb & Hl);
    [done|done|unfold n; lia|unfold n; lia|].
  exists n. eexists. split.
  - intros fuel Hf. replace fuel with (n + (fuel - n))%nat by lia. rewrite Hrc. by eapply sdb_new_fuel.
  - simpl. split_and!; try done. intros HPI0.
    apply (inv_determined block value_of C); [apply (g_inv _ _ _ _ _ _ _ _ _ G)|apply (g_inv _ _ _ _ _ _ _ _ _ G')|done|done|done].
Qed.

(** [insert_block] refuses a block exactly for the reasons of [insert_error], in
    their order: a number outside of the overlay, an unknown parent, a full level, a
    block that is there; it then changes nothing.  Otherwise the block joins the others. *)
Theorem insert_block_outcomes sys hash number parent cs :
  reachable sys -> allowed sys (InsertBlock hash number parent cs) ->
  match insert_error (non_canonical (mem sys)) hash number parent with
  | Some e => Sdb.insert_block (DbError := unit) hash number parent cs (mem sys) = (mem sys, Err (StateDb e))
  | None => exists t commit, Sdb.insert_block (DbError := unit) hash number parent cs (mem sys) = (t, Ok commit) /\
      hashes (levels (non_canonical t)) ≡ₚ hash :: hashes (levels (non_canonical (mem sys))) /\
      data commit = empty_changeset /\ pruning t = pruning (mem sys)
  end.
Proof.
  intros Hr (Hpre & Hch & Ho & Hroom). destruct (reachable_ok _ _ _ _ _ Hr) as [(C & p & w & G & _) _ _ _].
  pose proof (insert_block_spec (DbError := unit) block value_of state origin C p w (mem sys) (effective sys) hash number parent cs G Hpre Hch Ho Hroom) as Hs.
  destruct (insert_error _ hash number parent); [done|]. destruct Hs as (nc' & commit & C' & Hrun & _ & Hd & Hh & _). exists (Sdb.set_non_canonical nc' (mem sys)), commit.
  by split_and!.
Qed.
End properties.

(** ** A small chain *)
Module StateDbExamples.

(** Everything countable has a codec. *)
Fixpoint pos_bytes (p : positive) : list byte :=
  match p with xH => [x02] | xO p => x00 :: pos_bytes p | xI p => x01 :: pos_bytes p end.

Fixpoint bytes_pos (l : list byte) : option positive :=
  match l with x02 :: _ => Some xH | x00 :: l => xO <$> bytes_pos l | x01 :: l => xI <$> bytes_pos l | _ => None end.

Lemma bytes_pos_bytes p : bytes_pos (pos_bytes p) = Some p.
Proof. induction p as [p IH|p IH|]; simpl; rewrite ?IH; done. Qed.

#[local] Instance countable_codec `{Countable A} : Codec A :=
  {| encode a := pos_bytes (countable.encode a); decode b := bytes_pos b ≫= countable.decode |}.
#[local] Instance countable_laws `{Countable A} valid : CodecLaws A valid.
Proof. intros a _. simpl. rewrite bytes_pos_bytes. simpl. apply countable.decode_encode. Qed.

#[local] Instance journal_eq_dec : EqDecision (JournalRecord Z Z).
Proof. solve_decision. Defined.
#[local] Program Instance journal_countable : Countable (JournalRecord Z Z) :=
  inj_countable' (fun r => (jr_hash r, jr_parent_hash r, jr_inserted r, jr_deleted r))
    (fun '(h, p, i, d) => {| jr_hash := h; jr_parent_hash := p; jr_inserted := i; jr_deleted := d |}) _.
Next Obligation. by intros []. Qed.
#[local] Instance record_eq_dec : EqDecision (PruningRecord Z Z).
Proof. solve_decision. Defined.
#[local] Program Instance record_countable : Countable (PruningRecord Z Z) :=
  inj_countable' (fun r => (pr_hash r, pr_inserted r, pr_deleted r)) (fun '(h, i, d) => {| pr_hash := h; pr_inserted := i; pr_deleted := d |}) _.
Next Obligation. by intros []. Qed.

(** A genesis block 10, the chain 11, 12 and 13 after it, and the forks 21 with its child
    22 at block 10 and 32 at block 11.  Block 12 inserts again the node 1 that block 11
    deletes. *)
Definition make (n p : Z) (i d : list Z) : Block Z Z := {| b_number := n; b_parent := p; b_inserted := i; b_deleted := d |}.

Definition block (h : Z) : Block Z Z :=
  if h =? 10 then make 0 9 [1; 2] []
  else if h =? 11 then make 1 10 [3] [1]
  else if h =? 21 then make 1 10 [4] [2]
  else if h =? 12 then make 2 11 [1] [3]
  else if h =? 13 then make 3 12 [5] [2]
  else if h =? 22 then make 2 21 [6] []
  else if h =? 32 then make 2 11 [7] []
  else make (-1) 0 [] [].

Definition state (h : Z) : gset Z :=
  if h =? 10 then {[1; 2]} else if h =? 11 then {[2; 3]} else if h =? 21 then {[1; 4]}
  else if h =? 12 then {[1; 2]} else if h =? 13 then {[1; 5]}
  else if h =? 22 then {[1; 4; 6]} else if h =? 32 then {[2; 3; 7]} else ∅.

Definition value_of (k : Z) : DBValue := pos_bytes (countable.encode k).

Definition chain_blocks : list Z := [10; 11; 21; 12; 13; 22; 32].

Lemma chain_changes h : h ∈ chain_blocks -> changes_ok block state h.
Proof.
  intros Hh. assert (Forall (changes_ok block state) chain_blocks) as Hall; [|by rewrite Forall_forall in Hall; apply Hall].
  repeat (constructor; [split; [vm_compute; reflexivity|by apply (bool_decide_unpack _); vm_compute|by apply (bool_decide_unpack _); vm_compute]|]). constructor.
Qed.

Definition changes (h : Z) : ChangeSet Z := {| inserted := tagged value_of (b_inserted (block h)); deleted := b_deleted (block h) |}.
Definition insert_call (h : Z) : Call Z Z := InsertBlock h (number_of block h) (parent_of block h) (changes h).

(** A decision of [allowed] for the blocks of this chain. *)
Definition total_inserted (hs : list Z) : Z := sum_Z ((fun h => Z.of_nat (length (b_inserted (block h)))) <$> hs).

Definition insert_allowedb (nc : NonCanonicalOverlay Z Z) (h : Z) : bool :=
  bool_decide (h ∈ chain_blocks) &&
  bool_decide (front nc < number_of block h -> pinned_insertions nc !! parent_of block h = None) &&
  match last_canonicalized nc with
  | Some _ => true
  | None => bool_decide (length (levels nc) = O) && (parent_of block h =? 9) || bool_decide (parent_of block h ∈ hashes (levels nc))
  end &&
  (Z.of_nat (length (hashes (levels nc))) + 2 <? 2 ^ 32) &&
  (total_inserted (hashes (levels nc) ++ pi_keys (pinned_insertions nc)) + Z.of_nat (length (b_inserted (block h))) <? 2 ^ 32).

Lemma occ_length (k : Z) l : occ k l <= Z.of_nat (length l).
Proof. induction l as [|x l IH]; cbn [occ length]; [done|]. case_match; lia. Qed.

Lemma need_total hs k : need block hs k <= total_inserted hs.
Proof.
  unfold need, total_inserted. induction hs as [|h hs IH]; [done|]. rewrite !fmap_cons, !sum_Z_cons. pose proof (occ_length k (b_inserted (block h))). lia.
Qed.

Lemma insert_allowed (sys : System Z Z) h :
  insert_allowedb (non_canonical (mem sys)) h = true -> allowed block value_of state 9 sys (insert_call h).
Proof.
  unfold insert_allowedb. set (nc := non_canonical (mem sys)). intros Hb.
  apply andb_true_iff in Hb as [Hb Hcnt%Z.ltb_lt]. apply andb_true_iff in Hb as [Hb Hsize%Z.ltb_lt]. apply andb_true_iff in Hb as [Hb Hfirst].
  apply andb_true_iff in Hb as [Hin%bool_decide_eq_true Hwin%bool_decide_eq_true].
  assert (number_of block (parent_of block h) = number_of block h - 1 /\ 0 <= number_of block h < 10) as [Hlink Hnum].
  { assert (Forall (fun h => number_of block (parent_of block h) = number_of block h - 1 /\ 0 <= number_of block h < 10) chain_blocks) as Hall
      by (repeat (constructor; [vm_compute; split; [done|split; done]|]); constructor). rewrite Forall_forall in Hall. by apply Hall. }
  unfold allowed, insert_call. fold nc. split_and!; [|by apply chain_changes| |lia].
  - split; try done; try lia.
    + intros Hl. rewrite Hl in Hfirst. apply orb_true_iff in Hfirst as [[Hz%bool_decide_eq_true _]%andb_true_iff|Hp%bool_decide_eq_true]; [left|by right].
      by apply nil_length_inv.
    + intros k. pose proof (need_total (hashes (levels nc) ++ pi_keys (pinned_insertions nc)) k). pose proof (occ_length k (b_inserted (block h))). lia.
  - intros Hl Hlv. rewrite Hl in Hfirst. apply orb_true_iff in Hfirst as [[_ Hp%Z.eqb_eq]%andb_true_iff|Hp%bool_decide_eq_true]; [done|].
    rewrite Hlv in Hp. by apply elem_of_nil in Hp.
Qed.

Definition in_first_level (nc : NonCanonicalOverlay Z Z) (h : Z) : bool :=
  match levels nc with [] => true | l :: _ => bool_decide (h ∈ (bo_hash <$> blocks l)) end.

(** The calls of the examples. *)
Inductive Op := OInsert (h : Z) | OCanonicalize (h : Z) | ORevert | ORemove (h : Z) | OPin (h : Z) | OUnpin (h : Z) | OWrite | OSync.

Definition call_of (o : Op) : Call Z Z :=
  match o with
  | OInsert h => insert_call h
  | OCanonicalize h => CanonicalizeBlock h
  | ORevert => RevertOne
  | ORemove h => Remove h
  | OPin h => Pin h (number_of block h) false
  | OUnpin h => Unpin h
  | OWrite => WritePending
  | OSync => Sync
  end.

Definition allowedb (sys : System Z Z) (o : Op) : bool :=
  let nc := non_canonical (mem sys) in
  match o with
  | OInsert h => insert_allowedb nc h
  | OCanonicalize h => in_first_level nc h && (default 0 (pinned nc !! h) + 1 <? 2 ^ 32)
  | OPin h =>
      (bool_decide (pinned_insertions nc !! h = None) || bool_decide (is_Some (pinned nc !! h))) && (0 <=? number_of block h) &&
      (default 0 (pinned nc !! h) + 1 <? 2 ^ 32) && (default 0 (pins (mem sys) !! h) + 1 <? 2 ^ 32)
  | OUnpin h => bool_decide (length (pending sys) = O) || bool_decide (pinned_insertions nc !! h = None) || (1 <? default 0 (pinned nc !! h))
  | OSync => bool_decide (length (pending sys) = O)
  | ORevert | ORemove _ | OWrite => true
  end.

Lemma allowedb_ok sys o : allowedb sys o = true -> allowed block value_of state 9 sys (call_of o).
Proof.
  destruct o as [h|h| |h|h|h| |]; simpl; try done; [apply insert_allowed|..].
  - intros [Hl Hf%Z.ltb_lt]%andb_true_iff. split; [|done]. unfold in_first_level in Hl. destruct (levels _) as [|l rest]; [by left|].
    right. exists l. split; [done|]. by apply bool_decide_eq_true in Hl.
  - intros [[[[Hp%bool_decide_eq_true|Hp%bool_decide_eq_true]%orb_true_iff Hn%Z.leb_le]%andb_true_iff Hf%Z.ltb_lt]%andb_true_iff Hf'%Z.ltb_lt]%andb_true_iff;
      (split_and!; [|done..]); [by left|by right].
  - intros [[Hp%bool_decide_eq_true|Hp%bool_decide_eq_true]%orb_true_iff|Hp%Z.ltb_lt]%orb_true_iff; [left; by apply nil_length_inv|right; by left|right; by right].
  - intros Hp%bool_decide_eq_true. by apply nil_length_inv.
Qed.

Fixpoint run (os : list Op) (sys : System Z Z) : option (System Z Z) :=
  match os with
  | [] => Some sys
  | o :: os => if allowedb sys o then sys' ← exec (call_of o) sys; run os sys' else None
  end.

Lemma run_reachable os sys sys' :
  reachable block value_of state 9 sys -> run os sys = Some sys' -> reachable block value_of state 9 sys'.
Proof.
  revert sys. induction os as [|o os IH]; intros sys Hr; [by intros [= <-]|]. cbn [run].
  destruct (allowedb sys o) eqn:Ha; [|done]. destruct (exec (call_of o) sys) as [sys1|] eqn:Hx; [|done]. apply IH.
  eapply reachable_step; [done|]. eapply step_call; [by apply allowedb_ok|done].
Qed.

(** A new database that keeps one canonical block. *)
Definition empty_store : Store Z := {| nodes := ∅; metas := ∅ |}.
Definition start (n : Z) : option (System Z Z) :=
  match Sdb.open (get_meta empty_store) 1 (Some (blocks_pruning n)) true true with
  | Some (Ok (commit, t)) => Some {| mem := t; disk := empty_store; pending := [commit] |}
  | _ => None
  end.

Lemma start_reachable n os sys : 0 <= n -> start n ≫= run os = Some sys -> reachable block value_of state 9 sys.
Proof.
  intros Hn Hs. apply bind_Some in Hs as (sys0 & Hs & Hrun). eapply run_reachable; [|done]. unfold start in Hs.
  destruct (Sdb.open _ 1 _ true true) as [[[commit t]|e|]|] eqn:Ho; [|done..]. injection Hs as <-. eapply reachable_open; [|done| |exact Ho]; [|done].
  intros k. rewrite decide_False; [done|]. vm_compute. by intros ?.
Qed.

Definition result (o : option (System Z Z)) : System Z Z :=
  match o with
  | Some sys => sys
  | None => {| mem := {| mode := ArchiveAll; non_canonical := restored None [] ∅ ∅; pruning := None; pins := ∅; ref_counting := true |};
               disk := empty_store; pending := [] |}
  end.

(** The state after a history, and that the history is one. *)
Definition after (n : Z) (os : list Op) : System Z Z := result (start n ≫= run os).
Definition runs (n : Z) (os : list Op) : bool := match start n ≫= run os with Some _ => true | None => false end.

Lemma after_reachable n os : 0 <= n -> runs n os = true -> reachable block value_of state 9 (after n os).
Proof. unfold runs, after. intros Hn Hr. destruct (start n ≫= run os) as [sys|] eqn:Hs; [|done]. by eapply start_reachable. Qed.

Definition history : list Op :=
  [OInsert 10; OCanonicalize 10; OWrite; OSync; OInsert 11; OInsert 21; OPin 21; OInsert 12; OCanonicalize 11; OWrite; OSync; OInsert 13; OCanonicalize 12].

Definition sys1 : System Z Z := after 1 history.

Lemma sys1_reachable : reachable block value_of state 9 sys1.
Proof. apply (after_reachable 1 history); [done|]. by vm_compute. Qed.




Lemma calls_return_witness :
  exists sys', exec (CanonicalizeBlock 13) sys1 = Some sys' /\ StateDbSystem.reachable block value_of state 9 sys'.
Proof.
  apply (calls_return block value_of state 9 sys1 (CanonicalizeBlock 13)); [apply sys1_reachable|].
  apply (allowedb_ok sys1 (OCanonicalize 13)). by vm_compute.
Defined.

Lemma database_has_no_garbage_witness : exists p w,
  (forall k, nodes (effective sys1) !! k = if decide (k ∈ state p ∪ ⋃ (state <$> w)) then Some (value_of k) else None) /\
  (forall i x, w !! i = Some x -> number_of block x = number_of block p + 1 + Z.of_nat i) /\
  (forall c x, mode (mem sys1) = Constrained c -> x ∈ w -> Sdb.is_pruned (DbError := unit) x (number_of block x) (mem sys1) = Ok NotPruned) /\
  (forall h n, last_canonicalized (non_canonical (mem sys1)) = Some (h, n) -> h = default p (last w) /\ number_of block h = n).
Proof. apply (database_has_no_garbage block value_of state 9 sys1), sys1_reachable. Defined.

Lemma overlay_well_formed_witness : Forall level_wf (levels (non_canonical (mem sys1))) /\ levels (non_canonical (mem sys1)) <> [].
Proof. split; [|by vm_compute]. apply (overlay_well_formed block value_of state 9 sys1), sys1_reachable. Defined.

Definition siblings : System Z Z := after 2 [OInsert 10; OCanonicalize 10; OInsert 11; OInsert 21; OInsert 12; OInsert 22].

Lemma canonicalize_keeps_descendants_witness :
  exists sys', exec (CanonicalizeBlock 11) siblings = Some sys' /\ 12 ∈ hashes (levels (non_canonical (mem sys'))) /\
    22 ∉ hashes (levels (non_canonical (mem sys'))).
Proof.
  destruct (canonicalize_keeps_descendants block value_of state 9 siblings 11) as (sys' & Hx & _ & _ & Hd).
  - apply after_reachable; [done|by vm_compute].
  - apply (allowedb_ok _ (OCanonicalize 11)). by vm_compute.
  - by vm_compute.
  - exists sys'. split; [done|]. split.
    + apply Hd, descends_child; [|done]. by apply (bool_decide_unpack _); vm_compute.
    + intros Hin%Hd. inversion Hin as [x _ Hp|x _ Hp]; [by vm_compute in Hp|]. change (parent_of block 22) with 21 in Hp.
      inversion Hp as [x' _ Hp'|x' _ Hp']; [by vm_compute in Hp'|]. change (parent_of block 21) with 10 in Hp'.
      inversion Hp' as [x'' Hx''|x'' Hx'']; by apply (bool_decide_pack _) in Hx''; vm_compute in Hx''.
Defined.

Lemma prune_bounds_window_witness : exists sys' win size,
  exec (CanonicalizeBlock 13) sys1 = Some sys' /\ pruning (mem sys') = Some win /\ window_size (DbError := unit) win = Ok size /\
  (size <= 1 \/ exists h, next_hash (get_meta (disk sys1)) win = (win, Ok (Some h)) /\ is_Some (pins (mem sys') !! h)).
Proof.
  apply (prune_bounds_window block value_of state 9 sys1 13 {| max_blocks := Some 1 |}); [apply sys1_reachable| |by vm_compute|by vm_compute].
  apply (allowedb_ok sys1 (OCanonicalize 13)). by vm_compute.
Defined.

(** Block 12 is pinned before block 13 becomes canonical. *)
Definition pinned12 : System Z Z := after 1 (history ++ [OPin 12]).

Lemma pinned_block_not_pruned_witness : exists sys', exec (CanonicalizeBlock 13) pinned12 = Some sys' /\
  Sdb.is_pruned (DbError := unit) 12 (number_of block 12) (mem sys') = Ok NotPruned.
Proof.
  destruct (exec (CanonicalizeBlock 13) pinned12) as [sys'|] eqn:Hx.
  2:{ assert (match exec (CanonicalizeBlock 13) pinned12 with Some _ => true | None => false end = true) as Hs by (by vm_compute). by rewrite Hx in Hs. }
  exists sys'. split; [done|].
  apply (pinned_block_not_pruned block value_of state 9 pinned12 sys' 13 12 {| max_blocks := Some 1 |} 2); [| | | | | | |exact Hx]; clear Hx.
  - apply after_reachable; [done|by vm_compute].
  - apply (allowedb_ok pinned12 (OCanonicalize 13)). by vm_compute.
  - by vm_compute.
  - by vm_compute.
  - by vm_compute.
  - by vm_compute.
  - by apply (bool_decide_unpack _); vm_compute.
Defined.

Definition written : System Z Z := after 1 (history ++ [OWrite; OSync]).

Lemma restart_restores_witness : exists n t,
  (forall fuel, (n <= fuel)%nat -> Sdb.new (get_meta (disk written)) fuel (mode (mem written)) (ref_counting (mem written)) = Some (Ok t)) /\
  pruning t = pruning (mem written).
Proof.
  destruct (restart_restores block value_of state 9 written) as (n & t & Hn & _ & Hp & _).
  - apply after_reachable; [done|by vm_compute].
  - by vm_compute.
  - by apply (bool_decide_unpack _); vm_compute.
  - exists n, t. exact (conj Hn Hp).
Defined.

Lemma insert_block_outcomes_witness :
  Sdb.insert_block (DbError := unit) 22 2 21 (changes 22) (mem sys1) = (mem sys1, Err (StateDb InvalidBlockNumber)).
Proof.
  assert (insert_error (non_canonical (mem sys1)) 22 2 21 = Some InvalidBlockNumber) as He by (by vm_compute).
  pose proof (insert_block_outcomes block value_of state 9 sys1 22 2 21 (changes 22)) as Ho. rewrite He in Ho. apply Ho; [apply sys1_reachable|].
  apply (allowedb_ok sys1 (OInsert 22)). by vm_compute.
Defined.

(** ** Corner cases *)

(** [canonicalize_block] of a block that is not in the first level fails, after it has
    taken the first level away: the blocks of that level are lost, with the nodes they
    hold in memory, and none of them can become canonical any more. *)
Theorem canonicalize_error_loses_level :
  let '(t, r) := Sdb.canonicalize_block (get_meta (disk siblings)) 12 (mem siblings) in
  hashes (levels (non_canonical (mem siblings))) = [11; 21; 12; 22] /\
  r = Err (StateDb InvalidBlock) /\ hashes (levels (non_canonical t)) = [12; 22] /\
  (Sdb.canonicalize_block (get_meta (disk siblings)) 11 t).2 = Err (StateDb InvalidBlock).
Proof. vm_compute. by split_and!. Qed.

(** A history whose calls need not be allowed. *)
Fixpoint perform (cs : list (Call Z Z)) (sys : System Z Z) : System Z Z :=
  match cs with [] => sys | c :: cs => perform cs (result (exec c sys)) end.

(** The fork of 21 and 22 is pinned when block 11 becomes canonical, with an empty window. *)
Definition pruned_below : System Z Z := after 0
  [OInsert 10; OCanonicalize 10; OWrite; OSync; OInsert 11; OInsert 21; OInsert 22; OPin 22; OCanonicalize 11; OWrite; OSync].

(** A pinned block of a fork, and its ancestors up to the fork, keep their own nodes only.
    The nodes of its state that it shares with the canonical block below are pruned in
    spite of the pin, and although the block is reported as not pruned. *)
Theorem pinned_fork_loses_nodes :
  StateDbSystem.reachable block value_of state 9 pruned_below /\ is_Some (pins (mem pruned_below) !! 22) /\
  Sdb.is_pruned (DbError := unit) 22 2 (mem pruned_below) = Ok NotPruned /\
  Sdb.get (get_node (disk pruned_below)) 4 (mem pruned_below) = Ok (Some (value_of 4)) /\
  bool_decide (1 ∈ state 22) = true /\ Sdb.get (get_node (disk pruned_below)) 1 (mem pruned_below) = Ok None.
Proof.
  split_and!; [apply after_reachable; [done|by vm_compute]|by apply (bool_decide_unpack _); vm_compute|by vm_compute..].
Qed.

(** The fork 21 and its pinned child 22 lose against block 11. *)
Definition fork_of_two : System Z Z := after 5
  [OInsert 10; OCanonicalize 10; OInsert 11; OInsert 21; OInsert 22; OPin 22; OCanonicalize 11; OWrite; OSync].

(** Pinning and unpinning a block that is kept for its pinned child takes the nodes of
    the block away from the child. *)
Theorem unpin_takes_nodes_of_pinned_child :
  let sys := perform [Pin 21 1 false; Unpin 21] fork_of_two in
  is_Some (pins (mem sys) !! 22) /\ bool_decide (4 ∈ state 22) = true /\
  Sdb.get (get_node (disk fork_of_two)) 4 (mem fork_of_two) = Ok (Some (value_of 4)) /\
  Sdb.get (get_node (disk sys)) 4 (mem sys) = Ok None.
Proof. split_and!; [by apply (bool_decide_unpack _); vm_compute|by vm_compute..]. Qed.

(** Blocks 11 and 12 become canonical before their changes are written; the fork 32 at
    block 11 is pinned. *)
Definition unwritten : System Z Z := after 5
  [OInsert 10; OCanonicalize 10; OWrite; OSync; OInsert 11; OInsert 12; OInsert 32; OPin 32; OCanonicalize 11; OCanonicalize 12].

(** Unpinning a discarded block can release its canonical parent before the changes of
    the parent are on disk: a node of a block that is not pruned is then unreadable. *)
Theorem unpin_releases_unwritten_block :
  let sys := perform [Unpin 32] unwritten in
  Sdb.is_pruned (DbError := unit) 11 1 (mem sys) = Ok NotPruned /\ bool_decide (3 ∈ state 11) = true /\
  Sdb.get (get_node (disk unwritten)) 3 (mem unwritten) = Ok (Some (value_of 3)) /\
  Sdb.get (get_node (disk sys)) 3 (mem sys) = Ok None.
Proof. split_and!; by vm_compute. Qed.

(** A database that counts references receives block 105 as its first, with number 5, as
    after a warp sync, and is restarted; blocks 105, 106 and 107 become canonical. *)
Definition warp_changes (n : Z) : ChangeSet Z := {| inserted := tagged value_of [100 + n]; deleted := [] |}.

Definition warp_open : CommitSet Z * StateDbSync Z Z :=
  match Sdb.open (get_meta empty_store) 1 (Some (blocks_pruning 1)) false true with
  | Some (Ok r) => r
  | _ => (empty_commit, mem (result None))
  end.
Definition warp_first : CommitSet Z :=
  match Sdb.insert_block (DbError := unit) 105 5 104 (warp_changes 5) warp_open.2 with
  | (_, Ok c) => c
  | _ => empty_commit
  end.
Definition warp_disk : Store Z := apply_state_commit warp_first (apply_state_commit warp_open.1 empty_store).
Definition warp_restarted : System Z Z :=
  match Sdb.new (get_meta warp_disk) 5 (mode warp_open.2) false with
  | Some (Ok t) => {| mem := t; disk := warp_disk; pending := [] |}
  | _ => result None
  end.

Definition warp_calls : list (Call Z Z) :=
  [CanonicalizeBlock 105; WritePending; Sync; InsertBlock 106 6 105 (warp_changes 6); CanonicalizeBlock 106; WritePending; Sync;
   InsertBlock 107 7 106 (warp_changes 7); CanonicalizeBlock 107; WritePending; Sync].

Fixpoint performed (cs : list (Call Z Z)) (sys : System Z Z) : option (System Z Z) :=
  match cs with [] => Some sys | c :: cs => sys' ← exec c sys; performed cs sys' end.

Lemma performed_later cs sys0 sys sys' : later sys0 sys -> performed cs sys = Some sys' -> later sys0 sys'.
Proof.
  revert sys. induction cs as [|c cs IH]; intros sys Hl; simpl; [by intros [= <-]|].
  intros (sys1 & Hx & Hp)%bind_Some. eapply IH; [|done]. by eapply later_call.
Qed.

Definition warp_end : System Z Z := result (performed warp_calls warp_restarted).

Lemma restart_before_first_canonical_stops_pruning_witness : exists win, pruning (mem warp_end) = Some win /\ base win = 0 /\
  window_size (DbError := unit) win = Ok 8.
Proof.
  destruct (restart_before_first_canonical_stops_pruning empty_store 1 (Some (blocks_pruning 1)) warp_open.1 warp_open.2 105 5 104
    (warp_changes 5) (Sdb.insert_block (DbError := unit) 105 5 104 (warp_changes 5) warp_open.2).1 warp_first 5 (mem warp_restarted) warp_end)
    as (l & win & Hl & _ & Hw & Hb & Hs & _).
  - done.
  - by vm_compute.
  - by vm_compute.
  - lia.
  - by vm_compute.
  - by vm_compute.
  - apply (performed_later warp_calls _ warp_restarted); [|by vm_compute].
    replace warp_restarted with {| mem := mem warp_restarted; disk := warp_disk; pending := [] |} at 2 by by vm_compute.
    apply later_refl.
  - exists win. split; [exact Hw|]. split; [exact Hb|]. assert (l = 7) as -> by (vm_compute in Hl; congruence). exact Hs.
Defined.
End StateDbExamples.
