(* ===== verification/BigUint.v ===== *)
(** * Big unsigned integers

    [substrate/primitives/arithmetic/src/biguint.rs]: numbers of any size as limbs of 32
    bits, most significant first, with the algorithms of Knuth (TAOCP 2, 4.3.1).  The
    arithmetic of the code is on 64-bit words and panics on overflow; [value] is the
    number that a list of limbs stands for. *)
From stdpp Require Import base list.
From Stdlib Require Import ZArith Lia.
From S2P Require Import Prelude.
Set Warnings "-clear-no-such-hyp".
Open Scope Z_scope.

(** ** Limbs *)
Definition SHIFT : Z := 32.
Definition B : Z := 2 ^ 32 - 1 + 1.

(** [x as Single]: the low 32 bits. *)
Definition as_single (x : Z) : Z := x mod 2 ^ 32.

Definition split (a : Z) : Z * Z :=
  let al := as_single a in
  let ah := as_single (Z.shiftr a SHIFT) in
  (ah, al).

Section limbs.
Context {E : Type}.

Definition mul_single (a b : Z) : res E Z := mul_u 64 a b.

Definition add_single (a b : Z) : res E (Z * Z) :=
  q ← add_u 64 a b;
  let '(carry, r) := split q in
  Ok (r, carry).

Definition div_single (a b : Z) : res E (Z * Z) :=
  q ← div_u a b;
  r ← rem_u a b;
  Ok (q, as_single r).
End limbs.

(** ** The number type *)
Record BigUint := { digits : list Z }.

Definition len (self : BigUint) : nat := length (digits self).

Definition with_capacity (size : nat) : BigUint := {| digits := replicate (Nat.max size 1) 0 |}.

Definition zero : BigUint := {| digits := [0] |}.
Definition one : BigUint := {| digits := [1] |}.
Definition is_zero (self : BigUint) : bool := forallb (fun d => d =? 0) (digits self).

Definition from_limbs (limbs : list Z) : BigUint :=
  match limbs with [] => zero | _ => {| digits := limbs |} end.

Definition from_u32 (a : Z) : BigUint := {| digits := [a] |}.
Definition from_u64 (a : Z) : BigUint := let '(ah, al) := split a in {| digits := [ah; al] |}.

(** Limbs are counted from the least significant one. *)
Definition checked_get (self : BigUint) (index : nat) : option Z :=
  if (len self =? 0)%nat then None
  else if (len self - 1 <? index)%nat then None
  else digits self !! (len self - 1 - index)%nat.

(** The position of the first limb that is not zero. *)
Definition first_nonzero (l : list Z) : option nat := fst <$> list_find (fun e => e <> 0) l.

Definition lstrip (self : BigUint) : BigUint :=
  if (len self =? 0)%nat then self
  else let index := default (len self - 1)%nat (first_nonzero (digits self)) in
       if (0 <? index)%nat then {| digits := drop index (digits self) |} else self.

Definition lpad (size : nat) (self : BigUint) : BigUint :=
  let n := len self in
  if (size <=? n)%nat then self else {| digits := replicate (size - n) 0 ++ digits self |}.

(** The order of slices of limbs: lexicographic. *)
Fixpoint slice_cmp (lhs rhs : list Z) : comparison :=
  match lhs, rhs with
  | [], [] => Eq
  | [], _ => Lt
  | _, [] => Gt
  | x :: lhs, y :: rhs => match x ?= y with Eq => slice_cmp lhs rhs | c => c end
  end.

Definition cmp (self other : BigUint) : comparison :=
  match first_nonzero (digits self), first_nonzero (digits other) with
  | None, None => Eq
  | Some _, None => Gt
  | None, Some _ => Lt
  | Some lhs_idx, Some rhs_idx =>
      let lhs := drop lhs_idx (digits self) in
      let rhs := drop rhs_idx (digits other) in
      match (length lhs ?= length rhs)%nat with Eq => slice_cmp lhs rhs | c => c end
  end.

(** [u32::leading_zeros] *)
Definition leading_zeros (x : Z) : Z := if x =? 0 then 32 else 31 - Z.log2 x.
(** [overflowing_shl(k).0] on 32 bits. *)
Definition overflowing_shl (x k : Z) : Z := as_single (Z.shiftl x (k mod 32)).

Section ops.
Context {E : Type}.

Definition get (self : BigUint) (index : nat) : res E Z :=
  if (index <? len self)%nat then expect (digits self !! (len self - 1 - index)%nat) else Panic.

Definition set (self : BigUint) (index : nat) (value : Z) : res E BigUint :=
  if (index <? len self)%nat then Ok {| digits := <[(len self - 1 - index)%nat := value]> (digits self) |} else Panic.

Definition lsb (self : BigUint) : res E Z := if (len self =? 0)%nat then Panic else expect (digits self !! (len self - 1)%nat).
Definition msb (self : BigUint) : res E Z := expect (digits self !! 0%nat).

Definition add_step (self other : BigUint) (acc : BigUint * Z) (j : nat) : res E (BigUint * Z) :=
  let '(w, k) := acc in
  let u := default 0 (checked_get self j) in
  let v := default 0 (checked_get other j) in
  s ← add_u 64 u v;
  s ← add_u 64 s k;
  w ← set w j (as_single (s mod B));
  Ok (w, s / B).

Definition add (self other : BigUint) : res E BigUint :=
  let n := Nat.max (len self) (len other) in
  '(w, k) ← for_each (add_step self other) (seq 0 n) (with_capacity (n + 1), 0);
  set w n (as_single k).

Definition sub_step (self other : BigUint) (acc : BigUint * Z) (j : nat) : res E (BigUint * Z) :=
  let '(w, k) := acc in
  let u := default 0 (checked_get self j) in
  let v := default 0 (checked_get other j) in
  '(s, k) ← match checked_sub u v ≫= (fun v1 => checked_sub v1 k) with
            | Some v2 => Ok (v2, 0)
            | None => t ← add_u 64 u B; t ← sub_u t v; t ← sub_u t k; Ok (t, 1)
            end;
  w ← set w j (as_single s);
  Ok (w, k).

Definition mul_inner (self other : BigUint) (j : nat) (acc : BigUint * Z) (i : nat) : res E (BigUint * Z) :=
  let '(w, k) := acc in
  a ← get self j;
  b ← get other i;
  t ← mul_single a b;
  x ← get w (i + j);
  t ← add_u 64 t x;
  t ← add_u 64 t k;
  w ← set w (i + j) (as_single (t mod B));
  Ok (w, as_single (t / B)).

Definition mul_step (self other : BigUint) (w : BigUint) (j : nat) : res E BigUint :=
  a ← get self j;
  if a =? 0 then Ok w
  else '(w, k) ← for_each (mul_inner self other j) (seq 0 (len other)) (w, 0);
       set w (j + len other) k.

Definition mul (self other : BigUint) : res E BigUint :=
  for_each (mul_step self other) (seq 0 (len self)) (with_capacity (len other + len self)).

Definition div_unit_step (self : BigUint) (other : Z) (acc : BigUint * Z) (d : nat) : res E (BigUint * Z) :=
  let '(out, r) := acc in
  x ← get self d;
  t ← mul_u 64 r B;
  t ← add_u 64 t x;
  '(q, rr) ← div_single t other;
  out ← set out d (as_single q);
  Ok (out, rr).

Definition div_unit (self : BigUint) (other : Z) : res E BigUint :=
  let other := Z.max other 1 in
  let n := len self in
  '(out, r) ← for_each (div_unit_step self other) (reverse (seq 0 n)) (with_capacity n, 0);
  Ok out.
End ops.

(** [Err(w)] is the difference of a negative result, plus a power of [B]. *)
Definition sub (self other : BigUint) : res BigUint BigUint :=
  let n := Nat.max (len self) (len other) in
  '(w, k) ← for_each (sub_step self other) (seq 0 n) (with_capacity n, 0);
  if k =? 0 then Ok w else Err w.

Section division.
Context {E : Type}.

(** The closure [test]: whether [qhat] is too big, and if it is, one less; [rhat] is the
    remainder that belongs to it. *)
Definition test (self_norm other_norm : BigUint) (n j : nat) (est : Z * Z) : res E (Z * Z * bool) :=
  let '(qhat, rhat) := est in
  let predicate_1 := B <=? qhat in
  v2 ← get other_norm (n - 2);
  lhs ← mul_u 64 qhat v2;
  r ← mul_u 64 B rhat;
  u2 ← get self_norm (j + n - 2);
  rhs ← add_u 64 r u2;
  let predicate_2 := rhs <? lhs in
  if predicate_1 || predicate_2 then
    qhat ← sub_u qhat 1;
    v1 ← get other_norm (n - 1);
    rhat ← add_u 64 rhat v1;
    Ok (qhat, rhat, true)
  else Ok (qhat, rhat, false).

(** The [while] loop around [test].  A round that goes on adds at least half of [B] to
    [rhat]; running out of fuel is a [Panic]. *)
Fixpoint test_loop (fuel : nat) (self_norm other_norm : BigUint) (n j : nat) (est : Z * Z) : res E Z :=
  match fuel with
  | O => Panic
  | S fuel' =>
      if est.2 <? B then
        '(qhat, rhat, again) ← test self_norm other_norm n j est;
        if again : bool then test_loop fuel' self_norm other_norm n j (qhat, rhat) else Ok qhat
      else Ok est.1
  end.

(** Step D3: the estimate of a limb of the quotient. *)
Definition estimate (self_norm other_norm : BigUint) (n j : nat) : res E Z :=
  uh ← get self_norm (j + n);
  t ← mul_u 64 uh B;
  ul ← get self_norm (j + n - 1);
  dividend ← add_u 64 t ul;
  divisor ← get other_norm (n - 1);
  est ← div_single dividend divisor;
  '(qhat, rhat, _) ← test self_norm other_norm n j est;
  test_loop 3 self_norm other_norm n j (qhat, rhat).

(** The limbs [j..=j + n]. *)
Definition window (self : BigUint) (j n : nat) : res E BigUint :=
  ds ← mapM (get self) (reverse (seq j (n + 1)));
  Ok {| digits := ds |}.

(** Writes the low limbs of [from] to the limbs [ds], which start at [j]. *)
Definition write_limbs (from : BigUint) (j : nat) (ds : list nat) (self : BigUint) : res E BigUint :=
  for_each (fun self d => x ← get from (d - j); set self d x) ds self.

(** Steps D3 to D6, for the limb [j] of the quotient. *)
Definition div_step (other_norm : BigUint) (n : nat) (acc : BigUint * BigUint) (j : nat) : res E (BigUint * BigUint) :=
  let '(self_norm, q) := acc in
  qhat ← estimate self_norm other_norm n j;
  lhs ← window self_norm j n;
  rhs ← mul other_norm (from_u64 qhat);
  '(t, negative) ← match sub lhs rhs with Ok t => Ok (t, false) | Err t => Ok (t, true) | Panic => Panic end;
  self_norm ← write_limbs t j (seq j (n + 1)) self_norm;
  q ← set q j (as_single qhat);
  if negative : bool then
    x ← get q j;
    x ← sub_u x 1;
    q ← set q j x;
    u ← window self_norm j n;
    r ← add other_norm u;
    self_norm ← write_limbs r j (reverse (seq j (n + 1))) self_norm;
    Ok (self_norm, q)
  else Ok (self_norm, q).

(** The remainder, with the normalization undone. *)
Definition shift_step (self_norm : BigUint) (nb : Z) (r : BigUint) (d : nat) : res E BigUint :=
  lo ← get self_norm d;
  hi ← get self_norm (d + 1);
  set r d (Z.lor (Z.shiftr lo nb) (overflowing_shl hi (32 - nb))).

Definition unnormalize (self_norm : BigUint) (n : nat) (nb : Z) : res E BigUint :=
  if 0 <? nb then
    r ← for_each (shift_step self_norm nb) (seq 0 (n - 1)) (with_capacity n);
    hi ← get self_norm (n - 1);
    set r (n - 1) (Z.shiftr hi nb)
  else Ok self_norm.

(** The test at the start of [div]; [||] stops at the first operand that is true. *)
Definition div_refused (self other : BigUint) : res E bool :=
  if (len other <=? 1)%nat then Ok true else
  mo ← msb other;
  if mo =? 0 then Ok true else
  ms ← msb self;
  if ms =? 0 then Ok true else Ok (len self <=? len other)%nat.

Definition div (self other : BigUint) (rem : bool) : res E (option (BigUint * BigUint)) :=
  refused ← div_refused self other;
  if refused : bool then Ok None else
  let n := len other in
  let m := (len self - n)%nat in
  mo ← msb other;
  let normalizer_bits := leading_zeros mo in
  normalizer ← expect (checked_pow 32 2 normalizer_bits);
  self_norm ← mul self (from_u32 normalizer);
  other_norm ← mul other (from_u32 normalizer);
  let self_norm := lpad (n + m + 1) self_norm in
  let other_norm := lstrip other_norm in
  '(self_norm, q) ← for_each (div_step other_norm n) (reverse (seq 0 (m + 1))) (self_norm, with_capacity (m + 1));
  r ← (if rem then unnormalize self_norm n normalizer_bits else Ok (with_capacity n));
  Ok (Some (q, r)).
End division.

(** [TryFrom<BigUint>] for the integer type of [w] bits; the error is a message. *)
Definition try_from (w : Z) (value : BigUint) : res unit Z :=
  let value := lstrip value in
  if w <? Z.of_nat (len value) * SHIFT then Err tt
  else for_each (fun acc '(i, d) => add_u w acc (Z.shiftl d (SHIFT * Z.of_nat i) mod 2 ^ w))
         (zip (seq 0 (len value)) (reverse (digits value))) 0.
