(* ===== verification/BigUintFacts.v ===== *)
(** * Big unsigned integers: sums, differences, products, order

    The operations of [BigUint] that work limb by limb compute on the numbers that the
    limbs stand for, without overflow and without an index out of range. *)
From stdpp Require Import base list.
From Stdlib Require Import ZArith Lia Zpow_facts.
From S2P Require Import Prelude BigUint.
Set Warnings "-clear-no-such-hyp".
Open Scope Z_scope.

(** The number that limbs stand for, most significant first. *)
Definition value (self : BigUint) : Z := foldl (fun acc d => acc * B + d) 0 (digits self).
Definition wf (self : BigUint) : Prop := digits self <> [] /\ Forall (fun d => 0 <= d < B) (digits self).

(** ** The base *)
Lemma B_eq : B = 2 ^ 32.
Proof. reflexivity. Qed.
Lemma B_pos : 1 < B.
Proof. reflexivity. Qed.
Lemma B_square : 2 ^ 64 = B * B.
Proof. reflexivity. Qed.
Opaque B.

Lemma Bpow_S (j : nat) : B ^ Z.of_nat (S j) = B * B ^ Z.of_nat j.
Proof. rewrite Nat2Z.inj_succ, Z.pow_succ_r by lia. done. Qed.
Lemma Bpow_pos (j : nat) : 0 < B ^ Z.of_nat j.
Proof. apply Z.pow_pos_nonneg; [pose proof B_pos; lia|lia]. Qed.
Lemma Bpow_add (i j : nat) : B ^ Z.of_nat (i + j) = B ^ Z.of_nat i * B ^ Z.of_nat j.
Proof. rewrite Nat2Z.inj_add, Z.pow_add_r by lia. done. Qed.

Lemma as_single_ok x : 0 <= x < B -> as_single x = x.
Proof. intros. unfold as_single. rewrite Z.mod_small; [done|]. rewrite <- B_eq. lia. Qed.
Lemma as_single_bound x : 0 <= as_single x < B.
Proof. unfold as_single. rewrite <- B_eq. apply Z.mod_pos_bound. pose proof B_pos. lia. Qed.

#[global] Arguments get : simpl never.
#[global] Arguments set : simpl never.
#[global] Arguments mul_u : simpl never.
#[global] Arguments add_u : simpl never.
#[global] Arguments sub_u : simpl never.

(** ** Limbs *)
Definition limb (self : BigUint) (i : nat) : Z := default 0 (checked_get self i).

(** The number of the [j] lowest of the limbs [f]. *)
Fixpoint part (f : nat -> Z) (j : nat) : Z :=
  match j with O => 0 | S j' => part f j' + f j' * B ^ Z.of_nat j' end.

Lemma part_S f j : part f (S j) = part f j + f j * B ^ Z.of_nat j.
Proof. done. Qed.

Lemma part_ext f g j : (forall i, (i < j)%nat -> f i = g i) -> part f j = part g j.
Proof. induction j as [|j IH]; intros Hfg; [done|]. simpl. rewrite IH, Hfg by eauto. done. Qed.

Lemma part_bound f j : (forall i, 0 <= f i < B) -> 0 <= part f j < B ^ Z.of_nat j.
Proof.
  intros Hf. induction j as [|j IH]; [simpl; lia|]. rewrite Bpow_S. simpl. pose proof (Hf j). pose proof (Bpow_pos j). nia.
Qed.

(** Higher limbs are what is left of the number. *)
Lemma part_add f i j : part f (i + j) = part f i + B ^ Z.of_nat i * part (fun k => f (i + k)%nat) j.
Proof.
  induction j as [|j IH]; [rewrite Nat.add_0_r; simpl; lia|].
  rewrite Nat.add_succ_r, !part_S, IH, Bpow_add. ring.
Qed.

Lemma part_zero f j : (forall i, (i < j)%nat -> f i = 0) -> part f j = 0.
Proof. induction j as [|j IH]; intros Hf; [done|]. simpl. rewrite IH, Hf by eauto. lia. Qed.

Lemma part_tail f i j : (i <= j)%nat -> (forall k, (i <= k)%nat -> f k = 0) -> part f j = part f i.
Proof.
  intros Hij Hf. replace j with (i + (j - i))%nat by lia. rewrite part_add, (part_zero (fun k => f (i + k)%nat)); [lia|].
  intros k _. apply Hf. lia.
Qed.

Lemma checked_get_reverse self i : checked_get self i = reverse (digits self) !! i.
Proof.
  unfold checked_get, len. destruct (digits self) as [|d l] eqn:Hd; [by rewrite lookup_nil|]. rewrite <- Hd.
  assert (0 < length (digits self))%nat by (rewrite Hd; simpl; lia). rewrite (proj2 (Nat.eqb_neq _ _)) by lia.
  destruct (Nat.ltb_spec (length (digits self) - 1) i) as [Hi|Hi].
  - symmetry. apply lookup_ge_None. rewrite length_reverse. lia.
  - rewrite reverse_lookup by lia. f_equal. lia.
Qed.

Lemma limb_out self i : (len self <= i)%nat -> limb self i = 0.
Proof.
  intros Hi. unfold limb. rewrite checked_get_reverse, lookup_ge_None_2; [done|]. by rewrite length_reverse.
Qed.

Lemma limb_bound self i : wf self -> 0 <= limb self i < B.
Proof.
  intros Hwf. unfold limb. rewrite checked_get_reverse. destruct (reverse _ !! i) as [d|] eqn:Hd; simpl; [|pose proof B_pos; lia].
  apply list_elem_of_lookup_2 in Hd. rewrite elem_of_reverse in Hd. destruct Hwf as [_ Hwf]. by eapply Forall_forall in Hwf.
Qed.

Lemma get_ok {E} self i : (i < len self)%nat -> @get E self i = Ok (limb self i).
Proof.
  intros Hi. unfold get, limb, checked_get. rewrite (proj2 (Nat.ltb_lt _ _)) by done.
  rewrite (proj2 (Nat.eqb_neq _ _)), (proj2 (Nat.ltb_ge _ _)) by lia.
  destruct (digits self !! _) eqn:Hd; [done|]. apply lookup_ge_None in Hd. unfold len in *. lia.
Qed.

(** Setting a limb: the result has the new limb, the other limbs and the length. *)
Lemma set_ok {E} self i v : (i < len self)%nat ->
  exists w, @set E self i v = Ok w /\ len w = len self /\ (forall j, limb w j = if (i =? j)%nat then v else limb self j) /\
    (0 <= v < B -> wf self -> wf w).
Proof.
  intros Hi. unfold set. rewrite (proj2 (Nat.ltb_lt _ _)) by done. eexists. split; [done|].
  unfold len in *. simpl. rewrite length_insert. split_and!; [done| |].
  - intros j. unfold limb. rewrite !checked_get_reverse. simpl.
    destruct (decide (length (digits self) <= j)%nat) as [Hj|Hj].
    + rewrite (proj2 (Nat.eqb_neq _ _)) by lia. rewrite !lookup_ge_None_2 by (rewrite length_reverse, ?length_insert; lia). done.
    + rewrite !reverse_lookup by (rewrite ?length_insert; lia). rewrite length_insert.
      destruct (Nat.eqb_spec i j) as [->|Hne].
      * replace (length (digits self) - S j)%nat with (length (digits self) - 1 - j)%nat by lia. by rewrite list_lookup_insert_eq by lia.
      * by rewrite list_lookup_insert_ne by lia.
  - intros Hv [Hne Hwf]. split; [|by apply Forall_insert]. simpl. intros Heq. apply (f_equal length) in Heq. rewrite length_insert in Heq. simpl in Heq. lia.
Qed.

Lemma with_capacity_limb n i : limb (with_capacity n) i = 0.
Proof.
  unfold limb. rewrite checked_get_reverse. simpl. rewrite reverse_replicate. destruct (replicate _ _ !! i) as [d|] eqn:Hd; [|done].
  by apply lookup_replicate in Hd as [-> _].
Qed.
Lemma with_capacity_len n : len (with_capacity n) = Nat.max n 1.
Proof. apply length_replicate. Qed.
Lemma with_capacity_wf n : wf (with_capacity n).
Proof. split; [|apply Forall_replicate; pose proof B_pos; lia]. simpl. by destruct n. Qed.
Lemma wf_len self : wf self -> (0 < len self)%nat.
Proof. intros [Hne _]. unfold len. by destruct (digits self); [|simpl; lia]. Qed.

(** ** The number of a list of limbs *)
Lemma value_part self : value self = part (limb self) (len self).
Proof.
  destruct self as [l]. unfold value, len. simpl. induction l as [|d l IH] using rev_ind; [done|].
  rewrite foldl_snoc, IH, length_app, Nat.add_1_r. clear IH. change (S (length l)) with (1 + length l)%nat.
  rewrite part_add. change (part ?f 1) with (0 + f 0%nat * 1). change (B ^ Z.of_nat 1) with (B * 1).
  unfold limb at 2. rewrite checked_get_reverse. simpl. rewrite reverse_snoc. simpl.
  rewrite (part_ext (fun k => limb _ (S k)) (limb {| digits := l |})); [lia|].
  intros i _. unfold limb. rewrite !checked_get_reverse. simpl. by rewrite reverse_snoc.
Qed.

Lemma value_bound self : wf self -> 0 <= value self < B ^ Z.of_nat (len self).
Proof. intros Hwf. rewrite value_part. apply part_bound. intros i. by apply limb_bound. Qed.

Lemma value_part_ge self n : (len self <= n)%nat -> part (limb self) n = value self.
Proof. intros Hn. rewrite value_part. apply part_tail; [done|]. intros k. apply limb_out. Qed.

(** Two numbers with the same limbs. *)
Lemma value_limbs u f n : len u = n -> (forall i, (i < n)%nat -> limb u i = f i) -> value u = part f n.
Proof. intros <- Hf. rewrite value_part. by apply part_ext. Qed.

(** ** Addition *)
Definition low (self : BigUint) (j : nat) : Z := part (limb self) j.

Lemma low_S self j : low self (S j) = low self j + limb self j * B ^ Z.of_nat j.
Proof. done. Qed.

(** A write at [j] leaves the limbs below. *)
Lemma low_set w w' j v : (forall i, limb w' i = if (j =? i)%nat then v else limb w i) -> low w' j = low w j.
Proof. intros Hw. apply part_ext. intros i Hi. rewrite Hw. by rewrite (proj2 (Nat.eqb_neq _ _)) by lia. Qed.

Lemma low_set_S w w' j v : (forall i, limb w' i = if (j =? i)%nat then v else limb w i) -> low w' (S j) = low w j + v * B ^ Z.of_nat j.
Proof. intros Hw. rewrite low_S, (low_set _ _ _ _ Hw), Hw, Nat.eqb_refl. done. Qed.

Definition sum_upto (self other : BigUint) (j : nat) (acc : BigUint * Z) : Prop :=
  0 <= acc.2 <= 1 /\ wf acc.1 /\ len acc.1 = (Nat.max (len self) (len other) + 1)%nat /\
  low acc.1 j + acc.2 * B ^ Z.of_nat j = low self j + low other j.

(** A loop over [0..n] keeps an invariant that is indexed by the counter. *)
Lemma for_seq_inv {E A} (f : A -> nat -> res E A) (P : nat -> A -> Prop) n a :
  P 0%nat a -> (forall j a, (j < n)%nat -> P j a -> exists a', f a j = Ok a' /\ P (S j) a') ->
  exists a', for_each f (seq 0 n) a = Ok a' /\ P n a'.
Proof.
  intros H0 Hstep. destruct (for_each_inv f (fun dn => P (length dn)) (seq 0 n) a H0) as (a' & Hrun & HP).
  - intros dn j todo a0 Heq HP. assert (j = length dn) as ->.
    { pose proof (f_equal (fun l => l !! length dn) Heq) as Hl. simpl in Hl. rewrite list_lookup_middle in Hl by done.
      apply lookup_seq in Hl as [Hl _]. simpl in Hl. done. }
    assert (length dn < n)%nat by (pose proof (f_equal length Heq) as Hl; rewrite length_seq, length_app in Hl; simpl in Hl; lia).
    destruct (Hstep _ _ H HP) as (a1 & Hf & HP1). exists a1. split; [done|]. rewrite length_app. simpl. by rewrite Nat.add_1_r.
  - exists a'. rewrite length_seq in HP. done.
Qed.

(** The same for [(0..n).rev()]: the counter is the number of rounds left. *)
Lemma for_rev_inv {E A} (f : A -> nat -> res E A) (P : nat -> A -> Prop) n a :
  P n a -> (forall j a, (j < n)%nat -> P (S j) a -> exists a', f a j = Ok a' /\ P j a') ->
  exists a', for_each f (reverse (seq 0 n)) a = Ok a' /\ P 0%nat a'.
Proof.
  revert a. induction n as [|n IH]; intros a Hn Hstep; [by exists a|].
  rewrite seq_S, reverse_snoc. simpl. destruct (Hstep n a) as (a1 & -> & Ha1); [lia|done|].
  apply IH; [done|]. intros j a0 Hj. apply Hstep. lia.
Qed.

Lemma div_mod_B s : s = B * (s / B) + s mod B.
Proof. apply Z.div_mod. pose proof B_pos. lia. Qed.
Lemma mod_B s : 0 <= s mod B < B.
Proof. apply Z.mod_pos_bound. pose proof B_pos. lia. Qed.

Lemma limbs_add_spec {E} self other :
  wf self -> wf other ->
  exists w, @add E self other = Ok w /\ wf w /\ len w = (Nat.max (len self) (len other) + 1)%nat /\ value w = value self + value other.
Proof.
  intros Hs Ho. unfold add. set (n := Nat.max (len self) (len other)). pose proof B_pos as HB.
  destruct (for_seq_inv (@add_step E self other) (sum_upto self other) n (with_capacity (n + 1), 0)) as ((w & k) & -> & Hk & Hw & Hlen & Hsum).
  - split_and!; [simpl; lia..|apply with_capacity_wf|simpl; rewrite with_capacity_len; lia|done].
  - intros j [w k] Hj (Hk & Hw & Hlen & Hsum). simpl in *. pose proof (limb_bound self j Hs) as Hu. pose proof (limb_bound other j Ho) as Hv.
    unfold limb in Hu, Hv. rewrite add_u_ok by (rewrite B_square; nia). simpl. rewrite add_u_ok by (rewrite B_square; nia). simpl.
    fold (limb self j) (limb other j) in *. set (s := limb self j + limb other j + k) in *. pose proof (mod_B s). pose proof (div_mod_B s).
    rewrite as_single_ok by done. destruct (set_ok (E := E) w j (s mod B)) as (w' & -> & Hl' & Hw' & Hwf'); [lia|]. simpl.
    eexists. split; [done|]. split_and!; simpl; [apply Z.div_pos; lia|apply Z.lt_succ_r, Z.div_lt_upper_bound; lia|auto|lia|].
    rewrite Bpow_S, (low_set_S _ _ _ _ Hw'). unfold low in *. rewrite !part_S. nia.
  - simpl in *. rewrite as_single_ok by lia. destruct (set_ok (E := E) w n k) as (w' & -> & Hl' & Hw' & Hwf'); [lia|].
    exists w'. split; [done|]. split_and!; [apply Hwf'; [lia|done]|lia|]. rewrite value_part, Hl', Hlen. fold n. replace (n + 1)%nat with (S n) by lia.
    change (part (limb w') (S n)) with (low w' (S n)). rewrite (low_set_S _ _ _ _ Hw'), Hsum. unfold low. rewrite !value_part_ge by lia. done.
Qed.

(** ** Subtraction *)
Definition diff_upto (self other : BigUint) (j : nat) (acc : BigUint * Z) : Prop :=
  0 <= acc.2 <= 1 /\ wf acc.1 /\ len acc.1 = Nat.max (len self) (len other) /\
  low acc.1 j - acc.2 * B ^ Z.of_nat j = low self j - low other j.

(** One limb of a difference: the limb and the borrow. *)
Lemma sub_limb {E} u v k : 0 <= u < B -> 0 <= v < B -> 0 <= k <= 1 ->
  exists s k', match checked_sub u v ≫= (fun v1 => checked_sub v1 k) with
               | Some v2 => Ok (v2, 0)
               | None => t ← add_u 64 u B; t ← sub_u t v; t ← sub_u t k; Ok (t, 1)
               end = (Ok (s, k') : res E (Z * Z)) /\
    0 <= s < B /\ 0 <= k' <= 1 /\ s - k' * B = u - v - k.
Proof.
  intros Hu Hv Hk. pose proof B_pos. unfold checked_sub at 2.
  assert ((t ← add_u 64 u B; t ← sub_u t v; t ← sub_u t k; Ok (t, 1)) = (Ok (u + B - v - k, 1) : res E (Z * Z))) as Hborrow.
  { rewrite add_u_ok by (rewrite B_square; nia). simpl. rewrite sub_u_ok by lia. simpl. by rewrite sub_u_ok by lia. }
  destruct (Z.leb_spec v u); simpl; [|eexists _, _; split; [exact Hborrow|lia]].
  unfold checked_sub. destruct (Z.leb_spec k (u - v)); [eexists _, _; split; [done|lia]|].
  eexists _, _; split; [exact Hborrow|lia].
Qed.

Lemma limbs_sub_spec self other :
  wf self -> wf other ->
  exists w, sub self other = (if value other <=? value self then Ok w else Err w) /\ wf w /\
    len w = Nat.max (len self) (len other) /\
    value w = value self - value other + (if value other <=? value self then 0 else B ^ Z.of_nat (len w)).
Proof.
  intros Hs Ho. pose proof (wf_len self Hs). unfold sub. set (n := Nat.max (len self) (len other)).
  destruct (for_seq_inv (sub_step (E := BigUint) self other) (diff_upto self other) n (with_capacity n, 0)) as ((w & k) & -> & Hk & Hw & Hlen & Hd).
  - split_and!; [simpl; lia..|apply with_capacity_wf|simpl; rewrite with_capacity_len; lia|done].
  - intros j [w k] Hj (Hk & Hw & Hlen & Hd). simpl in *. fold (limb self j) (limb other j).
    destruct (sub_limb (E := BigUint) _ _ k (limb_bound self j Hs) (limb_bound other j Ho) Hk) as (s & k' & -> & Hs' & Hk' & Heq). simpl.
    rewrite as_single_ok by done. destruct (set_ok (E := BigUint) w j s) as (w' & -> & Hl' & Hw' & Hwf'); [lia|]. simpl.
    eexists. split; [done|]. split_and!; simpl; [lia|lia|auto|lia|].
    rewrite Bpow_S, (low_set_S _ _ _ _ Hw'). unfold low in *. rewrite !part_S. nia.
  - simpl in *. unfold low in Hd. rewrite (value_part_ge self), (value_part_ge other), value_part_ge in Hd by lia. fold n in Hlen.
    pose proof (value_bound w Hw) as Hv. rewrite Hlen in Hv. exists w. assert (k = 0 \/ k = 1) as [-> | ->] by lia; simpl.
    + rewrite (proj2 (Z.leb_le _ _)) by lia. split_and!; [done|done|done|lia].
    + rewrite (proj2 (Z.leb_gt _ _)), Hlen by lia. split_and!; [done|done|done|lia].
Qed.

(** ** Multiplication *)

(** The inner loop adds the product of a limb [a] and the [i] lowest limbs of [other] to
    [w0] at limb [j]; the carry is still to be added at [i + j]. *)
Definition mul_upto (w0 other : BigUint) (j : nat) (a : Z) (i : nat) (acc : BigUint * Z) : Prop :=
  0 <= acc.2 < B /\ wf acc.1 /\ len acc.1 = len w0 /\
  (forall x, (i + j <= x)%nat -> limb acc.1 x = limb w0 x) /\
  low acc.1 (i + j) + acc.2 * B ^ Z.of_nat (i + j) = low w0 (i + j) + a * low other i * B ^ Z.of_nat j.

Lemma mul_inner_spec {E} self other w0 j :
  wf self -> wf other -> wf w0 -> (j < len self)%nat -> (j + len other <= len w0)%nat ->
  exists w k, for_each (@mul_inner E self other j) (seq 0 (len other)) (w0, 0) = Ok (w, k) /\ mul_upto w0 other j (limb self j) (len other) (w, k).
Proof.
  intros Hs Ho Hw0 Hj Hlen0. pose proof B_pos.
  destruct (for_seq_inv (@mul_inner E self other j) (mul_upto w0 other j (limb self j)) (len other) (w0, 0)) as ((w & k) & Hrun & Hinv); [| |by exists w, k].
  - split_and!; simpl; try done. change (low other 0) with 0. lia.
  - intros i [w k] Hi (Hk & Hw & Hlen & Hrest & Hsum). simpl in *. pose proof (limb_bound self j Hs) as Ha. pose proof (limb_bound other i Ho) as Hb.
    pose proof (limb_bound w (i + j) Hw) as Hx. rewrite !get_ok by lia. simpl. unfold mul_single.
    rewrite mul_u_ok by (rewrite B_square; nia). simpl.
    rewrite add_u_ok by (rewrite B_square; nia). simpl. rewrite add_u_ok by (rewrite B_square; nia). simpl.
    set (t := limb self j * limb other i + limb w (i + j) + k). pose proof (mod_B t). pose proof (div_mod_B t).
    assert (0 <= t / B < B) by (unfold t; split; [apply Z.div_pos; nia|apply Z.div_lt_upper_bound; nia]).
    rewrite !as_single_ok by done. destruct (set_ok (E := E) w (i + j) (t mod B)) as (w' & -> & Hl' & Hw' & Hwf'); [lia|]. simpl.
    eexists. split; [done|]. split_and!; simpl; [lia|lia|auto|lia| |].
    + intros x Hx'. rewrite Hw', (proj2 (Nat.eqb_neq _ _)) by lia. apply Hrest. lia.
    + rewrite (low_set_S _ _ _ _ Hw'), !low_S, Bpow_S, <- (Hrest (i + j)%nat) by lia.
      rewrite (Bpow_add i j) in *. unfold t in *. nia.
Qed.

Definition product_upto (self other : BigUint) (j : nat) (w : BigUint) : Prop :=
  wf w /\ len w = (len other + len self)%nat /\ (forall x, (j + len other <= x)%nat -> limb w x = 0) /\
  low w (j + len other) = low self j * value other.

Lemma limbs_mul_spec {E} self other :
  wf self -> wf other ->
  exists w, @mul E self other = Ok w /\ wf w /\ len w = (len other + len self)%nat /\ value w = value self * value other.
Proof.
  intros Hs Ho. pose proof (wf_len _ Ho). unfold mul.
  destruct (for_seq_inv (@mul_step E self other) (product_upto self other) (len self) (with_capacity (len other + len self))) as (w & -> & Hw & Hlen & _ & Hp).
  - split_and!; [apply with_capacity_wf|rewrite with_capacity_len; lia|intros; apply with_capacity_limb|].
    unfold low. rewrite part_zero by (intros; apply with_capacity_limb). done.
  - intros j w Hj (Hw & Hlen & Hz & Hp). unfold mul_step. rewrite get_ok by lia. simpl.
    assert (low w (S j + len other) = low w (j + len other)) as Hlow by (apply part_tail; [lia|intros x Hx; apply Hz; lia]).
    destruct (Z.eqb_spec (limb self j) 0) as [H0|H0].
    { eexists. split; [done|]. split_and!; [done|done|intros x Hx; apply Hz; lia|]. rewrite Hlow, low_S, H0. lia. }
    destruct (mul_inner_spec (E := E) self other w j) as (w' & k & -> & Hk & Hw' & Hl' & Hrest & Hsum); [done..|lia|]. simpl in *.
    destruct (set_ok (E := E) w' (j + len other) k) as (w'' & -> & Hl'' & Hset & Hwf''); [lia|]. eexists. split; [done|].
    rewrite (Nat.add_comm (len other) j) in *. split_and!; [auto|lia| |].
    + intros x Hx. rewrite Hset, (proj2 (Nat.eqb_neq _ _)), Hrest by lia. apply Hz. lia.
    + change (S j + len other)%nat with (S (j + len other)). rewrite (low_set_S _ _ _ _ Hset), Hsum, Hp, low_S.
      unfold low at 2. rewrite value_part_ge by lia. lia.
  - exists w. split_and!; [done..|]. rewrite <- (value_part_ge w (len self + len other)) by lia.
    change (part (limb w) (len self + len other)) with (low w (len self + len other)). rewrite Hp. unfold low. by rewrite value_part_ge.
Qed.

(** ** Division by one limb *)

(** The number of the limbs from [d] on. *)
Definition high (self : BigUint) (d : nat) : Z := part (fun k => limb self (d + k)%nat) (len self - d).

Lemma part_shift f j : part f (S j) = f 0%nat + B * part (fun k => f (S k)) j.
Proof.
  change (S j) with (1 + j)%nat. rewrite part_add. change (part f 1) with (0 + f 0%nat * 1). change (B ^ Z.of_nat 1) with (B * 1). simpl. lia.
Qed.
Lemma high_step self d : (d < len self)%nat -> high self d = limb self d + B * high self (S d).
Proof.
  intros Hd. unfold high. replace (len self - d)%nat with (S (len self - S d)) by lia. rewrite part_shift, Nat.add_0_r.
  rewrite (part_ext _ (fun k => limb self (S d + k)%nat)); [done|]. intros k _. f_equal. lia.
Qed.
Lemma high_0 self : high self 0 = value self.
Proof. unfold high. rewrite Nat.sub_0_r, value_part. done. Qed.
Lemma high_end self d : (len self <= d)%nat -> high self d = 0.
Proof. intros Hd. unfold high. by rewrite (proj2 (Nat.sub_0_le _ _)). Qed.
Lemma high_ext u w d : len u = len w -> (forall i, (d <= i)%nat -> limb u i = limb w i) -> high u d = high w d.
Proof. intros Hl Hlimb. unfold high. rewrite Hl. apply part_ext. intros k _. apply Hlimb. lia. Qed.
Lemma value_split self d : (d <= len self)%nat -> value self = low self d + B ^ Z.of_nat d * high self d.
Proof. intros Hd. rewrite value_part. replace (len self) with (d + (len self - d))%nat at 1 by lia. apply part_add. Qed.
Lemma low_bound self d : wf self -> 0 <= low self d < B ^ Z.of_nat d.
Proof. intros Hwf. apply part_bound. intros i. by apply limb_bound. Qed.
Lemma high_bound self d : wf self -> 0 <= high self d < B ^ Z.of_nat (len self - d).
Proof. intros Hwf. apply part_bound. intros i. by apply limb_bound. Qed.

Definition quotient_from (self : BigUint) (v : Z) (d : nat) (acc : BigUint * Z) : Prop :=
  0 <= acc.2 < v /\ wf acc.1 /\ len acc.1 = len self /\ high self d = v * high acc.1 d + acc.2.

Lemma div_unit_spec {E} self other :
  wf self -> 0 <= other < B ->
  exists w, @div_unit E self other = Ok w /\ wf w /\ len w = len self /\ value w = value self / Z.max other 1.
Proof.
  intros Hs Ho. unfold div_unit. set (v := Z.max other 1). pose proof B_pos. pose proof (wf_len self Hs).
  destruct (for_rev_inv (@div_unit_step E self v) (quotient_from self v) (len self) (with_capacity (len self), 0)) as ((w & r) & -> & Hr & Hw & Hlen & Hq).
  - split_and!; simpl; [lia|lia|apply with_capacity_wf|rewrite with_capacity_len; lia|]. rewrite !high_end by (rewrite ?with_capacity_len; lia). lia.
  - intros d [w r] Hd (Hr & Hw & Hlen & Hq). simpl in *. pose proof (limb_bound self d Hs) as Hx. rewrite get_ok by done. simpl.
    rewrite mul_u_ok by (rewrite B_square; nia). simpl. rewrite add_u_ok by (rewrite B_square; nia). simpl.
    set (t := r * B + limb self d). unfold div_single. rewrite div_u_ok, rem_u_ok by lia. simpl.
    pose proof (Z.div_mod t v ltac:(lia)) as Ht. pose proof (Z.mod_pos_bound t v ltac:(lia)) as Hm.
    assert (0 <= t / v < B) by (unfold t; split; [apply Z.div_pos; nia|apply Z.div_lt_upper_bound; nia]).
    rewrite !as_single_ok by lia. destruct (set_ok (E := E) w d (t / v)) as (w' & -> & Hl' & Hset & Hwf'); [lia|]. simpl.
    eexists. split; [done|]. split_and!; simpl; [lia|lia|auto|lia|].
    rewrite (high_step self d), (high_step w' d), Hset, Nat.eqb_refl, Hq by lia. rewrite (high_ext w' w); [|done|].
    + unfold t in *. nia.
    + intros i Hi. by rewrite Hset, (proj2 (Nat.eqb_neq _ _)) by lia.
  - exists w. simpl in *. rewrite !high_0 in Hq. split_and!; [done..|]. apply Z.div_unique with r; lia.
Qed.

(** ** Order, leading zeros and conversions *)
Lemma value_from a l : foldl (fun acc d => acc * B + d) a l = a * B ^ Z.of_nat (length l) + value {| digits := l |}.
Proof.
  unfold value. simpl digits. revert a. induction l as [|x l IH]; intros a; [simpl; lia|]. cbn [length foldl]. rewrite Bpow_S.
  rewrite (IH (a * B + x)), (IH (0 * B + x)). lia.
Qed.
Lemma value_cons d l : value {| digits := d :: l |} = d * B ^ Z.of_nat (length l) + value {| digits := l |}.
Proof. unfold value at 1. simpl. rewrite value_from. lia. Qed.
Lemma value_zeros n l : value {| digits := replicate n 0 ++ l |} = value {| digits := l |}.
Proof. induction n as [|n IH]; [done|]. simpl. rewrite value_cons, IH. lia. Qed.
Lemma value_list_bound l : Forall (fun d => 0 <= d < B) l -> 0 <= value {| digits := l |} < B ^ Z.of_nat (length l).
Proof.
  induction 1 as [|d l Hd Hl IH]; [simpl; unfold value; simpl; lia|]. rewrite value_cons. simpl length. rewrite Bpow_S. nia.
Qed.

(** Splitting off the leading zeros. *)
Lemma first_nonzero_spec l :
  match first_nonzero l with
  | None => l = replicate (length l) 0
  | Some i => exists d r, l = replicate i 0 ++ d :: r /\ drop i l = d :: r /\ d <> 0
  end.
Proof.
  induction l as [|d l IH]; [done|]. unfold first_nonzero in *. simpl. destruct (decide (d <> 0)) as [Hd|Hd]; simpl; [by exists d, l|].
  destruct (decide (d = 0)) as [->|]; [|done]. destruct (list_find _ l) as [[i x]|]; simpl in *; [|by f_equal].
  destruct IH as (d & r & -> & Hdrop & Hd0). by exists d, r.
Qed.

Lemma lstrip_spec self :
  wf self -> wf (lstrip self) /\ value (lstrip self) = value self /\ (len (lstrip self) <= len self)%nat /\
  (forall d l, digits (lstrip self) = d :: l -> d = 0 -> l = []).
Proof.
  intros Hwf. pose proof (wf_len self Hwf) as Hlen. destruct Hwf as [Hne Hwf]. unfold lstrip. rewrite (proj2 (Nat.eqb_neq _ _)) by lia.
  pose proof (first_nonzero_spec (digits self)) as Hf. destruct self as [l]. unfold len, wf in *. simpl in *.
  destruct (first_nonzero l) as [i|]; simpl.
  - destruct Hf as (d & r & Hl & Hdrop & Hd). destruct (Nat.ltb_spec 0 i); simpl.
    + rewrite Hdrop. split_and!; [done|rewrite <- Hdrop; by apply Forall_drop|by rewrite Hl, value_zeros|rewrite <- Hdrop, length_drop; lia|naive_solver].
    + assert (i = 0%nat) as -> by lia. simpl in Hl. subst l. split_and!; [done..|naive_solver].
  - destruct (Nat.ltb_spec 0 (length l - 1)); simpl.
    + assert (drop (length l - 1) l = [0]) as Hd by (rewrite Hf at 2; rewrite drop_replicate; by replace (length l - (length l - 1))%nat with 1%nat by lia).
      rewrite Hd. split_and!; [done|constructor; [pose proof B_pos; lia|done]|rewrite Hf, <- (app_nil_r (replicate _ _)), value_zeros; done|simpl; lia|naive_solver].
    + assert (length l = 1)%nat as H1 by lia. rewrite H1 in Hf. subst l. split_and!; [done..|naive_solver].
Qed.

Lemma slice_cmp_spec l1 l2 :
  length l1 = length l2 -> Forall (fun d => 0 <= d < B) l1 -> Forall (fun d => 0 <= d < B) l2 ->
  slice_cmp l1 l2 = (value {| digits := l1 |} ?= value {| digits := l2 |}).
Proof.
  revert l2. induction l1 as [|x l1 IH]; intros [|y l2] Hlen H1 H2; try done. injection Hlen as Hlen.
  apply Forall_cons in H1 as [Hx H1], H2 as [Hy H2]. rewrite !value_cons, Hlen. simpl.
  pose proof (value_list_bound l1 H1) as Hb1. pose proof (value_list_bound l2 H2) as Hb2. rewrite Hlen in Hb1.
  destruct (Z.compare_spec x y) as [->|Hlt|Hgt].
  - rewrite IH by done. by rewrite Z.add_compare_mono_l.
  - symmetry. apply Z.compare_lt_iff. nia.
  - symmetry. apply Z.compare_gt_iff. nia.
Qed.

(** A number without leading zeros is as big as its length says. *)
Lemma value_lead d l : 0 < d -> Forall (fun d => 0 <= d < B) l -> B ^ Z.of_nat (length l) <= value {| digits := d :: l |}.
Proof. intros Hd Hl. rewrite value_cons. pose proof (value_list_bound l Hl). nia. Qed.

Lemma cmp_spec self other : wf self -> wf other -> cmp self other = (value self ?= value other).
Proof.
  destruct self as [l1], other as [l2]. intros [_ H1] [_ H2]. unfold cmp. simpl in *.
  pose proof (first_nonzero_spec l1) as Hf1. pose proof (first_nonzero_spec l2) as Hf2.
  assert (forall n, value {| digits := replicate n 0 |} = 0) as Hz by (intros n; by rewrite <- (app_nil_r (replicate n 0)), value_zeros).
  assert (forall i d r, l1 = replicate i 0 ++ d :: r \/ l2 = replicate i 0 ++ d :: r -> d <> 0 ->
    0 < d /\ Forall (fun d => 0 <= d < B) (d :: r)) as Hlead.
  { intros i d r Hl Hd. assert (Forall (fun d => 0 <= d < B) (d :: r)) as Hr by (destruct Hl as [-> | ->]; by apply Forall_app in H1 as [_ ?] || apply Forall_app in H2 as [_ ?]).
    split; [|done]. apply Forall_cons in Hr as [? _]. lia. }
  destruct (first_nonzero l1) as [i|], (first_nonzero l2) as [j|].
  - destruct Hf1 as (d1 & r1 & Hl1 & -> & Hd1), Hf2 as (d2 & r2 & Hl2 & -> & Hd2).
    destruct (Hlead i d1 r1) as [Hp1 Hr1]; [by left|done|]. destruct (Hlead j d2 r2) as [Hp2 Hr2]; [by right|done|].
    rewrite Hl1, Hl2, !value_zeros. apply Forall_cons in Hr1 as Hr1', Hr2 as Hr2'.
    pose proof (value_list_bound _ Hr1) as Hb1. pose proof (value_list_bound _ Hr2) as Hb2.
    pose proof (value_lead d1 r1 Hp1 (proj2 Hr1')) as Hb1'. pose proof (value_lead d2 r2 Hp2 (proj2 Hr2')) as Hb2'.
    pose proof B_pos. simpl length in *. destruct (Nat.compare_spec (S (length r1)) (S (length r2))) as [Heq|Hlt|Hgt].
    + by apply slice_cmp_spec.
    + symmetry. apply Z.compare_lt_iff. assert (B ^ Z.of_nat (S (length r1)) <= B ^ Z.of_nat (length r2)) by (apply Z.pow_le_mono_r; lia). lia.
    + symmetry. apply Z.compare_gt_iff. assert (B ^ Z.of_nat (S (length r2)) <= B ^ Z.of_nat (length r1)) by (apply Z.pow_le_mono_r; lia). lia.
  - destruct Hf1 as (d1 & r1 & Hl1 & _ & Hd1). rewrite Hl1, Hf2, value_zeros, Hz. symmetry. apply Z.compare_gt_iff.
    destruct (Hlead i d1 r1) as [Hp1 Hr1]; [by left|done|]. apply Forall_cons in Hr1 as [_ Hr1]. pose proof (value_lead d1 r1 Hp1 Hr1). pose proof (Bpow_pos (length r1)). lia.
  - destruct Hf2 as (d2 & r2 & Hl2 & _ & Hd2). rewrite Hl2, Hf1, value_zeros, Hz. symmetry. apply Z.compare_lt_iff.
    destruct (Hlead j d2 r2) as [Hp2 Hr2]; [by right|done|]. apply Forall_cons in Hr2 as [_ Hr2]. pose proof (value_lead d2 r2 Hp2 Hr2). pose proof (Bpow_pos (length r2)). lia.
  - by rewrite Hf1, Hf2, !Hz.
Qed.

Lemma from_u32_spec a : 0 <= a < B -> wf (from_u32 a) /\ value (from_u32 a) = a /\ len (from_u32 a) = 1%nat.
Proof. intros Ha. split_and!; [split; [done|by constructor]| |done]. unfold value. simpl. lia. Qed.

Lemma split_spec a : 0 <= a < B * B -> exists ah al, split a = (ah, al) /\ 0 <= ah < B /\ 0 <= al < B /\ a = ah * B + al.
Proof.
  intros Ha. pose proof B_pos. unfold split, SHIFT. rewrite Z.shiftr_div_pow2 by lia. rewrite <- B_eq.
  assert (0 <= a / B < B) by (split; [apply Z.div_pos; lia|apply Z.div_lt_upper_bound; lia]). rewrite (as_single_ok (a / B)) by done.
  unfold as_single. rewrite <- B_eq. eexists _, _. split; [done|]. pose proof (mod_B a). pose proof (div_mod_B a). lia.
Qed.

Lemma from_u64_spec a : 0 <= a < B * B -> wf (from_u64 a) /\ value (from_u64 a) = a /\ len (from_u64 a) = 2%nat.
Proof.
  intros Ha. unfold from_u64. destruct (split_spec a Ha) as (ah & al & -> & Hh & Hl & Heq).
  split_and!; [split; [done|by do 2 (constructor; [done|])]| |done]. unfold value. simpl. lia.
Qed.

(** The conversion to [w] bits succeeds for the numbers that fit. *)
Lemma try_from_spec k value0 :
  wf value0 -> (0 < k)%nat ->
  try_from (32 * Z.of_nat k) value0 = if value value0 <? 2 ^ (32 * Z.of_nat k) then Ok (value value0) else Err tt.
Proof.
  intros Hwf Hk. unfold try_from. destruct (lstrip_spec value0 Hwf) as (Hwf' & Hv & _ & Hlead). rewrite <- Hv. clear Hv.
  set (v := lstrip value0) in *. clearbody v. unfold SHIFT. assert (2 ^ (32 * Z.of_nat k) = B ^ Z.of_nat k) as HB by (rewrite B_eq, Z.pow_mul_r by lia; done).
  pose proof (value_bound v Hwf') as Hb. pose proof B_pos. destruct (Z.ltb_spec (32 * Z.of_nat k) (Z.of_nat (len v) * 32)) as [Hlt|Hge].
  - rewrite (proj2 (Z.ltb_ge _ _)); [done|]. rewrite HB. destruct v as [[|d l]]; [by destruct Hwf'|]. unfold len in *. simpl in *.
    destruct Hwf' as [_ Hd]. simpl in Hd. apply Forall_cons in Hd as [Hd Hl]. assert (0 < d) as Hpos by (destruct (decide (d = 0)) as [Hd0|]; [specialize (Hlead d l eq_refl Hd0); subst l; simpl in *; lia|lia]).
    pose proof (value_lead d l Hpos Hl). assert (B ^ Z.of_nat k <= B ^ Z.of_nat (length l)) by (apply Z.pow_le_mono_r; lia). lia.
  - assert (B ^ Z.of_nat (len v) <= B ^ Z.of_nat k) by (apply Z.pow_le_mono_r; lia). rewrite (proj2 (Z.ltb_lt _ _)) by lia.
    edestruct (for_each_inv (E := unit) (fun acc '(i, d) => add_u (32 * Z.of_nat k) acc (Z.shiftl d (32 * Z.of_nat i) mod 2 ^ (32 * Z.of_nat k)))
      (fun dn acc => acc = low v (length dn)) (zip (seq 0 (len v)) (reverse (digits v))) 0) as (a & -> & Ha); [done| |].
    + intros dn [i d] todo acc Heq ->. pose proof (f_equal (fun l => l !! length dn) Heq) as Hi. simpl in Hi.
      rewrite list_lookup_middle in Hi by done. apply lookup_zip_Some in Hi as [Hi Hd]. apply lookup_seq in Hi as [-> Hi]. simpl in *.
      assert (limb v (length dn) = d) as Hlimb by (unfold limb; by rewrite checked_get_reverse, Hd).
      rewrite Z.shiftl_mul_pow2, Z.pow_mul_r by lia. change (2 ^ 32) with B. rewrite length_app, Nat.add_1_r, low_S, Hlimb.
      pose proof (low_bound v (S (length dn)) Hwf') as Hl. rewrite low_S, Hlimb in Hl. pose proof (low_bound v (length dn) Hwf').
      pose proof (limb_bound v (length dn) Hwf') as Hdb. rewrite Hlimb in Hdb.
      assert (B ^ Z.of_nat (S (length dn)) <= B ^ Z.of_nat k) by (apply Z.pow_le_mono_r; lia). pose proof (Bpow_pos (length dn)).
      rewrite HB, Z.mod_small by nia. rewrite add_u_ok by (rewrite HB; lia). eexists. split; [done|]. done.
    + rewrite Ha. f_equal. unfold low. rewrite length_zip, length_seq, length_reverse, Nat.min_id. by rewrite value_part.
Qed.
