(* ===== verification/BigUintDiv.v ===== *)
(** * Big unsigned integers: long division

    [BigUint::div] is algorithm D of Knuth: normalize, estimate each limb of the quotient
    from two limbs of the dividend, correct the estimate with a third, subtract, and add
    back when the estimate was still one too big.  The proof follows these steps. *)
From stdpp Require Import base list.
From Stdlib Require Import ZArith Lia.
From S2P Require Import Prelude BigUint BigUintFacts.
Set Warnings "-clear-no-such-hyp".
Open Scope Z_scope.

#[local] Arguments test : simpl never.

(** ** The estimate of a limb *)

(** The [n + 1] limbs from [j] on. *)
Definition mid (self : BigUint) (j n : nat) : Z := part (fun k => limb self (j + k)%nat) n.

(** The top limbs of dividend and divisor: [U] and [V] are the numbers, [P] is the weight
    of the third limb. *)
Section estimate.
Context (u0 u1 u2 v1 v2 U V P Ul Vl q : Z).
Context (HP : 0 < P) (Hu0 : 0 <= u0) (Hu1 : 0 <= u1 < B) (Hu2 : 0 <= u2 < B) (Hv1 : v1 < B) (Hv2 : 0 <= v2 < B).
Context (Hnorm : B <= 2 * v1) (HU : U = ((u0 * B + u1) * B + u2) * P + Ul) (HUl : 0 <= Ul < P).
Context (HV : V = (v1 * B + v2) * P + Vl) (HVl : 0 <= Vl < P).
Context (Hq : q * V <= U < (q + 1) * V) (HUV : U < V * B).

Lemma top_le : u0 <= v1.
Proof using All. destruct (decide (u0 <= v1)) as [|Hgt]; [done|exfalso]. pose proof B_pos. assert (V < (v1 + 1) * B * P) by nia. assert ((v1 + 1) * B * B * P <= U) by nia. nia. Qed.

Lemma first_estimate : 0 <= q -> q * v1 <= u0 * B + u1.
Proof using All.
  intros Hq0. pose proof B_pos. assert (q * v1 * B * P <= q * V) by nia. assert (U < (u0 * B + u1 + 1) * (B * P)) by nia.
  assert (q * v1 * (B * P) < (u0 * B + u1 + 1) * (B * P)) by lia. apply Z.lt_succ_r. apply (Zmult_lt_reg_r _ _ (B * P)); [nia|lia].
Qed.

Definition est_ok (qhat rhat : Z) : Prop :=
  qhat * v1 + rhat = u0 * B + u1 /\ 0 <= rhat /\ q <= qhat /\ 0 <= qhat <= B + 1.

(** A product that is too big shows that the estimate is too big. *)
Lemma too_big qhat rhat : est_ok qhat rhat -> B <= qhat \/ B * rhat + u2 < qhat * v2 -> q <= qhat - 1.
Proof using All.
  intros (Heq & Hr & Hge & Hle) [Hb|Hp].
  - assert (q < B); [|lia]. pose proof B_pos. assert (0 < V) by nia. nia.
  - assert (U < qhat * V); [|nia].
    assert (qhat * (v1 * B + v2) >= (u0 * B + u1) * B + u2 + 1) by nia.
    assert (qhat * (v1 * B + v2) * P >= ((u0 * B + u1) * B + u2 + 1) * P) by nia. nia.
Qed.

(** An estimate that passes the test is at most one too big. *)
Lemma nearly_exact qhat rhat : est_ok qhat rhat -> qhat < B -> qhat * v2 <= B * rhat + u2 -> qhat - 1 <= q.
Proof using All.
  intros (Heq & Hr & Hge & Hle) Hb Hp. pose proof B_pos.
  assert (qhat * (v1 * B + v2) <= (u0 * B + u1) * B + u2) by nia.
  assert (qhat * (v1 * B + v2) * P <= ((u0 * B + u1) * B + u2) * P) by nia.
  assert (qhat * Vl <= qhat * P) by nia. assert (qhat * P < B * P) by nia. assert (B * P <= V) by nia.
  assert (qhat * V < U + V) by nia. nia.
Qed.

(** With a remainder of [B] or more there is nothing to test. *)
Lemma big_remainder qhat rhat : est_ok qhat rhat -> B <= rhat -> qhat < B /\ qhat * v2 <= B * rhat + u2.
Proof using All.
  intros (Heq & Hr & Hge & Hle) Hb. pose proof B_pos. pose proof top_le. assert (qhat < B) by nia. split; [done|]. nia.
Qed.
End estimate.

Lemma mid_bound self j n : wf self -> 0 <= mid self j n < B ^ Z.of_nat n.
Proof. intros Hwf. apply part_bound. intros k. by apply limb_bound. Qed.

(** Three limbs at the top. *)
Lemma mid_top self j n : (2 <= n)%nat -> mid self j (n + 1) =
  ((limb self (j + n) * B + limb self (j + n - 1)) * B + limb self (j + n - 2)) * B ^ Z.of_nat (n - 2) + mid self j (n - 2).
Proof.
  intros Hn. unfold mid. replace (n + 1)%nat with (S (S (S (n - 2)))) by lia. rewrite !part_S, !Bpow_S.
  replace (j + S (S (n - 2)))%nat with (j + n)%nat by lia. replace (j + S (n - 2))%nat with (j + n - 1)%nat by lia.
  replace (j + (n - 2))%nat with (j + n - 2)%nat by lia. ring.
Qed.

Lemma value_top self n : len self = n -> (2 <= n)%nat ->
  value self = (limb self (n - 1) * B + limb self (n - 2)) * B ^ Z.of_nat (n - 2) + low self (n - 2).
Proof.
  intros Hl Hn. rewrite value_part, Hl. unfold low. replace n with (S (S (n - 2))) at 1 by lia. rewrite !part_S, Bpow_S.
  replace (S (n - 2))%nat with (n - 1)%nat by lia. ring.
Qed.

Section division_step.
Context {E : Type} (v : BigUint) (n : nat).
Context (Hv : wf v) (Hlen : len v = n) (Hn : (2 <= n)%nat) (Hnorm : B <= 2 * limb v (n - 1)).
Lemma v_pos : 0 < value v.
Proof.
  pose proof (value_top v n Hlen Hn) as ->. pose proof B_pos. pose proof (Bpow_pos (n - 2)). pose proof (low_bound v (n - 2) Hv).
  pose proof (limb_bound v (n - 2) Hv). assert (0 < limb v (n - 1) * B + limb v (n - 2)) by nia. nia.
Qed.

Context (u : BigUint) (j : nat).
Context (Hu : wf u) (Hj : (j + n < len u)%nat) (Hsmall : mid u j (n + 1) < value v * B).

Abbreviation U := (mid u j (n + 1)).
Abbreviation V := (value v).
Abbreviation q := (U / V).
Abbreviation est := (est_ok (limb u (j + n)) (limb u (j + n - 1)) (limb v (n - 1)) q).

Lemma q_spec : q * V <= U < (q + 1) * V.
Proof.
  pose proof v_pos. pose proof (Z.div_mod U V ltac:(lia)). pose proof (Z.mod_pos_bound U V ltac:(lia)). nia.
Qed.

(** Instances of the lemmas on estimates. *)
Ltac with_top lem :=
  pose proof (limb_bound u (j + n) Hu); pose proof (limb_bound u (j + n - 1) Hu); pose proof (limb_bound u (j + n - 2) Hu);
  pose proof (limb_bound v (n - 1) Hv); pose proof (limb_bound v (n - 2) Hv); pose proof (Bpow_pos (n - 2));
  pose proof (mid_bound u j (n - 2) Hu); pose proof (low_bound v (n - 2) Hv); pose proof q_spec;
  eapply (lem (limb u (j + n)) (limb u (j + n - 1)) (limb u (j + n - 2)) (limb v (n - 1)) (limb v (n - 2)) U V (B ^ Z.of_nat (n - 2)) (mid u j (n - 2)) (low v (n - 2)) q);
  first [exact Hsmall | by apply mid_top | by apply value_top | lia | eauto].

Lemma test_spec qhat rhat : est qhat rhat -> rhat < B ->
  exists again, test u v n j (qhat, rhat) = (Ok (if again : bool then (qhat - 1, rhat + limb v (n - 1), true) else (qhat, rhat, false)) : res E _) /\
    if again then est (qhat - 1) (rhat + limb v (n - 1)) else qhat < B /\ qhat * limb v (n - 2) <= B * rhat + limb u (j + n - 2).
Proof.
  intros Hest Hr. pose proof Hest as (Heq & Hr0 & Hge & Hle). pose proof B_pos. pose proof (limb_bound v (n - 2) Hv) as Hv2. pose proof (limb_bound u (j + n - 2) Hu) as Hu2.
  pose proof (limb_bound v (n - 1) Hv) as Hv1. unfold test. rewrite !get_ok by lia. simpl.
  rewrite mul_u_ok by (rewrite B_square; nia). simpl. rewrite mul_u_ok by (rewrite B_square; nia). simpl. rewrite !add_u_ok by (rewrite B_square; nia). simpl.
  destruct (Z.leb_spec B qhat) as [Hb|Hb]; [|destruct (Z.ltb_spec (B * rhat + limb u (j + n - 2)) (qhat * limb v (n - 2))) as [Hp|Hp]]; simpl;
    [exists true|exists true|exists false; split; [done|lia]].
  all: assert (q <= qhat - 1) by (with_top too_big); assert (0 <= q) by (pose proof v_pos; apply Z.div_pos; [apply mid_bound; done|done]).
  all: rewrite sub_u_ok by lia; split; [done|]; split_and!; lia.
Qed.

Lemma test_loop_spec fuel qhat rhat : est qhat rhat -> (1 <= fuel)%nat -> (3 - Z.of_nat fuel) * B <= 2 * rhat ->
  exists qhat', test_loop fuel u v n j (qhat, rhat) = (Ok qhat' : res E Z) /\ q <= qhat' <= q + 1 /\ 0 <= qhat' < B.
Proof.
  pose proof B_pos. revert qhat rhat. induction fuel as [|fuel IH]; intros qhat rhat Hest Hf Hr; [lia|]. cbn [test_loop snd fst].
  pose proof Hest as (Heq & Hr0 & Hge & Hle).
  assert (qhat < B -> qhat * limb v (n - 2) <= B * rhat + limb u (j + n - 2) -> q <= qhat <= q + 1 /\ 0 <= qhat < B) as Hdone.
  { intros Hb Hp. assert (qhat - 1 <= q) by (with_top nearly_exact). lia. }
  destruct (Z.ltb_spec rhat B) as [Hlt|Hlt].
  - destruct (test_spec qhat rhat Hest Hlt) as (again & -> & Hres). destruct again; simpl; [|exists qhat; split; [done|]; apply Hdone; tauto].
    destruct fuel; [lia|]. apply IH; [done|lia|]. lia.
  - exists qhat. split; [done|]. assert (qhat < B /\ qhat * limb v (n - 2) <= B * rhat + limb u (j + n - 2)) as [Hb Hp] by (with_top big_remainder). by apply Hdone.
Qed.

Lemma estimate_spec : exists qhat, estimate u v n j = (Ok qhat : res E Z) /\ q <= qhat <= q + 1 /\ 0 <= qhat < B.
Proof.
  pose proof B_pos. unfold estimate. pose proof (limb_bound u (j + n) Hu) as Hu0. pose proof (limb_bound u (j + n - 1) Hu) as Hu1. pose proof (limb_bound v (n - 1) Hv) as Hv1.
  rewrite !get_ok by lia. cbn [mbind res_bind]. rewrite mul_u_ok by (rewrite B_square; nia). cbn [mbind res_bind]. rewrite add_u_ok by (rewrite B_square; nia).
  unfold div_single. cbn [mbind res_bind]. rewrite div_u_ok, rem_u_ok by lia. cbn [mbind res_bind]. set (t := limb u (j + n) * B + limb u (j + n - 1)).
  pose proof (Z.div_mod t (limb v (n - 1)) ltac:(lia)) as Ht. pose proof (Z.mod_pos_bound t (limb v (n - 1)) ltac:(lia)) as Hm.
  rewrite as_single_ok by lia.
  assert (est (t / limb v (n - 1)) (t mod limb v (n - 1))) as Hest.
  { assert (limb u (j + n) <= limb v (n - 1)) as Htop by (with_top top_le). split_and!; [unfold t in *; lia|lia| |apply Z.div_pos; unfold t; nia|].
    - apply Z.div_le_lower_bound; [lia|]. rewrite Z.mul_comm. with_top first_estimate. apply Z.div_pos; [apply mid_bound; done|apply v_pos].
    - apply Z.lt_succ_r, Z.div_lt_upper_bound; [lia|]. unfold t. nia. }
  destruct (test_spec _ _ Hest ltac:(lia)) as (again & -> & Hres). destruct again; cbn [mbind res_bind]; (apply test_loop_spec; [done|lia|lia]).
Qed.
End division_step.

(** ** Reading and writing a range of limbs *)
Lemma mapM_get {E} self l : Forall (fun i => (i < len self)%nat) l -> mapM (@get E self) l = Ok (limb self <$> l).
Proof. induction 1 as [|i l Hi Hl IH]; [done|]. simpl. rewrite get_ok by done. simpl. by rewrite IH. Qed.

Lemma window_spec {E} u j n : wf u -> (j + n < len u)%nat ->
  exists w, @window E u j n = Ok w /\ wf w /\ len w = (n + 1)%nat /\ value w = mid u j (n + 1).
Proof.
  intros Hu Hj. unfold window. rewrite mapM_get by (apply Forall_forall; intros i; rewrite elem_of_reverse, elem_of_seq; lia). simpl.
  eexists. split; [done|]. assert (len {| digits := limb u <$> reverse (seq j (n + 1)) |} = (n + 1)%nat) as Hlen by (unfold len; simpl; by rewrite length_fmap, length_reverse, length_seq).
  split_and!; [|done|].
  - split; [|apply Forall_fmap, Forall_forall; intros i _; by apply limb_bound]. intros Hnil. unfold len in Hlen. rewrite Hnil in Hlen. simpl in Hlen. lia.
  - apply value_limbs; [done|]. intros i Hi. unfold limb at 1. rewrite checked_get_reverse. simpl.
    rewrite fmap_reverse, reverse_involutive, list_lookup_fmap, lookup_seq_lt by done. done.
Qed.

Lemma write_limbs_spec {E} from j n ds u :
  wf from -> wf u -> (n < len from)%nat -> (j + n < len u)%nat -> (forall i, i ∈ ds <-> (j <= i < j + (n + 1))%nat) ->
  exists w, @write_limbs E from j ds u = Ok w /\ wf w /\ len w = len u /\ low w j = low u j /\
    mid w j (n + 1) = low from (n + 1) /\ forall i, (j + n < i)%nat -> limb w i = limb u i.
Proof.
  intros Hf Hu Hn Hj Hds. unfold write_limbs.
  destruct (for_each_inv (fun self d => x ← get (E := E) from (d - j); set self d x)
    (fun dn w => wf w /\ len w = len u /\ forall i, limb w i = if decide (i ∈ dn) then limb from (i - j) else limb u i) ds u) as (w & -> & Hw & Hl & Hlimb).
  - split_and!; [done..|]. intros i. by rewrite decide_False by apply not_elem_of_nil.
  - intros dn d todo w Heq (Hw & Hl & Hlimb). assert (j <= d < j + (n + 1))%nat by (apply Hds; rewrite Heq; apply elem_of_app; right; constructor).
    rewrite get_ok by lia. simpl. destruct (set_ok (E := E) w d (limb from (d - j))) as (w' & -> & Hl' & Hset & Hwf); [lia|].
    eexists. split; [done|]. split_and!; [apply Hwf; [by apply limb_bound|done]|lia|]. intros i. rewrite Hset, Hlimb.
    destruct (Nat.eqb_spec d i) as [->|Hne]; [by rewrite decide_True by (apply elem_of_app; right; constructor)|].
    destruct (decide (i ∈ dn)); [by rewrite decide_True by (apply elem_of_app; by left)|]. rewrite decide_False; [done|].
    rewrite elem_of_app, list_elem_of_singleton. naive_solver.
  - exists w. split_and!; [done..| | |].
    + apply part_ext. intros i Hi. rewrite Hlimb, decide_False; [done|]. rewrite Hds. lia.
    + apply part_ext. intros i Hi. rewrite Hlimb, decide_True by (apply Hds; lia). f_equal. lia.
    + intros i Hi. rewrite Hlimb, decide_False; [done|]. rewrite Hds. lia.
Qed.

(** ** A round of the division *)
Lemma low_mod t k h x : wf t -> (k <= len t)%nat -> value t = B ^ Z.of_nat k * h + x -> 0 <= x < B ^ Z.of_nat k -> low t k = x.
Proof.
  intros Ht Hk Hv Hx. rewrite (value_split t k Hk) in Hv. pose proof (low_bound t k Ht).
  apply (Z.div_mod_unique (B ^ Z.of_nat k) (high t k) h); [by left|by left|lia].
Qed.

Section round.
Context {E : Type} (v : BigUint) (n : nat).
Context (Hv : wf v) (Hlen : len v = n) (Hn : (2 <= n)%nat) (Hnorm : B <= 2 * limb v (n - 1)).

(** Subtracting the estimate times [v] gives a number of [n + 1] limbs, with the borrow
    in the limb above when the estimate is too big. *)
Lemma subtract_spec U qhat lhs : 0 <= U < B ^ Z.of_nat (n + 1) -> U < value v * B -> U / value v <= qhat <= U / value v + 1 -> 0 <= qhat < B ->
  wf lhs -> len lhs = (n + 1)%nat -> value lhs = U ->
  exists rhs t, @mul E v (from_u64 qhat) = Ok rhs /\ wf t /\ len t = (n + 2)%nat /\
    (if decide (qhat = U / value v) then sub lhs rhs = Ok t /\ low t (n + 1) = U - qhat * value v
     else sub lhs rhs = Err t /\ low t (n + 1) = B ^ Z.of_nat (n + 1) + U - qhat * value v).
Proof.
  intros HU HUV Hq Hb Hlhs Hll Hvl. pose proof B_pos. pose proof (v_pos v n Hv Hlen Hn Hnorm) as HV. pose proof (value_bound v Hv) as HVb. rewrite Hlen in HVb.
  pose proof (Z.div_mod U (value v) ltac:(lia)) as Hdm. pose proof (Z.mod_pos_bound U (value v) HV) as Hm.
  destruct (from_u64_spec qhat ltac:(nia)) as (Hw64 & Hv64 & Hl64). destruct (limbs_mul_spec (E := E) v (from_u64 qhat) Hv Hw64) as (rhs & Hmul & Hwr & Hlr & Hvr).
  destruct (limbs_sub_spec lhs rhs Hlhs Hwr) as (t & Hsub & Hwt & Hlt & Hvt). exists rhs, t.
  assert (len t = (n + 2)%nat) as Hl by lia. rewrite Hvl, Hvr, Hv64 in *. split_and!; [done..|].
  assert (B ^ Z.of_nat n <= B ^ Z.of_nat (n + 1)) by (apply Z.pow_le_mono_r; lia).
  destruct (decide (qhat = U / value v)) as [Heq|Hne].
  - rewrite (proj2 (Z.leb_le _ _)) in Hsub, Hvt by nia. split; [done|].
    apply (low_mod t (n + 1) 0); [done|lia|lia|nia].
  - rewrite (proj2 (Z.leb_gt _ _)) in Hsub, Hvt by nia. split; [done|].
    apply (low_mod t (n + 1) (B - 1)); [done|lia| |nia]. rewrite Hvt, Hl. replace (n + 2)%nat with (S (n + 1)) by lia. rewrite Bpow_S. lia.
Qed.

Lemma div_step_spec u q j :
  wf u -> wf q -> (j + n < len u)%nat -> (j < len q)%nat -> mid u j (n + 1) < value v * B ->
  exists u' q', @div_step E v n (u, q) j = Ok (u', q') /\ wf u' /\ wf q' /\ len u' = len u /\ len q' = len q /\
    low u' j = low u j /\ mid u' j (n + 1) = mid u j (n + 1) mod value v /\ (forall i, (j + n < i)%nat -> limb u' i = limb u i) /\
    (forall i, limb q' i = if (j =? i)%nat then mid u j (n + 1) / value v else limb q i).
Proof.
  intros Hu Hq Hj Hjq Hsmall. pose proof (v_pos v n Hv Hlen Hn Hnorm) as HV. pose proof (mid_bound u j (n + 1) Hu) as HU. pose proof (value_bound v Hv) as HVb. rewrite Hlen in HVb.
  pose proof (Z.div_mod (mid u j (n + 1)) (value v) ltac:(lia)) as Hdm. pose proof (Z.mod_pos_bound (mid u j (n + 1)) (value v) HV) as Hm.
  unfold div_step. destruct (estimate_spec (E := E) v n Hv Hlen Hn Hnorm u j Hu Hj Hsmall) as (qhat & -> & Hqhat & Hb). cbn [mbind res_bind].
  destruct (window_spec (E := E) u j n Hu Hj) as (lhs & -> & Hwl & Hll & Hvl). cbn [mbind res_bind].
  destruct (subtract_spec (mid u j (n + 1)) qhat lhs HU Hsmall Hqhat Hb Hwl Hll Hvl) as (rhs & t & -> & Hwt & Hlt & Hsub). cbn [mbind res_bind].
  destruct (write_limbs_spec (E := E) t j n (seq j (n + 1)) u) as (u1 & Hrun1 & Hw1 & Hl1 & Hlow1 & Hmid1 & Hhigh1); [done|done|lia|done|intros i; rewrite elem_of_seq; lia|].
  destruct (set_ok (E := E) q j (as_single qhat)) as (q1 & Hset1 & Hlq1 & Hlq1' & Hwq1); [done|]. rewrite as_single_ok in Hset1, Hlq1', Hwq1 by done.
  destruct (decide (qhat = _)) as [Heq|Hne].
  - destruct Hsub as [-> Hlow]. cbn [mbind res_bind]. rewrite Hrun1. cbn [mbind res_bind]. rewrite as_single_ok, Hset1 by done.
    exists u1, q1. split; [done|]. split_and!; [done|auto|done|done|done|rewrite Hmid1, Hlow; lia|done|by subst qhat].
  - destruct Hsub as [-> Hlow]. cbn [mbind res_bind]. rewrite Hrun1. cbn [mbind res_bind]. rewrite as_single_ok, Hset1 by done. cbn [mbind res_bind].
    rewrite get_ok, Hlq1', Nat.eqb_refl by lia. cbn [mbind res_bind]. assert (0 <= mid u j (n + 1) / value v) by (apply Z.div_pos; lia).
    rewrite sub_u_ok by lia. cbn [mbind res_bind]. destruct (set_ok (E := E) q1 j (qhat - 1)) as (q2 & -> & Hlq2 & Hlq2' & Hwq2); [lia|]. cbn [mbind res_bind].
    destruct (window_spec (E := E) u1 j n) as (w & -> & Hww & Hlw & Hvw); [done|lia|]. cbn [mbind res_bind].
    destruct (limbs_add_spec (E := E) v w Hv Hww) as (r & -> & Hwr & Hlr & Hvr). cbn [mbind res_bind].
    destruct (write_limbs_spec (E := E) r j n (reverse (seq j (n + 1))) u1) as (u2 & -> & Hw2 & Hl2 & Hlow2 & Hmid2 & Hhigh2);
      [done|done|lia|lia|intros i; rewrite elem_of_reverse, elem_of_seq; lia|].
    exists u2, q2. split; [done|]. split_and!; [done|apply Hwq2; [lia|auto]|lia|lia|lia| |intros i Hi; by rewrite Hhigh2, Hhigh1|].
    + rewrite Hmid2. assert (B ^ Z.of_nat n <= B ^ Z.of_nat (n + 1)) by (apply Z.pow_le_mono_r; [pose proof B_pos|]; lia).
      apply (low_mod r (n + 1) 1); [done|lia| |lia]. rewrite Hvr, Hvw, Hmid1, Hlow. nia.
    + intros i. rewrite Hlq2', Hlq1'. destruct (Nat.eqb_spec j i); [lia|done].
Qed.

(** ** All rounds *)
Definition div_inv (u0 : Z) (m j : nat) (acc : BigUint * BigUint) : Prop :=
  let '(u, q) := acc in
  wf u /\ wf q /\ len u = (n + m + 1)%nat /\ len q = (m + 1)%nat /\
  value u < value v * B ^ Z.of_nat j /\ value u + value v * B ^ Z.of_nat j * high q j = u0.

Lemma value_mid u j k : (j + k <= len u)%nat -> value u = low u j + B ^ Z.of_nat j * (mid u j k + B ^ Z.of_nat k * high u (j + k)).
Proof.
  intros Hjk. rewrite (value_split u (j + k)), Bpow_add by done. unfold low at 1. rewrite part_add. unfold low, mid. lia.
Qed.

Lemma round_inv u0 m j acc : (j < m + 1)%nat -> div_inv u0 m (S j) acc -> exists acc', @div_step E v n acc j = Ok acc' /\ div_inv u0 m j acc'.
Proof.
  destruct acc as [u q]. intros Hj (Hu & Hq & Hlu & Hlq & Hsm & Heq). pose proof B_pos. pose proof (Bpow_pos j) as HP. pose proof (Bpow_pos (n + 1)).
  pose proof (v_pos v n Hv Hlen Hn Hnorm) as HV. pose proof (value_bound v Hv) as HVb. rewrite Hlen in HVb. pose proof (low_bound u j Hu) as Hlow. pose proof (mid_bound u j (n + 1) Hu) as Hmid.
  pose proof (value_mid u j (n + 1) ltac:(lia)) as Hval. pose proof (high_bound u (j + (n + 1)) Hu) as Hhigh. rewrite Bpow_S in Hsm, Heq.
  assert (high u (j + (n + 1)) = 0) as Hz.
  { assert (value v * B < B ^ Z.of_nat (n + 1)) by (rewrite Nat.add_1_r, Bpow_S; nia). destruct (decide (high u (j + (n + 1)) = 0)); [done|exfalso].
    assert (B ^ Z.of_nat (n + 1) <= B ^ Z.of_nat (n + 1) * high u (j + (n + 1))) by nia.
    assert (B ^ Z.of_nat j * (value v * B) <= value u) by nia. nia. }
  rewrite Hz, Z.mul_0_r, Z.add_0_r in Hval.
  assert (mid u j (n + 1) < value v * B) as Hsmall by nia.
  destruct (div_step_spec u q j Hu Hq ltac:(lia) ltac:(lia) Hsmall) as (u' & q' & -> & Hu' & Hq' & Hlu' & Hlq' & Hlow' & Hmid' & Hhigh' & Hlimb').
  pose proof (Z.div_mod (mid u j (n + 1)) (value v) ltac:(lia)) as Hdm. pose proof (Z.mod_pos_bound (mid u j (n + 1)) (value v) HV) as Hm.
  assert (value u' = low u j + B ^ Z.of_nat j * (mid u j (n + 1) mod value v)) as Hval'.
  { rewrite (value_mid u' j (n + 1)), Hlow', Hmid', (high_ext u' u), Hz by (try lia; intros; apply Hhigh'; lia). lia. }
  eexists. split; [done|]. split_and!; [done|done|lia|lia|nia|].
  rewrite (high_step q') by lia. rewrite Hlimb', Nat.eqb_refl, (high_ext q' q); [|lia|intros i Hi; rewrite Hlimb', (proj2 (Nat.eqb_neq _ _)) by lia; done].
  rewrite Hval', <- Heq, Hval. nia.
Qed.

Lemma rounds_spec u m : wf u -> len u = (n + m + 1)%nat -> value u < value v * B ^ Z.of_nat (m + 1) ->
  exists u' q, for_each (@div_step E v n) (reverse (seq 0 (m + 1))) (u, with_capacity (m + 1)) = Ok (u', q) /\
    wf u' /\ wf q /\ len u' = len u /\ len q = (m + 1)%nat /\ value u' = value u mod value v /\ value q = value u / value v.
Proof.
  intros Hu Hlu Hsm.
  destruct (for_rev_inv (@div_step E v n) (div_inv (value u) m) (m + 1) (u, with_capacity (m + 1))) as ((u' & q) & Hrun & Hu' & Hq & Hlu' & Hlq & Hlt & Heq).
  - split_and!; [done|apply with_capacity_wf|done|rewrite with_capacity_len; lia|done|]. rewrite high_end by (rewrite with_capacity_len; lia). lia.
  - intros j acc Hj. by apply round_inv.
  - exists u', q. rewrite high_0 in Heq. simpl in Hlt, Heq. pose proof (value_bound u' Hu'). split_and!; [done..|lia|done| |].
    + apply (Z.mod_unique _ _ (value q)); lia.
    + apply (Z.div_unique _ _ _ (value u')); lia.
Qed.
End round.

(** ** Undoing the normalization *)
Lemma lor_high a b k : 0 <= k -> 0 <= a < 2 ^ k -> Z.lor a (b * 2 ^ k) = a + b * 2 ^ k.
Proof.
  intros Hk Ha. rewrite <- Z.shiftl_mul_pow2 by done.
  assert (Z.land a (Z.shiftl b k) = 0) as Hland.
  { apply Z.bits_inj'. intros i Hi. rewrite Z.land_spec, Z.bits_0, Z.shiftl_spec by done. destruct (Z.ltb_spec i k).
    - by rewrite (Z.testbit_neg_r b), andb_false_r by lia.
    - destruct (decide (a = 0)) as [->|]; [by rewrite Z.bits_0|]. rewrite Z.bits_above_log2; [done|lia|]. assert (Z.log2 a < k) by (apply Z.log2_lt_pow2; lia). lia. }
  by rewrite Z.add_nocarry_lxor, Z.lxor_lor.
Qed.

(** A limb of a number that is shifted to the right by [nb] bits. *)
Lemma shifted_limb lo hi nb : 0 < nb < 32 -> 0 <= lo < B -> 0 <= hi < B ->
  let d := Z.lor (Z.shiftr lo nb) (overflowing_shl hi (32 - nb)) in
  0 <= d < B /\ d = lo / 2 ^ nb + (hi mod 2 ^ nb) * 2 ^ (32 - nb).
Proof.
  intros Hnb Hlo Hhi. cbv zeta. assert (B = 2 ^ nb * 2 ^ (32 - nb)) as HB by (rewrite B_eq, <- Z.pow_add_r by lia; f_equal; lia).
  assert (0 < 2 ^ nb) by (apply Z.pow_pos_nonneg; lia). assert (0 < 2 ^ (32 - nb)) by (apply Z.pow_pos_nonneg; lia).
  rewrite Z.shiftr_div_pow2 by lia. unfold overflowing_shl, as_single. rewrite (Z.mod_small (32 - nb)), Z.shiftl_mul_pow2 by lia.
  rewrite <- B_eq, HB, Z.mul_mod_distr_r by lia.
  assert (0 <= lo / 2 ^ nb < 2 ^ (32 - nb)) by (split; [apply Z.div_pos; lia|apply Z.div_lt_upper_bound; lia]).
  pose proof (Z.mod_pos_bound hi (2 ^ nb) ltac:(lia)). rewrite lor_high by lia. split; [nia|done].
Qed.

(** The [d] lowest limbs of the shifted number. *)
Definition shifted_upto (u : BigUint) (n : nat) (g : Z) (d : nat) (r : BigUint) : Prop :=
  wf r /\ len r = n /\ low r d * g + limb u 0 mod g = low u d + limb u d mod g * B ^ Z.of_nat d.

Lemma unnormalize_spec {E} u n nb : wf u -> (1 <= n < len u)%nat -> value u < B ^ Z.of_nat n -> 0 <= nb < 32 ->
  exists r, @unnormalize E u n nb = Ok r /\ wf r /\ value r = value u / 2 ^ nb /\ (nb = 0 -> r = u) /\ (0 < nb -> len r = n).
Proof.
  intros Hu Hn Hv Hnb. unfold unnormalize. destruct (Z.ltb_spec 0 nb) as [Hpos|Hz].
  2: { assert (nb = 0) as -> by lia. exists u. change (2 ^ 0) with 1. rewrite Z.div_1_r. split_and!; [done..|lia]. }
  set (g := 2 ^ nb). assert (B = g * 2 ^ (32 - nb)) as HB by (unfold g; rewrite B_eq, <- Z.pow_add_r by lia; f_equal; lia).
  assert (0 < g) by (apply Z.pow_pos_nonneg; lia). pose proof B_pos.
  destruct (for_seq_inv (@shift_step E u nb) (shifted_upto u n g) (n - 1) (with_capacity n)) as (r & -> & Hr & Hl & Hsum); cycle 2.
  - cbn [mbind res_bind]. rewrite get_ok by lia. cbn [mbind res_bind]. pose proof (limb_bound u (n - 1) Hu) as Hb. rewrite Z.shiftr_div_pow2 by lia. fold g.
    assert (0 <= limb u (n - 1) / g < B) by (split; [apply Z.div_pos; lia|apply Z.div_lt_upper_bound; nia]).
    destruct (set_ok (E := E) r (n - 1) (limb u (n - 1) / g)) as (r' & -> & Hl' & Hset & Hwf); [lia|]. exists r'. split; [done|]. split_and!; [auto| |lia|lia].
    pose proof (Z.mod_pos_bound (limb u 0) g ltac:(lia)). apply (Z.div_unique _ _ _ (limb u 0 mod g)); [lia|].
    assert (value u = low u n) as ->. { rewrite (value_split u n) in Hv |- * by lia. pose proof (low_bound u n Hu). pose proof (high_bound u n Hu). pose proof (Bpow_pos n).
      destruct (decide (high u n = 0)) as [->|]; [lia|]. assert (B ^ Z.of_nat n * 1 <= B ^ Z.of_nat n * high u n) by (apply Z.mul_le_mono_nonneg_l; lia). lia. }
    assert (value r' = low r' n) as -> by (rewrite value_part, Hl', Hl; done). replace n with (S (n - 1)) at 1 2 by lia.
    rewrite (low_set_S _ _ _ _ Hset), low_S. pose proof (Z.div_mod (limb u (n - 1)) g ltac:(lia)) as Hdm. nia.
  - split_and!; [apply with_capacity_wf|rewrite with_capacity_len; lia|]. change (low _ 0) with 0. rewrite Z.mul_1_r. done.
  - intros d r Hd (Hr & Hl & Hsum). unfold shift_step. rewrite !get_ok by lia. cbn [mbind res_bind].
    destruct (shifted_limb (limb u d) (limb u (d + 1)) nb) as [Hb Hx]; [lia|by apply limb_bound..|]. cbv zeta in Hb, Hx.
    destruct (set_ok (E := E) r d (Z.lor (Z.shiftr (limb u d) nb) (overflowing_shl (limb u (d + 1)) (32 - nb)))) as (r' & -> & Hl' & Hset & Hwf); [lia|].
    eexists. split; [done|]. split_and!; [auto|lia|]. rewrite (low_set_S _ _ _ _ Hset), Hx, low_S, Bpow_S, Nat.add_1_r. fold g.
    generalize dependent (B ^ Z.of_nat d). intros P Hsum. pose proof (f_equal (Z.mul P) (Z.div_mod (limb u d) g ltac:(lia))). rewrite HB. lia.
Qed.

(** ** Division *)

(** Scaling the divisor so that its top limb has its top bit set. *)
Lemma normalized v mo : wf v -> (2 <= len v)%nat -> digits v !! 0%nat = Some mo -> mo <> 0 ->
  let g := 2 ^ leading_zeros mo in
  0 <= leading_zeros mo < 32 /\ 0 < g < B /\ B ^ Z.of_nat (len v - 1) <= value v /\
  forall w, wf w -> value w = value v * g ->
    wf (lstrip w) /\ len (lstrip w) = len v /\ value (lstrip w) = value w /\ B <= 2 * limb (lstrip w) (len v - 1).
Proof.
  intros Hv Hn Hmo Hne. cbv zeta. destruct v as [[|d l]]; [done|]. simpl in Hmo. injection Hmo as ->. unfold len in *. simpl in *.
  pose proof Hv as [_ Hd]. simpl in Hd. apply Forall_cons in Hd as [Hd Hl]. pose proof B_pos. set (k := length l) in *.
  replace (k - 0)%nat with k by lia. pose proof (value_list_bound l Hl) as Hlb. pose proof (value_cons mo l) as Hvc. fold k in Hlb, Hvc. pose proof (Bpow_pos k).
  assert (0 <= Z.log2 mo < 32) as Hlog by (split; [apply Z.log2_nonneg|]; apply Z.log2_lt_pow2; [lia|]; rewrite <- B_eq; lia).
  unfold leading_zeros. rewrite (proj2 (Z.eqb_neq _ _)) by done. set (nb := 31 - Z.log2 mo) in *. split; [lia|].
  pose proof (Z.log2_spec mo ltac:(lia)) as [Hlo Hhi]. assert (0 < 2 ^ nb) as Hg by (apply Z.pow_pos_nonneg; lia).
  assert (2 ^ 31 <= mo * 2 ^ nb) as Hmin. { replace 31 with (Z.log2 mo + nb) by lia. rewrite Z.pow_add_r by lia. nia. }
  assert ((mo + 1) * 2 ^ nb <= B) as Hmax. { rewrite B_eq. replace 32 with (Z.succ (Z.log2 mo) + nb) by lia. rewrite Z.pow_add_r by lia. nia. }
  assert (2 * 2 ^ 31 = B) as HB2 by (rewrite B_eq; done).
  split; [nia|]. split; [nia|]. intros w Hw Hvw. destruct (lstrip_spec w Hw) as (Hws & Hvs & _ & Hlead). set (s := lstrip w) in *. clearbody s.
  assert (B ^ Z.of_nat k * 2 ^ 31 <= value w < B ^ Z.of_nat (S k)) as Hb by (rewrite Bpow_S, Hvw; nia). rewrite <- Hvs in Hb.
  assert (length (digits s) = S k) as Hls.
  { pose proof (value_bound s Hws) as Hsb. destruct s as [[|x s]]; [by destruct Hws|]. unfold len in Hsb. simpl in *. destruct Hws as [_ Hx]. simpl in Hx. apply Forall_cons in Hx as [Hx Hs].
    assert (x <> 0) as Hx0. { intros Hx0. specialize (Hlead x s eq_refl Hx0). subst. unfold value in Hb. simpl in Hb. nia. }
    pose proof (value_lead x s ltac:(lia) Hs) as Hlow. f_equal. apply Nat.le_antisymm.
    - apply Nat.nlt_ge. intros Hlt. assert (B ^ Z.of_nat (S k) <= B ^ Z.of_nat (length s)) by (apply Z.pow_le_mono_r; lia). lia.
    - apply Nat.nlt_ge. intros Hlt. assert (B ^ Z.of_nat (S (length s)) <= B ^ Z.of_nat k) by (apply Z.pow_le_mono_r; lia). nia. }
  split_and!; [done|done|done|]. rewrite value_part in Hb. unfold len in Hb. rewrite Hls in Hb. change (part (limb s) (S k)) with (low s (S k)) in Hb. rewrite low_S in Hb.
  pose proof (low_bound s k Hws). assert (2 ^ 31 < limb s k + 1) by nia. lia.
Qed.

(** What [div] accepts. *)
Definition dividable (self other : BigUint) : bool :=
  (1 <? len other)%nat && negb (hd 0 (digits other) =? 0) && negb (hd 0 (digits self) =? 0) && (len other <? len self)%nat.

Lemma msb_ok {E} self : wf self -> @msb E self = Ok (hd 0 (digits self)) /\ digits self !! 0%nat = Some (hd 0 (digits self)).
Proof. intros [Hne _]. unfold msb. by destruct (digits self). Qed.

Lemma div_refused_spec {E} self other : wf self -> wf other -> @div_refused E self other = Ok (negb (dividable self other)).
Proof.
  intros Hs Ho. unfold div_refused, dividable. rewrite (proj1 (msb_ok self Hs)), (proj1 (msb_ok other Ho)). cbn [mbind res_bind].
  destruct (Nat.leb_spec (len other) 1), (Nat.ltb_spec 1 (len other)); try lia; [done|]. simpl.
  destruct (hd 0 (digits other) =? 0); [done|]. destruct (hd 0 (digits self) =? 0); [done|]. simpl.
  destruct (Nat.leb_spec (len self) (len other)), (Nat.ltb_spec (len other) (len self)); try lia; done.
Qed.

(** C5: Long division.  [div] gives up exactly on operands with a leading zero, a divisor
    of one limb or a dividend that is not longer than the divisor.  On all others it
    returns, without overflow or an index out of range, the quotient, in the promised number
    of limbs, and the remainder of the two numbers. *)
Theorem div_is_euclidean {E} self other rem :
  wf self -> wf other ->
  if dividable self other
  then exists q r, @div E self other rem = Ok (Some (q, r)) /\ wf q /\ wf r /\ len q = (len self - len other + 1)%nat /\
         value q = value self / value other /\ value r = if rem then value self mod value other else 0
  else @div E self other rem = Ok None.
Proof.
  intros Hs Ho. unfold div. rewrite div_refused_spec by done. cbn [mbind res_bind]. unfold dividable.
  destruct (Nat.ltb_spec 1 (len other)) as [Hn|]; [|done]. destruct (Z.eqb_spec (hd 0 (digits other)) 0) as [|Hmo]; [done|].
  destruct (Z.eqb_spec (hd 0 (digits self)) 0) as [|Hms]; [done|]. destruct (Nat.ltb_spec (len other) (len self)) as [Hlen|]; [|done]. simpl andb. cbn [negb].
  destruct (msb_ok (E := E) other Ho) as [-> Hdo]. cbn [mbind res_bind]. set (n := len other) in *. set (m := (len self - n)%nat).
  destruct (normalized other _ Ho Hn Hdo Hmo) as (Hnb & Hg & Hmin & Hstrip). fold n in Hmin, Hstrip. set (nb := leading_zeros (hd 0 (digits other))) in *. set (g := 2 ^ nb) in *.
  unfold checked_pow. fold g. rewrite (proj2 (Z.ltb_lt _ _)) by (rewrite <- B_eq; lia). cbn [expect mbind res_bind].
  destruct (from_u32_spec g ltac:(lia)) as (Hwg & Hvg & Hlg).
  destruct (limbs_mul_spec (E := E) self (from_u32 g) Hs Hwg) as (u & -> & Hu & Hlu & Hvu). cbn [mbind res_bind]. rewrite Hvg in Hvu.
  destruct (limbs_mul_spec (E := E) other (from_u32 g) Ho Hwg) as (w & -> & Hw & _ & Hvw). cbn [mbind res_bind]. rewrite Hvg in Hvw.
  destruct (Hstrip w Hw Hvw) as (Hv & Hlv & Hvv & Hnorm). set (v := lstrip w) in *. clearbody v. rewrite Hvw in Hvv.
  assert (lpad (n + m + 1) u = u) as -> by (unfold lpad; rewrite (proj2 (Nat.leb_le _ _)) by lia; done).
  pose proof (value_bound self Hs) as Hsb. pose proof (value_bound other Ho) as Hob. fold n in Hob. pose proof B_pos. pose proof (Bpow_pos (n - 1)). pose proof (Bpow_pos (m + 1)).
  assert (value self < value other * B ^ Z.of_nat (m + 1)) as Hbig.
  { replace (len self) with (n - 1 + (m + 1))%nat in Hsb by lia. rewrite Bpow_add in Hsb. nia. }
  destruct (rounds_spec (E := E) v n Hv Hlv Hn Hnorm u m) as (u' & q & -> & Hu' & Hq & Hlu' & Hlq & Hvu' & Hvq); [done|lia|rewrite Hvu, Hvv; nia|]. cbn [mbind res_bind].
  rewrite Hvu, Hvv, Z.mul_mod_distr_r in Hvu' by lia. rewrite Hvu, Hvv, Z.div_mul_cancel_r in Hvq by lia.
  pose proof (Z.mod_pos_bound (value self) (value other) ltac:(lia)) as Hm.
  destruct rem; cbn [mbind res_bind].
  - destruct (unnormalize_spec (E := E) u' n nb Hu') as (r & -> & Hr & Hvr & _); [lia| |lia|].
    { pose proof (value_bound v Hv) as Hvb. rewrite Hlv, Hvv in Hvb. nia. }
    cbn [mbind res_bind]. exists q, r. fold g in Hvr. rewrite Hvu', Z.div_mul in Hvr by lia. by split_and!.
  - exists q, (with_capacity n). split_and!; try done; [apply with_capacity_wf|]. rewrite value_part. apply part_zero. intros i _. apply with_capacity_limb.
Qed.

(** Sums, differences, products and the order of big integers are those of the numbers.
    None of the operations overflows a 64-bit word; a sum has one limb more than the
    longer operand, and a difference that is negative comes as an error with a power of
    the base added. *)
Theorem biguint_arithmetic {E} self other :
  wf self -> wf other ->
  (exists w, @add E self other = Ok w /\ wf w /\ len w = (Nat.max (len self) (len other) + 1)%nat /\ value w = value self + value other) /\
  (exists w, wf w /\ len w = Nat.max (len self) (len other) /\
     if value other <=? value self then sub self other = Ok w /\ value w = value self - value other
     else sub self other = Err w /\ value w = B ^ Z.of_nat (len w) + value self - value other) /\
  (exists w, @mul E self other = Ok w /\ wf w /\ len w = (len other + len self)%nat /\ value w = value self * value other) /\
  cmp self other = (value self ?= value other) /\
  (forall k, (0 < k)%nat -> try_from (32 * Z.of_nat k) self = if value self <? 2 ^ (32 * Z.of_nat k) then Ok (value self) else Err tt).
Proof.
  intros Hs Ho. split_and!; [by apply limbs_add_spec| |by apply limbs_mul_spec|by apply cmp_spec|intros k Hk; by apply try_from_spec].
  destruct (limbs_sub_spec self other Hs Ho) as (w & Hsub & Hw & Hl & Hv). exists w. split_and!; [done..|].
  destruct (value other <=? value self); (split; [done|lia]).
Qed.

Module BigUintExamples.
(** Two numbers for which the estimate of a limb is still one too big after its test. *)
Definition a : BigUint := {| digits := [2147483647; 2147483648; 0; 0] |}.
Definition b : BigUint := {| digits := [2147483648; 0; 1] |}.

Lemma wf_dec l : l <> [] -> forallb (fun d => (0 <=? d) && (d <? B)) l = true -> wf {| digits := l |}.
Proof.
  intros Hne Hl. split; [done|]. apply Forall_forall. intros d Hd. apply forallb_forall with (x := d) in Hl; [lia|]. by apply list_elem_of_In.
Qed.

Lemma div_is_euclidean_witness : exists q r, @div unit a b true = Ok (Some (q, r)) /\ value q = value a / value b /\ value r = value a mod value b.
Proof.
  assert (wf a) as Ha by (apply wf_dec; [done|by vm_compute]). assert (wf b) as Hb by (apply wf_dec; [done|by vm_compute]).
  destruct (div_is_euclidean (E := unit) a b true Ha Hb) as (q & r & Hd & _ & _ & _ & Hq & Hr). exists q, r. by split_and!.
Defined.

Lemma biguint_arithmetic_witness : exists w, @add unit a b = Ok w /\ value w = value a + value b.
Proof.
  assert (wf a) as Ha by (apply wf_dec; [done|by vm_compute]). assert (wf b) as Hb by (apply wf_dec; [done|by vm_compute]).
  destruct (biguint_arithmetic (E := unit) a b Ha Hb) as ((w & Hadd & _ & _ & Hv) & _). by exists w.
Defined.

(** The division of [a] by [b] adds the divisor back. *)
Example add_back : exists u q, @estimate unit {| digits := 0 :: digits a |} b 3 0 = Ok q /\ @window unit {| digits := 0 :: digits a |} 0 3 = Ok u /\
  q = value u / value b + 1.
Proof. eexists _, _. split_and!; [by vm_compute|by vm_compute|by vm_compute]. Qed.

(** The remainder has the limbs of the normalized dividend when there was nothing to
    normalize, and [n] limbs otherwise. *)
Theorem remainder_keeps_dividend_length :
  @div unit a b true = Ok (Some ({| digits := [0; 4294967294] |}, {| digits := [0; 0; 2147483647; 4294967295; 2] |})) /\
  len b = 3%nat.
Proof. split; by vm_compute. Qed.
End BigUintExamples.
