(* ===== verification/Helpers128.v ===== *)
(** * Arithmetic on 128-bit numbers

    [substrate/primitives/arithmetic/src/helpers_128bit.rs]: greatest common divisors,
    products and quotients with a 256-bit intermediate result, and square roots; and
    [Rounding] of [per_things.rs].  The loops take fuel and panic without it; the theorems
    show that they return. *)
From stdpp Require Import base list.
From Stdlib Require Import ZArith Lia.
From S2P Require Import Prelude BigUint BigUintFacts.
Set Warnings "-clear-no-such-hyp".
Open Scope Z_scope.

Inductive Rounding := Up | Down | NearestPrefUp | NearestPrefDown.

(** [x as u128] *)
Definition as_u128 (x : Z) : Z := x mod 2 ^ 128.

Section gcd.
Context {E : Type}.

(** The cases of the [match], in its order.  Each call halves the product of the
    arguments. *)
Fixpoint gcd_rec (fuel : nat) (a b : Z) : res E Z :=
  match fuel with
  | O => Panic
  | S fuel' =>
      if a =? b then Ok b
      else if a =? 0 then Ok b
      else if b =? 0 then Ok a
      else match Z.odd a, Z.odd b with
           | false, true => gcd_rec fuel' (Z.shiftr a 1) b
           | true, false => gcd_rec fuel' (Z.shiftr b 1) a
           | false, false => g ← gcd_rec fuel' (Z.shiftr a 1) (Z.shiftr b 1); Ok (as_u128 (Z.shiftl g 1))
           | true, true => let x := Z.min a b in let y := Z.max a b in
                           d ← sub_u y x; gcd_rec fuel' (Z.shiftr d 1) x
           end
  end.

Definition gcd (a b : Z) : res E Z := gcd_rec 257 a b.
End gcd.

(** A number as two limbs of 64 bits, and as a [BigUint]. *)
Definition split (a : Z) : Z * Z :=
  let al := a mod 2 ^ 64 in
  let ah := Z.shiftr a 64 mod 2 ^ 64 in
  (ah, al).

Definition to_big_uint (x : Z) : BigUint :=
  let '(xh, xl) := split x in
  let '(xhh, xhl) := BigUint.split xh in
  let '(xlh, xll) := BigUint.split xl in
  lstrip (from_limbs [xhh; xhl; xlh; xll]).

(** ** Numbers of 256 bits *)
Module double128.
Definition low_64 (a : Z) : Z := Z.land a (Z.shiftl 1 64 - 1).
Definition high_64 (a : Z) : Z := Z.shiftr a 64.
(** [(!a).wrapping_add(1)] *)
Definition neg128 (a : Z) : Z := as_u128 ((2 ^ 128 - 1 - a) + 1).

Record Double128 := { high : Z; low : Z }.

Definition try_into_u128 (self : Double128) : option Z := if high self =? 0 then Some (low self) else None.
Definition zero : Double128 := {| high := 0; low := 0 |}.
Definition left_shift_64 (scaled_value : Z) : Double128 :=
  {| high := Z.shiftr scaled_value 64; low := as_u128 (Z.shiftl scaled_value 64) |}.
Definition from_low (l : Z) : Double128 := {| high := 0; low := l |}.
Definition low_part (self : Double128) : Double128 := {| high := 0; low := low self |}.

Definition add (self b : Double128) : Double128 :=
  let overflow := 2 ^ 128 <=? low self + low b in
  let carry := if overflow then 1 else 0 in
  {| high := as_u128 (as_u128 (high self + high b) + carry); low := as_u128 (low self + low b) |}.

Section ops.
Context {E : Type}.

Definition div128 (a : Z) : res E Z := q ← div_u (neg128 a) a; Ok (as_u128 (q + 1)).
Definition mod128 (a : Z) : res E Z := rem_u (neg128 a) a.

Definition product_of (a b : Z) : res E Double128 :=
  let '(a_low, a_high) := (low_64 a, high_64 a) in
  let '(b_low, b_high) := (low_64 b, high_64 b) in
  f ← mul_u 128 a_low b_low;
  o ← mul_u 128 a_low b_high;
  i ← mul_u 128 a_high b_low;
  l ← mul_u 128 a_high b_high;
  let fl := {| high := l; low := f |} in
  let i := left_shift_64 i in
  let o := left_shift_64 o in
  Ok (add (add fl i) o).

(** The [while] loop of [div]: [x] is the quotient so far. *)
Fixpoint div_loop (fuel : nat) (q r : Z) (x self : Double128) : res E (Double128 * Double128) :=
  match fuel with
  | O => Panic
  | S fuel' =>
      if high self =? 0 then Ok (x, self)
      else p ← product_of (high self) q;
           let x := add x p in
           p ← product_of (high self) r;
           div_loop fuel' q r x (add p (low_part self))
  end.

Definition div (self : Double128) (rhs : Z) : res E (Double128 * Z) :=
  if rhs =? 1 then Ok (self, 0) else
  q ← div128 rhs;
  r ← mod128 rhs;
  '(x, self) ← div_loop 131 q r zero self;
  d ← div_u (low self) rhs;
  m ← rem_u (low self) rhs;
  Ok (add x (from_low d), m).
End ops.
End double128.

(** Whether a rounding adds one to a quotient by [c] with this remainder. *)
Definition rounds_up (r : Rounding) (remainder c : Z) : bool :=
  match r with
  | Up => 0 <? remainder
  | NearestPrefUp => c / 2 + c mod 2 <=? remainder
  | NearestPrefDown => c / 2 <? remainder
  | Down => false
  end.

Section helpers.
Context {E : Type}.

Definition multiply_by_rational_with_rounding (a b c : Z) (r : Rounding) : res E (option Z) :=
  if c =? 0 then Ok None else
  p ← double128.product_of a b;
  '(result, remainder) ← double128.div p c;
  match double128.try_into_u128 result with
  | None => Ok None
  | Some result => Ok (if rounds_up r remainder c then checked_add 128 result 1 else Some result)
  end.

(** The [while] loop of [sqrt]. *)
Fixpoint sqrt_loop (fuel : nat) (n result bit : Z) : res E Z :=
  match fuel with
  | O => Panic
  | S fuel' =>
      if bit =? 0 then Ok result
      else s ← add_u 128 result bit;
           if s <=? n then
             n ← sub_u n s;
             result ← add_u 128 (Z.shiftr result 1) bit;
             sqrt_loop fuel' n result (Z.shiftr bit 2)
           else sqrt_loop fuel' n (Z.shiftr result 1) (Z.shiftr bit 2)
  end.

Definition leading_zeros_128 (x : Z) : Z := if x =? 0 then 128 else 127 - Z.log2 x.

Definition sqrt (n : Z) : res E Z :=
  if n =? 0 then Ok 0 else
  max_shift ← sub_u (leading_zeros_128 0) 1;
  d ← sub_u max_shift (leading_zeros_128 n);
  let shift := Z.ldiff d 1 in
  sqrt_loop 65 n 0 (Z.shiftl 1 shift).
End helpers.

(** ** Greatest common divisors *)
Lemma gcd_2_odd b : Z.odd b = true -> Z.gcd 2 b = 1.
Proof.
  intros Hb. apply Zodd_bool_iff, Zodd_ex in Hb as [m ->]. rewrite <- (Z.gcd_sub_diag_r 2).
  replace (2 * m + 1 - 2) with (1 + (m - 1) * 2) by lia. by rewrite Z.gcd_add_mult_diag_r.
Qed.

Lemma gcd_even_odd a b : Z.odd b = true -> Z.gcd (2 * a) b = Z.gcd a b.
Proof.
  intros Hb. apply Z.gcd_unique; [apply Z.gcd_nonneg|apply Z.divide_mul_r, Z.gcd_divide_l|apply Z.gcd_divide_r|].
  intros d Ha Hdb. apply Z.gcd_greatest; [|done]. apply (Z.gauss _ 2); [done|]. rewrite Z.gcd_comm.
  apply Z.gcd_unique; [lia|apply Z.divide_1_l|apply Z.divide_1_l|]. intros e He1 He2. rewrite <- (gcd_2_odd b Hb).
  apply Z.gcd_greatest; [done|]. by transitivity d.
Qed.

Lemma even_half a : Z.odd a = false -> a = 2 * Z.shiftr a 1.
Proof. intros Ha. rewrite Z.shiftr_div_pow2 by lia. change (2 ^ 1) with 2. pose proof (Z.div_mod a 2). rewrite Zmod_odd, Ha in *. lia. Qed.

(** The product of the arguments halves, so that [fuel] calls are enough below [2 ^ fuel]. *)
Lemma gcd_rec_spec {E} fuel a b : 0 <= a < 2 ^ 128 -> 0 <= b < 2 ^ 128 -> a * b < 2 ^ Z.of_nat fuel -> @gcd_rec E (S fuel) a b = Ok (Z.gcd a b).
Proof.
  revert a b. induction fuel as [|fuel IH]; intros a b Ha Hb Hab.
  - simpl in Hab. cbn [gcd_rec]. destruct (Z.eqb_spec a b) as [->|]; [by rewrite Z.gcd_diag, Z.abs_eq by lia|].
    destruct (Z.eqb_spec a 0) as [->|]; [by rewrite Z.gcd_0_l_nonneg by lia|]. destruct (Z.eqb_spec b 0) as [->|]; [by rewrite Z.gcd_0_r_nonneg by lia|]. nia.
  - rewrite Nat2Z.inj_succ, Z.pow_succ_r in Hab by lia. remember (S fuel) as f. cbn [gcd_rec]. subst f.
    destruct (Z.eqb_spec a b) as [->|Hne]; [by rewrite Z.gcd_diag, Z.abs_eq by lia|].
    destruct (Z.eqb_spec a 0) as [->|Ha0]; [by rewrite Z.gcd_0_l_nonneg by lia|]. destruct (Z.eqb_spec b 0) as [->|Hb0]; [by rewrite Z.gcd_0_r_nonneg by lia|].
    destruct (Z.odd a) eqn:Hoa, (Z.odd b) eqn:Hob.
    + rewrite sub_u_ok by lia. cbn [mbind res_bind]. assert (Z.odd (Z.max a b - Z.min a b) = false) as Hod.
      { rewrite Z.odd_sub. destruct (Z.max_spec a b) as [[_ ->]|[_ ->]], (Z.min_spec a b) as [[_ ->]|[_ ->]]; by rewrite ?Hoa, ?Hob. }
      pose proof (even_half _ Hod) as He. rewrite IH by nia. f_equal. rewrite <- gcd_even_odd, <- He by (destruct (Z.min_spec a b) as [[_ ->]|[_ ->]]; done).
      destruct (Z.max_spec a b) as [[? ->]|[? ->]], (Z.min_spec a b) as [[? ->]|[? ->]]; try lia; rewrite Z.gcd_comm, Z.gcd_sub_diag_r; [done|apply Z.gcd_comm].
    + pose proof (even_half b Hob). rewrite IH by lia. f_equal. rewrite (Z.gcd_comm a b). rewrite (even_half b Hob) at 2. by rewrite gcd_even_odd.
    + pose proof (even_half a Hoa). rewrite IH by lia. f_equal. rewrite (even_half a Hoa) at 2. by rewrite gcd_even_odd.
    + pose proof (even_half a Hoa) as Hea. pose proof (even_half b Hob) as Heb. rewrite IH by nia. cbn [mbind res_bind].
      rewrite Z.shiftl_mul_pow2 by lia. change (2 ^ 1) with 2. replace (Z.gcd a b) with (2 * Z.gcd (Z.shiftr a 1) (Z.shiftr b 1)) by (rewrite <- Z.gcd_mul_mono_l_nonneg, <- Hea, <- Heb by lia; done).
      assert (Z.gcd (Z.shiftr a 1) (Z.shiftr b 1) <= Z.shiftr a 1) by (apply Z.divide_pos_le; [lia|apply Z.gcd_divide_l]).
      pose proof (Z.gcd_nonneg (Z.shiftr a 1) (Z.shiftr b 1)). unfold as_u128. rewrite Z.mod_small by lia. f_equal. lia.
Qed.

(** ** Products and quotients *)
Section double.
Import double128.

Definition dvalue (d : Double128) : Z := high d * 2 ^ 128 + low d.
Definition dwf (d : Double128) : Prop := 0 <= high d < 2 ^ 128 /\ 0 <= low d < 2 ^ 128.

Lemma as_u128_ok x : 0 <= x < 2 ^ 128 -> as_u128 x = x.
Proof. intros Hx. by apply Z.mod_small. Qed.

Lemma dadd_spec a b : dwf a -> dwf b -> dvalue a + dvalue b < 2 ^ 256 -> dwf (double128.add a b) /\ dvalue (double128.add a b) = dvalue a + dvalue b.
Proof.
  destruct a as [ah al], b as [bh bl]. unfold dwf, dvalue, double128.add. simpl. change (2 ^ 256) with (2 ^ 128 * 2 ^ 128). intros [Hah Hal] [Hbh Hbl] Hsum.
  rewrite (as_u128_ok (ah + bh)) by lia. destruct (Z.leb_spec (2 ^ 128) (al + bl)) as [Hc|Hc].
  - assert (as_u128 (al + bl) = al + bl - 2 ^ 128) as -> by (unfold as_u128; rewrite <- (Z.mod_small (al + bl - 2 ^ 128) (2 ^ 128)) by lia; rewrite <- (Z_mod_plus_full (al + bl - 2 ^ 128) 1); f_equal; lia).
    rewrite as_u128_ok by lia. lia.
  - rewrite !as_u128_ok by lia. lia.
Qed.

Lemma low_64_mod a : low_64 a = a mod 2 ^ 64.
Proof. unfold low_64. change (Z.shiftl 1 64 - 1) with (Z.ones 64). by rewrite Z.land_ones by lia. Qed.

Lemma left_shift_64_spec x : 0 <= x < 2 ^ 128 -> dwf (left_shift_64 x) /\ dvalue (left_shift_64 x) = x * 2 ^ 64.
Proof.
  intros Hx. unfold left_shift_64, dwf, dvalue, as_u128. simpl high. simpl low. rewrite Z.shiftr_div_pow2, Z.shiftl_mul_pow2 by lia.
  change (x * 2 ^ 64 mod 2 ^ 128) with (x * 2 ^ 64 mod (2 ^ 64 * 2 ^ 64)). rewrite Z.mul_mod_distr_r by lia.
  pose proof (Z.div_mod x (2 ^ 64) ltac:(lia)). pose proof (Z.mod_pos_bound x (2 ^ 64) ltac:(lia)). lia.
Qed.

Lemma product_of_spec {E} a b : 0 <= a < 2 ^ 128 -> 0 <= b < 2 ^ 128 -> exists p, @product_of E a b = Ok p /\ dwf p /\ dvalue p = a * b.
Proof.
  intros Ha Hb. unfold product_of. rewrite !low_64_mod. unfold high_64. rewrite !Z.shiftr_div_pow2 by lia.
  pose proof (Z.div_mod a (2 ^ 64) ltac:(lia)) as Hda. pose proof (Z.mod_pos_bound a (2 ^ 64) ltac:(lia)) as Hma.
  pose proof (Z.div_mod b (2 ^ 64) ltac:(lia)) as Hdb. pose proof (Z.mod_pos_bound b (2 ^ 64) ltac:(lia)) as Hmb.
  set (al := a mod 2 ^ 64) in *. set (ah := a / 2 ^ 64) in *. set (bl := b mod 2 ^ 64) in *. set (bh := b / 2 ^ 64) in *.
  assert (0 <= ah < 2 ^ 64 /\ 0 <= bh < 2 ^ 64) as [Hah Hbh] by lia. clearbody al ah bl bh.
  rewrite mul_u_ok by nia. cbn [mbind res_bind]. rewrite mul_u_ok by nia. cbn [mbind res_bind]. rewrite mul_u_ok by nia. cbn [mbind res_bind]. rewrite mul_u_ok by nia. cbn [mbind res_bind].
  destruct (left_shift_64_spec (ah * bl)) as [Hwi Hvi]; [nia|]. destruct (left_shift_64_spec (al * bh)) as [Hwo Hvo]; [nia|].
  destruct (dadd_spec {| high := ah * bh; low := al * bl |} (left_shift_64 (ah * bl))) as [Hw1 Hv1]; [split; simpl; nia|done|rewrite Hvi; unfold dvalue; simpl; nia|].
  destruct (dadd_spec (double128.add {| high := ah * bh; low := al * bl |} (left_shift_64 (ah * bl))) (left_shift_64 (al * bh))) as [Hw2 Hv2]; [done|done|rewrite Hv1, Hvi, Hvo; unfold dvalue; simpl; nia|].
  eexists. split; [done|]. split; [done|]. rewrite Hv2, Hv1, Hvi, Hvo. unfold dvalue. simpl high. simpl low. subst a b. lia.
Qed.

(** The rounds that [div_loop] needs: the high half about halves in each. *)
Definition enough (fuel : nat) (d : Double128) : Prop :=
  match fuel with
  | O => False
  | 1%nat => high d = 0
  | 2%nat => high d = 0 \/ high d = 1 /\ low d < 2 ^ 127
  | S (S (S k)) => high d <= 2 ^ Z.of_nat k
  end.

Lemma enough_step fuel r d d' : dwf d -> dwf d' -> 0 <= r < 2 ^ 127 -> high d <> 0 -> dvalue d' = high d * r + low d -> enough (S fuel) d -> enough fuel d'.
Proof.
  destruct d as [h l], d' as [h' l']. unfold dwf, dvalue, enough. cbn [high low]. intros [Hh Hl] [Hh' Hl'] Hr Hne Hv He.
  destruct fuel as [|[|[|k]]]; [done|..].
  - assert (h = 1) as -> by lia. lia.
  - change (2 ^ Z.of_nat 0) with 1 in He. assert (h = 1) as -> by lia. lia.
  - rewrite Nat2Z.inj_succ, Z.pow_succ_r in He by lia. assert (0 < 2 ^ Z.of_nat k) by (apply Z.pow_pos_nonneg; lia).
    assert (h * r <= 2 * 2 ^ Z.of_nat k * 2 ^ 127) by nia. nia.
Qed.

Lemma div_loop_spec {E} rhs q r T fuel x d :
  2 <= rhs < 2 ^ 128 -> 2 ^ 128 = q * rhs + r -> 0 <= q < 2 ^ 128 -> 0 <= r < 2 ^ 127 -> T < 2 ^ 256 ->
  dwf x -> dwf d -> rhs * dvalue x + dvalue d = T -> enough fuel d ->
  exists x' l, @div_loop E fuel q r x d = Ok (x', {| high := 0; low := l |}) /\ dwf x' /\ 0 <= l < 2 ^ 128 /\ rhs * dvalue x' + l = T.
Proof.
  intros Hrhs Hqr Hq Hr HT. revert x d. induction fuel as [|fuel IH]; intros x d Hx Hd Heq He; [done|]. cbn [div_loop].
  pose proof Hd as [Hh Hl]. pose proof Hx as [Hxh Hxl]. destruct (Z.eqb_spec (high d) 0) as [H0|H0].
  - exists x, (low d). destruct d as [h l]. cbn [high low] in *. subst h. change (dvalue {| high := 0; low := l |}) with (0 * 2 ^ 128 + l) in Heq. split_and!; [done|done|lia|lia|lia].
  - assert (0 <= dvalue x) by (unfold dvalue; lia). assert (0 <= high d * q * rhs <= high d * 2 ^ 128) by nia.
    destruct (product_of_spec (E := E) (high d) q Hh Hq) as (p & -> & Hp & Hvp). cbn [mbind res_bind].
    destruct (dadd_spec x p Hx Hp) as [Hx' Hvx']; [unfold dvalue at 2 in Heq; nia|].
    destruct (product_of_spec (E := E) (high d) r) as (p' & -> & Hp' & Hvp'); [done|lia|]. cbn [mbind res_bind].
    assert (dwf (low_part d)) as Hlp by (split; simpl; lia). assert (dvalue (low_part d) = low d) as Hvl by (unfold dvalue; simpl; lia).
    destruct (dadd_spec p' (low_part d) Hp' Hlp) as [Hd' Hvd']; [rewrite Hvp', Hvl; nia|].
    apply IH; [done|done| |eapply enough_step; [exact Hd|exact Hd'|exact Hr|done|lia|done]].
    rewrite Hvx', Hvp, Hvd', Hvp', Hvl. unfold dvalue at 2 in Heq. nia.
Qed.

Lemma ddiv_spec {E} d rhs : dwf d -> 0 < rhs < 2 ^ 128 ->
  exists x, @div E d rhs = Ok (x, dvalue d mod rhs) /\ dwf x /\ dvalue x = dvalue d / rhs.
Proof.
  intros Hd Hrhs. unfold div. destruct (Z.eqb_spec rhs 1) as [->|Hne]; [exists d; rewrite Z.mod_1_r, Z.div_1_r; done|].
  pose proof Hd as [Hh Hl]. pose proof (Z.div_mod (2 ^ 128) rhs ltac:(lia)) as Hdm. pose proof (Z.mod_pos_bound (2 ^ 128) rhs ltac:(lia)) as Hm.
  set (q := 2 ^ 128 / rhs) in *. set (r := 2 ^ 128 mod rhs) in *.
  assert (neg128 rhs = 2 ^ 128 - rhs) as Hneg by (unfold neg128; rewrite as_u128_ok by lia; lia).
  assert ((2 ^ 128 - rhs) / rhs = q - 1 /\ (2 ^ 128 - rhs) mod rhs = r) as [Hdiv Hmod].
  { split; [symmetry; apply (Z.div_unique _ _ _ r); lia|symmetry; apply (Z.mod_unique _ _ (q - 1)); lia]. }
  assert (0 < q <= 2 ^ 127) by nia. assert (r < 2 ^ 127) by (destruct (decide (2 <= q)); nia).
  unfold div128, mod128. rewrite Hneg, div_u_ok, rem_u_ok, Hdiv, Hmod by lia. cbn [mbind res_bind]. rewrite Z.sub_add, as_u128_ok by lia.
  destruct (div_loop_spec (E := E) rhs q r (dvalue d) 131 double128.zero d) as (x & l & -> & Hx & Hlb & Hv); try done; try lia; [unfold dvalue; lia|change (dvalue double128.zero) with 0; lia|change (high d <= 2 ^ 128); lia|].
  cbn [mbind res_bind]. simpl low. rewrite div_u_ok, rem_u_ok by lia. cbn [mbind res_bind].
  assert (0 <= l / rhs < 2 ^ 128) as Hlr by (split; [apply Z.div_pos; lia|apply Z.div_lt_upper_bound; nia]).
  pose proof (Z.div_mod l rhs ltac:(lia)) as Hl2. pose proof (Z.mod_pos_bound l rhs ltac:(lia)) as Hm2.
  assert (dwf (from_low (l / rhs)) /\ dvalue (from_low (l / rhs)) = l / rhs) as [Hwl Hvl] by (unfold dwf, dvalue; simpl; lia).
  assert (0 <= dvalue x) by (destruct Hx; unfold dvalue; lia).
  destruct (dadd_spec x (from_low (l / rhs)) Hx Hwl) as [Hw Hva]; [|].
  { rewrite Hvl. assert (dvalue d < 2 ^ 256) by (unfold dvalue; lia). assert (dvalue x <= rhs * dvalue x) by nia. assert (l / rhs <= l) by (apply Z.div_le_upper_bound; nia). lia. }
  eexists. split; [f_equal; f_equal|split; [done|]].
  - apply (Z.mod_unique _ _ (dvalue x + l / rhs)); lia.
  - rewrite Hva, Hvl. apply (Z.div_unique _ _ _ (l mod rhs)); lia.
Qed.
End double.

(** ** Rounding *)

(** The quotient of two numbers, rounded. *)
Definition rounded (r : Rounding) (n d : Z) : Z :=
  match r with
  | Up => (n + d - 1) / d
  | Down => n / d
  | NearestPrefUp => (2 * n + d) / (2 * d)
  | NearestPrefDown => (2 * n + d - 1) / (2 * d)
  end.

Lemma rounded_spec r n d : 0 < d -> rounded r n d = n / d + if rounds_up r (n mod d) d then 1 else 0.
Proof.
  intros Hd. pose proof (Z.div_mod n d ltac:(lia)) as Hn. pose proof (Z.mod_pos_bound n d Hd) as Hm.
  pose proof (Z.div_mod d 2 ltac:(lia)) as H2. pose proof (Z.mod_pos_bound d 2 ltac:(lia)) as Hm2. set (q := n / d) in *. set (m := n mod d) in *.
  destruct r; simpl.
  - destruct (Z.ltb_spec 0 m); symmetry; [apply (Z.div_unique _ _ _ (m - 1)); lia|apply (Z.div_unique _ _ _ (d - 1)); lia].
  - fold q. lia.
  - destruct (Z.leb_spec (d / 2 + d mod 2) m); symmetry; [apply (Z.div_unique _ _ _ (2 * m - d)); lia|apply (Z.div_unique _ _ _ (2 * m + d)); lia].
  - destruct (Z.ltb_spec (d / 2) m); symmetry; [apply (Z.div_unique _ _ _ (2 * m - d - 1)); lia|apply (Z.div_unique _ _ _ (2 * m + d - 1)); lia].
Qed.

Lemma multiply_spec {E} a b c r : 0 <= a < 2 ^ 128 -> 0 <= b < 2 ^ 128 -> 0 <= c < 2 ^ 128 ->
  @multiply_by_rational_with_rounding E a b c r =
    Ok (if c =? 0 then None else if rounded r (a * b) c <? 2 ^ 128 then Some (rounded r (a * b) c) else None).
Proof.
  intros Ha Hb Hc. unfold multiply_by_rational_with_rounding. destruct (Z.eqb_spec c 0); [done|].
  destruct (product_of_spec (E := E) a b Ha Hb) as (p & -> & Hp & Hvp). cbn [mbind res_bind].
  destruct (ddiv_spec (E := E) p c Hp ltac:(lia)) as (x & -> & Hx & Hvx). cbn [mbind res_bind]. rewrite Hvp in *. rewrite rounded_spec by lia.
  unfold double128.try_into_u128. unfold dvalue in Hvx. destruct Hx as [Hh Hl]. destruct (Z.eqb_spec (double128.high x) 0) as [H0|H0].
  - replace (double128.low x) with (a * b / c) in * by lia. destruct (rounds_up r _ c); [done|]. rewrite Z.add_0_r, (proj2 (Z.ltb_lt _ _)) by lia. done.
  - rewrite (proj2 (Z.ltb_ge _ _)); [done|]. destruct (rounds_up r _ c); lia.
Qed.

(** ** Square roots *)

(** The bit of the loop when [j] bits of the root are still open. *)
Definition root_bit (j : nat) : Z := match j with O => 0 | S i => 4 ^ Z.of_nat i end.

Lemma root_bit_shift i : Z.shiftr (4 ^ Z.of_nat i) 2 = root_bit i.
Proof.
  rewrite Z.shiftr_div_pow2 by lia. change (2 ^ 2) with 4. destruct i as [|i]; [done|].
  rewrite Nat2Z.inj_succ, Z.pow_succ_r, Z.mul_comm, Z.div_mul by lia. done.
Qed.

Lemma root_room N c j :
  0 <= N < 2 ^ 128 -> 0 <= c -> (j < 64)%nat ->
  let r := c * (2 * 2 ^ Z.of_nat j) in r * r <= N -> r + 2 * 2 ^ Z.of_nat j <= 2 ^ 64.
Proof.
  cbv zeta. intros HN Hc Hj Hr. set (P := 2 ^ Z.of_nat j) in *. assert (0 < P) by (apply Z.pow_pos_nonneg; lia).
  assert (2 ^ 64 = 2 ^ (63 - Z.of_nat j) * (2 * P)) as H64 by (unfold P; rewrite <- Z.pow_succ_r, <- Z.pow_add_r by lia; f_equal; lia).
  assert (c * (2 * P) < 2 ^ 64).
  { apply Z.nle_gt. intros Hle. assert (2 ^ 64 * 2 ^ 64 <= c * (2 * P) * (c * (2 * P))) by (apply Z.mul_le_mono_nonneg; lia). lia. }
  assert (c < 2 ^ (63 - Z.of_nat j)) by (apply (Zmult_lt_reg_r _ _ (2 * P)); lia).
  assert ((c + 1) * (2 * P) <= 2 ^ (63 - Z.of_nat j) * (2 * P)) by (apply Z.mul_le_mono_nonneg_r; lia). lia.
Qed.

Lemma sqrt_loop_spec {E} N j c fuel :
  let r := c * 2 ^ Z.of_nat j in
  0 <= N < 2 ^ 128 -> 0 <= c -> r * r <= N < (r + 2 ^ Z.of_nat j) * (r + 2 ^ Z.of_nat j) -> (j <= 64)%nat -> (j < fuel)%nat ->
  @sqrt_loop E fuel (N - r * r) (r * 2 ^ Z.of_nat j) (root_bit j) = Ok (Z.sqrt N).
Proof.
  cbv zeta. intros HN. revert c fuel. induction j as [|j IH]; intros c fuel Hc Hr Hj Hf; (destruct fuel as [|fuel]; [lia|]); cbn [sqrt_loop].
  - simpl in *. rewrite !Z.mul_1_r in *. f_equal. symmetry. apply Z.sqrt_unique. lia.
  - cbn [root_bit]. set (P := 2 ^ Z.of_nat j) in *. assert (0 < P) as HP by (apply Z.pow_pos_nonneg; lia).
    rewrite Nat2Z.inj_succ, Z.pow_succ_r in Hr |- * by lia. fold P in Hr |- *. assert (4 ^ Z.of_nat j = P * P) as H4 by (unfold P; rewrite <- Z.pow_mul_l; done).
    assert (0 < P * P) by (by apply Z.mul_pos_pos). rewrite (proj2 (Z.eqb_neq _ _)) by lia.
    set (r := c * (2 * P)) in *. assert (0 <= r) by (apply Z.mul_nonneg_nonneg; lia). pose proof (root_room N c j HN Hc ltac:(lia)) as Hb. fold P r in Hb. specialize (Hb (proj1 Hr)).
    assert ((r + P) * (r + P) < 2 ^ 64 * 2 ^ 64) by (apply Z.mul_lt_mono_nonneg; lia). change (2 ^ 64 * 2 ^ 64) with (2 ^ 128) in *.
    assert (0 <= r * r /\ 0 <= r * P) as [Hrr HrP] by (split; apply Z.mul_nonneg_nonneg; lia).
    assert (r * (2 * P) + P * P = (r + P) * (r + P) - r * r) as Hstep by ring.
    rewrite root_bit_shift, H4. rewrite (add_u_ok 128 (r * (2 * P))) by lia. cbn [mbind res_bind].
    assert (Z.shiftr (r * (2 * P)) 1 = r * P) as Hsh.
    { rewrite Z.shiftr_div_pow2 by lia. change (2 ^ 1) with 2. replace (r * (2 * P)) with (r * P * 2) by ring. by rewrite Z.div_mul. }
    rewrite Hsh, Hstep. destruct (Z.leb_spec ((r + P) * (r + P) - r * r) (N - r * r)).
    + rewrite sub_u_ok, add_u_ok by lia. cbn [mbind res_bind]. assert (r + P = (2 * c + 1) * P) as Hr' by (unfold r; ring).
      replace (N - r * r - ((r + P) * (r + P) - r * r)) with (N - (r + P) * (r + P)) by lia.
      replace (r * P + P * P) with ((r + P) * P) by ring. rewrite Hr'. apply IH; [lia| |lia|lia]. fold P. rewrite <- Hr'. replace (r + P + P) with (r + 2 * P) by ring. lia.
    + assert (r = 2 * c * P) as Hr' by (unfold r; ring). rewrite Hr'. apply IH; [lia| |lia|lia]. fold P. rewrite <- Hr'. lia.
Qed.

Lemma sqrt_spec {E} n : 0 <= n < 2 ^ 128 -> @sqrt E n = Ok (Z.sqrt n).
Proof.
  intros Hn. unfold sqrt. destruct (Z.eqb_spec n 0) as [->|Hne]; [done|]. change (leading_zeros_128 0) with 128. rewrite sub_u_ok by lia. cbn [mbind res_bind].
  unfold leading_zeros_128. rewrite (proj2 (Z.eqb_neq _ _)) by done. pose proof (Z.log2_nonneg n). assert (Z.log2 n < 128) by (apply Z.log2_lt_pow2; lia).
  rewrite sub_u_ok by lia. cbn [mbind res_bind]. replace (128 - 1 - (127 - Z.log2 n)) with (Z.log2 n) by lia.
  change (Z.ldiff (Z.log2 n) 1) with (Z.ldiff (Z.log2 n) (Z.ones 1)). rewrite Z.ldiff_ones_r, Z.shiftl_1_l, Z.shiftl_mul_pow2, Z.shiftr_div_pow2 by lia. change (2 ^ 1) with 2.
  set (k := Z.to_nat (Z.log2 n / 2)). assert (Z.of_nat k = Z.log2 n / 2) as Hk by (unfold k; rewrite Z2Nat.id; [done|]; apply Z.div_pos; lia).
  pose proof (Z.div_mod (Z.log2 n) 2 ltac:(lia)). pose proof (Z.mod_pos_bound (Z.log2 n) 2 ltac:(lia)). pose proof (Z.log2_spec n ltac:(lia)) as [Hlo Hhi].
  replace (2 ^ (Z.log2 n / 2 * 2)) with (root_bit (S k)) by (cbn [root_bit]; rewrite <- Hk, Z.mul_comm, Z.pow_mul_r by lia; done).
  pose proof (sqrt_loop_spec (E := E) n (S k) 0 65) as Hs. cbv zeta in Hs. rewrite !Z.mul_0_l, Z.sub_0_r, Z.add_0_l in Hs. apply Hs; [done|lia| |lia|lia].
  split; [lia|]. rewrite <- Z.pow_add_r by lia. eapply Z.lt_le_trans; [exact Hhi|]. apply Z.pow_le_mono_r; lia.
Qed.

(** ** Big integers from 128 bits *)
Lemma to_big_uint_spec x : 0 <= x < 2 ^ 128 -> wf (to_big_uint x) /\ value (to_big_uint x) = x.
Proof.
  intros Hx. unfold to_big_uint, split. rewrite Z.shiftr_div_pow2 by lia.
  pose proof (Z.div_mod x (2 ^ 64) ltac:(lia)). pose proof (Z.mod_pos_bound x (2 ^ 64) ltac:(lia)). assert (0 <= x / 2 ^ 64 < 2 ^ 64) by lia.
  rewrite (Z.mod_small (x / 2 ^ 64)) by done. set (xh := x / 2 ^ 64) in *. set (xl := x mod 2 ^ 64) in *. change (2 ^ 64) with (B * B) in *.
  destruct (split_spec xh) as (xhh & xhl & -> & Hhh & Hhl & Hh); [done|]. destruct (split_spec xl) as (xlh & xll & -> & Hlh & Hll & Hl); [done|].
  destruct (lstrip_spec {| digits := [xhh; xhl; xlh; xll] |}) as (Hw & Hv & _); [split; [done|by do 4 (constructor; [done|])]|].
  split; [done|]. unfold from_limbs. rewrite Hv. unfold value. simpl. lia.
Qed.

(** C32: The binary algorithms compute what they stand for: [gcd] returns the greatest common
    divisor and [sqrt] the integer square root of every 128-bit number, within the fuel
    of the model and without overflow. *)
Theorem gcd_sqrt_exact {E} a b :
  0 <= a < 2 ^ 128 -> 0 <= b < 2 ^ 128 -> @gcd E a b = Ok (Z.gcd a b) /\ @sqrt E a = Ok (Z.sqrt a).
Proof.
  intros Ha Hb. split; [|by apply sqrt_spec]. apply (gcd_rec_spec 256); [done..|].
  change (2 ^ Z.of_nat 256) with (2 ^ 128 * 2 ^ 128). apply Z.mul_lt_mono_nonneg; lia.
Qed.

Lemma gcd_sqrt_exact_witness : @gcd unit 1071 462 = Ok 21 /\ @sqrt unit 1071 = Ok 32.
Proof. destruct (gcd_sqrt_exact (E := unit) 1071 462) as [-> ->]; [lia..|]. by vm_compute. Defined.
