(* ===== verification/Rational.v ===== *)
(** * Rational numbers

    [substrate/primitives/arithmetic/src/rational.rs]: fractions of 128-bit numbers and
    of big integers, their order, and the multiplication by a fraction for each width of
    integer. *)
From stdpp Require Import base list.
From Stdlib Require Import ZArith Lia.
From S2P Require Import Prelude BigUint BigUintFacts Helpers128.
Set Warnings "-clear-no-such-hyp".
Open Scope Z_scope.

(** [MultiplyRational] for the types of [w] bits: up to 64 bits the macro computes in the
    type of twice the width, 128 bits are in [helpers_128bit]. *)
Definition multiply_rational_upper {E} (w self n d : Z) (r : Rounding) : res E (option Z) :=
  if d =? 0 then Ok None else
  sn ← mul_u (2 * w) self n;
  result ← div_u sn d;
  m ← rem_u sn d;
  let remainder := m mod 2 ^ w in
  match (if rounds_up r remainder d then checked_add (2 * w) result 1 else Some result) with
  | None => Ok None
  | Some result => Ok (if 2 ^ w - 1 <? result then None else Some (result mod 2 ^ w))
  end.

Definition multiply_rational {E} (w self n d : Z) (r : Rounding) : res E (option Z) :=
  if w =? 128 then multiply_by_rational_with_rounding self n d r else multiply_rational_upper w self n d r.

(** ** Fractions of big integers *)
Module Infinite.
Record RationalInfinite := { n : BigUint; d : BigUint }.

(** [d.max(BigUint::one())]: [max] of [Ord] takes the second of two equal numbers. *)
Definition from (num den : BigUint) : RationalInfinite :=
  {| n := num; d := match BigUint.cmp den one with Gt => den | _ => one end |}.

Definition cmp {E} (self other : RationalInfinite) : res E comparison :=
  match BigUint.cmp (d self) (d other) with
  | Eq => Ok (BigUint.cmp (n self) (n other))
  | _ =>
      if is_zero (d self) then Ok Gt
      else if is_zero (d other) then Ok Lt
      else l ← mul (n self) (d other);
           r ← mul (n other) (d self);
           Ok (BigUint.cmp l r)
  end.
End Infinite.

(** ** Fractions of 128-bit numbers *)
Record Rational128 := { rn : Z; rd : Z }.

Inductive RationalError := FailedToScale | OverflowAdding | OverflowSubtracting.

Definition rational_zero : Rational128 := {| rn := 0; rd := 1 |}.
Definition rational_one : Rational128 := {| rn := 1; rd := 1 |}.
Definition rational_from (n d : Z) : Rational128 := {| rn := n; rd := Z.max d 1 |}.
Definition from_unchecked (n d : Z) : Rational128 := {| rn := n; rd := d |}.
Definition rational_is_zero (self : Rational128) : bool := rn self =? 0.

Definition lazy_saturating_add (self other : Rational128) : Rational128 :=
  if rational_is_zero other then self else {| rn := saturating_add 128 (rn self) (rn other); rd := rd self |}.
Definition lazy_saturating_sub (self other : Rational128) : Rational128 :=
  if rational_is_zero other then self else {| rn := saturating_sub (rn self) (rn other); rd := rd self |}.

Section rational.
Context {E : Type}.

Definition to_den (self : Rational128) (den : Z) : res E (option Rational128) :=
  if den =? rd self then Ok (Some self)
  else n ← multiply_by_rational_with_rounding (rn self) den (rd self) NearestPrefDown;
       Ok (option_map (fun n => {| rn := n; rd := den |}) n).

Definition lcm (self other : Rational128) : res E (option Z) :=
  if rd self =? rd other then Ok (Some (rd self))
  else g ← gcd (rd self) (rd other);
       multiply_by_rational_with_rounding (rd self) (rd other) g NearestPrefDown.

Definition rational_cmp (self other : Rational128) : res E comparison :=
  if rd self =? rd other then Ok (rn self ?= rn other)
  else if rd self =? 0 then Ok Gt
  else if rd other =? 0 then Ok Lt
  else self_n ← mul (to_big_uint (rn self)) (to_big_uint (rd other));
       other_n ← mul (to_big_uint (rn other)) (to_big_uint (rd self));
       Ok (BigUint.cmp self_n other_n).

Definition rational_eq (self other : Rational128) : res E bool :=
  if rd self =? rd other then Ok (rn self =? rn other)
  else self_n ← mul (to_big_uint (rn self)) (to_big_uint (rd other));
       other_n ← mul (to_big_uint (rn other)) (to_big_uint (rd self));
       Ok (match BigUint.cmp self_n other_n with Eq => true | _ => false end).
End rational.

(** Both operands with the denominator [lcm]. *)
Definition unified (self other : Rational128) : res RationalError (Rational128 * Rational128) :=
  l ← lcm self other;
  l ← ok_or FailedToScale l;
  self_scaled ← to_den self l;
  self_scaled ← ok_or FailedToScale self_scaled;
  other_scaled ← to_den other l;
  other_scaled ← ok_or FailedToScale other_scaled;
  Ok (self_scaled, other_scaled).

Definition rational_checked_add (self other : Rational128) : res RationalError Rational128 :=
  '(self_scaled, other_scaled) ← unified self other;
  n ← ok_or OverflowAdding (checked_add 128 (rn self_scaled) (rn other_scaled));
  Ok {| rn := n; rd := rd self_scaled |}.

Definition rational_checked_sub (self other : Rational128) : res RationalError Rational128 :=
  '(self_scaled, other_scaled) ← unified self other;
  n ← ok_or OverflowSubtracting (checked_sub (rn self_scaled) (rn other_scaled));
  Ok {| rn := n; rd := rd self_scaled |}.

(** ** Multiplication by a fraction *)
Lemma multiply_rational_spec {E} w self n d r :
  w = 8 \/ w = 16 \/ w = 32 \/ w = 64 \/ w = 128 -> 0 <= self < 2 ^ w -> 0 <= n < 2 ^ w -> 0 <= d < 2 ^ w ->
  @multiply_rational E w self n d r =
    Ok (if d =? 0 then None else if rounded r (self * n) d <? 2 ^ w then Some (rounded r (self * n) d) else None).
Proof.
  intros Hw Hs Hn Hd. unfold multiply_rational. destruct (Z.eqb_spec w 128) as [->|Hne]; [by apply multiply_spec|].
  unfold multiply_rational_upper. destruct (Z.eqb_spec d 0) as [|Hd0]; [done|].
  assert (0 < 2 ^ w) by (apply Z.pow_pos_nonneg; lia). assert (2 ^ (2 * w) = 2 ^ w * 2 ^ w) as Hw2 by (rewrite <- Z.pow_add_r by lia; f_equal; lia).
  assert (self * n <= (2 ^ w - 1) * (2 ^ w - 1)) as Hprod by (apply Z.mul_le_mono_nonneg; lia). assert (0 <= self * n) by (apply Z.mul_nonneg_nonneg; lia).
  rewrite mul_u_ok by nia. cbn [mbind res_bind]. rewrite div_u_ok by done. cbn [mbind res_bind]. rewrite rem_u_ok by done. cbn [mbind res_bind].
  pose proof (Z.mod_pos_bound (self * n) d ltac:(lia)) as Hm. rewrite (Z.mod_small (self * n mod d)) by lia. rewrite rounded_spec by lia.
  assert (0 <= self * n / d) by (apply Z.div_pos; lia). assert (self * n / d <= self * n) by (apply Z.div_le_upper_bound; nia).
  destruct (rounds_up r (self * n mod d) d).
  - unfold checked_add. rewrite (proj2 (Z.ltb_lt _ _)) by nia.
    destruct (Z.ltb_spec (2 ^ w - 1) (self * n / d + 1)), (Z.ltb_spec (self * n / d + 1) (2 ^ w)); try lia; [done|]. by rewrite Z.mod_small by lia.
  - rewrite Z.add_0_r. destruct (Z.ltb_spec (2 ^ w - 1) (self * n / d)), (Z.ltb_spec (self * n / d) (2 ^ w)); try lia; [done|]. by rewrite Z.mod_small by lia.
Qed.

(** ** The order of fractions *)
Definition in_range (a : Rational128) : Prop := 0 <= rn a < 2 ^ 128 /\ 0 <= rd a < 2 ^ 128.

Lemma cross_spec {E} a b : 0 <= a < 2 ^ 128 -> 0 <= b < 2 ^ 128 -> exists w, @mul E (to_big_uint a) (to_big_uint b) = Ok w /\ wf w /\ value w = a * b.
Proof.
  intros Ha Hb. destruct (to_big_uint_spec a Ha) as [Hwa Hva], (to_big_uint_spec b Hb) as [Hwb Hvb].
  destruct (limbs_mul_spec (E := E) _ _ Hwa Hwb) as (w & Hm & Hw & _ & Hv). exists w. rewrite Hva, Hvb in Hv. done.
Qed.

(** ** Sums of fractions *)
Lemma rounded_exact r k d : 0 < d -> rounded r (k * d) d = k.
Proof.
  intros Hd. rewrite rounded_spec, Z.mod_mul, Z.div_mul by lia. pose proof (Z.div_mod d 2 ltac:(lia)). pose proof (Z.mod_pos_bound d 2 ltac:(lia)).
  destruct r; simpl; [lia|lia|rewrite (proj2 (Z.leb_gt _ _)); lia|rewrite (proj2 (Z.ltb_ge _ _)); lia].
Qed.

Definition fits (x : Z) : option Z := if x <? 2 ^ 128 then Some x else None.

Lemma lcm_exact {E} a b : in_range a -> in_range b -> 0 < rd a -> 0 < rd b -> @lcm E a b = Ok (fits (Z.lcm (rd a) (rd b))).
Proof.
  intros [_ Hda] [_ Hdb] Ha Hb. unfold lcm, fits. destruct (Z.eqb_spec (rd a) (rd b)) as [->|Hne].
  - rewrite Z.lcm_diag, Z.abs_eq, (proj2 (Z.ltb_lt _ _)) by lia. done.
  - pose proof (gcd_rec_spec (E := E) 256 (rd a) (rd b) Hda Hdb) as Hg. unfold gcd. rewrite Hg by (change (2 ^ Z.of_nat 256) with (2 ^ 128 * 2 ^ 128); apply Z.mul_lt_mono_nonneg; lia).
    cbn [mbind res_bind]. set (g := Z.gcd (rd a) (rd b)). assert (0 <= g) by apply Z.gcd_nonneg.
    assert (g <> 0) by (unfold g; rewrite Z.gcd_eq_0; lia). assert (g <= rd a) by (apply Z.divide_pos_le; [lia|apply Z.gcd_divide_l]).
    rewrite multiply_spec, (proj2 (Z.eqb_neq _ _)) by lia. assert (rd a * rd b = Z.lcm (rd a) (rd b) * g) as ->; [|by rewrite rounded_exact by lia].
    unfold Z.lcm. fold g. destruct (Z.gcd_divide_r (rd a) (rd b)) as [k Hk]. fold g in Hk. rewrite Hk at 1 2. rewrite Z.div_mul by lia. rewrite Z.abs_eq by nia. ring.
Qed.

Lemma to_den_exact {E} a k : in_range a -> 0 < rd a -> 0 <= k * rd a < 2 ^ 128 ->
  @to_den E a (k * rd a) = Ok (option_map (fun n => {| rn := n; rd := k * rd a |}) (fits (rn a * k))).
Proof.
  intros [Hna Hda] Ha Hk. unfold to_den, fits. destruct (Z.eqb_spec (k * rd a) (rd a)) as [Heq|Hne].
  - assert (k = 1) as -> by nia. rewrite Z.mul_1_r, Z.mul_1_l, (proj2 (Z.ltb_lt _ _)) by lia. by destruct a.
  - rewrite multiply_spec, (proj2 (Z.eqb_neq _ _)) by lia. cbn [mbind res_bind]. by rewrite Z.mul_assoc, rounded_exact by lia.
Qed.

(** The two numerators over the least common denominator, when everything fits. *)
Lemma unified_spec a b : in_range a -> in_range b -> 0 < rd a -> 0 < rd b ->
  let l := Z.lcm (rd a) (rd b) in
  unified a b = match fits l, fits (rn a * (l / rd a)), fits (rn b * (l / rd b)) with
                | Some _, Some x, Some y => Ok ({| rn := x; rd := l |}, {| rn := y; rd := l |})
                | _, _, _ => Err FailedToScale
                end.
Proof.
  intros Ra Rb Ha Hb l. unfold unified. rewrite lcm_exact by done. fold l. cbn [mbind res_bind].
  destruct (Z.divide_lcm_l (rd a) (rd b)) as [ka Hka], (Z.divide_lcm_r (rd a) (rd b)) as [kb Hkb]. fold l in Hka, Hkb.
  assert (0 <= l) by apply Z.lcm_nonneg. replace (l / rd a) with ka by (rewrite Hka, Z.div_mul by lia; done). replace (l / rd b) with kb by (rewrite Hkb, Z.div_mul by lia; done).
  destruct (fits l) as [l'|] eqn:Hl; [|done]. unfold fits in Hl. destruct (Z.ltb_spec l (2 ^ 128)); [|done]. injection Hl as <-. cbn [ok_or mbind res_bind].
  rewrite Hka at 1. rewrite to_den_exact by (done || lia). rewrite <- Hka. cbn [mbind res_bind]. destruct (fits (rn a * ka)) as [x|]; [|done]. cbn [option_map ok_or mbind res_bind].
  rewrite Hkb at 1. rewrite to_den_exact by (done || lia). rewrite <- Hkb. cbn [mbind res_bind]. by destruct (fits (rn b * kb)) as [y|].
Qed.

(** C15: Rounded multiplication by a fraction.  For each width of integer, [self * n / d] is
    rounded as asked, with the exact product as intermediate result, and the answer is
    [None] exactly when [d] is zero or the rounded result does not fit. *)
Theorem multiply_rational_rounds {E} w self n d r :
  w = 8 \/ w = 16 \/ w = 32 \/ w = 64 \/ w = 128 -> 0 <= self < 2 ^ w -> 0 <= n < 2 ^ w -> 0 <= d < 2 ^ w ->
  match @multiply_rational E w self n d r with
  | Ok None => d = 0 \/ 2 ^ w <= rounded r (self * n) d
  | Ok (Some x) => d <> 0 /\ x < 2 ^ w /\
      match r with
      | Down => x * d <= self * n < (x + 1) * d
      | Up => (x - 1) * d < self * n <= x * d
      | NearestPrefUp => (2 * x - 1) * d <= 2 * (self * n) < (2 * x + 1) * d
      | NearestPrefDown => (2 * x - 1) * d < 2 * (self * n) <= (2 * x + 1) * d
      end
  | _ => False
  end.
Proof.
  intros Hw Hs Hn Hd. rewrite multiply_rational_spec by done. destruct (Z.eqb_spec d 0); [by left|]. destruct (Z.ltb_spec (rounded r (self * n) d) (2 ^ w)); [|by right].
  split; [done|]. split; [done|]. set (p := self * n). assert (forall a b, 0 < b -> a / b * b <= a < (a / b + 1) * b) as Hdiv.
  { intros a b Hb. pose proof (Z.div_mod a b ltac:(lia)). pose proof (Z.mod_pos_bound a b Hb). lia. }
  destruct r; simpl; [specialize (Hdiv (p + d - 1) d)|specialize (Hdiv p d)|specialize (Hdiv (2 * p + d) (2 * d))|specialize (Hdiv (2 * p + d - 1) (2 * d))]; lia.
Qed.

Lemma is_zero_spec self : wf self -> is_zero self = (value self =? 0).
Proof.
  destruct self as [l]. intros [_ Hl]. unfold is_zero. simpl in *. induction Hl as [|d l Hd Hl IH]; [done|]. simpl. rewrite IH, value_cons.
  pose proof (value_list_bound l Hl). pose proof (Bpow_pos (length l)). destruct (Z.eqb_spec d 0) as [->|]; simpl; [by rewrite Z.add_0_l|]. symmetry. apply Z.eqb_neq. nia.
Qed.

Lemma infinite_cmp_spec {E} a b :
  wf (Infinite.n a) -> wf (Infinite.d a) -> wf (Infinite.n b) -> wf (Infinite.d b) -> 0 < value (Infinite.d a) -> 0 < value (Infinite.d b) ->
  @Infinite.cmp E a b = Ok (value (Infinite.n a) * value (Infinite.d b) ?= value (Infinite.n b) * value (Infinite.d a)).
Proof.
  intros Hna Hda Hnb Hdb Ha Hb. unfold Infinite.cmp. rewrite (cmp_spec (Infinite.d a)), !is_zero_spec by done. rewrite !(proj2 (Z.eqb_neq _ 0)) by lia.
  destruct (limbs_mul_spec (E := E) (Infinite.n a) (Infinite.d b) Hna Hdb) as (l & -> & Hl & _ & Hvl). destruct (limbs_mul_spec (E := E) (Infinite.n b) (Infinite.d a) Hnb Hda) as (r & -> & Hr & _ & Hvr).
  cbn [mbind res_bind]. rewrite !cmp_spec, Hvl, Hvr by done. destruct (Z.compare_spec (value (Infinite.d a)) (value (Infinite.d b))) as [->| |]; [|done..].
  by rewrite <- Zmult_compare_compat_r by lia.
Qed.

(** Fractions are compared as rational numbers: for denominators other than zero,
    [cmp] and [eq] compare the cross products, which have up to 256 bits.  The conversion
    to fractions of big integers keeps the order. *)
Theorem rational_order {E} a b :
  in_range a -> in_range b -> 0 < rd a -> 0 < rd b ->
  let big x := {| Infinite.n := to_big_uint (rn x); Infinite.d := to_big_uint (rd x) |} in
  @rational_cmp E a b = Ok (rn a * rd b ?= rn b * rd a) /\ @rational_eq E a b = Ok (rn a * rd b =? rn b * rd a) /\
  @Infinite.cmp E (big a) (big b) = Ok (rn a * rd b ?= rn b * rd a).
Proof.
  intros [Hna Hda] [Hnb Hdb] Ha Hb big. unfold rational_cmp, rational_eq.
  destruct (to_big_uint_spec _ Hna) as [Hw1 Hv1], (to_big_uint_spec _ Hda) as [Hw2 Hv2], (to_big_uint_spec _ Hnb) as [Hw3 Hv3], (to_big_uint_spec _ Hdb) as [Hw4 Hv4].
  match goal with |- ?A /\ ?B /\ ?C => cut ((A /\ B) /\ C); [tauto|] end. split; [|rewrite infinite_cmp_spec; unfold big; cbn [Infinite.n Infinite.d]; rewrite ?Hv1, ?Hv2, ?Hv3, ?Hv4; assumption || reflexivity].
  destruct (Z.eqb_spec (rd a) (rd b)) as [->|Hne].
  - split; [by rewrite <- Zmult_compare_compat_r by lia|]. f_equal. destruct (Z.eqb_spec (rn a) (rn b)), (Z.eqb_spec (rn a * rd b) (rn b * rd b)); try done; nia.
  - rewrite !(proj2 (Z.eqb_neq _ 0)) by lia.
    destruct (cross_spec (E := E) (rn a) (rd b)) as (w1 & -> & Hx1 & Hy1); [done..|]. destruct (cross_spec (E := E) (rn b) (rd a)) as (w2 & -> & Hx2 & Hy2); [done..|].
    cbn [mbind res_bind]. rewrite cmp_spec, Hy1, Hy2 by done. split; [done|]. by rewrite Z.eqb_compare.
Qed.

(** [checked_add] and [checked_sub] are exact.  A result has the least common
    denominator and is the sum or the difference of the fractions; there is none only if
    the denominator, a scaled numerator or the sum exceeds 128 bits, or the difference is
    negative. *)
Theorem rational_sum_exact a b :
  in_range a -> in_range b -> 0 < rd a -> 0 < rd b ->
  let l := Z.lcm (rd a) (rd b) in
  let x := rn a * (l / rd a) in let y := rn b * (l / rd b) in
  match rational_checked_add a b with
  | Ok c => rd c = l /\ rn c * rd a * rd b = (rn a * rd b + rn b * rd a) * rd c
  | Err OverflowAdding => 2 ^ 128 <= x + y
  | Err FailedToScale => 2 ^ 128 <= l \/ 2 ^ 128 <= x \/ 2 ^ 128 <= y
  | _ => False
  end /\
  match rational_checked_sub a b with
  | Ok c => rd c = l /\ rn c * rd a * rd b = (rn a * rd b - rn b * rd a) * rd c
  | Err OverflowSubtracting => x < y
  | Err FailedToScale => 2 ^ 128 <= l \/ 2 ^ 128 <= x \/ 2 ^ 128 <= y
  | _ => False
  end.
Proof.
  intros Ra Rb Ha Hb l x y. unfold rational_checked_add, rational_checked_sub. rewrite unified_spec by done. fold l x y. unfold fits.
  destruct (Z.divide_lcm_l (rd a) (rd b)) as [ka Hka], (Z.divide_lcm_r (rd a) (rd b)) as [kb Hkb]. fold l in Hka, Hkb.
  assert (x = rn a * ka) as Hx by (unfold x; rewrite Hka, Z.div_mul by lia; done). assert (y = rn b * kb) as Hy by (unfold y; rewrite Hkb, Z.div_mul by lia; done).
  destruct (Z.ltb_spec l (2 ^ 128)); [|cbn; lia]. destruct (Z.ltb_spec x (2 ^ 128)); [|cbn; lia]. destruct (Z.ltb_spec y (2 ^ 128)); [|cbn; lia].
  assert (x * rd a = rn a * l) as Hxl by (rewrite Hx, Hka; ring). assert (y * rd b = rn b * l) as Hyl by (rewrite Hy, Hkb; ring).
  cbn [mbind res_bind rn rd]. unfold checked_add, checked_sub. split.
  - destruct (Z.ltb_spec (x + y) (2 ^ 128)); cbn; [|done]. split; [done|]. transitivity (x * rd a * rd b + y * rd b * rd a); [ring|]. rewrite Hxl, Hyl. ring.
  - destruct (Z.leb_spec y x); cbn; [|done]. split; [done|]. transitivity (x * rd a * rd b - y * rd b * rd a); [ring|]. rewrite Hxl, Hyl. ring.
Qed.

Module RationalExamples.
Definition third : Rational128 := {| rn := 1; rd := 3 |}.
Definition sixth : Rational128 := {| rn := 1; rd := 6 |}.

Lemma multiply_rational_rounds_witness : exists x, @multiply_rational unit 64 (2 ^ 64 - 1) 2 3 NearestPrefUp = Ok (Some x) /\ (2 * x - 1) * 3 <= 2 * ((2 ^ 64 - 1) * 2).
Proof.
  pose proof (multiply_rational_rounds (E := unit) 64 (2 ^ 64 - 1) 2 3 NearestPrefUp) as H. specialize (H ltac:(lia) ltac:(lia) ltac:(lia) ltac:(lia)).
  destruct (multiply_rational 64 (2 ^ 64 - 1) 2 3 NearestPrefUp) as [[x|]| |] eqn:Hx; [|by vm_compute in Hx..]. exists x. split; [done|]. destruct H as (_ & _ & H & _). exact H.
Defined.

Lemma rational_order_witness : @rational_cmp unit third sixth = Ok Gt.
Proof. destruct (rational_order (E := unit) third sixth) as [-> _]; [split; simpl; lia..|done|done|done]. Defined.

Lemma rational_sum_exact_witness : exists c, rational_checked_add third sixth = Ok c /\ rn c * 3 * 6 = (1 * 6 + 1 * 3) * rd c.
Proof.
  pose proof (rational_sum_exact third sixth) as H. destruct H as [H _]; [split; simpl; lia..|done|done|].
  destruct (rational_checked_add third sixth) as [c| |] eqn:Hc; [|by vm_compute in Hc..]. exists c. split; [done|]. apply H.
Defined.

(** [to_den] rounds: a third is not three tenths. *)
Example to_den_is_not_exact : @to_den unit third 10 = Ok (Some {| rn := 3; rd := 10 |}).
Proof. by vm_compute. Qed.

(** With a denominator of zero, [eq] and [cmp] disagree. *)
Example zero_denominator_disagrees :
  let x := from_unchecked 0 0 in @rational_eq unit x third = Ok true /\ @rational_cmp unit x third = Ok Gt.
Proof. split; by vm_compute. Qed.
End RationalExamples.
