(* ===== verification/PerThing.v ===== *)
(** * Fractions of one

    [substrate/primitives/arithmetic/src/per_things.rs]: the types [Percent], [PerU16],
    [Permill], [Perbill] and [Perquintill], which hold a number of parts of a fixed whole,
    and their multiplication with integers.  The macro that implements the types is
    parametric: [PerThing] holds its arguments. *)
From stdpp Require Import base list.
From Stdlib Require Import ZArith Lia.
From S2P Require Import Prelude Helpers128 Rational.
Set Warnings "-clear-no-such-hyp".
Open Scope Z_scope.

(** The whole, and the widths of the types [Inner] and [Upper]. *)
Record PerThing := { ACCURACY : Z; inner : Z; upper : Z }.

Definition Percent : PerThing := {| ACCURACY := 100; inner := 8; upper := 16 |}.
Definition PerU16 : PerThing := {| ACCURACY := 65535; inner := 16; upper := 32 |}.
Definition Permill : PerThing := {| ACCURACY := 1000000; inner := 32; upper := 64 |}.
Definition Perbill : PerThing := {| ACCURACY := 1000000000; inner := 32; upper := 64 |}.
Definition Perquintill : PerThing := {| ACCURACY := 1000000000000000000; inner := 64; upper := 128 |}.

Inductive SignedRounding :=
| High | Low | NearestPrefHigh | NearestPrefLow | Major | Minor | NearestPrefMajor | NearestPrefMinor.

Definition from_signed (rounding : SignedRounding) (negative : bool) : Rounding :=
  match rounding, negative with
  | Low, true | Major, _ | High, false => Up
  | High, true | Minor, _ | Low, false => Down
  | NearestPrefMajor, _ | NearestPrefHigh, false | NearestPrefLow, true => NearestPrefUp
  | NearestPrefMinor, _ | NearestPrefLow, false | NearestPrefHigh, true => NearestPrefDown
  end.

(** A conversion that saturates at the type of [w] bits. *)
Definition saturated_into (w x : Z) : Z := Z.min x (2 ^ w - 1).

Section per_thing.
Context (P : PerThing) {E : Type}.

Definition from_parts (parts : Z) : Z := Z.min parts (ACCURACY P).
Definition zero : Z := from_parts 0.
Definition one : Z := from_parts (ACCURACY P).
Definition is_zero (self : Z) : bool := self =? 0.
Definition is_one (self : Z) : bool := self =? ACCURACY P.

Definition less_epsilon (self : Z) : res E Z :=
  if is_zero self then Ok self else p ← sub_u self 1; Ok (from_parts p).
Definition plus_epsilon (self : Z) : res E Z :=
  if is_one self then Ok self else p ← add_u (inner P) self 1; Ok (from_parts p).
Definition try_less_epsilon (self : Z) : res Z Z :=
  if is_zero self then Err self else p ← sub_u self 1; Ok (from_parts p).
Definition try_plus_epsilon (self : Z) : res Z Z :=
  if is_one self then Err self else p ← add_u (inner P) self 1; Ok (from_parts p).

(** ** Multiplication with an integer of [wn] bits *)

(** What the integer division of [x / denom * numer] leaves out. *)
Definition rational_mul_correction (x numer denom : Z) (rounding : Rounding) : res E Z :=
  rem ← rem_u x denom;
  let rem_inner := saturated_into (inner P) rem in
  rem_mul_upper ← mul_u (upper P) rem_inner numer;
  q ← div_u rem_mul_upper denom;
  let rem_mul_div_inner := saturated_into (inner P) q in
  m ← rem_u rem_mul_upper denom;
  match rounding with
  | Down => Ok rem_mul_div_inner
  | Up => if 0 <? m then add_u (inner P) rem_mul_div_inner 1 else Ok rem_mul_div_inner
  | NearestPrefDown => if denom / 2 <? m then add_u (inner P) rem_mul_div_inner 1 else Ok rem_mul_div_inner
  | NearestPrefUp =>
      half ← add_u (upper P) (denom / 2) (denom mod 2);
      if half <=? m then add_u (inner P) rem_mul_div_inner 1 else Ok rem_mul_div_inner
  end.

Definition overflow_prune_mul (wn x part : Z) (rounding : Rounding) : res E Z :=
  let maximum := ACCURACY P in
  c ← rational_mul_correction x part (ACCURACY P) rounding;
  d ← div_u x maximum;
  t ← mul_u wn d part;
  add_u wn t c.

Definition saturating_reciprocal_mul (wn x part : Z) (rounding : Rounding) : res E Z :=
  let maximum := ACCURACY P in
  c ← rational_mul_correction x (ACCURACY P) part rounding;
  d ← div_u x part;
  Ok (saturating_add wn (saturating_mul wn d maximum) c).

Definition mul_floor (wn self b : Z) : res E Z := overflow_prune_mul wn b self Down.
Definition mul_ceil (wn self b : Z) : res E Z := overflow_prune_mul wn b self Up.
(** [impl Mul<N>] *)
Definition mul_n (wn self b : Z) : res E Z := overflow_prune_mul wn b self NearestPrefDown.

(** [impl Div<N>] *)
Definition div_n (self b : Z) : res E Z :=
  if b <? 2 ^ inner P then d ← div_u self b; Ok (from_parts d) else Ok zero.

(** ** Fractions of integers *)

(** [Err(())] of the source is [None]. *)
Definition from_rational_with_rounding (wn p q : Z) (r : Rounding) : res E (option Z) :=
  if q =? 0 then Ok None else
  if q <? p then Ok None else
  x ← multiply_rational wn (ACCURACY P) p q r;
  Ok (match x with
      | Some x => if x <? 2 ^ inner P then Some x else None
      | None => None
      end).

Definition from_rational (wn p q : Z) : res E Z :=
  x ← from_rational_with_rounding wn p q Down; Ok (default one x).

Definition from_percent (x : Z) : res E Z :=
  let a := Z.min x 100 in
  from_rational (inner P) a 100.

(** The constructors that are compile-time constants. *)
Definition from_percent_const (x : Z) : res E Z :=
  t ← mul_u (upper P) (if 100 <? x then 100 else x) (ACCURACY P);
  Ok (t / 100 mod 2 ^ inner P).
Definition from_perthousand (x : Z) : res E Z :=
  t ← mul_u (upper P) (if 1000 <? x then 1000 else x) (ACCURACY P);
  Ok (t / 1000 mod 2 ^ inner P).

(** ** Arithmetic on fractions *)
Definition square (self : Z) : res E Z :=
  pp ← mul_u (upper P) self self;
  qq ← mul_u (upper P) (ACCURACY P) (ACCURACY P);
  from_rational (upper P) pp qq.

Definition mul (self rhs : Z) : res E Z :=
  t ← mul_u (upper P) self rhs;
  parts ← div_u t (ACCURACY P);
  Ok (from_parts (parts mod 2 ^ inner P)).

Definition div (self rhs : Z) : res E Z := from_rational (inner P) self rhs.

Definition saturating_div (self rhs : Z) (r : Rounding) : res E Z :=
  x ← from_rational_with_rounding (inner P) self rhs r; Ok (default one x).

Definition int_mul (self b : Z) : Z := from_parts (saturating_mul (inner P) self b).
Definition int_div (self b : Z) : res E Z := div_u self b.

Definition p_saturating_add (self rhs : Z) : Z := from_parts (saturating_add (inner P) self rhs).
Definition p_saturating_sub (self rhs : Z) : Z := from_parts (saturating_sub self rhs).
Definition left_from_one (self : Z) : Z := p_saturating_sub one self.

(** [impl Add]; the check is its [debug_assert!]. *)
Definition p_add (self rhs : Z) : res E Z :=
  i ← add_u (inner P) self rhs;
  if i <=? ACCURACY P then Ok (from_parts i) else Panic.
Definition p_sub (self rhs : Z) : res E Z := i ← sub_u self rhs; Ok (from_parts i).
Definition p_checked_add (self rhs : Z) : option Z :=
  i ← checked_add (inner P) self rhs; if ACCURACY P <? i then None else Some (from_parts i).
Definition p_checked_sub (self v : Z) : option Z := i ← checked_sub self v; Some (from_parts i).

(** [Decode] refuses more parts than there are. *)
Definition decode_inner (i : Z) : option Z := if i <=? ACCURACY P then Some i else None.

(** The [while] loop of [pow]: the exponent halves in each round. *)
Fixpoint pow_loop (fuel : nat) (self result exp : Z) : res E Z :=
  match fuel with
  | O => Panic
  | S fuel' =>
      if (0 <? exp) && negb (is_zero result) then
        '(result, exp) ← (if exp mod 2 =? 0 then Ok (result, exp)
                          else r ← mul result self; e ← sub_u exp 1; Ok (r, e));
        self ← square self;
        pow_loop fuel' self result (exp / 2)
      else Ok result
  end.

Definition pow (self exp : Z) : res E Z :=
  if (exp =? 0) || is_one self then Ok one else
  e ← sub_u exp 1;
  pow_loop 65 self self e.
End per_thing.

(** ** The types of the macro *)
Definition per_things : list PerThing := [Percent; PerU16; Permill; Perbill; Perquintill].

Definition width (w : Z) : Prop := w = 8 \/ w = 16 \/ w = 32 \/ w = 64 \/ w = 128.

Lemma per_thing_range P : P ∈ per_things ->
  100 <= ACCURACY P < 2 ^ inner P /\ upper P = 2 * inner P /\ width (inner P) /\ width (upper P) /\ 2 ^ upper P = 2 ^ inner P * 2 ^ inner P.
Proof.
  unfold per_things, width. rewrite !elem_of_cons, elem_of_nil.
  intros [->|[->|[->|[->|[->|[]]]]]]; (split_and!; [done|done|done|simpl; lia|simpl; lia|done]).
Qed.

(** ** Rounding *)
Lemma rounded_add r k n d : 0 < d -> rounded r (k * d + n) d = k + rounded r n d.
Proof. intros Hd. rewrite !rounded_spec by done. rewrite (Z.add_comm (k * d)), Z.div_add, Z.mod_add by lia. lia. Qed.

Lemma rounded_mono r n n' d : 0 < d -> n <= n' -> rounded r n d <= rounded r n' d.
Proof. intros Hd Hn. destruct r; simpl; apply Z.div_le_mono; lia. Qed.

Lemma rounded_nonneg r n d : 0 < d -> 0 <= n -> 0 <= rounded r n d.
Proof. intros Hd Hn. destruct r; simpl; apply Z.div_pos; lia. Qed.

Section facts.
Context (P : PerThing) (HP : P ∈ per_things) {E : Type}.
Abbreviation A := (ACCURACY P).

Lemma correction_spec x numer denom r :
  0 <= x -> 0 <= numer < 2 ^ inner P -> 0 < denom < 2 ^ inner P ->
  @rational_mul_correction P E x numer denom r = Ok (rounded r (x mod denom * numer) denom).
Proof.
  intros Hx Hn Hd. destruct (per_thing_range P HP) as (_ & _ & _ & _ & Hup). unfold rational_mul_correction.
  rewrite rem_u_ok by lia. cbn [mbind res_bind]. pose proof (Z.mod_pos_bound x denom ltac:(lia)) as Hm. set (m := x mod denom) in *.
  assert (saturated_into (inner P) m = m) as -> by (unfold saturated_into; lia).
  rewrite mul_u_ok by nia. cbn [mbind res_bind]. rewrite div_u_ok, rem_u_ok by lia. cbn [mbind res_bind].
  assert (0 <= m * numer) by nia. pose proof (Z.div_mod (m * numer) denom ltac:(lia)) as Hdm. pose proof (Z.mod_pos_bound (m * numer) denom ltac:(lia)) as Hmm.
  assert (0 <= m * numer / denom) by (apply Z.div_pos; lia).
  assert (m * numer / denom <= numer) by (apply Z.div_le_upper_bound; nia).
  assert (saturated_into (inner P) (m * numer / denom) = m * numer / denom) as -> by (unfold saturated_into; lia).
  assert (0 < m * numer mod denom -> m * numer / denom + 1 < 2 ^ inner P) as Hfit.
  { intros Hpos. assert (m * numer / denom < numer); [|lia]. apply Z.div_lt_upper_bound; [lia|]. assert (numer <> 0) by (intros ->; rewrite Z.mul_0_r, Z.mod_0_l in Hpos; lia). nia. }
  pose proof (Z.div_mod denom 2 ltac:(lia)) as H2. pose proof (Z.mod_pos_bound denom 2 ltac:(lia)) as H2'.
  rewrite rounded_spec by lia. destruct r; cbn [rounds_up]; [|by rewrite Z.add_0_r|rewrite (add_u_ok (upper P)) by nia; cbn [mbind res_bind]|].
  all: match goal with |- (if ?b then _ else _) = _ => destruct b eqn:Hb end; [rewrite add_u_ok by (apply Hfit; lia); done|by rewrite Z.add_0_r].
Qed.

Lemma prune_mul_spec wn x part r : inner P <= wn -> 0 <= x < 2 ^ wn -> 0 <= part <= A ->
  @overflow_prune_mul P E wn x part r = Ok (rounded r (x * part) A) /\ 0 <= rounded r (x * part) A <= x.
Proof.
  intros Hw Hx Hp. destruct (per_thing_range P HP) as (HA & _ & Hi & _). unfold overflow_prune_mul.
  assert (0 <= rounded r (x * part) A <= x) as Hb.
  { split; [apply rounded_nonneg; nia|]. rewrite <- (rounded_exact r x A) at 2 by lia. apply rounded_mono; nia. }
  split; [|done]. rewrite correction_spec by lia. cbn [mbind res_bind]. rewrite div_u_ok by lia. cbn [mbind res_bind].
  pose proof (Z.div_mod x A ltac:(lia)) as Hdm. pose proof (Z.mod_pos_bound x A ltac:(lia)) as Hm. assert (0 <= x / A) by (apply Z.div_pos; lia).
  assert (x * part = x / A * part * A + x mod A * part) as Heq by (rewrite Hdm at 1; ring). rewrite Heq, rounded_add in Hb |- * by lia.
  pose proof (rounded_nonneg r (x mod A * part) A ltac:(lia) ltac:(nia)). rewrite mul_u_ok by nia. cbn [mbind res_bind]. by rewrite add_u_ok by lia.
Qed.

Lemma from_rational_spec wn p q r : width wn -> inner P <= wn -> 0 <= p < 2 ^ wn -> 0 <= q < 2 ^ wn ->
  @from_rational_with_rounding P E wn p q r = Ok (if (q =? 0) || (q <? p) then None else Some (rounded r (A * p) q)) /\
  (p <= q -> q <> 0 -> 0 <= rounded r (A * p) q <= A).
Proof.
  intros Hw Hi Hp Hq. destruct (per_thing_range P HP) as (HA & _ & Hiw & _). unfold from_rational_with_rounding.
  assert (p <= q -> q <> 0 -> 0 <= rounded r (A * p) q <= A) as Hb.
  { intros. split; [apply rounded_nonneg; nia|]. rewrite <- (rounded_exact r A q) at 2 by lia. apply rounded_mono; nia. }
  split; [|done]. destruct (Z.eqb_spec q 0); [done|]. destruct (Z.ltb_spec q p); [done|]. simpl.
  assert (2 ^ inner P <= 2 ^ wn) by (apply Z.pow_le_mono_r; lia). rewrite multiply_rational_spec, (proj2 (Z.eqb_neq _ _)) by (done || lia). cbn [mbind res_bind].
  rewrite (proj2 (Z.ltb_lt _ _)) by lia. by rewrite (proj2 (Z.ltb_lt _ _)) by lia.
Qed.

Lemma reciprocal_spec wn x part r : 0 <= x < 2 ^ wn -> 0 < part <= A ->
  @saturating_reciprocal_mul P E wn x part r = Ok (Z.min (rounded r (x * A) part) (2 ^ wn - 1)).
Proof.
  intros Hx Hp. destruct (per_thing_range P HP) as (HA & _ & Hi & _). unfold saturating_reciprocal_mul.
  rewrite correction_spec by lia. cbn [mbind res_bind]. rewrite div_u_ok by lia. cbn [mbind res_bind]. f_equal.
  pose proof (Z.div_mod x part ltac:(lia)) as Hdm. pose proof (Z.mod_pos_bound x part ltac:(lia)) as Hm.
  assert (x * A = x / part * A * part + x mod part * A) as Heq by (rewrite Hdm at 1; ring). rewrite Heq, rounded_add by lia.
  pose proof (rounded_nonneg r (x mod part * A) part ltac:(lia) ltac:(nia)). unfold saturating_add, saturating_mul. lia.
Qed.

(** Products of fractions round down. *)
Lemma p_mul_spec a b : 0 <= a <= A -> 0 <= b <= A -> @mul P E a b = Ok (a * b / A) /\ 0 <= a * b / A <= a.
Proof.
  intros Ha Hb. destruct (per_thing_range P HP) as (HA & _ & _ & _ & Hup). unfold mul, from_parts. rewrite mul_u_ok by nia. cbn [mbind res_bind].
  rewrite div_u_ok by lia. cbn [mbind res_bind]. assert (0 <= a * b / A <= a) as Hr by (split; [apply Z.div_pos; nia|apply Z.div_le_upper_bound; nia]).
  split; [|done]. rewrite Z.mod_small by lia. f_equal. lia.
Qed.

Lemma square_spec a : 0 <= a <= A -> @square P E a = Ok (a * a / A) /\ 0 <= a * a / A <= a.
Proof.
  intros Ha. destruct (per_thing_range P HP) as (HA & Hu & Hiw & Huw & Hup). pose proof (p_mul_spec a a Ha Ha) as [_ Hb]. split; [|done].
  unfold square, from_rational. rewrite !mul_u_ok by nia. cbn [mbind res_bind]. assert (inner P <= upper P) by (unfold width in Hiw; lia).
  destruct (from_rational_spec (upper P) (a * a) (A * A) Down) as [-> _]; [done|done|nia|nia|]. cbn [mbind res_bind].
  rewrite (proj2 (Z.eqb_neq _ _)), (proj2 (Z.ltb_ge _ _)) by nia. simpl. by rewrite Z.div_mul_cancel_l by lia.
Qed.

(** ** Powers *)

(** [r] parts are at most the [n]-th power of [x] parts. *)
Definition below (x r n : Z) : Prop := r * A ^ n <= A * x ^ n.

Lemma below_mul x r s m n : 0 <= x -> 0 <= r -> 0 <= s -> 0 <= m -> 0 <= n -> below x r m -> below x s n -> below x (r * s / A) (m + n).
Proof.
  unfold below. intros Hx Hr Hs Hm Hn Hrm Hsn. destruct (per_thing_range P HP) as (HA & _). rewrite !Z.pow_add_r by done.
  assert (0 < A ^ m /\ 0 < A ^ n) as [HAm HAn] by (split; apply Z.pow_pos_nonneg; lia).
  assert (0 <= x ^ m /\ 0 <= x ^ n) as [Hxm Hxn] by (split; apply Z.pow_nonneg; lia).
  assert (A * (r * s / A) <= r * s) as Hdiv by (apply Z.mul_div_le; lia).
  assert ((r * A ^ m) * (s * A ^ n) <= (A * x ^ m) * (A * x ^ n)) by (apply Z.mul_le_mono_nonneg; nia).
  assert (A * (r * s / A) * (A ^ m * A ^ n) <= r * s * (A ^ m * A ^ n)) by (apply Z.mul_le_mono_nonneg_r; nia).
  apply (Zmult_le_reg_r _ _ A); [lia|]. lia.
Qed.

(** The loop: [self] is below the [k]-th power, [result] below the [n]-th. *)
Lemma pow_loop_spec x fuel self result exp k n :
  0 <= x -> 0 <= self <= A -> 0 <= result <= A -> 0 <= exp < 2 ^ Z.of_nat fuel -> 0 <= k -> 0 <= n ->
  below x self k -> below x result n ->
  exists y, @pow_loop P E (S fuel) self result exp = Ok y /\ 0 <= y <= result /\ below x y (n + k * exp).
Proof.
  destruct (per_thing_range P HP) as (HA & _). intros Hx. revert self result exp k n.
  induction fuel as [|fuel IH]; intros self result exp k n Hs Hr He Hk Hn Hsk Hrn.
  - cbn [pow_loop]. simpl in He. assert (exp = 0) as -> by lia. exists result. simpl. rewrite Z.mul_0_r, Z.add_0_r. by split_and!; [|lia..|].
  - remember (S fuel) as f eqn:Hf. cbn [pow_loop]. unfold is_zero. destruct (Z.ltb_spec 0 exp) as [Hpos|Hz]; [|assert (exp = 0) as -> by lia; exists result; rewrite Z.mul_0_r, Z.add_0_r; by split_and!; [|lia..|]].
    destruct (Z.eqb_spec result 0) as [->|Hr0]; [exists 0; split; [done|]; split; [lia|]; unfold below; assert (0 <= x ^ (n + k * exp)) by (apply Z.pow_nonneg; lia); nia|]. cbn [andb negb].
    subst f. rewrite Nat2Z.inj_succ, Z.pow_succ_r in He by lia. pose proof (Z.div_mod exp 2 ltac:(lia)) as Hdm. pose proof (Z.mod_pos_bound exp 2 ltac:(lia)) as Hm.
    destruct (square_spec self Hs) as [Hsq Hsqb]. assert (below x (self * self / A) (k + k)) as Hsq2 by (apply below_mul; lia || done).
    destruct (Z.eqb_spec (exp mod 2) 0) as [H0|H1]; cbn [mbind res_bind].
    + rewrite Hsq. cbn [mbind res_bind]. destruct (IH (self * self / A) result (exp / 2) (k + k) n) as (y & Hy & Hyb & Hyp); [lia..|done|done|].
      exists y. split; [done|]. split; [done|]. replace (n + k * exp) with (n + (k + k) * (exp / 2)); [done|]. rewrite Hdm at 2. rewrite H0. ring.
    + destruct (p_mul_spec result self Hr Hs) as [-> Hmb]. cbn [mbind res_bind]. rewrite sub_u_ok by lia. cbn [mbind res_bind]. rewrite Hsq. cbn [mbind res_bind].
      assert (exp mod 2 = 1) as H2 by lia. assert ((exp - 1) / 2 = exp / 2) as -> by (symmetry; apply (Z.div_unique _ _ _ 0); lia).
      destruct (IH (self * self / A) (result * self / A) (exp / 2) (k + k) (n + k)) as (y & Hy & Hyb & Hyp); [lia..|done|apply below_mul; lia || done|].
      exists y. split; [done|]. split; [lia|]. replace (n + k * exp) with (n + k + (k + k) * (exp / 2)); [done|]. rewrite Hdm at 2. rewrite H2. ring.
Qed.
End facts.

(** ** Properties *)

(** C33: Multiplication of an integer with a fraction is exact: for each of the five types
    and each integer type that is wide enough, no step overflows and the result is the
    product, divided by the whole and rounded as asked.  It never exceeds the integer. *)
Theorem per_thing_mul_exact {E} P wn x part r :
  P ∈ per_things -> inner P <= wn -> 0 <= x < 2 ^ wn -> 0 <= part <= ACCURACY P ->
  @overflow_prune_mul P E wn x part r = Ok (rounded r (x * part) (ACCURACY P)) /\
  0 <= rounded r (x * part) (ACCURACY P) <= x /\
  (part <> 0 -> @saturating_reciprocal_mul P E wn x part r = Ok (Z.min (rounded r (x * ACCURACY P) part) (2 ^ wn - 1))).
Proof.
  intros HP Hw Hx Hp. destruct (prune_mul_spec P HP (E := E) wn x part r Hw Hx Hp) as [-> Hb]. split; [done|]. split; [done|].
  intros Hne. apply reciprocal_spec; [done|done|lia].
Qed.

(** The fraction of two integers: there is none exactly for a zero denominator or a
    value above one.  The parts are rounded as asked, and multiplying the denominator
    with the fraction does not exceed the numerator when the fraction was rounded down,
    and reaches it when it was rounded up. *)
Theorem from_rational_brackets {E} P wn p q :
  P ∈ per_things -> width wn -> inner P <= wn -> 0 <= p < 2 ^ wn -> 0 <= q < 2 ^ wn ->
  if (q =? 0) || (q <? p) then forall r, @from_rational_with_rounding P E wn p q r = Ok None
  else exists lo hi y z,
    @from_rational_with_rounding P E wn p q Down = Ok (Some lo) /\ @from_rational_with_rounding P E wn p q Up = Ok (Some hi) /\
    0 <= lo <= hi /\ hi <= ACCURACY P /\ hi <= lo + 1 /\ @mul_n P E wn lo q = Ok y /\ @mul_n P E wn hi q = Ok z /\ y <= p <= z.
Proof.
  intros HP Hw Hi Hp Hq. pose proof (fun r => from_rational_spec P HP (E := E) wn p q r Hw Hi Hp Hq) as Hf. destruct (per_thing_range P HP) as (HA & _).
  destruct ((q =? 0) || (q <? p)) eqn:Hc; [intros r; apply Hf|]. apply orb_false_iff in Hc as [Hq0 Hqp]. apply Z.eqb_neq in Hq0. apply Z.ltb_ge in Hqp.
  destruct (Hf Down) as [-> Hd], (Hf Up) as [-> Hu]. specialize (Hd Hqp Hq0). specialize (Hu Hqp Hq0). unfold mul_n.
  destruct (prune_mul_spec P HP (E := E) wn q (rounded Down (ACCURACY P * p) q) NearestPrefDown) as [Hy _]; [done..|].
  destruct (prune_mul_spec P HP (E := E) wn q (rounded Up (ACCURACY P * p) q) NearestPrefDown) as [Hz _]; [done..|].
  eexists _, _, _, _. do 2 (split; [done|]). pose proof (Z.div_mod (ACCURACY P * p) q ltac:(lia)) as Hdm. pose proof (Z.mod_pos_bound (ACCURACY P * p) q ltac:(lia)) as Hm.
  assert (rounded Up (ACCURACY P * p) q = ACCURACY P * p / q + if 0 <? ACCURACY P * p mod q then 1 else 0) as Hup by (apply (rounded_spec Up); lia).
  change (rounded Down (ACCURACY P * p) q) with (ACCURACY P * p / q) in *. destruct (Z.ltb_spec 0 (ACCURACY P * p mod q));
    (split_and!; [lia|lia|lia|lia|exact Hy|exact Hz| |]).
  all: pose proof (rounded_exact NearestPrefDown p (ACCURACY P) ltac:(lia)) as Hex.
  all: first [etransitivity; [apply (rounded_mono _ _ (p * ACCURACY P)); [lia|rewrite ?Hup; lia]|lia]|etransitivity; [|apply (rounded_mono _ (p * ACCURACY P)); [lia|rewrite ?Hup; lia]]; lia].
Qed.

(** [pow] returns, and is never above the exact power; the power of a fraction is a
    fraction. *)
Theorem pow_never_exceeds {E} P x exp :
  P ∈ per_things -> 0 <= x <= ACCURACY P -> 0 <= exp < 2 ^ 64 ->
  exists y, @pow P E x exp = Ok y /\ 0 <= y <= ACCURACY P /\ y * ACCURACY P ^ exp <= ACCURACY P * x ^ exp.
Proof.
  intros HP Hx He. destruct (per_thing_range P HP) as (HA & _). unfold pow, is_one. destruct (Z.eqb_spec exp 0) as [->|Hne].
  { exists (ACCURACY P). simpl. unfold one, from_parts. rewrite Z.min_id. split; [done|]. split; lia. }
  destruct (Z.eqb_spec x (ACCURACY P)) as [->|Hx1]. { exists (ACCURACY P). simpl. unfold one, from_parts. rewrite Z.min_id. split; [done|]. split; lia. }
  cbn [orb]. rewrite sub_u_ok by lia. cbn [mbind res_bind].
  assert (below P x x 1) as Hb by (unfold below; rewrite !Z.pow_1_r; lia).
  destruct (pow_loop_spec P HP (E := E) x 64 x x (exp - 1) 1 1) as (y & -> & Hy & Hyb); [lia..|done|done|].
  exists y. split; [done|]. split; [lia|]. unfold below in Hyb. by replace (1 + 1 * (exp - 1)) with exp in Hyb by lia.
Qed.

Module PerThingExamples.
Lemma perbill_listed : Perbill ∈ per_things.
Proof. unfold per_things. do 3 constructor 2. constructor. Qed.

Lemma per_thing_mul_exact_witness : @overflow_prune_mul Perbill unit 64 18446744073709551615 333333333 NearestPrefDown = Ok 6148914685087602514.
Proof. destruct (per_thing_mul_exact (E := unit) Perbill 64 18446744073709551615 333333333 NearestPrefDown perbill_listed) as [-> _]; [done..|by vm_compute]. Defined.

Lemma from_rational_brackets_witness : exists lo, @from_rational_with_rounding Perbill unit 64 2 3 Down = Ok (Some lo).
Proof.
  destruct (from_rational_brackets (E := unit) Perbill 64 2 3 perbill_listed) as (lo & hi & y & z & Hlo & _); [unfold width; lia|done..|]. by exists lo.
Defined.

Lemma pow_never_exceeds_witness : exists y, @pow Perbill unit 500000000 10 = Ok y.
Proof. destruct (pow_never_exceeds (E := unit) Perbill 500000000 10 perbill_listed) as (y & Hy & _); [done..|]. by exists y. Defined.

(** The reciprocal of zero is a division by zero. *)
Example reciprocal_of_zero_panics : @saturating_reciprocal_mul Percent unit 64 10 0 Down = Panic.
Proof. done. Qed.
End PerThingExamples.
