(* ===== verification/Normalize.v ===== *)
(** * Normalization of lists of numbers

    [normalize] and [tcmp] of [substrate/primitives/arithmetic/src/lib.rs].  [normalize]
    changes the numbers of a list so that their sum is a given one; elections use it to
    make the stakes of an assignment add up.  Numbers have [w] bits, indices are [nat]. *)
From stdpp Require Import base list sorting.
From Stdlib Require Import ZArith Lia.
From S2P Require Import Prelude.
Set Warnings "-clear-no-such-hyp".
Open Scope Z_scope.

(** [ThresholdOrd::tcmp] *)
Definition tcmp (w self other threshold : Z) : comparison :=
  if threshold =? 0 then self ?= other
  else let upper_bound := saturating_add w other threshold in
       let lower_bound := saturating_sub other threshold in
       if upper_bound <=? lower_bound then self ?= other
       else match self ?= lower_bound, self ?= upper_bound with
            | Gt, Gt => Gt
            | Lt, Lt => Lt
            | _, _ => Eq
            end.

Inductive NormalizeError := SumTooBig | LengthTooBig.

(** [sort_by_key], which is stable: an element goes before those that are not smaller. *)
Section sort.
Context {A : Type} (key : A -> Z).

Fixpoint insert_by_key (x : A) (l : list A) : list A :=
  match l with
  | [] => [x]
  | y :: l' => if key x <=? key y then x :: l else y :: insert_by_key x l'
  end.

Definition sort_by_key (l : list A) : list A := foldr insert_by_key [] l.
End sort.

(** The output with the original indices. *)
Abbreviation Indexed := (list (nat * Z)).

Section normalize.
Context (w : Z) {E : Type}.

(** ** Increasing *)

(** [output_with_idx[min_index].1 += by], and the step to the next index. *)
Definition bump (count : nat) (threshold by_ : Z) (acc : Indexed * nat) : res E (Indexed * nat) :=
  let '(output, min_index) := acc in
  '(i, x) ← expect (output !! min_index);
  x ← expect (checked_add w x by_);
  let output := <[min_index := (i, x)]> output in
  Ok (output, if threshold <=? x then ((min_index + 1) `mod` count)%nat else min_index).

(** The [while] loop over [leftover], which it decrements in each round. *)
Fixpoint bump_leftover (count : nat) (threshold : Z) (leftover : nat) (acc : Indexed * nat) : res E (Indexed * nat) :=
  match leftover with
  | O => Ok acc
  | S leftover' => acc ← bump count threshold 1 acc; bump_leftover count threshold leftover' acc
  end.

Definition increase (count : nat) (count_t targeted_sum per_round leftover : Z) (output : Indexed) : res E Indexed :=
  threshold ← div_u targeted_sum count_t;
  acc ← (if per_round =? 0 then Ok (output, 0%nat)
         else for_each (fun acc _ => bump count threshold per_round acc) (seq 0 count) (output, 0%nat));
  acc ← bump_leftover count threshold (Z.to_nat leftover) acc;
  Ok acc.1.

(** ** Decreasing *)
Definition prev_index (count max_index : nat) : nat := if (max_index =? 0)%nat then (count - 1)%nat else (max_index - 1)%nat.

(** A round of the first loop; what an element falls short of goes to [leftover]. *)
Definition cut (count : nat) (threshold per_round : Z) (acc : Indexed * nat * Z) : res E (Indexed * nat * Z) :=
  let '(output, max_index, leftover) := acc in
  '(i, x) ← expect (output !! max_index);
  '(x, leftover) ← match checked_sub x per_round with
                   | Some y => Ok (y, leftover)
                   | None =>
                       remainder ← sub_u per_round x;
                       leftover ← add_u w leftover remainder;
                       Ok (saturating_sub x per_round, leftover)
                   end;
  let output := <[max_index := (i, x)]> output in
  Ok (output, if x <=? threshold then prev_index count max_index else max_index, leftover).

(** The [while] loop over [leftover]; a round that meets a zero only moves on. *)
Fixpoint cut_leftover (fuel : nat) (count : nat) (threshold : Z) (acc : Indexed * nat * Z) : res E Indexed :=
  match fuel with
  | O => Panic
  | S fuel' =>
      let '(output, max_index, leftover) := acc in
      if leftover =? 0 then Ok output
      else '(i, x) ← expect (output !! max_index);
           match checked_sub x 1 with
           | Some next =>
               let output := <[max_index := (i, next)]> output in
               let max_index := if next <=? threshold then prev_index count max_index else max_index in
               leftover ← sub_u leftover 1;
               cut_leftover fuel' count threshold (output, max_index, leftover)
           | None => cut_leftover fuel' count threshold (output, prev_index count max_index, leftover)
           end
  end.

(** At most [count] rounds take one from [leftover]. *)
Definition decrease (count : nat) (per_round leftover : Z) (output : Indexed) : res E Indexed :=
  max_index ← expect (if (count =? 0)%nat then None else Some (count - 1)%nat);
  first ← expect (head output);
  let threshold := first.2 in
  acc ← (if per_round =? 0 then Ok (output, max_index, leftover)
         else for_each (fun acc _ => cut count threshold per_round acc) (seq 0 count) (output, max_index, leftover));
  cut_leftover (S (Z.to_nat acc.2 * count)) count threshold acc.
End normalize.

Definition normalize (w : Z) (input : list Z) (targeted_sum : Z) : res NormalizeError (list Z) :=
  sum ← for_each (fun sum t => ok_or SumTooBig (checked_add w sum t)) input 0;
  let count := length input in
  count_t ← (if Z.of_nat count <? 2 ^ w then Ok (Z.of_nat count) else Err LengthTooBig);
  if (count =? 0)%nat then Ok [] else
  diff ← sub_u (Z.max targeted_sum sum) (Z.min targeted_sum sum);
  if diff =? 0 then Ok input else
  let needs_bump := sum <? targeted_sum in
  per_round ← div_u diff count_t;
  leftover ← rem_u diff count_t;
  let output_with_idx := sort_by_key snd (zip (seq 0 count) input) in
  output_with_idx ← (if needs_bump then increase w count count_t targeted_sum per_round leftover output_with_idx
                     else decrease w count per_round leftover output_with_idx);
  total ← for_each (fun acc '(_, x) => add_u w acc x) output_with_idx 0;
  if total =? targeted_sum then Ok (sort_by_key (fun x => Z.of_nat x.1) output_with_idx).*2 else Panic.

(** ** Sorting *)
Section sort_facts.
Context {A : Type} (key : A -> Z).

Lemma insert_by_key_perm x l : insert_by_key key x l ≡ₚ x :: l.
Proof.
  induction l as [|y l IH]; simpl; [done|]. destruct (key x <=? key y); [done|]. rewrite IH. apply Permutation_swap.
Qed.
Lemma sort_by_key_perm l : sort_by_key key l ≡ₚ l.
Proof. induction l as [|x l IH]; simpl; [done|]. by rewrite insert_by_key_perm, IH. Qed.

Lemma insert_by_key_sorted x l : StronglySorted (fun a b => key a <= key b) l -> StronglySorted (fun a b => key a <= key b) (insert_by_key key x l).
Proof.
  induction 1 as [|y l Hl IH Hy]; simpl; [by repeat constructor|]. destruct (Z.leb_spec (key x) (key y)).
  - constructor; [by constructor|]. constructor; [done|]. eapply Forall_impl; [exact Hy|]. simpl. lia.
  - constructor; [done|]. rewrite insert_by_key_perm. constructor; [lia|done].
Qed.
Lemma sort_by_key_ascending l : StronglySorted (fun a b => key a <= key b) (sort_by_key key l).
Proof. induction l as [|x l IH]; simpl; [constructor|]. by apply insert_by_key_sorted. Qed.
End sort_facts.

(** Sorting by the indices restores the order of the input. *)
Lemma sort_by_index_fst (l : Indexed) n : l.*1 ≡ₚ seq 0 n -> (sort_by_key (fun x => Z.of_nat x.1) l).*1 = seq 0 n.
Proof.
  intros Hl. apply (StronglySorted_unique (le : relation nat)).
  - assert (StronglySorted (fun a b : nat * Z => Z.of_nat a.1 <= Z.of_nat b.1) (sort_by_key (fun x => Z.of_nat x.1) l)) as Hs by apply sort_by_key_ascending.
    induction Hs as [|x l' Hs IH Hx]; simpl; constructor; [done|]. apply Forall_fmap. eapply Forall_impl; [exact Hx|]. simpl. intros. lia.
  - clear. generalize 0%nat. induction n as [|n IH]; intros k; simpl; constructor; [done|]. apply Forall_forall. intros i Hi%elem_of_seq. lia.
  - by rewrite sort_by_key_perm.
Qed.

(** ** Sums of the output *)
#[local] Arguments sum_Z : simpl never.
#[local] Instance sum_Z_proper : Proper ((≡ₚ) ==> (=)) sum_Z := sum_Z_perm.
Definition total (output : Indexed) : Z := sum_Z output.*2.

Lemma total_update output k i x y : output !! k = Some (i, x) -> total (<[k := (i, y)]> output) = total output - x + y.
Proof.
  unfold total. revert k. induction output as [|p output IH]; intros [|k] Hk; simplify_eq/=; rewrite !sum_Z_cons; [lia|]. apply IH in Hk. lia.
Qed.

Lemma fst_update (output : Indexed) k i x y : output !! k = Some (i, x) -> (<[k := (i, y)]> output).*1 = output.*1.
Proof. intros Hk. rewrite list_fmap_insert. apply list_insert_id. by rewrite list_lookup_fmap, Hk. Qed.

Lemma total_ge output k i x : Forall (fun p => 0 <= p.2) output -> output !! k = Some (i, x) -> 0 <= x <= total output.
Proof.
  unfold total. intros Hnn. revert k. induction Hnn as [|p output Hp Hnn IH]; intros [|k] Hk; simplify_eq/=; rewrite sum_Z_cons.
  - assert (0 <= sum_Z output.*2); [|simpl; lia]. clear -Hnn. induction Hnn; cbn; rewrite ?sum_Z_cons; simpl in *; [done|lia].
  - apply IH in Hk. lia.
Qed.

(** What the loops keep: the indices, and how each number relates to the input. *)
Record fine (input : list Z) (R : Z -> Z -> Prop) (output : Indexed) : Prop := {
  f_idx : output.*1 ≡ₚ seq 0 (length input);
  f_nonneg : Forall (fun p => 0 <= p.2) output;
  f_rel : Forall (fun p => exists a, input !! p.1 = Some a /\ R a p.2) output;
}.

Lemma fine_length input R output : fine input R output -> length output = length input.
Proof. intros [Hi _ _]. apply Permutation_length in Hi. by rewrite length_fmap, length_seq in Hi. Qed.

Lemma fine_lookup input R output k : fine input R output -> (k < length input)%nat -> exists i x, output !! k = Some (i, x) /\ 0 <= x <= total output.
Proof.
  intros Hf Hk. rewrite <- (fine_length _ _ _ Hf) in Hk. apply lookup_lt_is_Some in Hk as [[i x] Hx]. exists i, x. split; [done|].
  eapply total_ge; [apply (f_nonneg _ _ _ Hf)|done].
Qed.

Lemma fine_update input R output k i x y :
  fine input R output -> output !! k = Some (i, x) -> 0 <= y -> (forall a, R a x -> R a y) -> fine input R (<[k := (i, y)]> output).
Proof.
  intros [Hi Hn Hr] Hk Hy HR. split; [by rewrite (fst_update _ _ _ x)|by apply Forall_insert|]. apply Forall_insert; [done|].
  eapply Forall_lookup in Hr; [|exact Hk]. destruct Hr as (a & Ha & Hax). exists a. simpl in *. auto.
Qed.

(** ** Increasing the numbers *)
Section increase_facts.
Context (w : Z) {E : Type} (input : list Z).
Abbreviation count := (length input).

Lemma bump_one_spec threshold by_ output k : 0 <= by_ -> total output + by_ < 2 ^ w -> fine input Z.le output -> (k < count)%nat ->
  exists output' k', @bump w E count threshold by_ (output, k) = Ok (output', k') /\ total output' = total output + by_ /\ fine input Z.le output' /\ (k' < count)%nat.
Proof.
  intros Hb Hw Hf Hk. destruct (fine_lookup _ _ _ _ Hf Hk) as (i & x & Hx & Hxt). unfold bump. rewrite Hx. cbn [expect mbind res_bind].
  unfold checked_add. rewrite (proj2 (Z.ltb_lt _ _)) by lia. cbn [expect mbind res_bind]. eexists _, _. split; [done|]. split_and!.
  - rewrite (total_update _ _ _ x) by done. lia.
  - eapply fine_update; [done|done|lia|]. intros. lia.
  - destruct (threshold <=? x + by_); [apply Nat.mod_upper_bound; lia|done].
Qed.

Lemma bump_leftover_spec threshold n output k : total output + Z.of_nat n < 2 ^ w -> fine input Z.le output -> (k < count)%nat ->
  exists output' k', @bump_leftover w E count threshold n (output, k) = Ok (output', k') /\ total output' = total output + Z.of_nat n /\ fine input Z.le output'.
Proof.
  revert output k. induction n as [|n IH]; intros output k Hw Hf Hk; [exists output, k; split_and!; [done|lia|done]|]. cbn [bump_leftover].
  destruct (bump_one_spec threshold 1 output k) as (output1 & k1 & -> & Ht & Hf1 & Hk1); [lia|lia|done|done|]. cbn [mbind res_bind].
  destruct (IH output1 k1) as (output' & k' & Hrun & Ht' & Hf'); [lia|done|done|]. exists output', k'. split; [done|]. split; [lia|done].
Qed.

Lemma increase_spec t per_round leftover output :
  (0 < count)%nat -> 0 <= per_round -> 0 <= leftover -> t < 2 ^ w -> total output + Z.of_nat count * per_round + leftover = t -> fine input Z.le output ->
  exists output', @increase w E count (Z.of_nat count) t per_round leftover output = Ok output' /\ total output' = t /\ fine input Z.le output'.
Proof.
  intros Hc Hp Hl Ht Heq Hf. unfold increase. rewrite div_u_ok by lia. cbn [mbind res_bind]. set (th := t / Z.of_nat count).
  assert (exists output1 k1, (if per_round =? 0 then Ok (output, 0%nat)
         else for_each (fun acc _ => @bump w E count th per_round acc) (seq 0 count) (output, 0%nat)) = Ok (output1, k1) /\
    total output1 = total output + Z.of_nat count * per_round /\ fine input Z.le output1 /\ (k1 < count)%nat) as (output1 & k1 & -> & Ht1 & Hf1 & Hk1).
  { destruct (Z.eqb_spec per_round 0) as [->|Hne]; [exists output, 0%nat; split_and!; [done|lia|done|done]|].
    destruct (for_each_inv (fun acc _ => @bump w E count th per_round acc)
      (fun dn acc => total acc.1 = total output + Z.of_nat (length dn) * per_round /\ fine input Z.le acc.1 /\ (acc.2 < count)%nat) (seq 0 count) (output, 0%nat)) as ([o k] & -> & Ht1 & Hf1 & Hk1).
    - split_and!; [simpl; lia|done|done].
    - intros dn b todo [o k] Hseq (Ht1 & Hf1 & Hk1). cbn [fst snd] in *. assert (length dn < count)%nat by (apply (f_equal length) in Hseq; rewrite length_seq, length_app in Hseq; simpl in Hseq; lia).
      destruct (bump_one_spec th per_round o k) as (o' & k' & -> & Ht' & Hf' & Hk'); [lia|nia|done|done|]. eexists. split; [done|]. rewrite length_app. simpl. split_and!; [lia|done|done].
    - rewrite length_seq in Ht1. by exists o, k. }
  cbn [mbind res_bind]. destruct (bump_leftover_spec th (Z.to_nat leftover) output1 k1) as (o & k & -> & Ht2 & Hf2); [lia|done|done|].
  cbn [mbind res_bind]. exists o. split; [done|]. split; [simpl; lia|done].
Qed.
End increase_facts.

(** ** Decreasing the numbers *)
Section decrease_facts.
Context (w : Z) {E : Type} (input : list Z).
Abbreviation count := (length input).

Lemma prev_index_lt k : (k < count)%nat -> (prev_index count k < count)%nat.
Proof. intros Hk. unfold prev_index. destruct (Nat.eqb_spec k 0); lia. Qed.

(** [rest] is what is still to be taken off after this round. *)
Lemma cut_spec threshold per_round output k leftover rest t :
  0 < per_round -> 0 <= leftover -> 0 <= rest -> 0 <= t -> total output < 2 ^ w -> total output = t + leftover + per_round + rest -> fine input Z.ge output -> (k < count)%nat ->
  exists output' k' leftover', @cut w E count threshold per_round (output, k, leftover) = Ok (output', k', leftover') /\
    0 <= leftover' /\ total output' = t + leftover' + rest /\ total output' <= total output /\ fine input Z.ge output' /\ (k' < count)%nat.
Proof.
  intros Hp Hl Hr Ht Hw Heq Hf Hk. destruct (fine_lookup _ _ _ _ Hf Hk) as (i & x & Hx & Hxt). unfold cut. rewrite Hx. cbn [expect mbind res_bind].
  pose proof (prev_index_lt k Hk). unfold checked_sub. destruct (Z.leb_spec per_round x); cbn [mbind res_bind].
  - eexists _, _, _. split; [done|]. split_and!; [done|rewrite (total_update _ _ _ x) by done; lia|rewrite (total_update _ _ _ x) by done; lia|eapply fine_update; [done|done|lia|intros; lia]|]. by destruct (_ <=? threshold).
  - rewrite sub_u_ok by lia. cbn [mbind res_bind]. rewrite add_u_ok by lia. cbn [mbind res_bind]. assert (saturating_sub x per_round = 0) as -> by (unfold saturating_sub; lia).
    eexists _, _, _. split; [done|]. split_and!; [lia|rewrite (total_update _ _ _ x) by done; lia|rewrite (total_update _ _ _ x) by done; lia|eapply fine_update; [done|done|lia|intros; lia]|]. by destruct (_ <=? threshold).
Qed.

(** How many steps back lead from [k] to [j]. *)
Definition distance (k j : nat) : nat := if (j <=? k)%nat then (k - j)%nat else (k + count - j)%nat.

Lemma distance_step k j : (k < count)%nat -> (j < count)%nat -> k <> j -> S (distance (prev_index count k) j) = distance k j.
Proof.
  intros Hk Hj Hne. unfold distance, prev_index. destruct (Nat.eqb_spec k 0), (Nat.leb_spec j k); subst;
    repeat match goal with |- context[(?a <=? ?b)%nat] => destruct (Nat.leb_spec a b) end; lia.
Qed.

Lemma positive_exists output : Forall (fun p => 0 <= p.2) output -> 0 < total output -> exists j i x, output !! j = Some (i, x) /\ 0 < x.
Proof.
  unfold total. induction 1 as [|[i x] output Hp Hnn IH]; [done|]. cbn. rewrite sum_Z_cons. intros Ht. destruct (decide (0 < x)); [by exists 0%nat, i, x|].
  destruct IH as (j & i' & x' & Hj & Hx'); [simpl in *; lia|]. by exists (S j), i', x'.
Qed.

Lemma cut_leftover_spec threshold t n output k leftover fuel :
  0 <= t -> Z.to_nat leftover = n -> 0 <= leftover -> total output = t + leftover -> fine input Z.ge output -> (k < count)%nat -> (n * count < fuel)%nat ->
  exists output', @cut_leftover E fuel count threshold (output, k, leftover) = Ok output' /\ total output' = t /\ fine input Z.ge output'.
Proof.
  intros Ht. revert output k leftover fuel. induction n as [|n IH]; intros output k leftover fuel Hn Hl Heq Hf Hk Hfuel.
  { destruct fuel; [lia|]. cbn [cut_leftover]. assert (leftover = 0) as -> by lia. exists output. split_and!; [done|lia|done]. }
  destruct (positive_exists output (f_nonneg _ _ _ Hf)) as (j & ij & xj & Hj & Hxj); [lia|].
  assert (j < count)%nat as Hjc by (rewrite <- (fine_length _ _ _ Hf); by eapply lookup_lt_Some).
  assert (n * count + distance k j + 1 < fuel)%nat as Hfuel' by (unfold distance; destruct (Nat.leb_spec j k); nia). clear Hfuel.
  remember (distance k j) as d eqn:Hd. revert k fuel Hk Hd Hfuel'. induction d as [|d IHd]; intros k fuel Hk Hd Hfuel; (destruct fuel as [|fuel]; [lia|]); cbn [cut_leftover];
    (rewrite (proj2 (Z.eqb_neq _ _)) by lia); destruct (fine_lookup _ _ _ _ Hf Hk) as (i & x & Hx & Hxt); rewrite Hx; cbn [expect mbind res_bind]; unfold checked_sub; destruct (Z.leb_spec 1 x).
  1,3: rewrite sub_u_ok by lia; cbn [mbind res_bind]; apply IH; [lia|lia|rewrite (total_update _ _ _ x) by done; lia|eapply fine_update; [done|done|lia|intros; lia]|destruct (_ <=? threshold); [by apply prev_index_lt|done]|lia].
  - exfalso. assert (k = j) as -> by (unfold distance in Hd; destruct (Nat.leb_spec j k); lia). rewrite Hx in Hj. injection Hj as <- <-. lia.
  - assert (k <> j) as Hne by (intros ->; rewrite Hx in Hj; injection Hj as <- <-; lia). apply IHd; [by apply prev_index_lt| |lia].
    pose proof (distance_step k j Hk Hjc Hne). lia.
Qed.

Lemma decrease_spec t per_round leftover output :
  (0 < count)%nat -> 0 <= per_round -> 0 <= leftover -> 0 <= t -> total output < 2 ^ w -> total output = t + Z.of_nat count * per_round + leftover -> fine input Z.ge output ->
  exists output', @decrease w E count per_round leftover output = Ok output' /\ total output' = t /\ fine input Z.ge output'.
Proof.
  intros Hc Hp Hl Ht Hw Heq Hf. unfold decrease. rewrite (proj2 (Nat.eqb_neq _ _)) by lia. cbn [expect mbind res_bind].
  destruct (head output) as [[i0 th]|] eqn:Hh; [|apply head_None in Hh; pose proof (fine_length _ _ _ Hf); subst; simpl in *; lia]. cbn [expect mbind res_bind snd].
  assert (exists o k l, (if per_round =? 0 then Ok (output, (count - 1)%nat, leftover)
         else for_each (fun acc _ => @cut w E count th per_round acc) (seq 0 count) (output, (count - 1)%nat, leftover)) = Ok (o, k, l) /\
    0 <= l /\ total o = t + l /\ fine input Z.ge o /\ (k < count)%nat) as (o & k & l & -> & Hl1 & Ht1 & Hf1 & Hk1).
  { destruct (Z.eqb_spec per_round 0) as [->|Hne]; [eexists _, _, _; split; [done|]; split_and!; [done|lia|done|lia]|].
    destruct (for_each_inv (fun acc _ => @cut w E count th per_round acc)
      (fun dn acc => 0 <= acc.2 /\ total acc.1.1 = t + acc.2 + Z.of_nat (count - length dn) * per_round /\ fine input Z.ge acc.1.1 /\ (acc.1.2 < count)%nat /\ total acc.1.1 < 2 ^ w)
      (seq 0 count) (output, (count - 1)%nat, leftover)) as ([[o k] l] & -> & Hl1 & Ht1 & Hf1 & Hk1 & _).
    - simpl. rewrite Nat.sub_0_r. split_and!; [done|lia|done|lia|done].
    - intros dn b todo [[o k] l] Hseq (Hl1 & Ht1 & Hf1 & Hk1 & Hw1). cbn [fst snd] in *.
      assert (length dn < count)%nat by (apply (f_equal length) in Hseq; rewrite length_seq, length_app in Hseq; simpl in Hseq; lia).
      assert (Z.of_nat (count - length dn) = 1 + Z.of_nat (count - length (dn ++ [b]))) as Hone by (rewrite length_app; simpl; lia). rewrite Hone in Ht1.
      destruct (cut_spec th per_round o k l (Z.of_nat (count - length (dn ++ [b])) * per_round) t) as (o' & k' & l' & -> & Hl' & Ht' & Hle' & Hf' & Hk'); [lia|lia|nia|lia|lia|lia|done|done|].
      eexists. split; [done|]. simpl. assert (0 <= Z.of_nat (count - length (dn ++ [b])) * per_round) by nia. split_and!; [done|done|done|done|lia].
    - rewrite length_seq, Nat.sub_diag in Ht1. simpl in *. exists o, k, l. split_and!; [done|done|lia|done|done]. }
  cbn [mbind res_bind snd]. eapply cut_leftover_spec; [done|reflexivity|done|done|done|done|lia].
Qed.
End decrease_facts.

(** ** The whole function *)
#[local] Instance Z_ge_refl : Reflexive Z.ge.
Proof. intros x. lia. Qed.

Lemma enumerate_fine input (R : Z -> Z -> Prop) `{!Reflexive R} : Forall (fun x => 0 <= x) input ->
  fine input R (sort_by_key snd (zip (seq 0 (length input)) input)) /\ total (sort_by_key snd (zip (seq 0 (length input)) input)) = sum_Z input.
Proof.
  intros Hnn. assert ((zip (seq 0 (length input)) input).*1 = seq 0 (length input)) as H1 by (apply fst_zip; rewrite length_seq; lia).
  assert ((zip (seq 0 (length input)) input).*2 = input) as H2 by (apply snd_zip; rewrite length_seq; lia).
  split; [|unfold total; rewrite sort_by_key_perm; by rewrite H2]. split.
  - by rewrite sort_by_key_perm, H1.
  - rewrite sort_by_key_perm. apply Forall_forall. intros [i x] Hx%elem_of_zip_r. rewrite Forall_forall in Hnn. by apply Hnn.
  - rewrite sort_by_key_perm. apply Forall_lookup. intros k [i x] Hk%lookup_zip_Some. destruct Hk as [[Hi _]%lookup_seq Hx]. simpl in *. subst i. by exists x.
Qed.

Lemma fine_result input (R : Z -> Z -> Prop) output : fine input R output ->
  let out := (sort_by_key (fun x => Z.of_nat x.1) output).*2 in Forall2 R input out /\ sum_Z out = total output /\ Forall (fun x => 0 <= x) out.
Proof.
  intros Hf. cbv zeta. pose proof (fine_length _ _ _ Hf) as Hlen. destruct Hf as [Hi Hn Hr]. pose proof (sort_by_index_fst output _ Hi) as Hfst.
  pose proof (sort_by_key_perm (fun x : nat * Z => Z.of_nat x.1) output) as Hp. set (s := sort_by_key (fun x => Z.of_nat x.1) output) in *.
  rewrite <- Hp in Hn, Hr. split_and!.
  - apply Forall2_same_length_lookup. split; [rewrite length_fmap; apply Permutation_length in Hp; lia|]. intros k a y Ha Hy. rewrite list_lookup_fmap in Hy. destruct (s !! k) as [[i x]|] eqn:Hk; [|done]. simpl in Hy. injection Hy as ->.
    assert (i = k) as ->. { pose proof (f_equal (fun l => l !! k) Hfst) as Hfk. simpl in Hfk. rewrite list_lookup_fmap, Hk in Hfk. symmetry in Hfk. apply lookup_seq in Hfk as [Hfk _]. simpl in Hfk. done. }
    eapply Forall_lookup in Hr; [|exact Hk]. destruct Hr as (a' & Ha' & HR). simpl in *. by simplify_eq.
  - unfold total. apply sum_Z_perm. by rewrite Hp.
  - apply Forall_fmap. exact Hn.
Qed.

Lemma sum_checked w input s : 0 <= s -> Forall (fun x => 0 <= x) input -> s < 2 ^ w ->
  for_each (fun sum t => ok_or SumTooBig (checked_add w sum t)) input s = if 2 ^ w <=? s + sum_Z input then Err SumTooBig else Ok (s + sum_Z input).
Proof.
  intros Hs Hnn. revert s Hs. induction Hnn as [|x l Hx Hl IH]; intros s Hs Hsw; cbn [for_each]; rewrite ?sum_Z_cons.
  - change (sum_Z []) with 0. rewrite Z.add_0_r, (proj2 (Z.leb_gt _ _)) by lia. done.
  - assert (0 <= sum_Z l) by (rewrite <- (list_fmap_id l); apply (sum_Z_nonneg id); intros a Ha; by eapply Forall_forall in Hl). unfold checked_add. destruct (Z.ltb_spec (s + x) (2 ^ w)); cbn [ok_or].
    + rewrite IH by lia. by rewrite Z.add_assoc.
    + by rewrite (proj2 (Z.leb_le _ _)) by lia.
Qed.

Lemma sum_output {E} w (output : Indexed) s : 0 <= s -> Forall (fun p => 0 <= p.2) output -> s + total output < 2 ^ w ->
  for_each (fun acc '(_, x) => @add_u E w acc x) output s = Ok (s + total output).
Proof.
  intros Hs Hnn. revert s Hs. unfold total. induction Hnn as [|[i x] l Hx Hl IH]; intros s Hs Hsw; cbn in Hsw |- *; rewrite ?sum_Z_cons in *.
  - change (sum_Z []) with 0. f_equal. lia.
  - assert (0 <= sum_Z l.*2) by (apply sum_Z_nonneg; intros a Ha; by eapply Forall_forall in Hl). simpl in Hx. rewrite add_u_ok by lia. rewrite IH by lia. f_equal. lia.
Qed.

(** C16: [normalize] returns numbers with the sum that was asked for.  It refuses exactly
    the lists whose sum or length does not fit in the type; on all others both loops end,
    nothing overflows, and each number only grows, or only shrinks, as the sum must.
    The empty list stays empty. *)
Theorem normalize_reaches_sum w input t :
  0 < w -> 0 <= t < 2 ^ w -> Forall (fun x => 0 <= x) input ->
  if 2 ^ w <=? sum_Z input then normalize w input t = Err SumTooBig
  else if 2 ^ w <=? Z.of_nat (length input) then normalize w input t = Err LengthTooBig
  else exists out, normalize w input t = Ok out /\ Forall (fun x => 0 <= x) out /\
    (if sum_Z input <=? t then Forall2 Z.le input out else Forall2 Z.ge input out) /\ (input <> [] -> sum_Z out = t).
Proof.
  intros Hw Ht Hnn. assert (0 < 2 ^ w) by (apply Z.pow_pos_nonneg; lia). unfold normalize. rewrite sum_checked by (done || lia). rewrite Z.add_0_l.
  destruct (Z.leb_spec (2 ^ w) (sum_Z input)); [done|]. cbn [mbind res_bind].
  destruct (Z.leb_spec (2 ^ w) (Z.of_nat (length input))), (Z.ltb_spec (Z.of_nat (length input)) (2 ^ w)); try lia; [done|]. cbn [mbind res_bind].
  destruct (Nat.eqb_spec (length input) 0) as [Hz|Hz].
  { destruct input; [|done]. exists []. split_and!; [done..|by destruct (_ <=? _)|done]. }
  rewrite sub_u_ok by lia. cbn [mbind res_bind]. set (s := sum_Z input) in *. set (diff := Z.max t s - Z.min t s). assert (input <> []) as Hne by (by intros ->).
  destruct (Z.eqb_spec diff 0) as [Hd|Hd].
  { assert (s = t) as Hst by lia. exists input. split_and!; [done..| |done]. rewrite (proj2 (Z.leb_le _ _)) by lia. apply Forall2_same_length_lookup. split; [done|]. intros i x y Hx Hy. rewrite Hx in Hy. by injection Hy as ->. }
  rewrite div_u_ok by lia. cbn [mbind res_bind]. rewrite rem_u_ok by lia. cbn [mbind res_bind].
  set (c := Z.of_nat (length input)) in *. pose proof (Z.div_mod diff c ltac:(lia)) as Hdm. pose proof (Z.mod_pos_bound diff c ltac:(lia)) as Hm. assert (0 <= diff / c) by (apply Z.div_pos; lia).
  assert (exists R output', (if s <? t then increase w (length input) c t (diff / c) (diff mod c) (sort_by_key snd (zip (seq 0 (length input)) input))
     else decrease w (length input) (diff / c) (diff mod c) (sort_by_key snd (zip (seq 0 (length input)) input))) = Ok output' /\ total output' = t /\ fine input R output' /\
     R = (if s <=? t then Z.le else Z.ge)) as (R & output & -> & Htot & Hf & HR).
  { destruct (Z.ltb_spec s t) as [Hlt|Hge].
    - destruct (enumerate_fine input Z.le Hnn) as [Hf Htot]. fold s in Htot. destruct (increase_spec w (E := NormalizeError) input t (diff / c) (diff mod c) (sort_by_key snd (zip (seq 0 (length input)) input))) as (o & Hrun & Ho & Hfo); [lia|done|lia|lia|rewrite Htot; fold c; lia|exact Hf|].
      exists Z.le, o. split_and!; [exact Hrun|done|done|]. by rewrite (proj2 (Z.leb_le _ _)) by lia.
    - destruct (enumerate_fine input Z.ge Hnn) as [Hf Htot]. fold s in Htot. destruct (decrease_spec w (E := NormalizeError) input t (diff / c) (diff mod c) (sort_by_key snd (zip (seq 0 (length input)) input))) as (o & Hrun & Ho & Hfo); [lia|done|lia|lia|rewrite Htot; lia|rewrite Htot; fold c; lia|exact Hf|].
      exists Z.ge, o. split_and!; [exact Hrun|done|done|]. by rewrite (proj2 (Z.leb_gt _ _)) by lia. }
  cbn [mbind res_bind]. rewrite sum_output by (try apply (f_nonneg _ _ _ Hf); lia). cbn [mbind res_bind]. rewrite Z.add_0_l, Htot, Z.eqb_refl.
  destruct (fine_result input R output Hf) as (HF & Hsum & Hnn'). eexists. split; [done|]. split; [done|]. split; [|intros _; by rewrite Hsum].
  subst R. by destruct (s <=? t).
Qed.

(** [tcmp] reports a difference only beyond the threshold; it saturates at the ends of the type. *)
Lemma tcmp_spec w self other threshold : 0 <= self < 2 ^ w -> 0 <= other < 2 ^ w -> 0 < threshold < 2 ^ w ->
  tcmp w self other threshold = if other + threshold <? self then Gt else if self <? other - threshold then Lt else Eq.
Proof.
  intros Hs Ho Ht. unfold tcmp, saturating_add, saturating_sub. rewrite (proj2 (Z.eqb_neq _ _)), (proj2 (Z.leb_gt _ _)) by lia.
  destruct (Z.compare_spec self (Z.max 0 (other - threshold))), (Z.compare_spec self (Z.min (other + threshold) (2 ^ w - 1))), (Z.ltb_spec (other + threshold) self), (Z.ltb_spec self (other - threshold)); try lia; done.
Qed.

Module NormalizeExamples.
Lemma normalize_reaches_sum_witness : exists out, normalize 8 [10; 0; 200; 3] 50 = Ok out /\ sum_Z out = 50.
Proof.
  destruct (normalize_reaches_sum 8 [10; 0; 200; 3] 50) as (out & Hrun & _ & _ & Hs); [lia|lia|by repeat (constructor; [lia|])|].
  exists out. split; [exact Hrun|by apply Hs].
Defined.

Example normalize_runs : normalize 8 [10; 0; 200; 3] 50 = Ok [10; 0; 37; 3] /\ normalize 8 [1; 1; 1] 11 = Ok [4; 4; 3].
Proof. split; by vm_compute. Qed.

(** The empty list is returned for any sum. *)
Theorem empty_misses_sum : normalize 64 [] 1 = Ok [].
Proof. done. Qed.
End NormalizeExamples.
