(* ===== verification/MessageQueue.v ===== *)
(** * The message queue pallet: definitions

    [substrate/frame/message-queue/src/lib.rs].  Messages of several origins wait in
    queues.  A queue is a book of pages; a page is a heap of bytes with items one after the
    other, each a header and a payload.  The books with pages to be serviced are doubly
    linked in a ring.  Servicing goes around the ring and hands messages to a processor, as
    far as the weight goes; a message that is too heavy is left in its page, from which
    it can be executed on demand.

    A step of the pallet is a stateful function on [World]: the three storage items, the
    rest of the chain as far as the processor depends on it, and a trace of what the pallet
    does, latest first.  The assertions of the code ([defensive!] and [debug_assert!]) can be
    reached here, so they are no panics: a failed one is noted in the trace and the
    function goes on as it does in production. *)
From stdpp Require Import base gmap list strings.
From Stdlib Require Import ZArith Lia.
From S2P Require Import Prelude Weights.
Set Warnings "-clear-no-such-hyp".
Open Scope Z_scope.

(** ** Items and pages *)

(** Messages are lists of bytes. *)
Abbreviation Message := (list Z).

Record ItemHeader := { payload_len : Z; is_processed : bool }.

(** The codec is a crate of its own.  [size_bits] is the width of the type [Size]. *)
Class HeaderCodec := {
  size_bits : Z;
  max_encoded_len : Z;
  encode : ItemHeader -> list Z;
  decode : list Z -> option (ItemHeader * list Z);
}.

Record Page := {
  remaining : Z;
  remaining_size : Z;
  first_index : Z;
  first_ : Z;
  last_ : Z;
  heap : list Z;
}.

(** ** Books *)
Record Neighbours (Origin : Type) := { prev : Origin; next : Origin }.
Arguments prev {_}. Arguments next {_}. Arguments Build_Neighbours {_}.

Record BookState (Origin : Type) := {
  begin : Z;
  end_ : Z;
  count : Z;
  ready_neighbours : option (Neighbours Origin);
  message_count : Z;
  size_ : Z;
}.
Arguments begin {_}. Arguments end_ {_}. Arguments count {_}. Arguments ready_neighbours {_}.
Arguments message_count {_}. Arguments size_ {_}. Arguments Build_BookState {_}.

(** The resources of a queue; [storage] of the source is the number of its messages and
    their size. *)
Record QueueFootprint := { pages : Z; ready_pages : Z; footprint_count : Z; footprint_size : Z }.

Inductive ProcessMessageError := BadFormat | Corrupt | Unsupported | Overweight_ (w : Weight) | Yield | StackLimitReached_.

Inductive Error :=
| NotReapable | NoPage | NoMessage | AlreadyProcessed | Queued | InsufficientWeight_ | TemporarilyUnprocessable
| QueuePaused | RecursiveDisallowed.

Inductive ExecuteOverweightError := NotFound | EAlreadyProcessed | EInsufficientWeight | EQueuePaused | Other | ERecursiveDisallowed.

Inductive PageExecutionStatus := PageBailed | PageNoProgress | NoMore.
Inductive ItemExecutionStatus := Bailed | NoProgress | NoItem | Executed (processed : bool).
Inductive MessageExecutionStatus :=
| InsufficientWeight | Overweight | Processed | Unprocessable (permanent : bool) | StackLimitReached.

(** The origins of calls. *)
Inductive RawOrigin := Root | Signed (who : Z) | Unsigned.
Inductive DispatchError := BadOrigin | Module_ (e : Error).

(** ** The storage and the world around it *)
Section types.
Context (Origin Hash Env : Type) `{Countable Origin}.

Inductive Event :=
| ProcessingFailed (id : Hash) (origin : Origin) (error : ProcessMessageError)
| EventProcessed (id : Hash) (origin : Origin) (weight_used : Weight) (success : bool)
| OverweightEnqueued (id : Hash) (origin : Origin) (page_index message_index : Z)
| PageReaped (origin : Origin) (index : Z).

Record Storage := {
  BookStateFor : gmap Origin (BookState Origin);
  ServiceHead : option Origin;
  Pages : gmap (Origin * Z) Page;
}.

(** What is seen of the pallet: events, calls of [QueueChangeHandler], and assertions that
    fail.  The other entries have no counterpart in the code: they mark what happens to
    messages, for the statement of the theorems. *)
Inductive Effect :=
| Deposited (e : Event)
| QueueChanged (origin : Origin) (fp : QueueFootprint)
| Defensive (what : string)
| Enqueued (origin : Origin) (message : Message)
| Served (origin : Origin) (message : Message) (processed : bool)
| OnDemand (origin : Origin) (message : Message)
| Reaped (origin : Origin) (index : Z) (page : Page)
| Swept (origin : Origin).

Record World := { storage : Storage; env : Env; trace : list Effect }.

(** The calls of this pallet that a processor makes.  Those that take the service mutex
    change nothing, as it is held while a message is processed; [sweep_queue] is not one
    that a processor makes. *)
Inductive Call :=
| CallMessage (message : Message) (origin : Origin)
| CallMessages (messages : list Message) (origin : Origin).

Record Outcome := {
  out_env : Env;
  out_calls : list Call;
  out_meter : WeightMeter;
  out_id : Hash;
  out_result : bool + ProcessMessageError;
}.

(** [WeightInfo] *)
Record WeightInfo := {
  w_bump_service_head : Weight;
  w_service_queue_base : Weight;
  w_service_page_base_completion : Weight;
  w_service_page_base_no_completion : Weight;
  w_service_page_item : Weight;
  w_ready_ring_unknit : Weight;
  w_execute_overweight_page_removed : Weight;
  w_execute_overweight_page_updated : Weight;
}.

(** What a runtime configures.  [process_message] is the message processor: it sees the
    chain and the storage of this pallet. *)
Class Config := {
  HeapSize : Z;
  MaxStale : Z;
  ServiceWeight : option Weight;
  IdleMaxServiceWeight : option Weight;
  blake2_256 : Message -> Hash;
  is_paused : Env -> Origin -> bool;
  process_message : Message -> Origin -> WeightMeter -> Hash -> Env -> Storage -> Outcome;
  weights : WeightInfo;
}.
End types.
Arguments ProcessingFailed {_ _}. Arguments EventProcessed {_ _}. Arguments OverweightEnqueued {_ _}. Arguments PageReaped {_ _}.
Arguments BookStateFor {_ _ _}. Arguments ServiceHead {_ _ _}. Arguments Pages {_ _ _}. Arguments Build_Storage {_ _ _}.
Arguments Deposited {_ _}. Arguments QueueChanged {_ _}. Arguments Defensive {_ _}. Arguments Enqueued {_ _}. Arguments Served {_ _}.
Arguments OnDemand {_ _}. Arguments Reaped {_ _}. Arguments Swept {_ _}.
Arguments storage {_ _ _ _ _}. Arguments env {_ _ _ _ _}. Arguments trace {_ _ _ _ _}. Arguments Build_World {_ _ _ _ _}.
Arguments CallMessage {_}. Arguments CallMessages {_}.
Arguments out_env {_ _ _}. Arguments out_calls {_ _ _}. Arguments out_meter {_ _ _}. Arguments out_id {_ _ _}. Arguments out_result {_ _ _}.
Arguments Build_Outcome {_ _ _}.
Arguments HeapSize {_ _ _ _ _ _}. Arguments MaxStale {_ _ _ _ _ _}. Arguments ServiceWeight {_ _ _ _ _ _}. Arguments IdleMaxServiceWeight {_ _ _ _ _ _}.
Arguments blake2_256 {_ _ _ _ _ _}. Arguments is_paused {_ _ _ _ _ _}. Arguments process_message {_ _ _ _ _ _}. Arguments weights {_ _ _ _ _ _}.

Section pallet.
Context {Origin Hash Env : Type} `{Countable Origin} {codec : HeaderCodec} {T : Config Origin Hash Env}.
Abbreviation BookState := (BookState Origin).
Abbreviation World := (World Origin Hash Env).
Abbreviation Neighbours := (Neighbours Origin).

Definition set_storage (f : Storage Origin -> Storage Origin) (w : World) : World :=
  {| storage := f (storage w); env := env w; trace := trace w |}.
Definition set_env (e : Env) (w : World) : World := {| storage := storage w; env := e; trace := trace w |}.
Definition note {E} (e : Effect Origin Hash) : ST World E unit :=
  st_modify (fun w => {| storage := storage w; env := env w; trace := e :: trace w |}).

(** [defensive!(what)] and [debug_assert!(cond, what)] *)
Definition defensive {E} (what : string) : ST World E unit := note (Defensive what).
Definition debug_assert {E} (cond : bool) (what : string) : ST World E unit :=
  if cond then mret tt else defensive what.
Definition deposit_event {E} (e : Event Origin Hash) : ST World E unit := note (Deposited e).

(** *** Storage items *)
Definition default_book : BookState :=
  {| begin := 0; end_ := 0; count := 0; ready_neighbours := None; message_count := 0; size_ := 0 |}.
Definition book_of (s : Storage Origin) (origin : Origin) : BookState := default default_book (BookStateFor s !! origin).

Definition insert_book (origin : Origin) (b : BookState) (s : Storage Origin) : Storage Origin :=
  {| BookStateFor := <[origin := b]> (BookStateFor s); ServiceHead := ServiceHead s; Pages := Pages s |}.
Definition set_head (h : option Origin) (s : Storage Origin) : Storage Origin :=
  {| BookStateFor := BookStateFor s; ServiceHead := h; Pages := Pages s |}.
Definition insert_page (origin : Origin) (i : Z) (p : Page) (s : Storage Origin) : Storage Origin :=
  {| BookStateFor := BookStateFor s; ServiceHead := ServiceHead s; Pages := <[(origin, i) := p]> (Pages s) |}.
Definition remove_page (origin : Origin) (i : Z) (s : Storage Origin) : Storage Origin :=
  {| BookStateFor := BookStateFor s; ServiceHead := ServiceHead s; Pages := delete (origin, i) (Pages s) |}.

Definition get_book {E} (origin : Origin) : ST World E BookState := w ← st_get; mret (book_of (storage w) origin).
Definition put_book {E} (origin : Origin) (b : BookState) : ST World E unit := st_modify (set_storage (insert_book origin b)).
Definition get_head {E} : ST World E (option Origin) := w ← st_get; mret (ServiceHead (storage w)).
Definition put_head {E} (h : option Origin) : ST World E unit := st_modify (set_storage (set_head h)).
Definition get_page {E} (origin : Origin) (i : Z) : ST World E (option Page) := w ← st_get; mret (Pages (storage w) !! (origin, i)).
Definition put_page {E} (origin : Origin) (i : Z) (p : Page) : ST World E unit := st_modify (set_storage (insert_page origin i p)).
Definition del_page {E} (origin : Origin) (i : Z) : ST World E unit := st_modify (set_storage (remove_page origin i)).

(** *** Fields *)
Definition set_begin (x : Z) (b : BookState) : BookState :=
  {| begin := x; end_ := end_ b; count := count b; ready_neighbours := ready_neighbours b; message_count := message_count b; size_ := size_ b |}.
Definition set_end (x : Z) (b : BookState) : BookState :=
  {| begin := begin b; end_ := x; count := count b; ready_neighbours := ready_neighbours b; message_count := message_count b; size_ := size_ b |}.
Definition set_count (x : Z) (b : BookState) : BookState :=
  {| begin := begin b; end_ := end_ b; count := x; ready_neighbours := ready_neighbours b; message_count := message_count b; size_ := size_ b |}.
Definition set_neighbours (x : option Neighbours) (b : BookState) : BookState :=
  {| begin := begin b; end_ := end_ b; count := count b; ready_neighbours := x; message_count := message_count b; size_ := size_ b |}.
Definition set_messages (n sz : Z) (b : BookState) : BookState :=
  {| begin := begin b; end_ := end_ b; count := count b; ready_neighbours := ready_neighbours b; message_count := n; size_ := sz |}.

(** The types of the fields: pages are counted in [u32], messages and bytes in [u64]. *)
Definition inc32 (x : Z) : Z := saturating_add 32 x 1.
Definition dec (x : Z) : Z := saturating_sub x 1.

(** [From<BookState> for QueueFootprint] *)
Definition footprint_of {E} (book : BookState) : ST World E QueueFootprint :=
  debug_assert (begin book <=? end_ book) "Defensive subtraction";;
  mret {| pages := count book; ready_pages := saturating_sub (end_ book) (begin book);
          footprint_count := message_count book; footprint_size := size_ book |}.
Definition on_queue_changed {E} (origin : Origin) (book : BookState) : ST World E unit :=
  fp ← footprint_of book; note (QueueChanged origin fp).

(** ** Pages *)

(** [saturated_into::<Size>()], and the arithmetic of [Size]. *)
Definition to_size (x : Z) : Z := Z.min x (2 ^ size_bits - 1).
Definition size_add (x y : Z) : Z := saturating_add size_bits x y.

Definition MaxMessageLen : Z := saturating_sub HeapSize max_encoded_len.

Definition defensive_truncate_from {E} (bound : Z) (l : list Z) : ST World E (list Z) :=
  debug_assert (Z.of_nat (length l) <=? bound) "DefensiveTruncateFrom truncating";;
  mret (take (Z.to_nat bound) l).

Definition from_message {E} (message : Message) : ST World E Page :=
  let payload_len := to_size (Z.of_nat (length message)) in
  let header := {| payload_len := payload_len; is_processed := false |} in
  heap ← defensive_truncate_from HeapSize (encode header ++ message);
  mret {| remaining := 1; remaining_size := payload_len; first_index := 0; first_ := 0; last_ := 0; heap := heap |}.

(** [None] is [Err(())]. *)
Definition try_append_message {E} (self : Page) (message : Message) : ST World E (option Page) :=
  let pos := Z.of_nat (length (heap self)) in
  let data_len := max_encoded_len + Z.of_nat (length message) in
  let payload_len := to_size (Z.of_nat (length message)) in
  let header := {| payload_len := payload_len; is_processed := false |} in
  if saturating_sub HeapSize (Z.of_nat (length (heap self))) <? data_len then mret None
  else heap ← defensive_truncate_from HeapSize (heap self ++ encode header ++ message);
       mret (Some {| remaining := size_add (remaining self) 1; remaining_size := size_add (remaining_size self) payload_len;
                     first_index := first_index self; first_ := first_ self; last_ := to_size pos; heap := heap |}).

Definition peek_first {E} (self : Page) : ST World E (option Message) :=
  if last_ self <? first_ self then mret None else
  let f := Z.min (first_ self) (Z.of_nat (length (heap self))) in
  match decode (drop (Z.to_nat f) (heap self)) with
  | Some (h, item_slice) =>
      if payload_len h <=? Z.of_nat (length item_slice) then
        m ← defensive_truncate_from HeapSize (take (Z.to_nat (payload_len h)) item_slice); mret (Some m)
      else defensive "message-queue: heap corruption";; mret None
  | None => defensive "message-queue: heap corruption";; mret None
  end.

(** [heap[pos..pos + d.len()].copy_from_slice(d)] *)
Definition copy_at {E} (heap : list Z) (pos : Z) (d : list Z) : res E (list Z) :=
  if pos + Z.of_nat (length d) <=? Z.of_nat (length heap)
  then Ok (take (Z.to_nat pos) heap ++ d ++ drop (Z.to_nat pos + length d) heap) else Panic.

Definition skip_first {E} (self : Page) (is_processed' : bool) : res E Page :=
  let f := Z.min (first_ self) (Z.of_nat (length (heap self))) in
  match decode (drop (Z.to_nat f) (heap self)) with
  | Some (h, _) =>
      '(heap, remaining, remaining_size) ←
        (if is_processed' && negb (is_processed h) then
           heap ← copy_at (heap self) f (encode {| payload_len := payload_len h; is_processed := true |});
           Ok (heap, dec (remaining self), saturating_sub (remaining_size self) (payload_len h))
         else Ok (heap self, remaining self, remaining_size self));
      Ok {| remaining := remaining; remaining_size := remaining_size; first_index := size_add (first_index self) 1;
            first_ := size_add (size_add (first_ self) (to_size max_encoded_len)) (payload_len h);
            last_ := last_ self; heap := heap |}
  | None => Ok self
  end.

(** The loop of [peek_index], which goes over the items before the one asked for. *)
Fixpoint skip_items (index : nat) (pos : Z) (item_slice : list Z) : option (Z * list Z) :=
  match index with
  | O => Some (pos, item_slice)
  | S index' =>
      '(h, item_slice) ← decode item_slice;
      let item_len := payload_len h in
      if Z.of_nat (length item_slice) <? item_len then None
      else skip_items index' (pos + (max_encoded_len + item_len)) (drop (Z.to_nat item_len) item_slice)
  end.

Definition peek_index (self : Page) (index : Z) : option (Z * bool * Message) :=
  '(pos, item_slice) ← skip_items (Z.to_nat index) 0 (heap self);
  '(h, item_slice) ← decode item_slice;
  if Z.of_nat (length item_slice) <? payload_len h then None
  else Some (pos, is_processed h, take (Z.to_nat (payload_len h)) item_slice).

Definition note_processed_at_pos {E} (self : Page) (pos : Z) : res E Page :=
  if Z.of_nat (length (heap self)) <? pos then Panic else
  match decode (drop (Z.to_nat pos) (heap self)) with
  | Some (h, _) =>
      if negb (is_processed h) then
        heap ← copy_at (heap self) pos (encode {| payload_len := payload_len h; is_processed := true |});
        Ok {| remaining := dec (remaining self); remaining_size := saturating_sub (remaining_size self) (payload_len h);
              first_index := first_index self; first_ := first_ self; last_ := last_ self; heap := heap |}
      else Ok self
  | None => Ok self
  end.

Definition is_complete (self : Page) : bool := remaining self =? 0.

(** ** The ready ring *)

(** [None] is [Err(())]. *)
Definition ready_ring_knit {E} (origin : Origin) : ST World E (option Neighbours) :=
  h ← get_head;
  match h with
  | Some head =>
      head_book_state ← get_book head;
      match ready_neighbours head_book_state with
      | None => mret None
      | Some head_neighbours =>
          let tail := prev head_neighbours in
          put_book head (set_neighbours (Some {| prev := origin; next := next head_neighbours |}) head_book_state);;
          tail_book_state ← get_book tail;
          match ready_neighbours tail_book_state with
          | None => mret None
          | Some tail_neighbours =>
              put_book tail (set_neighbours (Some {| prev := prev tail_neighbours; next := origin |}) tail_book_state);;
              mret (Some {| next := head; prev := tail |})
          end
      end
  | None => put_head (Some origin);; mret (Some {| next := origin; prev := origin |})
  end.

(** [BookStateFor::mutate] of the neighbours that are there. *)
Definition mutate_neighbours {E} (origin : Origin) (f : Neighbours -> Neighbours) : ST World E unit :=
  b ← get_book origin; put_book origin (set_neighbours (f <$> ready_neighbours b) b).

Definition ready_ring_unknit {E} (origin : Origin) (neighbours : Neighbours) : ST World E unit :=
  if decide (origin = next neighbours) then
    debug_assert (bool_decide (origin = prev neighbours)) "unknitting from single item ring; outgoing must be only item";;
    put_head None
  else
    mutate_neighbours (next neighbours) (fun n => {| prev := prev neighbours; next := next n |});;
    mutate_neighbours (prev neighbours) (fun n => {| prev := prev n; next := next neighbours |});;
    h ← get_head;
    match h with
    | Some head => if decide (head = origin) then put_head (Some (next neighbours)) else mret tt
    | None => defensive "`ServiceHead` must be some if there was a ready queue"
    end.

Definition bump_service_head {E} (weight : WeightMeter) : ST World E (option Origin * WeightMeter) :=
  match WeightMeter.try_consume weight (w_bump_service_head weights) with
  | (weight, Ok _) =>
      h ← get_head;
      match h with
      | Some head =>
          head_book_state ← get_book head;
          match ready_neighbours head_book_state with
          | Some head_neighbours => put_head (Some (next head_neighbours));; mret (Some head, weight)
          | None => mret (None, weight)
          end
      | None => mret (None, weight)
      end
  | (weight, _) => mret (None, weight)
  end.

(** ** Weights *)
Definition single_msg_overhead : Weight :=
  Weight.saturating_add (Weight.saturating_add (Weight.saturating_add (Weight.saturating_add
    (w_bump_service_head weights) (w_service_queue_base weights))
    (Weight.max (w_service_page_base_completion weights) (w_service_page_base_no_completion weights)))
    (w_service_page_item weights)) (w_ready_ring_unknit weights).

Definition max_message_weight (limit : Weight) : option Weight := Weight.checked_sub limit single_msg_overhead.

(** ** Enqueueing *)
(** No room on the page or no page: a new page is linked in. *)
Definition link_new_page {E} (origin : Origin) (message : Message) (book_state : BookState) : ST World E unit :=
  let book_state := set_count (inc32 (count book_state)) (set_end (inc32 (end_ book_state)) book_state) in
  page ← from_message message;
  last ← st_lift (sub_u (end_ book_state) 1);
  put_page origin last page;;
  put_book origin book_state.

Definition do_enqueue_message {E} (origin : Origin) (message : Message) : ST World E unit :=
  note (Enqueued origin message);;
  book_state ← get_book origin;
  let book_state := set_messages (saturating_add 64 (message_count book_state) 1)
                      (saturating_add 64 (size_ book_state) (Z.of_nat (length message))) book_state in
  if begin book_state <? end_ book_state then
    debug_assert (bool_decide (is_Some (ready_neighbours book_state))) "Must be in ready ring if ready";;
    last ← st_lift (sub_u (end_ book_state) 1);
    page ← get_page origin last;
    match page with
    | None => defensive "Corruption: referenced page doesn't exist."
    | Some page =>
        page ← try_append_message page message;
        match page with
        | Some page => put_page origin last page;; put_book origin book_state
        | None => link_new_page origin message book_state
        end
    end
  else
    debug_assert (negb (bool_decide (is_Some (ready_neighbours book_state)))) "Must not be in ready ring if not ready";;
    neighbours ← ready_ring_knit origin;
    match neighbours with
    | Some neighbours => link_new_page origin message (set_neighbours (Some neighbours) book_state)
    | None => defensive "Ring state invalid when knitting";; link_new_page origin message book_state
    end.

Definition enqueue_message {E} (message : Message) (origin : Origin) : ST World E unit :=
  do_enqueue_message origin message;;
  book_state ← get_book origin;
  on_queue_changed origin book_state.

Definition enqueue_messages {E} (messages : list Message) (origin : Origin) : ST World E unit :=
  st_for (fun _ message => do_enqueue_message origin message) tt messages;;
  book_state ← get_book origin;
  on_queue_changed origin book_state.

Definition sweep_queue {E} (origin : Origin) : ST World E unit :=
  w ← st_get;
  if bool_decide (is_Some (BookStateFor (storage w) !! origin)) then
    note (Swept origin);;
    book_state ← get_book origin;
    let book_state := set_begin (end_ book_state) book_state in
    match ready_neighbours book_state with
    | Some neighbours => ready_ring_unknit origin neighbours
    | None => mret tt
    end;;
    put_book origin (set_neighbours None book_state)
  else mret tt.

Definition footprint {E} (origin : Origin) : ST World E QueueFootprint :=
  book_state ← get_book origin; footprint_of book_state.

(** ** Processing *)
Definition run_call {E} (c : Call Origin) : ST World E unit :=
  match c with
  | CallMessage message origin => enqueue_message message origin
  | CallMessages messages origin => enqueue_messages messages origin
  end.

Definition process_message_payload {E} (origin : Origin) (page_index message_index : Z) (message : Message)
    (meter : WeightMeter) (overweight_limit : Weight) : ST World E (MessageExecutionStatus * WeightMeter) :=
  let id := blake2_256 message in
  let prev_consumed := consumed meter in
  w ← st_get;
  let out := process_message message origin meter id (env w) (storage w) in
  st_modify (set_env (out_env out));;
  st_for (fun _ c => run_call c) tt (out_calls out);;
  let id := out_id out in
  let meter := out_meter out in
  match out_result out with
  | inr (Overweight_ w) =>
      if Weight.any_gt w overweight_limit then
        deposit_event (OverweightEnqueued id origin page_index message_index);; mret (Overweight, meter)
      else mret (InsufficientWeight, meter)
  | inr Yield => mret (Unprocessable false, meter)
  | inr StackLimitReached_ =>
      deposit_event (ProcessingFailed id origin StackLimitReached_);; mret (StackLimitReached, meter)
  | inr error => deposit_event (ProcessingFailed id origin error);; mret (Unprocessable true, meter)
  | inl success =>
      let weight_used := Weight.saturating_sub (consumed meter) prev_consumed in
      deposit_event (EventProcessed id origin weight_used success);; mret (Processed, meter)
  end.

(** [with_service_mutex]: [held] says whether a call of this pallet that takes the mutex is
    in progress, [recursive] is the answer in that case. *)
Definition with_service_mutex {E A} (held : bool) (recursive f : ST World E A) : ST World E A :=
  if held then recursive else f.
Definition fail {E A} (e : E) : ST World E A := st_lift (Err e).
Definition ensure {E} (cond : bool) (e : E) : ST World E unit := if cond then mret tt else fail e.

(** ** Overweight messages *)
(** The end of [do_execute_overweight_inner], when the message is dealt with. *)
Definition finish_overweight (origin : Origin) (page_index pos : Z) (payload : Message) (book_state : BookState) (page : Page) (weight_counter : WeightMeter) :
    ST World Error Weight :=
  let payload_len := Z.of_nat (length payload) in
  note (OnDemand origin payload);;
  page ← st_lift (note_processed_at_pos page pos);
  let book_state := set_messages (dec (message_count book_state)) (saturating_sub (size_ book_state) payload_len) book_state in
  '(book_state, page_weight) ←
    (if remaining page =? 0 then
       debug_assert (remaining_size page =? 0) "no messages remaining; no space taken; qed";;
       del_page origin page_index;;
       debug_assert (1 <=? count book_state) "page exists, so book must have pages";;
       mret (set_count (dec (count book_state)) book_state, w_execute_overweight_page_removed weights)
     else put_page origin page_index page;; mret (book_state, w_execute_overweight_page_updated weights));
  put_book origin book_state;;
  on_queue_changed origin book_state;;
  mret (Weight.saturating_add (consumed weight_counter) page_weight).

Definition do_execute_overweight_inner (origin : Origin) (page_index index : Z) (weight_limit : Weight) : ST World Error Weight :=
  book_state ← get_book origin;
  w ← st_get;
  ensure (negb (is_paused (env w) origin)) QueuePaused;;
  page ← get_page origin page_index;
  page ← st_lift (ok_or NoPage page);
  '(pos, is_processed, payload) ← st_lift (ok_or NoMessage (peek_index page index));
  ensure ((page_index <? begin book_state) || ((page_index =? begin book_state) && (pos <? first_ page))) Queued;;
  ensure (negb is_processed) AlreadyProcessed;;
  '(status, weight_counter) ← process_message_payload origin page_index index payload (WeightMeter.with_limit weight_limit) Weight.MAX;
  match status with
  | Overweight | InsufficientWeight => fail InsufficientWeight_
  | StackLimitReached | Unprocessable false => fail TemporarilyUnprocessable
  | Unprocessable true | Processed => finish_overweight origin page_index pos payload book_state page weight_counter
  end.

Definition do_execute_overweight (held : bool) (origin : Origin) (page_index index : Z) (weight_limit : Weight) : ST World Error Weight :=
  with_service_mutex held (fail RecursiveDisallowed) (do_execute_overweight_inner origin page_index index weight_limit).

(** [ServiceQueues::execute_overweight] *)
Definition execute_overweight (held : bool) (weight_limit : Weight) (message_origin : Origin) (page index : Z) :
    ST World ExecuteOverweightError Weight :=
  match WeightMeter.try_consume (WeightMeter.with_limit weight_limit)
          (Weight.max (w_execute_overweight_page_removed weights) (w_execute_overweight_page_updated weights)) with
  | (weight, Ok _) =>
      st_map_err (fun e => match e with
        | InsufficientWeight_ => EInsufficientWeight
        | AlreadyProcessed => EAlreadyProcessed
        | QueuePaused => EQueuePaused
        | NoPage | NoMessage | Queued => NotFound
        | RecursiveDisallowed => ERecursiveDisallowed
        | _ => Other
        end) (do_execute_overweight held message_origin page index (WeightMeter.remaining weight))
  | _ => fail EInsufficientWeight
  end.

(** ** Reaping *)
Definition cullable {E} (book_state : BookState) (page_index : Z) : res E bool :=
  let total_pages := count book_state in
  let ready_pages := Z.min (saturating_sub (end_ book_state) (begin book_state)) total_pages in
  stale_pages ← sub_u total_pages ready_pages;
  let max_stale := MaxStale in
  limit ← add_u 32 max_stale 1;
  match checked_sub stale_pages limit with
  | None => Ok false
  | Some x =>
      overflow ← add_u 32 x 1;
      square ← mul_u 32 max_stale max_stale;
      q ← div_u square overflow;
      let backlog := Z.max q max_stale in
      let watermark := saturating_sub (begin book_state) backlog in
      Ok (page_index <? watermark)
  end.

Definition do_reap_page_inner (origin : Origin) (page_index : Z) : ST World Error unit :=
  book_state ← get_book origin;
  ensure (page_index <? begin book_state) NotReapable;;
  page ← get_page origin page_index;
  page ← st_lift (ok_or NoPage page);
  ok ← (if remaining page =? 0 then mret true else st_lift (cullable book_state page_index));
  ensure ok NotReapable;;
  note (Reaped origin page_index page);;
  del_page origin page_index;;
  debug_assert (0 <? count book_state) "reaping a page implies there are pages";;
  let book_state := set_messages (saturating_sub (message_count book_state) (remaining page))
                      (saturating_sub (size_ book_state) (remaining_size page)) (set_count (dec (count book_state)) book_state) in
  put_book origin book_state;;
  on_queue_changed origin book_state;;
  deposit_event (PageReaped origin page_index).

Definition do_reap_page (held : bool) (origin : Origin) (page_index : Z) : ST World Error unit :=
  with_service_mutex held (fail RecursiveDisallowed) (do_reap_page_inner origin page_index).

(** ** Servicing *)

(** The result, with the book, the page and the meter that the function updates. *)
Definition service_page_item {E} (origin : Origin) (page_index : Z) (book_state : BookState) (page : Page)
    (weight : WeightMeter) (overweight_limit : Weight) : ST World E (ItemExecutionStatus * BookState * Page * WeightMeter) :=
  if is_complete page then mret (NoItem, book_state, page, weight) else
  match WeightMeter.try_consume weight (w_service_page_item weights) with
  | (weight, Ok _) =>
      payload ← peek_first page;
      match payload with
      | None => mret (NoItem, book_state, page, weight)
      | Some payload =>
          let payload_len := Z.of_nat (length payload) in
          put_page origin page_index page;;
          put_book origin book_state;;
          '(res, weight) ← process_message_payload origin page_index (first_index page) payload weight overweight_limit;
          book_state ← get_book origin;
          new_page ← get_page origin page_index;
          match new_page with
          | None =>
              defensive "page must exist since we just inserted it and recursive calls are not allowed to remove anything";;
              mret (NoItem, book_state, page, weight)
          | Some page =>
              match res with
              | InsufficientWeight => mret (Bailed, book_state, page, weight)
              | Unprocessable false => mret (NoProgress, book_state, page, weight)
              | _ =>
                  let is_processed := match res with Overweight => false | _ => true end in
                  note (Served origin payload is_processed);;
                  let book_state :=
                    if is_processed then set_messages (dec (message_count book_state)) (saturating_sub (size_ book_state) payload_len) book_state
                    else book_state in
                  page ← st_lift (skip_first page is_processed);
                  mret (Executed is_processed, book_state, page, weight)
              end
          end
      end
  | (weight, _) => mret (Bailed, book_state, page, weight)
  end.

(** The variables of the loop in [service_page]. *)
Record PageLoop := { l_book : BookState; l_page : Page; l_weight : WeightMeter; l_processed : Z }.

Definition service_page_round {E} (origin : Origin) (page_index : Z) (overweight_limit : Weight) (v : PageLoop) :
    ST World E (PageLoop + PageLoop * PageExecutionStatus) :=
  '(status, book_state, page, weight) ← service_page_item origin page_index (l_book v) (l_page v) (l_weight v) overweight_limit;
  let n := match status with Executed true => inc32 (l_processed v) | _ => l_processed v end in
  let v := {| l_book := book_state; l_page := page; l_weight := weight; l_processed := n |} in
  mret (match status with
        | Bailed => inr (v, PageBailed)
        | NoItem => inr (v, NoMore)
        | NoProgress => inr (v, PageNoProgress)
        | Executed _ => inl v
        end).

(** Returns how many messages were processed and the status, with the book and the meter.
    A round that goes on moves [first], which has at most 32 bits. *)
Definition service_page {E} (origin : Origin) (book_state : BookState) (weight : WeightMeter) (overweight_limit : Weight) :
    ST World E (Z * PageExecutionStatus * BookState * WeightMeter) :=
  match WeightMeter.try_consume weight (Weight.max (w_service_page_base_completion weights) (w_service_page_base_no_completion weights)) with
  | (weight, Ok _) =>
      let page_index := begin book_state in
      page ← get_page origin page_index;
      match page with
      | None => defensive "message-queue: referenced page not found";; mret (0, NoMore, book_state, weight)
      | Some page =>
          '(v, status) ← st_loop (service_page_round origin page_index overweight_limit) 32
                           {| l_book := book_state; l_page := page; l_weight := weight; l_processed := 0 |};
          book_state ←
            (if is_complete (l_page v) then
               debug_assert (match status with PageBailed => false | _ => true end) "we never bail if a page became complete";;
               del_page origin page_index;;
               debug_assert (0 <? count (l_book v)) "completing a page implies there are pages";;
               mret (set_count (dec (count (l_book v))) (l_book v))
             else put_page origin page_index (l_page v);; mret (l_book v));
          mret (l_processed v, status, book_state, l_weight v)
      end
  | (weight, _) => mret (0, PageBailed, book_state, weight)
  end.

(** The [while] loop of [service_queue], with the book, the meter and [total_processed]. *)
Definition service_queue_round {E} (origin : Origin) (overweight_limit : Weight) (v : BookState * WeightMeter * Z) :
    ST World E (BookState * WeightMeter * Z + BookState * WeightMeter * Z) :=
  let '(book_state, weight, total_processed) := v in
  if begin book_state <? end_ book_state then
    '(processed, status, book_state, weight) ← service_page origin book_state weight overweight_limit;
    let total_processed := saturating_add 32 total_processed processed in
    mret (match status with
          | PageBailed | PageNoProgress => inr (book_state, weight, total_processed)
          | NoMore => inl (set_begin (inc32 (begin book_state)) book_state, weight, total_processed)
          end)
  else mret (inr v).

Definition service_queue {E} (origin : Origin) (weight : WeightMeter) (overweight_limit : Weight) :
    ST World E (bool * option Origin * WeightMeter) :=
  match WeightMeter.try_consume weight (Weight.saturating_add (w_service_queue_base weights) (w_ready_ring_unknit weights)) with
  | (weight, Ok _) =>
      book_state ← get_book origin;
      w ← st_get;
      if is_paused (env w) origin then mret (false, next <$> ready_neighbours book_state, weight) else
      '(book_state, weight, total_processed) ← st_loop (service_queue_round origin overweight_limit) 32 (book_state, weight, 0);
      let next_ready := next <$> ready_neighbours book_state in
      book_state ←
        (if end_ book_state <=? begin book_state then
           match ready_neighbours book_state with
           | Some neighbours => ready_ring_unknit origin neighbours;; mret (set_neighbours None book_state)
           | None =>
               debug_assert (negb (0 <? total_processed)) "Freshly processed queue must have been ready";;
               mret book_state
           end
         else mret book_state);
      put_book origin book_state;;
      (if 0 <? total_processed then on_queue_changed origin book_state else mret tt);;
      mret (0 <? total_processed, next_ready, weight)
  | (weight, _) => mret (false, None, weight)
  end.

(** The loop of [service_queues], with [next], [last_no_progress] and the meter. *)
Definition service_queues_round {E} (max_weight : Weight) (v : Origin * option Origin * WeightMeter) :
    ST World E (Origin * option Origin * WeightMeter + WeightMeter) :=
  let '(next, last_no_progress, weight) := v in
  '(progressed, n, weight) ← service_queue next weight max_weight;
  mret (match n with
        | Some n =>
            if negb progressed then
              if bool_decide (last_no_progress = Some n) then inr weight
              else inl (n, match last_no_progress with None => Some next | Some o => Some o end, weight)
            else inl (n, None, weight)
        | None => inr weight
        end).

(** Each round takes weight, of which there are less than [2 ^ 65] units. *)
Definition service_queues {E} (held : bool) (weight_limit : Weight) : ST World E Weight :=
  let weight := WeightMeter.with_limit weight_limit in
  max_weight ← match max_message_weight weight_limit with
               | Some w => mret w
               | None => defensive "Not enough weight to service a single message.";; mret Weight.zero
               end;
  with_service_mutex held (mret (consumed weight))
    ('(h, weight) ← bump_service_head weight;
     match h with
     | Some next =>
         weight ← st_loop (service_queues_round max_weight) 65 (next, None, weight);
         mret (consumed weight)
     | None => mret (consumed weight)
     end).

(** ** Hooks and calls *)
Definition on_initialize {E} : ST World E Weight :=
  match ServiceWeight with Some weight_limit => service_queues false weight_limit | None => mret Weight.zero end.
Definition on_idle {E} (remaining_weight : Weight) : ST World E Weight :=
  match IdleMaxServiceWeight with
  | Some weight_limit => service_queues false (Weight.min weight_limit remaining_weight)
  | None => mret Weight.zero
  end.

Definition ensure_signed (origin : RawOrigin) : ST World DispatchError Z :=
  match origin with Signed who => mret who | _ => fail BadOrigin end.
Definition reap_page (held : bool) (origin : RawOrigin) (message_origin : Origin) (page_index : Z) : ST World DispatchError unit :=
  ensure_signed origin;; st_map_err Module_ (do_reap_page held message_origin page_index).
(** The call [execute_overweight]. *)
Definition execute_overweight_call (held : bool) (origin : RawOrigin) (message_origin : Origin) (page index : Z) (weight_limit : Weight) :
    ST World DispatchError Weight :=
  ensure_signed origin;; st_map_err Module_ (do_execute_overweight held message_origin page index weight_limit).
End pallet.
Arguments set_storage {_ _ _ _ _} _ _ /.
