(* ===== verification/MessageQueuePage.v ===== *)
(** * Pages of the message queue

    A page stands for a list of items, each a message and whether it is processed, and a
    position in it.  The operations on the heap of a page are the operations on that list. *)
From stdpp Require Import base gmap list strings.
From Stdlib Require Import ZArith Lia.
From S2P Require Import Prelude Weights MessageQueue.
Set Warnings "-clear-no-such-hyp".
Open Scope Z_scope.

(** What the codec does with headers: they have one length, and are read back. *)
Class HeaderCodecLaws (codec : HeaderCodec) : Prop := {
  size_bits_range : 8 <= size_bits <= 32;
  max_encoded_len_range : 0 < max_encoded_len < 2 ^ 8;
  encode_length h : 0 <= payload_len h < 2 ^ size_bits -> Z.of_nat (length (encode h)) = max_encoded_len;
  decode_encode h l : 0 <= payload_len h < 2 ^ size_bits -> decode (encode h ++ l) = Some (h, l);
  decode_short l : Z.of_nat (length l) < max_encoded_len -> decode l = None;
}.

Abbreviation Item := (bool * Message)%type.
Definition item_len (m : Message) : Z := Z.of_nat (length m).

Section parse.
Context {codec : HeaderCodec}.

Definition render_item (i : Item) : list Z := encode {| payload_len := item_len i.2; is_processed := i.1 |} ++ i.2.
Definition render (items : list Item) : list Z := concat (render_item <$> items).

Fixpoint parse (fuel : nat) (l : list Z) : list Item :=
  match fuel with
  | O => []
  | S fuel' =>
      match decode l with
      | Some (h, r) =>
          if payload_len h <=? Z.of_nat (length r)
          then (is_processed h, take (Z.to_nat (payload_len h)) r) :: parse fuel' (drop (Z.to_nat (payload_len h)) r)
          else []
      | None => []
      end
  end.

Definition items_of (p : Page) : list Item := parse (length (heap p)) (heap p).
End parse.

(** Messages that are not processed yet, and their bytes. *)
Definition weigh_items (f : Message -> Z) (items : list Item) : Z :=
  sum_Z ((fun i : Item => if i.1 then 0 else f i.2) <$> items).

Section page.
Context {codec : HeaderCodec} {laws : HeaderCodecLaws codec}.

Definition offset (items : list Item) (k : nat) : Z := Z.of_nat (length (render (take k items))).

Record page_ok (bound : Z) (p : Page) (items : list Item) (k : nat) : Prop := {
  ok_heap : heap p = render items;
  ok_bound : Z.of_nat (length (heap p)) <= bound;
  ok_some : items <> [];
  ok_k : (k <= length items)%nat;
  ok_first_index : first_index p = Z.of_nat k;
  ok_first : first_ p = offset items k;
  ok_last : last_ p = offset items (length items - 1);
  ok_remaining : remaining p = weigh_items (fun _ => 1) items;
  ok_remaining_size : remaining_size p = weigh_items item_len items;
}.

(** ** Lists of items *)
Lemma render_cons i items : render (i :: items) = render_item i ++ render items.
Proof. done. Qed.

Lemma render_app l1 l2 : render (l1 ++ l2) = render l1 ++ render l2.
Proof. unfold render. by rewrite fmap_app, concat_app. Qed.

Lemma weigh_app f l1 l2 : weigh_items f (l1 ++ l2) = weigh_items f l1 + weigh_items f l2.
Proof. unfold weigh_items. by rewrite fmap_app, sum_Z_app. Qed.

Lemma weigh_cons f i items : weigh_items f (i :: items) = (if i.1 then 0 else f i.2) + weigh_items f items.
Proof. done. Qed.

Lemma weigh_bound f items n : (forall m, 0 <= f m) -> (forall i, i ∈ items -> f i.2 <= n) -> 0 <= weigh_items f items <= Z.of_nat (length items) * n.
Proof.
  intros Hf. induction items as [|i items IH]; intros Hn; [done|]. rewrite weigh_cons, length_cons.
  specialize (IH ltac:(intros; apply Hn; by constructor)). pose proof (Hf i.2). pose proof (Hn i ltac:(constructor)).
  destruct i.1; nia.
Qed.

Lemma weigh_mark f items i m : items !! i = Some (false, m) -> weigh_items f (<[i := (true, m)]> items) = weigh_items f items - f m.
Proof.
  intros Hi. rewrite <- (take_drop_middle _ _ _ Hi) at 2. rewrite insert_take_drop by (by eapply lookup_lt_Some).
  rewrite !weigh_app, !weigh_cons. simpl. lia.
Qed.

Lemma weigh_mono f g items : (forall m, 0 <= f m <= g m) -> 0 <= weigh_items f items <= weigh_items g items.
Proof. intros Hfg. induction items as [|i items IH]; [done|]. rewrite !weigh_cons. specialize (Hfg i.2). destruct i.1; lia. Qed.

Section bounded.
Context (bound : Z) (Hbound : bound < 2 ^ size_bits).

Lemma size_bits_pow : 2 ^ 8 <= 2 ^ size_bits <= 2 ^ 32.
Proof. pose proof size_bits_range. split; apply Z.pow_le_mono_r; lia. Qed.

Lemma render_item_length i : item_len i.2 < 2 ^ size_bits -> Z.of_nat (length (render_item i)) = max_encoded_len + item_len i.2.
Proof. intros Hi. unfold render_item, item_len in *. rewrite length_app, Nat2Z.inj_add, encode_length by (simpl; lia). done. Qed.

(** Items fit their page, hence their headers. *)
Lemma items_short items : Z.of_nat (length (render items)) <= bound -> forall i, i ∈ items -> item_len i.2 < 2 ^ size_bits.
Proof.
  intros Hl i (l1 & l2 & ->)%list_elem_of_split. rewrite render_app, render_cons, !length_app in Hl. unfold render_item in Hl.
  rewrite length_app in Hl. unfold item_len. lia.
Qed.

Lemma offset_split items k i :
  Z.of_nat (length (render items)) <= bound -> items !! k = Some i ->
  offset items (S k) = offset items k + max_encoded_len + item_len i.2.
Proof.
  intros Hl Hk. unfold offset. rewrite (take_S_r _ _ _ Hk), render_app, length_app, Nat2Z.inj_add. rewrite render_cons.
  unfold render at 2. simpl. rewrite app_nil_r, render_item_length by (eapply items_short; [done|by eapply list_elem_of_lookup_2]). lia.
Qed.

Lemma offset_mono items j k : Z.of_nat (length (render items)) <= bound -> (j < k)%nat -> (k <= length items)%nat -> offset items j < offset items k.
Proof.
  intros Hl Hjk Hk. pose proof max_encoded_len_range. induction k as [|k IH]; [lia|].
  destruct (lookup_lt_is_Some_2 items k ltac:(lia)) as [i Hi]. rewrite (offset_split _ _ _ Hl Hi).
  pose proof (Nat2Z.is_nonneg (length i.2)). unfold item_len in *.
  destruct (decide (j = k)) as [->|]; [lia|]. specialize (IH ltac:(lia) ltac:(lia)). lia.
Qed.

Lemma offset_le items k : offset items k <= Z.of_nat (length (render items)).
Proof. unfold offset. rewrite <- (take_drop k items) at 2. rewrite render_app, length_app. lia. Qed.

Lemma offset_all items : offset items (length items) = Z.of_nat (length (render items)).
Proof. unfold offset. by rewrite firstn_all. Qed.

Lemma length_items items : Z.of_nat (length (render items)) <= bound -> Z.of_nat (length items) <= Z.of_nat (length (render items)).
Proof.
  intros Hl. assert (forall l, (forall i, i ∈ l -> item_len i.2 < 2 ^ size_bits) -> Z.of_nat (length l) <= Z.of_nat (length (render l))) as Hg.
  { clear - laws. pose proof max_encoded_len_range. induction l as [|i l IH]; intros Hi; [done|]. rewrite render_cons, length_app, length_cons.
    specialize (IH ltac:(intros; apply Hi; by constructor)). pose proof (render_item_length i (Hi i ltac:(constructor))).
    unfold item_len in *. lia. }
  apply Hg. by apply items_short.
Qed.

Lemma drop_render items k : drop (length (render (take k items))) (render items) = render (drop k items).
Proof. rewrite <- (take_drop k items) at 2. by rewrite render_app, drop_app_length. Qed.

(** The header at the position of an item. *)
Lemma decode_at items k i :
  Z.of_nat (length (render items)) <= bound -> items !! k = Some i ->
  decode (drop (Z.to_nat (offset items k)) (render items)) =
  Some ({| payload_len := item_len i.2; is_processed := i.1 |}, i.2 ++ render (drop (S k) items)).
Proof.
  intros Hl Hk. unfold offset. rewrite Nat2Z.id, drop_render, (drop_S _ _ _ Hk), render_cons. unfold render_item. rewrite <- app_assoc.
  apply decode_encode. simpl. split; [unfold item_len; lia|]. eapply items_short; [done|]. by eapply list_elem_of_lookup_2.
Qed.

Lemma decode_nil : decode [] = None.
Proof. apply decode_short. pose proof max_encoded_len_range. simpl. lia. Qed.

Lemma parse_render items fuel :
  (forall i, i ∈ items -> item_len i.2 < 2 ^ size_bits) -> (length items <= fuel)%nat -> parse fuel (render items) = items.
Proof.
  revert fuel. induction items as [|i items IH]; intros fuel Hi Hf.
  { destruct fuel; [done|]. cbn [parse]. change (render []) with (@nil Z). by rewrite decode_nil. }
  destruct fuel as [|fuel]; [simpl in Hf; lia|]. cbn [parse]. rewrite render_cons. unfold render_item. rewrite <- app_assoc.
  pose proof (Hi i ltac:(constructor)) as Hi0. rewrite decode_encode by (simpl; unfold item_len in *; lia). simpl. unfold item_len in *.
  rewrite length_app, (proj2 (Z.leb_le _ _)) by lia. rewrite Nat2Z.id, take_app_length, drop_app_length, IH;
    [by destruct i|intros; apply Hi; by constructor|simpl in Hf; lia].
Qed.

Lemma items_of_ok p items k : page_ok bound p items k -> items_of p = items.
Proof.
  intros [Hh Hl]. unfold items_of. rewrite Hh in *. apply parse_render; [by apply items_short|].
  pose proof (length_items items Hl). lia.
Qed.

(** Marking an item as processed writes its header. *)
Lemma render_mark {E} items k m :
  Z.of_nat (length (render items)) <= bound -> items !! k = Some (false, m) ->
  copy_at (E := E) (render items) (offset items k) (encode {| payload_len := item_len m; is_processed := true |}) =
    Ok (render (<[k := (true, m)]> items)) /\
  length (render (<[k := (true, m)]> items)) = length (render items).
Proof.
  intros Hl Hk. assert (item_len m < 2 ^ size_bits) as Hm.
  { apply (items_short items Hl (false, m)). by eapply list_elem_of_lookup_2. }
  assert (forall b, Z.of_nat (length (encode {| payload_len := item_len m; is_processed := b |})) = max_encoded_len) as Hlen.
  { intros b. apply encode_length. simpl. unfold item_len in *. lia. }
  assert (render items = render (take k items) ++ (encode {| payload_len := item_len m; is_processed := false |} ++ m) ++ render (drop (S k) items)) as Hr.
  { rewrite <- (take_drop_middle _ _ _ Hk) at 1. by rewrite render_app, render_cons. }
  assert (render (<[k := (true, m)]> items) = render (take k items) ++ (encode {| payload_len := item_len m; is_processed := true |} ++ m) ++ render (drop (S k) items)) as Hr'.
  { rewrite insert_take_drop by (by eapply lookup_lt_Some). by rewrite render_app, render_cons. }
  pose proof (Hlen true) as Ht. pose proof (Hlen false) as Hf.
  split; [|rewrite Hr', Hr, !length_app; lia]. unfold copy_at, offset. rewrite Hr at 1. rewrite !length_app, (proj2 (Z.leb_le _ _)) by lia.
  rewrite Nat2Z.id. f_equal. rewrite Hr', Hr, take_app_length. f_equal. rewrite <- !app_assoc. f_equal.
  rewrite drop_app_ge by lia. rewrite drop_app_ge by lia.
  replace (_ + _ - _ - _)%nat with 0%nat by lia. done.
Qed.

Lemma size_add_exact x y : x + y < 2 ^ size_bits -> size_add x y = x + y.
Proof. unfold size_add, saturating_add. lia. Qed.
Lemma to_size_exact x : x < 2 ^ size_bits -> to_size x = x.
Proof. unfold to_size. lia. Qed.
End bounded.
End page.

(** ** The operations on pages

    [HeapSize] is a value of the type [Size]; that a message fits a page is what
    [do_integrity_test] asks for. *)
Section operations.
Context {Origin Hash Env : Type} `{Countable Origin} {codec : HeaderCodec} {laws : HeaderCodecLaws codec}.
Context {T : Config Origin Hash Env} (Hheap : max_encoded_len < HeapSize < 2 ^ size_bits).
Implicit Types (w : World Origin Hash Env).

Lemma truncate_nothing {E} l w : Z.of_nat (length l) <= HeapSize -> defensive_truncate_from (E := E) HeapSize l w = (w, Ok l).
Proof.
  intros Hl. unfold defensive_truncate_from, debug_assert. rewrite (proj2 (Z.leb_le _ _)) by done. cbn. by rewrite take_ge by lia.
Qed.

Lemma max_message_len : MaxMessageLen = HeapSize - max_encoded_len.
Proof. unfold MaxMessageLen, saturating_sub. lia. Qed.

Lemma from_message_spec {E} m w : item_len m <= MaxMessageLen ->
  exists p, from_message (E := E) m w = (w, Ok p) /\ page_ok HeapSize p [(false, m)] 0.
Proof.
  rewrite max_message_len. intros Hm. pose proof max_encoded_len_range. pose proof (Nat2Z.is_nonneg (length m)).
  unfold from_message, item_len in *. rewrite to_size_exact by lia.
  assert (Z.of_nat (length (render_item (false, m))) = max_encoded_len + item_len m) as Hr by (apply render_item_length; unfold item_len; simpl; lia).
  change (encode _ ++ m) with (render_item (false, m)). unfold item_len in Hr.
  unfold mbind, st_bind. rewrite truncate_nothing by lia. eexists. split; [done|].
  assert (render [(false, m)] = render_item (false, m)) as Hr1 by (unfold render; simpl; by rewrite app_nil_r).
  split; simpl; rewrite ?Hr1; first [done|lia|unfold weigh_items, item_len; simpl; lia].
Qed.

Lemma try_append_spec {E} p items k m w : page_ok HeapSize p items k -> item_len m <= MaxMessageLen ->
  exists p', try_append_message (E := E) p m w = (w, Ok p') /\
    match p' with
    | Some p' => page_ok HeapSize p' (items ++ [(false, m)]) k
    | None => HeapSize < Z.of_nat (length (heap p)) + max_encoded_len + item_len m
    end.
Proof.
  rewrite max_message_len. intros [Hh Hb Hs Hk Hfi Hf Hla Hre Hrs] Hm. pose proof max_encoded_len_range. unfold try_append_message, item_len in *.
  rewrite to_size_exact by lia. unfold saturating_sub. case_cmp; [eexists; split; [done|]; simpl; lia|].
  assert (Z.of_nat (length (render_item (false, m))) = max_encoded_len + item_len m) as Hr by (apply render_item_length; unfold item_len; simpl; lia).
  change (encode _ ++ m) with (render_item (false, m)). unfold item_len in Hr.
  assert (render (items ++ [(false, m)]) = heap p ++ render_item (false, m)) as Hr1.
  { rewrite render_app, Hh. f_equal. unfold render. simpl. by rewrite app_nil_r. }
  unfold mbind, st_bind. rewrite truncate_nothing by (rewrite length_app; lia).
  pose proof (weigh_mono (fun _ => 1) (fun m => 1 + item_len m) items ltac:(unfold item_len; intros; lia)) as Hw1.
  pose proof (weigh_mono item_len (fun m => 1 + item_len m) items ltac:(unfold item_len; intros; lia)) as Hw2.
  assert (weigh_items (fun m => 1 + item_len m) items <= Z.of_nat (length (heap p))) as Hw.
  { rewrite Hh in Hb |- *. pose proof (items_short HeapSize (proj2 Hheap) items Hb) as Hshort. clear - Hshort laws. pose proof max_encoded_len_range.
    induction items as [|i l IH]; [done|]. rewrite weigh_cons, render_cons, length_app.
    specialize (IH ltac:(intros; apply Hshort; by constructor)). pose proof (render_item_length i (Hshort i ltac:(constructor))).
    unfold item_len in *. destruct i.1; lia. }
  eexists. split; [done|]. split; simpl; rewrite ?Hr1, ?length_app, ?weigh_app.
  - done.
  - lia.
  - by destruct items.
  - simpl. lia.
  - done.
  - rewrite Hf. unfold offset. by rewrite take_app_le by lia.
  - rewrite to_size_exact by (rewrite Hh in *; lia). unfold offset.
    replace (length items + length [(false, m)] - 1)%nat with (length items) by (simpl; lia). by rewrite take_app_length, Hh.
  - rewrite size_add_exact by lia. unfold weigh_items at 2. simpl. lia.
  - unfold item_len in *. rewrite size_add_exact by lia. unfold weigh_items at 2. simpl. lia.
Qed.

(** [first] is after [last] when there is nothing left. *)
Lemma first_last p items k : page_ok HeapSize p items k -> (last_ p <? first_ p) = bool_decide (k = length items).
Proof.
  intros [Hh Hb Hs Hk Hfi Hf Hla Hre Hrs]. rewrite Hh in Hb. assert (length items <> 0%nat) by (by destruct items). rewrite Hf, Hla.
  case_bool_decide as Hkl.
  - apply Z.ltb_lt. apply (offset_mono HeapSize (proj2 Hheap)); [done|lia|lia].
  - apply Z.ltb_ge. destruct (decide (k = length items - 1)%nat) as [->|]; [lia|].
    apply Z.lt_le_incl, (offset_mono HeapSize (proj2 Hheap)); [done|lia|lia].
Qed.

Lemma peek_first_spec {E} p items k w : page_ok HeapSize p items k ->
  peek_first (E := E) p w = (w, Ok (snd <$> items !! k)).
Proof.
  intros Hok. pose proof (first_last _ _ _ Hok) as Hfl. destruct Hok as [Hh Hb Hs Hk Hfi Hf Hla Hre Hrs]. rewrite Hh in Hb.
  unfold peek_first. rewrite Hfl. case_bool_decide as Hkl; [by rewrite lookup_ge_None_2 by lia|].
  destruct (lookup_lt_is_Some_2 items k ltac:(lia)) as [i Hi]. rewrite Hi, Hh, Hf, Z.min_l by apply offset_le.
  rewrite (decode_at HeapSize (proj2 Hheap) _ _ _ Hb Hi). cbn [payload_len]. unfold item_len. rewrite length_app, (proj2 (Z.leb_le _ _)) by lia.
  rewrite Nat2Z.id, take_app_length. unfold mbind, st_bind. rewrite truncate_nothing; [done|].
  pose proof (offset_split HeapSize (proj2 Hheap) _ _ _ Hb Hi). pose proof (offset_le items (S k)).
  assert (0 <= offset items k) by (unfold offset; lia). pose proof max_encoded_len_range. unfold item_len in *. lia.
Qed.

(** The page with the item [i] marked. *)
Lemma mark_ok p items k i m p' :
  page_ok HeapSize p items k -> items !! i = Some (false, m) ->
  heap p' = render (<[i := (true, m)]> items) -> length (heap p') = length (heap p) ->
  first_index p' = first_index p -> first_ p' = first_ p -> last_ p' = last_ p ->
  remaining p' = dec (remaining p) -> remaining_size p' = saturating_sub (remaining_size p) (item_len m) ->
  page_ok HeapSize p' (<[i := (true, m)]> items) k.
Proof.
  intros [Hh Hb Hs Hk Hfi Hf Hla Hre Hrs] Hi Hh' Hl' Hfi' Hf' Hla' Hre' Hrs'.
  assert (forall j, offset (<[i := (true, m)]> items) j = offset items j) as Hoff.
  { intros j. unfold offset. f_equal. rewrite Hh in Hb. destruct (decide (j <= i)%nat); [by rewrite take_insert_ge by lia|].
    rewrite take_insert_lt by lia. symmetry. pose proof (take_drop j items) as Hjd.
    assert (Z.of_nat (length (render (take j items))) <= HeapSize) as Hj.
    { rewrite <- Hjd, render_app, length_app in Hb. lia. }
    symmetry. eapply (@render_mark _ _ HeapSize (proj2 Hheap) unit); [done|]. by rewrite lookup_take_lt by lia. }
  pose proof (weigh_mark (fun _ => 1) _ _ _ Hi) as W1. pose proof (weigh_mark item_len _ _ _ Hi) as W2.
  pose proof (weigh_mono (fun _ => 1) (fun _ => 1) (<[i := (true, m)]> items) ltac:(intros; lia)).
  pose proof (weigh_mono item_len item_len (<[i := (true, m)]> items) ltac:(unfold item_len; intros; lia)).
  split; rewrite ?length_insert, ?Hoff; try congruence.
  - intros Hn. apply (f_equal length) in Hn. rewrite length_insert in Hn. by destruct items.
  - rewrite Hre', Hre. cbv beta in W1. unfold dec, saturating_sub. lia.
  - rewrite Hrs', Hrs. unfold saturating_sub. lia.
Qed.

Lemma skip_first_spec {E} p items k m (b : bool) :
  page_ok HeapSize p items k -> items !! k = Some (false, m) ->
  exists p', skip_first (E := E) p b = Ok p' /\ page_ok HeapSize p' (if b then <[k := (true, m)]> items else items) (S k).
Proof.
  intros Hok Hi. pose proof Hok as [Hh Hb Hs Hk Hfi Hf Hla Hre Hrs]. pose proof (lookup_lt_Some _ _ _ Hi) as Hlt.
  rewrite Hh in Hb. unfold skip_first. rewrite Hf, Hh, Z.min_l by apply offset_le. rewrite (decode_at HeapSize (proj2 Hheap) _ _ _ Hb Hi).
  cbn [payload_len is_processed negb fst snd]. pose proof (offset_split HeapSize (proj2 Hheap) _ _ _ Hb Hi) as Hoff. pose proof (offset_le items (S k)).
  pose proof size_bits_pow. pose proof max_encoded_len_range. assert (0 <= offset items k) by (unfold offset; lia). cbn [snd] in Hoff.
  assert (0 <= item_len m) by (unfold item_len; lia). pose proof (length_items HeapSize (proj2 Hheap) items Hb).
  assert (size_add (size_add (offset items k) (to_size max_encoded_len)) (item_len m) = offset items (S k)) as Hfirst.
  { rewrite (to_size_exact max_encoded_len) by lia. rewrite (size_add_exact (offset items k)) by lia. rewrite size_add_exact by lia. lia. }
  assert (size_add (first_index p) 1 = Z.of_nat (S k)) as Hindex by (rewrite Hfi, size_add_exact by lia; lia). rewrite Hfirst, Hindex.
  assert (forall p' items', page_ok HeapSize p' items' k -> length items' = length items -> (forall j, offset items' j = offset items j) ->
    page_ok HeapSize {| remaining := remaining p'; remaining_size := remaining_size p'; first_index := Z.of_nat (S k);
      first_ := offset items (S k); last_ := last_ p'; heap := heap p' |} items' (S k)) as Hnext.
  { intros p' items' [] Hll Ho. split; simpl; try done; first [lia|by rewrite Ho]. }
  rewrite andb_true_r. destruct b.
  - destruct (render_mark HeapSize (proj2 Hheap) (E := E) _ _ _ Hb Hi) as [-> Hlen]. cbn [mbind res_bind]. eexists. split; [done|].
    set (p' := {| remaining := dec (remaining p); remaining_size := saturating_sub (remaining_size p) (item_len m); first_index := first_index p;
      first_ := first_ p; last_ := last_ p; heap := render (<[k := (true, m)]> items) |}).
    assert (page_ok HeapSize p' (<[k := (true, m)]> items) k) as Hok' by (eapply (mark_ok p); [done|done|done|by rewrite Hh|done..]).
    apply (Hnext p' _ Hok'); [by rewrite length_insert|]. intros j. destruct Hok'. unfold p' in *. simpl in *.
    unfold offset. f_equal. destruct (decide (j <= k)%nat); [by rewrite take_insert_ge by lia|].
    rewrite take_insert_lt by lia. eapply (@render_mark _ _ HeapSize (proj2 Hheap) unit); [|by rewrite lookup_take_lt by lia].
    rewrite <- (take_drop j items), render_app, length_app in Hb. lia.
  - cbn [mbind res_bind]. eexists. split; [done|]. rewrite <- Hh. by apply (Hnext p).
Qed.

Lemma skip_items_spec items j pos l : Z.of_nat (length (render items)) <= HeapSize -> 
  skip_items j pos (render items ++ l) = if decide (j <= length items)%nat then skip_items 0 (pos + offset items j) (render (drop j items) ++ l)
    else skip_items (j - length items) (pos + offset items (length items)) l.
Proof.
  revert pos items. induction j as [|j IH]; intros pos items Hl; [unfold offset; simpl; by rewrite Z.add_0_r|].
  destruct items as [|i items]; [unfold offset; simpl; by rewrite Z.add_0_r|].
  pose proof (items_short HeapSize (proj2 Hheap) _ Hl i ltac:(constructor)) as Hi. cbn [skip_items]. rewrite render_cons. unfold render_item.
  rewrite <- !app_assoc, decode_encode by (unfold item_len in *; simpl; lia). cbn [mbind option_bind payload_len]. unfold item_len at 1.
  rewrite length_app, (proj2 (Z.ltb_ge _ _)) by lia. unfold item_len at 2. rewrite Nat2Z.id, drop_app_length, IH.
  2:{ rewrite render_cons, length_app in Hl. lia. }
  pose proof (render_item_length i Hi) as Hri. cbn [length drop].
  assert (forall n, offset (i :: items) (S n) = max_encoded_len + item_len i.2 + offset items n) as Ho.
  { intros n. unfold offset. rewrite firstn_cons, render_cons, length_app. lia. }
  rewrite !Ho.
destruct (decide (j <= length items)%nat), (decide (S j <= S (length items))%nat); try lia; rewrite !Z.add_assoc; done.
Qed.

Lemma peek_index_spec p items k (i : nat) : page_ok HeapSize p items k ->
  peek_index p (Z.of_nat i) = (fun it : Item => (offset items i, it.1, it.2)) <$> items !! i.
Proof.
  intros [Hh Hb]. unfold peek_index. rewrite Nat2Z.id. rewrite Hh in *.
  pose proof (skip_items_spec items i 0 [] Hb) as Hs. rewrite !app_nil_r in Hs. rewrite Hs. clear Hs. rewrite !Z.add_0_l.
  destruct (decide (i <= length items)%nat) as [Hle|].
  2:{ rewrite lookup_ge_None_2 by lia. destruct (i - length items)%nat eqn:?; [lia|]. cbn [skip_items]. by rewrite decode_nil. }
  cbn [skip_items mbind option_bind]. destruct (items !! i) as [it|] eqn:Hi.
  - rewrite (drop_S _ _ _ Hi), render_cons. unfold render_item. rewrite <- app_assoc.
    pose proof (items_short HeapSize (proj2 Hheap) _ Hb it ltac:(by eapply list_elem_of_lookup_2)) as Hit.
    rewrite decode_encode by (unfold item_len in *; simpl; lia). cbn [mbind option_bind payload_len is_processed]. unfold item_len.
    rewrite length_app, (proj2 (Z.ltb_ge _ _)) by lia. by rewrite Nat2Z.id, take_app_length.
  - apply lookup_ge_None in Hi. rewrite drop_ge by lia. change (render []) with (@nil Z). by rewrite decode_nil.
Qed.

Lemma note_processed_spec {E} p items k i m :
  page_ok HeapSize p items k -> items !! i = Some (false, m) ->
  exists p', note_processed_at_pos (E := E) p (offset items i) = Ok p' /\ page_ok HeapSize p' (<[i := (true, m)]> items) k.
Proof.
  intros Hok Hi. pose proof Hok as [Hh Hb Hs Hk Hfi Hf Hla Hre Hrs]. rewrite Hh in Hb. unfold note_processed_at_pos. rewrite Hh.
  rewrite (proj2 (Z.ltb_ge _ _)) by apply offset_le. rewrite (decode_at HeapSize (proj2 Hheap) _ _ _ Hb Hi). cbn [is_processed negb payload_len fst snd].
  destruct (render_mark HeapSize (proj2 Hheap) (E := E) _ _ _ Hb Hi) as [-> Hlen]. cbn [mbind res_bind]. eexists. split; [done|].
  eapply (mark_ok p); [done|done|done|by rewrite Hh|done..].
Qed.
End operations.
