(* ===== verification/MessageQueueSpec.v ===== *)
(** * What a message queue promises

    A queue is a sequence of messages that wait to be serviced, and a collection of messages
    that are parked: too heavy to be serviced, or swept.  [spec_step] is what the effects in
    a trace mean for the queues.  [queue_inv] relates the book and the pages of a queue to
    its specification; the lemmas at the end say that it is kept by what the operations do
    to one queue. *)
From stdpp Require Import base gmap list strings.
From Stdlib Require Import ZArith Lia.
From S2P Require Import Prelude Weights MessageQueue MessageQueuePage.
Set Warnings "-clear-no-such-hyp".
Open Scope Z_scope.

(** ** The specification *)
Record SpecQueue := { q_pending : list Message; q_parked : list Message }.

(** Takes one occurrence of a message away, if there is one. *)
Fixpoint take_one (m : Message) (l : list Message) : option (list Message) :=
  match l with
  | [] => None
  | x :: l' => if decide (x = m) then Some l' else cons x <$> take_one m l'
  end.
Fixpoint take_all (ms l : list Message) : option (list Message) :=
  match ms with [] => Some l | m :: ms' => take_one m l ≫= take_all ms' end.

Lemma take_one_perm m l l' : l ≡ₚ m :: l' -> exists r, take_one m l = Some r /\ r ≡ₚ l'.
Proof.
  revert l'. induction l as [|x l IH]; intros l' Hp; [by apply Permutation_nil_l in Hp|]. simpl. case_decide as Hx.
  - subst x. exists l. split; [done|]. by apply Permutation_cons_inv in Hp.
  - assert (m ∈ l) as (l1 & l2 & ->)%list_elem_of_split.
    { assert (m ∈ x :: l) as Hin by (rewrite Hp; constructor). by apply elem_of_cons in Hin as [->|]. }
    destruct (IH (l1 ++ l2)) as (r & Hr & Hrp); [by rewrite <- Permutation_middle|]. exists (x :: r). rewrite Hr. split; [done|].
    rewrite Hrp. apply (Permutation_cons_inv (a := m)). rewrite <- Hp, Permutation_swap. by rewrite <- Permutation_middle.
Qed.

Lemma take_all_perm ms l l' : l ≡ₚ ms ++ l' -> exists r, take_all ms l = Some r /\ r ≡ₚ l'.
Proof.
  revert l. induction ms as [|m ms IH]; intros l Hp; [by exists l|]. destruct (take_one_perm m l (ms ++ l') Hp) as (r & Hr & Hrp).
  simpl. rewrite Hr. simpl. by apply IH.
Qed.

Definition unprocessed (items : list Item) : list Message := snd <$> filter (fun i : Item => i.1 = false) items.

Section spec.
Context {Origin Hash Env : Type} `{Countable Origin} {codec : HeaderCodec}.

Definition Spec : Type := Origin -> SpecQueue.
Definition spec_init : Spec := fun _ => {| q_pending := []; q_parked := [] |}.
Definition spec_set (o : Origin) (x : SpecQueue) (q : Spec) : Spec := fun o' => if decide (o' = o) then x else q o'.

(** [None]: the effect is not one that the specification allows. *)
Definition spec_step (e : Effect Origin Hash) (q : Spec) : option Spec :=
  match e with
  | Enqueued o m => Some (spec_set o {| q_pending := q_pending (q o) ++ [m]; q_parked := q_parked (q o) |} q)
  | Served o m processed =>
      match q_pending (q o) with
      | m' :: rest =>
          if decide (m' = m) then
            Some (spec_set o {| q_pending := rest; q_parked := if processed : bool then q_parked (q o) else m :: q_parked (q o) |} q)
          else None
      | [] => None
      end
  | OnDemand o m => l ← take_one m (q_parked (q o)); Some (spec_set o {| q_pending := q_pending (q o); q_parked := l |} q)
  | Reaped o _ page =>
      l ← take_all (unprocessed (items_of page)) (q_parked (q o)); Some (spec_set o {| q_pending := q_pending (q o); q_parked := l |} q)
  | Swept o => Some (spec_set o {| q_pending := []; q_parked := q_pending (q o) ++ q_parked (q o) |} q)
  | Deposited _ | QueueChanged _ _ | Defensive _ => Some q
  end.

(** The latest effect comes first in a trace. *)
Definition replay (t : list (Effect Origin Hash)) : option Spec := foldr (fun e q => q ≫= spec_step e) (Some spec_init) t.

(** ** Queues in the storage *)
Abbreviation BookState := (BookState Origin).

(** The messages of a page from its position on, and those before it that are not processed. *)
Definition waiting (p : Page) : list Message := snd <$> drop (Z.to_nat (first_index p)) (items_of p).
Definition skipped (p : Page) : list Message := unprocessed (take (Z.to_nat (first_index p)) (items_of p)).

(** The messages that wait on the pages [lo], ..., [lo + n - 1]. *)
Definition pend (lo n : Z) (pg : Z -> option Page) : list Message :=
  concat ((fun i => from_option waiting [] (pg i)) <$> seqZ lo n).
Definition pending_of (b : BookState) (pg : Z -> option Page) : list Message := pend (begin b) (end_ b - begin b) pg.

Definition park (b : BookState) (pg : Z -> option Page) (i : Z) : list Message :=
  from_option (fun p => if i <? begin b then unprocessed (items_of p) else skipped p) [] (pg i).
Definition parked_of (b : BookState) (pg : Z -> option Page) : list Message := concat (park b pg <$> seqZ 0 (end_ b)).

(** A sum over the pages before [n]. *)
Definition page_sum (n : Z) (f : Page -> Z) (pg : Z -> option Page) : Z := sum_Z ((fun i => from_option f 0 (pg i)) <$> seqZ 0 n).

(** ** Lists of pages *)
Lemma sum_change {A} (f g : A -> Z) (l : list A) j :
  NoDup l -> j ∈ l -> (forall i, i ∈ l -> i <> j -> g i = f i) -> sum_Z (g <$> l) = sum_Z (f <$> l) - f j + g j.
Proof.
  intros Hnd. induction Hnd as [|i l Hi Hnd IH]; intros Hj Hfg; [by apply not_elem_of_nil in Hj|].
  rewrite !fmap_cons, !sum_Z_cons. apply elem_of_cons in Hj as [->|Hj].
  - rewrite (list_fmap_ext g f l); [lia|]. intros k x Hx%list_elem_of_lookup_2. apply Hfg; [by constructor|congruence].
  - rewrite (Hfg i) by (first [by constructor|congruence]).
    rewrite IH; [lia|done|]. intros k Hk. apply Hfg. by constructor.
Qed.

Lemma occ_concat {A B} `{EqDecision B} (F : A -> list B) l x : occ x (concat (F <$> l)) = sum_Z ((fun i => occ x (F i)) <$> l).
Proof. induction l as [|i l IH]; [done|]. rewrite !fmap_cons. simpl. by rewrite occ_app, IH. Qed.

Lemma seqZ_snoc n : 0 <= n -> seqZ 0 (n + 1) = seqZ 0 n ++ [n].
Proof. intros Hn. rewrite seqZ_app by lia. by rewrite Z.add_0_l. Qed.

Lemma page_sum_change (f : Page -> Z) (pg pg' : Z -> option Page) n j :
  0 <= j < n -> (forall i, i <> j -> pg' i = pg i) ->
  page_sum n f pg' = page_sum n f pg - from_option f 0 (pg j) + from_option f 0 (pg' j).
Proof.
  intros Hj Hpg. unfold page_sum.
  apply (sum_change (fun i => from_option f 0 (pg i)) (fun i => from_option f 0 (pg' i))); [apply NoDup_seqZ|by apply elem_of_seqZ|].
  intros i _ Hi. by rewrite Hpg.
Qed.

Lemma page_sum_snoc (f : Page -> Z) (pg : Z -> option Page) n : 0 <= n -> page_sum (n + 1) f pg = page_sum n f pg + from_option f 0 (pg n).
Proof. intros Hn. unfold page_sum. rewrite seqZ_snoc, fmap_app, sum_Z_app by done. simpl. lia. Qed.

Lemma page_sum_ext (f : Page -> Z) (pg pg' : Z -> option Page) n :
  (forall i, 0 <= i < n -> pg' i = pg i) -> page_sum n f pg' = page_sum n f pg.
Proof.
  intros Hpg. unfold page_sum. f_equal. apply list_fmap_ext. intros k i Hi%list_elem_of_lookup_2%elem_of_seqZ.
  by rewrite Hpg by lia.
Qed.

Lemma page_sum_bound (f : Page -> Z) (pg : Z -> option Page) n c :
  0 <= n -> 0 <= c -> (forall i p, pg i = Some p -> 0 <= f p <= c) -> 0 <= page_sum n f pg <= n * c.
Proof.
  intros Hn Hc Hf. unfold page_sum. replace n with (Z.of_nat (length (seqZ 0 n))) at 3 by (rewrite length_seqZ; lia).
  induction (seqZ 0 n) as [|i l IH]; [done|]. rewrite fmap_cons, sum_Z_cons, length_cons.
  destruct (pg i) as [p|] eqn:Hp; simpl; [pose proof (Hf _ _ Hp)|]; nia.
Qed.

Definition untouched (from : nat) (items : list Item) : Prop := forall j it, (from <= j)%nat -> items !! j = Some it -> it.1 = false.

Lemma pend_ext lo n (pg pg' : Z -> option Page) : (forall i, lo <= i < lo + n -> pg' i = pg i) -> pend lo n pg' = pend lo n pg.
Proof.
  intros Hpg. unfold pend. f_equal. apply list_fmap_ext. intros k i Hi%list_elem_of_lookup_2%elem_of_seqZ. by rewrite Hpg by lia.
Qed.

Lemma pend_snoc lo n (pg : Z -> option Page) : 0 <= n -> pend lo (n + 1) pg = pend lo n pg ++ from_option waiting [] (pg (lo + n)).
Proof. intros Hn. unfold pend. rewrite seqZ_app, fmap_app, concat_app by lia. f_equal. simpl. apply app_nil_r. Qed.

Lemma pend_cons lo n (pg : Z -> option Page) : 0 < n -> pend lo n pg = from_option waiting [] (pg lo) ++ pend (lo + 1) (n - 1) pg.
Proof. intros Hn. unfold pend. rewrite seqZ_cons by lia. done. Qed.

Lemma parked_change (b b' : BookState) (pg pg' : Z -> option Page) j x :
  end_ b' = end_ b -> 0 <= j < end_ b -> (forall i, i <> j -> pg' i = pg i /\ (i <? begin b') = (i <? begin b)) ->
  occ x (parked_of b' pg') = occ x (parked_of b pg) - occ x (park b pg j) + occ x (park b' pg' j).
Proof.
  intros He Hj Hi. unfold parked_of. rewrite He, !occ_concat.
  apply (sum_change (fun i => occ x (park b pg i)) (fun i => occ x (park b' pg' i))); [apply NoDup_seqZ|by apply elem_of_seqZ|].
  intros i _ [Hp Hb]%Hi. unfold park. by rewrite Hp, Hb.
Qed.

(** ** Items and messages *)
Lemma unprocessed_app l1 l2 : unprocessed (l1 ++ l2) = unprocessed l1 ++ unprocessed l2.
Proof. unfold unprocessed. by rewrite filter_app, fmap_app. Qed.

Lemma untouched_unprocessed items : untouched 0 items -> unprocessed items = snd <$> items.
Proof.
  induction items as [|it items IH]; intros Hu; [done|]. unfold unprocessed. rewrite filter_cons_True by (by apply (Hu 0%nat); [lia|]).
  rewrite !fmap_cons. f_equal. apply IH. intros j i _ Hj. apply (Hu (S j)); [lia|done].
Qed.

Lemma untouched_drop k items : untouched k items -> untouched 0 (drop k items).
Proof. intros Hu j it _. rewrite lookup_drop. apply Hu. lia. Qed.

Lemma untouched_split k items : untouched k items -> unprocessed items = unprocessed (take k items) ++ (snd <$> drop k items).
Proof.
  intros Hu. rewrite <- (take_drop k items) at 1. by rewrite unprocessed_app, (untouched_unprocessed (drop k items)) by (by apply untouched_drop).
Qed.

Lemma weigh_unprocessed f items : weigh_items f items = sum_Z (f <$> unprocessed items).
Proof.
  induction items as [|[d m] items IH]; [done|]. rewrite weigh_cons, IH. unfold unprocessed. rewrite filter_cons. simpl. by destruct d.
Qed.

Lemma unprocessed_mark items k m : items !! k = Some (false, m) -> unprocessed items ≡ₚ m :: unprocessed (<[k := (true, m)]> items).
Proof.
  intros Hk. rewrite <- (take_drop_middle _ _ _ Hk) at 1. rewrite insert_take_drop by (by eapply lookup_lt_Some).
  rewrite !unprocessed_app. symmetry. apply Permutation_middle.
Qed.

Section inv.
Context {T : Config Origin Hash Env}.

(** [busy]: the page that is being serviced may be complete. *)
Record queue_inv (busy : bool) (b : BookState) (pg : Z -> option Page) (sp : SpecQueue) : Prop := {
  qi_range : 0 <= begin b <= end_ b /\ end_ b < 2 ^ 32;
  qi_index : forall i p, pg i = Some p -> 0 <= i < end_ b;
  qi_page : forall i p, pg i = Some p -> page_ok HeapSize p (items_of p) (Z.to_nat (first_index p));
  qi_fresh : forall i p, pg i = Some p -> begin b <= i -> untouched (Z.to_nat (first_index p)) (items_of p);
  qi_start : forall i p, pg i = Some p -> begin b < i -> first_index p = 0;
  qi_some : forall i p, pg i = Some p -> remaining p <> 0 \/ (busy = true /\ i = begin b);
  qi_ready : forall i, begin b <= i < end_ b -> is_Some (pg i);
  qi_count : count b = page_sum (end_ b) (fun _ => 1) pg;
  qi_messages : message_count b = page_sum (end_ b) remaining pg;
  qi_size : size_ b = page_sum (end_ b) remaining_size pg;
  qi_pending : q_pending sp = pending_of b pg;
  qi_parked : q_parked sp ≡ₚ parked_of b pg;
}.

Section facts.
Context {laws : HeaderCodecLaws codec} (Hheap : max_encoded_len < HeapSize < 2 ^ size_bits).

Lemma page_view p items k : page_ok HeapSize p items k -> items_of p = items /\ Z.to_nat (first_index p) = k.
Proof. intros Hok. split; [by apply (items_of_ok HeapSize (proj2 Hheap)) in Hok|]. destruct Hok. lia. Qed.

Lemma page_ok_view p items k : page_ok HeapSize p items k -> page_ok HeapSize p (items_of p) (Z.to_nat (first_index p)).
Proof. intros Hok. by destruct (page_view _ _ _ Hok) as [-> ->]. Qed.

Lemma waiting_ok p items k : page_ok HeapSize p items k -> waiting p = snd <$> drop k items.
Proof. intros Hok. unfold waiting. by destruct (page_view _ _ _ Hok) as [-> ->]. Qed.

Lemma skipped_ok p items k : page_ok HeapSize p items k -> skipped p = unprocessed (take k items).
Proof. intros Hok. unfold skipped. by destruct (page_view _ _ _ Hok) as [-> ->]. Qed.

(** The counters of a page have at most 32 bits. *)
Lemma page_counters p items k : page_ok HeapSize p items k -> 0 <= remaining p <= 2 ^ 32 - 1 /\ 0 <= remaining_size p <= 2 ^ 32 - 1.
Proof.
  intros [Hh Hb Hs Hk Hfi Hf Hla Hre Hrs]. rewrite Hh in Hb. pose proof size_bits_pow.
  pose proof (weigh_mono (fun _ => 1) (fun m => 1 + item_len m) items ltac:(unfold item_len; intros; lia)) as Hw1.
  pose proof (weigh_mono item_len (fun m => 1 + item_len m) items ltac:(unfold item_len; intros; lia)) as Hw2.
  assert (weigh_items (fun m => 1 + item_len m) items <= Z.of_nat (length (render items))); [|lia].
  pose proof (items_short HeapSize (proj2 Hheap) items Hb) as Hshort. clear - Hshort laws. pose proof max_encoded_len_range.
  induction items as [|i l IH]; [done|]. rewrite weigh_cons, render_cons, length_app.
  specialize (IH ltac:(intros; apply Hshort; by constructor)). pose proof (render_item_length i (Hshort i ltac:(constructor))).
  unfold item_len in *. destruct i.1; lia.
Qed.

(** A page that is complete, or has nothing left from its position on. *)
Lemma complete_done p items k : page_ok HeapSize p items k -> untouched k items -> remaining p = 0 -> k = length items.
Proof.
  intros [] Hu Hr. destruct (decide (k < length items)%nat) as [Hlt|]; [|lia]. exfalso.
  destruct (lookup_lt_is_Some_2 _ _ Hlt) as [[d m] Hi]. pose proof (Hu k _ (Nat.le_refl k) Hi) as Hd. simpl in Hd. subst d.
  pose proof (weigh_mark (fun _ => 1) _ _ _ Hi) as Hw. cbv beta in Hw.
  pose proof (weigh_mono (fun _ => 1) (fun _ => 1) (<[k := (true, m)]> items) ltac:(intros; lia)). lia.
Qed.

Context (b : BookState) (pg pg' : Z -> option Page) (sp : SpecQueue).

Lemma queue_counters busy : queue_inv busy b pg sp ->
  0 <= count b <= end_ b /\ 0 <= message_count b <= end_ b * (2 ^ 32 - 1) /\ 0 <= size_ b <= end_ b * (2 ^ 32 - 1).
Proof.
  intros Q. rewrite (qi_count _ _ _ _ Q), (qi_messages _ _ _ _ Q), (qi_size _ _ _ _ Q). destruct (qi_range _ _ _ _ Q) as [? ?].
  pose proof (qi_page _ _ _ _ Q) as Hp. split; [|split].
  - pose proof (page_sum_bound (fun _ => 1) pg (end_ b) 1 ltac:(lia) ltac:(lia) ltac:(intros; lia)). lia.
  - apply page_sum_bound; [lia..|]. intros i p Hi. apply (page_counters p _ _ (Hp _ _ Hi)).
  - apply page_sum_bound; [lia..|]. intros i p Hi. apply (page_counters p _ _ (Hp _ _ Hi)).
Qed.

(** *** Enqueueing *)
Lemma append_inv m p p' items k :
  queue_inv false b pg sp -> begin b < end_ b -> pg (end_ b - 1) = Some p ->
  page_ok HeapSize p items k -> page_ok HeapSize p' (items ++ [(false, m)]) k ->
  (forall i, i <> end_ b - 1 -> pg' i = pg i) -> pg' (end_ b - 1) = Some p' ->
  queue_inv false (set_messages (saturating_add 64 (message_count b) 1) (saturating_add 64 (size_ b) (Z.of_nat (length m))) b) pg'
    {| q_pending := q_pending sp ++ [m]; q_parked := q_parked sp |}.
Proof.
  intros Q Hbe Hp Hok Hok' Hpg Hp'. destruct (queue_counters _ Q) as (Hc & Hm & Hs). destruct Q as [Hr Hi Hpa Hf Hst Hso Hrd Hco Hme Hsi Hpe Hpk].
  pose proof (page_view _ _ _ Hok) as [Vi Vk]. pose proof (page_view _ _ _ Hok') as [Vi' Vk'].
  pose proof (page_counters _ _ _ Hok') as [C1 C2]. 
  pose proof (ok_remaining _ _ _ _ Hok) as R. pose proof (ok_remaining_size _ _ _ _ Hok) as RS. pose proof (ok_k _ _ _ _ Hok) as K.
  pose proof (ok_first_index _ _ _ _ Hok) as FI. pose proof (ok_first_index _ _ _ _ Hok') as FI'.
  pose proof (ok_remaining _ _ _ _ Hok') as R'. pose proof (ok_remaining_size _ _ _ _ Hok') as RS'.
  rewrite weigh_app, weigh_cons in R', RS'. change (weigh_items _ []) with 0 in R', RS'. cbn [fst snd] in R', RS'.
  assert (forall i q, pg' i = Some q -> (i = end_ b - 1 /\ q = p') \/ (i <> end_ b - 1 /\ pg i = Some q)) as Hcase.
  { intros i q Hq. destruct (decide (i = end_ b - 1)) as [->|Hne]; [left; split; congruence|right]. split; [done|]. by rewrite <- Hpg. }
  assert (page_sum (end_ b) remaining pg' = page_sum (end_ b) remaining pg + 1 /\
    page_sum (end_ b) remaining_size pg' = page_sum (end_ b) remaining_size pg + item_len m /\
    page_sum (end_ b) (fun _ => 1) pg' = page_sum (end_ b) (fun _ => 1) pg) as (S1 & S2 & S3).
  { rewrite !(page_sum_change _ pg pg' (end_ b) (end_ b - 1)) by (first [lia|done]). rewrite Hp, Hp'. simpl. lia. }
  assert (0 <= item_len m /\ item_len m <= remaining_size p') as Hlm.
  { pose proof (weigh_mono item_len item_len items ltac:(unfold item_len; intros; lia)). unfold item_len in *. lia. }
  unfold saturating_add. unfold item_len in *. split; simpl.
  - done.
  - intros i q [[-> ->]|[? ?%Hi]]%Hcase; lia.
  - intros i q [[-> ->]|[_ Hq]]%Hcase; [by eapply page_ok_view|by eapply Hpa].
  - intros i q [[-> ->]|[_ Hq]]%Hcase Hb; [|by eapply Hf]. rewrite Vi', Vk'. intros j it Hj [Hl|[_ Hl]]%lookup_app_Some.
    + pose proof (Hf _ _ Hp ltac:(lia)) as Hfr. rewrite Vi, Vk in Hfr. by eapply Hfr.
    + destruct (j - length items)%nat; [|done]. by simplify_eq/=.
  - intros i q [[-> ->]|[_ Hq]]%Hcase Hb; [|by eapply Hst]. pose proof (Hst _ _ Hp Hb). lia.
  - intros i q [[-> ->]|[_ Hq]]%Hcase; [left|by eapply Hso]. pose proof (page_counters _ _ _ Hok). lia.
  - intros i Hbi. destruct (decide (i = end_ b - 1)) as [->|]; [by rewrite Hp'|]. rewrite Hpg by done. by apply Hrd.
  - lia.
  - nia.
  - nia.
  - rewrite Hpe. unfold pending_of. simpl. replace (end_ b - begin b) with ((end_ b - 1 - begin b) + 1) by lia.
    rewrite !pend_snoc by lia. replace (begin b + (end_ b - 1 - begin b)) with (end_ b - 1) by lia. rewrite Hp, Hp'. simpl.
    rewrite (pend_ext _ _ pg pg') by (intros; apply Hpg; lia). rewrite (waiting_ok _ _ _ Hok), (waiting_ok _ _ _ Hok'), drop_app_le by lia.
    by rewrite fmap_app, app_assoc.
  - rewrite Hpk. apply occ_perm. intros x. rewrite (parked_change b _ pg pg' (end_ b - 1)) by (first [done|lia|intros; split; [by apply Hpg|done]]).
    unfold park. rewrite Hp, Hp'. simpl. rewrite (proj2 (Z.ltb_ge (end_ b - 1) (begin b))) by lia.
    rewrite (skipped_ok _ _ _ Hok), (skipped_ok _ _ _ Hok'), take_app_le by lia. lia.
Qed.

Lemma new_page_inv m p' :
  queue_inv false b pg sp -> end_ b + 1 < 2 ^ 32 -> page_ok HeapSize p' [(false, m)] 0 ->
  (forall i, i <> end_ b -> pg' i = pg i) -> pg' (end_ b) = Some p' ->
  queue_inv false (set_count (inc32 (count b)) (set_end (inc32 (end_ b))
      (set_messages (saturating_add 64 (message_count b) 1) (saturating_add 64 (size_ b) (Z.of_nat (length m))) b))) pg'
    {| q_pending := q_pending sp ++ [m]; q_parked := q_parked sp |}.
Proof.
  intros Q He Hok' Hpg Hp'. destruct (queue_counters _ Q) as (Hc & Hm & Hs). destruct Q as [Hr Hi Hpa Hf Hst Hso Hrd Hco Hme Hsi Hpe Hpk].
  pose proof (page_view _ _ _ Hok') as [Vi' Vk']. pose proof (page_counters _ _ _ Hok') as [C1 C2].
  pose proof (ok_remaining _ _ _ _ Hok') as R'. pose proof (ok_remaining_size _ _ _ _ Hok') as RS'.
  rewrite weigh_cons in R', RS'. change (weigh_items _ []) with 0 in R', RS'. cbn [fst snd] in R', RS'.
  assert (forall i q, pg' i = Some q -> (i = end_ b /\ q = p') \/ (i <> end_ b /\ pg i = Some q)) as Hcase.
  { intros i q Hq. destruct (decide (i = end_ b)) as [->|Hne]; [left; split; congruence|right]. split; [done|]. by rewrite <- Hpg. }
  assert (forall f, page_sum (end_ b + 1) f pg' = page_sum (end_ b) f pg + f p') as Hsum.
  { intros g. rewrite page_sum_snoc by lia. rewrite Hp'. f_equal. apply page_sum_ext. intros i ?. apply Hpg. lia. }
  assert (inc32 (end_ b) = end_ b + 1) as He' by (unfold inc32, saturating_add; lia).
  unfold saturating_add, item_len in *. split; cbn [begin end_ count ready_neighbours message_count size_ set_count set_end set_messages q_pending q_parked]; rewrite ?He', ?Hsum.
  - lia.
  - intros i q [[-> ->]|[? ?%Hi]]%Hcase; lia.
  - intros i q [[-> ->]|[_ Hq]]%Hcase; [by eapply page_ok_view|by eapply Hpa].
  - intros i q [[-> ->]|[_ Hq]]%Hcase Hb; [|by eapply Hf]. rewrite Vi', Vk'. intros [|j] it _ Hl; [by simplify_eq/=|done].
  - intros i q [[-> ->]|[_ Hq]]%Hcase Hb; [|by eapply Hst]. pose proof (ok_first_index _ _ _ _ Hok'). lia.
  - intros i q [[-> ->]|[_ Hq]]%Hcase; [left; lia|by eapply Hso].
  - intros i Hbi. destruct (decide (i = end_ b)) as [->|]; [by rewrite Hp'|]. rewrite Hpg by done. apply Hrd. lia.
  - unfold inc32, saturating_add. lia.
  - nia.
  - nia.
  - rewrite Hpe. unfold pending_of. cbn [begin end_ set_count set_end set_messages]. rewrite ?He'. replace (end_ b + 1 - begin b) with ((end_ b - begin b) + 1) by lia.
    rewrite pend_snoc by lia. replace (begin b + (end_ b - begin b)) with (end_ b) by lia. rewrite Hp'. simpl.
    rewrite (pend_ext _ _ pg pg') by (intros; apply Hpg; lia). by rewrite (waiting_ok _ _ _ Hok').
  - rewrite Hpk. unfold parked_of. cbn [end_ set_count set_end set_messages]. rewrite ?He', seqZ_snoc, fmap_app, concat_app by lia. simpl.
    unfold park at 3. rewrite Hp'. simpl. rewrite (proj2 (Z.ltb_ge (end_ b) (begin b))) by lia. rewrite (skipped_ok _ _ _ Hok'). simpl. rewrite !app_nil_r.
    replace (park _ pg' <$> seqZ 0 (end_ b)) with (park b pg <$> seqZ 0 (end_ b)); [done|].
    apply list_fmap_ext. intros j i Hj%list_elem_of_lookup_2%elem_of_seqZ. unfold park. simpl. by rewrite Hpg by lia.
Qed.

(** *** Servicing *)
Lemma serve_inv (processed : bool) m p p' items k :
  queue_inv false b pg sp -> begin b < end_ b -> pg (begin b) = Some p -> page_ok HeapSize p items k -> items !! k = Some (false, m) ->
  page_ok HeapSize p' (if processed then <[k := (true, m)]> items else items) (S k) ->
  (forall i, i <> begin b -> pg' i = pg i) -> pg' (begin b) = Some p' ->
  exists rest, q_pending sp = m :: rest /\
    queue_inv true (if processed then set_messages (dec (message_count b)) (saturating_sub (size_ b) (Z.of_nat (length m))) b else b) pg'
      {| q_pending := rest; q_parked := if processed then q_parked sp else m :: q_parked sp |}.
Proof.
  intros Q Hbe Hp Hok Hi Hok' Hpg Hp'. destruct (queue_counters _ Q) as (Hc & Hm & Hs). destruct Q as [Hr Hix Hpa Hf Hst Hso Hrd Hco Hme Hsi Hpe Hpk].
  pose proof (page_view _ _ _ Hok) as [Vi Vk]. pose proof (page_view _ _ _ Hok') as [Vi' Vk']. pose proof (lookup_lt_Some _ _ _ Hi) as Hlt.
  assert (forall i q, pg' i = Some q -> (i = begin b /\ q = p') \/ (i <> begin b /\ pg i = Some q)) as Hcase.
  { intros i q Hq. destruct (decide (i = begin b)) as [->|Hne]; [left; split; congruence|right]. split; [done|]. by rewrite <- Hpg. }
  assert (length (if processed then <[k := (true, m)]> items else items) = length items) as Hlen by (destruct processed; [apply length_insert|done]).
  assert (forall f, weigh_items f (if processed then <[k := (true, m)]> items else items) = weigh_items f items - (if processed then f m else 0)) as Hwg.
  { intros f. destruct processed; [by apply weigh_mark|lia]. }
  assert (drop (S k) (if processed then <[k := (true, m)]> items else items) = drop (S k) items) as Hdrop.
  { destruct processed; [by rewrite drop_insert_lt by lia|done]. }
  pose proof (ok_remaining _ _ _ _ Hok) as R. pose proof (ok_remaining_size _ _ _ _ Hok) as RS.
  pose proof (ok_remaining _ _ _ _ Hok') as R'. pose proof (ok_remaining_size _ _ _ _ Hok') as RS'. rewrite Hwg in R', RS'.
  pose proof (page_counters _ _ _ Hok') as [C1 C2].
  assert (forall f, page_sum (end_ b) f pg' = page_sum (end_ b) f pg - f p + f p') as Hsum.
  { intros f. rewrite (page_sum_change _ pg pg' (end_ b) (begin b)) by (first [lia|done]). by rewrite Hp, Hp'. }
  assert (waiting p = m :: waiting p') as Hwait.
  { rewrite (waiting_ok _ _ _ Hok), (waiting_ok _ _ _ Hok'), Hdrop, (drop_S _ _ _ Hi). done. }
  exists (waiting p' ++ pend (begin b + 1) (end_ b - begin b - 1) pg). split.
  { rewrite Hpe. unfold pending_of. rewrite pend_cons by lia. rewrite Hp. simpl. by rewrite Hwait. }
  set (b' := if processed then set_messages _ _ b else b).
  assert (begin b' = begin b /\ end_ b' = end_ b /\ count b' = count b) as (Eb & Ee & Ec) by (unfold b'; by destruct processed).
  split; rewrite ?Eb, ?Ee, ?Ec, ?Hsum; cbn [q_pending q_parked].
  - done.
  - intros i q [[-> ->]|[? ?%Hix]]%Hcase; lia.
  - intros i q [[-> ->]|[_ Hq]]%Hcase; [by eapply page_ok_view|by eapply Hpa].
  - intros i q [[-> ->]|[_ Hq]]%Hcase Hb; [|by eapply Hf]. rewrite Vi', Vk'. pose proof (Hf _ _ Hp ltac:(lia)) as Hfr. rewrite Vi, Vk in Hfr.
    intros j it Hj Hl. apply (Hfr j); [lia|]. destruct processed; [by rewrite list_lookup_insert_ne in Hl by lia|done].
  - intros i q [[-> ->]|[_ Hq]]%Hcase Hb; [lia|by eapply Hst].
  - intros i q [[-> ->]|[_ Hq]]%Hcase; [by right|]. destruct (Hso _ _ Hq) as [|[? ?]]; [by left|done].
  - intros i Hbi. destruct (decide (i = begin b)) as [->|]; [by rewrite Hp'|]. rewrite Hpg by done. by apply Hrd.
  - lia.
  - unfold b', dec, saturating_sub. destruct processed; simpl; [|lia]. rewrite Hme. cbv beta in R'.
    pose proof (page_sum_bound remaining pg' (end_ b) (2 ^ 32 - 1) ltac:(lia) ltac:(lia)) as Hbd.
    rewrite Hsum in Hbd. enough (0 <= page_sum (end_ b) remaining pg - remaining p + remaining p') by lia. apply Hbd.
    intros i q [[-> ->]|[_ Hq]]%Hcase; [done|]. by apply (page_counters _ _ _ (Hpa _ _ Hq)).
  - unfold b', saturating_sub. destruct processed; simpl; [|lia]. rewrite Hsi. change (Z.of_nat (length m)) with (item_len m).
    pose proof (page_sum_bound remaining_size pg' (end_ b) (2 ^ 32 - 1) ltac:(lia) ltac:(lia)) as Hbd.
    rewrite Hsum in Hbd. enough (0 <= page_sum (end_ b) remaining_size pg - remaining_size p + remaining_size p') by lia. apply Hbd.
    intros i q [[-> ->]|[_ Hq]]%Hcase; [done|]. by apply (page_counters _ _ _ (Hpa _ _ Hq)).
  - unfold pending_of. rewrite Eb, Ee, (pend_cons (begin b)) by lia. rewrite Hp'. simpl. f_equal. symmetry. apply pend_ext. intros; apply Hpg; lia.
  - apply occ_perm. intros x. rewrite (parked_change b b' pg pg' (begin b)) by (first [done|lia|intros; split; [by apply Hpg|by rewrite Eb]]).
    unfold park. rewrite Hp, Hp', Eb. simpl. rewrite Z.ltb_irrefl. rewrite (skipped_ok _ _ _ Hok), (skipped_ok _ _ _ Hok').
    apply occ_perm with (x := x) in Hpk. destruct processed.
    + rewrite (take_S_r _ _ (true, m)) by (by rewrite list_lookup_insert_eq). rewrite take_insert_ge, unprocessed_app, occ_app by lia.
      unfold unprocessed at 3. simpl. lia.
    + rewrite (take_S_r _ _ (false, m)) by done. rewrite unprocessed_app, occ_app. unfold unprocessed at 3. simpl. lia.
Qed.

Lemma remaining_unprocessed p items k : page_ok HeapSize p items k -> remaining p = Z.of_nat (length (unprocessed items)).
Proof.
  intros Hok. rewrite (ok_remaining _ _ _ _ Hok), weigh_unprocessed. induction (unprocessed items) as [|m l IH]; [done|].
  rewrite fmap_cons, sum_Z_cons, IH, length_cons. lia.
Qed.

Lemma complete_empty p items k : page_ok HeapSize p items k -> remaining p = 0 -> unprocessed items = [] /\ remaining_size p = 0.
Proof.
  intros Hok Hr. rewrite (remaining_unprocessed _ _ _ Hok) in Hr. assert (unprocessed items = []) as Hu by (by apply length_zero_iff_nil; lia).
  split; [done|]. by rewrite (ok_remaining_size _ _ _ _ Hok), weigh_unprocessed, Hu.
Qed.

Lemma waiting_nil p items k : page_ok HeapSize p items k -> waiting p = [] -> skipped p = unprocessed items.
Proof.
  intros Hok Hw. rewrite (waiting_ok _ _ _ Hok) in Hw. rewrite (skipped_ok _ _ _ Hok). apply fmap_nil_inv in Hw.
  by rewrite <- (take_drop k items) at 2; rewrite Hw, app_nil_r.
Qed.

(** The page is left when nothing waits on it; it is removed if it is complete. *)
Lemma next_page_inv p :
  queue_inv true b pg sp -> begin b < end_ b -> pg (begin b) = Some p -> waiting p = [] ->
  (forall i, i <> begin b -> pg' i = pg i) -> pg' (begin b) = (if remaining p =? 0 then None else Some p) ->
  queue_inv false (set_begin (inc32 (begin b)) (if remaining p =? 0 then set_count (dec (count b)) b else b)) pg' sp.
Proof.
  intros Q Hbe Hp Hw Hpg Hp'. destruct (queue_counters _ Q) as (Hc & _). destruct Q as [Hr Hix Hpa Hf Hst Hso Hrd Hco Hme Hsi Hpe Hpk].
  pose proof (Hpa _ _ Hp) as Hok. pose proof (waiting_nil _ _ _ Hok Hw) as Hsk. pose proof (page_counters _ _ _ Hok) as [C1 C2].
  assert (inc32 (begin b) = begin b + 1) as Hin by (unfold inc32, saturating_add; lia). rewrite Hin. clear Hin.
  assert (forall i q, pg' i = Some q -> (i = begin b /\ q = p /\ remaining p <> 0) \/ (i <> begin b /\ pg i = Some q)) as Hcase.
  { intros i q Hq. destruct (decide (i = begin b)) as [->|Hne]; [left|right; split; [done|]; by rewrite <- Hpg].
    rewrite Hp' in Hq. destruct (Z.eqb_spec (remaining p) 0); by simplify_eq. }
  assert (forall i q, pg' i = Some q -> pg i = Some q) as Hsub by (intros i q [(-> & -> & _)|[_ Hq]]%Hcase; done).
  assert (forall f, (remaining p = 0 -> f p = 0) -> page_sum (end_ b) f pg' = page_sum (end_ b) f pg) as Hsum.
  { intros f Hz. rewrite (page_sum_change _ pg pg' (end_ b) (begin b)) by (first [lia|done]). rewrite Hp, Hp'.
    destruct (Z.eqb_spec (remaining p) 0); simpl; [rewrite Hz by done|]; lia. }
  assert (page_sum (end_ b) (fun _ => 1) pg' = page_sum (end_ b) (fun _ => 1) pg - if remaining p =? 0 then 1 else 0) as Hcount.
  { rewrite (page_sum_change _ pg pg' (end_ b) (begin b)) by (first [lia|done]). rewrite Hp, Hp'. destruct (remaining p =? 0); simpl; lia. }
  pose proof (page_sum_bound (fun _ => 1) pg' (end_ b) 1 ltac:(lia) ltac:(lia) ltac:(intros; lia)) as Hcb.
  set (b' := set_begin _ _). assert (begin b' = begin b + 1 /\ end_ b' = end_ b /\ message_count b' = message_count b /\ size_ b' = size_ b /\
    count b' = count b - if remaining p =? 0 then 1 else 0) as (Eb & Ee & Em & Es & Ec).
  { unfold b'. destruct (remaining p =? 0); simpl; [|by rewrite Z.sub_0_r]. unfold dec, saturating_sub. split_and!; [done..|lia]. }
  split; rewrite ?Eb, ?Ee, ?Em, ?Es, ?Ec.
  - lia.
  - intros i q Hq%Hsub. by eapply Hix.
  - intros i q Hq%Hsub. by eapply Hpa.
  - intros i q Hq%Hsub Hb. eapply Hf; [done|lia].
  - intros i q Hq%Hsub Hb. eapply Hst; [done|lia].
  - intros i q [(-> & -> & ?)|[? Hq]]%Hcase; [by left|]. destruct (Hso _ _ Hq) as [|[_ ?]]; [by left|done].
  - intros i Hbi. rewrite Hpg by lia. apply Hrd. lia.
  - lia.
  - rewrite Hsum; [done|tauto].
  - rewrite Hsum; [done|]. intros Hz. by destruct (complete_empty _ _ _ Hok Hz).
  - rewrite Hpe. unfold pending_of. rewrite Eb, Ee, pend_cons by lia. rewrite Hp. simpl. rewrite Hw. simpl.
    replace (end_ b - (begin b + 1)) with (end_ b - begin b - 1) by lia. symmetry. apply pend_ext. intros; apply Hpg; lia.
  - rewrite Hpk. apply occ_perm. intros x. rewrite (parked_change b b' pg pg' (begin b)); [|done|lia|].
    2:{ intros i Hi. split; [by apply Hpg|]. rewrite Eb. repeat case_cmp; done || lia. }
    unfold park. rewrite Hp, Hp', Eb. simpl. rewrite Z.ltb_irrefl, (proj2 (Z.ltb_lt (begin b) (begin b + 1))) by lia.
    destruct (Z.eqb_spec (remaining p) 0) as [Hz|]; simpl; rewrite Hsk; [|lia]. destruct (complete_empty _ _ _ Hok Hz) as [-> _]. simpl. lia.
Qed.

Lemma busy_done : queue_inv true b pg sp -> (forall p, pg (begin b) = Some p -> remaining p <> 0) -> queue_inv false b pg sp.
Proof.
  intros [Hr Hix Hpa Hf Hst Hso Hrd Hco Hme Hsi Hpe Hpk] Hd. split; try done. intros i p Hp. left.
  destruct (Hso _ _ Hp) as [|[_ ->]]; [done|]. by apply Hd.
Qed.

Lemma busy_start : queue_inv false b pg sp -> queue_inv true b pg sp.
Proof.
  intros [Hr Hix Hpa Hf Hst Hso Hrd Hco Hme Hsi Hpe Hpk]. split; try done. intros i p Hp. left. destruct (Hso _ _ Hp) as [|[? _]]; done.
Qed.

(** *** Sweeping *)
Lemma sweep_inv : queue_inv false b pg sp ->
  queue_inv false (set_begin (end_ b) b) pg {| q_pending := []; q_parked := q_pending sp ++ q_parked sp |}.
Proof.
  intros [Hr Hix Hpa Hf Hst Hso Hrd Hco Hme Hsi Hpe Hpk].
  split; cbn [begin end_ count ready_neighbours message_count size_ set_begin q_pending q_parked]; try done.
  - lia.
  - intros i p Hp ?. apply Hix in Hp. lia.
  - intros i p Hp ?. apply Hix in Hp. lia.
  - intros i p Hp. left. destruct (Hso _ _ Hp) as [|[? _]]; done.
  - intros i ?. lia.
  - unfold pending_of. simpl. by rewrite Z.sub_diag.
  - rewrite Hpe, Hpk. apply occ_perm. intros x. unfold pending_of, pend, parked_of. rewrite occ_app, !occ_concat. cbn [end_ set_begin].
    assert (seqZ 0 (end_ b) = seqZ 0 (begin b) ++ seqZ (begin b) (end_ b - begin b)) as ->.
    { rewrite <- (seqZ_app 0 (begin b)) by lia. f_equal. lia. }
    rewrite !fmap_app, !sum_Z_app.
    assert (forall i, 0 <= i < begin b -> park (set_begin (end_ b) b) pg i = park b pg i) as H1.
    { intros i Hi. unfold park. simpl. by rewrite !(proj2 (Z.ltb_lt _ _)) by lia. }
    assert (forall i, begin b <= i < end_ b -> occ x (park (set_begin (end_ b) b) pg i) = occ x (from_option waiting [] (pg i)) + occ x (park b pg i)) as H2.
    { intros i Hi. unfold park. simpl. rewrite (proj2 (Z.ltb_lt _ _)), (proj2 (Z.ltb_ge _ _)) by lia. destruct (pg i) as [p|] eqn:Hp; [|done]. simpl.
      unfold waiting, skipped. rewrite (untouched_split _ _ (Hf _ _ Hp ltac:(lia))), occ_app. lia. }
    rewrite (list_fmap_ext (fun i => occ x (park (set_begin (end_ b) b) pg i)) (fun i => occ x (park b pg i)) (seqZ 0 (begin b))).
    2:{ intros j i Hj%list_elem_of_lookup_2%elem_of_seqZ. by rewrite H1 by lia. }
    assert (forall l, (forall i, i ∈ l -> begin b <= i < end_ b) -> sum_Z ((fun i => occ x (park (set_begin (end_ b) b) pg i)) <$> l) =
      sum_Z ((fun i => occ x (from_option waiting [] (pg i))) <$> l) + sum_Z ((fun i => occ x (park b pg i)) <$> l)) as H3.
    { induction l as [|i l IH]; intros Hl; [done|]. rewrite !fmap_cons, !sum_Z_cons, H2, IH by (intros; apply Hl; by constructor). lia. }
    rewrite H3; [lia|]. intros i Hi%elem_of_seqZ. lia.
Qed.

(** *** Parked messages that leave their page *)
Lemma shrink_inv (b' : BookState) j p (np : option Page) ms l :
  queue_inv false b pg sp -> pg j = Some p -> j <= begin b ->
  (forall i, i <> j -> pg' i = pg i) -> pg' j = np ->
  begin b' = begin b -> end_ b' = end_ b -> count b' = count b - 1 + from_option (fun _ => 1) 0 np ->
  message_count b' = message_count b - remaining p + from_option remaining 0 np ->
  size_ b' = size_ b - remaining_size p + from_option remaining_size 0 np ->
  match np with
  | Some p' => page_ok HeapSize p' (items_of p') (Z.to_nat (first_index p')) /\ remaining p' <> 0 /\
      (j = begin b -> waiting p' = waiting p /\ untouched (Z.to_nat (first_index p')) (items_of p'))
  | None => j < begin b
  end ->
  park b pg j ≡ₚ ms ++ park b' pg' j -> q_parked sp ≡ₚ ms ++ l ->
  queue_inv false b' pg' {| q_pending := q_pending sp; q_parked := l |}.
Proof.
  intros Q Hp Hj Hpg Hp' Eb Ee Ec Em Es Hnp Hpark Hl. destruct Q as [Hr Hix Hpa Hf Hst Hso Hrd Hco Hme Hsi Hpe Hpk].
  pose proof (Hix _ _ Hp) as Hjr.
  assert (forall i q, pg' i = Some q -> (i = j /\ np = Some q) \/ (i <> j /\ pg i = Some q)) as Hcase.
  { intros i q Hq. destruct (decide (i = j)) as [->|Hne]; [left; split; congruence|right]. split; [done|]. by rewrite <- Hpg. }
  assert (forall f, page_sum (end_ b) f pg' = page_sum (end_ b) f pg - f p + from_option f 0 np) as Hsum.
  { intros f. rewrite (page_sum_change _ pg pg' (end_ b) j) by (first [lia|done]). by rewrite Hp, Hp'. }
  split; rewrite ?Eb, ?Ee, ?Hsum; cbn [q_pending q_parked].
  - done.
  - intros i q [[-> ->]|[? ?%Hix]]%Hcase; lia.
  - intros i q [[-> ->]|[_ Hq]]%Hcase; [apply Hnp|by eapply Hpa].
  - intros i q [[-> ->]|[_ Hq]]%Hcase Hb; [apply Hnp; lia|by eapply Hf].
  - intros i q [[-> ->]|[_ Hq]]%Hcase Hb; [lia|by eapply Hst].
  - intros i q [[-> ->]|[_ Hq]]%Hcase; [left; apply Hnp|by eapply Hso].
  - intros i Hbi. destruct (decide (i = j)) as [->|]; [|rewrite Hpg by done; by apply Hrd]. rewrite Hp'. destruct np; [done|lia].
  - lia.
  - lia.
  - lia.
  - rewrite Hpe. unfold pending_of. rewrite Eb, Ee. destruct (decide (j = begin b /\ begin b < end_ b)) as [[-> Hlt]|Hn].
    + rewrite !(pend_cons (begin b)) by lia. rewrite Hp, Hp'. destruct np as [p'|]; [|lia]. simpl. destruct Hnp as (_ & _ & Hw).
      destruct Hw as [-> _]; [done|]. f_equal. symmetry. apply pend_ext. intros; apply Hpg; lia.
    + symmetry. apply pend_ext. intros i Hi. apply Hpg. lia.
  - apply occ_perm. intros x. rewrite (parked_change b b' pg pg' j); [|done|lia|intros i Hi; split; [by apply Hpg|by rewrite Eb]].
    apply occ_perm with (x := x) in Hpark, Hl, Hpk. rewrite occ_app in Hpark, Hl. lia.
Qed.

Lemma page_le {busy} f j p : queue_inv busy b pg sp -> pg j = Some p -> (forall i q, pg i = Some q -> 0 <= f q) -> f p <= page_sum (end_ b) f pg.
Proof.
  intros Q Hp Hf. pose proof (qi_index _ _ _ _ Q _ _ Hp) as Hj. unfold page_sum.
  assert (j ∈ seqZ 0 (end_ b)) as Hin by (apply elem_of_seqZ; lia).
  pose proof (sum_change (fun i => from_option f 0 (pg i)) (fun i => if decide (i = j) then 0 else from_option f 0 (pg i)) (seqZ 0 (end_ b)) j
    (NoDup_seqZ _ _) Hin ltac:(intros; cbv beta; by rewrite decide_False by done)) as Hs.
  cbv beta in Hs. rewrite decide_True, Hp in Hs by done. simpl in Hs.
  pose proof (sum_Z_nonneg (fun i => if decide (i = j) then 0 else from_option f 0 (pg i)) (seqZ 0 (end_ b))) as Hn.
  enough (0 <= sum_Z ((fun i => if decide (i = j) then 0 else from_option f 0 (pg i)) <$> seqZ 0 (end_ b))) by lia. apply Hn.
  intros i _. case_decide; [done|]. destruct (pg i) as [q|] eqn:Hq; [by apply (Hf i)|done].
Qed.

Lemma page_le_counters {busy} j p : queue_inv busy b pg sp -> pg j = Some p ->
  1 <= count b /\ remaining p <= message_count b /\ remaining_size p <= size_ b.
Proof.
  intros Q Hp. rewrite (qi_count _ _ _ _ Q), (qi_messages _ _ _ _ Q), (qi_size _ _ _ _ Q).
  split_and!; [apply (page_le (fun _ => 1) j p Q Hp); intros; lia|apply (page_le _ j p Q Hp)..];
    intros i q Hi; apply (page_counters _ _ _ (qi_page _ _ _ _ Q _ _ Hi)).
Qed.

Lemma parked_split j p ms r : queue_inv false b pg sp -> pg j = Some p -> park b pg j ≡ₚ ms ++ r -> exists l, q_parked sp ≡ₚ ms ++ l.
Proof.
  intros Q Hp Hpk. pose proof (qi_index _ _ _ _ Q _ _ Hp) as Hj.
  assert (j ∈ seqZ 0 (end_ b)) as (l1 & l2 & Hl)%list_elem_of_split by (apply elem_of_seqZ; lia).
  exists (r ++ concat (park b pg <$> l1) ++ concat (park b pg <$> l2)). rewrite (qi_parked _ _ _ _ Q). unfold parked_of.
  rewrite Hl, fmap_app, concat_app, fmap_cons. simpl. rewrite Hpk. solve_perm.
Qed.

Lemma demand_inv m p p' items k i j :
  queue_inv false b pg sp -> pg j = Some p -> page_ok HeapSize p items k -> items !! i = Some (false, m) ->
  j < begin b \/ (j = begin b /\ (i < k)%nat) -> page_ok HeapSize p' (<[i := (true, m)]> items) k -> (remaining p' = 0 -> j < begin b) ->
  (forall n, n <> j -> pg' n = pg n) -> pg' j = (if remaining p' =? 0 then None else Some p') ->
  exists l, take_one m (q_parked sp) = Some l /\
    queue_inv false (let b := set_messages (dec (message_count b)) (saturating_sub (size_ b) (Z.of_nat (length m))) b in
                     if remaining p' =? 0 then set_count (dec (count b)) b else b) pg'
      {| q_pending := q_pending sp; q_parked := l |}.
Proof.
  intros Q Hp Hok Hi Hj Hok' Hz Hpg Hp'. destruct (page_le_counters _ _ Q Hp) as (L1 & L2 & L3).
  pose proof (page_view _ _ _ Hok) as [Vi Vk]. pose proof (page_view _ _ _ Hok') as [Vi' Vk'].
  pose proof (page_counters _ _ _ Hok') as [C1' C2'].
  assert (remaining p' = remaining p - 1 /\ remaining_size p' = remaining_size p - item_len m) as [R RS].
  { rewrite (ok_remaining _ _ _ _ Hok), (ok_remaining _ _ _ _ Hok'), (ok_remaining_size _ _ _ _ Hok), (ok_remaining_size _ _ _ _ Hok').
    split; by rewrite (weigh_mark _ _ _ _ Hi). }
  match goal with |- exists l, _ /\ queue_inv false ?x _ _ => set (b' := x) end.
  assert (begin b' = begin b /\ end_ b' = end_ b /\ message_count b' = message_count b - 1 /\ size_ b' = size_ b - item_len m /\
    count b' = count b - if remaining p' =? 0 then 1 else 0) as (Eb & Ee & Em & Es & Ec).
  { unfold b', dec, saturating_sub, item_len in *. destruct (Z.eqb_spec (remaining p') 0); simpl; unfold dec, saturating_sub; lia. }
  assert (park b pg j ≡ₚ [m] ++ park b' pg' j) as Hpark.
  { unfold park. rewrite Hp, Hp', Eb. simpl. rewrite Vi. destruct (Z.ltb_spec j (begin b)) as [Hlt|Hge].
    - rewrite (unprocessed_mark _ _ _ Hi). apply perm_skip. destruct (Z.eqb_spec (remaining p') 0) as [H0|]; [|by simpl; rewrite Vi'].
      by destruct (complete_empty _ _ _ Hok' H0) as [-> _].
    - destruct Hj as [|[_ Hik]]; [lia|]. destruct (Z.eqb_spec (remaining p') 0) as [H0|]; [lia|]. simpl.
      rewrite (skipped_ok _ _ _ Hok), (skipped_ok _ _ _ Hok'), take_insert_lt by lia. apply unprocessed_mark. by rewrite lookup_take_lt by lia. }
  destruct (parked_split _ _ _ _ Q Hp Hpark) as [l0 Hl0]. destruct (take_one_perm m _ _ Hl0) as (l & Hl & Hll). exists l. split; [done|].
  eapply (shrink_inv b' j p _ [m]); [done|done|lia|done|done|done|done|..].
  - destruct (Z.eqb_spec (remaining p') 0); simpl in *; lia.
  - destruct (Z.eqb_spec (remaining p') 0); simpl in *; lia.
  - destruct (Z.eqb_spec (remaining p') 0) as [H0|]; simpl in *; [|lia]. destruct (complete_empty _ _ _ Hok' H0) as [_ ?]. lia.
  - destruct (Z.eqb_spec (remaining p') 0) as [H0|Hn]; [by apply Hz|]. split_and!; [by eapply page_ok_view|done|]. intros ->.
    destruct Hj as [|[_ Hik]]; [lia|]. rewrite (waiting_ok _ _ _ Hok), (waiting_ok _ _ _ Hok'), drop_insert_lt by lia. split; [done|].
    rewrite Vi', Vk'. pose proof (qi_fresh _ _ _ _ Q _ _ Hp ltac:(lia)) as Hfr. rewrite Vi, Vk in Hfr. intros n it Hn' Hl'.
    apply (Hfr n); [done|]. by rewrite list_lookup_insert_ne in Hl' by lia.
  - done.
  - by rewrite Hl0, Hll.
Qed.

(** *** Reaping *)
Lemma reap_inv p j :
  queue_inv false b pg sp -> pg j = Some p -> j < begin b -> (forall n, n <> j -> pg' n = pg n) -> pg' j = None ->
  exists l, take_all (unprocessed (items_of p)) (q_parked sp) = Some l /\
    queue_inv false (set_messages (saturating_sub (message_count b) (remaining p)) (saturating_sub (size_ b) (remaining_size p))
                       (set_count (dec (count b)) b)) pg' {| q_pending := q_pending sp; q_parked := l |}.
Proof.
  intros Q Hp Hj Hpg Hp'. destruct (page_le_counters _ _ Q Hp) as (L1 & L2 & L3).
  assert (park b pg j ≡ₚ unprocessed (items_of p) ++ []) as Hpark.
  { unfold park. rewrite Hp. simpl. by rewrite (proj2 (Z.ltb_lt _ _) Hj), app_nil_r. }
  destruct (parked_split _ _ _ _ Q Hp Hpark) as [l0 Hl0]. destruct (take_all_perm _ _ _ Hl0) as (l & Hl & Hll). exists l. split; [done|].
  eapply (shrink_inv _ j p None (unprocessed (items_of p))); [done|done|lia|done|done|done|done|..]; simpl.
  - unfold dec, saturating_sub. lia.
  - unfold saturating_sub. lia.
  - unfold saturating_sub. lia.
  - done.
  - rewrite Hpark. unfold park. by rewrite Hp'.
  - by rewrite Hl0, Hll.
Qed.
End facts.
End inv.
End spec.
