(* ===== verification/MessageQueueRing.v ===== *)
(** * The ready ring

    The books that have pages to be serviced are linked in a ring.  [linked nb l] says that
    the links [nb] are those of the ring [l]; it does not depend on where the ring is cut
    open.  Knitting adds an origin at the end of the ring, unknitting takes one out. *)
From stdpp Require Import base gmap list strings.
From Stdlib Require Import ZArith Lia.
From S2P Require Import Prelude Weights MessageQueue.
Set Warnings "-clear-no-such-hyp".
Open Scope Z_scope.

Section ring.
Context {Origin : Type} `{EqDecision Origin}.
Abbreviation Neighbours := (Neighbours Origin).
Implicit Types (l r : list Origin) (o x h : Origin) (nb : Origin -> option Neighbours).

(** The neighbours of the origin that stands before the list [r] in a ring. *)
Definition around o r : Neighbours := {| prev := default o (last r); next := default o (head r) |}.

Record linked nb l : Prop := {
  linked_nodup : NoDup l;
  linked_out o : o ∉ l -> nb o = None;
  linked_in l1 o l2 : l = l1 ++ o :: l2 -> nb o = Some (around o (l2 ++ l1));
}.

Definition upd o (v : option Neighbours) nb : Origin -> option Neighbours := fun x => if decide (x = o) then v else nb x.

Lemma upd_eq o v nb : upd o v nb o = v.
Proof. unfold upd. by rewrite decide_True. Qed.
Lemma upd_ne o v nb x : x <> o -> upd o v nb x = nb x.
Proof. intros Hx. unfold upd. by rewrite decide_False. Qed.

Lemma upd_ext o v nb nb' x : (forall y, nb y = nb' y) -> upd o v nb x = upd o v nb' x.
Proof. intros He. unfold upd. by case_decide. Qed.

Lemma linked_ext nb nb' l : (forall o, nb' o = nb o) -> linked nb l -> linked nb' l.
Proof. intros He [Hnd Ho Hi]. split; [done|intros o Hl; rewrite He; auto|intros l1 o l2 Hl; rewrite He; auto]. Qed.

Lemma linked_is_some nb l o : linked nb l -> is_Some (nb o) <-> o ∈ l.
Proof.
  intros [Hnd Ho Hi]. split.
  - intros Hs. destruct (decide (o ∈ l)) as [|Hn]; [done|]. rewrite Ho in Hs by done. by destruct Hs.
  - intros (l1 & l2 & Hl)%list_elem_of_split. by rewrite (Hi _ _ _ Hl).
Qed.

Lemma linked_rot nb a b : linked nb (a ++ b) -> linked nb (b ++ a).
Proof.
  intros [Hnd Ho Hi]. split; [by rewrite Permutation_app_comm|intros o Hn; apply Ho; by rewrite Permutation_app_comm|].
  intros l1 o l2 Hl. apply app_eq_inv in Hl as [(c & Hb & Ha)|(c & Hb & Ha)].
  - destruct c as [|y c].
    + simpl in Ha. rewrite (Hi [] o (l2 ++ b)); [|by rewrite <- Ha]. rewrite app_nil_r in *. by rewrite <- Hb.
    + injection Ha as <- ->. subst b. rewrite (Hi (a ++ l1) o c); [|by rewrite <- app_assoc]. by rewrite <- app_assoc.
  - rewrite (Hi c o (l2 ++ b)), Hb, <- !app_assoc; [done|]. by rewrite Ha, <- app_assoc.
Qed.

(** What [around] takes from a list with more than one part. *)
Lemma around_app o x (a b : list Origin) :
  around o (a ++ [x] ++ b) = {| prev := default x (last b); next := default x (head a) |}.
Proof.
  unfold around. change ([x] ++ b) with (x :: b). f_equal; [by rewrite last_app, last_cons; destruct (last b)|].
  rewrite head_app. by destruct (head a).
Qed.

Lemma default_last_in o l : default o (last l) = o \/ default o (last l) ∈ l.
Proof. destruct l as [|x l _] using rev_ind; [by left|right]. rewrite last_snoc. set_solver. Qed.
Lemma default_last_ne o l : l <> [] -> default o (last l) ∈ l.
Proof. destruct l as [|x l _] using rev_ind; [done|]. rewrite last_snoc. set_solver. Qed.
Lemma last_ne o o' l : l <> [] -> default o (last l) = default o' (last l).
Proof. destruct l as [|x l _] using rev_ind; [done|]. by rewrite last_snoc. Qed.
Lemma head_ne o o' l : l <> [] -> default o (head l) = default o' (head l).
Proof. by destruct l. Qed.

(** Adding [o] before the head [h]. *)
Lemma linked_knit nb h r o nh nt :
  linked nb (h :: r) -> o ∉ h :: r -> nb h = Some nh ->
  let nb1 := upd h (Some {| prev := o; next := next nh |}) nb in
  nb1 (prev nh) = Some nt ->
  linked (upd o (Some {| prev := prev nh; next := h |}) (upd (prev nh) (Some {| prev := prev nt; next := o |}) nb1)) ((h :: r) ++ [o]).
Proof.
  intros [Hnd Ho Hi] Hno Hh nb1 Ht. assert (nh = around h r) as ->.
  { specialize (Hi [] h r eq_refl). rewrite app_nil_r in Hi. congruence. }
  cbn [around prev next] in *. set (t := default h (last r)) in *.
  assert (t ∈ h :: r) as Hin by (destruct (default_last_in h r) as [Hd|Hd]; set_solver).
  split.
  - apply NoDup_app. split; [done|]. split; [set_solver|apply NoDup_singleton].
  - intros x Hx. rewrite !upd_ne by set_solver. unfold nb1. rewrite upd_ne by set_solver. apply Ho. set_solver.
  - intros l1 x l2 Hl. destruct l2 as [|y l2 _] using rev_ind.
    { apply app_inj_tail in Hl as [<- ->]. rewrite upd_eq. unfold around. simpl. f_equal. f_equal. unfold t.
      rewrite last_cons. by destruct (last r). }
    rewrite app_comm_cons, app_assoc in Hl. apply app_inj_tail in Hl as [Hl <-].
    assert (x <> o) as Hxo by (intros ->; apply Hno; rewrite Hl; set_solver). rewrite upd_ne by done.
    pose proof (Hi _ _ _ Hl) as Hx. rewrite <- app_assoc, around_app. destruct l1 as [|h' l1]; simplify_eq/=.
    + destruct (decide (l2 = [])) as [->|Hne].
      * subst t. simpl in *. unfold nb1 in *. rewrite upd_eq in *. by simplify_eq.
      * assert (t <> x) by (pose proof (default_last_ne x l2 Hne); apply NoDup_cons in Hnd as [? _]; unfold t; congruence).
        rewrite upd_ne by done. unfold nb1. rewrite upd_eq. f_equal. f_equal. by apply head_ne.
    + apply NoDup_cons in Hnd as [Hh' Hnd]. assert (x <> h') by set_solver. destruct (decide (l2 = [])) as [->|Hne].
      * assert (t = x) as Htx by (unfold t; by rewrite last_app). rewrite Htx in *. rewrite upd_eq. unfold nb1 in Ht. rewrite upd_ne in Ht by done.
        rewrite Hx in Ht. simplify_eq. f_equal. f_equal. unfold around. simpl. by apply last_ne.
      * assert (t <> x) as Htx.
        { unfold t. rewrite last_app, last_cons. pose proof (default_last_ne h' l2 Hne) as Hl2. destruct (last l2) eqn:E; [|by apply last_None in E].
          simpl in *. intros ->. apply NoDup_app in Hnd as (_ & _ & Hnd). by apply NoDup_cons in Hnd as [? _]. }
        rewrite upd_ne by done. unfold nb1. rewrite upd_ne, Hx by done. f_equal. unfold around. rewrite last_app.
        f_equal; [|rewrite head_app; by destruct l2]. rewrite last_cons. by destruct (last l1).
Qed.

(** Taking [o] out of a ring that is cut open after it. *)
Lemma linked_unknit nb l o n :
  linked nb (l ++ [o]) -> l <> [] -> nb o = Some n ->
  let nb1 := upd (next n) ((fun m => {| prev := prev n; next := next m |}) <$> nb (next n)) nb in
  next n <> o /\ prev n <> o /\
  linked (upd o None (upd (prev n) ((fun m => {| prev := prev m; next := next n |}) <$> nb1 (prev n)) nb1)) l.
Proof.
  intros [Hnd Ho Hi] Hl Hn nb1. assert (n = around o l) as ->.
  { specialize (Hi l o [] eq_refl). simpl in Hi. congruence. }
  cbn [around prev next] in *. set (t := default o (last l)) in *. set (h := default o (head l)) in *.
  apply NoDup_app in Hnd as (Hnd & Hno & _). assert (t ∈ l) as Ht by (by apply default_last_ne).
  assert (h ∈ l) as Hh by (unfold h; destruct l; [done|constructor]).
  split; [set_solver|]. split; [set_solver|]. split; [done|..].
  - intros x Hx. destruct (decide (x = o)) as [->|Hxo]; [apply upd_eq|]. rewrite !upd_ne by set_solver.
    unfold nb1. rewrite upd_ne by set_solver. apply Ho. set_solver.
  - intros l1 x l2 Hl'. assert (x ∈ l) as Hxl by (rewrite Hl'; set_solver). rewrite upd_ne by set_solver.
    assert (nb x = Some (around x ((l2 ++ [o]) ++ l1))) as Hx by (apply Hi; by rewrite Hl', <- app_assoc).
    rewrite <- app_assoc, around_app in Hx. subst l.
    assert (l1 = [] -> x = h) as H1 by (intros ->; done).
    assert (l1 <> [] -> x <> h) as H1'.
    { intros Hne. unfold h. destruct l1 as [|y l1]; [done|]. simpl. apply NoDup_cons in Hnd as [? _]. set_solver. }
    assert (l2 = [] -> x = t) as H2 by (intros ->; unfold t; by rewrite last_snoc).
    assert (l2 <> [] -> x <> t) as H2'.
    { intros Hne Hxt. assert (t ∈ l2) as Htl; [|apply NoDup_app in Hnd as (_ & _ & Hnd); apply NoDup_cons in Hnd as [? _]; congruence].
      unfold t. rewrite last_app, last_cons. pose proof (default_last_ne o l2 Hne). by destruct (last l2) eqn:E; [|apply last_None in E]. }
    destruct (decide (l1 = [])) as [->|Hne1], (decide (l2 = [])) as [->|Hne2].
    + rewrite <- H2, upd_eq by done. unfold nb1. rewrite <- H1, upd_eq, Hx by done. done.
    + rewrite upd_ne by auto. unfold nb1. rewrite <- H1, upd_eq, Hx by done. simpl. f_equal. unfold around. rewrite app_nil_r.
      f_equal; [|by apply head_ne]. unfold t. simpl. rewrite last_cons. by destruct (last l2).
    + rewrite <- H2, upd_eq by done. unfold nb1. rewrite upd_ne, Hx by auto. simpl. f_equal. unfold around. simpl.
      f_equal; [by apply last_ne|]. unfold h. rewrite head_app. by destruct l1.
    + rewrite upd_ne by auto. unfold nb1. rewrite upd_ne, Hx by auto. f_equal. unfold around. rewrite last_app, head_app.
      destruct l2; [done|]. f_equal. destruct (last l1) eqn:E; [done|by apply last_None in E].
Qed.
End ring.

(** ** The ring in the storage *)
Section storage.
Context {Origin Hash Env : Type} `{Countable Origin} {codec : HeaderCodec} {T : Config Origin Hash Env}.
Implicit Types (s : Storage Origin) (w : World Origin Hash Env) (l : list Origin) (o x : Origin).

Definition nbs s o : option (MessageQueue.Neighbours Origin) := ready_neighbours (book_of s o).

(** Two storages that differ in the links of the books only. *)
Definition same_but_links s s' : Prop := Pages s' = Pages s /\ forall o, book_of s' o = set_neighbours (nbs s' o) (book_of s o).

Lemma book_of_insert o b s x : book_of (insert_book o b s) x = if decide (x = o) then b else book_of s x.
Proof. unfold book_of. simpl. case_decide as Hx; [subst; by rewrite lookup_insert_eq|by rewrite lookup_insert_ne]. Qed.

Lemma book_of_head h s x : book_of (set_head h s) x = book_of s x.
Proof. done. Qed.

Lemma nbs_insert o b s x : nbs (insert_book o b s) x = upd o (ready_neighbours b) (nbs s) x.
Proof. unfold nbs, upd. rewrite book_of_insert. by case_decide. Qed.

Lemma same_refl s : same_but_links s s.
Proof. split; [done|]. intros o. unfold nbs. by destruct (book_of s o). Qed.

Lemma same_trans s1 s2 s3 : same_but_links s1 s2 -> same_but_links s2 s3 -> same_but_links s1 s3.
Proof. intros [Hp1 Hb1] [Hp2 Hb2]. split; [congruence|]. intros o. by rewrite Hb2, Hb1. Qed.

Lemma same_insert o n s : same_but_links s (insert_book o (set_neighbours n (book_of s o)) s).
Proof.
  split; [done|]. intros x. rewrite nbs_insert, book_of_insert. unfold upd. case_decide; [subst; by destruct (book_of s o)|].
  unfold nbs. by destruct (book_of s x).
Qed.

Lemma same_head h s s' : same_but_links s s' -> same_but_links s (set_head h s').
Proof. done. Qed.

Lemma get_book_bind {E A} o (k : BookState Origin -> ST (World Origin Hash Env) E A) w : (x ← get_book o; k x) w = k (book_of (storage w) o) w.
Proof. done. Qed.
Lemma get_head_bind {E A} (k : option Origin -> ST (World Origin Hash Env) E A) w : (x ← get_head; k x) w = k (ServiceHead (storage w)) w.
Proof. done. Qed.
Lemma get_page_bind {E A} o i (k : option Page -> ST (World Origin Hash Env) E A) w :
  (x ← get_page o i; k x) w = k (Pages (storage w) !! (o, i)) w.
Proof. done. Qed.
Lemma modify_bind {E A} f (k : ST (World Origin Hash Env) E A) w : (st_modify (set_storage f);; k) w = k (set_storage f w).
Proof. done. Qed.

Lemma mutate_bind {E A} o f (k : ST (World Origin Hash Env) E A) w :
  (mutate_neighbours o f;; k) w = k (set_storage (insert_book o (set_neighbours (f <$> nbs (storage w) o) (book_of (storage w) o))) w).
Proof. done. Qed.

Lemma knit_spec {E} o w l :
  linked (nbs (storage w)) l -> ServiceHead (storage w) = head l -> o ∉ l ->
  exists s' n, ready_ring_knit (E := E) o w = (set_storage (fun _ => s') w, Ok (Some n)) /\ same_but_links (storage w) s' /\
    ServiceHead s' = head (l ++ [o]) /\ linked (upd o (Some n) (nbs s')) (l ++ [o]).
Proof.
  intros Hl Hh Ho. unfold ready_ring_knit. rewrite get_head_bind, Hh. destruct l as [|h r].
  { simpl. eexists (set_head (Some o) (storage w)), _. split; [done|]. split; [apply same_head, same_refl|]. split; [done|].
    split; [apply NoDup_singleton|intros x Hx; rewrite upd_ne by set_solver; unfold nbs; rewrite book_of_head; by apply (linked_out _ _ Hl), not_elem_of_nil|].
    intros l1 x l2 Hx. destruct l1 as [|y [|]]; simplify_eq/=. by rewrite upd_eq. }
  cbn [head]. rewrite get_book_bind. set (b := book_of (storage w) h).
  assert (nbs (storage w) h = Some (around h r)) as Hnh by (rewrite (linked_in _ _ Hl [] h r eq_refl); by rewrite app_nil_r).
  unfold nbs in Hnh. fold b in Hnh. rewrite Hnh. cbn [head]. unfold put_book. rewrite modify_bind, get_book_bind.
  cbn [storage set_storage]. set (s1 := insert_book h (set_neighbours (Some {| prev := o; next := next (around h r) |}) b) (storage w)).
  assert (exists nt, upd h (Some {| prev := o; next := next (around h r) |}) (nbs (storage w)) (prev (around h r)) = Some nt) as [nt Hnt].
  { unfold upd. case_decide; [eauto|]. apply (linked_is_some _ _ _ Hl). cbn [around prev]. destruct (default_last_in h r); set_solver. }
  assert (nbs s1 (prev (around h r)) = Some nt) as Hnt1 by (unfold s1; rewrite nbs_insert; exact Hnt). unfold nbs in Hnt1. rewrite Hnt1. rewrite modify_bind.
  eexists _, _. split; [done|]. cbn [storage set_storage]. split.
  { eapply same_trans; [apply (same_insert h)|]. apply (same_insert (prev (around h r)) _ s1). }
  split; [by simpl; rewrite Hh|]. eapply linked_ext; [|eapply (linked_knit _ h r o (around h r) nt); [done|done|by unfold nbs|exact Hnt]].
  intros x. apply upd_ext. intros y. rewrite nbs_insert. apply upd_ext. intros z. unfold s1. by rewrite nbs_insert.
Qed.

Lemma unknit_spec {E} o w l1 l2 n :
  linked (nbs (storage w)) (l1 ++ o :: l2) -> ServiceHead (storage w) = head (l1 ++ o :: l2) -> nbs (storage w) o = Some n ->
  exists s', ready_ring_unknit (E := E) o n w = (set_storage (fun _ => s') w, Ok tt) /\ same_but_links (storage w) s' /\
    ServiceHead s' = head (l1 ++ l2) /\ linked (upd o None (nbs s')) (l1 ++ l2).
Proof.
  intros Hl Hh Hn. assert (n = around o (l2 ++ l1)) as Hno.
  { rewrite (linked_in _ _ Hl _ _ _ eq_refl) in Hn. congruence. }
  assert (linked (nbs (storage w)) ((l2 ++ l1) ++ [o])) as Hrot.
  { rewrite <- app_assoc. apply linked_rot. by rewrite <- app_assoc. }
  unfold ready_ring_unknit. destruct (decide (l2 ++ l1 = [])) as [Hnil|Hne].
  { rewrite Hno, Hnil. cbn [around next prev head last default]. rewrite decide_True by done. unfold debug_assert. rewrite bool_decide_true by done.
    apply app_nil in Hnil as [-> ->]. eexists. split; [done|]. split; [apply same_head, same_refl|]. split; [done|]. simpl.
    split; [constructor| |by intros [] ? ?]. intros x _. unfold upd. case_decide; [done|]. apply (linked_out _ _ Hl). set_solver. }
  destruct (linked_unknit _ _ _ _ Hrot Hne Hn) as (Hn1 & Hn2 & Hl'). rewrite decide_False by done.
  rewrite !mutate_bind, get_head_bind. cbn [storage set_storage].
  set (s1 := insert_book (next n) (set_neighbours ((fun m => {| prev := prev n; next := next m |}) <$> nbs (storage w) (next n)) (book_of (storage w) (next n))) (storage w)).
  set (s2 := insert_book (prev n) (set_neighbours ((fun m => {| prev := prev m; next := next n |}) <$> nbs s1 (prev n)) (book_of s1 (prev n))) s1).
  assert (same_but_links (storage w) s2) as Hsame by (eapply same_trans; [apply (same_insert (next n))|apply (same_insert (prev n) _ s1)]).
  assert (forall hd, linked (upd o None (nbs (set_head hd s2))) (l1 ++ l2)) as Hl2.
  { intros hd. apply linked_rot. eapply linked_ext; [|exact Hl']. intros x. apply upd_ext. clear x. intros x.
    assert (forall y, nbs s1 y = upd (next n) ((fun m => {| prev := prev n; next := next m |}) <$> nbs (storage w) (next n)) (nbs (storage w)) y) as Hs1.
    { intros y. unfold s1. by rewrite nbs_insert. }
    transitivity (nbs s2 x); [done|]. unfold s2. rewrite nbs_insert. cbn [ready_neighbours set_neighbours]. rewrite Hs1. apply upd_ext, Hs1. }
  assert (ServiceHead s2 = head (l1 ++ o :: l2)) as Hhd by (simpl; by rewrite Hh). rewrite Hhd. destruct l1 as [|y l1]; cbn [head app].
  - rewrite decide_True by done. eexists. split; [done|]. cbn [storage set_storage]. split; [by apply same_head|]. split; [|apply Hl2].
    simpl. rewrite Hno, app_nil_r in *. cbn [around next]. by destruct l2.
  - rewrite decide_False by (intros ->; apply linked_nodup in Hl; apply NoDup_cons in Hl as [? _]; set_solver).
    exists s2. split; [done|]. split; [done|]. split; [done|]. by specialize (Hl2 (ServiceHead s2)).
Qed.
End storage.
