(* ===== verification/MessageQueueInv.v ===== *)
(** * The invariant of the message queue

    [Inv] collects what holds of the storage: the ready ring links the books with pages to
    be serviced, and every queue implements its specification.  The lemmas say what each
    operation does to it. *)
From stdpp Require Import base gmap list strings.
From Stdlib Require Import ZArith Lia.
From S2P Require Import Prelude Weights MessageQueue MessageQueuePage MessageQueueSpec MessageQueueRing.
Set Warnings "-clear-no-such-hyp".
Open Scope Z_scope.

Definition meter_ok (m : WeightMeter) : Prop := in_range (limit m) /\ in_range (consumed m) /\ within (consumed m) (limit m).

(** The meter [m'] is a later state of [m]. *)
Definition meter_after (m m' : WeightMeter) : Prop := meter_ok m' /\ limit m' = limit m /\ within (consumed m) (consumed m').

Lemma meter_after_refl m : meter_ok m -> meter_after m m.
Proof. intros Hm. split; [done|]. split; [done|]. unfold within. lia. Qed.
Lemma meter_after_trans m1 m2 m3 : meter_after m1 m2 -> meter_after m2 m3 -> meter_after m1 m3.
Proof. intros (H1 & L1 & W1) (H2 & L2 & W2). split; [done|]. split; [congruence|]. unfold within in *. lia. Qed.

Lemma try_consume_spec m w : meter_ok m -> in_range w ->
  exists m' r, WeightMeter.try_consume m w = (m', r) /\ meter_after m m' /\
    (r = Ok tt /\ consumed m' = plus (consumed m) w \/ r = Err tt /\ m' = m /\ ~ within (plus (consumed m) w) (limit m)).
Proof.
  intros Hm Hw. pose proof Hm as (Hl & Hc & Hin). unfold WeightMeter.try_consume. rewrite checked_add_spec. case_bool_decide as Hmax.
  - rewrite any_gt_spec. case_bool_decide as Hlim; simpl.
    + eexists _, _. split; [done|]. split; [|by left]. unfold meter_after, meter_ok. simpl. unfold in_range, in_u, within, plus in *. simpl in *. split_and!; first [done|lia].
    + eexists _, _. split; [done|]. split; [by apply meter_after_refl|right; done].
  - eexists _, _. split; [done|]. split; [by apply meter_after_refl|right]. split; [done|]. split; [done|]. intros Hw'. apply Hmax.
    unfold within, plus, Weight.MAX, u64_MAX, in_range, in_u in *. simpl in *. lia.
Qed.

Section inv.
Context {Origin Hash Env : Type} `{Countable Origin} {codec : HeaderCodec} {T : Config Origin Hash Env}.
Implicit Types (s : Storage Origin) (w : World Origin Hash Env) (l : list Origin) (o x : Origin) (q : Spec (Origin := Origin)) (b : BookState Origin).

(** The messages that a list of calls enqueues. *)
Definition call_origin (c : Call Origin) : Origin := match c with CallMessage _ o | CallMessages _ o => o end.
Definition call_messages (c : Call Origin) : list Message := match c with CallMessage m _ => [m] | CallMessages ms _ => ms end.
Definition all_messages (cs : list (Call Origin)) : list Message := concat (call_messages <$> cs).

(** The messages are not too long, which is their type. *)
Definition lengths_ok (cs : list (Call Origin)) : Prop := forall m, m ∈ all_messages cs -> item_len m <= MaxMessageLen.

(** The page numbers do not run out. *)
Definition pages_fit s (cs : list (Call Origin)) : Prop :=
  Forall (fun c => end_ (book_of s (call_origin c)) + Z.of_nat (length (all_messages cs)) < 2 ^ 32) cs.

Definition calls_fit s cs : Prop := lengths_ok cs /\ pages_fit s cs.

(** The documented behaviour of a message processor, and the types of its arguments and of the
    constants. *)
Class ConfigLaws : Prop := {
  heap_range : max_encoded_len < HeapSize < 2 ^ size_bits;
  (** otherwise [max_stale * max_stale] does not fit in 32 bits *)
  stale_range : 0 <= MaxStale < 2 ^ 16;
  weights_range :
    in_range (w_bump_service_head weights) /\ in_range (w_service_queue_base weights) /\
    in_range (w_service_page_base_completion weights) /\ in_range (w_service_page_base_no_completion weights) /\
    in_range (w_service_page_item weights) /\ in_range (w_ready_ring_unknit weights) /\
    in_range (w_execute_overweight_page_removed weights) /\ in_range (w_execute_overweight_page_updated weights);
  service_weights wt : ServiceWeight = Some wt \/ IdleMaxServiceWeight = Some wt -> in_range wt;
  (** servicing a queue is not for free *)
  queue_weight : 0 < ref_time (w_service_queue_base weights) + proof_size (w_service_queue_base weights);
  (** no more than the remaining weight is used *)
  process_meter m o meter id e s : meter_ok meter ->
    let out := process_message m o meter id e s in
    meter_ok (out_meter out) /\ limit (out_meter out) = limit meter /\ within (consumed meter) (consumed (out_meter out));
  (** messages are a [BoundedSlice] *)
  process_lengths m o meter id e s : lengths_ok (out_calls (process_message m o meter id e s));
}.

(** A processor that never makes the page numbers run out. *)
Class FitLaws : Prop := process_pages m o meter id e s : pages_fit s (out_calls (process_message m o meter id e s)).

(** The same runtime with a processor whose calls are dropped where the page numbers would
    run out. *)
Definition without_calls (out : Outcome Origin Hash Env) : Outcome Origin Hash Env :=
  {| out_env := out_env out; out_calls := []; out_meter := out_meter out; out_id := out_id out; out_result := out_result out |}.

Definition cut_off : Config Origin Hash Env := {|
  HeapSize := HeapSize;
  MaxStale := MaxStale;
  ServiceWeight := ServiceWeight;
  IdleMaxServiceWeight := IdleMaxServiceWeight;
  blake2_256 := blake2_256;
  is_paused := is_paused;
  process_message m o meter id e s :=
    let out := process_message m o meter id e s in
    if decide (pages_fit s (out_calls out)) then out else without_calls out;
  weights := weights;
|}.

Definition pg s o (i : Z) : option Page := Pages s !! (o, i).

Record Inv (busy : option Origin) l q s : Prop := {
  inv_linked : linked (nbs s) l;
  inv_head : ServiceHead s = head l;
  inv_queue o : queue_inv (bool_decide (busy = Some o)) (book_of s o) (pg s o) (q o);
  inv_ready o : o ∈ l <-> begin (book_of s o) < end_ (book_of s o) \/ busy = Some o;
}.

(** The assertions that failed. *)
Definition alarms (t : list (Effect Origin Hash)) : list string := omap (fun e => match e with Defensive x => Some x | _ => None end) t.

(** The trace is one of the specification, and the storage implements it. *)
Definition implements (busy : option Origin) l q w : Prop := replay (trace w) = Some q /\ Inv busy l q (storage w).

Lemma queue_inv_ext bz b b' (f g : Z -> option Page) sp :
  (forall i, g i = f i) -> begin b' = begin b -> end_ b' = end_ b -> count b' = count b -> message_count b' = message_count b -> size_ b' = size_ b ->
  queue_inv bz b f sp -> queue_inv bz b' g sp.
Proof.
  intros Hfg Eb Ee Ec Em Es [Hr Hix Hpa Hf Hst Hso Hrd Hco Hme Hsi Hpe Hpk]. split; rewrite ?Eb, ?Ee, ?Ec, ?Em, ?Es.
  - done.
  - intros i p. rewrite Hfg. apply Hix.
  - intros i p. rewrite Hfg. apply Hpa.
  - intros i p. rewrite Hfg. apply Hf.
  - intros i p. rewrite Hfg. apply Hst.
  - intros i p. rewrite Hfg. apply Hso.
  - intros i Hi. rewrite Hfg. by apply Hrd.
  - rewrite Hco. symmetry. by apply page_sum_ext.
  - rewrite Hme. symmetry. by apply page_sum_ext.
  - rewrite Hsi. symmetry. by apply page_sum_ext.
  - rewrite Hpe. unfold pending_of. rewrite Eb, Ee. symmetry. by apply pend_ext.
  - rewrite Hpk. unfold parked_of. rewrite Ee. replace (park b' g <$> seqZ 0 (end_ b)) with (park b f <$> seqZ 0 (end_ b)); [done|].
    apply list_fmap_ext. intros j i _. unfold park. by rewrite Hfg, Eb.
Qed.

Lemma queue_inv_links bz b n (f g : Z -> option Page) sp :
  (forall i, g i = f i) -> queue_inv bz b f sp -> queue_inv bz (set_neighbours n b) g sp.
Proof. intros Hfg. by apply queue_inv_ext. Qed.

(** A step that changes the queue of one origin, and links. *)
Lemma ring_inv_update busy busy' l l' q s s' o sp :
  Inv busy l q s -> (forall x, x <> o -> busy <> Some x /\ busy' <> Some x) ->
  (forall x, x <> o -> book_of s' x = set_neighbours (nbs s' x) (book_of s x)) ->
  (forall x i, x <> o -> pg s' x i = pg s x i) ->
  linked (nbs s') l' -> ServiceHead s' = head l' -> (forall x, x <> o -> x ∈ l' <-> x ∈ l) ->
  queue_inv (bool_decide (busy' = Some o)) (book_of s' o) (pg s' o) sp ->
  (o ∈ l' <-> begin (book_of s' o) < end_ (book_of s' o) \/ busy' = Some o) ->
  Inv busy' l' (spec_set o sp q) s'.
Proof.
  intros [Hl Hh Hq Hr] Hbz Hb Hp Hl' Hh' Hll Ho Hor. split; [done|done|..].
  - intros x. unfold spec_set. destruct (decide (x = o)) as [->|Hx]; [done|]. rewrite (Hb x Hx). apply queue_inv_links with (pg s x); [intros i; by apply Hp|].
    destruct (Hbz x Hx). specialize (Hq x). rewrite bool_decide_false in Hq by done. by rewrite bool_decide_false.
  - intros x. destruct (decide (x = o)) as [->|Hx]; [done|]. rewrite (Hll x Hx), Hr, (Hb x Hx). cbn [begin end_ set_neighbours].
    destruct (Hbz x Hx). tauto.
Qed.

(** Nothing but the position of the trace changes. *)
Lemma spec_set_id o q x : spec_set o (q o) q x = q x.
Proof. unfold spec_set. by case_decide; subst. Qed.

Definition quiet w w' : Prop := alarms (trace w') = alarms (trace w).
Definition spec_enqueue o (m : Message) q : Spec := spec_set o {| q_pending := q_pending (q o) ++ [m]; q_parked := q_parked (q o) |} q.
Definition noted (e : Effect Origin Hash) w : World Origin Hash Env := {| storage := storage w; env := env w; trace := e :: trace w |}.

Lemma note_bind {E A} e (k : ST (World Origin Hash Env) E A) w : (note e;; k) w = k (noted e w).
Proof. done. Qed.
Lemma assert_bind {E A} (c : bool) msg (k : ST (World Origin Hash Env) E A) w : c = true -> (debug_assert c msg;; k) w = k w.
Proof. by intros ->. Qed.
Lemma note_storage e w : storage (noted e w) = storage w.
Proof. done. Qed.

Lemma pg_insert s o i p x j : pg (insert_page o i p s) x j = if decide (x = o /\ j = i) then Some p else pg s x j.
Proof.
  unfold pg. simpl. case_decide as Hd; [destruct Hd as [-> ->]; by rewrite lookup_insert_eq|]. rewrite lookup_insert_ne; [done|naive_solver].
Qed.
Lemma pg_remove s o i x j : pg (remove_page o i s) x j = if decide (x = o /\ j = i) then None else pg s x j.
Proof.
  unfold pg. simpl. case_decide as Hd; [destruct Hd as [-> ->]; by rewrite lookup_delete_eq|]. rewrite lookup_delete_ne; [done|naive_solver].
Qed.

Section laws.
Context {laws : HeaderCodecLaws codec} {claws : ConfigLaws}.

Lemma inv_book_range busy l q s o : Inv busy l q s -> 0 <= begin (book_of s o) <= end_ (book_of s o) /\ end_ (book_of s o) < 2 ^ 32.
Proof. intros I. apply (qi_range _ _ _ _ (inv_queue _ _ _ _ I o)). Qed.

(** A new page at the end of the book, which is in the ring [l']. *)
Lemma new_page_update l l' q s s1 o m p' n :
  Inv None l q s -> same_but_links s s1 -> end_ (book_of s o) + 1 < 2 ^ 32 -> page_ok HeapSize p' [(false, m)] 0 ->
  linked (upd o (Some n) (nbs s1)) l' -> ServiceHead s1 = head l' -> (forall x, x <> o -> x ∈ l' <-> x ∈ l) -> o ∈ l' ->
  Inv None l' (spec_enqueue o m q)
    (insert_book o (set_count (inc32 (count (book_of s o))) (set_end (inc32 (end_ (book_of s o)))
       (set_neighbours (Some n) (set_messages (saturating_add 64 (message_count (book_of s o)) 1)
         (saturating_add 64 (size_ (book_of s o)) (Z.of_nat (length m))) (book_of s o)))))
       (insert_page o (end_ (book_of s o)) p' s1)).
Proof.
  intros I [Hp Hb] He Hok Hl Hh Hll Ho. pose proof (inv_book_range _ _ _ _ o I) as Hr.
  eapply ring_inv_update; [exact I|done|..].
  - intros x Hx. rewrite nbs_insert, upd_ne, book_of_insert, decide_False by done. apply Hb.
  - intros x i Hx. transitivity (pg (insert_page o (end_ (book_of s o)) p' s1) x i); [done|].
    rewrite pg_insert, decide_False by naive_solver. unfold pg. by rewrite Hp.
  - eapply linked_ext; [|exact Hl]. intros x. by rewrite nbs_insert.
  - done.
  - done.
  - rewrite book_of_insert, decide_True by done. rewrite bool_decide_false by done.
    eapply queue_inv_ext; [| | | | | |apply (new_page_inv heap_range (book_of s o) (pg s o)
       (fun i => if decide (i = end_ (book_of s o)) then Some p' else pg s o i) _ m p')]; try done.
    + intros i. transitivity (pg (insert_page o (end_ (book_of s o)) p' s1) o i); [done|]. rewrite pg_insert. unfold pg. rewrite Hp.
      repeat case_decide; naive_solver.
    + specialize (inv_queue _ _ _ _ I o) as Q. by rewrite bool_decide_false in Q.
    + intros i Hi. by rewrite decide_False.
    + by rewrite decide_True.
  - rewrite book_of_insert, decide_True by done. cbn [begin end_ set_count set_end set_neighbours set_messages].
    unfold inc32, saturating_add. split; [intros _; left; lia|done].
Qed.

(** A message appended to the last page. *)
Lemma append_update l q s o m p p' items k n :
  Inv None l q s -> begin (book_of s o) < end_ (book_of s o) -> pg s o (end_ (book_of s o) - 1) = Some p ->
  page_ok HeapSize p items k -> page_ok HeapSize p' (items ++ [(false, m)]) k -> nbs s o = Some n ->
  Inv None l (spec_enqueue o m q)
    (insert_book o (set_messages (saturating_add 64 (message_count (book_of s o)) 1) (saturating_add 64 (size_ (book_of s o)) (Z.of_nat (length m))) (book_of s o))
      (insert_page o (end_ (book_of s o) - 1) p' s)).
Proof.
  intros I Hlt Hp Hok Hok' Hn. eapply ring_inv_update; [exact I|done|..].
  - intros x Hx. rewrite nbs_insert, upd_ne, book_of_insert, decide_False by done. change (book_of (insert_page _ _ _ s) x) with (book_of s x).
    change (nbs (insert_page _ _ _ s) x) with (nbs s x). unfold nbs. by destruct (book_of s x).
  - intros x i Hx. change (pg (insert_book _ _ ?s') x i) with (pg s' x i). rewrite pg_insert, decide_False by naive_solver. done.
  - eapply linked_ext; [|apply (inv_linked _ _ _ _ I)]. intros x. rewrite nbs_insert. unfold upd. case_decide; [subst x|done]. done.
  - apply (inv_head _ _ _ _ I).
  - done.
  - rewrite book_of_insert, decide_True by done. rewrite bool_decide_false by done.
    eapply (append_inv heap_range (book_of s o) (pg s o)); [|done|done|done|done|..].
    + pose proof (inv_queue _ _ _ _ I o) as Q. by rewrite bool_decide_false in Q.
    + intros i Hi. change (pg (insert_book _ _ ?s') o i) with (pg s' o i). rewrite pg_insert, decide_False by naive_solver. done.
    + change (pg (insert_book _ _ ?s') o ?i) with (pg s' o i). by rewrite pg_insert, decide_True.
  - rewrite book_of_insert, decide_True by done. apply (inv_ready _ _ _ _ I).
Qed.

Definition ring_after o l : list Origin := if decide (o ∈ l) then l else l ++ [o].

Lemma elem_of_ring_after o l x : x ∈ ring_after o l <-> x = o \/ x ∈ l.
Proof. unfold ring_after. case_decide; set_solver. Qed.

(** Pages only get more items. *)
Definition grows s s' : Prop := forall x, begin (book_of s' x) = begin (book_of s x) /\
  forall i p, pg s x i = Some p -> exists p' its, pg s' x i = Some p' /\ items_of p' = items_of p ++ its /\ first_index p' = first_index p.

(** The result of [do_enqueue_message] in the world [w']. *)
Definition enqueued o (m : Message) l q w w' : Prop :=
  trace w' = Enqueued o m :: trace w /\ env w' = env w /\ Inv None (ring_after o l) (spec_enqueue o m q) (storage w') /\
  grows (storage w) (storage w') /\
  (forall x, end_ (book_of (storage w') x) <= end_ (book_of (storage w) x) + if decide (x = o) then 1 else 0).

Lemma link_new_page_spec {E} o m w w2 l q n :
  Inv None l q (storage w) -> item_len m <= MaxMessageLen -> end_ (book_of (storage w) o) + 1 < 2 ^ 32 ->
  same_but_links (storage w) (storage w2) -> trace w2 = Enqueued o m :: trace w -> env w2 = env w ->
  linked (upd o (Some n) (nbs (storage w2))) (ring_after o l) -> ServiceHead (storage w2) = head (ring_after o l) ->
  let b := book_of (storage w) o in
  exists w', link_new_page (E := E) o m (set_neighbours (Some n) (set_messages (saturating_add 64 (message_count b) 1)
      (saturating_add 64 (size_ b) (Z.of_nat (length m))) b)) w2 = (w', Ok tt) /\ enqueued o m l q w w'.
Proof.
  intros I Hm He Hsame Ht2 He2 Hl2 Hh2 b. pose proof (inv_book_range _ _ _ _ o I) as Hr. fold b in Hr, He.
  destruct (from_message_spec heap_range (E := E) m w2 Hm) as (p' & Hfm & Hok). unfold link_new_page. rewrite (st_bind_ok _ _ _ _ _ Hfm).
  cbn [end_ set_count set_end set_neighbours set_messages]. assert (inc32 (end_ b) = end_ b + 1) as Hinc by (unfold inc32, saturating_add; lia).
  rewrite (st_lift_ok _ _ _ (end_ b)) by (rewrite Hinc, sub_u_ok by lia; f_equal; lia). eexists. split; [done|]. split; [done|]. split; [done|].
  cbn [storage set_storage]. split.
  - eapply (new_page_update l); [done..| |]; intros; rewrite elem_of_ring_after; naive_solver.
  - split.
    { intros x. destruct Hsame as [Hpg Hb]. split.
      - rewrite book_of_insert. case_decide as Hx; [by subst x|]. transitivity (begin (book_of (storage w2) x)); [done|]. by rewrite Hb.
      - intros i p Hp. exists p, []. rewrite app_nil_r. split; [|done]. change (pg (insert_book _ _ ?s') x i) with (pg s' x i). rewrite pg_insert.
        rewrite decide_False; [unfold pg; by rewrite Hpg|]. intros [-> ->]. apply (qi_index _ _ _ _ (inv_queue _ _ _ _ I o)) in Hp. fold b in Hp. lia. }
    intros x. rewrite book_of_insert. destruct Hsame as [_ Hb]. case_decide as Hx; [subst x; fold b; cbn [end_ set_count set_end]; lia|].
    transitivity (end_ (book_of (storage w2) x)); [done|]. rewrite Hb. cbn. lia.
Qed.

Lemma enqueue_spec {E} o m w l q :
  Inv None l q (storage w) -> item_len m <= MaxMessageLen -> end_ (book_of (storage w) o) + 1 < 2 ^ 32 ->
  exists w', do_enqueue_message (E := E) o m w = (w', Ok tt) /\ enqueued o m l q w w'.
Proof.
  intros I Hm He. unfold do_enqueue_message. rewrite note_bind, get_book_bind, note_storage. set (b := book_of (storage w) o) in *.
  cbn [begin end_ ready_neighbours set_messages]. pose proof (inv_book_range _ _ _ _ o I) as Hr. fold b in Hr.
  pose proof (inv_queue _ _ _ _ I o) as Q. rewrite bool_decide_false in Q by done. fold b in Q.
  pose proof (inv_ready _ _ _ _ I o) as Hready. fold b in Hready.
  pose proof (linked_is_some _ _ o (inv_linked _ _ _ _ I)) as Hsome. unfold nbs in Hsome. fold b in Hsome.
  destruct (Z.ltb_spec (begin b) (end_ b)) as [Hlt|Hge].
  - assert (o ∈ l) as Hol by (apply Hready; by left). destruct (proj2 Hsome Hol) as [n Hn].
    assert (ring_after o l = l) as Hra by (unfold ring_after; by rewrite decide_True).
    rewrite assert_bind by (by rewrite bool_decide_true). rewrite (st_lift_ok _ _ _ (end_ b - 1)) by (by rewrite sub_u_ok by lia).
    rewrite get_page_bind, note_storage. destruct (qi_ready _ _ _ _ Q (end_ b - 1) ltac:(lia)) as [p Hp]. unfold pg in Hp. rewrite Hp.
    pose proof (qi_page _ _ _ _ Q _ _ Hp) as Hok.
    destruct (try_append_spec heap_range (E := E) p _ _ m (noted (Enqueued o m) w) Hok Hm) as (p' & Hap & Hp'). rewrite (st_bind_ok _ _ _ _ _ Hap).
    destruct p' as [p'|].
    + eexists. split; [done|]. split; [done|]. split; [done|]. cbn [storage set_storage]. rewrite Hra. split.
      * by eapply append_update.
      * split.
        { intros x. split; [rewrite book_of_insert; case_decide as Hx; [by subst x|done]|]. intros i p0 Hp0.
          change (pg (insert_book _ _ ?s') x i) with (pg s' x i). rewrite pg_insert. case_decide as Hxi; [|by exists p0, []; rewrite app_nil_r].
          destruct Hxi as [-> ->]. unfold pg in Hp0. fold b in Hp0. assert (p0 = p) as -> by congruence.
          exists p', [(false, m)]. destruct (page_view heap_range _ _ _ Hp') as [-> _]. split; [done|]. split; [done|].
          pose proof (ok_first_index _ _ _ _ Hp'). pose proof (ok_first_index _ _ _ _ Hok). congruence. }
        intros x. rewrite book_of_insert. case_decide as Hx; [subst x; fold b; cbn; lia|]. change (book_of _ x) with (book_of (storage w) x). lia.
    + assert (b = set_neighbours (Some n) b) as Hbn by (rewrite <- Hn; by destruct b).
      assert (set_messages (saturating_add 64 (message_count b) 1) (saturating_add 64 (size_ b) (Z.of_nat (length m))) b =
        set_neighbours (Some n) (set_messages (saturating_add 64 (message_count b) 1) (saturating_add 64 (size_ b) (Z.of_nat (length m))) b)) as ->.
      { unfold set_messages, set_neighbours. simpl. by rewrite Hn. }
      apply link_new_page_spec; [done..|apply same_refl|done|done| |by rewrite Hra; apply (inv_head _ _ _ _ I)].
      rewrite Hra. eapply linked_ext; [|apply (inv_linked _ _ _ _ I)]. intros x. unfold upd. case_decide; [subst x; by rewrite <- Hn|done].
  - assert (o ∉ l) as Hol by (rewrite Hready; intros [?|?]; [lia|done]). assert (~ is_Some (ready_neighbours b)) as Hns by (by rewrite Hsome).
    assert (ring_after o l = l ++ [o]) as Hra by (unfold ring_after; by rewrite decide_False).
    rewrite assert_bind by (by rewrite bool_decide_false).
    destruct (knit_spec (E := E) o (noted (Enqueued o m) w) l (inv_linked _ _ _ _ I) (inv_head _ _ _ _ I) Hol) as (s' & n & Hk & Hsame & Hh & Hl).
    rewrite (st_bind_ok _ _ _ _ _ Hk). apply link_new_page_spec; [done..|by rewrite Hra|by rewrite Hra].
Qed.

Lemma grows_refl s : grows s s.
Proof. intros x. split; [done|]. intros i p Hp. exists p, []. by rewrite app_nil_r. Qed.
Lemma grows_trans s1 s2 s3 : grows s1 s2 -> grows s2 s3 -> grows s1 s3.
Proof.
  intros H1 H2 x. destruct (H1 x) as [Hb1 Hp1], (H2 x) as [Hb2 Hp2]. split; [congruence|]. intros i p (p1 & its1 & Hi1 & He1 & Hf1)%Hp1.
  apply Hp2 in Hi1 as (p2 & its2 & Hi2 & He2 & Hf2). exists p2, (its1 ++ its2). split; [done|]. split; [by rewrite He2, He1, app_assoc|congruence].
Qed.

(** What calls of a processor do: they add messages to queues and queues to the ring. *)
Record enlarges l q w l' q' w' : Prop := {
  en_implements : implements None l' q' w';
  en_ring : l `prefix_of` l';
  en_spec x : q_pending (q x) `prefix_of` q_pending (q' x) /\ q_parked (q' x) = q_parked (q x);
  en_grows : grows (storage w) (storage w');
  en_quiet : quiet w w';
}.

Lemma enlarges_refl l q w : implements None l q w -> enlarges l q w l q w.
Proof. intros Hi. split; [done|done|done|apply grows_refl|done]. Qed.

Lemma enlarges_trans l q w l1 q1 w1 l2 q2 w2 : enlarges l q w l1 q1 w1 -> enlarges l1 q1 w1 l2 q2 w2 -> enlarges l q w l2 q2 w2.
Proof.
  intros [Hi1 Hl1 Hs1 Hg1 Hq1] [Hi2 Hl2 Hs2 Hg2 Hq2]. split; [done|by etrans|..].
  - intros x. destruct (Hs1 x), (Hs2 x). split; [by etrans|congruence].
  - by eapply grows_trans.
  - unfold quiet in *. congruence.
Qed.

Lemma enqueued_enlarges o m l q w w' : implements None l q w -> enqueued o m l q w w' -> enlarges l q w (ring_after o l) (spec_enqueue o m q) w'.
Proof.
  intros [Ht _] (Ht' & He' & I' & Hg & _). split.
  - split; [|done]. rewrite Ht'. simpl. by rewrite Ht.
  - unfold ring_after. case_decide; [done|by apply prefix_app_r].
  - intros x. unfold spec_enqueue, spec_set. case_decide; [subst x|done]. split; [by apply prefix_app_r|done].
  - done.
  - unfold quiet. by rewrite Ht'.
Qed.

(** A note in the trace that means nothing for the queues. *)
Lemma noted_enlarges e l q w : implements None l q w -> spec_step e q = Some q -> alarms [e] = [] -> enlarges l q w l q (noted e w).
Proof.
  intros [Ht I] He Ha. split; [|done|done|apply grows_refl|].
  - split; [|done]. simpl. by rewrite Ht.
  - unfold quiet, alarms in *. simpl in *. destruct e; done.
Qed.

Lemma on_queue_changed_spec {E} o b w l q :
  implements None l q w -> begin b <= end_ b ->
  exists w', on_queue_changed (E := E) o b w = (w', Ok tt) /\ enlarges l q w l q w' /\ storage w' = storage w /\ exists fp, trace w' = QueueChanged o fp :: trace w.
Proof.
  intros Hi Hb. unfold on_queue_changed, footprint_of, debug_assert. rewrite (proj2 (Z.leb_le _ _) Hb). eexists. split; [done|].
  split; [by apply noted_enlarges|]. split; [done|by eexists].
Qed.

Lemma enqueue_list_spec {E} o ms w l q :
  implements None l q w -> (forall m, m ∈ ms -> item_len m <= MaxMessageLen) -> end_ (book_of (storage w) o) + Z.of_nat (length ms) < 2 ^ 32 ->
  exists w' l' q', st_for (fun _ m => do_enqueue_message (E := E) o m) tt ms w = (w', Ok tt) /\ enlarges l q w l' q' w' /\
    (forall x, end_ (book_of (storage w') x) <= end_ (book_of (storage w) x) + Z.of_nat (length ms)) /\
    (forall x, x ∈ l' <-> x ∈ l \/ (x = o /\ ms <> [])) /\ trace w' = reverse (Enqueued o <$> ms) ++ trace w.
Proof.
  revert w l q. induction ms as [|m ms IH]; intros w l q Hi Hm He.
  { exists w, l, q. split; [done|]. split; [by apply enlarges_refl|]. split; [intros x; simpl; lia|]. split; [naive_solver|done]. }
  rewrite length_cons, Nat2Z.inj_succ in He.
  destruct (enqueue_spec (E := E) o m w l q (proj2 Hi)) as (w1 & Heq & Henq); [apply Hm; constructor|lia|].
  pose proof Henq as (Ht & _ & _ & _ & Hend). pose proof (enqueued_enlarges _ _ _ _ _ _ Hi Henq) as H1. simpl. rewrite (st_bind_ok _ _ _ _ _ Heq).
  destruct (IH w1 _ _ (en_implements _ _ _ _ _ _ H1)) as (w2 & l2 & q2 & Heq2 & H2 & Hend2 & Hl2 & Ht2).
  { intros m' Hm'. apply Hm. by constructor. }
  { specialize (Hend o). rewrite decide_True in Hend by done. lia. }
  exists w2, l2, q2. split; [done|]. split; [by eapply enlarges_trans|]. split; [|split].
  - intros x. specialize (Hend x). specialize (Hend2 x). case_decide; lia.
  - intros x. rewrite Hl2, elem_of_ring_after. naive_solver.
  - by rewrite Ht2, Ht, reverse_cons, <- app_assoc.
Qed.

Lemma run_call_spec {E} c w l q :
  implements None l q w -> (forall m, m ∈ call_messages c -> item_len m <= MaxMessageLen) ->
  end_ (book_of (storage w) (call_origin c)) + Z.of_nat (length (call_messages c)) < 2 ^ 32 ->
  exists w' l' q', run_call (E := E) c w = (w', Ok tt) /\ enlarges l q w l' q' w' /\
    (forall x, end_ (book_of (storage w') x) <= end_ (book_of (storage w) x) + Z.of_nat (length (call_messages c))) /\
    (forall x, x ∈ l' <-> x ∈ l \/ (x = call_origin c /\ call_messages c <> [])) /\
    exists fp, trace w' = QueueChanged (call_origin c) fp :: reverse (Enqueued (call_origin c) <$> call_messages c) ++ trace w.
Proof.
  intros Hi Hm He. assert (forall ms o, ms = call_messages c -> o = call_origin c -> exists w' l' q',
    (st_for (fun _ m => do_enqueue_message (E := E) o m) tt ms;; book_state ← get_book o; on_queue_changed o book_state) w = (w', Ok tt) /\
    enlarges l q w l' q' w' /\ (forall x, end_ (book_of (storage w') x) <= end_ (book_of (storage w) x) + Z.of_nat (length ms)) /\
    (forall x, x ∈ l' <-> x ∈ l \/ (x = o /\ ms <> [])) /\ exists fp, trace w' = QueueChanged o fp :: reverse (Enqueued o <$> ms) ++ trace w) as Hall.
  { intros ms o -> ->. destruct (enqueue_list_spec (E := E) (call_origin c) (call_messages c) w l q Hi Hm He) as (w1 & l1 & q1 & Heq & H1 & Hend & Hring & Ht).
    rewrite (st_bind_ok _ _ _ _ _ Heq), get_book_bind. pose proof (en_implements _ _ _ _ _ _ H1) as Hi1.
    destruct (on_queue_changed_spec (E := E) (call_origin c) (book_of (storage w1) (call_origin c)) w1 l1 q1 Hi1) as (w2 & Hq & H2 & Hs & fp & Ht2).
    { apply (inv_book_range _ _ _ _ _ (proj2 Hi1)). }
    exists w2, l1, q1. split; [done|]. split; [by eapply enlarges_trans|]. split; [by rewrite Hs|]. split; [done|]. exists fp. by rewrite Ht2, Ht. }
  destruct c as [m o|ms o]; [|by apply Hall]. destruct (Hall [m] o eq_refl eq_refl) as (w' & l' & q' & Heq & Hr).
  exists w', l', q'. split; [|done]. unfold run_call, enqueue_message. rewrite <- Heq. cbn [st_for]. unfold mbind, st_bind, mret, st_ret.
  by destruct (do_enqueue_message o m w) as [w1 [[]| |]].
Qed.

Lemma run_calls_spec {E} cs w l q :
  implements None l q w -> calls_fit (storage w) cs ->
  exists w' l' q', st_for (fun _ c => run_call (E := E) c) tt cs w = (w', Ok tt) /\ enlarges l q w l' q' w'.
Proof.
  intros Hi [Hm Hc]. unfold lengths_ok in Hm. unfold pages_fit in Hc. rewrite Forall_forall in Hc. assert (forall n, Z.of_nat (length (all_messages cs)) <= n ->
    (forall c, c ∈ cs -> end_ (book_of (storage w) (call_origin c)) + n < 2 ^ 32) -> exists w' l' q',
    st_for (fun _ c => run_call (E := E) c) tt cs w = (w', Ok tt) /\ enlarges l q w l' q' w') as Hg; [|by eapply Hg].
  clear Hc. revert w l q Hi. induction cs as [|c cs IH]; intros w l q Hi n Hn Hc; [exists w, l, q; split; [done|by apply enlarges_refl]|].
  unfold all_messages in Hn, Hm. rewrite fmap_cons in Hn, Hm. simpl in Hn, Hm. rewrite length_app in Hn.
  destruct (run_call_spec (E := E) c w l q Hi) as (w1 & l1 & q1 & Heq & H1 & Hend & _ & _).
  { intros m Hmc. apply Hm. set_solver. }
  { specialize (Hc c ltac:(constructor)). lia. }
  simpl. rewrite (st_bind_ok _ _ _ _ _ Heq).
  destruct (IH ltac:(intros m Hmc; apply Hm; unfold all_messages in Hmc; set_solver) w1 l1 q1 (en_implements _ _ _ _ _ _ H1) (n - Z.of_nat (length (call_messages c)))) as (w2 & l2 & q2 & Heq2 & H2).
  { unfold all_messages. lia. }
  { intros c' Hc'. specialize (Hc c' ltac:(by constructor)). specialize (Hend (call_origin c')). lia. }
  exists w2, l2, q2. split; [done|]. by eapply enlarges_trans.
Qed.

(** What the answer of the processor means. *)
Definition status_of (r : bool + ProcessMessageError) (ol : Weight) : MessageExecutionStatus :=
  match r with
  | inl _ => Processed
  | inr (Overweight_ wt) => if Weight.any_gt wt ol then Overweight else InsufficientWeight
  | inr Yield => Unprocessable false
  | inr StackLimitReached_ => StackLimitReached
  | inr _ => Unprocessable true
  end.

Lemma payload_run {E} o i j m meter ol w w1 :
  let out := process_message m o meter (blake2_256 m) (env w) (storage w) in
  st_for (fun _ c => run_call (E := E) c) tt (out_calls out) (set_env (out_env out) w) = (w1, Ok tt) ->
  exists w', process_message_payload (E := E) o i j m meter ol w = (w', Ok (status_of (out_result out) ol, out_meter out)) /\
    (w' = w1 \/ exists ev, w' = noted (Deposited ev) w1).
Proof.
  intros out Heq. unfold process_message_payload. rewrite st_get_bind, st_modify_bind. fold out. rewrite (st_bind_ok _ _ _ _ _ Heq).
  unfold deposit_event, status_of. destruct (out_result out) as [success|[| | |wt| |]]; [eexists; split; [done|by right; eexists]..| | |eexists; split; [done|by right; eexists]].
  - destruct (Weight.any_gt wt ol); eexists; (split; [done|]); [by right; eexists|by left].
  - eexists. split; [done|by left].
Qed.

Lemma payload_calls {E} o i j m meter ol w l q :
  let out := process_message m o meter (blake2_256 m) (env w) (storage w) in
  implements None l q w -> calls_fit (storage w) (out_calls out) ->
  exists w1 w' l' q', st_for (fun _ c => run_call (E := E) c) tt (out_calls out) (set_env (out_env out) w) = (w1, Ok tt) /\
    process_message_payload (E := E) o i j m meter ol w = (w', Ok (status_of (out_result out) ol, out_meter out)) /\
    enlarges l q w l' q' w' /\ storage w' = storage w1.
Proof.
  intros out Hi Hfit. assert (implements None l q (set_env (out_env out) w)) as Hi1 by exact Hi.
  destruct (run_calls_spec (E := E) (out_calls out) _ l q Hi1 Hfit) as (w1 & l1 & q1 & Heq & H1).
  assert (enlarges l q w l1 q1 w1) as H1' by (by destruct H1). destruct (payload_run (E := E) o i j m meter ol w w1 Heq) as (w' & Hp & Hw').
  exists w1, w', l1, q1. split; [done|]. split; [done|]. destruct Hw' as [->|[ev ->]]; [done|]. split; [|done].
  eapply enlarges_trans; [exact H1'|]. by apply noted_enlarges; [apply (en_implements _ _ _ _ _ _ H1)|..].
Qed.

Section fits.
Context {fits : FitLaws}.

Lemma process_calls m o meter id e s : calls_fit s (out_calls (process_message m o meter id e s)).
Proof. split; [apply process_lengths|apply process_pages]. Qed.

Lemma payload_spec {E} o i j m meter ol w l q :
  implements None l q w -> meter_ok meter ->
  exists w' l' q' meter', process_message_payload (E := E) o i j m meter ol w =
      (w', Ok (status_of (out_result (process_message m o meter (blake2_256 m) (env w) (storage w))) ol, meter')) /\
    enlarges l q w l' q' w' /\ meter_after meter meter'.
Proof.
  intros Hi Hmeter. destruct (payload_calls (E := E) o i j m meter ol w l q Hi (process_calls _ _ _ _ _ _)) as (_ & w' & l' & q' & _ & Hp & En & _).
  eexists w', l', q', _. split; [done|]. split; [done|]. by apply process_meter.
Qed.

(** ** Servicing *)
Lemma inv_ext busy l q s s' :
  (forall x, book_of s' x = book_of s x) -> (forall x i, pg s' x i = pg s x i) -> ServiceHead s' = ServiceHead s -> Inv busy l q s -> Inv busy l q s'.
Proof.
  intros Hb Hp Hh [Hl Hhd Hq Hr]. split.
  - eapply linked_ext; [|done]. intros x. unfold nbs. by rewrite Hb.
  - congruence.
  - intros x. rewrite Hb. eapply queue_inv_ext; [|done..|apply Hq]. intros i. apply Hp.
  - intros x. rewrite Hb. apply Hr.
Qed.

Lemma ring_inv_start l q s o : Inv None l q s -> o ∈ l -> Inv (Some o) l q s.
Proof.
  intros [Hl Hh Hq Hr] Ho. split; [done|done|..].
  - intros x. specialize (Hq x). rewrite bool_decide_false in Hq by done. case_bool_decide; [by apply busy_start|done].
  - intros x. rewrite Hr. split; [intros [?|?]; [by left|done]|]. intros [?|[= ->]]; [by left|]. by apply Hr.
Qed.

Lemma inv_stop l q s o :
  Inv (Some o) l q s -> begin (book_of s o) < end_ (book_of s o) -> (forall p, pg s o (begin (book_of s o)) = Some p -> remaining p <> 0) -> Inv None l q s.
Proof.
  intros [Hl Hh Hq Hr] Hlt Hp. split; [done|done|..].
  - intros x. specialize (Hq x). rewrite (bool_decide_false (None = Some x)) by done. case_bool_decide as Hx; [|done].
    injection Hx as ->. by apply busy_done.
  - intros x. rewrite Hr. split; [|intros [?|?]; [by left|done]]. intros [?|[= ->]]; by left.
Qed.

(** The storage with the book and the page that are being worked on. *)
Definition view s o (b : BookState Origin) (p : Page) : Storage Origin := insert_book o b (insert_page o (begin b) p s).

Lemma view_book s o b p x : book_of (view s o b p) x = if decide (x = o) then b else book_of s x.
Proof. unfold view. by rewrite book_of_insert. Qed.
Lemma view_page s o b p x i : pg (view s o b p) x i = if decide (x = o /\ i = begin b) then Some p else pg s x i.
Proof. unfold view. by rewrite <- pg_insert. Qed.
Lemma view_links s o b p x : nbs (view s o b p) x = upd o (ready_neighbours b) (nbs s) x.
Proof. unfold view. by rewrite nbs_insert. Qed.

(** Reading back what is in the storage. *)
Lemma view_self busy l q s o b p : book_of s o = b -> pg s o (begin b) = Some p -> Inv busy l q s -> Inv busy l q (view s o b p).
Proof.
  intros Hb Hp. apply inv_ext; [|intros x i|done].
  - intros x. rewrite view_book. case_decide; congruence.
  - rewrite view_page. case_decide as Hd; [|done]. destruct Hd as [-> ->]. congruence.
Qed.

(** Other parts of the storage do not matter to the queue of [o]. *)
Lemma view_queue l q s o b p : Inv (Some o) l q (view s o b p) -> queue_inv true b (pg (view s o b p) o) (q o).
Proof.
  intros I. pose proof (inv_queue _ _ _ _ I o) as Q. rewrite bool_decide_true, view_book, decide_True in Q by done. done.
Qed.

(** The state in the loop over a page. *)
Record serving o (b : BookState Origin) p l q w : Prop := {
  sv_replay : replay (trace w) = Some q;
  sv_inv : Inv (Some o) l q (view (storage w) o b p);
  sv_range : begin b < end_ b;
  sv_links : nbs (storage w) o = ready_neighbours b;
}.

(** A message is served from the page. *)
Lemma serve_update l q s o m p p' items k (processed : bool) :
  Inv None l q s -> begin (book_of s o) < end_ (book_of s o) -> pg s o (begin (book_of s o)) = Some p ->
  page_ok HeapSize p items k -> items !! k = Some (false, m) -> page_ok HeapSize p' (if processed then <[k := (true, m)]> items else items) (S k) ->
  let b := book_of s o in
  let b' := if processed then set_messages (dec (message_count b)) (saturating_sub (size_ b) (Z.of_nat (length m))) b else b in
  exists q', spec_step (Hash := Hash) (Served o m processed) q = Some q' /\ Inv (Some o) l q' (view s o b' p').
Proof.
  intros I Hlt Hp Hok Hi Hok' b b'. pose proof (inv_queue _ _ _ _ I o) as Q. rewrite bool_decide_false in Q by done. fold b in Q.
  assert (begin b' = begin b /\ end_ b' = end_ b /\ ready_neighbours b' = ready_neighbours b) as (Eb & Ee & En) by (unfold b'; by destruct processed).
  destruct (serve_inv heap_range b (pg s o) (pg (view s o b' p') o) (q o) processed m p p' items k Q Hlt Hp Hok Hi Hok') as (rest & Hpe & Q').
  { intros i Hne. rewrite view_page, decide_False by (rewrite Eb; naive_solver). done. }
  { by rewrite view_page, Eb, decide_True by done. }
  exists (spec_set o {| q_pending := rest; q_parked := if processed then q_parked (q o) else m :: q_parked (q o) |} q).
  split; [simpl; by rewrite Hpe, decide_True by done|]. eapply ring_inv_update; [exact I|intros x Hx; split; [done|congruence]|..].
  - intros x Hx. rewrite view_book, view_links, upd_ne, decide_False by done. unfold nbs. by destruct (book_of s x).
  - intros x i Hx. rewrite view_page, decide_False by naive_solver. done.
  - eapply linked_ext; [|apply (inv_linked _ _ _ _ I)]. intros x. rewrite view_links. unfold upd. case_decide; [subst x; by rewrite En|done].
  - apply (inv_head _ _ _ _ I).
  - done.
  - rewrite bool_decide_true by done. rewrite view_book, decide_True by done. exact Q'.
  - split; [by right|]. intros _. apply (inv_ready _ _ _ _ I). by left.
Qed.

Lemma serving_page o b p l q w : serving o b p l q w ->
  page_ok HeapSize p (items_of p) (Z.to_nat (first_index p)) /\ untouched (Z.to_nat (first_index p)) (items_of p).
Proof.
  intros [_ I Hlt _]. pose proof (view_queue _ _ _ _ _ _ I) as Q.
  assert (pg (view (storage w) o b p) o (begin b) = Some p) as Hp by (by rewrite view_page, decide_True).
  split; [apply (qi_page _ _ _ _ Q _ _ Hp)|]. apply (qi_fresh _ _ _ _ Q _ _ Hp). lia.
Qed.

(** The book and the page are written back before a message is processed. *)
Lemma serving_stop o b p l q w : serving o b p l q w -> remaining p <> 0 ->
  implements None l q (set_storage (insert_book o b) (set_storage (insert_page o (begin b) p) w)).
Proof.
  intros [Hrep I Hlt _] Hnz. split; [done|]. change (storage (set_storage _ _)) with (view (storage w) o b p).
  apply (inv_stop _ _ _ o); [done|by rewrite view_book, decide_True|]. rewrite view_book, decide_True by done. intros p0. rewrite view_page, decide_True by done. congruence.
Qed.

Definition item_result o b p w meter (st : ItemExecutionStatus) b' p' l' q' w' meter' : Prop :=
  serving o b' p' l' q' w' /\ begin b' = begin b /\ quiet w w' /\ meter_after meter meter' /\
  match st with NoItem => waiting p' = [] | Bailed | NoProgress => remaining p' <> 0 | Executed _ => first_ p < first_ p' end.

Lemma item_spec {E} o b p meter ol l q w :
  serving o b p l q w -> meter_ok meter ->
  exists w' st b' p' meter' l' q', service_page_item (E := E) o (begin b) b p meter ol w = (w', Ok (st, b', p', meter')) /\
    item_result o b p w meter st b' p' l' q' w' meter' /\ l `prefix_of` l'.
Proof.
  intros Hsv Hm. pose proof (serving_page _ _ _ _ _ _ Hsv) as [Hok Hun]. unfold service_page_item, is_complete.
  destruct (Z.eqb_spec (remaining p) 0) as [Hz|Hnz].
  { exists w, NoItem, b, p, meter, l, q. split; [done|]. split; [|done]. split; [done|]. split; [done|]. split; [done|]. split; [by apply meter_after_refl|].
    unfold waiting. rewrite (complete_done _ _ _ Hok Hun Hz). by rewrite drop_all. }
  destruct (try_consume_spec meter (w_service_page_item weights) Hm) as (m1 & r & Htc & Ma & Hr); [apply weights_range|]. rewrite Htc.
  destruct Hr as [[-> _]|(-> & -> & _)].
  2:{ exists w, Bailed, b, p, meter, l, q. split; [done|]. split; [|done]. split; [done|]. split; [done|]. split; [done|]. split; [done|]. done. }
  rewrite (st_bind_ok _ _ _ _ _ (peek_first_spec heap_range p _ _ w Hok)). destruct (items_of p !! Z.to_nat (first_index p)) as [[d m]|] eqn:Hi.
  2:{ exists w, NoItem, b, p, m1, l, q. split; [done|]. split; [|done]. split; [done|]. split; [done|]. split; [done|]. split; [done|].
      unfold waiting. apply lookup_ge_None in Hi. by rewrite drop_ge. }
  pose proof (Hun _ _ (Nat.le_refl _) Hi) as Hd. simpl in Hd. subst d. cbn [fmap option_fmap option_map snd].
  unfold put_page, put_book. rewrite modify_bind, modify_bind.
  set (w1 := set_storage (insert_book o b) (set_storage (insert_page o (begin b) p) w)). change (storage w1) with (view (storage w) o b p) in *.
  assert (implements None l q w1) as Hi1 by (by apply serving_stop).
  destruct (payload_spec (E := E) o (begin b) (first_index p) m m1 ol w1 l q Hi1 (proj1 Ma)) as (w2 & l2 & q2 & m2 & Heq & En & Mb).
  set (st := status_of _ ol) in Heq.
  rewrite (st_bind_ok _ _ _ _ _ Heq), get_book_bind, get_page_bind. destruct En as [[Hrep2 I2] Hl2 _ Hg Hq2].
  destruct (Hg o) as [Hb2 Hp2]. change (storage w1) with (view (storage w) o b p) in Hb2, Hp2. rewrite view_book, decide_True in Hb2 by done.
  destruct (Hp2 (begin b) p) as (p2 & its & Hpg2 & Hit2 & Hfi2); [by rewrite view_page, decide_True|]. unfold pg in Hpg2. rewrite Hpg2.
  set (b2 := book_of (storage w2) o) in *. rewrite <- Hb2 in Hpg2.
  pose proof (inv_queue _ _ _ _ I2 o) as Q2. rewrite bool_decide_false in Q2 by done. fold b2 in Q2.
  assert (begin b2 < end_ b2) as Hlt2 by (pose proof (qi_index _ _ _ _ Q2 _ _ Hpg2); lia).
  pose proof (qi_page _ _ _ _ Q2 _ _ Hpg2) as Hok2. rewrite Hfi2 in Hok2.
  assert (items_of p2 !! Z.to_nat (first_index p) = Some (false, m)) as Hi2 by (rewrite Hit2; by apply lookup_app_l_Some).
  pose proof (meter_after_trans _ _ _ Ma Mb) as Mc.
  assert (forall st', match st' with Bailed | NoProgress => True | _ => False end -> exists w' st b' p' meter' l' q',
    mret (M := ST _ E) (st', b2, p2, m2) w2 = (w', Ok (st, b', p', meter')) /\ item_result o b p w meter st b' p' l' q' w' meter' /\ l `prefix_of` l') as Hkeep.
  { intros st' Hst. exists w2, st', b2, p2, m2, l2, q2. split; [done|]. split; [|done]. split.
    - split; [done| |done|done]. apply view_self; [done|done|]. apply ring_inv_start; [done|]. apply (inv_ready _ _ _ _ I2). by left.
    - split; [done|]. split; [done|]. split; [done|]. assert (remaining p2 <> 0) by (destruct (qi_some _ _ _ _ Q2 _ _ Hpg2) as [|[? _]]; done).
      by destruct st'. }
  assert (forall processed, exists w' st b' p' meter' l' q',
    (note (Served o m processed);; page ← st_lift (skip_first (E := E) p2 processed);
     mret (Executed processed, if processed then set_messages (dec (message_count b2)) (saturating_sub (size_ b2) (Z.of_nat (length m))) b2 else b2, page, m2)) w2 =
      (w', Ok (st, b', p', meter')) /\ item_result o b p w meter st b' p' l' q' w' meter' /\ l `prefix_of` l') as Hserve.
  { intros processed. destruct (skip_first_spec heap_range (E := E) p2 _ _ m processed Hok2 Hi2) as (p3 & Hskip & Hok3).
    destruct (serve_update l2 q2 (storage w2) o m p2 p3 _ _ processed I2 Hlt2 Hpg2 Hok2 Hi2 Hok3) as (q3 & Hq3 & I3).
    rewrite note_bind, (st_lift_ok _ _ _ _ Hskip). eexists _, _, _, _, _, l2, q3. split; [done|]. split; [|done]. split.
    - split; [simpl; by rewrite Hrep2|done|by destruct processed..].
    - split; [by destruct processed|]. split; [done|]. split; [done|].
      rewrite (ok_first _ _ _ _ Hok), (ok_first _ _ _ _ Hok3). set (items3 := if processed then _ else _) in *.
      replace (offset (items_of p) (Z.to_nat (first_index p))) with (offset items3 (Z.to_nat (first_index p))).
      + apply (offset_mono HeapSize (proj2 heap_range)); [|lia|apply (ok_k _ _ _ _ Hok3)]. rewrite <- (ok_heap _ _ _ _ Hok3). apply (ok_bound _ _ _ _ Hok3).
      + unfold offset. do 3 f_equal. pose proof (lookup_lt_Some _ _ _ Hi). unfold items3.
        destruct processed; rewrite ?take_insert_ge, Hit2, take_app_le by lia; done. }
  destruct st as [| | |[]|]; [by apply Hkeep|apply (Hserve false)|apply (Hserve true)|apply (Hserve true)|by apply Hkeep|apply (Hserve true)].
Qed.

(** The state in the loop over the pages of a queue. *)
Record walking o b l q w : Prop := {
  wk_replay : replay (trace w) = Some q;
  wk_inv : Inv (Some o) l q (insert_book o b (storage w));
  wk_whole p : pg (storage w) o (begin b) = Some p -> remaining p <> 0;
  wk_links : nbs (storage w) o = ready_neighbours b;
}.

Lemma serving_first o b p l q w : serving o b p l q w -> 0 <= first_ p <= HeapSize.
Proof.
  intros [[Hh Hb _ _ _ Hf _ _ _] _]%serving_page. rewrite Hf. rewrite Hh in Hb. pose proof (offset_le (items_of p) (Z.to_nat (first_index p))).
  unfold offset at 1. lia.
Qed.

Lemma page_loop_spec {E} o b p meter ol l q w n :
  serving o b p l q w -> meter_ok meter ->
  exists w' v st l' q', st_loop (service_page_round (E := E) o (begin b) ol) 32 {| l_book := b; l_page := p; l_weight := meter; l_processed := n |} w = (w', Ok (v, st)) /\
    serving o (l_book v) (l_page v) l' q' w' /\ begin (l_book v) = begin b /\ quiet w w' /\ meter_after meter (l_weight v) /\ l `prefix_of` l' /\
    match st with NoMore => waiting (l_page v) = [] | _ => remaining (l_page v) <> 0 end.
Proof.
  intros Hsv Hm. set (Iv := fun (k : Z) (v : PageLoop (Origin := Origin)) w' => exists l' q', serving o (l_book v) (l_page v) l' q' w' /\ begin (l_book v) = begin b /\
    quiet w w' /\ meter_after meter (l_weight v) /\ l `prefix_of` l' /\ k = HeapSize - first_ (l_page v)).
  pose proof (serving_first _ _ _ _ _ _ Hsv) as Hf. pose proof heap_range as Hh. pose proof size_bits_pow.
  assert (total (st_loop (service_page_round (E := E) o (begin b) ol) 32 {| l_book := b; l_page := p; l_weight := meter; l_processed := n |})
    (fun r w' => exists l' q', serving o (l_book r.1) (l_page r.1) l' q' w' /\ begin (l_book r.1) = begin b /\ quiet w w' /\ meter_after meter (l_weight r.1) /\
      l `prefix_of` l' /\ match r.2 with NoMore => waiting (l_page r.1) = [] | _ => remaining (l_page r.1) <> 0 end) w) as Ht.
  { eapply (total_loop _ Iv) with (n := HeapSize - first_ p).
    - change (Z.of_nat 32) with 32. lia.
    - exists l, q. split; [done|]. split; [done|]. split; [done|]. split; [by apply meter_after_refl|]. done.
    - intros k v w1 _ (l1 & q1 & Hsv1 & Hb1 & Hq1 & Hm1 & Hl1 & ->). unfold service_page_round.
      destruct (item_spec (E := E) o (l_book v) (l_page v) (l_weight v) ol l1 q1 w1 Hsv1 (proj1 Hm1))
        as (w2 & st & b2 & p2 & m2 & l2 & q2 & Heq & (Hsv2 & Hb2 & Hq2 & Hm2 & Hst) & Hl2).
      rewrite Hb1 in Heq. apply total_bind. unfold total at 1. rewrite Heq. pose proof (meter_after_trans _ _ _ Hm1 Hm2) as Hm3.
      assert (quiet w w2) by (unfold quiet in *; congruence). assert (begin b2 = begin b) by congruence. assert (l `prefix_of` l2) by (by etrans).
      destruct st; cbn; try (by exists l2, q2).
      pose proof (serving_first _ _ _ _ _ _ Hsv2). exists (HeapSize - first_ p2). split; [lia|]. by exists l2, q2. }
  apply total_ok in Ht as (w' & [v st] & Heq & l' & q' & Hr). exists w', v, st, l', q'. done.
Qed.

(** The page is left. *)
Lemma next_page_update l q s o b p s' :
  Inv (Some o) l q (view s o b p) -> begin b < end_ b -> waiting p = [] ->
  (forall x, book_of s' x = book_of s x) -> ServiceHead s' = ServiceHead s ->
  (forall x i, pg s' x i = if decide (x = o /\ i = begin b) then (if remaining p =? 0 then None else Some p) else pg s x i) ->
  let b' := set_begin (inc32 (begin b)) (if remaining p =? 0 then set_count (dec (count b)) b else b) in
  Inv (Some o) l q (insert_book o b' s') /\ (forall p', pg s' o (begin b') = Some p' -> remaining p' <> 0).
Proof.
  intros I Hlt Hw Hb Hh Hp b'. pose proof (view_queue _ _ _ _ _ _ I) as Q.
  assert (ready_neighbours b' = ready_neighbours b) as En by (unfold b'; by destruct (remaining p =? 0)).
  assert (queue_inv false b' (pg s' o) (q o)) as Q'.
  { apply (next_page_inv heap_range b (pg (view s o b p) o) (pg s' o) (q o) p Q Hlt); [by rewrite view_page, decide_True|done|..].
    - intros i Hi. rewrite Hp, view_page, !decide_False by naive_solver. done.
    - by rewrite Hp, decide_True by done. }
  split.
  2:{ intros p' Hp'. destruct (qi_some _ _ _ _ Q' _ _ Hp') as [|[? _]]; done. }
  assert (Inv (Some o) l (spec_set o (q o) q) (insert_book o b' s')) as I'.
  { eapply ring_inv_update; [exact I|intros x Hx; split; congruence|..].
    - intros x Hx. rewrite book_of_insert, nbs_insert, upd_ne, decide_False, view_book, decide_False by done. unfold nbs. rewrite Hb. by destruct (book_of s x).
    - intros x i Hx. change (pg (insert_book o b' s') x i) with (pg s' x i). rewrite Hp, view_page, !decide_False by naive_solver. done.
    - eapply linked_ext; [|apply (inv_linked _ _ _ _ I)]. intros x. rewrite nbs_insert, view_links, En. apply upd_ext. intros y. unfold nbs. by rewrite Hb.
    - transitivity (ServiceHead s'); [done|]. rewrite Hh. apply (inv_head _ _ _ _ I).
    - done.
    - rewrite bool_decide_true, book_of_insert, decide_True by done. by apply busy_start.
    - split; [by right|]. intros _. apply (inv_ready _ _ _ _ I). by right. }
  destruct I' as [I1 I2 I3 I4]. split; [done|done| |done]. intros x. specialize (I3 x). by rewrite spec_set_id in I3.
Qed.

Lemma walking_serving o b l q w : walking o b l q w -> begin b < end_ b -> exists p, pg (storage w) o (begin b) = Some p /\ serving o b p l q w.
Proof.
  intros [Hrep I Hwh Hnb] Hlt. pose proof (inv_queue _ _ _ _ I o) as Q. rewrite bool_decide_true, book_of_insert, decide_True in Q by done.
  destruct (qi_ready _ _ _ _ Q (begin b) ltac:(lia)) as [p Hp]. change (pg (insert_book _ _ _) o (begin b)) with (pg (storage w) o (begin b)) in Hp.
  exists p. split; [done|]. split; [done| |done|done]. eapply inv_ext; [| | |exact I].
  - intros x. by rewrite view_book, book_of_insert.
  - intros x i. rewrite view_page. case_decide as Hd; [|done]. destruct Hd as [-> ->]. by rewrite <- Hp.
  - done.
Qed.

Lemma service_page_spec {E} o b meter ol l q w :
  walking o b l q w -> begin b < end_ b -> meter_ok meter ->
  exists w' n st b' meter' l' q', service_page (E := E) o b meter ol w = (w', Ok (n, st, b', meter')) /\
    quiet w w' /\ meter_after meter meter' /\ l `prefix_of` l' /\ begin b' = begin b /\
    match st with
    | NoMore => walking o (set_begin (inc32 (begin b')) b') l' q' w'
    | _ => walking o b' l' q' w' /\ begin b' < end_ b'
    end.
Proof.
  intros Hwk Hlt Hm. unfold service_page.
  destruct (try_consume_spec meter (Weight.max (w_service_page_base_completion weights) (w_service_page_base_no_completion weights)) Hm) as (m1 & r & Htc & Ma & Hr).
  { destruct weights_range as (_ & _ & W1 & W2 & _). unfold in_range, in_u, Weight.max in *. simpl. lia. }
  rewrite Htc. destruct Hr as [[-> _]|(-> & -> & _)].
  2:{ exists w, 0, PageBailed, b, meter, l, q. split; [done|]. split; [done|]. split; [done|]. done. }
  destruct (walking_serving _ _ _ _ _ Hwk Hlt) as (p & Hp & Hsv). rewrite get_page_bind. unfold pg in Hp. rewrite Hp.
  destruct (page_loop_spec (E := E) o b p m1 ol l q w 0 Hsv (proj1 Ma)) as (w1 & v & st & l1 & q1 & Heq & Hsv1 & Hb1 & Hq1 & Hm1 & Hl1 & Hst).
  rewrite (st_bind_ok _ _ _ _ _ Heq). destruct v as [b1 p1 m2 n]. cbn [l_book l_page l_weight l_processed] in *.
  pose proof (meter_after_trans _ _ _ Ma Hm1) as Hm2. pose proof Hsv1 as [Hrep1 I1 Hlt1 Hnb1]. pose proof (view_queue _ _ _ _ _ _ I1) as Q1.
  assert (pg (view (storage w1) o b1 p1) o (begin b1) = Some p1) as Hp1 by (by rewrite view_page, decide_True).
  destruct (page_le_counters heap_range _ _ _ _ _ Q1 Hp1) as (Hcount & _). rewrite <- Hb1. unfold is_complete.
  destruct (Z.eqb_spec (remaining p1) 0) as [Hz|Hnz].
  - assert (st = NoMore) as -> by (destruct st; [done..|done]). rewrite (st_bind_ok _ _ _ (set_storage (remove_page o (begin b1)) w1) (set_count (dec (count b1)) b1)).
    2:{ rewrite assert_bind by done. unfold del_page. rewrite modify_bind, assert_bind by (apply Z.ltb_lt; lia). done. }
    exists (set_storage (remove_page o (begin b1)) w1), n, NoMore, (set_count (dec (count b1)) b1), m2, l1, q1. split; [done|]. split; [done|]. split; [done|]. split; [done|]. split; [done|].
    destruct (next_page_update l1 q1 (storage w1) o b1 p1 (remove_page o (begin b1) (storage w1)) I1 Hlt1 Hst) as [I2 Hwh]; [done|done| |].
    { intros x i. rewrite pg_remove, (proj2 (Z.eqb_eq _ _) Hz). done. }
    rewrite (proj2 (Z.eqb_eq _ _) Hz) in I2, Hwh. by split.
  - rewrite (st_bind_ok _ _ _ (set_storage (insert_page o (begin b1) p1) w1) b1) by done.
    exists (set_storage (insert_page o (begin b1) p1) w1), n, st, b1, m2, l1, q1. split; [done|]. split; [done|]. split; [done|]. split; [done|]. split; [done|].
    assert (walking o b1 l1 q1 (set_storage (insert_page o (begin b1) p1) w1)) as Hwk1.
    { split; [done|exact I1| |done]. intros p0. cbn [storage set_storage]. rewrite pg_insert, decide_True by done. congruence. }
    destruct st; [done..|].
    destruct (next_page_update l1 q1 (storage w1) o b1 p1 (insert_page o (begin b1) p1 (storage w1)) I1 Hlt1 Hst) as [I2 Hwh]; [done|done| |].
    { intros x i. rewrite pg_insert, (proj2 (Z.eqb_neq _ _) Hnz). done. }
    rewrite (proj2 (Z.eqb_neq _ _) Hnz) in I2, Hwh. by split.
Qed.

Lemma queue_loop_spec {E} o b meter ol l q w n :
  walking o b l q w -> meter_ok meter ->
  exists w' b' meter' n' l' q', st_loop (service_queue_round (E := E) o ol) 32 (b, meter, n) w = (w', Ok (b', meter', n')) /\
    walking o b' l' q' w' /\ quiet w w' /\ meter_after meter meter' /\ l `prefix_of` l'.
Proof.
  intros Hwk Hm.
  set (Iv := fun (k : Z) (v : BookState Origin * WeightMeter * Z) w' => exists l' q', walking o v.1.1 l' q' w' /\ quiet w w' /\ meter_after meter v.1.2 /\
    l `prefix_of` l' /\ k = 2 ^ 32 - 1 - begin v.1.1).
  assert (forall b l q w, walking o b l q w -> 0 <= begin b <= end_ b /\ end_ b < 2 ^ 32) as Hrange.
  { intros b0 l0 q0 w0 [_ I _ _]. pose proof (inv_book_range _ _ _ _ o I) as Hr. by rewrite book_of_insert, decide_True in Hr. }
  assert (total (st_loop (service_queue_round (E := E) o ol) 32 (b, meter, n))
    (fun r w' => exists l' q', walking o r.1.1 l' q' w' /\ quiet w w' /\ meter_after meter r.1.2 /\ l `prefix_of` l') w) as Ht.
  { eapply (total_loop _ Iv) with (n := 2 ^ 32 - 1 - begin b).
    - change (Z.of_nat 32) with 32. pose proof (Hrange _ _ _ _ Hwk). lia.
    - exists l, q. split; [done|]. split; [done|]. split; [by apply meter_after_refl|]. done.
    - intros k [[b1 m1] n1] w1 Hk (l1 & q1 & Hwk1 & Hq1 & Hm1 & Hl1 & ->). cbn [fst snd] in *. unfold service_queue_round.
      destruct (Z.ltb_spec (begin b1) (end_ b1)) as [Hlt|Hge]; [|by exists l1, q1].
      destruct (service_page_spec (E := E) o b1 m1 ol l1 q1 w1 Hwk1 Hlt (proj1 Hm1)) as (w2 & n2 & st & b2 & m2 & l2 & q2 & Heq & Hq2 & Hm2 & Hl2 & Hb2 & Hst).
      apply total_bind. unfold total at 1. rewrite Heq. pose proof (meter_after_trans _ _ _ Hm1 Hm2) as Hm3.
      assert (quiet w w2) by (unfold quiet in *; congruence). assert (l `prefix_of` l2) by (by etrans).
      destruct st; cbn; [exists l2, q2; tauto..|].
      pose proof (Hrange _ _ _ _ Hst) as Hr. cbn [begin set_begin end_] in Hr.
      assert (begin b1 < inc32 (begin b2)) by (pose proof (Hrange _ _ _ _ Hwk1); rewrite Hb2; unfold inc32, saturating_add; lia).
      exists (2 ^ 32 - 1 - inc32 (begin b2)). split; [lia|]. by exists l2, q2. }
  apply total_ok in Ht as (w' & [[b' m'] n'] & Heq & l' & q' & Hr). exists w', b', m', n', l', q'. done.
Qed.
End fits.
End laws.
End inv.

Section cut_off.
Context {Origin Hash Env : Type} `{Countable Origin} {codec : HeaderCodec} {T : Config Origin Hash Env}.

Lemma cut_off_laws : ConfigLaws -> ConfigLaws (T := cut_off).
Proof.
  intros [L1 L2 L3 L4 L5 L6 L7]. split; [done..| |].
  - intros m o meter id e s Hm. specialize (L6 m o meter id e s Hm). cbn [process_message cut_off]. by case_decide.
  - intros m o meter id e s. cbn [process_message cut_off]. case_decide; [apply L7|]. intros m' Hm'. by apply not_elem_of_nil in Hm'.
Qed.

Lemma cut_off_fits : FitLaws (T := cut_off).
Proof. intros m o meter id e s. cbn [process_message cut_off]. case_decide; [done|constructor]. Qed.

Lemma implements_cut_off busy l q (w : World Origin Hash Env) : implements (T := cut_off (T := T)) busy l q w <-> implements busy l q w.
Proof.
  unfold implements. split; (intros [Hrep [I1 I2 I3 I4]]; split; [done|]; split; [done|done| |done]; intros o; destruct (I3 o); by split).
Qed.
End cut_off.
