(* ===== verification/MessageQueueService.v ===== *)
(** * Servicing the message queue

    What [service_queue], [service_queues] and [sweep_queue] do: they end, they keep to the
    weight that they are given, no assertion fails, and the storage keeps implementing the
    specification. *)
From stdpp Require Import base gmap list strings.
From Stdlib Require Import ZArith Lia.
From S2P Require Import Prelude Weights MessageQueue MessageQueuePage MessageQueueSpec MessageQueueRing MessageQueueInv.
Set Warnings "-clear-no-such-hyp".
Open Scope Z_scope.

Section service.
Context {Origin Hash Env : Type} `{Countable Origin} {codec : HeaderCodec} {T : Config Origin Hash Env}.
Context {laws : HeaderCodecLaws codec} {claws : ConfigLaws}.
Implicit Types (s : Storage Origin) (w : World Origin Hash Env) (l : list Origin) (o x : Origin) (q : Spec (Origin := Origin)) (b : BookState Origin).

Lemma middle_once o l1 l2 : NoDup (l1 ++ o :: l2) -> o ∉ l1 ++ l2.
Proof. intros (_ & Hd & [? _]%NoDup_cons)%NoDup_app. specialize (Hd o). set_solver. Qed.

(** A queue leaves the ring. *)
Lemma unready_update busy l l' q s s1 o b sp :
  Inv busy l q s -> (forall x, x <> o -> busy <> Some x) ->
  (forall x, x <> o -> book_of s1 x = set_neighbours (nbs s1 x) (book_of s x)) -> (forall x i, pg s1 x i = pg s x i) ->
  ServiceHead s1 = head l' -> linked (upd o None (nbs s1)) l' -> (forall x, x <> o -> x ∈ l' <-> x ∈ l) -> o ∉ l' ->
  queue_inv false b (pg s o) sp -> end_ b <= begin b ->
  Inv None l' (spec_set o sp q) (insert_book o (set_neighbours None b) s1).
Proof.
  intros I Hbz Hb Hp Hh Hl Hll Ho Q He. eapply ring_inv_update; [exact I|intros x Hx; split; [by apply Hbz|done]|..].
  - intros x Hx. rewrite nbs_insert, upd_ne, book_of_insert, decide_False by done. by apply Hb.
  - intros x i _. apply Hp.
  - eapply linked_ext; [|exact Hl]. intros x. by rewrite nbs_insert.
  - done.
  - done.
  - rewrite bool_decide_false, book_of_insert, decide_True by done. apply queue_inv_links with (pg s o); [|done]. intros i. apply Hp.
  - rewrite book_of_insert, decide_True by done. cbn [begin end_ set_neighbours]. split; [done|]. intros [|?]; [lia|done].
Qed.

Lemma inv_set_id busy l q s o : Inv busy l (spec_set o (q o) q) s -> Inv busy l q s.
Proof. intros [I1 I2 I3 I4]. split; [done|done| |done]. intros x. specialize (I3 x). by rewrite spec_set_id in I3. Qed.

Section fits.
Context {fits : FitLaws}.

Lemma walking_start o l q w : implements None l q w -> o ∈ l -> walking o (book_of (storage w) o) l q w.
Proof.
  intros [Hrep I] Ho. split; [done| | |done].
  - eapply inv_ext; [..|by apply ring_inv_start]; [|done|done]. intros x. rewrite book_of_insert. by case_decide; subst.
  - intros p Hp. pose proof (inv_queue _ _ _ _ I o) as Q. rewrite bool_decide_false in Q by done. by destruct (qi_some _ _ _ _ Q _ _ Hp) as [|[? _]].
Qed.

(** The end of [service_queue]. *)
Lemma walking_end {E A} o b l q w (k : BookState Origin -> ST (World Origin Hash Env) E A) c msg :
  walking o b l q w ->
  exists w' b' l', (book_state ← (if end_ b <=? begin b then
           match ready_neighbours b with
           | Some neighbours => ready_ring_unknit o neighbours;; mret (set_neighbours None b)
           | None => debug_assert c msg;; mret b
           end
         else mret b); put_book o book_state;; k book_state) w = k b' w' /\ implements None l' q w' /\ quiet w w' /\ begin b' <= end_ b'.
Proof.
  intros [Hrep I Hwh Hnb]. pose proof (inv_book_range _ _ _ _ o I) as Hr. rewrite book_of_insert, decide_True in Hr by done.
  assert (o ∈ l) as Ho by (apply (inv_ready _ _ _ _ I); by right). destruct (Z.leb_spec (end_ b) (begin b)) as [He|He].
  2:{ exists (set_storage (insert_book o b) w), b, l. split; [done|]. split; [|split; [done|lia]]. split; [done|].
      apply (inv_stop _ _ _ o); [done|..]; cbn [storage set_storage]; rewrite book_of_insert, decide_True by done; done. }
  assert (linked (nbs (storage w)) l) as Hl.
  { eapply linked_ext; [|apply (inv_linked _ _ _ _ I)]. intros x. rewrite nbs_insert. unfold upd. case_decide; [subst; done|done]. }
  destruct (proj2 (linked_is_some _ _ o Hl) Ho) as [n Hn]. rewrite <- Hnb, Hn. apply list_elem_of_split in Ho as (l1 & l2 & ->).
  destruct (unknit_spec (E := E) o w l1 l2 n Hl (inv_head _ _ _ _ I) Hn) as (s1 & Hun & [Hp1 Hb1] & Hh1 & Hl1).
  rewrite (st_bind_ok _ _ w (set_storage (fun _ => s1) w) (set_neighbours None b)) by (by rewrite (st_bind_ok _ _ _ _ _ Hun)).
  unfold put_book. rewrite modify_bind.
  eexists _, _, (l1 ++ l2). split; [done|]. split; [|split; [done|cbn [begin end_ set_neighbours]; lia]]. split; [done|].
  cbn [storage set_storage]. apply (inv_set_id _ _ _ _ o). eapply unready_update; [exact I|congruence|..].
  - intros x Hx. by rewrite book_of_insert, decide_False by done.
  - intros x i. unfold pg. rewrite Hp1. done.
  - done.
  - done.
  - set_solver.
  - apply middle_once, (linked_nodup _ _ Hl).
  - pose proof (inv_queue _ _ _ _ I o) as Q. rewrite bool_decide_true, book_of_insert, decide_True in Q by done. by apply busy_done.
  - done.
Qed.

(** ** [service_queue] *)
Definition queue_base : Weight := Weight.saturating_add (w_service_queue_base weights) (w_ready_ring_unknit weights).

Lemma queue_base_range : in_range queue_base.
Proof. destruct weights_range as (_ & W1 & _ & _ & _ & W2 & _). unfold in_range, in_u, queue_base, Weight.saturating_add, saturating_add in *. simpl. lia. Qed.

(** What servicing does to the world. *)
Definition serviced l q w meter w' meter' : Prop := exists l' q', implements None l' q' w' /\ quiet w w' /\ meter_after meter meter'.

(** There is a next queue only if weight was taken. *)
Definition paid meter (next : option Origin) meter' : Prop := is_Some next -> within (plus (consumed meter) queue_base) (consumed meter').

Lemma loop_idle {E} o b meter ol w : end_ b <= begin b -> st_loop (service_queue_round (E := E) o ol) 32 (b, meter, 0) w = (w, Ok (b, meter, 0)).
Proof.
  intros He. assert (total (st_loop (service_queue_round (E := E) o ol) 32 (b, meter, 0)) (fun r w' => r = (b, meter, 0) /\ w' = w) w) as Ht.
  { apply total_loop with (fun _ v w' => v = (b, meter, 0) /\ w' = w) 0; [done|done|]. intros n v w' _ [-> ->]. unfold service_queue_round.
    destruct (Z.ltb_spec (begin b) (end_ b)); [lia|]. done. }
  apply total_ok in Ht as (w' & r & -> & -> & ->). done.
Qed.

Lemma service_queue_spec {E} o meter ol l q w :
  implements None l q w -> meter_ok meter ->
  exists w' progressed next meter', service_queue (E := E) o meter ol w = (w', Ok (progressed, next, meter')) /\
    serviced l q w meter w' meter' /\ paid meter next meter'.
Proof.
  intros Hi Hm. unfold service_queue. fold queue_base.
  destruct (try_consume_spec meter queue_base Hm queue_base_range) as (m1 & r & Htc & Ma & Hr). rewrite Htc. destruct Hr as [[-> Hc]|(-> & -> & _)].
  2:{ exists w, false, None, meter. split; [done|]. split; [by exists l, q|]. by intros []. }
  assert (forall nx m2, meter_after m1 m2 -> paid meter nx m2) as Hpaid.
  { intros nx m2 (_ & _ & Hw) _. unfold within in *. rewrite Hc in Hw. done. }
  rewrite get_book_bind, st_get_bind. set (b := book_of (storage w) o). destruct (is_paused (env w) o).
  { exists w, false, (next <$> ready_neighbours b), m1. split; [done|]. split; [by exists l, q|]. apply Hpaid. by apply meter_after_refl, Ma. }
  destruct (decide (o ∈ l)) as [Ho|Ho].
  - destruct (queue_loop_spec (E := E) o b m1 ol l q w 0 (walking_start _ _ _ _ Hi Ho) (proj1 Ma)) as (w1 & b1 & m2 & n & l1 & q1 & Heq & Hwk & Hq1 & Hm1 & _).
    rewrite (st_bind_ok _ _ _ _ _ Heq).
    destruct (walking_end (E := E) o b1 l1 q1 w1 (fun b' => (if 0 <? n then on_queue_changed o b' else mret tt);; mret (0 <? n, next <$> ready_neighbours b1, m2))
      (negb (0 <? n)) "Freshly processed queue must have been ready" Hwk) as (w2 & b2 & l2 & Hend & Hi2 & Hq2 & Hr2). rewrite Hend.
    assert (exists w3, (if 0 <? n then on_queue_changed (E := E) o b2 else mret tt) w2 = (w3, Ok tt) /\ implements None l2 q1 w3 /\ quiet w2 w3) as (w3 & Hoc & Hi3 & Hq3).
    { destruct (0 <? n); [|by exists w2]. destruct (on_queue_changed_spec (E := E) o b2 w2 l2 q1 Hi2 Hr2) as (w3 & Hoc & [] & _). by exists w3. }
    rewrite (st_bind_ok _ _ _ _ _ Hoc). exists w3, (0 <? n), (next <$> ready_neighbours b1), m2. split; [done|]. split; [|by apply Hpaid].
    exists l2, q1. split; [done|]. split; [unfold quiet in *; congruence|]. by eapply meter_after_trans.
  - pose proof Hi as [Hrep I]. assert (end_ b <= begin b) as He.
    { destruct (Z.le_gt_cases (end_ b) (begin b)) as [|Hlt]; [done|]. exfalso. apply Ho, (inv_ready _ _ _ _ I). by left; fold b; lia. }
    pose proof (linked_out _ _ (inv_linked _ _ _ _ I) o Ho) as Hn. unfold nbs in Hn. fold b in Hn.
    rewrite (st_bind_ok _ _ _ _ _ (loop_idle o b m1 ol w He)), Hn. cbn [fmap option_fmap option_map]. rewrite (proj2 (Z.leb_le _ _) He).
    eexists _, _, _, _. split; [done|]. split; [|apply Hpaid; by apply meter_after_refl, Ma]. exists l, q. split; [|done]. split; [done|].
    eapply inv_ext; [..|exact I]; [|done|done]. intros x. cbn [storage set_storage]. rewrite book_of_insert. by case_decide; subst.
Qed.

(** ** [bump_service_head] and [service_queues] *)
Definition rotate l : list Origin := match l with [] => [] | h :: t => t ++ [h] end.

Lemma rotate_inv l q s : Inv None l q s -> l <> [] -> Inv None (rotate l) q (set_head (head (rotate l)) s).
Proof.
  destruct l as [|h t]; [done|]. intros [Hl Hh Hq Hr] _. split; [|done|done|].
  - by apply (linked_rot _ [h] t).
  - intros x. change (book_of (set_head _ s) x) with (book_of s x). rewrite <- Hr. simpl. set_solver.
Qed.

Lemma bump_head_spec {E} meter l q w :
  implements None l q w -> meter_ok meter ->
  exists w' r meter' l', bump_service_head (E := E) meter w = (w', Ok (r, meter')) /\ implements None l' q w' /\ quiet w w' /\ meter_after meter meter' /\
    (w' = w \/ exists h, w' = set_storage (set_head h) w) /\
    ((r = None /\ l' = l /\ (l = [] \/ ~ within (plus (consumed meter) (w_bump_service_head weights)) (limit meter))) \/
     (r = head l /\ l' = rotate l /\ consumed meter' = plus (consumed meter) (w_bump_service_head weights))).
Proof.
  intros Hi Hm. pose proof Hi as [Hrep I]. unfold bump_service_head.
  destruct (try_consume_spec meter (w_bump_service_head weights) Hm) as (m1 & r & Htc & Ma & Hr); [apply weights_range|]. rewrite Htc.
  destruct Hr as [[-> Hc]|(-> & -> & Hn)].
  2:{ exists w, None, meter, l. split; [done|]. split; [done|]. split; [done|]. split; [done|]. split; [by left|]. left. tauto. }
  rewrite get_head_bind, (inv_head _ _ _ _ I). destruct l as [|h t]; cbn [head].
  { exists w, None, m1, []. split; [done|]. split; [done|]. split; [done|]. split; [done|]. split; [by left|]. left. tauto. }
  rewrite get_book_bind. pose proof (linked_in _ _ (inv_linked _ _ _ _ I) [] h t eq_refl) as Hn. unfold nbs in Hn. rewrite Hn, app_nil_r.
  unfold put_head. rewrite modify_bind. eexists _, _, _, (rotate (h :: t)). split; [done|]. split; [|split; [done|split; [done|split; [right; by eexists|by right]]]]. split; [done|].
  replace (Some (next (around h t))) with (head (rotate (h :: t))) by (by destruct t). by apply rotate_inv.
Qed.

Definition left_over (m : WeightMeter) : Z := ref_time (limit m) - ref_time (consumed m) + (proof_size (limit m) - proof_size (consumed m)).

Lemma left_over_range m : meter_ok m -> 0 <= left_over m < 2 ^ 65.
Proof. unfold meter_ok, in_range, in_u, within, left_over. lia. Qed.

Lemma paid_less meter n meter' : meter_ok meter -> meter_after meter meter' -> paid meter (Some n) meter' -> left_over meter' < left_over meter.
Proof.
  intros (Hl & Hc & Hin) ((_ & Hc' & Hin') & El & _) Hp. specialize (Hp ltac:(eauto)). pose proof queue_weight. destruct weights_range as (_ & W1 & _ & _ & _ & W2 & _).
  unfold left_over, queue_base, within, plus, Weight.saturating_add, saturating_add, in_range, in_u in *. rewrite El. simpl in *. lia.
Qed.

Lemma queues_loop_spec {E} o meter ol l q w :
  implements None l q w -> meter_ok meter ->
  exists w' meter', st_loop (service_queues_round (E := E) ol) 65 (o, None, meter) w = (w', Ok meter') /\ serviced l q w meter w' meter'.
Proof.
  intros Hi Hm.
  set (Iv := fun (k : Z) (v : Origin * option Origin * WeightMeter) w' => serviced l q w meter w' v.2 /\ k = left_over v.2).
  assert (total (st_loop (service_queues_round (E := E) ol) 65 (o, None, meter)) (fun m' w' => serviced l q w meter w' m') w) as Ht.
  { apply (total_loop _ Iv) with (n := left_over meter).
    - change (Z.of_nat 65) with 65. by apply left_over_range.
    - split; [|done]. exists l, q. split; [done|]. split; [done|]. by apply meter_after_refl.
    - intros k [[o1 lnp] m1] w1 _ [(l1 & q1 & Hi1 & Hq1 & Hm1) ->]. cbn [snd] in *. unfold service_queues_round.
      destruct (service_queue_spec (E := E) o1 m1 ol l1 q1 w1 Hi1 (proj1 Hm1)) as (w2 & pr & nx & m2 & Heq & (l2 & q2 & Hi2 & Hq2 & Hm2) & Hpaid).
      apply total_bind. unfold total at 1. rewrite Heq.
      assert (serviced l q w meter w2 m2) as Hs2.
      { exists l2, q2. split; [done|]. split; [unfold quiet in *; congruence|]. by eapply meter_after_trans. }
      destruct nx as [n|]; [|done]. pose proof (paid_less _ _ _ (proj1 Hm1) Hm2 Hpaid) as Hlt. pose proof (left_over_range _ (proj1 Hm2)).
      destruct pr; cbn; [|case_bool_decide; cbn; [done|]]; exists (left_over m2); (split; [lia|done]). }
  apply total_ok in Ht as (w' & m' & Heq & Hs). by exists w', m'.
Qed.

Definition low_weight_alarm (limit : Weight) : list string :=
  match max_message_weight limit with Some _ => [] | None => ["Not enough weight to service a single message."%string] end.

Lemma service_queues_spec {E} held limit l q w :
  implements None l q w -> in_range limit ->
  exists w' used l' q', service_queues (E := E) held limit w = (w', Ok used) /\ implements None l' q' w' /\
    alarms (trace w') = low_weight_alarm limit ++ alarms (trace w) /\ within used limit /\ (held = true -> storage w' = storage w /\ used = Weight.zero).
Proof.
  intros Hi Hlim. unfold service_queues. set (m0 := WeightMeter.with_limit limit).
  assert (meter_ok m0) as Hm0.
  { unfold meter_ok, m0, WeightMeter.with_limit, in_range, in_u, within, Weight.zero in *. simpl. lia. }
  rewrite (st_bind_ok _ _ w
    (match max_message_weight limit with Some _ => w | None => noted (Defensive "Not enough weight to service a single message.") w end)
    (default Weight.zero (max_message_weight limit))) by (by destruct (max_message_weight limit)).
  set (w1 := match max_message_weight limit with Some _ => _ | None => _ end).
  assert (implements None l q w1 /\ alarms (trace w1) = low_weight_alarm limit ++ alarms (trace w) /\ storage w1 = storage w) as (Hi1 & Ha1 & Hs1).
  { unfold w1, low_weight_alarm. destruct (max_message_weight limit); [done|]. split; [|done]. destruct Hi as [Hrep I]. split; [|done]. simpl. by rewrite Hrep. }
  unfold with_service_mutex. destruct held.
  { exists w1, Weight.zero, l, q. split; [done|]. split; [done|]. split; [done|]. split; [apply Hm0|done]. }
  destruct (bump_head_spec (E := E) m0 l q w1 Hi1 Hm0) as (w2 & r & m1 & l1 & Hb & Hi2 & Hq2 & Hm1 & _). rewrite (st_bind_ok _ _ _ _ _ Hb).
  assert (forall m2, meter_after m1 m2 -> within (consumed m2) limit) as Hin.
  { intros m2 [(_ & _ & Hw) [El _]]. destruct Hm1 as (_ & El1 & _). by rewrite El, El1 in Hw. }
  destruct r as [o|].
  - destruct (queues_loop_spec (E := E) o m1 (default Weight.zero (max_message_weight limit)) l1 q w2 Hi2 (proj1 Hm1)) as (w3 & m2 & Heq & (l3 & q3 & Hi3 & Hq3 & Hm3)).
    rewrite (st_bind_ok _ _ _ _ _ Heq). exists w3, (consumed m2), l3, q3. split; [done|]. split; [done|]. split; [unfold quiet in *; congruence|].
    split; [by apply Hin|done].
  - exists w2, (consumed m1), l1, q. split; [done|]. split; [done|]. split; [unfold quiet in *; congruence|]. split; [by apply Hin, meter_after_refl, Hm1|done].
Qed.

End fits.

(** ** [sweep_queue] *)
(** The messages that wait are parked, and the queue is out of the ring. *)
Definition swept o l q l' q' : Prop :=
  (o ∉ l') /\ q' o = {| q_pending := []; q_parked := q_pending (q o) ++ q_parked (q o) |} /\
  forall x, x <> o -> (x ∈ l' <-> x ∈ l) /\ q' x = q x.

Lemma leave_ring {E} o l w :
  linked (nbs (storage w)) l -> ServiceHead (storage w) = head l ->
  exists s1 l', match nbs (storage w) o with Some n => ready_ring_unknit (E := E) o n | None => mret tt end w = (set_storage (fun _ => s1) w, Ok tt) /\
    same_but_links (storage w) s1 /\ ServiceHead s1 = head l' /\ linked (upd o None (nbs s1)) l' /\ (o ∉ l') /\ (forall x, x <> o -> x ∈ l' <-> x ∈ l).
Proof.
  intros Hl Hh. destruct (nbs (storage w) o) as [n|] eqn:Hn.
  - assert (o ∈ l) as (l1 & l2 & ->)%list_elem_of_split by (apply (linked_is_some _ _ o Hl); eauto).
    destruct (unknit_spec (E := E) o w l1 l2 n Hl Hh Hn) as (s1 & Hun & Hsame & Hh1 & Hl1). exists s1, (l1 ++ l2). split; [done|]. split; [done|]. split; [done|].
    split; [done|]. split; [by apply middle_once, (linked_nodup _ _ Hl)|]. set_solver.
  - exists (storage w), l. split; [by destruct w|]. split; [apply same_refl|]. split; [done|].
    split; [eapply linked_ext; [|exact Hl]; intros x; unfold upd; case_decide; [by subst|done]|].
    split; [|done]. rewrite <- (linked_is_some _ _ o Hl), Hn. by intros [].
Qed.

Lemma sweep_spec {E} o l q w :
  implements None l q w ->
  exists w' l' q', sweep_queue (E := E) o w = (w', Ok tt) /\ implements None l' q' w' /\ quiet w w' /\ swept o l q l' q'.
Proof.
  intros [Hrep I]. unfold sweep_queue. rewrite st_get_bind. pose proof (inv_queue _ _ _ _ I o) as Q. rewrite bool_decide_false in Q by done.
  pose proof (inv_ready _ _ _ _ I o) as Hready. case_bool_decide as Hs.
  2:{ exists w, l, q. split; [done|]. split; [done|]. split; [done|]. assert (book_of (storage w) o = default_book) as Hd.
      { unfold book_of. by destruct (BookStateFor (storage w) !! o); [destruct Hs|]. }
      rewrite Hd in *. split; [rewrite Hready; intros [Hlt|?]; [by simpl in Hlt; lia|done]|]. split; [|done].
      pose proof (qi_pending _ _ _ _ Q) as Hp. destruct (q o) as [pe pa]. simpl in *. by rewrite Hp. }
  rewrite note_bind, get_book_bind, note_storage. set (b := book_of (storage w) o) in *. set (sp := {| q_pending := []; q_parked := q_pending (q o) ++ q_parked (q o) |}).
  cbn [ready_neighbours set_begin].
  destruct (leave_ring (E := E) o l (noted (Swept o) w) (inv_linked _ _ _ _ I) (inv_head _ _ _ _ I)) as (s1 & l' & Heq & [Hp1 Hb1] & Hh & Hl & Ho & Hll).
  change (nbs (storage (noted (Swept o) w)) o) with (ready_neighbours b) in Heq. rewrite (st_bind_ok _ _ _ _ _ Heq).
  exists (set_storage (insert_book o (set_neighbours None (set_begin (end_ b) b))) (set_storage (fun _ => s1) (noted (Swept o) w))), l', (spec_set o sp q).
  split; [done|]. split; [|split; [done|]].
  - split; [simpl; by rewrite Hrep|]. cbn [storage set_storage]. eapply unready_update; [exact I|done|..].
    + intros x _. apply Hb1.
    + intros x i. unfold pg. rewrite Hp1. done.
    + done.
    + done.
    + done.
    + done.
    + by apply sweep_inv.
    + done.
  - split; [done|]. unfold spec_set. split; [by rewrite decide_True|]. intros x Hx. rewrite decide_False by done. split; [by apply Hll|done].
Qed.
End service.
