(* ===== verification/MessageQueueDemand.v ===== *)
(** * Overweight messages and reaping

    What [execute_overweight] and [reap_page] do with the messages that servicing left
    behind, and when they are refused. *)
From stdpp Require Import base gmap list strings.
From Stdlib Require Import ZArith Lia.
From S2P Require Import Prelude Weights MessageQueue MessageQueuePage MessageQueueSpec MessageQueueRing MessageQueueInv.
Set Warnings "-clear-no-such-hyp".
Open Scope Z_scope.

Section demand.
Context {Origin Hash Env : Type} `{Countable Origin} {codec : HeaderCodec} {T : Config Origin Hash Env}.
Implicit Types (s : Storage Origin) (w : World Origin Hash Env) (l : list Origin) (o x : Origin) (q : Spec (Origin := Origin)) (b : BookState Origin).

(** The answer of the processor when a message is executed on demand. *)
Definition on_demand w o m limit : Outcome Origin Hash Env :=
  process_message m o (WeightMeter.with_limit limit) (blake2_256 m) (env w) (storage w).

(** The item [idx] of the page [i] is one that servicing is past. *)
Definition behind b (p : Page) (i : Z) (idx : nat) : Prop := i < begin b \/ (i = begin b /\ Z.of_nat idx < first_index p).
#[global] Instance behind_dec b p i idx : Decision (behind b p i idx).
Proof. unfold behind. apply _. Defined.

(** The message is dealt with: processed, or refused for good. *)
Definition dealt_with (out : Outcome Origin Hash Env) : Prop :=
  match status_of (out_result out) Weight.MAX with Processed | Unprocessable true => True | _ => False end.
#[global] Instance dealt_with_dec out : Decision (dealt_with out).
Proof. unfold dealt_with. destruct (status_of _ _) as [| | |[]|]; apply _. Defined.

(** The world after the calls of the processor. *)
Definition calls_made w (out : Outcome Origin Hash Env) : World Origin Hash Env :=
  (st_for (fun _ c => run_call (E := Error) c) tt (out_calls out) (set_env (out_env out) w)).1.

(** The queue of [o] is the same in two storages. *)
Definition same_queue o s s1 : Prop := book_of s1 o = book_of s o /\ forall i, pg s1 o i = pg s o i.

(** The message is one that [execute_overweight] may execute without harm: if it is dealt
    with, the processor leaves the queue of the message alone, its place in the ready ring
    included, and the message is not the last one of the page that is next to be serviced.
    (Page numbers do not run out either.) *)
Definition harmless w o i (idx : nat) limit : Prop := forall p m,
  pg (storage w) o i = Some p -> items_of p !! idx = Some (false, m) ->
  let out := on_demand w o m limit in
  pages_fit (storage w) (out_calls out) /\
  (dealt_with out -> same_queue o (storage w) (storage (calls_made w out)) /\ (i = begin (book_of (storage w) o) -> remaining p <> 1)).

(** The page after the item is processed. *)
Definition item_done s' o i (idx : nat) p m : Prop :=
  pg s' o i = None \/ exists p', pg s' o i = Some p' /\ items_of p' = <[idx := (true, m)]> (items_of p) /\ first_index p' = first_index p.

(** Messages are added to the queues. *)
Definition added q q1 : Prop := forall x, q_pending (q x) `prefix_of` q_pending (q1 x) /\ q_parked (q1 x) = q_parked (q x).

Definition most_used (limit : Weight) : Weight :=
  plus limit (Weight.max (w_execute_overweight_page_removed weights) (w_execute_overweight_page_updated weights)).

(** What an answer says about the queues before and after.  Nothing else changes but what
    the processor itself enqueues. *)
Definition executed o i (idx : nat) limit w w' (r : res Error Weight) q q' : Prop :=
  let s := storage w in let b := book_of s o in
  match r with
  | Ok used => exists p m q1 rest, pg s o i = Some p /\ behind b p i idx /\ items_of p !! idx = Some (false, m) /\
      added q q1 /\ q_pending (q1 o) = q_pending (q o) /\ take_one m (q_parked (q o)) = Some rest /\
      q' = spec_set o {| q_pending := q_pending (q o); q_parked := rest |} q1 /\
      begin (book_of (storage w') o) = begin b /\ item_done (storage w') o i idx p m /\ within used (most_used limit)
  | Err (InsufficientWeight_ | TemporarilyUnprocessable) => exists p m, pg s o i = Some p /\ items_of p !! idx = Some (false, m) /\
      ~ dealt_with (on_demand w o m limit) /\ added q q' /\ storage w' = storage (calls_made w (on_demand w o m limit))
  | Err e => q' = q /\ w' = w /\
      match e with
      | QueuePaused => is_paused (env w) o = true
      | NoPage => pg s o i = None
      | NoMessage => exists p, pg s o i = Some p /\ items_of p !! idx = None
      | Queued => exists p it, pg s o i = Some p /\ items_of p !! idx = Some it /\ ~ behind b p i idx
      | AlreadyProcessed => exists p m, pg s o i = Some p /\ items_of p !! idx = Some (true, m)
      | _ => False
      end
  | Panic => False
  end.

Section laws.
Context {laws : HeaderCodecLaws codec} {claws : ConfigLaws}.

(** The item is processed: the page is written back or removed. *)
Lemma demand_update l q s o i (idx : nat) p p' m :
  Inv None l q s -> pg s o i = Some p -> items_of p !! idx = Some (false, m) -> behind (book_of s o) p i idx ->
  page_ok HeapSize p' (<[idx := (true, m)]> (items_of p)) (Z.to_nat (first_index p)) -> (i = begin (book_of s o) -> remaining p <> 1) ->
  let b := set_messages (dec (message_count (book_of s o))) (saturating_sub (size_ (book_of s o)) (Z.of_nat (length m))) (book_of s o) in
  let s' := if remaining p' =? 0 then insert_book o (set_count (dec (count b)) b) (remove_page o i s) else insert_book o b (insert_page o i p' s) in
  1 <= count (book_of s o) /\ (remaining p' = 0 -> remaining_size p' = 0) /\
  exists rest, take_one m (q_parked (q o)) = Some rest /\ Inv None l (spec_set o {| q_pending := q_pending (q o); q_parked := rest |} q) s' /\
    begin (book_of s' o) = begin (book_of s o) /\ item_done s' o i idx p m.
Proof.
  intros I Hp Hi Hbh Hok' Hne b s'. pose proof (inv_queue _ _ _ _ I o) as Q. rewrite bool_decide_false in Q by done.
  destruct (page_le_counters heap_range _ _ _ _ _ Q Hp) as (Hc & _ & _). split; [done|]. split; [by intros Hz; apply (complete_empty _ _ _ Hok')|].
  pose proof (qi_page _ _ _ _ Q _ _ Hp) as Hok.
  assert (remaining p' = remaining p - 1) as Hrem.
  { rewrite (ok_remaining _ _ _ _ Hok), (ok_remaining _ _ _ _ Hok'), (weigh_mark _ _ _ _ Hi). done. }
  assert (forall x j, pg s' x j = if decide (x = o /\ j = i) then (if remaining p' =? 0 then None else Some p') else pg s x j) as Hpg.
  { intros x j. unfold s'. destruct (remaining p' =? 0); [exact (pg_remove s o i x j)|exact (pg_insert s o i p' x j)]. }
  assert (forall x, x <> o -> book_of s' x = book_of s x) as Hbook.
  { intros x Hx. unfold s'. destruct (remaining p' =? 0); by rewrite book_of_insert, decide_False by done. }
  assert (book_of s' o = if remaining p' =? 0 then set_count (dec (count b)) b else b) as Hbo.
  { unfold s'. destruct (remaining p' =? 0); by rewrite book_of_insert, decide_True by done. }
  assert (begin (book_of s' o) = begin (book_of s o) /\ end_ (book_of s' o) = end_ (book_of s o) /\ nbs s' o = nbs s o) as (Eb & Ee & En).
  { unfold nbs. rewrite Hbo. by destruct (remaining p' =? 0). }
  destruct (demand_inv heap_range (book_of s o) (pg s o) (pg s' o) (q o) m p p' _ _ idx i Q Hp Hok Hi) as (rest & Hrest & Q').
  { destruct Hbh as [|[? ?]]; [by left|right; split; [done|]]. destruct Hok. lia. }
  { done. }
  { intros Hz. destruct Hbh as [|[Hib _]]; [done|]. specialize (Hne Hib). lia. }
  { intros n Hn. rewrite Hpg, decide_False by naive_solver. done. }
  { by rewrite Hpg, decide_True by done. }
  exists rest. split; [done|]. split; [|split; [done|]].
  - eapply ring_inv_update; [exact I|done|..].
    + intros x Hx. unfold nbs. rewrite Hbook by done. by destruct (book_of s x).
    + intros x j Hx. rewrite Hpg, decide_False by naive_solver. done.
    + eapply linked_ext; [|apply (inv_linked _ _ _ _ I)]. intros x. destruct (decide (x = o)) as [->|Hx]; [done|]. unfold nbs. by rewrite Hbook.
    + transitivity (ServiceHead s); [unfold s'; by destruct (remaining p' =? 0)|apply (inv_head _ _ _ _ I)].
    + done.
    + rewrite bool_decide_false, Hbo by done. exact Q'.
    + rewrite Eb, Ee. apply (inv_ready _ _ _ _ I).
  - unfold item_done. rewrite Hpg, decide_True by done. destruct (remaining p' =? 0); [by left|right]. exists p'. split; [done|].
    destruct (page_view heap_range _ _ _ Hok') as [-> _]. split; [done|]. destruct Hok, Hok'. lia.
Qed.

Lemma ensure_bind {E A} (c : bool) (e : E) (k : ST (World Origin Hash Env) E A) w : (ensure c e;; k) w = if c then k w else (w, Err e).
Proof. by destruct c. Qed.

Lemma behind_spec b p i (idx : nat) it :
  page_ok HeapSize p (items_of p) (Z.to_nat (first_index p)) -> items_of p !! idx = Some it ->
  (i <? begin b) || ((i =? begin b) && (offset (items_of p) idx <? first_ p)) = bool_decide (behind b p i idx).
Proof.
  intros Hok Hi%lookup_lt_Some. assert (offset (items_of p) idx < first_ p <-> Z.of_nat idx < first_index p) as Hiff.
  { pose proof (offset_mono HeapSize (proj2 heap_range) (items_of p)) as Hmono. rewrite (ok_first _ _ _ _ Hok).
    pose proof (ok_bound _ _ _ _ Hok) as Hb. rewrite (ok_heap _ _ _ _ Hok) in Hb. pose proof (ok_k _ _ _ _ Hok). pose proof (ok_first_index _ _ _ _ Hok).
    split; intros Hlt.
    - destruct (Z.lt_ge_cases (Z.of_nat idx) (first_index p)) as [|Hge]; [done|].
      destruct (decide (idx = Z.to_nat (first_index p))) as [->|]; [lia|]. specialize (Hmono (Z.to_nat (first_index p)) idx Hb). lia.
    - apply Hmono; [done|lia..]. }
  apply Bool.eq_iff_eq_true. rewrite orb_true_iff, andb_true_iff, Z.ltb_lt, Z.eqb_eq, Z.ltb_lt, bool_decide_eq_true, Hiff. done.
Qed.

(** The end of an execution, whatever the processor did in between. *)
Lemma finish_overweight_run o i pos m b p p' mt w :
  note_processed_at_pos (E := Error) p pos = Ok p' -> (remaining p' = 0 -> remaining_size p' = 0) -> 1 <= count b -> begin b <= end_ b ->
  let b1 := set_messages (dec (message_count b)) (saturating_sub (size_ b) (Z.of_nat (length m))) b in
  let z := remaining p' =? 0 in
  let b2 := if z then set_count (dec (count b1)) b1 else b1 in
  exists fp, finish_overweight o i pos m b p mt w =
    ({| storage := insert_book o b2 ((if z then remove_page o i else insert_page o i p') (storage w)); env := env w; trace := QueueChanged o fp :: OnDemand o m :: trace w |},
     Ok (Weight.saturating_add (consumed mt) (if z then w_execute_overweight_page_removed weights else w_execute_overweight_page_updated weights))).
Proof.
  intros Hnp Hz Hc Hb b1 z b2. set (w2 := noted (OnDemand o m) w). unfold finish_overweight. rewrite note_bind, (st_lift_ok _ _ _ _ Hnp). cbv zeta. fold b1 z w2.
  rewrite (st_bind_ok _ _ w2 (set_storage (if z then remove_page o i else insert_page o i p') w2)
    (b2, if z then w_execute_overweight_page_removed weights else w_execute_overweight_page_updated weights)).
  2:{ unfold b2, z. destruct (Z.eqb_spec (remaining p') 0) as [Hz'|]; [|done]. rewrite assert_bind by (by apply Z.eqb_eq, Hz).
      unfold del_page. rewrite modify_bind, assert_bind by (by apply Z.leb_le). done. }
  cbn beta iota. unfold put_book. rewrite modify_bind. unfold on_queue_changed, footprint_of, debug_assert.
  rewrite (proj2 (Z.leb_le _ _)) by (unfold b2; destruct z; simpl; lia). eexists. reflexivity.
Qed.

Lemma finish_overweight_spec o i (idx : nat) p m limit mt l q w :
  implements None l q w -> pg (storage w) o i = Some p -> items_of p !! idx = Some (false, m) ->
  let b := book_of (storage w) o in
  behind b p i idx -> (i = begin b -> remaining p <> 1) -> within (consumed mt) limit -> in_range (consumed mt) ->
  exists w' used rest, finish_overweight o i (offset (items_of p) idx) m b p mt w = (w', Ok used) /\ take_one m (q_parked (q o)) = Some rest /\
    implements None l (spec_set o {| q_pending := q_pending (q o); q_parked := rest |} q) w' /\ quiet w w' /\
    begin (book_of (storage w') o) = begin b /\ item_done (storage w') o i idx p m /\ within used (most_used limit).
Proof.
  intros [Hrep I] Hp Hit b Hbh Hlast Hmw Hmr. pose proof (inv_queue _ _ _ _ I o) as Q. rewrite bool_decide_false in Q by done.
  pose proof (qi_page _ _ _ _ Q _ _ Hp) as Hok. destruct (note_processed_spec heap_range (E := Error) p _ _ idx m Hok Hit) as (p' & Hnp & Hok').
  destruct (demand_update l q (storage w) o i idx p p' m I Hp Hit Hbh Hok' Hlast) as (Hc & Hz & rest & Hrest & I' & Eb & Hdone). fold b in Hc, I', Eb, Hdone.
  pose proof (inv_book_range _ _ _ _ o I) as Hr. fold b in Hr.
  destruct (finish_overweight_run o i _ m b p p' mt w Hnp Hz Hc ltac:(lia)) as [fp ->]. eexists _, _, rest. split; [done|]. split; [done|].
  assert (replay (QueueChanged o fp :: OnDemand o m :: trace w) = Some (spec_set o {| q_pending := q_pending (q o); q_parked := rest |} q)) as Hrep'
    by (simpl; rewrite Hrep; simpl; by rewrite Hrest).
  destruct weights_range as (_ & _ & _ & _ & _ & _ & W1 & W2). cbn [storage].
  destruct (remaining p' =? 0); (split; [done|]; split; [done|]; split; [done|]; split; [done|]);
    unfold within, most_used, plus, in_range, in_u, Weight.saturating_add, Weight.max, saturating_add in *; simpl in *; lia.
Qed.

(** The message is one that may be executed: what is left to do. *)
Lemma execute_inner_run o i (idx : nat) limit p m l q w :
  Inv None l q (storage w) -> is_paused (env w) o = false -> pg (storage w) o i = Some p -> items_of p !! idx = Some (false, m) -> behind (book_of (storage w) o) p i idx ->
  do_execute_overweight_inner o i (Z.of_nat idx) limit w =
    ('(status, mt) ← process_message_payload o i (Z.of_nat idx) m (WeightMeter.with_limit limit) Weight.MAX;
     match status with
     | Overweight | InsufficientWeight => fail InsufficientWeight_
     | StackLimitReached | Unprocessable false => fail TemporarilyUnprocessable
     | Unprocessable true | Processed => finish_overweight o i (offset (items_of p) idx) m (book_of (storage w) o) p mt
     end) w.
Proof.
  intros I Hpause Hp Hit Hbh. unfold do_execute_overweight_inner. rewrite get_book_bind, st_get_bind, ensure_bind, Hpause, get_page_bind. cbn [negb].
  pose proof Hp as Hp'. unfold pg in Hp'. rewrite Hp', (st_lift_ok _ _ _ p) by done. pose proof (inv_queue _ _ _ _ I o) as Q. rewrite bool_decide_false in Q by done.
  pose proof (qi_page _ _ _ _ Q _ _ Hp) as Hok. rewrite (peek_index_spec heap_range p _ _ idx Hok), Hit.
  rewrite (st_lift_ok _ _ _ (offset (items_of p) idx, false, m)) by done. by rewrite ensure_bind, (behind_spec _ _ _ _ _ Hok Hit), bool_decide_true, ensure_bind by done.
Qed.

Lemma execute_inner_cases o i (idx : nat) limit l q w : Inv None l q (storage w) ->
  (exists e, do_execute_overweight_inner o i (Z.of_nat idx) limit w = (w, Err e) /\ executed o i idx limit w w (Err e) q q) \/
  exists p m, is_paused (env w) o = false /\ pg (storage w) o i = Some p /\ items_of p !! idx = Some (false, m) /\ behind (book_of (storage w) o) p i idx.
Proof.
  intros I. unfold do_execute_overweight_inner. rewrite get_book_bind, st_get_bind, ensure_bind.
  destruct (is_paused (env w) o) eqn:Hpause; [by left; eexists|]. cbn [negb].
  rewrite get_page_bind. destruct (Pages (storage w) !! (o, i)) as [p|] eqn:Hp; [|by left; eexists].
  rewrite (st_lift_ok _ _ _ p) by done. pose proof (inv_queue _ _ _ _ I o) as Q. rewrite bool_decide_false in Q by done.
  pose proof (qi_page _ _ _ _ Q _ _ Hp) as Hok. rewrite (peek_index_spec heap_range p _ _ idx Hok).
  destruct (items_of p !! idx) as [[d m]|] eqn:Hit; [|left; exists NoMessage; split; [done|]; split; [done|]; split; [done|by exists p]].
  rewrite (st_lift_ok _ _ _ (offset (items_of p) idx, d, m)) by done. rewrite ensure_bind, (behind_spec _ _ _ _ _ Hok Hit).
  case_bool_decide as Hbh; [|left; exists Queued; split; [done|]; split; [done|]; split; [done|by exists p, (d, m)]].
  rewrite ensure_bind. destruct d; [left; exists AlreadyProcessed; split; [done|]; split; [done|]; split; [done|by exists p, m]|]. right. by exists p, m.
Qed.

Lemma with_limit_ok limit : in_range limit -> meter_ok (WeightMeter.with_limit limit).
Proof. unfold meter_ok, WeightMeter.with_limit, in_range, in_u, within, Weight.zero. simpl. lia. Qed.

Lemma same_queue_pending l q w l1 q1 w1 o : implements None l q w -> implements None l1 q1 w1 -> same_queue o (storage w) (storage w1) -> q_pending (q1 o) = q_pending (q o).
Proof.
  intros [_ I] [_ I1] [Hb Hp]. pose proof (inv_queue _ _ _ _ I o) as Q. pose proof (inv_queue _ _ _ _ I1 o) as Q1. rewrite bool_decide_false in Q, Q1 by done.
  rewrite (qi_pending _ _ _ _ Q), (qi_pending _ _ _ _ Q1), Hb. unfold pending_of. by apply pend_ext.
Qed.

Lemma execute_inner_spec o i (idx : nat) limit l q w :
  implements None l q w -> in_range limit -> harmless w o i idx limit ->
  exists w' r l' q', do_execute_overweight_inner o i (Z.of_nat idx) limit w = (w', r) /\ implements None l' q' w' /\ quiet w w' /\ executed o i idx limit w w' r q q'.
Proof.
  intros Hi Hlim Hh. pose proof Hi as [Hrep I].
  destruct (execute_inner_cases o i idx limit l q w I) as [(e & Heq & He)|(p & m & Hpause & Hp & Hit & Hbh)]; [by exists w, (Err e), l, q|].
  rewrite (execute_inner_run o i idx limit p m l q w I Hpause Hp Hit Hbh). destruct (Hh p m Hp Hit) as [Hfit Hdealt].
  destruct (process_meter m o _ (blake2_256 m) (env w) (storage w) (with_limit_ok limit Hlim)) as ((_ & Hmr & Hmw) & Hml & _). rewrite Hml in Hmw.
  fold (on_demand w o m limit) in Hmr, Hmw. set (out := on_demand w o m limit) in *.
  assert (calls_fit (storage w) (out_calls out)) as Hfit' by (split; [apply process_lengths|done]).
  destruct (payload_calls (E := Error) o i (Z.of_nat idx) m (WeightMeter.with_limit limit) Weight.MAX w l q Hi Hfit') as (w1 & w2 & l2 & q2 & Hcalls & Hpay & En & Hs2).
  fold (on_demand w o m limit) in Hcalls, Hpay. fold out in Hcalls, Hpay. rewrite (st_bind_ok _ _ _ _ _ Hpay). destruct En as [Hi2 _ Hadd _ Hq2].
  assert (storage w2 = storage (calls_made w out)) as Hs by (unfold calls_made; by rewrite Hcalls).
  destruct (decide (dealt_with out)) as [Hd|Hd].
  - destruct (Hdealt Hd) as [Hsame Hlast]. rewrite <- Hs in Hsame. pose proof (same_queue_pending _ _ _ _ _ _ _ Hi Hi2 Hsame) as Hpend. destruct Hsame as [Hb Hpg].
    rewrite <- Hb in Hlast, Hbh. destruct (finish_overweight_spec o i idx p m limit (out_meter out) l2 q2 w2 Hi2) as (w' & used & rest & Hfin & Hrest & Hi' & Hq' & Heb & Hdone & Hu);
      [by rewrite Hpg|done..|].
    exists w', (Ok used), l2, (spec_set o {| q_pending := q_pending (q2 o); q_parked := rest |} q2). rewrite Hb in *. unfold dealt_with in Hd.
    split; [by destruct (status_of _ _) as [| | |[]|]|]. split; [done|]. split; [unfold quiet in *; congruence|].
    exists p, m, q2, rest. rewrite (proj2 (Hadd o)), Hpend in *. done.
  - assert (exists e, (e = InsufficientWeight_ \/ e = TemporarilyUnprocessable) /\
      match status_of (out_result out) Weight.MAX with
      | Overweight | InsufficientWeight => fail InsufficientWeight_
      | StackLimitReached | Unprocessable false => fail TemporarilyUnprocessable
      | Unprocessable true | Processed => finish_overweight o i (offset (items_of p) idx) m (book_of (storage w) o) p (out_meter out)
      end w2 = (w2, Err e)) as (e & He & ->).
    { unfold dealt_with in Hd. destruct (status_of _ _) as [| | |[]|]; try done; eexists; (split; [|done]); auto. }
    exists w2, (Err e), l2, q2. split; [done|]. split; [done|]. split; [done|]. destruct He as [->| ->]; exists p, m; done.
Qed.

(** ** Reaping *)
(** The pages before [begin]. *)
Definition stale s o : Z := page_sum (begin (book_of s o)) (fun _ => 1) (pg s o).

(** How far behind [begin] pages are kept. *)
Definition horizon (stale : Z) : Z := Z.max (MaxStale * MaxStale / (stale - MaxStale)) MaxStale.

Lemma page_sum_split n m f pg : 0 <= n -> 0 <= m -> page_sum (n + m) f pg = page_sum n f pg + sum_Z ((fun i => from_option f 0 (pg i)) <$> seqZ n m).
Proof. intros Hn Hm. unfold page_sum. by rewrite seqZ_app, fmap_app, sum_Z_app, Z.add_0_l by lia. Qed.

Lemma ones_some n m pg : 0 <= m -> (forall i, n <= i < n + m -> is_Some (pg i)) -> sum_Z ((fun i => from_option (fun _ : Page => 1) 0 (pg i)) <$> seqZ n m) = m.
Proof.
  intros Hm Hs. assert (forall i, i ∈ seqZ n m -> is_Some (pg i)) as Hs' by (intros i Hi%elem_of_seqZ; by apply Hs). clear Hs.
  replace m with (Z.of_nat (length (seqZ n m))) at 2 by (rewrite length_seqZ; lia).
  induction (seqZ n m) as [|i l IH]; [done|]. rewrite fmap_cons, sum_Z_cons, length_cons, IH by (intros; apply Hs'; by constructor).
  destruct (Hs' i ltac:(by constructor)) as [p ->]. simpl. lia.
Qed.

Lemma ones_le n m pg : 0 <= m -> sum_Z ((fun i => from_option (fun _ : Page => 1) 0 (pg i)) <$> seqZ n m) <= m.
Proof.
  intros Hm. replace m with (Z.of_nat (length (seqZ n m))) at 2 by (rewrite length_seqZ; lia).
  induction (seqZ n m) as [|i l IH]; [done|]. rewrite fmap_cons, sum_Z_cons, length_cons. destruct (pg i); simpl; lia.
Qed.

Lemma stale_count l q s o : Inv None l q s -> let b := book_of s o in count b = stale s o + (end_ b - begin b) /\ 0 <= stale s o.
Proof.
  intros I b. pose proof (inv_queue _ _ _ _ I o) as Q. rewrite bool_decide_false in Q by done. fold b in Q. destruct (qi_range _ _ _ _ Q) as [Hr _].
  pose proof (qi_count _ _ _ _ Q) as Hc. replace (end_ b) with (begin b + (end_ b - begin b)) in Hc at 1 by lia.
  rewrite page_sum_split, ones_some in Hc by (first [lia|intros i Hi; apply (qi_ready _ _ _ _ Q); lia]). unfold stale. fold b.
  pose proof (page_sum_bound (fun _ => 1) (pg s o) (begin b) 1 ltac:(lia) ltac:(lia) ltac:(intros; lia)). lia.
Qed.

Lemma cullable_spec {E} l q s o i :
  Inv None l q s -> let b := book_of s o in
  cullable (E := E) b i = Ok (bool_decide (MaxStale < stale s o /\ i < Z.max (begin b - horizon (stale s o)) 0)).
Proof.
  intros I b. destruct (stale_count _ _ _ o I) as [Hst Hrange]. fold b in Hst, Hrange. pose proof (inv_book_range _ _ _ _ o I) as Hr. fold b in Hr.
  pose proof stale_range. unfold cullable.
  replace (Z.min (saturating_sub (end_ b) (begin b)) (count b)) with (Z.min (end_ b - begin b) (count b)) by (unfold saturating_sub; lia).
  rewrite sub_u_ok by lia. cbn [mbind res_bind]. replace (count b - _) with (stale s o) by lia. rewrite add_u_ok by lia. cbn [mbind res_bind]. unfold checked_sub.
  destruct (Z.leb_spec (MaxStale + 1) (stale s o)) as [Hle|Hgt]; [|by rewrite bool_decide_false by lia].
  assert (count b <= end_ b) by (pose proof (inv_queue _ _ _ _ I o) as Q; apply (queue_counters heap_range) in Q; fold b in Q; tauto).
  replace (add_u 32 _ 1) with (Ok (E := E) (stale s o - MaxStale)) by (rewrite add_u_ok by lia; f_equal; lia). cbn [mbind res_bind].
  rewrite mul_u_ok by nia. cbn [mbind res_bind]. rewrite div_u_ok by lia. cbn [mbind res_bind]. fold (horizon (stale s o)). f_equal.
  apply Bool.eq_iff_eq_true. rewrite Z.ltb_lt, bool_decide_eq_true. unfold saturating_sub. lia.
Qed.

Definition reapable s o i : Prop := MaxStale < stale s o /\ i < begin (book_of s o) - horizon (stale s o).

Definition reaped o i w w' (r : res Error unit) q q' : Prop :=
  let s := storage w in
  match r with
  | Ok _ => exists p rest, pg s o i = Some p /\ reapable s o i /\ pg (storage w') o i = None /\
      take_all (unprocessed (items_of p)) (q_parked (q o)) = Some rest /\ q' = spec_set o {| q_pending := q_pending (q o); q_parked := rest |} q
  | Err e => q' = q /\ w' = w /\
      match e with
      | NotReapable => begin (book_of s o) <= i \/ is_Some (pg s o i) /\ ~ reapable s o i
      | NoPage => i < begin (book_of s o) /\ pg s o i = None
      | _ => False
      end
  | Panic => False
  end.

(** A page before [begin] is removed. *)
Lemma reap_update l q s o i p :
  Inv None l q s -> pg s o i = Some p -> i < begin (book_of s o) ->
  let b := book_of s o in
  let b' := set_messages (saturating_sub (message_count b) (remaining p)) (saturating_sub (size_ b) (remaining_size p)) (set_count (dec (count b)) b) in
  exists rest, take_all (unprocessed (items_of p)) (q_parked (q o)) = Some rest /\
    Inv None l (spec_set o {| q_pending := q_pending (q o); q_parked := rest |} q) (insert_book o b' (remove_page o i s)).
Proof.
  intros I Hp Hi b b'. pose proof (inv_queue _ _ _ _ I o) as Q. rewrite bool_decide_false in Q by done.
  destruct (reap_inv heap_range (book_of s o) (pg s o) (pg (remove_page o i s) o) (q o) p i Q Hp Hi) as (rest & Hrest & Q').
  { intros n Hn. rewrite pg_remove, decide_False by naive_solver. done. }
  { by rewrite pg_remove, decide_True by done. }
  exists rest. split; [done|]. eapply ring_inv_update; [exact I|done|..].
  - intros x Hx. rewrite book_of_insert, nbs_insert, upd_ne, decide_False by done. unfold nbs. change (book_of (remove_page o i s) x) with (book_of s x). by destruct (book_of s x).
  - intros x j Hx. change (pg (insert_book _ _ ?s') x j) with (pg s' x j). rewrite pg_remove, decide_False by naive_solver. done.
  - eapply linked_ext; [|apply (inv_linked _ _ _ _ I)]. intros x. rewrite nbs_insert. unfold upd. case_decide; [by subst|done].
  - apply (inv_head _ _ _ _ I).
  - done.
  - rewrite bool_decide_false, book_of_insert, decide_True by done. exact Q'.
  - rewrite book_of_insert, decide_True by done. apply (inv_ready _ _ _ _ I).
Qed.

Lemma reap_inner_spec o i l q w :
  implements None l q w ->
  exists w' r q', do_reap_page_inner o i w = (w', r) /\ implements None l q' w' /\ quiet w w' /\ reaped o i w w' r q q'.
Proof.
  intros Hi. pose proof Hi as [Hrep I]. unfold do_reap_page_inner. rewrite get_book_bind, ensure_bind. set (b := book_of (storage w) o).
  assert (forall e, reaped o i w w (Err e) q q -> exists w' r q', (w, Err e) = (w', r) /\ implements None l q' w' /\ quiet w w' /\ reaped o i w w' r q q') as Hrefuse.
  { intros e He. by exists w, (Err e), q. }
  destruct (Z.ltb_spec i (begin b)) as [Hlt|Hge]; [|by apply Hrefuse; split; [done|split; [done|left]]].
  rewrite get_page_bind. destruct (Pages (storage w) !! (o, i)) as [p|] eqn:Hp; [|by apply Hrefuse].
  rewrite (st_lift_ok _ _ _ p) by done. pose proof (inv_queue _ _ _ _ I o) as Q. rewrite bool_decide_false in Q by done.
  rewrite (proj2 (Z.eqb_neq _ _)) by (by destruct (qi_some _ _ _ _ Q _ _ Hp) as [|[? _]]).
  rewrite (st_lift_ok _ _ _ _ (cullable_spec _ _ _ o i I)), ensure_bind. fold b.
  pose proof (qi_index _ _ _ _ Q _ _ Hp) as Hix. destruct (page_le_counters heap_range _ _ _ _ _ Q Hp) as (Hc & _). fold b in Hc.
  case_bool_decide as Hcull.
  2:{ apply Hrefuse. split; [done|]. split; [done|]. right. split; [by exists p|]. intros [? H1]. apply Hcull. split; [done|]. fold b in H1. lia. }
  rewrite note_bind. unfold del_page. rewrite modify_bind, assert_bind by (apply Z.ltb_lt; lia). unfold put_book. rewrite modify_bind.
  set (b' := set_messages _ _ _). destruct (reap_update l q (storage w) o i p I Hp Hlt) as (rest & Hrest & I'). fold b in I'. fold b' in I'.
  set (q2 := spec_set o _ q) in *. set (w3 := set_storage (insert_book o b') _).
  assert (implements None l q2 w3) as Hi3 by (split; [simpl; rewrite Hrep; simpl; by rewrite Hrest|exact I']).
  pose proof (inv_book_range _ _ _ _ o I) as Hr. fold b in Hr.
  destruct (on_queue_changed_spec (E := Error) o b' w3 l q2 Hi3 ltac:(simpl; lia)) as (w4 & Hoc & [Hi4 _ _ _ Hq4] & Hs4 & _). rewrite (st_bind_ok _ _ _ _ _ Hoc).
  exists (noted (Deposited (PageReaped o i)) w4), (Ok tt), q2. split; [done|]. split; [destruct Hi4 as [Hr4 I4]; split; [simpl; by rewrite Hr4|done]|]. split; [done|].
  exists p, rest. split; [done|]. split; [split; [apply Hcull|fold b; lia]|]. split; [|done].
  cbn [storage noted]. rewrite Hs4. cbn [w3 storage set_storage]. change (pg (insert_book _ _ ?s') o i) with (pg s' o i). by rewrite pg_remove, decide_True.
Qed.

(** There is a page to reap when there are enough stale ones. *)
Lemma reapable_page l q s o :
  Inv None l q s -> MaxStale < stale s o -> MaxStale * MaxStale < (stale s o - MaxStale) * stale s o -> exists i, is_Some (pg s o i) /\ reapable s o i.
Proof.
  intros I Hst Hsq. pose proof stale_range. set (n := stale s o) in *. assert (0 <= horizon n < n) as Hh.
  { unfold horizon. split; [lia|]. apply Z.max_lub_lt; [|done]. apply Z.div_lt_upper_bound; lia. }
  set (b := book_of s o). pose proof (inv_book_range _ _ _ _ o I) as Hr. fold b in Hr.
  assert (n <= begin b) as Hnb by (unfold n, stale; fold b; pose proof (page_sum_bound (fun _ => 1) (pg s o) (begin b) 1 ltac:(lia) ltac:(lia) ltac:(intros; lia)); lia).
  destruct (decide (Exists (fun i => is_Some (pg s o i)) (seqZ 0 (begin b - horizon n)))) as [(i & Hi%elem_of_seqZ & Hs)%Exists_exists|Hno].
  { exists i. split; [done|]. split; [done|]. fold n b. lia. }
  exfalso. apply not_Exists_Forall in Hno; [|apply _]. rewrite Forall_forall in Hno.
  assert (n = page_sum (begin b - horizon n + horizon n) (fun _ => 1) (pg s o)) as Hn by (rewrite Z.sub_add; reflexivity).
  rewrite page_sum_split in Hn by lia. pose proof (ones_le (begin b - horizon n) (horizon n) (pg s o) ltac:(lia)).
  assert (page_sum (begin b - horizon n) (fun _ => 1) (pg s o) = 0); [|lia]. unfold page_sum.
  induction (seqZ 0 (begin b - horizon n)) as [|i r IH]; [done|]. rewrite fmap_cons, sum_Z_cons, IH by (intros; apply Hno; by constructor).
  specialize (Hno i ltac:(by constructor)). apply eq_None_not_Some in Hno. by rewrite Hno.
Qed.
End laws.
End demand.
