(* ===== verification/MessageQueueHistory.v ===== *)
(** * The history of the message queue

    The trace of effects only grows, whatever the storage is ([extends]).  From a trace one
    can read which messages entered a queue, in which order they were served, and which ones
    are done; [replay] relates them to the queues that are left. *)
From stdpp Require Import base gmap list strings.
From Stdlib Require Import ZArith Lia.
From S2P Require Import Prelude Weights MessageQueue MessageQueuePage MessageQueueSpec.
Set Warnings "-clear-no-such-hyp".
Open Scope Z_scope.

Section history.
Context {Origin Hash Env : Type} `{Countable Origin} {codec : HeaderCodec} {T : Config Origin Hash Env}.
Abbreviation World := (World Origin Hash Env).
Abbreviation Effect := (Effect Origin Hash).

(** ** The trace only grows *)
Definition extends {E A} (op : ST World E A) : Prop := forall w, trace w `suffix_of` trace (op w).1.

Lemma extends_ret {E A} (a : A) : extends (mret (M := ST World E) a).
Proof. by intros w. Qed.
Lemma extends_lift {E A} (r : res E A) : extends (st_lift r).
Proof. by intros w. Qed.
Lemma extends_get {E} : extends (st_get (E := E)).
Proof. by intros w. Qed.
Lemma extends_note {E} (e : Effect) : extends (note (E := E) e).
Proof. intros w. by apply suffix_cons_r. Qed.
Lemma extends_storage {E} f : extends (E := E) (st_modify (set_storage f)).
Proof. by intros w. Qed.
Lemma extends_env {E} f : extends (E := E) (st_modify (set_env f)).
Proof. by intros w. Qed.
Lemma extends_bind {E A B} (m : ST World E A) (k : A -> ST World E B) : extends m -> (forall a, extends (k a)) -> extends (m ≫= k).
Proof.
  intros Hm Hk w. unfold mbind, st_bind. specialize (Hm w). destruct (m w) as [w1 [a|e|]]; [|done..]. etrans; [exact Hm|]. apply (Hk a).
Qed.
Lemma extends_for {E A B} (f : A -> B -> ST World E A) a l : (forall a b, extends (f a b)) -> extends (st_for f a l).
Proof. intros Hf. revert a. induction l as [|b l IH]; intros a; [apply extends_ret|]. simpl. by apply extends_bind. Qed.
Lemma extends_rounds {E A R} (body : A -> ST World E (A + R)) k a : (forall a, extends (body a)) -> extends (rounds body k a).
Proof.
  intros Hb. revert a. induction k as [|k IH]; intros a; [apply Hb|]. simpl. apply extends_bind; [apply IH|]. intros [a'|r]; [apply IH|apply extends_ret].
Qed.
Lemma extends_loop {E A R} (body : A -> ST World E (A + R)) k a : (forall a, extends (body a)) -> extends (st_loop body k a).
Proof. intros Hb. apply extends_bind; [by apply extends_rounds|]. intros [a'|r]; [apply extends_lift|apply extends_ret]. Qed.
End history.

Create HintDb history.
#[export] Hint Resolve extends_ret extends_lift extends_get extends_note extends_storage extends_env : history.

Ltac head_of t := match t with ?f _ => head_of f | _ => t end.
Ltac solve_extends := repeat match goal with
  | |- extends (_ ≫= _) => apply extends_bind; [|intros]
  | |- extends (st_for _ _ _) => apply extends_for; intros
  | |- extends (st_loop _ _ _) => apply extends_loop; intros
  | |- extends (let '(_, _) := ?x in _) => destruct x
  | |- extends (match ?x with _ => _ end) => destruct x
  | |- extends (let _ := _ in _) => cbv zeta
  | |- extends _ => solve [auto with history]
  | |- extends ?op => let f := head_of op in unfold f
  end.

Section operations.
Context {Origin Hash Env : Type} `{Countable Origin} {codec : HeaderCodec} {T : Config Origin Hash Env}.
Abbreviation op E A := (ST (World Origin Hash Env) E A).

Lemma extends_enqueue {E} o m : extends (do_enqueue_message o m : op E unit).
Proof. solve_extends. Qed.
Lemma extends_call {E} c : extends (run_call c : op E unit).
Proof. pose proof (@extends_enqueue E). solve_extends. Qed.
Lemma extends_payload {E} o i j m mt ol : extends (process_message_payload o i j m mt ol : op E _).
Proof. pose proof (@extends_call E). solve_extends. Qed.
Lemma extends_item {E} o i b p mt ol : extends (service_page_item o i b p mt ol : op E _).
Proof. pose proof (@extends_payload E). solve_extends. Qed.
Lemma extends_page {E} o b mt ol : extends (service_page o b mt ol : op E _).
Proof. pose proof (@extends_item E). solve_extends. Qed.
Lemma extends_queue {E} o mt ol : extends (service_queue o mt ol : op E _).
Proof. pose proof (@extends_page E). solve_extends. Qed.
Lemma extends_queues {E} held limit : extends (service_queues held limit : op E _).
Proof. pose proof (@extends_queue E). solve_extends. Qed.
End operations.

(** ** What a trace says about a queue *)
Section reading.
Context {Origin Hash : Type} `{Countable Origin} {codec : HeaderCodec}.
Abbreviation Effect := (Effect Origin Hash).
Implicit Types (o : Origin) (e : Effect) (t : list Effect) (q : Spec (Origin := Origin)).

Definition entered_by o e : list Message := match e with Enqueued o' m => if decide (o' = o) then [m] else [] | _ => [] end.
Definition served_by o e : list Message := match e with Served o' m _ => if decide (o' = o) then [m] else [] | _ => [] end.
Definition finished_by o e : list Message :=
  match e with
  | Served o' m true | OnDemand o' m => if decide (o' = o) then [m] else []
  | Reaped o' _ p => if decide (o' = o) then unprocessed (items_of p) else []
  | _ => []
  end.

(** The messages that entered the queue of [o], those that were served in their turn, and
    those that are gone for good: processed, executed on demand or reaped. *)
Definition entered o t : list Message := concat (entered_by o <$> reverse t).
Definition served o t : list Message := concat (served_by o <$> reverse t).
Definition finished o t : list Message := concat (finished_by o <$> reverse t).

Lemma entered_cons o e t : entered o (e :: t) = entered o t ++ entered_by o e.
Proof. unfold entered. rewrite reverse_cons, fmap_app, concat_app. simpl. by rewrite app_nil_r. Qed.
Lemma served_cons o e t : served o (e :: t) = served o t ++ served_by o e.
Proof. unfold served. rewrite reverse_cons, fmap_app, concat_app. simpl. by rewrite app_nil_r. Qed.
Lemma finished_cons o e t : finished o (e :: t) = finished o t ++ finished_by o e.
Proof. unfold finished. rewrite reverse_cons, fmap_app, concat_app. simpl. by rewrite app_nil_r. Qed.

Lemma take_one_some m l l' : take_one m l = Some l' -> l ≡ₚ m :: l'.
Proof.
  revert l'. induction l as [|x l IH]; intros l' Hl; [done|]. simpl in Hl. case_decide as Hx; [by simplify_eq|].
  destruct (take_one m l) as [r|]; [|done]. simplify_eq/=. rewrite (IH r eq_refl). apply Permutation_swap.
Qed.
Lemma take_all_some ms l l' : take_all ms l = Some l' -> l ≡ₚ ms ++ l'.
Proof.
  revert l. induction ms as [|m ms IH]; intros l Hl; [simpl in Hl; by simplify_eq|]. simpl in Hl.
  destruct (take_one m l) as [r|] eqn:Hr; [|done]. rewrite (take_one_some _ _ _ Hr). simpl. apply perm_skip. by apply IH.
Qed.

Lemma replay_cons e t q : replay (e :: t) = Some q -> exists q0, replay t = Some q0 /\ spec_step e q0 = Some q.
Proof. simpl. fold (replay t). destruct (replay t) as [q0|]; [|done]. by exists q0. Qed.

(** Messages are served in the order in which they entered. *)
Lemma replay_fifo o t q : replay t = Some q -> Swept o ∉ t -> entered o t = served o t ++ q_pending (q o).
Proof.
  revert q. induction t as [|e t IH]; intros q Hq Hs; [simpl in Hq; by simplify_eq|]. apply not_elem_of_cons in Hs as [He Hs].
  apply replay_cons in Hq as (q0 & Hq0 & Hst). rewrite entered_cons, served_cons, (IH q0 Hq0 Hs). unfold spec_set in *.
  destruct e as [| | |o' m|o' m d|o' m|o' j p|o']; simpl in *; simplify_eq/=; rewrite ?app_nil_r; try done.
  - unfold spec_set. destruct (decide (o = o')) as [<-|Hn]; [by rewrite decide_True, <- app_assoc by done|]. by rewrite decide_False, app_nil_r by done.
  - destruct (q_pending (q0 o')) as [|m' rest] eqn:Hp; [done|]. case_decide; [subst m'|done]. simplify_eq/=. unfold spec_set.
    destruct (decide (o = o')) as [<-|Hn]; [by rewrite Hp, decide_True, <- app_assoc by done|]. by rewrite decide_False, app_nil_r by done.
  - destruct (take_one m _) as [r|]; [|done]. simplify_eq/=. unfold spec_set. by destruct (decide (o = o')) as [<-|Hn].
  - destruct (take_all _ _) as [r|]; [|done]. simplify_eq/=. unfold spec_set. by destruct (decide (o = o')) as [<-|Hn].
  - unfold spec_set. by rewrite decide_False by congruence.
Qed.

(** No message is lost or processed twice. *)
Lemma replay_conserves o t q : replay t = Some q -> entered o t ≡ₚ finished o t ++ q_pending (q o) ++ q_parked (q o).
Proof.
  revert q. induction t as [|e t IH]; intros q Hq; [simpl in Hq; by simplify_eq|].
  apply replay_cons in Hq as (q0 & Hq0 & Hst). rewrite entered_cons, finished_cons, (IH q0 Hq0).
  destruct e as [| | |o' m|o' m d|o' m|o' j p|o']; simpl in *; simplify_eq/=; rewrite ?app_nil_r; try done.
  - unfold spec_set. destruct (decide (o = o')) as [<-|Hn]; [rewrite !decide_True by done; simpl; solve_perm|]. by rewrite decide_False, !app_nil_r by done.
  - destruct (q_pending (q0 o')) as [|m' rest] eqn:Hp; [done|]. case_decide; [subst m'|done]. simplify_eq/=. unfold spec_set.
    destruct (decide (o = o')) as [<-|Hn]; [rewrite Hp; destruct d, (decide (o = o)); try done; simpl; solve_perm|].
    rewrite decide_False by done. destruct d; by rewrite app_nil_r.
  - destruct (take_one m _) as [r|] eqn:Hr; [|done]. simplify_eq/=. unfold spec_set.
    destruct (decide (o = o')) as [<-|Hn]; [rewrite !decide_True, (take_one_some _ _ _ Hr) by done; simpl; solve_perm|by rewrite decide_False, !app_nil_r by done].
  - destruct (take_all _ _) as [r|] eqn:Hr; [|done]. simplify_eq/=. unfold spec_set.
    destruct (decide (o = o')) as [<-|Hn]; [rewrite !decide_True, (take_all_some _ _ _ Hr) by done; simpl; solve_perm|by rewrite decide_False, !app_nil_r by done].
  - unfold spec_set. destruct (decide (o = o')) as [<-|Hn]; [simpl; solve_perm|done].
Qed.
End reading.
