(* ===== verification/MessageQueueProgress.v ===== *)
(** * Progress of the message queue

    With weight for one message, [service_queues] serves the first message of the queue at
    the head of the ready ring, if its page has one and the processor does not put it off. *)
From stdpp Require Import base gmap list strings.
From Stdlib Require Import ZArith Lia.
From S2P Require Import Prelude Weights MessageQueue MessageQueuePage MessageQueueSpec MessageQueueRing MessageQueueInv MessageQueueService MessageQueueHistory.
Set Warnings "-clear-no-such-hyp".
Open Scope Z_scope.

Section progress.
Context {Origin Hash Env : Type} `{Countable Origin} {codec : HeaderCodec} {T : Config Origin Hash Env}.
Context {laws : HeaderCodecLaws codec} {claws : ConfigLaws} {fits : FitLaws}.
Implicit Types (s : Storage Origin) (w : World Origin Hash Env) (l : list Origin) (o x : Origin) (q : Spec (Origin := Origin)) (b : BookState Origin).

(** The trace [t] has an entry about [m] being served that [t0] does not have. *)
Definition newly_served o m (t0 t : list (Effect Origin Hash)) : Prop := exists d t1, (Served o m d :: t1) `suffix_of` t /\ t0 `suffix_of` t1.

Lemma newly_bind {E A B} o m t0 (op : ST (World Origin Hash Env) E A) (k : A -> ST (World Origin Hash Env) E B) w :
  (forall a, extends (k a)) -> newly_served o m t0 (trace (op w).1) -> newly_served o m t0 (trace ((op ≫= k) w).1).
Proof.
  intros Hk (d & t1 & Hs & Ht). exists d, t1. split; [|done]. etrans; [exact Hs|]. unfold mbind, st_bind. destruct (op w) as [w1 [a|e|]]; [|done..]. apply (Hk a w1).
Qed.

Lemma newly_loop {E A R} o m t0 (body : A -> ST (World Origin Hash Env) E (A + R)) k a w :
  (forall a, extends (body a)) -> newly_served o m t0 (trace (body a w).1) -> newly_served o m t0 (trace (st_loop body k a w).1).
Proof.
  intros Hb Hs. apply newly_bind; [intros [|]; [apply extends_lift|apply extends_ret]|]. induction k as [|k IH]; [done|]. simpl.
  apply newly_bind; [|done]. intros [|]; [by apply extends_rounds|apply extends_ret].
Qed.

(** The processor deals with [m] at once, with the meter that it is given: it does not put
    the message off, and it asks for more weight only if that is more than [ol]. *)
Definition willing o m (meter : WeightMeter) (ol : Weight) : Prop := forall e s,
  match status_of (out_result (process_message m o meter (blake2_256 m) e s)) ol with InsufficientWeight | Unprocessable false => False | _ => True end.

Definition meter_with (c lim : Weight) : WeightMeter := {| consumed := c; limit := lim |}.

Lemma meter_eta m c lim : consumed m = c -> limit m = lim -> m = meter_with c lim.
Proof. by destruct m; simpl; intros <- <-. Qed.

Lemma consume_within meter wt : meter_ok meter -> in_range wt -> within (plus (consumed meter) wt) (limit meter) ->
  exists m', WeightMeter.try_consume meter wt = (m', Ok tt) /\ meter_after meter m' /\ consumed m' = plus (consumed meter) wt.
Proof. intros Hm Hw Hin. destruct (try_consume_spec meter wt Hm Hw) as (m' & r & Htc & Ha & [[-> Hc]|(_ & _ & Hn)]); [by exists m'|done]. Qed.

Lemma item_progress {E} o b p meter ol l q w m t0 :
  serving o b p l q w -> meter_ok meter -> within (plus (consumed meter) (w_service_page_item weights)) (limit meter) ->
  items_of p !! Z.to_nat (first_index p) = Some (false, m) -> willing o m (meter_with (plus (consumed meter) (w_service_page_item weights)) (limit meter)) ol -> t0 `suffix_of` trace w ->
  newly_served o m t0 (trace (service_page_item (E := E) o (begin b) b p meter ol w).1).
Proof.
  intros Hsv Hm Hw Hi Hwill Ht0. pose proof (serving_page _ _ _ _ _ _ Hsv) as [Hok Hun]. unfold service_page_item, is_complete.
  assert (remaining p <> 0) as Hnz by (intros Hz; apply (complete_done _ _ _ Hok Hun) in Hz; apply lookup_lt_Some in Hi; lia).
  rewrite (proj2 (Z.eqb_neq _ _) Hnz). destruct (consume_within _ (w_service_page_item weights) Hm ltac:(apply weights_range) Hw) as (m1 & -> & Ma & Hc).
  rewrite <- (meter_eta m1 _ _ Hc (proj1 (proj2 Ma))) in Hwill.
  rewrite (st_bind_ok _ _ _ _ _ (peek_first_spec heap_range p _ _ w Hok)), Hi. cbn [fmap option_fmap option_map snd].
  unfold put_page, put_book. rewrite modify_bind, modify_bind. set (w1 := set_storage (insert_book o b) (set_storage (insert_page o (begin b) p) w)).
  assert (implements None l q w1) as Hi1 by (by apply serving_stop).
  pose proof (extends_payload (E := E) o (begin b) (first_index p) m m1 ol w1) as Hext.
  destruct (payload_spec (E := E) o (begin b) (first_index p) m m1 ol w1 l q Hi1 (proj1 Ma)) as (w2 & l2 & q2 & m2 & Heq & En & _).
  rewrite Heq in Hext. rewrite (st_bind_ok _ _ _ _ _ Heq), get_book_bind, get_page_bind. destruct (en_grows _ _ _ _ _ _ En o) as [_ Hp2].
  destruct (Hp2 (begin b) p) as (p2 & its & Hpg2 & _); [by change (storage w1) with (view (storage w) o b p); rewrite view_page, decide_True|].
  unfold pg in Hpg2. rewrite Hpg2. specialize (Hwill (env w1) (storage w1)).
  assert (forall A d (k : ST (World Origin Hash Env) E A), extends k -> newly_served o m t0 (trace ((note (Served o m d);; k) w2).1)) as Hnote.
  { intros A d k Hk. apply newly_bind; [done|]. exists d, (trace w2). split; [done|]. by etrans. }
  destruct (status_of _ ol) as [| | |[]|]; try done; apply Hnote; solve_extends.
Qed.

Definition page_base : Weight := Weight.max (w_service_page_base_completion weights) (w_service_page_base_no_completion weights).

Lemma page_progress {E} o b meter ol l q w p m rest t0 :
  walking o b l q w -> begin b < end_ b -> meter_ok meter ->
  within (plus (plus (consumed meter) page_base) (w_service_page_item weights)) (limit meter) ->
  pg (storage w) o (begin b) = Some p -> waiting p = m :: rest ->
  willing o m (meter_with (plus (plus (consumed meter) page_base) (w_service_page_item weights)) (limit meter)) ol -> t0 `suffix_of` trace w ->
  newly_served o m t0 (trace (service_page (E := E) o b meter ol w).1).
Proof.
  intros Hwk Hlt Hm Hw Hp Hwait Hwill Ht0. destruct (walking_serving _ _ _ _ _ Hwk Hlt) as (p0 & Hp0 & Hsv). assert (p0 = p) as -> by congruence.
  destruct weights_range as (_ & _ & W1 & W2 & W3 & _). unfold service_page. fold page_base.
  destruct (consume_within _ page_base Hm) as (m1 & -> & Ma & Hc).
  { unfold in_range, in_u, page_base, Weight.max in *. simpl. lia. }
  { unfold within, plus, in_range, in_u in *. simpl in *. lia. }
  rewrite get_page_bind. unfold pg in Hp. rewrite Hp. pose proof (@extends_item Origin Hash Env _ _ _ _ E).
  apply newly_bind; [intros; solve_extends|]. apply newly_loop; [intros; solve_extends|]. apply newly_bind; [intros; solve_extends|]. cbn [l_book l_page l_weight].
  pose proof (serving_page _ _ _ _ _ _ Hsv) as [Hok Hun]. unfold waiting in Hwait.
  destruct (drop (Z.to_nat (first_index p)) (items_of p)) as [|[d m'] its] eqn:Hd; [done|]. rewrite fmap_cons in Hwait. injection Hwait as Hm' Hrest. simpl in Hm'. subst m'.
  assert (items_of p !! Z.to_nat (first_index p) = Some (d, m)) as Hi by (rewrite <- (Nat.add_0_r (Z.to_nat _)), <- lookup_drop, Hd; done).
  pose proof (Hun _ _ (Nat.le_refl _) Hi) as Hd'. simpl in Hd'. subst d.
  pose proof Ma as (_ & El & _). eapply item_progress; [done|apply Ma|by rewrite Hc, El|done|by rewrite Hc, El|done].
Qed.

Lemma queue_progress {E} o meter ol l q w p m rest t0 :
  implements None l q w -> o ∈ l -> meter_ok meter -> is_paused (env w) o = false ->
  within (plus (plus (plus (consumed meter) queue_base) page_base) (w_service_page_item weights)) (limit meter) ->
  pg (storage w) o (begin (book_of (storage w) o)) = Some p -> waiting p = m :: rest ->
  willing o m (meter_with (plus (plus (plus (consumed meter) queue_base) page_base) (w_service_page_item weights)) (limit meter)) ol -> t0 `suffix_of` trace w ->
  newly_served o m t0 (trace (service_queue (E := E) o meter ol w).1).
Proof.
  intros Hi Ho Hm Hpause Hw Hp Hwait Hwill Ht0. pose proof Hi as [Hrep I].
  assert (begin (book_of (storage w) o) < end_ (book_of (storage w) o)) as Hlt by (apply (inv_ready _ _ _ _ I) in Ho as [?|?]; done).
  destruct weights_range as (_ & _ & W1 & W2 & W3 & _). unfold service_queue. fold queue_base.
  destruct (consume_within _ queue_base Hm queue_base_range) as (m1 & -> & Ma & Hc).
  { unfold within, plus, page_base, Weight.max, in_range, in_u in *. simpl in *. lia. }
  rewrite get_book_bind, st_get_bind, Hpause. pose proof (@extends_page Origin Hash Env _ _ _ _ E).
  apply newly_bind; [intros; solve_extends|]. apply newly_loop; [intros; solve_extends|]. unfold service_queue_round.
  rewrite (proj2 (Z.ltb_lt _ _) Hlt). apply newly_bind; [intros; solve_extends|].
  pose proof Ma as (_ & El & _). eapply page_progress; [by apply walking_start|done|apply Ma|by rewrite Hc, El|done|done|by rewrite Hc, El|done].
Qed.

(** The weight that is taken before the first message is processed. *)
Definition first_overhead : Weight := plus (plus (plus (w_bump_service_head weights) queue_base) page_base) (w_service_page_item weights).

Lemma queues_progress {E} o limit l q w p m rest :
  implements None (o :: l) q w -> in_range limit -> is_paused (env w) o = false ->
  within first_overhead limit ->
  pg (storage w) o (begin (book_of (storage w) o)) = Some p -> waiting p = m :: rest ->
  willing o m (meter_with first_overhead limit) (default Weight.zero (max_message_weight limit)) ->
  newly_served o m (trace w) (trace (service_queues (E := E) false limit w).1).
Proof.
  intros Hi Hlim Hpause Hw Hp Hwait Hwill. unfold service_queues.
  set (w1 := match max_message_weight limit with Some _ => w | None => noted (Defensive "Not enough weight to service a single message.") w end).
  rewrite (st_bind_ok _ _ w w1 (default Weight.zero (max_message_weight limit))) by (unfold w1; by destruct (max_message_weight limit)).
  set (m0 := WeightMeter.with_limit limit). assert (meter_ok m0) as Hm0.
  { unfold meter_ok, m0, WeightMeter.with_limit, in_range, in_u, within, Weight.zero in *. simpl. lia. }
  assert (implements None (o :: l) q w1 /\ env w1 = env w /\ storage w1 = storage w /\ trace w `suffix_of` trace w1) as (Hi1 & He1 & Hs1 & Ht1).
  { unfold w1. destruct (max_message_weight limit); [done|]. destruct Hi as [Hrep I]. split; [split; [simpl; by rewrite Hrep|done]|].
    split; [done|]. split; [done|]. by apply suffix_cons_r. }
  unfold with_service_mutex. destruct (bump_head_spec (E := E) m0 (o :: l) q w1 Hi1 Hm0) as (w2 & r & m1 & l1 & Hb & Hi2 & _ & Hm1 & Hhead & Hr).
  rewrite (st_bind_ok _ _ _ _ _ Hb). destruct weights_range as (W1 & _ & W2 & W3 & W4 & _). pose proof queue_base_range as Hqb.
  destruct Hr as [(_ & _ & [?|Hn])|(-> & -> & Hc)]; [done|exfalso; apply Hn|].
  { unfold within, first_overhead, plus, page_base, Weight.max, m0, WeightMeter.with_limit, Weight.zero, in_range, in_u in *. simpl in *. lia. }
  cbn [head]. pose proof (@extends_queue Origin Hash Env _ _ _ _ E).
  assert (env w2 = env w /\ pg (storage w2) o (begin (book_of (storage w2) o)) = Some p /\ trace w2 = trace w1) as (He2 & Hp2 & Ht2).
  { destruct Hhead as [->|[h ->]]; (split; [done|]; split; [|done]); cbn [storage set_storage]; rewrite Hs1; done. }
  apply newly_bind; [intros; solve_extends|]. apply newly_loop; [intros; solve_extends|]. apply newly_bind; [intros; solve_extends|].
  pose proof Hm1 as (_ & El & _). assert (plus (plus (plus (consumed m1) queue_base) page_base) (w_service_page_item weights) = first_overhead) as Hsum.
  { rewrite Hc. unfold first_overhead. by destruct (w_bump_service_head weights). }
  eapply queue_progress; [done|simpl; set_solver|apply Hm1|by rewrite He2|by rewrite Hsum, El|done|done|by rewrite Hsum, El|by rewrite Ht2].
Qed.
End progress.
