(* ===== verification/MessageQueueProps.v ===== *)
(** * Runs of the message queue

    [reachable] are the worlds that calls of the pallet lead to, from an empty storage, if they
    are [admissible].  The theorems are about all of them. *)
From stdpp Require Import base gmap list strings.
From Stdlib Require Import ZArith Lia.
From S2P Require Import Prelude Weights MessageQueue MessageQueuePage MessageQueueSpec MessageQueueRing MessageQueueInv MessageQueueService MessageQueueDemand MessageQueueHistory MessageQueueProgress.
Set Warnings "-clear-no-such-hyp".
Open Scope Z_scope.

Section runs.
Context {Origin Hash Env : Type} `{Countable Origin} {codec : HeaderCodec} {T : Config Origin Hash Env}.
Implicit Types (s : Storage Origin) (w : World Origin Hash Env) (l : list Origin) (o x : Origin) (q : Spec (Origin := Origin)) (b : BookState Origin).

Inductive Op :=
| OpEnqueue (c : Call Origin)
| OpSweep (origin : Origin)
| OpInitialize
| OpIdle (remaining_weight : Weight)
| OpService (weight_limit : Weight)
| OpReap (caller : RawOrigin) (origin : Origin) (page : Z)
| OpExecute (caller : RawOrigin) (origin : Origin) (page : Z) (index : nat) (weight_limit : Weight)
| OpEnv (e : Env). (* something outside of the pallet happens *)

Definition run_op (op : Op) : ST (World Origin Hash Env) DispatchError unit :=
  match op with
  | OpEnqueue c => run_call c
  | OpSweep o => sweep_queue o
  | OpInitialize => on_initialize;; mret tt
  | OpIdle wt => on_idle wt;; mret tt
  | OpService wt => service_queues false wt;; mret tt
  | OpReap caller o i => reap_page false caller o i
  | OpExecute caller o i idx wt => execute_overweight_call false caller o i (Z.of_nat idx) wt;; mret tt
  | OpEnv e => st_modify (set_env e)
  end.

(** The page numbers do not run out while queues are serviced: it makes no difference if the
    processor does not enqueue what would exceed them. *)
Record pages_last w (limit : Weight) : Prop := {
  lasts : service_queues (T := cut_off (T := T)) (E := DispatchError) false limit w = service_queues false limit w;
}.

(** Arguments have the range of their types, page numbers do not run out, and messages that
    are executed on demand are [harmless]. *)
Definition admissible (op : Op) w : Prop :=
  match op with
  | OpEnqueue c => calls_fit (storage w) [c]
  | OpInitialize => from_option (pages_last w) True ServiceWeight
  | OpIdle wt => in_range wt /\ from_option (fun limit => pages_last w (Weight.min limit wt)) True IdleMaxServiceWeight
  | OpService wt => in_range wt /\ pages_last w wt
  | OpExecute _ o i idx wt => in_range wt /\ harmless w o i idx wt
  | _ => True
  end.

Definition genesis e : World Origin Hash Env := {| storage := {| BookStateFor := ∅; ServiceHead := None; Pages := ∅ |}; env := e; trace := [] |}.

Inductive reachable : World Origin Hash Env -> Prop :=
| reach_init e : reachable (genesis e)
| reach_step w op w' r : reachable w -> admissible op w -> run_op op w = (w', r) -> reachable w'.

(** The assertion that a call runs into because of too little weight. *)
Definition op_alarm (op : Op) : list string :=
  match op with
  | OpInitialize => from_option low_weight_alarm [] ServiceWeight
  | OpIdle wt => from_option (fun limit => low_weight_alarm (Weight.min limit wt)) [] IdleMaxServiceWeight
  | OpService wt => low_weight_alarm wt
  | _ => []
  end.

Section laws.
Context {laws : HeaderCodecLaws codec} {claws : ConfigLaws}.

Lemma init_implements e : implements None [] spec_init (genesis e).
Proof.
  split; [done|]. set (s := storage (genesis e)). assert (forall o, book_of s o = default_book) as Hb by (intros o; unfold book_of, s; simpl; by rewrite lookup_empty).
  assert (forall o i, pg s o i = None) as Hp by (intros o i; apply lookup_empty). split.
  - split; [constructor|intros o _; unfold nbs; by rewrite Hb|by intros [] ? ?].
  - done.
  - intros o. rewrite Hb. split; try (intros i p; rewrite Hp; done); try done. cbn. intros i. lia.
  - intros o. rewrite Hb. split; [by intros ?%not_elem_of_nil|]. intros [Hlt|?]; [by cbn in Hlt|done].
Qed.

Lemma service_spec limit l q w :
  implements None l q w -> in_range limit -> pages_last w limit ->
  exists w' used l' q', service_queues (E := DispatchError) false limit w = (w', Ok used) /\ implements None l' q' w' /\
    alarms (trace w') = low_weight_alarm limit ++ alarms (trace w) /\ within used limit.
Proof.
  intros Hi%implements_cut_off Hl [<-]. pose proof cut_off_fits as Hf. pose proof (cut_off_laws claws) as Hc.
  destruct (service_queues_spec (T := cut_off (T := T)) (E := DispatchError) false limit l q w Hi Hl) as (w' & used & l' & q' & Heq & Hi' & Ha & Hu & _).
  exists w', used, l', q'. rewrite implements_cut_off in Hi'. split; [exact Heq|]. split; [exact Hi'|]. split; [exact Ha|exact Hu].
Qed.

Lemma service_then limit l q w :
  implements None l q w -> in_range limit -> pages_last w limit ->
  exists w' l' q', (service_queues (E := DispatchError) false limit;; mret tt) w = (w', Ok tt) /\ implements None l' q' w' /\ alarms (trace w') = low_weight_alarm limit ++ alarms (trace w).
Proof.
  intros Hi Hl Hp. destruct (service_spec limit l q w Hi Hl Hp) as (w' & used & l' & q' & Heq & Hi' & Ha & _).
  exists w', l', q'. by rewrite (st_bind_ok _ _ _ _ _ Heq).
Qed.

Lemma run_op_spec op l q w :
  implements None l q w -> admissible op w ->
  exists w' r l' q', run_op op w = (w', r) /\ r <> Panic /\ implements None l' q' w' /\ alarms (trace w') = op_alarm op ++ alarms (trace w).
Proof.
  intros Hi Had. destruct op as [c|o| |wt|wt|caller o i|caller o i idx wt|e]; cbn [run_op op_alarm admissible] in *.
  - destruct Had as [Hm He]. unfold lengths_ok, pages_fit, all_messages in *. rewrite Forall_singleton in He. cbn in Hm, He. rewrite app_nil_r in *.
    destruct (run_call_spec (E := DispatchError) c w l q Hi Hm He) as (w' & l' & q' & Heq & [Hi' _ _ _ Hq] & _). by exists w', (Ok tt), l', q'.
  - destruct (sweep_spec (E := DispatchError) o l q w Hi) as (w' & l' & q' & Heq & Hi' & Hq & _). by exists w', (Ok tt), l', q'.
  - unfold on_initialize. destruct ServiceWeight as [limit|] eqn:Hs; [|by exists w, (Ok tt), l, q].
    destruct (service_then limit l q w Hi) as (w' & l' & q' & Heq & Hi' & Ha); [by apply service_weights; left|done|]. by exists w', (Ok tt), l', q'.
  - destruct Had as [Hw Hp]. unfold on_idle. destruct IdleMaxServiceWeight as [limit|] eqn:Hs; [|by exists w, (Ok tt), l, q].
    destruct (service_then (Weight.min limit wt) l q w Hi) as (w' & l' & q' & Heq & Hi' & Ha); [|done|by exists w', (Ok tt), l', q'].
    pose proof (service_weights limit (or_intror Hs)). unfold in_range, in_u, Weight.min in *. simpl. lia.
  - destruct Had as [Hw Hp]. destruct (service_then wt l q w Hi Hw Hp) as (w' & l' & q' & Heq & Hi' & Ha). by exists w', (Ok tt), l', q'.
  - destruct (reap_inner_spec o i l q w Hi) as (w' & r & q' & Heq & Hi' & Hq & Hr).
    destruct caller as [|who|]; [exists w, (Err BadOrigin), l, q; done| |exists w, (Err BadOrigin), l, q; done].
    unfold reap_page, do_reap_page, with_service_mutex. rewrite (st_bind_ok _ _ w w who) by done. unfold st_map_err. rewrite Heq.
    destruct r as [[]|e|]; [by exists w', (Ok tt), l, q'|by exists w', (Err (Module_ e)), l, q'|done].
  - destruct Had as [Hw Hh]. destruct (execute_inner_spec o i idx wt l q w Hi Hw Hh) as (w' & r & l' & q' & Heq & Hi' & Hq & Hr).
    destruct caller as [|who|]; [exists w, (Err BadOrigin), l, q; done| |exists w, (Err BadOrigin), l, q; done].
    unfold execute_overweight_call, do_execute_overweight, with_service_mutex.
    assert ((x ← (ensure_signed (Signed who);; st_map_err Module_ (do_execute_overweight_inner o i (Z.of_nat idx) wt)); mret tt) w =
      (w', match r with Ok _ => Ok tt | Err e => Err (Module_ e) | Panic => Panic end)) as Heq'.
    { cbn [ensure_signed]. unfold mbind, st_bind, mret, st_ret, st_map_err. rewrite Heq. by destruct r. }
    rewrite Heq'. eexists w', _, l', q'. split; [done|]. split; [by destruct r|]. done.
  - by exists (set_env e w), (Ok tt), l, q.
Qed.

Lemma reachable_implements w : reachable w -> exists l q, implements None l q w.
Proof.
  induction 1 as [e|w op w' r _ (l & q & Hi) Had Heq]; [exists [], spec_init; apply init_implements|].
  destruct (run_op_spec op l q w Hi Had) as (w1 & r1 & l' & q' & Heq' & _ & Hi' & _). rewrite Heq in Heq'. simplify_eq. by exists l', q'.
Qed.

(** ** Counters *)
Lemma sum_concat {A} (f : Message -> Z) (F : A -> list Message) (r : list A) : sum_Z (f <$> concat (F <$> r)) = sum_Z ((fun i => sum_Z (f <$> F i)) <$> r).
Proof. induction r as [|i r IH]; [done|]. rewrite !fmap_cons. simpl. by rewrite fmap_app, sum_Z_app, IH. Qed.

Lemma sum_both {A} (f g h : A -> Z) (r : list A) : (forall i, i ∈ r -> f i = g i + h i) -> sum_Z (f <$> r) = sum_Z (g <$> r) + sum_Z (h <$> r).
Proof.
  induction r as [|i r IH]; intros Hf; [done|]. rewrite !fmap_cons, !sum_Z_cons, IH, (Hf i) by (first [by constructor|intros; apply Hf; by constructor]). lia.
Qed.

(** The messages of a queue that are not processed are those that wait and those that are parked. *)
Lemma queue_weigh (f : Message -> Z) b (pgs : Z -> option Page) sp : queue_inv false b pgs sp ->
  page_sum (end_ b) (fun p => weigh_items f (items_of p)) pgs = sum_Z (f <$> pending_of b pgs) + sum_Z (f <$> parked_of b pgs).
Proof.
  intros Q. destruct (qi_range _ _ _ _ Q) as [Hr _]. unfold page_sum, pending_of, pend, parked_of. rewrite !sum_concat.
  rewrite (sum_both _ (fun i => if i <? begin b then 0 else sum_Z (f <$> from_option waiting [] (pgs i))) (fun i => sum_Z (f <$> park b pgs i)));
    [f_equal|].
  - replace (end_ b) with (begin b + (end_ b - begin b)) at 1 by lia. rewrite seqZ_app, fmap_app, sum_Z_app by lia.
    rewrite (list_fmap_ext _ (fun _ => 0) (seqZ 0 (begin b))).
    2:{ intros k i Hi%list_elem_of_lookup_2%elem_of_seqZ. by rewrite (proj2 (Z.ltb_lt _ _)) by lia. }
    replace (sum_Z ((fun _ => 0) <$> seqZ 0 (begin b))) with 0 by (induction (seqZ 0 (begin b)); [done|by rewrite fmap_cons, sum_Z_cons]).
    rewrite !Z.add_0_l. f_equal. apply list_fmap_ext. intros k i Hi%list_elem_of_lookup_2%elem_of_seqZ. by rewrite (proj2 (Z.ltb_ge _ _)) by lia.
  - intros i _. unfold park. destruct (pgs i) as [p|] eqn:Hp; simpl; [|by destruct (i <? begin b)]. rewrite weigh_unprocessed.
    destruct (Z.ltb_spec i (begin b)) as [Hlt|Hge]; [done|]. rewrite (untouched_split _ _ (qi_fresh _ _ _ _ Q _ _ Hp Hge)), fmap_app, sum_Z_app. unfold skipped, waiting. lia.
Qed.

Lemma sum_ones (ms : list Message) : sum_Z ((fun _ => 1) <$> ms) = Z.of_nat (length ms).
Proof. induction ms as [|m ms IH]; [done|]. rewrite fmap_cons, sum_Z_cons, IH, length_cons. lia. Qed.

Lemma counters_exact b (pgs : Z -> option Page) sp : queue_inv false b pgs sp ->
  message_count b = Z.of_nat (length (pending_of b pgs)) + Z.of_nat (length (parked_of b pgs)) /\
  size_ b = sum_Z (item_len <$> pending_of b pgs) + sum_Z (item_len <$> parked_of b pgs).
Proof.
  intros Q. rewrite (qi_messages _ _ _ _ Q), (qi_size _ _ _ _ Q), <- !sum_ones, <- !(queue_weigh _ _ _ _ Q). unfold page_sum.
  split; f_equal; apply list_fmap_ext; intros k i _; destruct (pgs i) as [p|] eqn:Hp; [|done| |done]; simpl.
  - apply (ok_remaining _ _ _ _ (qi_page _ _ _ _ Q _ _ Hp)).
  - apply (ok_remaining_size _ _ _ _ (qi_page _ _ _ _ Q _ _ Hp)).
Qed.

Lemma filter_whole {A} (P : A -> Prop) `{!forall y, Decision (P y)} (r : list A) : (forall y, y ∈ r -> P y) -> filter P r = r.
Proof. induction r as [|y r IH]; intros Hr; [done|]. rewrite filter_cons_True, IH by (first [apply Hr; by constructor|intros; apply Hr; by constructor]). done. Qed.

(** ** The queues of a world *)
Definition waiting_messages s o : list Message := pending_of (book_of s o) (pg s o).
Definition parked_messages s o : list Message := parked_of (book_of s o) (pg s o).

Lemma reachable_queue w o : reachable w -> exists q, replay (trace w) = Some q /\
  queue_inv false (book_of (storage w) o) (pg (storage w) o) (q o) /\ q_pending (q o) = waiting_messages (storage w) o /\ q_parked (q o) ≡ₚ parked_messages (storage w) o.
Proof.
  intros (l & q & Hrep & I)%reachable_implements. exists q. split; [done|]. pose proof (inv_queue _ _ _ _ I o) as Q. rewrite bool_decide_false in Q by done.
  split; [done|]. split; [apply (qi_pending _ _ _ _ Q)|apply (qi_parked _ _ _ _ Q)].
Qed.

(** C3: No message is lost, made up or processed twice, as long as messages executed on
    demand are harmless ([harmless]) and page numbers do not run out: the messages that were
    enqueued for an origin are those that are gone (processed, executed on demand or reaped),
    those that wait in the pages of the queue, and those that servicing left behind as
    overweight. *)
Theorem messages_conserved w o : reachable w ->
  entered o (trace w) ≡ₚ finished o (trace w) ++ waiting_messages (storage w) o ++ parked_messages (storage w) o.
Proof.
  intros (q & Hrep & _ & Hpe & Hpa)%(reachable_queue _ o). rewrite (replay_conserves o _ q Hrep), Hpe, Hpa. done.
Qed.

(** C9: A queue that is not swept is served in the order in which its messages were enqueued:
    the ones served so far, followed by the ones that wait in its pages. *)
Theorem served_in_order w o : reachable w -> Swept o ∉ trace w -> entered o (trace w) = served o (trace w) ++ waiting_messages (storage w) o.
Proof. intros (q & Hrep & _ & <- & _)%(reachable_queue _ o) Hs. by apply replay_fifo. Qed.

(** C35: As long as messages executed on demand are harmless and page numbers do not run
    out, the footprint that is reported for a queue is exact: the messages not yet processed,
    their bytes, the pages that are stored and those that are to be serviced. *)
Theorem footprint_exact w o : reachable w ->
  let s := storage w in
  footprint (E := DispatchError) o w = (w, Ok
    {| pages := Z.of_nat (length (filter (fun i => is_Some (pg s o i)) (seqZ 0 (end_ (book_of s o)))));
       ready_pages := Z.of_nat (length (filter (fun i => is_Some (pg s o i)) (seqZ (begin (book_of s o)) (end_ (book_of s o) - begin (book_of s o)))));
       footprint_count := Z.of_nat (length (waiting_messages s o ++ parked_messages s o));
       footprint_size := sum_Z (item_len <$> waiting_messages s o ++ parked_messages s o) |}).
Proof.
  intros (q & _ & Q & _)%(reachable_queue _ o) s. fold s in Q. destruct (counters_exact _ _ _ Q) as [Hm Hz]. destruct (qi_range _ _ _ _ Q) as [Hr _].
  unfold footprint, footprint_of. rewrite get_book_bind, assert_bind by (apply Z.leb_le; fold s; lia). fold s. unfold mret, st_ret. repeat f_equal.
  - rewrite (qi_count _ _ _ _ Q). unfold page_sum. induction (seqZ 0 _) as [|i r IH]; [done|]. rewrite fmap_cons, sum_Z_cons, IH, filter_cons.
    destruct (pg s o i); simpl; lia.
  - rewrite filter_whole by (intros i Hi%elem_of_seqZ; apply (qi_ready _ _ _ _ Q); lia). rewrite length_seqZ. unfold saturating_sub. lia.
  - by rewrite length_app, Nat2Z.inj_add.
  - by rewrite fmap_app, sum_Z_app.
Qed.

(** C34: As long as messages executed on demand are harmless and page numbers do not run
    out, the ready ring has exactly the queues with pages to be serviced.  The head points into
    it, and the links of each member are its neighbours. *)
Theorem ring_has_ready_queues w : reachable w -> let s := storage w in
  exists l, NoDup l /\ ServiceHead s = head l /\
    (forall o, o ∈ l <-> begin (book_of s o) < end_ (book_of s o)) /\
    (forall o, o ∉ l -> ready_neighbours (book_of s o) = None) /\
    (forall l1 o l2, l = l1 ++ o :: l2 -> ready_neighbours (book_of s o) = Some {| prev := default o (last (l2 ++ l1)); next := default o (head (l2 ++ l1)) |}).
Proof.
  intros (l & q & _ & I)%reachable_implements s. destruct (inv_linked _ _ _ _ I) as [Hnd Hout Hin]. exists l. split; [done|].
  split; [apply (inv_head _ _ _ _ I)|]. split; [|split; [done|exact Hin]].
  intros o. rewrite (inv_ready _ _ _ _ I). split; [intros [?|?]; done|by left].
Qed.


(** C11: Servicing ends, with no more than the weight it was given, as long as page numbers do
    not run out.  No assertion fails in it if the weight is enough for the overhead of a
    message.  In a call that is in progress it does nothing. *)
Theorem service_ends_within_weight w held limit : reachable w -> in_range limit -> held = true \/ pages_last w limit ->
  exists w' used, service_queues (E := DispatchError) held limit w = (w', Ok used) /\ within used limit /\
    (within single_msg_overhead limit -> alarms (trace w') = alarms (trace w)) /\ (held = true -> storage w' = storage w /\ used = Weight.zero).
Proof.
  intros (l & q & Hi)%reachable_implements Hl Hp.
  assert (within single_msg_overhead limit -> low_weight_alarm limit = []) as Hno.
  { intros Hin. unfold low_weight_alarm, max_message_weight. by rewrite checked_sub_spec, bool_decide_true by done. }
  destruct held.
  - unfold low_weight_alarm in Hno. unfold service_queues, with_service_mutex. destruct (max_message_weight limit) as [mw|].
    + exists w, Weight.zero. split; [done|]. split; [unfold within, in_range, in_u, Weight.zero in *; simpl; lia|done].
    + eexists _, Weight.zero. split; [done|]. split; [unfold within, in_range, in_u, Weight.zero in *; simpl; lia|]. split; [by intros ?%Hno|done].
  - destruct Hp as [|Hp]; [done|]. destruct (service_spec limit l q w Hi Hl Hp) as (w' & used & l' & q' & Heq & _ & Ha & Hu).
    exists w', used. split; [done|]. split; [done|]. split; [|done]. intros Hin. by rewrite Ha, (Hno Hin).
Qed.



(** C36: What [execute_overweight] answers for a harmless message, and why.  If it succeeds the
    message was parked and not processed; it is taken out of the queue, and at most the given
    weight and the overhead are used.  If the processor needs more weight or puts the message
    off, it stays parked.  If the call is refused before that, nothing changes.  Nothing else
    changes in the queues but what the processor itself enqueues. *)
Theorem execute_overweight_outcomes w o i idx limit : reachable w -> in_range limit -> harmless w o i idx limit ->
  exists w' r q q', do_execute_overweight false o i (Z.of_nat idx) limit w = (w', r) /\
    replay (trace w) = Some q /\ replay (trace w') = Some q' /\ executed o i idx limit w w' r q q'.
Proof.
  intros (l & q & Hi)%reachable_implements Hl Hh. destruct (execute_inner_spec o i idx limit l q w Hi Hl Hh) as (w' & r & l' & q' & Heq & [Hrep' _] & _ & Hex).
  exists w', r, q, q'. split; [done|]. split; [apply Hi|]. split; [done|done].
Qed.

(** A message is executed on demand at most once: the next attempt is refused. *)
Theorem executed_only_once w o i idx limit limit' w' used : reachable w -> in_range limit -> harmless w o i idx limit ->
  do_execute_overweight false o i (Z.of_nat idx) limit w = (w', Ok used) -> is_paused (env w') o = false ->
  exists e, do_execute_overweight false o i (Z.of_nat idx) limit' w' = (w', Err e) /\ (e = AlreadyProcessed \/ e = NoPage).
Proof.
  intros (l & q & Hi)%reachable_implements Hl Hh Hrun Hpa. destruct (execute_inner_spec o i idx limit l q w Hi Hl Hh) as (w1 & r & l1 & q1 & Heq & Hi1 & _ & Hex).
  cbn in Hrun. rewrite Heq in Hrun. simplify_eq. destruct Hex as (p & m & q2 & rest & Hp & Hbh & Hit & _ & _ & _ & _ & Hb & Hdone & _).
  unfold do_execute_overweight, with_service_mutex, do_execute_overweight_inner. rewrite get_book_bind, st_get_bind, ensure_bind, Hpa, get_page_bind. cbn [negb].
  destruct Hdone as [Hn|(p' & Hp' & Hit' & Hf)]; [unfold pg in Hn; rewrite Hn; exists NoPage; split; [done|by right]|].
  destruct Hi1 as [_ I1]. pose proof (inv_queue _ _ _ _ I1 o) as Q. rewrite bool_decide_false in Q by done. pose proof (qi_page _ _ _ _ Q _ _ Hp') as Hok.
  assert (items_of p' !! idx = Some (true, m)) as Hit2 by (rewrite Hit', list_lookup_insert_eq; [done|by eapply lookup_lt_Some]).
  unfold pg in Hp'. rewrite Hp', (st_lift_ok _ _ _ p') by done. rewrite (peek_index_spec heap_range p' _ _ idx Hok), Hit2.
  rewrite (st_lift_ok _ _ _ (offset (items_of p') idx, true, m)) by done. rewrite ensure_bind, (behind_spec _ _ _ _ _ Hok Hit2).
  rewrite bool_decide_true by (unfold behind in *; rewrite Hb, Hf; done). rewrite ensure_bind. exists AlreadyProcessed. split; [done|by left].
Qed.

(** What [reap_page] answers, and why: a page is reaped only if it is before [begin], there
    are more stale pages than [MaxStale], and it is older than the horizon that depends on
    their number.  The messages on it that are not processed are dropped from the queue. *)
Theorem reap_page_outcomes w o i : reachable w ->
  exists w' r q q', do_reap_page false o i w = (w', r) /\ replay (trace w) = Some q /\ replay (trace w') = Some q' /\ reaped o i w w' r q q'.
Proof.
  intros (l & q & Hi)%reachable_implements. destruct (reap_inner_spec o i l q w Hi) as (w' & r & q' & Heq & [Hrep' _] & _ & Hex).
  exists w', r, q, q'. split; [done|]. split; [apply Hi|]. split; [done|done].
Qed.


(** ** Pages *)
(** Puts messages on a new page, as long as there is room. *)
Definition fill_page {E} (m : Message) (ms : list Message) : ST (World Origin Hash Env) E (option Page) :=
  p ← from_message m;
  st_for (fun page m => match page with Some p => try_append_message p m | None => mret None end) (Some p) ms.

Definition room (ms : list Message) : Z := sum_Z ((fun m => max_encoded_len + item_len m) <$> ms).

Lemma render_room (ms : list Message) : (forall m, m ∈ ms -> item_len m <= MaxMessageLen) -> Z.of_nat (length (render (pair false <$> ms))) = room ms.
Proof.
  pose proof (max_message_len heap_range) as Hmax. pose proof heap_range as Hh. pose proof max_encoded_len_range.
  induction ms as [|m ms IH]; intros Hm; [done|]. unfold room in *. rewrite !fmap_cons, render_cons, length_app, sum_Z_cons, Nat2Z.inj_add, IH by (intros; apply Hm; by constructor).
  rewrite render_item_length; [done|]. specialize (Hm m ltac:(by constructor)). unfold item_len in *. simpl. lia.
Qed.

(** Messages that fit are all put on the page, and each of them is read back at its index;
    there are none after them. *)
Theorem page_roundtrip (m : Message) (ms : list Message) w : (forall y, y ∈ m :: ms -> item_len y <= MaxMessageLen) -> room (m :: ms) <= HeapSize ->
  exists p, fill_page (E := DispatchError) m ms w = (w, Ok (Some p)) /\ remaining p = Z.of_nat (length (m :: ms)) /\
    forall i : nat, (fun r => (r.1.2, r.2)) <$> peek_index p (Z.of_nat i) = pair false <$> (m :: ms) !! i.
Proof.
  intros Hm Hroom. destruct (from_message_spec heap_range (E := DispatchError) m w) as (p0 & Hfm & Hok0); [apply Hm; by constructor|].
  unfold fill_page. rewrite (st_bind_ok _ _ _ _ _ Hfm).
  assert (total (st_for (fun page m => match page with Some p => try_append_message (E := DispatchError) p m | None => mret None end) (Some p0) ms)
    (fun a w' => w' = w /\ exists p, a = Some p /\ page_ok HeapSize p (pair false <$> m :: ms) 0) w) as Ht.
  { apply (total_for _ (fun done a w' => w' = w /\ exists p, a = Some p /\ page_ok HeapSize p (pair false <$> m :: done) 0)); [by split; [done|exists p0]|].
    intros done y todo a w' -> [-> (p & -> & Hok)].
    destruct (try_append_spec heap_range (E := DispatchError) p _ _ y w Hok) as ([p'|] & Heq & Hp'); [apply Hm; set_solver|..]; unfold total; rewrite Heq.
    - split; [done|]. exists p'. split; [done|]. by rewrite app_comm_cons, fmap_app.
    - exfalso. rewrite (ok_heap _ _ _ _ Hok), render_room in Hp' by (intros; apply Hm; set_solver). unfold room in Hp', Hroom.
      rewrite app_comm_cons, fmap_app, sum_Z_app in Hroom. rewrite (fmap_cons _ y todo), (sum_Z_cons (max_encoded_len + item_len y)) in Hroom. pose proof max_encoded_len_range as H0.
      assert (0 <= sum_Z ((fun m => max_encoded_len + item_len m) <$> todo)); [|lia]. clear - H0. induction todo as [|z r IH]; [done|].
      rewrite fmap_cons, sum_Z_cons. assert (0 <= item_len z) by (unfold item_len; lia). lia. }
  apply total_ok in Ht as (w' & a & Heq & -> & p & -> & Hok). exists p. split; [done|]. split.
  - rewrite (ok_remaining _ _ _ _ Hok), weigh_unprocessed, sum_ones, untouched_unprocessed, length_fmap, length_fmap; [done|].
    intros j it _ Hj. apply list_lookup_fmap_Some in Hj as (y & -> & _). done.
  - intros i. rewrite (peek_index_spec heap_range p _ _ i Hok), list_lookup_fmap. by destruct ((m :: ms) !! i).
Qed.
End laws.
End runs.
