(* ===== verification/MessageQueueCheck.v ===== *)
(** * The self-checks of the message queue

    [do_try_state] is the check of the storage that the code runs in tests and before
    upgrades, [do_integrity_test] the check of its configuration. *)
From stdpp Require Import base gmap list strings.
From Stdlib Require Import ZArith Lia.
From S2P Require Import Prelude Weights MessageQueue MessageQueuePage MessageQueueSpec MessageQueueRing MessageQueueInv MessageQueueService MessageQueueDemand MessageQueueProps.
Set Warnings "-clear-no-such-hyp".
Open Scope Z_scope.

Section check.
Context {Origin Hash Env : Type} `{Countable Origin} {codec : HeaderCodec} {T : Config Origin Hash Env}.
Implicit Types (s : Storage Origin) (w : World Origin Hash Env) (l : list Origin) (o x : Origin) (b : BookState Origin).
Abbreviation op A := (ST (World Origin Hash Env) string A).

Inductive IntegrityError := HeapSizeTooLow | ServiceWeightTooLow (service overhead : Weight).

Definition do_integrity_test : unit + IntegrityError :=
  if MaxMessageLen =? 0 then inr HeapSizeTooLow else
  match ServiceWeight with
  | Some service => match max_message_weight service with None => inr (ServiceWeightTooLow service single_msg_overhead) | Some _ => inl tt end
  | None => inl tt
  end.

(** The loop that counts the messages of a page that are not processed.  An item takes at least a byte. *)
Fixpoint count_remaining (fuel i : nat) (page : Page) : Z :=
  match fuel with
  | O => 0
  | S fuel' =>
      match peek_index page (Z.of_nat i) with
      | Some (_, processed, _) => (if processed : bool then 0 else 1) + count_remaining fuel' (S i) page
      | None => 0
      end
  end.

Definition check_page (head : Origin) (page_index : Z) : op unit :=
  page ← get_page head page_index;
  page ← st_lift (expect page);
  ensure (0 <? remaining page) "These must be some messages that have not been processed yet!";;
  ensure (remaining page =? count_remaining (S (length (heap page))) 0 page) "Memory Corruption".

Definition check_book (book : BookState Origin) : op unit :=
  ensure (begin book <=? end_ book) "Invariant";;
  ensure (end_ book <? 2 ^ 30) "Likely overflow or corruption";;
  ensure (message_count book <? 2 ^ 30) "Likely overflow or corruption";;
  ensure (size_ book <? 2 ^ 30) "Likely overflow or corruption";;
  ensure (count book <? 2 ^ 30) "Likely overflow or corruption";;
  fp ← footprint_of book;
  ensure (ready_pages fp <=? pages fp) "There cannot be more ready than total pages".

(** A round of the [while] loop over the ring. *)
Definition check_head (starting_origin : Origin) (_ : unit) : op (unit + unit) :=
  '(h, _) ← bump_service_head WeightMeter.new;
  match h with
  | None => mret (inr tt)
  | Some head =>
      w ← st_get;
      ensure (bool_decide (is_Some (BookStateFor (storage w) !! head))) "Service head must point to an existing book";;
      head_book_state ← get_book head;
      ensure (0 <? message_count head_book_state) "There must be some messages if in ReadyRing";;
      ensure (0 <? size_ head_book_state) "There must be some message size if in ReadyRing";;
      ensure (begin head_book_state <? end_ head_book_state) "End > Begin if unprocessed messages exists";;
      match ready_neighbours head_book_state with
      | None => fail "There must be neighbours if in ReadyRing"%string
      | Some neighbours =>
          (if decide (next neighbours = head) then ensure (bool_decide (prev neighbours = head)) "Can only happen if only queue in ReadyRing" else mret tt);;
          st_for (fun _ page_index => check_page head page_index) tt (seqZ (begin head_book_state) (end_ head_book_state - begin head_book_state));;
          mret (if decide (next neighbours = starting_origin) then inr tt else inl tt)
      end
  end.

(** A round goes to the next queue of the ring, which has at most as many queues as there are books. *)
Definition do_try_state : op unit :=
  w ← st_get;
  let books := map_to_list (BookStateFor (storage w)) in
  let pages := map_to_list (Pages (storage w)) in
  ensure (Nat.eqb (length books.*1) (length books.*2)) "Memory Corruption in BookStateFor";;
  ensure (Nat.eqb (length pages.*1) (length pages.*2)) "Memory Corruption in Pages";;
  st_for (fun _ book => check_book book) tt books.*2;;
  h ← get_head;
  match h with
  | None => mret tt
  | Some starting_origin => st_loop (check_head starting_origin) (length books) tt
  end.

Section laws.
Context {laws : HeaderCodecLaws codec} {claws : ConfigLaws}.

Lemma ensure_true {E A} (c : bool) (e : E) (k : ST (World Origin Hash Env) E A) w : c = true -> (ensure c e;; k) w = k w.
Proof. by intros ->. Qed.

Lemma st_for_checks {E A} (f : A -> ST (World Origin Hash Env) E unit) (r : list A) w : (forall a, a ∈ r -> f a w = (w, Ok tt)) -> st_for (fun _ => f) tt r w = (w, Ok tt).
Proof.
  induction r as [|a r IH]; intros Hf; [done|]. simpl. rewrite (st_bind_ok _ _ _ _ _ (Hf a ltac:(by constructor))). apply IH. intros. apply Hf. by constructor.
Qed.

Lemma count_remaining_spec p items k fuel i :
  page_ok HeapSize p items k -> (length items < i + fuel)%nat -> count_remaining fuel i p = weigh_items (fun _ => 1) (drop i items).
Proof.
  intros Hok. revert i. induction fuel as [|fuel IH]; intros i Hf; [by rewrite drop_ge by lia|]. simpl. rewrite (peek_index_spec heap_range p _ _ i Hok).
  destruct (items !! i) as [[d m]|] eqn:Hi; simpl.
  - rewrite (drop_S _ _ _ Hi), weigh_cons, IH by lia. done.
  - apply lookup_ge_None in Hi. by rewrite drop_ge by lia.
Qed.

Lemma check_page_ok w o b sp i : queue_inv false b (pg (storage w) o) sp -> begin b <= i < end_ b -> check_page o i w = (w, Ok tt).
Proof.
  intros Q Hi. destruct (qi_ready _ _ _ _ Q i Hi) as [p Hp]. unfold check_page. rewrite get_page_bind. pose proof Hp as Hp'. unfold pg in Hp'. rewrite Hp', (st_lift_ok _ _ _ p) by done.
  pose proof (qi_page _ _ _ _ Q _ _ Hp) as Hok. pose proof (page_counters heap_range _ _ _ Hok) as [C _]. destruct (qi_some _ _ _ _ Q _ _ Hp) as [Hnz|[? _]]; [|done].
  rewrite ensure_true by (apply Z.ltb_lt; lia). pose proof (ok_bound _ _ _ _ Hok) as Hb. rewrite (ok_heap _ _ _ _ Hok) in Hb.
  pose proof (length_items HeapSize (proj2 heap_range) _ Hb) as Hl.
  rewrite (count_remaining_spec p _ _ _ _ Hok), drop_0, <- (ok_remaining _ _ _ _ Hok), Z.eqb_refl by (rewrite (ok_heap _ _ _ _ Hok); lia). done.
Qed.

(** Numbers that are not suspicious, and no ready queue with empty messages only. *)
Definition unsuspicious s : Prop := forall o,
  end_ (book_of s o) < 2 ^ 30 /\ message_count (book_of s o) < 2 ^ 30 /\ size_ (book_of s o) < 2 ^ 30 /\
  (begin (book_of s o) < end_ (book_of s o) -> 0 < size_ (book_of s o)).

Lemma check_book_ok l q w o : implements None l q w -> unsuspicious (storage w) -> check_book (book_of (storage w) o) w = (w, Ok tt).
Proof.
  intros [_ I] Hu. destruct (Hu o) as (U1 & U2 & U3 & _). pose proof (inv_book_range _ _ _ _ o I) as Hr. destruct (stale_count _ _ _ o I) as [Hst Hn].
  pose proof (inv_queue _ _ _ _ I o) as Q. rewrite bool_decide_false in Q by done. apply (queue_counters heap_range) in Q as (Hc & _).
  set (b := book_of (storage w) o) in *. unfold check_book. rewrite !ensure_true by (first [apply Z.ltb_lt|apply Z.leb_le]; lia).
  unfold footprint_of. rewrite (st_bind_ok _ _ w w {| pages := count b; ready_pages := saturating_sub (end_ b) (begin b); footprint_count := message_count b; footprint_size := size_ b |})
    by (by rewrite assert_bind by (apply Z.leb_le; lia)).
  cbn [ready_pages pages]. rewrite (proj2 (Z.leb_le _ _)); [done|]. unfold saturating_sub. lia.
Qed.

Lemma new_meter_ok : meter_ok WeightMeter.new.
Proof. by vm_compute. Qed.

(** The head is at [x], and the queues [todo] come after it. *)
Lemma check_head_ok l q w start done x todo :
  implements None l q w -> l = done ++ x :: todo -> head l = Some start -> unsuspicious (storage w) ->
  let at_ h := set_storage (set_head h) w in
  check_head start tt (at_ (Some x)) = (at_ (head (todo ++ done ++ [x])), Ok (if decide (todo = []) then inr tt else inl tt)).
Proof.
  intros [Hrep I] Hl Hs Hu at_. pose proof (inv_linked _ _ _ _ I) as Hlk. pose proof (linked_in _ _ Hlk _ _ _ Hl) as Hn. unfold nbs in Hn.
  set (b := book_of (storage w) x) in *. unfold check_head.
  assert (exists m, bump_service_head (E := string) WeightMeter.new (at_ (Some x)) = (at_ (head (todo ++ done ++ [x])), Ok (Some x, m))) as [m Hbump].
  { unfold bump_service_head. destruct (try_consume_spec WeightMeter.new (w_bump_service_head weights) new_meter_ok) as (m1 & r & Htc & _ & Hr); [apply weights_range|].
    destruct Hr as [[-> _]|(_ & _ & Hno)].
    2:{ exfalso. apply Hno. destruct weights_range as [W _]. unfold within, plus, in_range, in_u in *. simpl in *. unfold u64_MAX. lia. }
    rewrite Htc, get_head_bind. cbn [at_ storage set_storage ServiceHead set_head]. rewrite get_book_bind.
    change (book_of (storage (at_ (Some x))) x) with b. rewrite Hn. unfold put_head. rewrite modify_bind. exists m1.
    replace (head (todo ++ done ++ [x])) with (Some (next (around x (todo ++ done)))) by (destruct todo; [destruct done|]; done). done. }
  rewrite (st_bind_ok _ _ _ _ _ Hbump), st_get_bind. set (w1 := at_ (head _)).
  assert (x ∈ l) as Hx by (rewrite Hl; set_solver). pose proof Hx as Hlt. apply (inv_ready _ _ _ _ I) in Hlt as [Hlt|?]; [|done]. fold b in Hlt.
  pose proof (inv_queue _ _ _ _ I x) as Q. rewrite bool_decide_false in Q by done. fold b in Q.
  destruct (qi_ready _ _ _ _ Q (begin b) ltac:(lia)) as [p Hp]. destruct (page_le_counters heap_range _ _ _ _ _ Q Hp) as (_ & Hmc & _).
  pose proof (page_counters heap_range _ _ _ (qi_page _ _ _ _ Q _ _ Hp)) as [C _]. destruct (qi_some _ _ _ _ Q _ _ Hp) as [Hnz|[? _]]; [|done].
  rewrite ensure_true.
  2:{ apply bool_decide_eq_true. change (BookStateFor (storage w1)) with (BookStateFor (storage w)). unfold b, book_of in Hlt.
      destruct (BookStateFor (storage w) !! x); [by eexists|]. simpl in Hlt. lia. }
  rewrite get_book_bind. change (book_of (storage w1) x) with b. destruct (Hu x) as (_ & _ & _ & Hsz). fold b in Hsz.
  rewrite !ensure_true by (apply Z.ltb_lt; first [lia|by apply Hsz]). rewrite Hn.
  rewrite (st_bind_ok _ _ w1 w1 tt).
  2:{ case_decide as Hd; [|done]. pose proof (linked_nodup _ _ Hlk) as Hnd. rewrite Hl in Hnd. apply middle_once in Hnd. cbn [around next] in Hd.
      destruct (todo ++ done) as [|y r] eqn:Hr; [by rewrite bool_decide_true|]. simpl in Hd. subst y. exfalso. apply Hnd.
      assert (x ∈ todo ++ done) as Hin by (rewrite Hr; constructor). set_solver. }
  rewrite (st_bind_ok _ _ w1 w1 tt) by (apply st_for_checks; intros i Hi%elem_of_seqZ; apply (check_page_ok w1 x b (q x)); [exact Q|lia]).
  unfold mret, st_ret. do 2 f_equal. cbn [around next]. pose proof (linked_nodup _ _ Hlk) as Hnd.
  assert (default x (head (todo ++ done)) = start <-> todo = []) as Hiff; [|repeat case_decide; tauto].
  rewrite Hl in Hs, Hnd. split; [|intros ->; destruct done; simpl in *; congruence]. intros Heq. destruct todo as [|y todo]; [done|]. exfalso. simpl in Heq. subst y.
  destruct done as [|z done]; simpl in Hs; injection Hs as ->; apply NoDup_cons in Hnd as [Hnd _]; apply Hnd; set_solver.
Qed.

Lemma at_head w h : ServiceHead (storage w) = h -> set_storage (set_head h) w = w.
Proof. intros <-. by destruct w as [[] ? ?]. Qed.

Lemma check_ring_ok l q w start n :
  implements None l q w -> head l = Some start -> unsuspicious (storage w) -> (length l <= n)%nat -> st_loop (check_head start) n tt w = (w, Ok tt).
Proof.
  intros Hi Hs Hu Hn. pose proof Hi as [_ I]. pose proof (inv_head _ _ _ _ I) as Hh. rewrite Hs in Hh.
  assert (total (st_loop (check_head start) n tt) (fun _ w' => w' = w) w) as Ht; [|by apply total_ok in Ht as (w' & [] & Heq & ->)].
  apply total_loop with (fun k _ w' => exists done x todo, l = done ++ x :: todo /\ w' = set_storage (set_head (Some x)) w /\ k = Z.of_nat (length todo)) (Z.of_nat (length l - 1)).
  - pose proof (Nat.pow_gt_lin_r 2 n ltac:(lia)) as Hpow. apply Nat2Z.inj_lt in Hpow. rewrite Nat2Z.inj_pow in Hpow. change (Z.of_nat 2) with 2 in Hpow. lia.
  - destruct l as [|x todo]; [done|]. injection Hs as ->. exists [], start, todo. split; [done|]. split; [by rewrite at_head|]. simpl. lia.
  - intros k [] w' _ (done & x & todo & Hl & -> & ->). unfold total. rewrite (check_head_ok l q w start done x todo Hi Hl Hs Hu).
    destruct todo as [|y todo]; [rewrite decide_True by done|rewrite decide_False by done].
    + apply at_head. rewrite Hh, <- Hs, Hl. by destruct done.
    + exists (Z.of_nat (length todo)). split; [simpl; lia|]. exists (done ++ [x]), y, todo. split; [by rewrite Hl, <- app_assoc|]. by rewrite <- app_comm_cons.
Qed.

(** C38: As long as messages executed on demand are harmless and page numbers do not run out,
    the self-check of the pallet accepts every storage that calls lead to, if its numbers are
    below the thresholds of the check and no queue waits with empty messages only.  It leaves
    the storage as it is. *)
Theorem try_state_accepts w : reachable w -> unsuspicious (storage w) -> do_try_state w = (w, Ok tt).
Proof.
  intros (l & q & Hi)%reachable_implements Hu. pose proof Hi as [_ I]. unfold do_try_state. rewrite st_get_bind.
  rewrite !ensure_true by (rewrite !length_fmap; apply Nat.eqb_refl). rewrite (st_bind_ok _ _ w w tt).
  2:{ apply st_for_checks. intros b Hb. apply list_elem_of_fmap in Hb as ([o b'] & -> & Hob%elem_of_map_to_list).
      replace ((o, b').2) with (book_of (storage w) o) by (unfold book_of; by rewrite Hob). by eapply check_book_ok. }
  rewrite get_head_bind, (inv_head _ _ _ _ I). destruct (head l) as [start|] eqn:Hs; [|done]. eapply check_ring_ok; [done|done|done|].
  rewrite <- (length_fmap fst). apply submseteq_length, NoDup_submseteq; [apply (linked_nodup _ _ (inv_linked _ _ _ _ I))|].
  intros o Ho. apply (inv_ready _ _ _ _ I) in Ho as [Hlt|?]; [|done]. unfold book_of in Hlt. destruct (BookStateFor (storage w) !! o) as [b|] eqn:Hb; [|simpl in Hlt; lia].
  apply list_elem_of_fmap. exists (o, b). split; [done|]. by apply elem_of_map_to_list.
Qed.

(** A configuration that passes the integrity test makes room for a message on a page, and
    [on_initialize] has the weight to service one: no assertion fails in it. *)
Theorem integrity_test_suffices w : do_integrity_test = inl tt -> reachable w -> from_option (pages_last w) True ServiceWeight ->
  0 < MaxMessageLen /\ exists w' used, on_initialize (E := DispatchError) w = (w', Ok used) /\ alarms (trace w') = alarms (trace w).
Proof.
  intros Ht (l & q & Hi)%reachable_implements Hp. unfold do_integrity_test in Ht. destruct (Z.eqb_spec MaxMessageLen 0) as [|Hm]; [done|].
  split; [unfold MaxMessageLen, saturating_sub in *; lia|]. unfold on_initialize. destruct ServiceWeight as [limit|] eqn:Hs; [|by exists w, Weight.zero].
  destruct (service_spec limit l q w Hi ltac:(by apply service_weights; left) Hp) as (w' & used & l' & q' & Heq & _ & Ha & _).
  exists w', used. split; [done|]. unfold low_weight_alarm in Ha. by destruct (max_message_weight limit).
Qed.
End laws.
End check.
