(* ===== verification/MessageQueueHarm.v ===== *)
(** * Where [execute_overweight] does harm

    Two things that go wrong when a message that is not harmless is executed on demand: the
    page that is next to be serviced disappears, and the ready ring breaks. *)
From stdpp Require Import base gmap list strings.
From Stdlib Require Import ZArith Lia.
From S2P Require Import Prelude Weights MessageQueue MessageQueuePage MessageQueueSpec MessageQueueRing MessageQueueInv MessageQueueService MessageQueueDemand MessageQueueHistory MessageQueueProps.
Set Warnings "-clear-no-such-hyp".
Open Scope Z_scope.

Section harm.
Context {Origin Hash Env : Type} `{Countable Origin} {codec : HeaderCodec} {T : Config Origin Hash Env}.
Implicit Types (s : Storage Origin) (w : World Origin Hash Env) (l : list Origin) (o x : Origin) (q : Spec (Origin := Origin)) (b : BookState Origin).

(** ** A broken ring *)
(** The head points to a queue, but no queue is linked into the ring. *)
Definition halted s : Prop := is_Some (ServiceHead s) /\ forall x, ready_neighbours (book_of s x) = None.

(** Whatever an operation returns, it keeps [P], and its value satisfies [Q]. *)
Definition stays {E A} (P : World Origin Hash Env -> Prop) (op : ST (World Origin Hash Env) E A) (Q : A -> Prop) : Prop :=
  forall w, P w -> P (op w).1 /\ forall a, (op w).2 = Ok a -> Q a.

Section stays.
Context {E : Type} (P : World Origin Hash Env -> Prop).

Lemma stays_ret {A} (a : A) (Q : A -> Prop) : Q a -> stays (E := E) P (mret a) Q.
Proof. intros Ha w Hw. split; [done|]. by intros a' [= <-]. Qed.
Lemma stays_lift {A} (r : res E A) (Q : A -> Prop) : (forall a, r = Ok a -> Q a) -> stays P (st_lift r) Q.
Proof. intros Hr w Hw. by split. Qed.
Lemma stays_bind {A B} (op : ST (World Origin Hash Env) E A) (k : A -> ST (World Origin Hash Env) E B) (R : A -> Prop) Q :
  stays P op R -> (forall a, R a -> stays P (k a) Q) -> stays P (op ≫= k) Q.
Proof.
  intros Hop Hk w Hw. destruct (Hop w Hw) as [Hw1 Ha]. unfold mbind, st_bind. destruct (op w) as [w1 [a|e|]]; [|by split..]. by apply Hk; [apply Ha|].
Qed.
Lemma stays_modify g : (forall w, P w -> P (g w)) -> stays (E := E) P (st_modify g) (fun _ => True).
Proof. intros Hg w Hw. split; [by apply Hg|done]. Qed.
Lemma stays_get (Q : World Origin Hash Env -> Prop) : (forall w, P w -> Q w) -> stays (E := E) P st_get Q.
Proof. intros HQ w Hw. split; [done|]. intros w' [= <-]. by apply HQ. Qed.
Lemma stays_any {A} (op : ST (World Origin Hash Env) E A) Q : stays P op Q -> stays P op (fun _ => True).
Proof. intros Hop w Hw. split; [by apply Hop|done]. Qed.
Lemma stays_for {A B} (f : A -> B -> ST (World Origin Hash Env) E A) a r : (forall a y, stays P (f a y) (fun _ => True)) -> stays P (st_for f a r) (fun _ => True).
Proof. intros Hf. revert a. induction r as [|y r IH]; intros a; [by apply stays_ret|]. simpl. eapply stays_bind; [apply Hf|]. intros a' _. apply IH. Qed.
Lemma stays_map_err {E' A} (h : E -> E') (op : ST (World Origin Hash Env) E A) : stays P op (fun _ => True) -> stays P (st_map_err h op) (fun _ => True).
Proof. intros Hop w Hw. destruct (Hop w Hw) as [Hw1 _]. unfold st_map_err. by destruct (op w) as [w1 [a|e|]]. Qed.
End stays.

(** The ring is broken, and no message was served since the trace was [t]. *)
Definition frozen (t : list (Effect Origin Hash)) w : Prop := halted (storage w) /\ forall x, served x (trace w) = served x t.

Section frozen.
Context {E : Type} (t : list (Effect Origin Hash)).

Lemma frozen_note e : (forall x, served_by x e = []) -> stays (E := E) (frozen t) (note e) (fun _ => True).
Proof. intros He. apply stays_modify. intros w [Hh Ht]. split; [done|]. intros x. cbn [trace]. by rewrite served_cons, He, app_nil_r. Qed.
Lemma frozen_book o : stays (E := E) (frozen t) (get_book o) (fun b => ready_neighbours b = None).
Proof. apply stays_bind with (frozen t); [by apply stays_get|]. intros w [[_ Hh] _]. by apply stays_ret. Qed.
Lemma frozen_head : stays (E := E) (frozen t) get_head is_Some.
Proof. apply stays_bind with (frozen t); [by apply stays_get|]. intros w [[Hh _] _]. by apply stays_ret. Qed.
Lemma frozen_put_book o b : ready_neighbours b = None -> stays (E := E) (frozen t) (put_book o b) (fun _ => True).
Proof.
  intros Hb. apply stays_modify. intros w [[Hh Hn] Ht]. split; [|done]. split; [done|]. intros x. cbn [storage set_storage]. rewrite book_of_insert. by case_decide.
Qed.
Lemma frozen_put_page o i p : stays (E := E) (frozen t) (put_page o i p) (fun _ => True).
Proof. by apply stays_modify. Qed.
Lemma frozen_del_page o i : stays (E := E) (frozen t) (del_page o i) (fun _ => True).
Proof. by apply stays_modify. Qed.
Lemma frozen_get_page o i : stays (E := E) (frozen t) (get_page o i) (fun _ => True).
Proof. eapply stays_bind; [by apply (stays_get _ (fun _ => True))|]. intros. by apply stays_ret. Qed.
Lemma frozen_assert c msg : stays (E := E) (frozen t) (debug_assert c msg) (fun _ => True).
Proof. destruct c; [by apply stays_ret|by apply frozen_note]. Qed.
Lemma frozen_get : stays (E := E) (frozen t) st_get (fun _ => True).
Proof. by apply stays_get. Qed.
Lemma frozen_lift {A} (r : res E A) : stays (frozen t) (st_lift r) (fun _ => True).
Proof. by apply stays_lift. Qed.
Lemma frozen_env e : stays (E := E) (frozen t) (st_modify (set_env e)) (fun _ => True).
Proof. by apply stays_modify. Qed.

End frozen.

(** Walks through the body of a function and its branches; [call] deals with an
    operation of the pallet that is called. *)
Ltac stay call := repeat match goal with
  | |- stays _ (_ ≫= _) _ => first [eapply stays_bind; [apply frozen_book|intros ? ?] | apply (stays_bind _ _ _ (fun _ => True)); [|intros ? _]]
  | |- stays _ (mret _) _ => apply stays_ret
  | |- stays _ (st_for _ _ _) _ => apply stays_for; intros
  | |- stays _ (st_map_err _ _) _ => apply stays_map_err
  | |- stays _ (let '(_, _) := ?x in _) _ => destruct x
  | |- stays _ (let _ := _ in _) _ => cbv zeta
  | |- stays _ (if ?x then _ else _) _ => destruct x
  | |- stays _ (match ?x with _ => _ end) _ => destruct x eqn:?
  | |- stays _ _ _ => first [apply frozen_env | apply frozen_get | eapply frozen_put_book; done | eapply frozen_note; done | apply frozen_put_page | apply frozen_del_page
                            | apply frozen_get_page | apply frozen_assert | apply frozen_lift | solve [call]]
  | |- stays _ ?op _ => let f := head_of op in unfold f
  end; try done.

(** No queue gets into the ring. *)
Lemma frozen_knit {E} t o : stays (E := E) (frozen t) (ready_ring_knit o) (fun r => r = None).
Proof.
  unfold ready_ring_knit. eapply stays_bind; [apply frozen_head|]. intros h [h' ->]. eapply stays_bind; [apply frozen_book|]. intros b ->. by apply stays_ret.
Qed.

Lemma frozen_link_page {E} t o m b : ready_neighbours b = None -> stays (E := E) (frozen t) (link_new_page o m b) (fun _ => True).
Proof. intros Hb. unfold link_new_page. stay ltac:(fail). Qed.

Lemma frozen_enqueue {E} t o m : stays (E := E) (frozen t) (do_enqueue_message o m) (fun _ => True).
Proof.
  unfold do_enqueue_message. eapply stays_bind; [by apply frozen_note|intros _ _]. eapply stays_bind; [apply frozen_book|intros b Hb]. cbv zeta.
  destruct (_ <? _).
  - stay ltac:(by apply frozen_link_page).
  - eapply stays_bind; [apply frozen_assert|intros _ _]. eapply stays_bind; [apply frozen_knit|]. intros r ->. stay ltac:(by apply frozen_link_page).
Qed.

Lemma frozen_call {E} t c : stays (E := E) (frozen t) (run_call c) (fun _ => True).
Proof. destruct c; unfold run_call, enqueue_message, enqueue_messages; stay ltac:(by apply frozen_enqueue). Qed.

Lemma frozen_payload {E} t o i j m meter ol : stays (E := E) (frozen t) (process_message_payload o i j m meter ol) (fun _ => True).
Proof. unfold process_message_payload. stay ltac:(by apply frozen_call). Qed.

Lemma frozen_finish t o i pos m b p mt : ready_neighbours b = None -> stays (frozen t) (finish_overweight o i pos m b p mt) (fun _ => True).
Proof.
  intros Hb. unfold finish_overweight. eapply stays_bind; [by apply frozen_note|intros _ _]. eapply stays_bind; [apply frozen_lift|intros p' _].
  apply (stays_bind _ _ _ (fun r => ready_neighbours r.1 = None)); [stay ltac:(fail)|]. intros [b' wt] Hb'. stay ltac:(fail).
Qed.

Lemma frozen_sweep {E} t o : stays (E := E) (frozen t) (sweep_queue o) (fun _ => True).
Proof.
  unfold sweep_queue. eapply stays_bind; [apply frozen_get|intros w _]. destruct (bool_decide _); [|by apply stays_ret].
  eapply stays_bind; [by apply frozen_note|intros _ _]. eapply stays_bind; [apply frozen_book|intros b Hb]. cbn [ready_neighbours set_begin]. rewrite Hb. stay ltac:(fail).
Qed.

(** Servicing ends at once. *)
Lemma frozen_service {E} t held limit : stays (E := E) (frozen t) (service_queues held limit) (fun _ => True).
Proof.
  unfold service_queues. eapply (stays_bind _ _ _ (fun _ => True)); [stay I|]. intros mw _. destruct held; [by apply stays_ret|]. cbn [with_service_mutex].
  eapply (stays_bind _ _ _ (fun r => r.1 = None)); [|intros [h mt]; cbn [fst]; intros ->; by apply stays_ret]. unfold bump_service_head.
  destruct (WeightMeter.try_consume _ _) as [mt [|e|]]; [|by apply stays_ret..].
  eapply stays_bind; [apply frozen_head|]. intros h [h' ->]. eapply stays_bind; [apply frozen_book|]. intros b ->. by apply stays_ret.
Qed.
Lemma frozen_op t op : stays (frozen t) (run_op op) (fun _ => True).
Proof.
  destruct op as [c|o| |wt|wt|caller o i|caller o i idx wt|e]; cbn [run_op].
  - apply frozen_call.
  - apply frozen_sweep.
  - unfold on_initialize. stay ltac:(by apply frozen_service).
  - unfold on_idle. stay ltac:(by apply frozen_service).
  - stay ltac:(by apply frozen_service).
  - unfold reap_page, do_reap_page, do_reap_page_inner, with_service_mutex. stay ltac:(fail).
  - unfold execute_overweight_call, do_execute_overweight, do_execute_overweight_inner, with_service_mutex. stay ltac:(first [by apply frozen_payload|by apply frozen_finish]).
  - apply frozen_env.
Qed.
(** Calls, one after the other. *)
Fixpoint run_ops (ops : list Op) w : World Origin Hash Env :=
  match ops with
  | [] => w
  | op :: ops' => run_ops ops' (run_op op w).1
  end.

Lemma frozen_run t ops w : frozen t w -> frozen t (run_ops ops w).
Proof. revert w. induction ops as [|op ops IH]; intros w Hw; [done|]. by apply IH, frozen_op. Qed.

(** ** A lost page *)
Definition lost : string := "Corruption: referenced page doesn't exist.".

Lemma enqueue_lost {E} o ms w :
  let b := book_of (storage w) o in
  0 <= begin b < end_ b -> is_Some (ready_neighbours b) -> pg (storage w) o (end_ b - 1) = None ->
  exists w', enqueue_messages (E := E) ms o w = (w', Ok tt) /\ storage w' = storage w /\
    entered o (trace w') = entered o (trace w) ++ ms /\ alarms (trace w') = replicate (length ms) lost ++ alarms (trace w).
Proof.
  intros b Hb Hn Hp. unfold enqueue_messages.
  assert (forall w0, storage w0 = storage w -> exists w', st_for (fun _ m => do_enqueue_message (E := E) o m) tt ms w0 = (w', Ok tt) /\ storage w' = storage w /\
    entered o (trace w') = entered o (trace w0) ++ ms /\ alarms (trace w') = replicate (length ms) lost ++ alarms (trace w0)) as Hall.
  { induction ms as [|m ms IH]; intros w0 Hs; [exists w0; by rewrite app_nil_r|]. cbn [st_for].
    rewrite (st_bind_ok _ _ w0 {| storage := storage w; env := env w0; trace := Defensive lost :: Enqueued o m :: trace w0 |} tt).
    2:{ unfold do_enqueue_message. rewrite note_bind, get_book_bind. cbn [storage noted]. rewrite Hs. fold b. cbv zeta. cbn [begin end_ set_messages ready_neighbours].
        rewrite (proj2 (Z.ltb_lt _ _)) by lia. rewrite bool_decide_true by done. unfold debug_assert. rewrite (st_bind_ok _ _ _ _ tt) by done.
        rewrite (st_lift_ok _ _ _ (end_ b - 1)) by (apply sub_u_ok; lia). rewrite get_page_bind. cbn [storage noted]. rewrite Hs. unfold pg in Hp. rewrite Hp.
        unfold defensive, note, st_modify, noted. by rewrite <- Hs. }
    edestruct IH as (w' & -> & Hs' & He & Ha); [reflexivity|]. exists w'. split; [done|]. split; [done|]. cbn [trace] in *. rewrite He, Ha, !entered_cons.
    cbn [entered_by]. rewrite decide_True, app_nil_r, <- app_assoc by done. split; [done|]. cbn [length]. rewrite replicate_S_end, <- app_assoc. done. }
  destruct (Hall w eq_refl) as (w' & Heq & Hs & He & Ha). rewrite (st_bind_ok _ _ _ _ _ Heq), get_book_bind, Hs. fold b.
  unfold on_queue_changed, footprint_of, debug_assert. rewrite (proj2 (Z.leb_le _ _)) by lia. eexists. split; [reflexivity|]. cbn [storage trace].
  rewrite entered_cons, app_nil_r. done.
Qed.

Section laws.
Context {laws : HeaderCodecLaws codec} {claws : ConfigLaws}.

(** A parked message and the page without it. *)
Lemma parked_page l q s o i (idx : nat) p m : Inv None l q s -> pg s o i = Some p -> items_of p !! idx = Some (false, m) ->
  exists p', note_processed_at_pos (E := Error) p (offset (items_of p) idx) = Ok p' /\ remaining p' = remaining p - 1 /\
    (remaining p' = 0 -> remaining_size p' = 0) /\ 1 <= count (book_of s o) /\ 0 <= begin (book_of s o) <= end_ (book_of s o).
Proof.
  intros I Hp Hit. pose proof (inv_queue _ _ _ _ I o) as Q. rewrite bool_decide_false in Q by done. pose proof (qi_page _ _ _ _ Q _ _ Hp) as Hok.
  destruct (note_processed_spec heap_range (E := Error) p _ _ idx m Hok Hit) as (p' & Hnp & Hok'). exists p'. split; [done|].
  split; [by rewrite (ok_remaining _ _ _ _ Hok), (ok_remaining _ _ _ _ Hok'), (weigh_mark _ _ _ _ Hit)|]. split; [by intros Hz; apply (complete_empty _ _ _ Hok')|].
  split; [by apply (page_le_counters heap_range _ _ _ _ _ Q Hp)|apply (qi_range _ _ _ _ Q)].
Qed.

(** C39: A message that was left behind as overweight on the page that is next to be serviced,
    and that is the last one of that page that is not processed, can be executed on demand.
    That removes the page, but the queue still begins with it and stays in the ready ring.  If
    it was the only page, all messages that are enqueued for the queue then are lost: an
    assertion fails for each of them, and the storage does not change. *)
Theorem overweight_strands_queue w o p (idx : nat) m limit : reachable w -> let s := storage w in let b := book_of s o in
  begin b < end_ b -> pg s o (begin b) = Some p -> remaining p = 1 -> items_of p !! idx = Some (false, m) -> Z.of_nat idx < first_index p ->
  is_paused (env w) o = false -> dealt_with (on_demand w o m limit) -> out_calls (on_demand w o m limit) = [] ->
  exists w1 used, do_execute_overweight false o (begin b) (Z.of_nat idx) limit w = (w1, Ok used) /\
    let b1 := book_of (storage w1) o in
    begin b1 = begin b /\ end_ b1 = end_ b /\ is_Some (ready_neighbours b1) /\ pg (storage w1) o (begin b1) = None /\
    (end_ b = begin b + 1 -> forall ms, exists w2, enqueue_messages (E := DispatchError) ms o w1 = (w2, Ok tt) /\ storage w2 = storage w1 /\
       entered o (trace w2) = entered o (trace w1) ++ ms /\ alarms (trace w2) = replicate (length ms) lost ++ alarms (trace w1)).
Proof.
  intros (l & q & Hi)%reachable_implements s b Hlt Hp Hr Hit Hf Hpa Hd Hc. pose proof Hi as [_ I].
  destruct (parked_page l q s o (begin b) idx p m I Hp Hit) as (p' & Hnp & Hr' & Hz & Hcount & Hrange). fold b in Hcount, Hrange.
  assert (is_Some (ready_neighbours b)) as Hn by (apply (linked_is_some _ _ o (inv_linked _ _ _ _ I)), (inv_ready _ _ _ _ I); by left).
  destruct (payload_run (E := Error) o (begin b) (Z.of_nat idx) m (WeightMeter.with_limit limit) Weight.MAX w (set_env (out_env (on_demand w o m limit)) w)) as (w2 & Hpay & Hw2).
  { fold (on_demand w o m limit). by rewrite Hc. }
  fold (on_demand w o m limit) in Hpay. set (out := on_demand w o m limit) in *. assert (storage w2 = s) as Hs2 by (by destruct Hw2 as [->|[ev ->]]).
  destruct (finish_overweight_run o (begin b) (offset (items_of p) idx) m b p p' (out_meter out) w2 Hnp Hz Hcount ltac:(lia)) as [fp Hfin].
  rewrite Hr', Hr in Hfin. change (1 - 1 =? 0) with true in Hfin. cbv iota in Hfin. rewrite Hs2 in Hfin. eexists _, _. split.
  { cbn [do_execute_overweight with_service_mutex]. rewrite (execute_inner_run o (begin b) idx limit p m l q w I Hpa Hp Hit ltac:(by right)), (st_bind_ok _ _ _ _ _ Hpay).
    unfold dealt_with in Hd. fold s b. destruct (status_of _ _) as [| | |[]|]; try done; exact Hfin. }
  cbn [storage]. rewrite book_of_insert, decide_True by done. cbn [begin end_ set_messages set_count ready_neighbours].
  split; [done|]. split; [done|]. split; [done|]. split; [change (pg (remove_page o (begin b) s) o (begin b) = None); by rewrite pg_remove, decide_True|].
  intros He ms. apply enqueue_lost; cbn [storage]; rewrite book_of_insert, decide_True by done; cbn [begin end_ set_messages set_count ready_neighbours]; [lia|done|].
  change (pg (remove_page o (begin b) s) o (end_ b - 1) = None). rewrite pg_remove, decide_True; [done|]. split; [done|lia].
Qed.
Lemma after_enqueued o ms (t : list (Effect Origin Hash)) :
  let t' := reverse (Enqueued o <$> ms) ++ t in entered o t' = entered o t ++ ms /\ forall x, served x t' = served x t.
Proof.
  revert t. induction ms as [|m ms IH]; intros t; [by rewrite app_nil_r|]. rewrite fmap_cons, reverse_cons, <- app_assoc. cbn [app]. destruct (IH (Enqueued o m :: t)) as [He Hs].
  split; [rewrite He, entered_cons; cbn [entered_by]; by rewrite decide_True, <- app_assoc|]. intros x. rewrite Hs, served_cons. apply app_nil_r.
Qed.

(** The only queue of the ring gets a book that is not in the ring. *)
Lemma overwritten_ring l' q' w1 o b (f : Storage Origin -> Storage Origin) :
  implements None l' q' w1 -> (forall x, x ∈ l' <-> x = o) -> ready_neighbours b = None -> BookStateFor (f (storage w1)) = BookStateFor (storage w1) ->
  ServiceHead (f (storage w1)) = ServiceHead (storage w1) -> halted (insert_book o b (f (storage w1))).
Proof.
  intros [_ I] Hl Hb Hbooks Hhead. split.
  - cbn [ServiceHead insert_book]. rewrite Hhead, (inv_head _ _ _ _ I). destruct l' as [|x l']; [|done]. exfalso. by apply (not_elem_of_nil o), Hl.
  - intros x. rewrite book_of_insert. case_decide as Hx; [done|]. unfold book_of. rewrite Hbooks. apply (linked_out _ _ (inv_linked _ _ _ _ I)). by rewrite Hl.
Qed.

(** C40: No queue is ready, and a message that was left behind as overweight is executed on
    demand.  If the processor enqueues messages for the same queue, as it may when the message
    is serviced in its turn, these are lost, and all queues are halted: the head of the ring
    points to the queue, but the book that is written back has left the ring.  Whatever calls
    come then, with whatever arguments, no message of any queue is serviced again. *)
Theorem overweight_recursion_halts_queues w o i p (idx : nat) m limit c : reachable w -> let s := storage w in let out := on_demand w o m limit in
  ServiceHead s = None -> is_paused (env w) o = false -> pg s o i = Some p -> items_of p !! idx = Some (false, m) ->
  dealt_with out -> out_calls out = [c] -> call_origin c = o -> call_messages c <> [] -> pages_fit s [c] ->
  exists w1 used, do_execute_overweight false o i (Z.of_nat idx) limit w = (w1, Ok used) /\
    entered o (trace w1) = entered o (trace w) ++ call_messages c /\ waiting_messages (storage w1) o = [] /\
    forall ops x, served x (trace (run_ops ops w1)) = served x (trace w).
Proof.
  intros (l & q & Hi)%reachable_implements s out Hhead Hpa Hp Hit Hd Hc Ho Hms Hfit. pose proof Hi as [_ I]. set (b := book_of s o).
  assert (l = []) as -> by (pose proof (inv_head _ _ _ _ I) as Hh; fold s in Hh; rewrite Hhead in Hh; by destruct l).
  assert (end_ b <= begin b) as Heb. { destruct (Z.lt_ge_cases (begin b) (end_ b)) as [Hlt|]; [|lia]. exfalso. apply (not_elem_of_nil o), (inv_ready _ _ _ _ I). by left. }
  assert (ready_neighbours b = None) as Hnb by (apply (linked_out _ _ (inv_linked _ _ _ _ I)), not_elem_of_nil).
  destruct (parked_page [] q s o i idx p m I Hp Hit) as (p' & Hnp & _ & Hz & Hcount & Hrange). fold b in Hcount, Hrange.
  assert (behind b p i idx) as Hbh. { left. pose proof (inv_queue _ _ _ _ I o) as Q. fold s b in Q. pose proof (qi_index _ _ _ _ Q _ _ Hp). lia. }
  assert (lengths_ok [c]) as Hlen by (rewrite <- Hc; apply process_lengths).
  unfold lengths_ok, pages_fit, all_messages in *. rewrite Forall_singleton in Hfit. cbn in Hlen, Hfit. rewrite app_nil_r in *.
  destruct (run_call_spec (E := Error) c (set_env (out_env out) w) [] q Hi Hlen Hfit) as (w1 & l' & q' & Hcall & [Hi1 _ _ _ _] & _ & Hl' & fc & Ht1).
  destruct (payload_run (E := Error) o i (Z.of_nat idx) m (WeightMeter.with_limit limit) Weight.MAX w w1) as (w2 & Hpay & Hw2).
  { fold (on_demand w o m limit). fold out. rewrite Hc. cbn [st_for]. by rewrite (st_bind_ok _ _ _ _ _ Hcall). }
  fold (on_demand w o m limit) in Hpay. fold out in Hpay.
  destruct (finish_overweight_run o i (offset (items_of p) idx) m b p p' (out_meter out) w2 Hnp Hz Hcount ltac:(lia)) as [fp Hfin].
  set (b2 := if remaining p' =? 0 then _ else _) in Hfin. eexists _, _. split.
  { cbn [do_execute_overweight with_service_mutex]. rewrite (execute_inner_run o i idx limit p m [] q w I Hpa Hp Hit Hbh), (st_bind_ok _ _ _ _ _ Hpay).
    unfold dealt_with in Hd. fold s b. destruct (status_of _ _) as [| | |[]|]; try done; exact Hfin. }
  assert (storage w2 = storage w1 /\ entered o (trace w2) = entered o (trace w) ++ call_messages c /\ forall x, served x (trace w2) = served x (trace w)) as (Hs2 & He2 & Hsv2).
  { destruct (after_enqueued o (call_messages c) (trace w)) as [He Hs]. rewrite Ho in Ht1. assert (entered o (trace w1) = entered o (trace w) ++ call_messages c) as He1.
    { rewrite Ht1, entered_cons, app_nil_r. exact He. }
    assert (forall x, served x (trace w1) = served x (trace w)) as Hs1 by (intros x; rewrite Ht1, served_cons, app_nil_r; apply Hs).
    destruct Hw2 as [->|[ev ->]]; [done|]. split; [done|]. cbn [trace noted]. split; [by rewrite entered_cons, app_nil_r|]. intros x. by rewrite served_cons, app_nil_r. }
  cbn [trace storage]. rewrite !entered_cons, !app_nil_r. split; [done|]. split.
  { unfold waiting_messages. rewrite book_of_insert, decide_True by done. unfold pending_of. replace (end_ b2) with (begin b2) by (unfold b2; destruct (_ =? _); simpl; lia).
    by rewrite Z.sub_diag. }
  intros ops x. eapply frozen_run. split; [|intros y; cbn [trace]; by rewrite !served_cons, !app_nil_r].
  cbn [storage]. rewrite Hs2. apply (overwritten_ring l' q' w1 o b2 (if remaining p' =? 0 then remove_page o i else insert_page o i p') Hi1).
  - intros y. rewrite Hl', Ho. split; [intros [?%not_elem_of_nil|[? _]]; done|by right].
  - unfold b2. by destruct (_ =? _).
  - by destruct (_ =? _).
  - by destruct (_ =? _).
Qed.
End laws.
End harm.
