(* ===== verification/MessageQueueExamples.v ===== *)
(** * Examples for the message queue

    A runtime whose item headers are encoded as those of the code are (a little-endian [u32]
    and a byte), with a simple message processor; the theorems on runs applied to it. *)
From stdpp Require Import base gmap list strings.
From Stdlib Require Import ZArith Lia.
From S2P Require Import Prelude Weights MessageQueue MessageQueuePage MessageQueueSpec MessageQueueRing MessageQueueInv MessageQueueService MessageQueueDemand MessageQueueHistory MessageQueueProgress MessageQueueProps MessageQueueCheck MessageQueueHarm.
Set Warnings "-clear-no-such-hyp".
Open Scope Z_scope.

(** ** Headers *)
Definition le4 (x : Z) : list Z := [x mod 256; x / 256 mod 256; x / 65536 mod 256; x / 16777216].

#[export] Instance scale_header : HeaderCodec := {
  size_bits := 32;
  max_encoded_len := 5;
  encode h := le4 (payload_len h) ++ [if is_processed h then 1 else 0];
  decode l :=
    match l with
    | a :: b :: c :: d :: f :: rest =>
        if f =? 0 then Some ({| payload_len := a + 256 * b + 65536 * c + 16777216 * d; is_processed := false |}, rest)
        else if f =? 1 then Some ({| payload_len := a + 256 * b + 65536 * c + 16777216 * d; is_processed := true |}, rest)
        else None
    | _ => None
    end;
}.

#[export] Instance scale_header_laws : HeaderCodecLaws scale_header.
Proof.
  split; [done|done|done| |].
  - intros [n d] l Hn. simpl in *. assert (n mod 256 + 256 * (n / 256 mod 256) + 65536 * (n / 65536 mod 256) + 16777216 * (n / 16777216) = n) as Hsum.
    { replace 65536 with (256 * 256) by done. replace 16777216 with (256 * 256 * 256) by done. rewrite <- !Zdiv.Zdiv_Zdiv by lia.
      pose proof (Z_div_mod_eq_full n 256). pose proof (Z_div_mod_eq_full (n / 256) 256). pose proof (Z_div_mod_eq_full (n / 256 / 256) 256). lia. }
    by destruct d; simpl; rewrite Hsum.
  - intros l Hl. simpl in *. by destruct l as [|? [|? [|? [|? [|? ?]]]]]; simpl in *; try lia.
Qed.

(** ** A runtime *)
Definition wt (n : Z) : Weight := {| ref_time := n; proof_size := 0 |}.

(** A message [n] takes the weight [n]; a message [n, o, x] also enqueues [x] for [o]. *)
Definition example_process (m : Message) (o : Z) (meter : WeightMeter) (id : Message) (paused : list Z) (s : Storage Z) : Outcome Z Message (list Z) :=
  let need := wt (default 0 (head m) mod 2 ^ 64) in
  let calls := match m with [_; x; y] => [CallMessage [y] x] | _ => [] end in
  match WeightMeter.try_consume meter need with
  | (meter, Ok _) => {| out_env := paused; out_calls := calls; out_meter := meter; out_id := id; out_result := inl true |}
  | (meter, _) => {| out_env := paused; out_calls := []; out_meter := meter; out_id := id; out_result := inr (Overweight_ need) |}
  end.

(** The world outside has the list of the paused queues. *)
#[export] Instance example_config : Config Z Message (list Z) := {
  HeapSize := 40;
  MaxStale := 1;
  ServiceWeight := Some (wt 20);
  IdleMaxServiceWeight := Some (wt 20);
  blake2_256 m := m;
  is_paused paused o := bool_decide (o ∈ paused);
  process_message := example_process;
  weights := {| w_bump_service_head := wt 1; w_service_queue_base := wt 1; w_service_page_base_completion := wt 1;
                w_service_page_base_no_completion := wt 1; w_service_page_item := wt 1; w_ready_ring_unknit := wt 1;
                w_execute_overweight_page_removed := wt 1; w_execute_overweight_page_updated := wt 1 |};
}.

#[export] Instance example_config_laws : ConfigLaws (Origin := Z) (Hash := Message) (Env := list Z).
Proof.
  assert (forall n, 0 <= n < 2 ^ 64 -> in_range (wt n)) as Hwt by (intros n Hn; by split).
  split; [done|done|simpl; split_and!; by apply Hwt|intros x [[= <-]|[= <-]]; by apply Hwt|done|..].
  - intros m o meter id e s Hm. simpl. unfold example_process.
    destruct (try_consume_spec meter (wt (default 0 (head m) mod 2 ^ 64)) Hm) as (m' & r & -> & Ha & _); [apply Hwt, Z.mod_pos_bound; lia|].
    by destruct r.
  - intros m o meter id e s m1 Hm1. simpl in Hm1. unfold example_process in Hm1.
    destruct (WeightMeter.try_consume _ _) as [m' [[]|e'|]]; [|by apply not_elem_of_nil in Hm1..].
    destruct m as [|n [|x [|y [|? ?]]]]; try by apply not_elem_of_nil in Hm1. cbn in Hm1. apply list_elem_of_singleton in Hm1 as ->. by vm_compute.
Qed.

(** ** Runs *)
Definition ok_to_call (s : Storage Z) (c : Call Z) : bool :=
  forallb (fun m => item_len m <=? MaxMessageLen) (call_messages c) &&
  (end_ (book_of s (call_origin c)) + Z.of_nat (length (call_messages c)) <? 2 ^ 32).

Definition weight_ok (x : Weight) : bool := (0 <=? ref_time x) && (ref_time x <? 2 ^ 64) && (0 <=? proof_size x) && (proof_size x <? 2 ^ 64).

#[local] Instance neighbours_eq : EqDecision (Neighbours Z).
Proof. solve_decision. Defined.
#[local] Instance book_eq : EqDecision (BookState Z).
Proof. solve_decision. Defined.
#[local] Instance page_eq : EqDecision Page.
Proof. solve_decision. Defined.

Definition pages_of (o : Z) (s : Storage Z) : gmap (Z * Z) Page := filter (fun x => x.1.1 = o) (Pages s).

Definition same_queueb (o : Z) (s s1 : Storage Z) : bool := bool_decide (book_of s1 o = book_of s o) && bool_decide (pages_of o s1 = pages_of o s).

Definition harmlessb (w : World Z Message (list Z)) (o i : Z) (idx : nat) (limit : Weight) : bool :=
  match pg (storage w) o i with
  | Some p =>
      match items_of p !! idx with
      | Some (false, m) =>
          let out := on_demand w o m limit in
          bool_decide (pages_fit (storage w) (out_calls out)) &&
          (negb (bool_decide (dealt_with out)) ||
           same_queueb o (storage w) (storage (calls_made w out)) && negb ((i =? begin (book_of (storage w) o)) && (remaining p =? 1)))
      | _ => true
      end
  | None => true
  end.

Definition admissibleb (op : Op (Origin := Z) (Env := list Z)) (w : World Z Message (list Z)) : bool :=
  match op with
  | OpEnqueue c => ok_to_call (storage w) c
  | OpIdle x | OpService x => weight_ok x
  | OpExecute _ o i idx x => weight_ok x && harmlessb w o i idx x
  | _ => true
  end.

Definition pages_last_in (op : Op (Origin := Z) (Env := list Z)) (w : World Z Message (list Z)) : Prop :=
  match op with
  | OpInitialize => from_option (pages_last w) True ServiceWeight
  | OpIdle x => from_option (fun limit => pages_last w (Weight.min limit x)) True IdleMaxServiceWeight
  | OpService x => pages_last w x
  | _ => True
  end.

Lemma weight_ok_range x : weight_ok x = true -> in_range x.
Proof. unfold weight_ok, in_range, in_u. rewrite !andb_true_iff, !Z.leb_le, !Z.ltb_lt. lia. Qed.

Lemma same_queueb_ok o s s1 : same_queueb o s s1 = true -> same_queue o s s1.
Proof.
  unfold same_queueb. rewrite andb_true_iff, !bool_decide_eq_true. intros [Hb Hp]. split; [done|]. intros i. unfold pg.
  assert (forall s', pages_of o s' !! (o, i) = Pages s' !! (o, i)) as Hl; [|by rewrite <- !Hl, Hp].
  intros s'. unfold pages_of. rewrite map_lookup_filter. destruct (Pages s' !! (o, i)) as [p|]; [|done]. cbn. by rewrite option_guard_True.
Qed.

Lemma harmlessb_ok w o i idx limit : harmlessb w o i idx limit = true -> harmless w o i idx limit.
Proof.
  unfold harmlessb, harmless. intros Hb p m Hp Hi. rewrite Hp, Hi in Hb. cbv zeta in *. apply andb_true_iff in Hb as [Hf%bool_decide_eq_true Hd]. split; [done|].
  intros Hdealt. rewrite bool_decide_true in Hd by done. cbn [negb orb] in Hd. apply andb_true_iff in Hd as [Hs%same_queueb_ok Hr]. split; [done|].
  intros Hib Hr1. by rewrite (proj2 (Z.eqb_eq _ _) Hib), Hr1 in Hr.
Qed.

Lemma admissibleb_ok op w : admissibleb op w = true -> pages_last_in op w -> admissible op w.
Proof.
  destruct op as [c| | |x|x| |caller o i idx x|]; cbn [admissibleb admissible pages_last_in]; intros Ha Hp; try done; try (split; [by apply weight_ok_range|done]).
  - unfold ok_to_call in Ha. rewrite andb_true_iff, forallb_forall, Z.ltb_lt in Ha. destruct Ha as [Hm He].
    unfold calls_fit, lengths_ok, pages_fit, all_messages. cbn [fmap list_fmap concat]. rewrite app_nil_r. split.
    + intros m Hm'%list_elem_of_In. by apply Z.leb_le, Hm.
    + by apply Forall_singleton.
  - apply andb_true_iff in Ha as [?%weight_ok_range ?%harmlessb_ok]. done.
Qed.

(** Runs the calls one after the other, as long as they are admissible. *)
Fixpoint script (ops : list Op) (w : World Z Message (list Z)) : option (World Z Message (list Z)) :=
  match ops with
  | [] => Some w
  | op :: ops' => if admissibleb op w then script ops' (run_op op w).1 else None
  end.

Fixpoint lasting (ops : list Op) (w : World Z Message (list Z)) : Prop :=
  match ops with
  | [] => True
  | op :: ops' => pages_last_in op w /\ lasting ops' (run_op op w).1
  end.

Lemma script_reachable ops w w' : reachable w -> script ops w = Some w' -> lasting ops w -> reachable w'.
Proof.
  revert w. induction ops as [|op ops IH]; intros w Hw Hs Hl; simpl in Hs; [by simplify_eq|]. destruct (admissibleb op w) eqn:Ha; [|done]. destruct Hl as [Hp Hl].
  apply (IH (run_op op w).1); [|done|done]. eapply reach_step; [exact Hw|by apply admissibleb_ok|by rewrite <- surjective_pairing].
Qed.

Definition after (ops : list Op) : World Z Message (list Z) := default (genesis []) (script ops (genesis [])).

Lemma script_end_reachable ops : is_Some (script ops (genesis [])) -> lasting ops (genesis []) -> reachable (after ops).
Proof. intros [w Hw] Hl. unfold after. rewrite Hw. by apply (script_reachable ops (genesis [])); [constructor|..]. Qed.

Ltac lasts := hnf; lazymatch goal with |- True => exact I | |- _ /\ _ => split; lasts | |- pages_last _ _ => constructor; vm_compute; reflexivity end.
Ltac runs := apply script_end_reachable; [vm_compute; eauto|lasts].

(** Two queues, of which one has a message that is too heavy. *)
Definition busy : list (Op (Origin := Z) (Env := list Z)) :=
  [OpEnqueue (CallMessages [[2]; [100]; [3]] 7); OpEnqueue (CallMessage [1] 8); OpInitialize].

Lemma messages_conserved_witness : entered 7 (trace (after busy)) = [[2]; [100]; [3]] /\
  entered 7 (trace (after busy)) ≡ₚ finished 7 (trace (after busy)) ++ waiting_messages (storage (after busy)) 7 ++ parked_messages (storage (after busy)) 7.
Proof. split; [by vm_compute|]. apply (messages_conserved (after busy) 7). runs. Defined.

Lemma served_in_order_witness : served 7 (trace (after busy)) = [[2]; [100]; [3]] /\
  entered 7 (trace (after busy)) = served 7 (trace (after busy)) ++ waiting_messages (storage (after busy)) 7.
Proof.
  split; [by vm_compute|]. apply (served_in_order (after busy) 7); [runs|].
  assert (forallb (fun e => match e with Swept o => negb (o =? 7) | _ => true end) (trace (after busy)) = true) as Hs by (by vm_compute).
  rewrite forallb_forall in Hs. by intros Hin%list_elem_of_In%Hs.
Defined.

Lemma footprint_exact_witness : footprint (E := DispatchError) 7 (after busy) =
  (after busy, Ok {| pages := 1; ready_pages := 0; footprint_count := 1; footprint_size := 1 |}).
Proof. rewrite (footprint_exact (after busy) 7) by runs. by vm_compute. Defined.

(** Both queues wait to be serviced. *)
Definition queued : list (Op (Origin := Z) (Env := list Z)) := take 2 busy.

Lemma ring_has_ready_queues_witness : exists l, NoDup l /\ ServiceHead (storage (after queued)) = head l /\ 7 ∈ l /\ 8 ∈ l.
Proof.
  destruct (ring_has_ready_queues (after queued)) as (l & Hnd & Hh & Hl & _); [runs|]. exists l. rewrite !Hl. split; [done|]. split; [done|]. split; by vm_compute.
Defined.


Lemma service_ends_within_weight_witness : exists w' used, service_queues (E := DispatchError) false (wt 9) (after queued) = (w', Ok used) /\ within used (wt 9).
Proof.
  destruct (service_ends_within_weight (after queued) false (wt 9)) as (w' & used & Heq & Hu & _); [runs|by apply weight_ok_range|right; lasts|].
  exists w', used. split; [exact Heq|exact Hu].
Defined.



(** A heavy message that enqueues another one for a different queue. *)
Definition relaying : list (Op (Origin := Z) (Env := list Z)) := [OpEnqueue (CallMessage [100; 8; 5] 7); OpInitialize].

Lemma execute_overweight_outcomes_witness : exists w' q q', do_execute_overweight false 7 0 0 (wt 150) (after relaying) = (w', Ok (wt 101)) /\
  entered 8 (trace w') = [[5]] /\ executed 7 0 0 (wt 150) (after relaying) w' (Ok (wt 101)) q q'.
Proof.
  destruct (execute_overweight_outcomes (after relaying) 7 0 0 (wt 150)) as (w' & r & q & q' & Heq & _ & _ & Hex); [runs|by apply weight_ok_range|apply harmlessb_ok; by vm_compute|].
  assert (w' = (do_execute_overweight false 7 0 (Z.of_nat 0) (wt 150) (after relaying)).1 /\ r = Ok (wt 101)) as [Hw' ->].
  { split; [by rewrite Heq|]. transitivity ((do_execute_overweight false 7 0 (Z.of_nat 0) (wt 150) (after relaying)).2); [by rewrite Heq|vm_compute; reflexivity]. }
  exists w', q, q'. split; [exact Heq|]. split; [rewrite Hw'; vm_compute; reflexivity|exact Hex].
Defined.

Lemma executed_only_once_witness : let w' := (do_execute_overweight false 7 0 1 (wt 150) (after busy)).1 in
  exists e, do_execute_overweight false 7 0 1 (wt 200) w' = (w', Err e) /\ (e = AlreadyProcessed \/ e = NoPage).
Proof.
  intros w'. apply (executed_only_once (after busy) 7 0 1 (wt 150) (wt 200) w' (wt 101)).
  - runs.
  - by apply weight_ok_range.
  - apply harmlessb_ok. by vm_compute.
  - vm_compute. reflexivity.
  - by vm_compute.
Defined.

(** Two pages with a heavy message each. *)
Definition heavy : Message := 100 :: replicate 19 0.
Definition stale_pages : list (Op (Origin := Z) (Env := list Z)) := [OpEnqueue (CallMessages [heavy; heavy] 7); OpInitialize].

Lemma reap_page_outcomes_witness : exists w' q q', do_reap_page false 7 0 (after stale_pages) = (w', Ok tt) /\ reaped 7 0 (after stale_pages) w' (Ok tt) q q'.
Proof.
  destruct (reap_page_outcomes (after stale_pages) 7 0) as (w' & r & q & q' & Heq & _ & _ & Hex); [runs|].
  assert (r = Ok tt) as -> by (transitivity ((do_reap_page false 7 0 (after stale_pages)).2); [by rewrite Heq|vm_compute; reflexivity]).
  exists w', q, q'. split; [exact Heq|exact Hex].
Defined.


Lemma page_roundtrip_witness : exists p, fill_page (E := DispatchError) [2] [[100]; [3]] (after []) = (after [], Ok (Some p)) /\
  (fun r => (r.1.2, r.2)) <$> peek_index p 1 = Some (false, [100]).
Proof.
  destruct (page_roundtrip [2] [[100]; [3]] (after [])) as (p & Heq & _ & Hp).
  - intros y Hy. rewrite !elem_of_cons in Hy. destruct Hy as [->|[->|[->|Hy%not_elem_of_nil]]]; by vm_compute.
  - by vm_compute.
  - exists p. split; [exact Heq|]. exact (Hp 1%nat).
Defined.

Definition unsuspiciousb (s : Storage Z) : bool := forallb (fun b =>
  (end_ b <? 2 ^ 30) && (message_count b <? 2 ^ 30) && (size_ b <? 2 ^ 30) && ((end_ b <=? begin b) || (0 <? size_ b))) (map_to_list (BookStateFor s)).*2.

Lemma unsuspiciousb_ok s : unsuspiciousb s = true -> unsuspicious s.
Proof.
  unfold unsuspiciousb. rewrite forallb_forall. intros Hall o. unfold book_of. destruct (BookStateFor s !! o) as [b|] eqn:Hb; simpl; [|lia].
  specialize (Hall b). rewrite !andb_true_iff, orb_true_iff, !Z.ltb_lt, Z.leb_le in Hall. destruct Hall as [[[? ?] ?] Hsz]; [|split_and!; lia].
  apply list_elem_of_In, list_elem_of_fmap. exists (o, b). split; [done|]. by apply elem_of_map_to_list.
Qed.

Lemma try_state_accepts_witness : do_try_state (after queued) = (after queued, Ok tt).
Proof. apply try_state_accepts; [runs|]. apply unsuspiciousb_ok. by vm_compute. Defined.

Lemma integrity_test_suffices_witness : exists w' used, on_initialize (E := DispatchError) (after queued) = (w', Ok used) /\ alarms (trace w') = [].
Proof.
  destruct (integrity_test_suffices (after queued)) as (_ & w' & used & Heq & Ha); [by vm_compute|runs|lasts|]. exists w', used. split; [exact Heq|]. rewrite Ha. by vm_compute.
Defined.

(** A queue that waits with an empty message is rejected by the check. *)
Example try_state_rejects_empty_message :
  (do_try_state (after [OpEnqueue (CallMessage [] 7)])).2 = Err "There must be some message size if in ReadyRing"%string.
Proof. vm_compute. reflexivity. Qed.

(** ** Where [execute_overweight] does harm *)
(** The only message of a page is overweight, and the weight is used up when it is parked:
    the page is still the next one to be serviced. *)
Definition stranding : list (Op (Origin := Z) (Env := list Z)) := [OpEnqueue (CallMessage [100] 7); OpService (wt 5)].

Definition stranded_page : Page := {| remaining := 1; remaining_size := 1; first_index := 1; first_ := 6; last_ := 0; heap := [1; 0; 0; 0; 0; 100] |}.

Lemma overweight_strands_queue_witness : exists w1 w2 used, do_execute_overweight false 7 0 0 (wt 200) (after stranding) = (w1, Ok used) /\
  enqueue_messages (E := DispatchError) [[1]; [2]] 7 w1 = (w2, Ok tt) /\ storage w2 = storage w1 /\ alarms (trace w2) = [lost; lost] ++ alarms (trace w1).
Proof.
  destruct (overweight_strands_queue (after stranding) 7 stranded_page 0 [100] (wt 200)) as (w1 & used & Heq & _ & _ & _ & _ & Hlost);
    [runs|by vm_compute|vm_compute; reflexivity|done|vm_compute; reflexivity|done|by vm_compute|by vm_compute|vm_compute; reflexivity|].
  destruct (Hlost ltac:(vm_compute; reflexivity) [[1]; [2]]) as (w2 & Hen & Hs & _ & Ha). exists w1, w2, used. split; [exact Heq|]. split; [exact Hen|]. split; [exact Hs|exact Ha].
Defined.

(** A parked message that enqueues another one for its own queue. *)
Definition recursing : list (Op (Origin := Z) (Env := list Z)) := [OpEnqueue (CallMessage [100; 7; 1] 7); OpService (wt 20)].

Definition recursing_page : Page := {| remaining := 1; remaining_size := 3; first_index := 1; first_ := 8; last_ := 0; heap := [3; 0; 0; 0; 0; 100; 7; 1] |}.

Lemma overweight_recursion_halts_queues_witness : exists w1 used, do_execute_overweight false 7 0 0 (wt 200) (after recursing) = (w1, Ok used) /\
  entered 7 (trace w1) = [[100; 7; 1]; [1]] /\ waiting_messages (storage w1) 7 = [] /\
  served 8 (trace (run_ops [OpEnqueue (CallMessage [1] 8); OpInitialize; OpService (wt 1000)] w1)) = [].
Proof.
  destruct (overweight_recursion_halts_queues (after recursing) 7 0 recursing_page 0 [100; 7; 1] (wt 200) (CallMessage [1] 7)) as (w1 & used & Heq & He & Hw & Hs);
    [runs|vm_compute; reflexivity..|by vm_compute|vm_compute; reflexivity|done|done|by apply Forall_singleton; vm_compute|].
  exists w1, used. split; [exact Heq|]. split; [rewrite He; vm_compute; reflexivity|]. split; [exact Hw|]. rewrite Hs. vm_compute. reflexivity.
Defined.
